(* ===== verification/_CoqProject ===== *)
-Q . S2P
Prelude.v
Multiset.v
Interval.v
RmaSearch.v
RmaState.v
RmaAnalyzer.v
RmaLifecycle.v
RmaOverload.v
IR.v
Samples.v
Search.v
Utils.v
Postdominance.v
Collectives.v
CollectiveList.v
CfgVisitors.v
CollListAnalysis.v
CollListSound.v
CollListLoopSound.v
CollListExamples.v
Warnings.v
Instrumentation.v
DynamicCheck.v
ExtInfo.v
PTACallGraph.v
LocalConcurrency.v
LocalConcurrencySound.v
LocalConcurrencyExamples.v
RmaInstrumentation.v
AndersenNodes.v
AndersenSolver.v
AndersenSound.v
AndersenCollect.v
AndersenCollectSound.v
AndersenCover.v
Andersen.v
MemRegions.v
ModRef.v
DepGraph.v
DepGraphPhi.v
DepGraphTaint.v
DepGraphContext.v
DepGraphIpdf.v
MemSSA.v
MemSSARename.v
MemSSAPlace.v
MemSSABuild.v
DepGraphBuild.v
DepGraphRules.v
DepGraphPass.v
DepGraphPath.v
DebugTrace.v
Wrapper.v
Report.v
OmpThreads.v
