(* ===== verification/Prelude.v ===== *)
(** * PARCOACH: a verification development

    PARCOACH checks parallel programs. At compile time an LLVM plugin
    ([src/src/aSSA], [src/src/rma]) looks for collective operations that not all
    processes reach and for overlapping one-sided communications, and
    instruments the program; at run time small libraries
    ([src/src/instrumentation]) check the colours of collectives and the accesses
    to RMA windows. The development models the analyses, the instrumentation and
    the run-time libraries as executable functions on explicit states, and
    proves what they compute, where they stop and where they go wrong.

    ** Conventions

    A routine that may loop or fail returns [res] (IR.v): [Ok], [OutOfFuel] when
    the fuel of a loop is spent, [Broken] where the code asserts, calls
    [llvm_unreachable] or uses a container out of range. The run-time analyzer
    is written in the monad of RmaState.v: a state, a trace of the MPI calls it
    makes, and an outcome that may be an abort, a wait for ever, or undefined
    behaviour. Machine integers are [Z] with their wrap-around ([u64], [u32]).
    LLVM, MPI and the C++ library are not in the source: what the code asks of
    them are fields of the module (IR.v), of type classes, or arguments.
    Loops over hash tables, whose order the code leaves open, are made in one
    order, or the theorem quantifies over it ([check_round_spec]).

    Every theorem on a function with fuel states an amount that is enough:
    the number of nodes for the searches (Search.v) and the merge targets, the
    sum of the blocks for the lists, [2 K K + 1] for a solver over [K] nodes
    (each round adds a pointee or an edge).

    ** The RMA analyzer at run time ([src/src/instrumentation/rma])

    - Interval.v: [Interval.h]; memory accesses, their intersection and
      conflict. [conflictsWith_spec].
    - Multiset.v: the multiset of the recorded accesses.
    - RmaSearch.v: [getConflictingIntervals]. It is exact when no recorded access
      nests another ([getConflictingIntervals_spec]) and not otherwise
      ([search_misses_nested]).
    - RmaState.v, RmaAnalyzer.v: [rma_analyzer.cpp] up to the recording of an
      access; over an epoch the analyzer aborts exactly on a race
      ([epoch_race_detection]).
    - RmaLifecycle.v: windows, epochs and the communication thread; the
      invariant of the whole life of the analyzer ([analyzer_invariant]), the
      beginning and end of an epoch ([epoch_alternation], [clear_returns]), message tags ([tags_disjoint],
      [tag_range_roundtrip]).
    - RmaOverload.v: the C and Fortran wrappers and the load and store hooks
      ([rma_analyzer_mpi_c_overload.cpp], [..._fort_overload.cpp],
      [..._load_store_overload.cpp]): [barrier_spec], [fence_life],
      [fortran_equals_c], [win_allocate_base].

    ** The static analysis of collectives ([src/src/aSSA])

    - IR.v, Samples.v: what the analyses read of a module; small programs.
    - Collectives.v: [Collectives.cpp], [Options.cpp], [MPICommAnalysis.cpp] and
      the tables [*Registry.def]: [find_spec], [kinds_identify].
    - Search.v, Utils.v, Postdominance.v: [Utils.cpp]; the searches, functions
      that do not return ([functionDoesNotRet_spec]), the postdominance
      frontier ([postdominanceFrontier_spec], [iterated_frontier_spec]).
    - CollectiveList.v: [CollectiveList.cpp]; lists of collectives and their
      comparison through printed forms ([operator_eq_spec]).
    - CfgVisitors.v, CollListAnalysis.v: [CFGVisitors.cpp],
      [CollListFunctionAnalysis.cpp], [CollListLoopAnalysis.cpp]; both traversals
      are instances of one lemma on queues ([machine_order]). CollListSound.v
      says what a block makes ([block_makes]) and shows what its list means
      ([lists_describe_paths]), CollListLoopSound.v does so for innermost loops
      ([loop_lists_describe_ways]); CollListExamples.v runs the analysis on what it
      cannot see.
    - Warnings.v: [Warning.cpp] and the reports of the function analysis, against
      the interface [DepGraph] ([checkWarnings_spec]).
    - Instrumentation.v: [Instrumentation.cpp] ([instrument_function_spec]);
      DynamicCheck.v: the checks it calls ([instrumentation/mpi], [omp], [upc]):
      [check_round_spec], [omp_check_always_aborts]; OmpThreads.v: the threads of a
      team in any interleaving ([team_runs]).
    - ExtInfo.v: the table of [ExtInfo.cpp] ([arg_is_mod_in_bounds]).
    - PTACallGraph.v: [PTACallGraph.cpp], against the interface [PointsTo]
      ([PTACallGraph_reachable]).

    ** The pointer analysis ([src/src/aSSA/andersen])

    - AndersenNodes.v: [NodeFactory.cpp], [Constraint.h]; nodes and their merge
      targets, a union-find forest ([merge_targets]).
    - AndersenCollect.v: [ConstraintCollect.cpp], [ExternalLibrary.cpp].
      AndersenCollectSound.v keeps the factory well formed; AndersenCover.v shows
      that no constraint is missing ([constraints_complete]).
    - AndersenSolver.v: [ConstraintSolving.cpp], [CycleDetector.h],
      [SparseBitVectorGraph.h]. AndersenSound.v: without the merging of cycles the
      solver computes the least solution ([solveConstraints_least]); with it, it
      may not ([hcd_loses_pointees]).
    - Andersen.v: [Andersen.cpp]; collection and solver together
      ([runOnModule_answers], [unknown_answered_empty]) and the instance of
      [PointsTo] for the call graph.

    ** Memory regions and the memory SSA ([src/src/aSSA])

    - MemRegions.v: [OpenMPInstr.cpp], [MemoryRegion.cpp]; the regions of the
      allocation sites and those OpenMP threads share ([shared_regions]).
    - ModRef.v: [ModRefAnalysis.cpp]; what each function may read, write and kill
      ([mod_ref_spec]).
    - MemSSA.v: [MemorySSA.cpp], [MSSAMuChi.h]; the tables of mus, chis and phis.
      MemSSARename.v: the renaming leaves the stacks as it found them and gives
      each use the definition that reaches it; MemSSAPlace.v: the tables stay well
      formed and the phis are those of the iterated dominance frontier;
      MemSSABuild.v: the whole form of a function
      ([buildSSA_reaching_definitions]), and what two returns lose.

    ** The dependence graph ([DepGraphDCF.cpp])

    - DepGraph.v: nodes and edges, and the test for equivalent operands of a phi;
      DepGraphPhi.v: eliminating a phi keeps the taint, but for
      operands that differ as sources ([phi_elimination_taint]).
    - DepGraphTaint.v: the flooding without contexts
      ([context_insensitive_taint]); DepGraphContext.v: that with contexts, which
      ends and is contained in it ([context_sensitive_sound]) and misses taints
      ([contexts_lose_taint]).
    - DepGraphIpdf.v: the frontier of a call across functions
      ([getCallInterIPDF_spec]).
    - DepGraphBuild.v: the construction from the memory SSA (buildGraph, the visit
      and the connect functions). DepGraphRules.v states it as rules, DepGraphPass.v
      shows that the tables are those of the rules ([build_graph_rules]), what the
      pass calls tainted ([build_taint]), and that the load of what a store wrote
      depends on it ([stored_values_reach_loads]).
    - DepGraphPath.v: the search of [dotTaintPath]; a tainted condition gets a
      shortest path from a source ([tainted_condition_explained]), and where the
      code reads out of bounds or does not end. DebugTrace.v: the messages and
      the order of the trace ([reorderAndRemoveDup_runs]).

    ** Passes and tools

    - Report.v: [Parcoach.cpp] (RegisterPasses), [SerializableWarning.cpp],
      [SonarSerializationPass.cpp], against the interface [JSON]; runs with one
      database accumulate ([warnings_accumulate]).
    - Wrapper.v: [tools/wrapper]; the command lines ([emit_ir_command]), what
      [parcoachcc] runs ([main_runs]), its temporary files ([main_cleans_up]).
    ** The static RMA passes ([src/src/rma])

    - LocalConcurrency.v, LocalConcurrencySound.v, LocalConcurrencyExamples.v:
      [LocalConcurrencyAnalysis.cpp] ([LocalConcurrency_spec],
      [LocalConcurrency_limits]).
    - RmaInstrumentation.v: [RMAInstrumentation.cpp], [InstrumentedFunctions.def],
      [RMAStatisticsAnalysis.cpp] and [StatisticsAnalysis.cpp]
      ([instrument_spec], [epoch_flag_limits]).

    ** Not modelled

    - [ConstraintOptimize.cpp]: compiled only with a macro that no file that
      tests it can see, and that the build files call unsupported.
    - The text of dot files, dumps and of the source lines in a trace; the options
      of the driver ([Parcoacht.cpp]) and the registration of passes and plugin
      with LLVM: input, output and calls of LLVM.
    - The numbering of the profile counters and the [clock] statistics.
*)
From stdpp Require Export base tactics list gmap sets strings pretty.
From stdpp Require sorting.
From Stdlib Require Export ZArith Lia Sorting.Sorted.

#[global] Open Scope Z_scope.

(** * Machine integers *)

(** [u64 z] and [u32 z] are the values an unsigned C++ integer of that width
    holds after [z] has been stored in it. *)
Definition u64 (z : Z) : Z := z mod 2 ^ 64.
Definition u32 (z : Z) : Z := z mod 2 ^ 32.

Lemma u64_range z : 0 <= u64 z < 2 ^ 64.
Proof. unfold u64. apply Z.mod_pos_bound. lia. Qed.

Lemma u64_small z : 0 <= z < 2 ^ 64 -> u64 z = z.
Proof. intros. unfold u64. by apply Z.mod_small. Qed.

Lemma u64_sub_add lo d : u64 (u64 (lo + d) - lo) = u64 d.
Proof.
  unfold u64. rewrite Zminus_mod_idemp_l. f_equal. lia.
Qed.

(** * Lists *)

(** The longest prefix whose elements all satisfy [f]. *)
Fixpoint takewhile {A} (f : A -> bool) (l : list A) : list A :=
  match l with
  | [] => []
  | x :: r => if f x then x :: takewhile f r else []
  end.

Lemma elem_of_takewhile {A} (f : A -> bool) l x :
  x ∈ takewhile f l -> x ∈ l /\ f x = true.
Proof.
  induction l as [|y r IH]; simpl; [by intros ?%not_elem_of_nil|].
  destruct (f y) eqn:E; [|by intros ?%not_elem_of_nil].
  rewrite !elem_of_cons. intros [->|H]; [auto|]. destruct (IH H); auto.
Qed.

Lemma filter_all_false {A} (f : A -> bool) l :
  (forall x, x ∈ l -> f x = false) -> List.filter f l = [].
Proof.
  induction l as [|x r IH]; simpl; [done|]. intros H.
  rewrite (H x) by apply list_elem_of_here. apply IH. intros y Hy. apply H.
  by apply list_elem_of_further.
Qed.

Lemma elem_of_filterb {A} (f : A -> bool) l x :
  x ∈ List.filter f l <-> x ∈ l /\ f x = true.
Proof. rewrite !list_elem_of_In. apply filter_In. Qed.

(** When the elements satisfying [f] come first, nothing is lost. *)
Lemma takewhile_filter {A} (f : A -> bool) l :
  StronglySorted (fun x y => f y = true -> f x = true) l ->
  takewhile f l = List.filter f l.
Proof.
  induction 1 as [|x r Hs IH Hall]; simpl; [done|].
  destruct (f x) eqn:E; [by rewrite IH|].
  rewrite List.Forall_forall in Hall.
  symmetry. apply filter_all_false. intros y Hy%list_elem_of_In.
  destruct (f y) eqn:Ey; [|done]. specialize (Hall y Hy Ey). congruence.
Qed.

#[export] Instance filter_perm {A} (f : A -> bool) :
  Proper (Permutation ==> Permutation) (List.filter f).
Proof.
  induction 1; simpl; repeat match goal with |- context [if ?b then _ else _] => destruct b end;
    eauto using Permutation_trans, perm_swap.
Qed.

Lemma filter_filter_impl {A} (f g : A -> bool) l :
  (forall x, f x = true -> g x = true) -> List.filter f (List.filter g l) = List.filter f l.
Proof.
  intros H. induction l as [|x r IH]; simpl; [done|].
  destruct (g x) eqn:G; simpl; [by rewrite IH|].
  destruct (f x) eqn:F; [by rewrite (H x F) in G|done].
Qed.

(** * Tactics *)

(** Destruct every existential and conjunction of the context. *)
Ltac break_ex :=
  repeat match goal with
         | H : exists _, _ |- _ => destruct H
         | H : _ /\ _ |- _ => destruct H
         end.

(** Turn boolean (in)equalities of the context and goal into propositions. *)
Ltac breflect :=
  repeat match goal with
         | H : andb _ _ = true |- _ => apply andb_true_iff in H as [? ?]
         | H : orb _ _ = false |- _ => apply orb_false_iff in H as [? ?]
         | H : negb _ = true |- _ => apply negb_true_iff in H
         | H : negb _ = false |- _ => apply negb_false_iff in H
         | H : (_ <? _)%Z = true |- _ => apply Z.ltb_lt in H
         | H : (_ <? _)%Z = false |- _ => apply Z.ltb_ge in H
         | H : (_ <=? _)%Z = true |- _ => apply Z.leb_le in H
         | H : (_ <=? _)%Z = false |- _ => apply Z.leb_gt in H
         | H : (_ =? _)%Z = true |- _ => apply Z.eqb_eq in H
         | H : (_ =? _)%Z = false |- _ => apply Z.eqb_neq in H
         | H : (_ >? _)%Z = true |- _ => rewrite Z.gtb_ltb in H
         | H : (_ >? _)%Z = false |- _ => rewrite Z.gtb_ltb in H
         end.

(** Enumerate the elements of a concrete list, given [H : x ∈ l]. *)
Ltac enum H :=
  repeat first
    [ apply elem_of_cons in H as [H|H]; [try subst|]
    | apply not_elem_of_nil in H; destruct H ].

(** An element of a list given by its elements. *)
Ltac in_list := apply list_elem_of_In; vm_compute; repeat first [left; reflexivity | right].

(** A finer test keeps at least as many elements, and more when an element passes
    it only. *)
Lemma filter_length_mono {A} (P Q : A -> bool) l :
  (forall x, x ∈ l -> P x = true -> Q x = true) ->
  (length (List.filter P l) <= length (List.filter Q l))%nat.
Proof.
  induction l as [|a l IH]; intros H; [done|]. cbn [List.filter].
  pose proof (H a (list_elem_of_here _ _)). specialize (IH (fun x Hx => H x (list_elem_of_further _ _ _ Hx))).
  destruct (P a), (Q a); simpl in *; lia.
Qed.

Lemma filter_length_lt {A} (P Q : A -> bool) l x :
  (forall x, x ∈ l -> P x = true -> Q x = true) -> List.In x l -> P x = false -> Q x = true ->
  (length (List.filter P l) < length (List.filter Q l))%nat.
Proof.
  intros H (l1 & l2 & ->)%in_split HP HQ. rewrite !List.filter_app. cbn [List.filter]. rewrite HP, HQ.
  rewrite !length_app. cbn [length].
  pose proof (filter_length_mono P Q l1 (fun y Hy => H y (proj2 (elem_of_app _ _ _) (or_introl Hy)))).
  pose proof (filter_length_mono P Q l2
    (fun y Hy => H y (proj2 (elem_of_app _ _ _) (or_intror (list_elem_of_further _ _ _ Hy))))). lia.
Qed.

(** * Sets of pointers

    The elements of a set in a fixed order; the code has that of the addresses. *)
Definition in_order (X : gset N) : list N := sorting.merge_sort N.le (elements X).

Lemma elem_of_in_order X n : n ∈ in_order X <-> n ∈ X.
Proof. unfold in_order. rewrite sorting.merge_sort_Permutation. apply elem_of_elements. Qed.

Lemma NoDup_in_order X : NoDup (in_order X).
Proof. unfold in_order. rewrite sorting.merge_sort_Permutation. apply NoDup_elements. Qed.

Lemma length_in_order X : length (in_order X) = size X.
Proof. unfold in_order. by rewrite (Permutation_length (sorting.merge_sort_Permutation _ _)). Qed.

Create HintDb parcoach.
#[export] Hint Resolve u64_range : parcoach.
