(* ===== verification/Multiset.v ===== *)
(** [std::multiset<T, Comp>] as the source uses it: a list kept sorted by the
    comparator, [emplace]/[insert] at the upper bound of the equivalent range
    (as the C++ standard prescribes), [upper_bound] as the split of that list.
    The comparator's strict weak ordering is an interface ([StrictWeak]) that
    the clients of the container discharge. *)
From S2P Require Import Prelude.
From Stdlib Require Import Sorting.Sorted.

(** What [std::multiset] requires of its comparator. *)
Class StrictWeak {A} (lt : A -> A -> bool) : Prop := {
  sw_irrefl : forall a, lt a a = false;
  sw_trans : forall a b c, lt a b = true -> lt b c = true -> lt a c = true;
  sw_cotrans : forall a b c, lt a c = true -> lt a b = true \/ lt b c = true
}.

Section Multiset.
Context {A : Type} (lt : A -> A -> bool).

(** The elements before [upper_bound a]: those the comparator does not put
    after [a]. *)
Fixpoint before_ub (a : A) (l : list A) : list A :=
  match l with
  | [] => []
  | x :: r => if lt a x then [] else x :: before_ub a r
  end.

(** The elements from [upper_bound a] to [end()]. *)
Fixpoint from_ub (a : A) (l : list A) : list A :=
  match l with
  | [] => []
  | x :: r => if lt a x then l else from_ub a r
  end.

Definition ms_insert (a : A) (l : list A) : list A :=
  before_ub a l ++ a :: from_ub a l.

(** [x] may precede [y]. *)
Definition ms_le (x y : A) : Prop := lt y x = false.

Definition ms_sorted (l : list A) : Prop := StronglySorted ms_le l.

Lemma ub_split a l : before_ub a l ++ from_ub a l = l.
Proof. induction l as [|x r IH]; simpl; [done|]. destruct (lt a x); simpl; congruence. Qed.

Lemma ms_insert_perm a l : ms_insert a l ≡ₚ a :: l.
Proof.
  unfold ms_insert. rewrite <- Permutation_middle.
  by rewrite ub_split.
Qed.

Lemma elem_of_ms_insert x a l : x ∈ ms_insert a l <-> x = a \/ x ∈ l.
Proof. by rewrite ms_insert_perm, elem_of_cons. Qed.

Lemma before_ub_le a l x : x ∈ before_ub a l -> lt a x = false.
Proof.
  induction l as [|y r IH]; simpl; [by intros ?%not_elem_of_nil|].
  destruct (lt a y) eqn:E; [by intros ?%not_elem_of_nil|].
  rewrite elem_of_cons. intros [->|?]; auto.
Qed.

Context `{!StrictWeak lt}.

Lemma ms_le_trans : forall x y z, ms_le x y -> ms_le y z -> ms_le x z.
Proof.
  unfold ms_le. intros x y z H1 H2. destruct (lt z x) eqn:E; [|done].
  destruct (sw_cotrans z y x E); congruence.
Qed.

Lemma from_ub_lt a l x : ms_sorted l -> x ∈ from_ub a l -> lt a x = true.
Proof.
  intros Hs. induction Hs as [|y r Hr IH Hall]; simpl; [by intros ?%not_elem_of_nil|].
  destruct (lt a y) eqn:E; [|apply IH].
  rewrite elem_of_cons. intros [->|Hx]; [done|].
  rewrite List.Forall_forall in Hall.
  assert (ms_le y x) as Hyx by (apply Hall; by apply list_elem_of_In).
  destruct (sw_cotrans a x y E) as [H|H]; [done|]. unfold ms_le in Hyx. congruence.
Qed.

Lemma sorted_app_inv l1 l2 :
  ms_sorted (l1 ++ l2) ->
  ms_sorted l1 /\ ms_sorted l2 /\ (forall x y, x ∈ l1 -> y ∈ l2 -> ms_le x y).
Proof.
  unfold ms_sorted. induction l1 as [|a l1 IH]; simpl; intros H.
  - split; [constructor|]. split; [done|]. intros ? ? ?%not_elem_of_nil; done.
  - inversion_clear H as [|? ? H1 H2]. destruct (IH H1) as (Ha & Hb & Hc).
    rewrite List.Forall_app in H2. destruct H2 as [H2 H3].
    split; [by constructor|]. split; [done|].
    intros x y Hx Hy. apply elem_of_cons in Hx as [->|Hx]; [|by apply Hc].
    rewrite List.Forall_forall in H3. apply H3. by apply list_elem_of_In.
Qed.

Lemma sorted_app_intro l1 l2 :
  ms_sorted l1 -> ms_sorted l2 -> (forall x y, x ∈ l1 -> y ∈ l2 -> ms_le x y) ->
  ms_sorted (l1 ++ l2).
Proof.
  unfold ms_sorted. intros H1 H2 H. induction H1 as [|a l1 H1 IH Hall]; simpl; [done|].
  constructor.
  - apply IH. intros x y Hx Hy. apply H; [by apply list_elem_of_further|done].
  - rewrite List.Forall_app. split; [done|]. rewrite List.Forall_forall.
    intros y Hy. apply H; [by apply list_elem_of_here|by apply list_elem_of_In].
Qed.

(** Insertion keeps the container sorted. *)
Lemma ms_insert_sorted a l : ms_sorted l -> ms_sorted (ms_insert a l).
Proof.
  intros Hs. pose proof Hs as Hl. rewrite <- (ub_split a l) in Hs.
  destruct (sorted_app_inv _ _ Hs) as (H1 & H2 & H3).
  apply sorted_app_intro; [done| |].
  - constructor; [done|]. rewrite List.Forall_forall. intros x Hx.
    apply list_elem_of_In in Hx. unfold ms_le.
    destruct (lt x a) eqn:E; [|done]. pose proof (from_ub_lt a l x Hl Hx) as Hax.
    pose proof (sw_trans _ _ _ E Hax). by rewrite sw_irrefl in *.
  - intros x y Hx Hy. apply elem_of_cons in Hy as [->|Hy].
    + by apply (before_ub_le _ l).
    + by apply H3.
Qed.

Lemma from_ub_app_ge a l1 l2 :
  (forall x, x ∈ l1 -> lt a x = false) -> from_ub a (l1 ++ l2) = from_ub a l2.
Proof.
  induction l1 as [|x r IH]; simpl; [done|]. intros H.
  rewrite H by apply list_elem_of_here. apply IH. intros y Hy. apply H. by apply list_elem_of_further.
Qed.
End Multiset.

#[export] Hint Resolve ms_insert_sorted : parcoach.
