(* ===== verification/Interval.v ===== *)
(** The memory accesses of the dynamic RMA analyzer
    ([src/instrumentation/rma/Interval.h] and [Interval.cpp]): access types,
    64-bit intervals, the conflict test and the comparator of the container in
    which the accesses of an epoch are kept. *)
From S2P Require Import Prelude Multiset.

(** * Data *)

Inductive AccessType := LOCAL_READ | LOCAL_WRITE | RMA_READ | RMA_WRITE.

#[export] Instance AccessType_eq_dec : EqDecision AccessType.
Proof. solve_decision. Defined.

(** The enumerators' values: the conversion [(int)Type]. *)
Definition AccessType_int (T : AccessType) : Z :=
  match T with LOCAL_READ => 0 | LOCAL_WRITE => 1 | RMA_READ => 2 | RMA_WRITE => 3 end.

Definition to_string (T : AccessType) : string :=
  match T with
  | LOCAL_READ => "LOCAL_READ"
  | LOCAL_WRITE => "LOCAL_WRITE"
  | RMA_READ => "RMA_READ"
  | RMA_WRITE => "RMA_WRITE"
  end.

(** Both bounds are [uint64_t] and belong to the interval. *)
Record Interval := mkInterval { Low : Z; Up : Z }.

Record MemoryAccess := mkMemoryAccess { Addr : Z; Size : Z }.

Record DebugInfo := mkDebugInfo { Line : Z; Filename : string }.

Record Access := mkAccess { Itv : Interval; Type_ : AccessType; Dbg : DebugInfo }.

#[export] Instance Interval_eq_dec : EqDecision Interval.
Proof. solve_decision. Defined.
#[export] Instance DebugInfo_eq_dec : EqDecision DebugInfo.
Proof. solve_decision. Defined.
#[export] Instance Access_eq_dec : EqDecision Access.
Proof. solve_decision. Defined.

(** * Operations of [Interval] *)

(** [Size = Up - Low; Low *= DispUnit; Low += BaseAddr; Up = Low + Size], each
    assignment modulo 2^64. *)
Definition fixForWindow (I : Interval) (BaseAddr DispUnit : Z) : Interval :=
  let Size := u64 (Up I - Low I) in
  let Low1 := u64 (Low I * DispUnit) in
  let Low2 := u64 (Low1 + BaseAddr) in
  mkInterval Low2 (u64 (Low2 + Size)).

(** [std::tie(Low, Up) < std::tie(Other.Low, Other.Up)]. *)
Definition Interval_lt (A B : Interval) : bool :=
  if Low A <? Low B then true
  else if Low B <? Low A then false
  else Up A <? Up B.

Definition Interval_eqb (A B : Interval) : bool :=
  (Low A =? Low B) && (Up A =? Up B).

Definition intersects (I Other : Interval) : bool :=
  negb ((Low I >? Up Other) || (Up I <? Low Other)).

(** * Operations of [DebugInfo] and [Access] *)

Definition DebugInfo_default : DebugInfo := mkDebugInfo 0 "unknown_file".

(** [DebugInfo(int Line_, char const *Filename_)]; [None] is the null pointer. *)
Definition DebugInfo_make (Line_ : Z) (Filename_ : option string) : DebugInfo :=
  mkDebugInfo (u64 Line_)
    (match Filename_ with Some f => f | None => Filename DebugInfo_default end).

Definition DebugInfo_eqb (A B : DebugInfo) : bool :=
  (Line A =? Line B) && String.eqb (Filename A) (Filename B).

(** [Access(MemoryAccess, AccessType, DebugInfo)]: the bounds of a buffer. *)
Definition Access_of_mem (Acc : MemoryAccess) (T : AccessType) (D : DebugInfo) : Access :=
  mkAccess (mkInterval (Addr Acc) (u64 (u64 (Addr Acc + Size Acc) - 1))) T D.

(** [this->conflictsWith(Other)]. *)
Definition conflictsWith (This Other : Access) : bool :=
  if negb (intersects (Itv This) (Itv Other)) then false
  else Z.lor (AccessType_int (Type_ This)) (AccessType_int (Type_ Other))
       =? AccessType_int RMA_WRITE.

Definition Access_eqb (A B : Access) : bool :=
  Interval_eqb (Itv A) (Itv B) && bool_decide (Type_ A = Type_ B)
  && DebugInfo_eqb (Dbg A) (Dbg B).

(** The comparator of [IntervalContainer] and [IntervalViewContainer]. *)
Definition AccessComp (lhs rhs : Access) : bool := Interval_lt (Itv lhs) (Itv rhs).

(** * Printing ([Interval.cpp]) *)

Definition print_uint (z : Z) : string := pretty (Z.to_N z).

Definition print_Interval (I : Interval) : string :=
  "[" +:+ print_uint (Low I) +:+ "," +:+ print_uint (Up I) +:+ "]".

Definition print_Access (A : Access) : string :=
  "[" +:+ print_Interval (Itv A) +:+ "," +:+ to_string (Type_ A) +:+ "]".

Definition print_DebugInfo (D : DebugInfo) : string :=
  Filename D +:+ ":" +:+ print_uint (Line D).

(** * Specification *)

(** A non-empty interval of 64-bit addresses. *)
Definition wf_itv (I : Interval) : Prop := 0 <= Low I /\ Low I <= Up I /\ Up I < 2 ^ 64.

Definition covers (I : Interval) (a : Z) : Prop := Low I <= a <= Up I.

Definition is_write (T : AccessType) : Prop := T = LOCAL_WRITE \/ T = RMA_WRITE.
Definition is_remote (T : AccessType) : Prop := T = RMA_READ \/ T = RMA_WRITE.

(** The race the tool looks for: some address is touched by both accesses, one
    of which writes and one of which is a one-sided communication. *)
Definition races (A B : Access) : Prop :=
  (exists a, covers (Itv A) a /\ covers (Itv B) a) /\
  (is_write (Type_ A) \/ is_write (Type_ B)) /\
  (is_remote (Type_ A) \/ is_remote (Type_ B)).

(** * Lemmas *)

Lemma intersects_iff I J :
  intersects I J = true <-> Low I <= Up J /\ Low J <= Up I.
Proof.
  unfold intersects. rewrite negb_true_iff, orb_false_iff, Z.gtb_ltb, !Z.ltb_ge. lia.
Qed.

Lemma intersects_covers I J :
  wf_itv I -> wf_itv J ->
  intersects I J = true <-> exists a, covers I a /\ covers J a.
Proof.
  unfold wf_itv, covers. intros HI HJ. rewrite intersects_iff. split.
  - intros ?. exists (Z.max (Low I) (Low J)). lia.
  - intros (a & ? & ?). lia.
Qed.

Lemma intersects_sym I J : intersects I J = intersects J I.
Proof. apply eq_true_iff_eq. rewrite !intersects_iff. lia. Qed.

Lemma conflictsWith_sym A B : conflictsWith A B = conflictsWith B A.
Proof. unfold conflictsWith. by rewrite (intersects_sym (Itv A)), Z.lor_comm. Qed.

Lemma conflictsWith_intersects A B :
  conflictsWith A B = true -> intersects (Itv A) (Itv B) = true.
Proof. unfold conflictsWith. destruct (intersects _ _); done. Qed.

Lemma type_conflict_iff T U :
  (Z.lor (AccessType_int T) (AccessType_int U) =? AccessType_int RMA_WRITE) = true <->
  (is_write T \/ is_write U) /\ (is_remote T \/ is_remote U).
Proof. unfold is_write, is_remote. destruct T, U; vm_compute; split; intros; intuition congruence. Qed.

(** Over well-formed intervals the conflict test is the race of the
    specification. *)
Lemma conflictsWith_races A B :
  wf_itv (Itv A) -> wf_itv (Itv B) -> conflictsWith A B = true <-> races A B.
Proof.
  intros HA HB. unfold conflictsWith, races.
  rewrite <- (intersects_covers _ _ HA HB), <- type_conflict_iff.
  destruct (intersects _ _); simpl; intuition congruence.
Qed.

Lemma Interval_lt_iff I J :
  Interval_lt I J = true <-> Low I < Low J \/ (Low I = Low J /\ Up I < Up J).
Proof.
  unfold Interval_lt.
  destruct (Z.ltb_spec (Low I) (Low J)), (Z.ltb_spec (Low J) (Low I)); try lia;
    rewrite ?Z.ltb_lt; split; intros; try done; lia.
Qed.

Lemma Interval_lt_false I J :
  Interval_lt I J = false <-> Low J < Low I \/ (Low I = Low J /\ Up J <= Up I).
Proof.
  rewrite <- not_true_iff_false, Interval_lt_iff. lia.
Qed.

#[export] Instance AccessComp_strict_weak : StrictWeak AccessComp.
Proof.
  split; unfold AccessComp.
  - intros a. rewrite Interval_lt_false. lia.
  - intros a b c. rewrite !Interval_lt_iff. lia.
  - intros a b c. rewrite !Interval_lt_iff. lia.
Qed.

(** The bounds of a buffer that has at least one byte and does not wrap. *)
Lemma Access_of_mem_bounds a s T D :
  0 <= a -> 0 < s -> a + s <= 2 ^ 64 ->
  Itv (Access_of_mem (mkMemoryAccess a s) T D) = mkInterval a (a + s - 1).
Proof.
  intros. unfold Access_of_mem; simpl. f_equal.
  destruct (decide (a + s = 2 ^ 64)) as [->|].
  - reflexivity.
  - rewrite (u64_small (a + s)) by lia. apply u64_small. lia.
Qed.

(** * Properties *)

(** [conflictsWith] reports exactly the races of the specification: for two
    non-empty intervals it answers true iff some byte belongs to both, at least
    one of the two accesses writes and at least one is remote. *)
Theorem conflictsWith_spec A B :
  wf_itv (Itv A) -> wf_itv (Itv B) ->
  (conflictsWith A B = true <-> races A B) /\ conflictsWith B A = conflictsWith A B.
Proof.
  intros HA HB. split; [by apply conflictsWith_races|apply conflictsWith_sym].
Qed.

Lemma conflictsWith_spec_witness :
  let A := mkAccess (mkInterval 8 15) LOCAL_WRITE DebugInfo_default in
  let B := mkAccess (mkInterval 12 13) RMA_READ DebugInfo_default in
  (conflictsWith A B = true <-> races A B) /\ conflictsWith B A = conflictsWith A B.
Proof.
  intros A B. apply (conflictsWith_spec A B); unfold wf_itv; simpl; lia.
Defined.

(** [fixForWindow] keeps the length of the interval whatever wraps around, and
    when nothing wraps the interval becomes
    [base + Low*disp, base + Low*disp + (Up - Low)]. *)
Theorem fixForWindow_spec I base disp :
  u64 (Up (fixForWindow I base disp) - Low (fixForWindow I base disp)) = u64 (Up I - Low I) /\
  (wf_itv I -> 0 <= base -> 0 <= disp ->
   base + Low I * disp + (Up I - Low I) < 2 ^ 64 ->
   fixForWindow I base disp =
   mkInterval (base + Low I * disp) (base + Low I * disp + (Up I - Low I)) /\
   wf_itv (fixForWindow I base disp)).
Proof.
  split.
  - unfold fixForWindow; simpl. rewrite u64_sub_add. apply u64_small, u64_range.
  - unfold wf_itv. intros (H1 & H2 & H3) Hb Hd Hn.
    assert (0 <= Low I * disp) by nia.
    assert (fixForWindow I base disp =
            mkInterval (base + Low I * disp) (base + Low I * disp + (Up I - Low I))) as ->.
    { unfold fixForWindow. rewrite (u64_small (Low I * disp)) by lia.
      rewrite (u64_small (Up I - Low I)) by lia.
      rewrite (u64_small (Low I * disp + base)) by lia.
      rewrite u64_small by lia. f_equal; lia. }
    simpl. split; [done|lia].
Qed.

(** The witness: two [int]s at index 10 of a window of [int]s based at 4096. *)
Lemma fixForWindow_spec_witness :
  fixForWindow (mkInterval 10 17) 4096 4 = mkInterval 4136 4143.
Proof.
  destruct (fixForWindow_spec (mkInterval 10 17) 4096 4) as [_ H].
  destruct H as [-> _]; [unfold wf_itv; simpl; lia|lia|lia|simpl; lia|reflexivity].
Defined.

(** An access of zero bytes is not empty for the analyzer: strictly inside an
    interval it is reported as intersecting it, at address 0 it covers the
    whole address space, and it never intersects itself elsewhere. *)
Theorem zero_size_access a T D I :
  0 <= a < 2 ^ 64 -> wf_itv I ->
  let Zi := Itv (Access_of_mem (mkMemoryAccess a 0) T D) in
  (0 < a -> (intersects Zi I = true <-> Low I < a /\ a <= Up I) /\ intersects Zi Zi = false) /\
  (a = 0 -> intersects Zi I = true).
Proof.
  intros Ha HI Zi. unfold wf_itv in HI.
  assert (a = 0 \/ Up Zi = a - 1) as HZ.
  { destruct (decide (a = 0)); [by left|right]. unfold Zi; simpl.
    rewrite Z.add_0_r, (u64_small a) by lia. apply u64_small. lia. }
  assert (Low Zi = a) as HL by done.
  split; intros; [split|].
  - rewrite intersects_iff. lia.
  - apply not_true_iff_false. rewrite intersects_iff. lia.
  - assert (forall b, b = 0 -> Up (Itv (Access_of_mem (mkMemoryAccess b 0) T D)) = 2 ^ 64 - 1)
      as HU by (intros ? ->; reflexivity).
    specialize (HU a ltac:(done)). fold Zi in HU. rewrite intersects_iff. lia.
Qed.

Lemma zero_size_access_witness :
  intersects (Itv (Access_of_mem (mkMemoryAccess 100 0) RMA_WRITE DebugInfo_default))
             (mkInterval 96 103) = true.
Proof.
  destruct (zero_size_access 100 RMA_WRITE DebugInfo_default (mkInterval 96 103)) as [H _];
    [lia|unfold wf_itv; simpl; lia|].
  destruct (H ltac:(lia)) as [H1 _]. apply H1. simpl. lia.
Defined.
