(* ===== verification/RmaSearch.v ===== *)
(** The search of the recorded accesses an access conflicts with
    ([rma_analyzer_state::getIntersectingIntervals] and
    [getConflictingIntervals] of [src/instrumentation/rma/rma_analyzer.cpp]).
    The container is sorted by lower bound, then upper bound; the search walks
    away from [upper_bound] in both directions and stops at the first access
    that does not intersect.  Forward this loses nothing; backward it loses an
    access that lies behind one it strictly contains. *)
From S2P Require Import Prelude Multiset Interval.

(** * Searching the accesses of the epoch *)

(** [AddNeighbors]: inserts the accesses of the range into [Ret], up to the
    first one that does not intersect [A]. *)
Fixpoint AddNeighbors (A : Access) (range Ret : list Access) : list Access :=
  match range with
  | [] => Ret
  | It :: r =>
      if intersects (Itv It) (Itv A) then AddNeighbors A r (ms_insert AccessComp It Ret)
      else Ret
  end.

(** [rma_analyzer_state::getIntersectingIntervals]: forward from
    [upper_bound(A)], then backward from it. *)
Definition getIntersectingIntervals (Intervals : list Access) (A : Access) : list Access :=
  let Ret := AddNeighbors A (from_ub AccessComp A Intervals) [] in
  AddNeighbors A (rev (before_ub AccessComp A Intervals)) Ret.

(** [rma_analyzer_state::getConflictingIntervals]. *)
Definition getConflictingIntervals (Intervals : list Access) (A : Access) : list Access :=
  fold_left (fun Ret Current =>
      if conflictsWith Current A then ms_insert AccessComp Current Ret else Ret)
    (getIntersectingIntervals Intervals A) [].

(** * Specification *)

Definition itv_sorted (l : list Access) : Prop := ms_sorted AccessComp l.

Definition all_wf (l : list Access) : Prop := forall x, x ∈ l -> wf_itv (Itv x).

(** No access reaches further left than another and further right too. *)
Definition nest_free (l : list Access) : Prop :=
  forall x y, x ∈ l -> y ∈ l -> Low (Itv x) < Low (Itv y) -> Up (Itv x) <= Up (Itv y).

(** * Lemmas *)

Lemma AddNeighbors_perm A range Ret :
  AddNeighbors A range Ret ≡ₚ
  takewhile (fun x => intersects (Itv x) (Itv A)) range ++ Ret.
Proof.
  revert Ret. induction range as [|x r IH]; intros Ret; simpl; [done|].
  destruct (intersects _ _); [|done]. rewrite IH, ms_insert_perm.
  simpl. by rewrite Permutation_middle.
Qed.

Lemma getIntersectingIntervals_perm l A :
  getIntersectingIntervals l A ≡ₚ
  takewhile (fun x => intersects (Itv x) (Itv A)) (rev (before_ub AccessComp A l)) ++
  takewhile (fun x => intersects (Itv x) (Itv A)) (from_ub AccessComp A l).
Proof.
  unfold getIntersectingIntervals. rewrite !AddNeighbors_perm. by rewrite app_nil_r.
Qed.

Lemma getConflictingIntervals_perm l A :
  getConflictingIntervals l A ≡ₚ
  List.filter (fun x => conflictsWith x A) (getIntersectingIntervals l A).
Proof.
  unfold getConflictingIntervals.
  enough (forall k R, fold_left (fun Ret Current =>
      if conflictsWith Current A then ms_insert AccessComp Current Ret else Ret) k R ≡ₚ
      List.filter (fun x => conflictsWith x A) k ++ R) as H by (rewrite H; by rewrite app_nil_r).
  induction k as [|x k IH]; intros R; simpl; [done|]. rewrite IH.
  destruct (conflictsWith x A); [|done]. rewrite ms_insert_perm. simpl.
  by rewrite Permutation_middle.
Qed.

(** Whatever the container holds, what the search reports is recorded and
    conflicts. *)
Lemma getConflictingIntervals_sound l A x :
  x ∈ getConflictingIntervals l A -> x ∈ l /\ conflictsWith x A = true.
Proof.
  rewrite getConflictingIntervals_perm, elem_of_filterb, getIntersectingIntervals_perm, elem_of_app.
  intros [[H|H] Hc]; split; try done; apply elem_of_takewhile in H as [H _].
  - rewrite list_elem_of_In, <- in_rev in H. apply list_elem_of_In in H.
    rewrite <- (ub_split AccessComp A l). apply elem_of_app. by left.
  - rewrite <- (ub_split AccessComp A l). apply elem_of_app. by right.
Qed.

Lemma StronglySorted_weaken {T} (R S : T -> T -> Prop) l :
  (forall x y, x ∈ l -> y ∈ l -> R x y -> S x y) -> StronglySorted R l -> StronglySorted S l.
Proof.
  intros H Hs. induction Hs as [|x r Hs IH Hall]; constructor.
  - apply IH. intros a b Ha Hb. apply H; by apply list_elem_of_further.
  - rewrite List.Forall_forall in *. intros y Hy. apply H; auto.
    + apply list_elem_of_here.
    + apply list_elem_of_further. by apply list_elem_of_In.
Qed.

Lemma StronglySorted_rev {T} (R : T -> T -> Prop) l :
  StronglySorted R l -> StronglySorted (fun x y => R y x) (rev l).
Proof.
  induction 1 as [|x r Hs IH Hall]; simpl; [constructor|].
  rewrite List.Forall_forall in Hall. setoid_rewrite in_rev in Hall.
  induction IH as [|y k Hk IHk Hy]; simpl; [repeat constructor|].
  constructor.
  - apply IHk. intros z Hz. apply Hall. by right.
  - rewrite List.Forall_app. split; [done|]. constructor; [|constructor].
    apply Hall. by left.
Qed.

Section Complete.
Context (A : Access) (l : list Access).
Context (HA : wf_itv (Itv A)) (Hwf : all_wf l) (Hs : itv_sorted l).

Lemma sorted_parts :
  itv_sorted (before_ub AccessComp A l) /\ itv_sorted (from_ub AccessComp A l).
Proof.
  pose proof Hs as H. unfold itv_sorted in *. rewrite <- (ub_split AccessComp A l) in H.
  apply sorted_app_inv in H as (? & ? & _). by split.
Qed.

Lemma in_before x : x ∈ before_ub AccessComp A l -> x ∈ l.
Proof. intros. rewrite <- (ub_split AccessComp A l). apply elem_of_app. by left. Qed.

Lemma in_from x : x ∈ from_ub AccessComp A l -> x ∈ l.
Proof. intros. rewrite <- (ub_split AccessComp A l). apply elem_of_app. by right. Qed.

(** Forward from [upper_bound] the first access that does not intersect ends
    the ones that do. *)
Lemma forward_complete :
  takewhile (fun x => intersects (Itv x) (Itv A)) (from_ub AccessComp A l) =
  List.filter (fun x => intersects (Itv x) (Itv A)) (from_ub AccessComp A l).
Proof.
  apply takewhile_filter. destruct sorted_parts as [_ Hf].
  eapply StronglySorted_weaken; [|exact Hf]. intros x y Hx Hy Hxy.
  pose proof (from_ub_lt AccessComp A l x Hs Hx) as Hlx. unfold AccessComp in Hlx.
  apply Interval_lt_iff in Hlx. unfold ms_le, AccessComp in Hxy.
  apply Interval_lt_false in Hxy. rewrite !intersects_iff.
  specialize (Hwf x (in_from x Hx)). unfold wf_itv in *. lia.
Qed.

Context (Hn : nest_free l).

Lemma backward_complete :
  takewhile (fun x => intersects (Itv x) (Itv A)) (rev (before_ub AccessComp A l)) =
  List.filter (fun x => intersects (Itv x) (Itv A)) (rev (before_ub AccessComp A l)).
Proof.
  apply takewhile_filter. destruct sorted_parts as [Hb _].
  apply StronglySorted_rev in Hb.
  eapply StronglySorted_weaken; [|exact Hb]. intros x y Hx Hy Hyx.
  rewrite list_elem_of_In, <- in_rev in Hx. apply list_elem_of_In in Hx.
  rewrite list_elem_of_In, <- in_rev in Hy. apply list_elem_of_In in Hy.
  pose proof (before_ub_le AccessComp A l x Hx) as Hax. unfold AccessComp in Hax.
  apply Interval_lt_false in Hax. unfold ms_le, AccessComp in Hyx.
  apply Interval_lt_false in Hyx. rewrite !intersects_iff.
  specialize (Hn y x (in_before y Hy) (in_before x Hx)). unfold wf_itv in *. lia.
Qed.

Lemma getIntersectingIntervals_filter :
  getIntersectingIntervals l A ≡ₚ List.filter (fun x => intersects (Itv x) (Itv A)) l.
Proof.
  rewrite getIntersectingIntervals_perm, forward_complete, backward_complete.
  rewrite <- (ub_split AccessComp A l) at 3. rewrite List.filter_app.
  apply Permutation_app_tail. rewrite List.filter_rev. by rewrite <- Permutation_rev.
Qed.

Lemma getConflictingIntervals_filter :
  getConflictingIntervals l A ≡ₚ List.filter (fun x => conflictsWith x A) l.
Proof.
  rewrite getConflictingIntervals_perm, getIntersectingIntervals_filter.
  rewrite filter_filter_impl; [done|]. intros x. apply conflictsWith_intersects.
Qed.
End Complete.

(** * Properties *)

(** C3 (search). The conflict search reports only recorded accesses that race
    with the new one; when no recorded access strictly nests another it reports
    all of them, each as often as it is recorded. *)
Theorem getConflictingIntervals_spec l A :
  wf_itv (Itv A) -> all_wf l -> itv_sorted l ->
  (forall x, x ∈ getConflictingIntervals l A -> x ∈ l /\ races x A) /\
  (nest_free l -> getConflictingIntervals l A ≡ₚ List.filter (fun x => conflictsWith x A) l).
Proof.
  intros HA Hwf Hs. split.
  - intros x [Hx Hc]%getConflictingIntervals_sound. split; [done|].
    apply conflictsWith_races; auto.
  - intros Hn. by apply getConflictingIntervals_filter.
Qed.

Lemma getConflictingIntervals_spec_witness :
  let a := mkAccess (mkInterval 0 7) LOCAL_WRITE DebugInfo_default in
  let b := mkAccess (mkInterval 8 15) RMA_WRITE DebugInfo_default in
  let A := mkAccess (mkInterval 4 11) RMA_READ DebugInfo_default in
  getConflictingIntervals [a; b] A ≡ₚ [a; b].
Proof.
  intros a b A.
  destruct (getConflictingIntervals_spec [a; b] A) as [_ H].
  - unfold wf_itv; simpl; lia.
  - intros x Hx. rewrite !elem_of_cons, elem_of_nil in Hx.
    destruct Hx as [->|[->|[]]]; unfold wf_itv; simpl; lia.
  - repeat constructor.
  - apply H. intros x y Hx Hy. rewrite !elem_of_cons, elem_of_nil in Hx, Hy.
    destruct Hx as [->|[->|[]]], Hy as [->|[->|[]]]; simpl; lia.
Defined.

(** C37 (missed). The search is incomplete: a recorded access [x] that strictly
    reaches over a later-starting one [y] and races with a new access starting
    past [y] is not reported, because the backward walk stops at [y]. *)
Theorem search_misses_nested x y A :
  wf_itv (Itv A) -> wf_itv (Itv y) ->
  Low (Itv x) < Low (Itv y) -> Up (Itv y) < Low (Itv A) -> Low (Itv A) <= Up (Itv x) ->
  conflictsWith x A = true ->
  itv_sorted [x; y] /\ x ∈ [x; y] /\ getConflictingIntervals [x; y] A = [].
Proof.
  unfold wf_itv. intros HA Hy Hxy HyA HAx Hc. split; [|split; [apply list_elem_of_here|]].
  - constructor; [repeat constructor|]. repeat constructor.
    unfold ms_le, AccessComp. apply Interval_lt_false. lia.
  - assert (AccessComp A x = false) as Ex by (apply Interval_lt_false; lia).
    assert (AccessComp A y = false) as Ey by (apply Interval_lt_false; lia).
    assert (intersects (Itv y) (Itv A) = false) as Ei
      by (apply not_true_iff_false; rewrite intersects_iff; lia).
    unfold getConflictingIntervals, getIntersectingIntervals. simpl.
    rewrite Ex, Ey. simpl. by rewrite Ei.
Qed.

(** A byte of an array stored to by a large local copy, then another of its
    bytes read, and a one-sided read of a third: the race goes unnoticed. *)
Lemma search_misses_nested_witness :
  let x := mkAccess (mkInterval 0 99) LOCAL_WRITE DebugInfo_default in
  let y := mkAccess (mkInterval 10 13) LOCAL_READ DebugInfo_default in
  let A := mkAccess (mkInterval 50 53) RMA_READ DebugInfo_default in
  races x A /\ getConflictingIntervals [x; y] A = [].
Proof.
  intros x y A. split.
  - apply conflictsWith_races; [unfold wf_itv; simpl; lia|unfold wf_itv; simpl; lia|reflexivity].
  - apply (search_misses_nested x y A); try (unfold wf_itv; simpl; lia); reflexivity.
Defined.
