(* ===== verification/RmaState.v ===== *)
(** The per-window state of the dynamic RMA analyzer and the effects its
    routines perform ([src/instrumentation/rma/rma_analyzer.h]): the record
    [rma_analyzer_state], the process-wide globals of [rma_analyzer.cpp], and the
    monad in which the routines of [RmaAnalyzer.v] are written.  What the
    routines ask of MPI and of the C++ runtime is recorded as a trace of
    [event]s; a routine ends in an [outcome]. *)
From stdpp Require Import sorting.
From S2P Require Import Prelude Multiset Interval.

(** * Constants *)

(** [std::numeric_limits<unsigned short>::max()]. *)
Definition RMA_ANALYZER_BASE_MPI_TAG : Z := 65535.
Definition RMA_ANALYZER_MAX_EPOCH_NUMBER : Z := 1024.
Definition RMA_ANALYZER_MAX_WIN : nat := 32.
Definition RMA_ANALYZER_STRING_MPI_TAG : Z := RMA_ANALYZER_BASE_MPI_TAG - 1.

(** * State *)

(** [Thread] tells whether the [std::thread] member is joinable. *)
Record rma_analyzer_state := mkState {
  state_win : Z;
  Thread : bool;
  Intervals : list Access;
  win_base : Z;
  disp_unit : Z;
  win_size : Z;
  win_comm : Z;
  size_comm : nat;
  mpi_tag : Z;
  array : list Z;
  value : Z;
  thread_end : Z;
  count_epoch : Z;
  count_fence : Z;
  count : Z;
  active_epoch : Z;
  from_sync : Z
}.

Definition set_Thread (b : bool) (s : rma_analyzer_state) :=
  mkState (state_win s) b (Intervals s) (win_base s) (disp_unit s) (win_size s)
    (win_comm s) (size_comm s) (mpi_tag s) (array s) (value s) (thread_end s)
    (count_epoch s) (count_fence s) (count s) (active_epoch s) (from_sync s).
Definition set_Intervals (l : list Access) (s : rma_analyzer_state) :=
  mkState (state_win s) (Thread s) l (win_base s) (disp_unit s) (win_size s)
    (win_comm s) (size_comm s) (mpi_tag s) (array s) (value s) (thread_end s)
    (count_epoch s) (count_fence s) (count s) (active_epoch s) (from_sync s).
Definition set_array (a : list Z) (s : rma_analyzer_state) :=
  mkState (state_win s) (Thread s) (Intervals s) (win_base s) (disp_unit s) (win_size s)
    (win_comm s) (size_comm s) (mpi_tag s) a (value s) (thread_end s)
    (count_epoch s) (count_fence s) (count s) (active_epoch s) (from_sync s).
Definition set_value (v : Z) (s : rma_analyzer_state) :=
  mkState (state_win s) (Thread s) (Intervals s) (win_base s) (disp_unit s) (win_size s)
    (win_comm s) (size_comm s) (mpi_tag s) (array s) v (thread_end s)
    (count_epoch s) (count_fence s) (count s) (active_epoch s) (from_sync s).
Definition set_thread_end (v : Z) (s : rma_analyzer_state) :=
  mkState (state_win s) (Thread s) (Intervals s) (win_base s) (disp_unit s) (win_size s)
    (win_comm s) (size_comm s) (mpi_tag s) (array s) (value s) v
    (count_epoch s) (count_fence s) (count s) (active_epoch s) (from_sync s).
Definition set_count_epoch (v : Z) (s : rma_analyzer_state) :=
  mkState (state_win s) (Thread s) (Intervals s) (win_base s) (disp_unit s) (win_size s)
    (win_comm s) (size_comm s) (mpi_tag s) (array s) (value s) (thread_end s)
    v (count_fence s) (count s) (active_epoch s) (from_sync s).
Definition set_count_fence (v : Z) (s : rma_analyzer_state) :=
  mkState (state_win s) (Thread s) (Intervals s) (win_base s) (disp_unit s) (win_size s)
    (win_comm s) (size_comm s) (mpi_tag s) (array s) (value s) (thread_end s)
    (count_epoch s) v (count s) (active_epoch s) (from_sync s).
Definition set_count (v : Z) (s : rma_analyzer_state) :=
  mkState (state_win s) (Thread s) (Intervals s) (win_base s) (disp_unit s) (win_size s)
    (win_comm s) (size_comm s) (mpi_tag s) (array s) (value s) (thread_end s)
    (count_epoch s) (count_fence s) v (active_epoch s) (from_sync s).
Definition set_active_epoch (v : Z) (s : rma_analyzer_state) :=
  mkState (state_win s) (Thread s) (Intervals s) (win_base s) (disp_unit s) (win_size s)
    (win_comm s) (size_comm s) (mpi_tag s) (array s) (value s) (thread_end s)
    (count_epoch s) (count_fence s) (count s) v (from_sync s).
Definition set_from_sync (v : Z) (s : rma_analyzer_state) :=
  mkState (state_win s) (Thread s) (Intervals s) (win_base s) (disp_unit s) (win_size s)
    (win_comm s) (size_comm s) (mpi_tag s) (array s) (value s) (thread_end s)
    (count_epoch s) (count_fence s) (count s) (active_epoch s) v.

(** The globals of a process: [States], [win_mpi_tag_id] and
    [rma_analyzer_filter_window]. *)
Record analyzer := mkAnalyzer {
  States : gmap Z rma_analyzer_state;
  win_mpi_tag_id : list Z;
  rma_analyzer_filter_window : Z
}.

Definition analyzer_init : analyzer :=
  mkAnalyzer ∅ (replicate RMA_ANALYZER_MAX_WIN 0) 1.

(** * Effects *)

Inductive event :=
| EError (New Found : Access)            (* the diagnostic written to stderr *)
| ESend (dest tag : Z) (A : Access)      (* MPI_Send of the committed part of A *)
| ESendString (dest tag : Z) (s : string)
| EReduce (root contribution : Z)        (* MPI_Reduce, MPI_SUM *)
| ESpawn (win tag : Z)                   (* the checking thread, and its Irecv tag *)
| EJoin (win : Z)
| ETypeCommit (win : Z)
| ETypeFree (win : Z)
| EPrint (s : string)
| EPmpi (name : string).                 (* the profiled MPI call itself *)

Inductive outcome (A : Type) :=
| Done (a : A) (g : analyzer)
| ExitFailure                 (* exit(EXIT_FAILURE) *)
| MpiAbort                    (* MPI_Abort(MPI_COMM_WORLD, 1) *)
| StdTerminate                (* std::terminate *)
| Undefined                   (* undefined behaviour *)
| Blocked.                    (* waits for ever on what will not come *)
Arguments Done {A}. Arguments ExitFailure {A}. Arguments MpiAbort {A}.
Arguments StdTerminate {A}. Arguments Undefined {A}. Arguments Blocked {A}.

Definition M (A : Type) : Type := analyzer -> list event * outcome A.

Definition mret {A} (a : A) : M A := fun g => ([], Done a g).
Definition mfail {A} (o : outcome A) : M A := fun _ => ([], o).
Definition memit (l : list event) : M unit := fun g => (l, Done tt g).
Definition mbind {A B} (m : M A) (k : A -> M B) : M B := fun g =>
  match m g with
  | (t, Done a g1) => let (t2, o) := k a g1 in (t ++ t2, o)
  | (t, ExitFailure) => (t, ExitFailure)
  | (t, MpiAbort) => (t, MpiAbort)
  | (t, StdTerminate) => (t, StdTerminate)
  | (t, Undefined) => (t, Undefined)
  | (t, Blocked) => (t, Blocked)
  end.

Declare Scope rma_scope.
Delimit Scope rma_scope with rma.
Notation "x <- m ;; k" := (mbind m (fun x => k))
  (at level 80, m at level 79, right associativity, only parsing) : rma_scope.
Notation "m ;;; k" := (mbind m (fun _ => k))
  (at level 80, right associativity, only parsing) : rma_scope.
#[global] Open Scope rma_scope.

(** Write through the pointer to the state of window [win]. *)
Definition with_state (win : Z) (f : rma_analyzer_state -> rma_analyzer_state)
    (g : analyzer) : analyzer :=
  mkAnalyzer (alter f win (States g)) (win_mpi_tag_id g) (rma_analyzer_filter_window g).

Definition modify_state (win : Z) (f : rma_analyzer_state -> rma_analyzer_state) : M unit :=
  fun g => ([], Done tt (with_state win f g)).

(** [for (auto &[_, State] : States) body(State)]: [std::map] iterates in the
    order of its keys. *)
Definition win_keys (g : analyzer) : list Z :=
  merge_sort Z.le (elements (dom (States g))).

Fixpoint mforall {A} (body : A -> M unit) (l : list A) : M unit :=
  match l with
  | [] => mret tt
  | x :: r => body x ;;; mforall body r
  end.

Definition for_each_win (body : Z -> M unit) : M unit :=
  fun g => mforall body (win_keys g) g.

(** The outcome and the trace of a routine. *)
Definition result {A} (r : list event * outcome A) : outcome A := r.2.
Definition trace {A} (r : list event * outcome A) : list event := r.1.

(** * Lemmas on the monad *)

Lemma mbind_done {A B} (m : M A) (k : A -> M B) g t b g' :
  mbind m k g = (t, Done b g') <->
  exists t1 t2 a g1, m g = (t1, Done a g1) /\ k a g1 = (t2, Done b g') /\ t = t1 ++ t2.
Proof.
  unfold mbind. split.
  - destruct (m g) as [t1 [a g1| | | | |]] eqn:E; try discriminate.
    destruct (k a g1) as [t2 o] eqn:E2. intros [= <- ->]. by exists t1, t2, a, g1.
  - intros (t1 & t2 & a & g1 & -> & -> & ->). done.
Qed.

Lemma result_bind {A B} (m : M A) (k : A -> M B) g t a g1 :
  m g = (t, Done a g1) -> result (mbind m k g) = result (k a g1).
Proof. unfold mbind, result. intros ->. by destruct (k a g1). Qed.

Lemma mbind_assoc {A B C} (m : M A) (k : A -> M B) (h : B -> M C) g :
  mbind (mbind m k) h g = mbind m (fun a => mbind (k a) h) g.
Proof.
  unfold mbind. destruct (m g) as [t [a g1| | | | |]]; try done.
  destruct (k a g1) as [t2 [b g2| | | | |]]; try done.
  destruct (h b g2) as [t3 o]. by rewrite app_assoc.
Qed.

Lemma with_state_eq win f g s :
  States g !! win = Some s -> States (with_state win f g) !! win = Some (f s).
Proof. simpl. intros H. by rewrite lookup_alter_eq, H. Qed.

Lemma with_state_ne win win' f g :
  win <> win' -> States (with_state win f g) !! win' = States g !! win'.
Proof. simpl. intros H. by rewrite lookup_alter_ne. Qed.

(** A predicate on analyzers that a routine keeps whenever it returns. *)
Definition preserves {A} (P : analyzer -> Prop) (m : M A) : Prop :=
  forall g t a g', P g -> m g = (t, Done a g') -> P g'.

Section Preserves.
Context (P : analyzer -> Prop).

Lemma preserves_ret {A} (a : A) : preserves P (mret a).
Proof. intros g t b g' HP [= <- <- <-]. done. Qed.

Lemma preserves_fail {A} (o : outcome A) :
  (forall a g, o <> Done a g) -> preserves P (mfail o).
Proof. intros Ho g t b g' HP [= <- ->]. by destruct (Ho b g'). Qed.

Lemma preserves_emit l : preserves P (memit l).
Proof. intros g t b g' HP [= <- <- <-]. done. Qed.

Lemma preserves_bind {A B} (m : M A) (k : A -> M B) :
  preserves P m -> (forall a, preserves P (k a)) -> preserves P (mbind m k).
Proof.
  intros Hm Hk g t b g' HP (t1 & t2 & a & g1 & H1 & H2 & _)%mbind_done.
  eapply Hk; [|done]. by eapply Hm.
Qed.

Lemma preserves_forall {A} (body : A -> M unit) l :
  (forall x, preserves P (body x)) -> preserves P (mforall body l).
Proof.
  intros Hb. induction l; simpl; [apply preserves_ret|].
  apply preserves_bind; auto.
Qed.

Lemma preserves_for_each (body : Z -> M unit) :
  (forall x, preserves P (body x)) -> preserves P (for_each_win body).
Proof. intros Hb g. unfold for_each_win. by apply preserves_forall. Qed.
End Preserves.

Create HintDb rma.
#[export] Hint Resolve with_state_eq : rma.
#[export] Hint Resolve preserves_ret preserves_emit preserves_bind preserves_for_each : rma.
#[export] Hint Extern 1 (preserves _ (mfail _)) =>
  apply preserves_fail; discriminate : rma.
