(* ===== verification/RmaAnalyzer.v ===== *)
(** The routines of the dynamic RMA analyzer
    ([src/instrumentation/rma/rma_analyzer.cpp]) on one process: the recording of an access, the
    communication-checking thread, the beginning and the end of an epoch on one
    window or on all of them, the tag ranges and the life of a window. *)
From S2P Require Import Prelude Multiset Interval RmaSearch RmaState.

(** * Routines *)

Definition rma_analyzer_get_state (win : Z) : M rma_analyzer_state := fun g =>
  match States g !! win with
  | Some s => ([], Done s g)
  | None => ([], ExitFailure)
  end.

Definition rma_analyzer_is_active_epoch (win : Z) : M bool :=
  s <- rma_analyzer_get_state win ;;
  mret (0 <? active_epoch s).

Definition rma_analyzer_save_interval (Acc : Access) (win : Z) : M Z :=
  s <- rma_analyzer_get_state win ;;
  let Conflicting := getConflictingIntervals (Intervals s) Acc in
  memit (map (EError Acc) Conflicting) ;;;
  match Conflicting with
  | [] =>
      modify_state win (fun s => set_Intervals (ms_insert AccessComp Acc (Intervals s)) s) ;;;
      mret 1
  | _ :: _ => mfail MpiAbort
  end.

(** One call of the receiving routine of the checking thread.  [arrived] is the
    interval message matched by its [MPI_Irecv], with the file name received
    after it, if a message comes while the loop spins; with no message the loop
    can only leave by its end test. *)
Definition rma_analyzer_check_communication (win : Z) (arrived : option Access)
  : M (option Access) :=
  s <- rma_analyzer_get_state win ;;
  if (thread_end s =? 1) && (count s =? value s) then
    modify_state win (set_count 0) ;;; mret None
  else
    match arrived with
    | None => mfail Blocked
    | Some A =>
        modify_state win (fun s => set_count (count s + 1) s) ;;;
        mret (Some (mkAccess (fixForWindow (Itv A) (win_base s) (u64 (disp_unit s)))
                      (Type_ A) (Dbg A)))
    end.

(** The body of the checking thread, over the messages that reach it before it
    leaves; it blocks when they run out before its end test holds. *)
Fixpoint rma_analyzer_comm_check_thread (win : Z) (arrivals : list Access) : M unit :=
  Received <- rma_analyzer_check_communication win (head arrivals) ;;
  match Received, arrivals with
  | None, _ => mret tt
  | Some A, _ :: rest =>
      rma_analyzer_save_interval A win ;;; rma_analyzer_comm_check_thread win rest
  | Some _, [] => mfail Blocked
  end.

(** What the thread does while the application runs: it receives one message
    and checks it. *)
Definition thread_receive (win : Z) (arrived : Access) : M unit :=
  Received <- rma_analyzer_check_communication win (Some arrived) ;;
  match Received with
  | None => mret tt
  | Some A => rma_analyzer_save_interval A win ;;; mret tt
  end.

(** [for (i < RMA_ANALYZER_MAX_WIN) if (win_mpi_tag_id[i] == 0) ...]. *)
Fixpoint first_free (ids : list Z) (i : nat) : option nat :=
  match ids with
  | [] => None
  | b :: r => if b =? 0 then Some i else first_free r (S i)
  end.

Definition set_tag_ids (ids : list Z) : M unit := fun g =>
  ([], Done tt (mkAnalyzer (States g) ids (rma_analyzer_filter_window g))).

Definition rma_analyzer_get_tag_range_id : M Z := fun g =>
  match first_free (win_mpi_tag_id g) 0 with
  | Some i => (set_tag_ids (<[i := 1]> (win_mpi_tag_id g)) ;;; mret (Z.of_nat i)) g
  | None => mret (-1) g
  end.

(** The division is C++'s (towards zero); an index out of the array is
    undefined behaviour. *)
Definition rma_analyzer_free_tag_range (tag_id : Z) : M unit := fun g =>
  let id := Z.quot (tag_id - RMA_ANALYZER_BASE_MPI_TAG) RMA_ANALYZER_MAX_EPOCH_NUMBER in
  if (0 <=? id) && (id <? Z.of_nat RMA_ANALYZER_MAX_WIN)
  then set_tag_ids (<[Z.to_nat id := 0]> (win_mpi_tag_id g)) g
  else mfail Undefined g.

Definition rma_analyzer_save_interval_all_wins (Acc : Access) : M unit :=
  for_each_win (fun win =>
    active <- rma_analyzer_is_active_epoch win ;;
    if (active : bool) then rma_analyzer_save_interval Acc win ;;; mret tt else mret tt).

(** Assigning a new [std::thread] to a joinable one ends the program. *)
Definition rma_analyzer_init_comm_check_thread (win : Z) : M unit :=
  s <- rma_analyzer_get_state win ;;
  modify_state win (fun s => set_active_epoch 1 (set_count_epoch (count_epoch s + 1)
    (set_thread_end 0 (set_array (replicate (size_comm s) 0) s)))) ;;;
  if Thread s then mfail StdTerminate
  else modify_state win (set_Thread true) ;;;
       memit [ESpawn win (mpi_tag s + (count_epoch s + 1))].

(** [reduced] is what [MPI_Reduce] with this rank as the root leaves in
    [value]; [arrivals] the messages the thread receives before it leaves.
    Joining a thread that is not joinable ends the program. *)
Definition rma_analyzer_clear_comm_check_thread
    (do_reduce : Z) (win : Z) (reduced : Z) (arrivals : list Access) : M unit :=
  s <- rma_analyzer_get_state win ;;
  (if do_reduce =? 0 then modify_state win (set_value 0)
   else memit (imap (fun i c => EReduce (Z.of_nat i) c) (array s)) ;;;
        modify_state win (set_value reduced)) ;;;
  modify_state win (set_thread_end 1) ;;;
  if Thread s then
    rma_analyzer_comm_check_thread win arrivals ;;;
    modify_state win (set_Thread false) ;;;
    memit [EJoin win] ;;;
    modify_state win (fun s => set_Intervals [] (set_active_epoch 0 (set_count 0 s)))
  else mfail StdTerminate.

Definition rma_analyzer_init_comm_check_thread_all_wins : M unit :=
  for_each_win (fun win =>
    active <- rma_analyzer_is_active_epoch win ;;
    s <- rma_analyzer_get_state win ;;
    if negb active && (from_sync s =? 1)
    then rma_analyzer_init_comm_check_thread win else mret tt).

(** [reduced] and [arrivals] are given per window. *)
Definition rma_analyzer_clear_comm_check_thread_all_wins
    (do_reduce : Z) (reduced : Z -> Z) (arrivals : Z -> list Access) : M unit :=
  for_each_win (fun win =>
    active <- rma_analyzer_is_active_epoch win ;;
    if (active : bool) then
      rma_analyzer_clear_comm_check_thread do_reduce win (reduced win) (arrivals win) ;;;
      modify_state win (set_from_sync 1)
    else mret tt).

(** The target rank indexes [array] unchecked. *)
Definition rma_analyzer_update_on_comm_send
    (LocalAccess TargetAccess : Access) (target_rank win : Z) : M unit :=
  s <- rma_analyzer_get_state win ;;
  rma_analyzer_save_interval LocalAccess win ;;;
  memit [ESend target_rank (mpi_tag s + count_epoch s) TargetAccess;
         ESendString target_rank RMA_ANALYZER_STRING_MPI_TAG (Filename (Dbg TargetAccess))] ;;;
  match (if 0 <=? target_rank then array s !! Z.to_nat target_rank else None) with
  | Some n =>
      modify_state win (fun s => set_array (<[Z.to_nat target_rank := n + 1]> (array s)) s)
  | None => mfail Undefined
  end.

(** [States.emplace]: an existing entry is kept. *)
Definition emplace_state (win : Z) (s : rma_analyzer_state) : M unit := fun g =>
  ([], Done tt (match States g !! win with
                | Some _ => g
                | None => mkAnalyzer (<[win := s]> (States g)) (win_mpi_tag_id g)
                            (rma_analyzer_filter_window g)
                end)).

(** [filter_env] is the value of [RMA_ANALYZER_FILTER_WINDOW], [comm_size] what
    [MPI_Comm_size] answers. *)
Definition rma_analyzer_start (filter_env : option Z) (base size comm win disp_unit : Z)
    (comm_size : nat) : M unit :=
  (match filter_env with
   | Some v => fun g => ([], Done tt (mkAnalyzer (States g) (win_mpi_tag_id g) v))
   | None => mret tt
   end) ;;;
  memit [ETypeCommit win] ;;;
  tag_id <- rma_analyzer_get_tag_range_id ;;
  emplace_state win
    (mkState win false [] (u64 base) disp_unit (u64 size) comm comm_size
       (RMA_ANALYZER_BASE_MPI_TAG + RMA_ANALYZER_MAX_EPOCH_NUMBER * tag_id)
       (replicate comm_size 0) 0 0 0 0 0 0 0).

(** Erasing the state destroys its [std::thread]: a joinable one ends the
    program. *)
Definition rma_analyzer_stop (win : Z) : M unit :=
  memit [EPrint "PARCOACH: stopping RMA analyzer, no issues found."] ;;;
  state <- rma_analyzer_get_state win ;;
  rma_analyzer_free_tag_range (mpi_tag state) ;;;
  memit [ETypeFree win] ;;;
  s <- rma_analyzer_get_state win ;;
  if Thread s then mfail StdTerminate
  else fun g => ([], Done tt (mkAnalyzer (delete win (States g)) (win_mpi_tag_id g)
                                (rma_analyzer_filter_window g))).

(** * The recording of an access *)

Lemma get_state_some win g s :
  States g !! win = Some s -> rma_analyzer_get_state win g = ([], Done s g).
Proof. intros H. unfold rma_analyzer_get_state. by rewrite H. Qed.

(** What recording does to the window's state when nothing conflicts. *)
Definition record (win : Z) (Acc : Access) : analyzer -> analyzer :=
  with_state win (fun s => set_Intervals (ms_insert AccessComp Acc (Intervals s)) s).

Lemma save_interval_eq Acc win g s :
  States g !! win = Some s ->
  rma_analyzer_save_interval Acc win g =
  (map (EError Acc) (getConflictingIntervals (Intervals s) Acc),
   match getConflictingIntervals (Intervals s) Acc with
   | [] => Done 1 (record win Acc g)
   | _ => MpiAbort
   end).
Proof.
  intros H. unfold rma_analyzer_save_interval, mbind. rewrite (get_state_some _ _ _ H). simpl.
  destruct (getConflictingIntervals _ _) as [|c C]; simpl; by rewrite ?app_nil_r.
Qed.

(** A sequence of accesses recorded in one epoch of a window. *)
Definition record_all (win : Z) (accs : list Access) : M unit :=
  mforall (fun a => rma_analyzer_save_interval a win ;;; mret tt) accs.

Lemma record_all_cons win a accs g s :
  States g !! win = Some s ->
  result (record_all win (a :: accs) g) =
  match getConflictingIntervals (Intervals s) a with
  | [] => result (record_all win accs (record win a g))
  | _ => MpiAbort
  end.
Proof.
  intros H. unfold record_all, result. simpl. unfold mbind at 1 2.
  rewrite (save_interval_eq _ _ _ _ H).
  destruct (getConflictingIntervals _ _) as [|c C]; simpl; [|done].
  by destruct (mforall _ _ _).
Qed.

Lemma record_all_cases win accs : forall g s,
  States g !! win = Some s -> itv_sorted (Intervals s) ->
  all_wf (Intervals s ++ accs) -> nest_free (Intervals s ++ accs) ->
  (List.Forall (fun a => List.Forall (fun x => conflictsWith x a = false) (Intervals s)) accs /\
   ForallOrdPairs (fun x a => conflictsWith x a = false) accs /\
   exists g' s', result (record_all win accs g) = Done tt g' /\
     States g' !! win = Some s' /\ Intervals s' ≡ₚ Intervals s ++ accs)
  \/
  (~ (List.Forall (fun a => List.Forall (fun x => conflictsWith x a = false) (Intervals s)) accs /\
      ForallOrdPairs (fun x a => conflictsWith x a = false) accs) /\
   result (record_all win accs g) = MpiAbort).
Proof.
  induction accs as [|a accs IH]; intros g s Hg Hs Hwf Hn.
  { left. split; [constructor|]. split; [constructor|]. exists g, s. by rewrite app_nil_r. }
  rewrite (record_all_cons _ _ _ _ _ Hg).
  assert (getConflictingIntervals (Intervals s) a ≡ₚ
          List.filter (fun x => conflictsWith x a) (Intervals s)) as HC.
  { apply getConflictingIntervals_filter; auto.
    - apply Hwf. set_solver.
    - intros x Hx. apply Hwf. set_solver.
    - intros x y Hx Hy. apply Hn; set_solver. }
  destruct (getConflictingIntervals (Intervals s) a) as [|c C] eqn:EC.
  - assert (List.Forall (fun x => conflictsWith x a = false) (Intervals s)) as Hfree.
    { rewrite List.Forall_forall. intros x Hx. destruct (conflictsWith x a) eqn:E; [|done].
      assert (x ∈ []) as []%not_elem_of_nil. rewrite HC, elem_of_filterb.
      split; [by apply list_elem_of_In|done]. }
    set (s1 := set_Intervals (ms_insert AccessComp a (Intervals s)) s).
    assert (States (record win a g) !! win = Some s1) as Hg1
      by (unfold record; by rewrite (with_state_eq _ _ _ _ Hg)).
    assert (Intervals s1 ++ accs ≡ₚ Intervals s ++ a :: accs) as HP.
    { simpl. rewrite ms_insert_perm. simpl. apply Permutation_middle. }
    specialize (IH _ s1 Hg1 (ms_insert_sorted AccessComp a _ Hs)).
    assert (List.Forall (fun b => List.Forall (fun x => conflictsWith x b = false)
              (Intervals s1)) accs <->
            List.Forall (fun b => conflictsWith a b = false) accs /\
            List.Forall (fun b => List.Forall (fun x => conflictsWith x b = false)
              (Intervals s)) accs) as HF.
    { rewrite !List.Forall_forall. setoid_rewrite List.Forall_forall.
      assert (forall x, In x (Intervals s1) <-> x = a \/ In x (Intervals s)) as Hin.
      { intros x. rewrite <- !list_elem_of_In. apply elem_of_ms_insert. }
      setoid_rewrite Hin. clear. intuition (subst; eauto). }
    destruct IH as [(H1 & H2 & g' & s' & H3 & H4 & H5)|[H1 H2]].
    + intros x Hx. apply Hwf. by rewrite <- HP.
    + intros x y Hx Hy. apply Hn; by rewrite <- HP.
    + left. apply HF in H1 as [H1 H1']. split; [by constructor|]. split; [by constructor|].
      exists g', s'. by rewrite H5, HP.
    + right. split; [|done]. contradict H1. destruct H1 as [Ha Hb].
      inversion_clear Ha. inversion_clear Hb. split; [by apply HF|done].
  - right. split; [|done]. intros [Ha _]. inversion_clear Ha as [|? ? Hfree _].
    assert (c ∈ c :: C) as Hc by apply list_elem_of_here.
    rewrite HC, elem_of_filterb in Hc. destruct Hc as [Hin Hc].
    rewrite List.Forall_forall in Hfree. rewrite Hfree in Hc; [done|by apply list_elem_of_In].
Qed.

(** * Properties *)

(** C2 (epoch). Over an epoch in which no access strictly nests another (all
    accesses of one size, for instance), the analyzer aborts exactly when two of
    the accesses race; otherwise it records every one of them. *)
Theorem epoch_race_detection win g s accs :
  States g !! win = Some s -> Intervals s = [] -> all_wf accs -> nest_free accs ->
  (ForallOrdPairs (fun x a => ~ races x a) accs ->
   exists g' s', result (record_all win accs g) = Done tt g' /\
     States g' !! win = Some s' /\ Intervals s' ≡ₚ accs) /\
  (~ ForallOrdPairs (fun x a => ~ races x a) accs ->
   result (record_all win accs g) = MpiAbort).
Proof.
  intros Hg Hnil Hwf Hn.
  assert (ForallOrdPairs (fun x a => conflictsWith x a = false) accs <->
          ForallOrdPairs (fun x a => ~ races x a) accs) as Heq.
  { clear Hn. induction accs as [|a r IH]; [split; constructor|].
    assert (all_wf r) as Hr by (intros x Hx; apply Hwf; by apply list_elem_of_further).
    assert (forall x, In x r -> conflictsWith a x = false <-> ~ races a x) as Hx.
    { intros x Hx%list_elem_of_In. rewrite <- conflictsWith_races.
      - by destruct (conflictsWith a x).
      - apply Hwf, list_elem_of_here.
      - by apply Hr. }
    specialize (IH Hr). split; intros H; inversion_clear H as [|? ? Ha Hp];
      (constructor; [rewrite List.Forall_forall in *; intros x Hxr; apply Hx; auto|by apply IH]). }
  destruct (record_all_cases win accs g s Hg) as [(_ & H2 & g' & s' & H3 & H4 & H5)|[H1 H2]];
    rewrite ?Hnil; simpl; auto.
  - constructor.
  - split; intros H; [|by apply Heq in H2]. exists g', s'. by rewrite H5, Hnil.
  - split; [|done]. intros H. exfalso. apply H1. split; [|by apply Heq].
    rewrite Hnil, List.Forall_forall. intros; constructor.
Qed.

Lemma epoch_race_detection_witness :
  let a := mkAccess (mkInterval 0 7) LOCAL_READ DebugInfo_default in
  let b := mkAccess (mkInterval 4 11) RMA_READ DebugInfo_default in
  let c := mkAccess (mkInterval 8 15) LOCAL_WRITE DebugInfo_default in
  exists g, result (rma_analyzer_start None 0 64 0 7 1 2 analyzer_init) = Done tt g /\
    result (record_all 7 [a; b; c] g) = MpiAbort.
Proof.
  intros a b c. eexists. split; [vm_compute; reflexivity|].
  match goal with |- result (record_all _ _ ?g) = _ =>
    edestruct (epoch_race_detection 7 g) with (accs := [a; b; c]) as [_ H];
      [vm_compute; reflexivity|reflexivity| | |apply H]
  end.
  - intros x Hx. rewrite !elem_of_cons, elem_of_nil in Hx.
    destruct Hx as [->|[->|[->|[]]]]; unfold wf_itv; simpl; lia.
  - intros x y Hx Hy. rewrite !elem_of_cons, elem_of_nil in Hx, Hy.
    destruct Hx as [->|[->|[->|[]]]], Hy as [->|[->|[->|[]]]]; simpl; lia.
  - intros HP. inversion_clear HP as [|? ? _ HP1]. inversion_clear HP1 as [|? ? Hbc _].
    inversion_clear Hbc as [|? ? Hr _]. apply Hr.
    apply conflictsWith_races; [unfold wf_itv; simpl; lia|unfold wf_itv; simpl; lia|reflexivity].
Defined.
