(* ===== verification/RmaLifecycle.v ===== *)
(** Invariants of the dynamic RMA analyzer on one process: any sequence of its
    routines keeps the window table, the tag table and the checking threads
    consistent ([analyzer_ok]); when an epoch's end returns and when it waits
    for ever; which message tags two windows can share. *)
From S2P Require Import Prelude Multiset Interval RmaSearch RmaState RmaAnalyzer.

(** * Sequences of routines *)

Inductive rma_op :=
| OpStart (filter_env : option Z) (base size comm win disp_unit : Z) (comm_size : nat)
| OpStop (win : Z)
| OpInit (win : Z)
| OpClear (do_reduce win reduced : Z) (arrivals : list Access)
| OpInitAll
| OpClearAll (do_reduce : Z) (reduced : Z -> Z) (arrivals : Z -> list Access)
| OpSend (LocalAccess TargetAccess : Access) (target_rank win : Z)
| OpAccess (A : Access)
| OpReceive (win : Z) (arrived : Access).

Definition run_op (o : rma_op) : M unit :=
  match o with
  | OpStart e b s c w d n => rma_analyzer_start e b s c w d n
  | OpStop w => rma_analyzer_stop w
  | OpInit w => rma_analyzer_init_comm_check_thread w
  | OpClear r w v l => rma_analyzer_clear_comm_check_thread r w v l
  | OpInitAll => rma_analyzer_init_comm_check_thread_all_wins
  | OpClearAll r v l => rma_analyzer_clear_comm_check_thread_all_wins r v l
  | OpSend L T r w => rma_analyzer_update_on_comm_send L T r w
  | OpAccess A => rma_analyzer_save_interval_all_wins A
  | OpReceive w A => thread_receive w A
  end.

Definition run_ops (ops : list rma_op) : M unit := mforall run_op ops.

(** * The invariant *)

(** An epoch is active exactly while the checking thread is joinable. *)
Definition state_ok (win : Z) (s : rma_analyzer_state) : Prop :=
  state_win s = win /\ length (array s) = size_comm s /\
  ((active_epoch s = 1 /\ Thread s = true) \/ (active_epoch s = 0 /\ Thread s = false)) /\
  itv_sorted (Intervals s).

Definition bad_tag : Z := RMA_ANALYZER_BASE_MPI_TAG - RMA_ANALYZER_MAX_EPOCH_NUMBER.

(** The tag of a window belongs to a range marked as taken, or is the one the
    33rd simultaneous window gets. *)
Definition tag_ok (ids : list Z) (tag : Z) : Prop :=
  tag = bad_tag \/
  exists id : nat, (id < RMA_ANALYZER_MAX_WIN)%nat /\ ids !! id = Some 1 /\
    tag = RMA_ANALYZER_BASE_MPI_TAG + RMA_ANALYZER_MAX_EPOCH_NUMBER * Z.of_nat id.

Definition analyzer_ok (g : analyzer) : Prop :=
  length (win_mpi_tag_id g) = RMA_ANALYZER_MAX_WIN /\
  (forall win s, States g !! win = Some s ->
     state_ok win s /\ tag_ok (win_mpi_tag_id g) (mpi_tag s)) /\
  (forall w1 w2 s1 s2, w1 <> w2 -> States g !! w1 = Some s1 -> States g !! w2 = Some s2 ->
     mpi_tag s1 = mpi_tag s2 -> mpi_tag s1 = bad_tag).

(** * Preservation *)

Lemma with_state_fuse win f h g :
  with_state win f (with_state win h g) = with_state win (fun s => f (h s)) g.
Proof.
  unfold with_state; simpl. f_equal. apply map_eq. intros i.
  destruct (decide (i = win)) as [->|].
  - rewrite !lookup_alter_eq. by destruct (States g !! win).
  - by rewrite !lookup_alter_ne.
Qed.

Lemma with_state_ok win f g :
  (forall s, States g !! win = Some s -> state_ok win s ->
     state_ok win (f s) /\ mpi_tag (f s) = mpi_tag s) ->
  analyzer_ok g -> analyzer_ok (with_state win f g).
Proof.
  intros Hf (Hl & Hs & Hd). split; [done|]. 
  assert (forall w s, States (with_state win f g) !! w = Some s ->
            exists s0, States g !! w = Some s0 /\ mpi_tag s = mpi_tag s0 /\ state_ok w s) as Hinv.
  { intros w s. destruct (decide (win = w)) as [<-|Hne].
    - simpl. rewrite lookup_alter_eq. destruct (States g !! win) as [s0|] eqn:E; [|done].
      intros [= <-]. destruct (Hf s0 eq_refl (proj1 (Hs _ _ E))). eauto.
    - rewrite with_state_ne by done. intros H. exists s. destruct (Hs _ _ H). eauto. }
  split.
  - intros w s (s0 & H0 & Ht & Hok)%Hinv. split; [done|]. rewrite Ht. by apply (Hs w).
  - intros w1 w2 s1 s2 Hne (t1 & H1 & -> & _)%Hinv (t2 & H2 & -> & _)%Hinv. by apply (Hd w1 w2).
Qed.

Lemma preserves_modify win f :
  (forall s, state_ok win s -> state_ok win (f s) /\ mpi_tag (f s) = mpi_tag s) ->
  preserves analyzer_ok (modify_state win f).
Proof.
  intros Hf g t [] g' Hg [= <- <-]. apply with_state_ok; auto.
Qed.

Lemma preserves_get win : preserves analyzer_ok (rma_analyzer_get_state win).
Proof.
  intros g t s g' Hg. unfold rma_analyzer_get_state.
  destruct (States g !! win); congruence.
Qed.
#[export] Hint Resolve preserves_get : rma.

(** The field updates that do not touch the invariant. *)
Ltac state_ok_tac := intros ? (? & ? & ? & ?); split; [repeat split; done|done].

Lemma preserves_is_active win : preserves analyzer_ok (rma_analyzer_is_active_epoch win).
Proof. unfold rma_analyzer_is_active_epoch. auto with rma. Qed.

Lemma preserves_save Acc win : preserves analyzer_ok (rma_analyzer_save_interval Acc win).
Proof.
  apply preserves_bind; [auto with rma|intros s]. apply preserves_bind; [auto with rma|intros _].
  destruct (getConflictingIntervals _ _); [|auto with rma].
  apply preserves_bind; [|auto with rma]. apply preserves_modify.
  intros s' (? & ? & ? & ?). split; [|done]. repeat split; try done.
  by apply (ms_insert_sorted AccessComp).
Qed.
#[export] Hint Resolve preserves_is_active preserves_save : rma.

Lemma preserves_check_communication win o :
  preserves analyzer_ok (rma_analyzer_check_communication win o).
Proof.
  apply preserves_bind; [auto with rma|intros s].
  destruct (_ && _); [|destruct o; [|auto with rma]];
    (apply preserves_bind; [apply preserves_modify; state_ok_tac|auto with rma]).
Qed.
#[export] Hint Resolve preserves_check_communication : rma.

Lemma preserves_comm_check_thread win l :
  preserves analyzer_ok (rma_analyzer_comm_check_thread win l).
Proof.
  induction l as [|a l IH]; simpl; (apply preserves_bind; [auto with rma|intros [A|]]);
    auto with rma.
Qed.
#[export] Hint Resolve preserves_comm_check_thread : rma.

(** Equations of the beginning and the end of an epoch. *)
Lemma init_eq win g s :
  States g !! win = Some s ->
  rma_analyzer_init_comm_check_thread win g =
  if Thread s then ([], StdTerminate)
  else ([ESpawn win (mpi_tag s + (count_epoch s + 1))],
        Done tt (with_state win (fun s => set_Thread true (set_active_epoch 1
          (set_count_epoch (count_epoch s + 1) (set_thread_end 0
             (set_array (replicate (size_comm s) 0) s))))) g)).
Proof.
  intros H. unfold rma_analyzer_init_comm_check_thread, mbind at 1.
  rewrite (get_state_some _ _ _ H). simpl. destruct (Thread s); simpl; [done|].
  by rewrite with_state_fuse.
Qed.

Lemma get_state_none win g :
  States g !! win = None -> rma_analyzer_get_state win g = ([], ExitFailure).
Proof. intros H. unfold rma_analyzer_get_state. by rewrite H. Qed.

Lemma preserves_init win : preserves analyzer_ok (rma_analyzer_init_comm_check_thread win).
Proof.
  intros g t [] g' Hg. destruct (States g !! win) as [s|] eqn:E.
  - rewrite (init_eq _ _ _ E). destruct (Thread s) eqn:ET; [done|]. intros [= <- <-].
    apply with_state_ok; [|done]. intros s' _ (? & ? & ? & ?). split; [|done].
    repeat split; try done; simpl; auto. by rewrite length_replicate.
  - unfold rma_analyzer_init_comm_check_thread, mbind. by rewrite (get_state_none _ _ E).
Qed.

(** The end of [rma_analyzer_clear_comm_check_thread], after the thread left. *)
Definition clear_state (s : rma_analyzer_state) : rma_analyzer_state :=
  set_Intervals [] (set_active_epoch 0 (set_count 0 (set_Thread false s))).

Definition joined (win : Z) : M unit :=
  modify_state win (set_Thread false) ;;;
  memit [EJoin win] ;;;
  modify_state win (fun s => set_Intervals [] (set_active_epoch 0 (set_count 0 s))).

Lemma joined_eq win g : joined win g = ([EJoin win], Done tt (with_state win clear_state g)).
Proof. unfold joined, mbind; simpl. by rewrite with_state_fuse. Qed.

Lemma preserves_joined win : preserves analyzer_ok (joined win).
Proof.
  intros g t [] g' Hg. rewrite joined_eq. intros [= <- <-].
  apply with_state_ok; [|done]. intros s _ (? & ? & ? & ?). split; [|done].
  repeat split; simpl; auto. constructor.
Qed.

Lemma preserves_clear r win v l :
  preserves analyzer_ok (rma_analyzer_clear_comm_check_thread r win v l).
Proof.
  apply preserves_bind; [auto with rma|intros s]. apply preserves_bind; [|intros _].
  - destruct (r =? 0); [apply preserves_modify; state_ok_tac|].
    apply preserves_bind; [auto with rma|intros _]. apply preserves_modify; state_ok_tac.
  - apply preserves_bind; [apply preserves_modify; state_ok_tac|intros _].
    destruct (Thread s); [|auto with rma]. apply preserves_bind; [auto with rma|intros _].
    apply preserves_joined.
Qed.
#[export] Hint Resolve preserves_init preserves_clear : rma.

Lemma preserves_send L T r win :
  preserves analyzer_ok (rma_analyzer_update_on_comm_send L T r win).
Proof.
  apply preserves_bind; [auto with rma|intros s]. apply preserves_bind; [auto with rma|intros _].
  apply preserves_bind; [auto with rma|intros _].
  destruct (if 0 <=? r then _ else _); [|auto with rma]. apply preserves_modify.
  intros s' (? & ? & ? & ?). split; [|done]. repeat split; try done. simpl.
  by rewrite length_insert.
Qed.

Lemma preserves_receive win A : preserves analyzer_ok (thread_receive win A).
Proof.
  apply preserves_bind; [auto with rma|intros [a|]]; auto with rma.
Qed.

(** ** Tag ranges *)

Lemma first_free_spec ids : forall i,
  match first_free ids i with
  | Some j => exists k, j = (i + k)%nat /\ ids !! k = Some 0
  | None => forall k b, ids !! k = Some b -> b <> 0
  end.
Proof.
  induction ids as [|b r IH]; intros i; simpl; [intros []; done|].
  destruct (Z.eqb_spec b 0) as [->|Hb].
  - exists 0%nat. split; [lia|done].
  - specialize (IH (S i)). destruct (first_free r (S i)) as [j|].
    + destruct IH as (k & -> & Hk). exists (S k). split; [lia|done].
    + intros [|k] c; simpl; [congruence|apply IH].
Qed.

Lemma free_tag_range_eq (id : nat) g :
  (id < RMA_ANALYZER_MAX_WIN)%nat ->
  rma_analyzer_free_tag_range
    (RMA_ANALYZER_BASE_MPI_TAG + RMA_ANALYZER_MAX_EPOCH_NUMBER * Z.of_nat id) g =
  set_tag_ids (<[id := 0]> (win_mpi_tag_id g)) g.
Proof.
  intros Hid. unfold rma_analyzer_free_tag_range.
  unfold RMA_ANALYZER_BASE_MPI_TAG, RMA_ANALYZER_MAX_EPOCH_NUMBER, RMA_ANALYZER_MAX_WIN in *.
  replace (65535 + 1024 * Z.of_nat id - 65535) with (Z.of_nat id * 1024) by lia.
  rewrite Z.quot_mul by lia.
  destruct (Z.leb_spec 0 (Z.of_nat id)); [|lia].
  destruct (Z.ltb_spec (Z.of_nat id) (Z.of_nat 32)); [|lia]. simpl.
  by rewrite Nat2Z.id.
Qed.

Lemma free_bad_tag g : rma_analyzer_free_tag_range bad_tag g = ([], Undefined).
Proof. reflexivity. Qed.

Lemma tag_ok_insert ids id tag :
  tag_ok ids tag -> tag_ok (<[id := 1]> ids) tag.
Proof.
  intros [->|(k & Hk & Hi & ->)]; [by left|right]. exists k. split; [done|]. split; [|done].
  destruct (decide (k = id)) as [->|].
  - apply list_lookup_insert_eq. by apply lookup_lt_Some in Hi.
  - by rewrite list_lookup_insert_ne.
Qed.

Lemma preserves_set_filter v :
  preserves analyzer_ok (fun g => ([], Done tt (mkAnalyzer (States g) (win_mpi_tag_id g) v))).
Proof. intros g t [] g' Hg [= <- <-]. exact Hg. Qed.

(** A new window gets a range no live window uses, or the shared bad one. *)
Lemma preserves_alloc win base disp size comm n :
  preserves analyzer_ok
   (tag_id <- rma_analyzer_get_tag_range_id ;;
    emplace_state win (mkState win false [] base disp size comm n
       (RMA_ANALYZER_BASE_MPI_TAG + RMA_ANALYZER_MAX_EPOCH_NUMBER * tag_id)
       (replicate n 0) 0 0 0 0 0 0 0)).
Proof.
  intros g t [] g' (Hl & Hs & Hd).
  unfold rma_analyzer_get_tag_range_id, mbind.
  pose proof (first_free_spec (win_mpi_tag_id g) 0) as Hf.
  destruct (first_free (win_mpi_tag_id g) 0) as [j|]; simpl.
  - destruct Hf as (k & Hk & Hk0). simpl in Hk. subst k.
    assert (j < RMA_ANALYZER_MAX_WIN)%nat as Hj by (apply lookup_lt_Some in Hk0; congruence).
    assert (<[j:=1]> (win_mpi_tag_id g) !! j = Some 1) as Hj1
      by (apply list_lookup_insert_eq; by rewrite Hl).
    intros [= <- <-]. destruct (States g !! win) as [s0|] eqn:E; (split; [simpl; by rewrite length_insert|]).
    + split; [|exact Hd]. simpl. intros w s Hw. destruct (Hs _ _ Hw). eauto using tag_ok_insert.
    + simpl. assert (forall w s, States g !! w = Some s ->
        mpi_tag s <> RMA_ANALYZER_BASE_MPI_TAG + RMA_ANALYZER_MAX_EPOCH_NUMBER * Z.of_nat j) as Hnew.
      { intros w s Hw Heq. destruct (Hs _ _ Hw) as [_ [Hb|(k & Hk & Hk1 & Ht)]];
          unfold bad_tag, RMA_ANALYZER_BASE_MPI_TAG, RMA_ANALYZER_MAX_EPOCH_NUMBER in *; [lia|].
        assert (k = j) as -> by lia. congruence. }
      split.
      * intros w s. rewrite lookup_insert. case_decide as Hw.
        -- subst w. intros [= <-]. simpl. split.
           ++ repeat split; simpl; auto; [by rewrite length_replicate|constructor].
           ++ right. by exists j.
        -- intros Hs0. destruct (Hs _ _ Hs0). eauto using tag_ok_insert.
      * intros w1 w2 s1 s2 Hne. rewrite !lookup_insert.
        case_decide; case_decide; subst; try congruence.
        -- intros [= <-] H2. simpl. intros Heq. by destruct (Hnew _ _ H2).
        -- intros H1 [= <-]. simpl. intros Heq. by destruct (Hnew _ _ H1).
        -- apply Hd; done.
  - intros [= <- <-]. destruct (States g !! win) as [s0|] eqn:E; [by split|].
    split; [done|]. simpl. split.
    + intros w s. rewrite lookup_insert. case_decide as Hw; [|apply Hs].
      subst w. intros [= <-]. simpl. split; [|by left].
      repeat split; simpl; auto; [by rewrite length_replicate|constructor].
    + intros w1 w2 s1 s2 Hne. rewrite !lookup_insert.
      case_decide; case_decide; subst; try congruence.
      * by intros [= <-] H2.
      * intros H1 [= <-]. simpl. intros ->. reflexivity.
      * apply Hd; done.
Qed.

Lemma preserves_start e b s c w d n : preserves analyzer_ok (rma_analyzer_start e b s c w d n).
Proof.
  apply preserves_bind; [|intros _].
  - destruct e; [apply preserves_set_filter|auto with rma].
  - apply preserves_bind; [auto with rma|intros _]. apply preserves_alloc.
Qed.

(** What [rma_analyzer_stop] does when it returns. *)
Lemma stop_inv win g t g' :
  analyzer_ok g -> rma_analyzer_stop win g = (t, Done tt g') ->
  exists s (id : nat), States g !! win = Some s /\ Thread s = false /\
    (id < RMA_ANALYZER_MAX_WIN)%nat /\
    mpi_tag s = RMA_ANALYZER_BASE_MPI_TAG + RMA_ANALYZER_MAX_EPOCH_NUMBER * Z.of_nat id /\
    g' = mkAnalyzer (delete win (States g)) (<[id := 0]> (win_mpi_tag_id g))
           (rma_analyzer_filter_window g).
Proof.
  intros (Hl & Hs & Hd). unfold rma_analyzer_stop, mbind; simpl.
  destruct (States g !! win) as [s|] eqn:E; [|by rewrite (get_state_none _ _ E)].
  rewrite (get_state_some _ _ _ E). simpl.
  destruct (Hs _ _ E) as [_ [->|(id & Hid & _ & Ht)]]; [done|].
  rewrite Ht, free_tag_range_eq by done. simpl. rewrite (get_state_some win _ s) by done. simpl.
  destruct (Thread s) eqn:ET; [done|]. intros [= <- <-]. by exists s, id.
Qed.

Lemma preserves_stop win : preserves analyzer_ok (rma_analyzer_stop win).
Proof.
  intros g t [] g' Hg Hstop. destruct (stop_inv _ _ _ _ Hg Hstop)
    as (s & id & Hw & _ & Hid & Ht & ->). destruct Hg as (Hl & Hs & Hd).
  split; [by simpl; rewrite length_insert|]. simpl. split.
  - intros w s'. rewrite lookup_delete. case_decide as Hne; [done|]. intros Hw'.
    destruct (Hs _ _ Hw') as [Hok [Hb|(k & Hk & Hk1 & Ht')]]; (split; [done|]); [by left|].
    right. exists k. split; [done|]. split; [|done].
    rewrite list_lookup_insert_ne; [done|]. intros <-.
    assert (mpi_tag s = bad_tag) as Hbad by (eapply (Hd win w); eauto; congruence).
    unfold bad_tag, RMA_ANALYZER_BASE_MPI_TAG, RMA_ANALYZER_MAX_EPOCH_NUMBER in *. lia.
  - intros w1 w2 s1 s2 Hne. rewrite !lookup_delete. case_decide; [done|]. case_decide; [done|].
    by apply Hd.
Qed.

Lemma run_op_preserves o : preserves analyzer_ok (run_op o).
Proof.
  destruct o; simpl.
  - apply preserves_start.
  - apply preserves_stop.
  - auto with rma.
  - auto with rma.
  - apply preserves_for_each. intros w. apply preserves_bind; [auto with rma|intros a].
    apply preserves_bind; [auto with rma|intros s]. destruct (_ && _); auto with rma.
  - apply preserves_for_each. intros w. apply preserves_bind; [auto with rma|intros [|]];
      [|auto with rma]. apply preserves_bind; [auto with rma|intros _].
    apply preserves_modify; state_ok_tac.
  - apply preserves_send.
  - apply preserves_for_each. intros w. apply preserves_bind; [auto with rma|intros [|]];
      auto with rma.
  - apply preserves_receive.
Qed.

Lemma analyzer_init_ok : analyzer_ok analyzer_init.
Proof.
  split; [reflexivity|]. split; simpl; intros *; rewrite lookup_empty; done.
Qed.

Lemma run_ops_ok ops g : result (run_ops ops analyzer_init) = Done tt g -> analyzer_ok g.
Proof.
  unfold result. destruct (run_ops ops analyzer_init) as [t o] eqn:E; simpl. intros ->.
  eapply preserves_forall; [|exact analyzer_init_ok|exact E]. apply run_op_preserves.
Qed.

(** * The end of an epoch *)

(** The access recorded for a message: its interval placed in the window. *)
Definition arrived_access (s : rma_analyzer_state) (A : Access) : Access :=
  mkAccess (fixForWindow (Itv A) (win_base s) (u64 (disp_unit s))) (Type_ A) (Dbg A).

(** The number of messages the thread still waits for. *)
Definition awaited (s : rma_analyzer_state) : Z := value s - count s.

Definition enough (s : rma_analyzer_state) (arrivals : list Access) : Prop :=
  0 <= awaited s <= Z.of_nat (length arrivals).

Lemma check_leave win o g s :
  States g !! win = Some s -> thread_end s = 1 -> count s = value s ->
  rma_analyzer_check_communication win o g = ([], Done None (with_state win (set_count 0) g)).
Proof.
  intros H He Hc. unfold rma_analyzer_check_communication, mbind.
  rewrite (get_state_some _ _ _ H), He, Hc, !Z.eqb_refl. reflexivity.
Qed.

Lemma check_receive win A g s :
  States g !! win = Some s -> (thread_end s = 1 -> count s <> value s) ->
  rma_analyzer_check_communication win (Some A) g =
  ([], Done (Some (arrived_access s A)) (with_state win (fun s => set_count (count s + 1) s) g)).
Proof.
  intros H Hc. unfold rma_analyzer_check_communication, mbind.
  rewrite (get_state_some _ _ _ H).
  destruct (Z.eqb_spec (thread_end s) 1), (Z.eqb_spec (count s) (value s)); simpl;
    try done; tauto.
Qed.

Lemma check_blocked win g s :
  States g !! win = Some s -> count s <> value s ->
  rma_analyzer_check_communication win None g = ([], Blocked).
Proof.
  intros H Hc. unfold rma_analyzer_check_communication, mbind.
  rewrite (get_state_some _ _ _ H).
  destruct (Z.eqb_spec (count s) (value s)); [done|]. by rewrite andb_false_r.
Qed.

Lemma thread_cons win A rest g s :
  States g !! win = Some s -> (thread_end s = 1 -> count s <> value s) ->
  result (rma_analyzer_comm_check_thread win (A :: rest) g) =
  match getConflictingIntervals (Intervals s) (arrived_access s A) with
  | [] => result (rma_analyzer_comm_check_thread win rest
            (with_state win (fun s => set_Intervals
               (ms_insert AccessComp (arrived_access s A) (Intervals s))
               (set_count (count s + 1) s)) g))
  | _ => MpiAbort
  end.
Proof.
  intros H Hc. cbn [rma_analyzer_comm_check_thread head]. unfold mbind at 1.
  rewrite (check_receive _ _ _ _ H Hc). cbn [app]. unfold result, mbind at 1.
  set (g1 := with_state win _ g).
  assert (States g1 !! win = Some (set_count (count s + 1) s)) as H1
    by (unfold g1; by rewrite (with_state_eq _ _ _ _ H)).
  rewrite (save_interval_eq _ _ _ _ H1). cbn [Intervals set_count].
  destruct (getConflictingIntervals _ _) as [|c C]; [|done].
  unfold record, g1. rewrite with_state_fuse.
  assert (with_state win (fun s0 => set_Intervals (ms_insert AccessComp (arrived_access s A)
            (Intervals (set_count (count s0 + 1) s0))) (set_count (count s0 + 1) s0)) g =
          with_state win (fun s => set_Intervals (ms_insert AccessComp (arrived_access s A)
            (Intervals s)) (set_count (count s + 1) s)) g) as ->.
  { unfold with_state. f_equal. apply map_eq. intros i.
    destruct (decide (i = win)) as [->|]; [|by rewrite !lookup_alter_ne].
    by rewrite !lookup_alter_eq, H. }
  by destruct (rma_analyzer_comm_check_thread win rest _).
Qed.

(** A message conflicts with an access recorded before it. *)
Definition race_on_arrival (s : rma_analyzer_state) (arrivals : list Access) : Prop :=
  exists pre A post x, arrivals = pre ++ A :: post /\
    x ∈ map (arrived_access s) pre ++ Intervals s /\
    conflictsWith x (arrived_access s A) = true.

(** The checking thread after the end of the epoch was announced: it returns
    only when every awaited message has been received and recorded. *)
Lemma thread_loop win arrivals : forall g s,
  States g !! win = Some s -> thread_end s = 1 ->
  match result (rma_analyzer_comm_check_thread win arrivals g) with
  | Done _ g' => enough s arrivals /\ exists s', States g' !! win = Some s' /\
      Thread s' = Thread s /\ count s' = 0 /\
      Intervals s' ≡ₚ
        map (arrived_access s) (take (Z.to_nat (awaited s)) arrivals) ++ Intervals s
  | MpiAbort => race_on_arrival s arrivals
  | Blocked => ~ enough s arrivals
  | _ => False
  end.
Proof.
  unfold enough, awaited, race_on_arrival. induction arrivals as [|A rest IH]; intros g s H He.
  - simpl. destruct (decide (count s = value s)) as [Hc|Hc].
    + unfold mbind. rewrite (check_leave _ _ _ _ H He Hc). simpl.
      split; [lia|]. exists (set_count 0 s). simpl.
      rewrite lookup_alter_eq, H, take_nil. done.
    + unfold mbind. rewrite (check_blocked _ _ _ H Hc). simpl. lia.
  - destruct (decide (count s = value s)) as [Hc|Hc].
    + simpl. unfold mbind. rewrite (check_leave _ _ _ _ H He Hc). simpl.
      split; [lia|]. exists (set_count 0 s). simpl.
      replace (value s - count s) with 0 by lia. by rewrite lookup_alter_eq, H.
    + rewrite (thread_cons _ _ _ _ _ H) by done.
      destruct (getConflictingIntervals _ _) as [|c C] eqn:EC.
      2: { exists [], A, rest, c. split; [done|]. simpl.
           apply getConflictingIntervals_sound. rewrite EC. apply list_elem_of_here. }
      set (f := fun s => set_Intervals _ (set_count (count s + 1) s)).
      specialize (IH (with_state win f g) (f s) (with_state_eq _ _ _ _ H) He).
      cbn [f set_Intervals set_count value count Thread length Intervals] in IH |- *.
      destruct (result _) as [[] g'| | | | |]; try done.
      * destruct IH as (Hen & s' & Hs' & HT & Hc' & HP). split; [lia|].
        exists s'. split; [done|]. split; [done|]. split; [done|]. rewrite HP.
        replace (Z.to_nat (value s - count s))
          with (S (Z.to_nat (value s - (count s + 1)))) by lia.
        simpl. rewrite ms_insert_perm. 
        rewrite <- Permutation_middle. done.
      * destruct IH as (pre & B & post & x & -> & Hx & Hconf).
        exists (A :: pre), B, post, x. split; [done|]. split; [|done].
        rewrite elem_of_app, elem_of_ms_insert in Hx. simpl. rewrite elem_of_cons, elem_of_app.
        destruct Hx as [?|[?|?]]; auto.
      * lia.
Qed.

(** [value] at the end of the epoch. *)
Definition expected (do_reduce reduced : Z) : Z := if do_reduce =? 0 then 0 else reduced.

Lemma clear_eq r win v l g s :
  States g !! win = Some s -> Thread s = true ->
  result (rma_analyzer_clear_comm_check_thread r win v l g) =
  match result (rma_analyzer_comm_check_thread win l
          (with_state win (fun s => set_thread_end 1 (set_value (expected r v) s)) g)) with
  | Done _ g' => Done tt (with_state win clear_state g')
  | o => o
  end.
Proof.
  intros H HT. unfold rma_analyzer_clear_comm_check_thread, expected, result, mbind at 1.
  rewrite (get_state_some _ _ _ H).
  assert (forall h t0, (let (t2, o) := mbind (modify_state win (set_thread_end 1)) (fun _ =>
      if Thread s then
        rma_analyzer_comm_check_thread win l ;;; joined win
      else mfail StdTerminate) (with_state win (set_value h) g) in (t0 ++ t2, o)).2 =
    match (rma_analyzer_comm_check_thread win l
          (with_state win (fun s => set_thread_end 1 (set_value h s)) g)).2 with
    | Done _ g' => Done tt (with_state win clear_state g')
    | o => o
    end) as Hrest.
  { intros h t0. unfold mbind at 1. simpl. rewrite with_state_fuse, HT. unfold mbind.
    destruct (rma_analyzer_comm_check_thread win l _) as [t [[] g1| | | | |]]; try done.
    rewrite joined_eq. done. }
  destruct (r =? 0); simpl.
  - specialize (Hrest 0 []). unfold joined in Hrest. rewrite <- Hrest. unfold mbind at 1. simpl.
    by destruct (mbind _ _ _).
  - specialize (Hrest v []). unfold joined in Hrest. rewrite <- Hrest.
    unfold mbind at 1 2. simpl. by destruct (mbind _ _ _).
Qed.

(** * Properties *)

(** C4 (invariant). Whatever routines a process calls, as long as they return,
    every live window is filed under its own handle, has one counter per rank,
    keeps its accesses sorted, is in an active epoch exactly when its checking
    thread is joinable, and owns a tag range marked as taken that no other live
    window has, unless more than 32 windows were live at once. *)
Theorem analyzer_invariant ops g :
  result (run_ops ops analyzer_init) = Done tt g -> analyzer_ok g.
Proof. apply run_ops_ok. Qed.

(** Two windows of two ranks; an epoch on the first with a local store in it. *)
Definition demo_ops : list rma_op :=
  [OpStart None 4096 64 0 7 4 2; OpStart None 8192 64 0 9 1 2; OpInit 7;
   OpAccess (mkAccess (mkInterval 100 107) LOCAL_WRITE DebugInfo_default);
   OpSend (mkAccess (mkInterval 200 207) RMA_READ DebugInfo_default)
          (mkAccess (mkInterval 0 7) RMA_WRITE DebugInfo_default) 1 7;
   OpClear 1 7 1 [mkAccess (mkInterval 2 5) RMA_WRITE DebugInfo_default]; OpStop 9].

Lemma analyzer_invariant_witness :
  exists g, result (run_ops demo_ops analyzer_init) = Done tt g /\ analyzer_ok g /\
    map fst (map_to_list (States g)) = [7].
Proof.
  eexists. split; [vm_compute; reflexivity|]. split; [|vm_compute; reflexivity].
  apply (analyzer_invariant demo_ops). vm_compute. reflexivity.
Defined.

(** C39 (alternation). In every reachable state the beginning of an epoch on a
    live window succeeds exactly when no epoch is active on it, resetting the
    counters it sends and starting the thread with the next tag; on an active
    window it ends the program (a second thread would replace a running one),
    and so does the end of an epoch on an inactive one. *)
Theorem epoch_alternation ops g win s :
  result (run_ops ops analyzer_init) = Done tt g -> States g !! win = Some s ->
  (active_epoch s = 0 ->
     (exists t g' s', rma_analyzer_init_comm_check_thread win g = (t, Done tt g') /\
        States g' !! win = Some s' /\ active_epoch s' = 1 /\ Thread s' = true /\
        thread_end s' = 0 /\ count_epoch s' = count_epoch s + 1 /\
        array s' = replicate (size_comm s) 0 /\
        t = [ESpawn win (mpi_tag s' + count_epoch s')]) /\
     (forall r v l,
        result (rma_analyzer_clear_comm_check_thread r win v l g) = StdTerminate)) /\
  (active_epoch s <> 0 ->
     active_epoch s = 1 /\
     result (rma_analyzer_init_comm_check_thread win g) = StdTerminate).
Proof.
  intros Hrun Hw. destruct (run_ops_ok _ _ Hrun) as (_ & Hs & _).
  destruct (Hs _ _ Hw) as [(_ & _ & Hact & _) _]. split.
  - intros H0. destruct Hact as [[? _]|[_ HT]]; [congruence|]. split.
    + rewrite (init_eq _ _ _ Hw), HT. do 2 eexists. exists
        (set_Thread true (set_active_epoch 1 (set_count_epoch (count_epoch s + 1)
           (set_thread_end 0 (set_array (replicate (size_comm s) 0) s))))).
      split; [reflexivity|]. rewrite (with_state_eq _ _ _ _ Hw). done.
    + intros r v l. unfold rma_analyzer_clear_comm_check_thread, result, mbind at 1.
      rewrite (get_state_some _ _ _ Hw), HT. unfold mbind. by destruct (r =? 0).
  - intros H0. destruct Hact as [[? HT]|[? _]]; [|done]. split; [done|].
    by rewrite (init_eq _ _ _ Hw), HT.
Qed.

Lemma epoch_alternation_witness :
  exists g s, result (run_ops [OpStart None 0 64 0 7 1 2; OpInit 7] analyzer_init) = Done tt g /\
    States g !! 7 = Some s /\
    result (rma_analyzer_init_comm_check_thread 7 g) = StdTerminate.
Proof.
  do 2 eexists. split; [vm_compute; reflexivity|]. split; [vm_compute; reflexivity|].
  eapply (epoch_alternation [OpStart None 0 64 0 7 1 2; OpInit 7] _ 7);
    [vm_compute; reflexivity|vm_compute; reflexivity|discriminate].
Defined.

(** C27 (clear). The end of an epoch returns exactly when the checking thread
    has received all the messages the reduction announced: it then left the
    window inactive with nothing recorded and the counter reset.  It waits for
    ever when too few messages come, or when more were already received than
    announced; it aborts only on a message that conflicts with an access
    recorded before it; nothing else happens. *)
Theorem clear_returns r win v l g s :
  States g !! win = Some s -> Thread s = true ->
  let waited := expected r v - count s in
  match result (rma_analyzer_clear_comm_check_thread r win v l g) with
  | Done _ g' => 0 <= waited <= Z.of_nat (length l) /\
      exists s', States g' !! win = Some s' /\ Thread s' = false /\ active_epoch s' = 0 /\
        count s' = 0 /\ Intervals s' = []
  | Blocked => ~ (0 <= waited <= Z.of_nat (length l))
  | MpiAbort => race_on_arrival s l
  | _ => False
  end.
Proof.
  intros H HT waited. rewrite (clear_eq _ _ _ _ _ _ H HT).
  pose proof (thread_loop win l _ _ (with_state_eq win
    (fun s => set_thread_end 1 (set_value (expected r v) s)) _ _ H) eq_refl) as HL.
  destruct (result _) as [[] g'| | | | |]; try done.
  destruct HL as (Hen & s' & Hs' & _ & _ & _). split; [exact Hen|].
  exists (clear_state s'). by rewrite (with_state_eq _ _ _ _ Hs').
Qed.

(** One message was received and recorded during the epoch, a second one is
    awaited: with it the epoch ends, without it the process waits for ever. *)
Lemma clear_returns_witness :
  let a := mkAccess (mkInterval 0 7) RMA_WRITE DebugInfo_default in
  let b := mkAccess (mkInterval 8 15) RMA_WRITE DebugInfo_default in
  exists g s, result (run_ops [OpStart None 4096 64 0 7 1 2; OpInit 7; OpReceive 7 a]
                        analyzer_init) = Done tt g /\
    States g !! 7 = Some s /\ count s = 1 /\
    result (rma_analyzer_clear_comm_check_thread 1 7 2 [] g) = Blocked /\
    (exists s', match result (rma_analyzer_clear_comm_check_thread 1 7 2 [b] g) with
                | Done _ g' => States g' !! 7 = Some s' | _ => False end /\ Intervals s' = []).
Proof.
  intros a b. do 2 eexists. split; [vm_compute; reflexivity|].
  split; [vm_compute; reflexivity|]. split; [reflexivity|]. split; [vm_compute; reflexivity|].
  match goal with |- exists s', match result (?f ?r ?w ?v ?l ?g) with _ => _ end /\ _ =>
    pose proof (clear_returns r w v l g _ ltac:(vm_compute; reflexivity) ltac:(reflexivity)) as H
  end.
  vm_compute in H. vm_compute. destruct H as [_ (s' & H1 & _ & _ & _ & H2)].
  exists s'. split; [exact H1|exact H2].
Defined.

(** Two live windows of a reachable state never use the same message
    tag during their first 1023 epochs, nor the tag of the file names, provided
    neither of them is the 33rd simultaneous window; that one shares the tag of
    the file names in its 1023rd epoch. *)
Theorem tags_disjoint ops g w1 w2 s1 s2 e1 e2 :
  result (run_ops ops analyzer_init) = Done tt g -> w1 <> w2 ->
  States g !! w1 = Some s1 -> States g !! w2 = Some s2 ->
  0 <= e1 < RMA_ANALYZER_MAX_EPOCH_NUMBER -> 0 <= e2 < RMA_ANALYZER_MAX_EPOCH_NUMBER ->
  mpi_tag s1 <> bad_tag ->
  mpi_tag s1 + e1 <> RMA_ANALYZER_STRING_MPI_TAG /\
  (mpi_tag s2 <> bad_tag -> mpi_tag s1 + e1 <> mpi_tag s2 + e2) /\
  bad_tag + (RMA_ANALYZER_MAX_EPOCH_NUMBER - 1) = RMA_ANALYZER_STRING_MPI_TAG.
Proof.
  intros Hrun Hne H1 H2 He1 He2 Hb1. destruct (run_ops_ok _ _ Hrun) as (_ & Hs & Hd).
  specialize (Hd _ _ _ _ Hne H1 H2).
  destruct (Hs _ _ H1) as [_ [?|(i & _ & _ & Hi)]]; [done|].
  unfold bad_tag, RMA_ANALYZER_STRING_MPI_TAG, RMA_ANALYZER_BASE_MPI_TAG,
    RMA_ANALYZER_MAX_EPOCH_NUMBER in *.
  split; [lia|]. split; [|lia]. intros Hb2.
  destruct (Hs _ _ H2) as [_ [?|(j & _ & _ & Hj)]]; [unfold bad_tag in *; done|].
  unfold RMA_ANALYZER_BASE_MPI_TAG, RMA_ANALYZER_MAX_EPOCH_NUMBER in Hj. lia.
Qed.

Lemma tags_disjoint_witness :
  exists g s1 s2, result (run_ops [OpStart None 0 64 0 7 1 2; OpStart None 0 64 0 9 1 2]
                            analyzer_init) = Done tt g /\
    States g !! 7 = Some s1 /\ States g !! 9 = Some s2 /\
    mpi_tag s1 + 1000 <> mpi_tag s2 + 3.
Proof.
  do 3 eexists. split; [vm_compute; reflexivity|]. split; [vm_compute; reflexivity|].
  split; [vm_compute; reflexivity|].
  eapply (tags_disjoint [OpStart None 0 64 0 7 1 2; OpStart None 0 64 0 9 1 2] _ 7 9);
    try (vm_compute; reflexivity); try (vm_compute; intuition congruence); discriminate.
Defined.

(** The first tag of a range, as [rma_analyzer_start] computes it. *)
Definition range_base (id : Z) : Z :=
  RMA_ANALYZER_BASE_MPI_TAG + RMA_ANALYZER_MAX_EPOCH_NUMBER * id.

(** Taking a tag range and giving it back restores the table of
    ranges; the range taken was free and is marked; when none is free the
    answer is -1 and giving that one back is undefined behaviour (index -1). *)
Theorem tag_range_roundtrip g :
  length (win_mpi_tag_id g) = RMA_ANALYZER_MAX_WIN ->
  (exists (id : nat) g1, rma_analyzer_get_tag_range_id g = ([], Done (Z.of_nat id) g1) /\
     win_mpi_tag_id g !! id = Some 0 /\ win_mpi_tag_id g1 !! id = Some 1 /\
     rma_analyzer_free_tag_range (range_base (Z.of_nat id)) g1 = ([], Done tt g)) \/
  ((forall i b, win_mpi_tag_id g !! i = Some b -> b <> 0) /\
   rma_analyzer_get_tag_range_id g = ([], Done (-1) g) /\
   result (rma_analyzer_free_tag_range (range_base (-1)) g) = Undefined).
Proof.
  unfold range_base. intros Hl. unfold rma_analyzer_get_tag_range_id.
  pose proof (first_free_spec (win_mpi_tag_id g) 0) as Hf.
  destruct (first_free _ _) as [j|].
  - left. destruct Hf as (k & Hk & H0). simpl in Hk. subst k. exists j.
    assert (j < RMA_ANALYZER_MAX_WIN)%nat as Hj by (apply lookup_lt_Some in H0; congruence).
    eexists. split; [reflexivity|]. split; [done|]. simpl. split.
    + apply list_lookup_insert_eq. by rewrite Hl.
    + rewrite free_tag_range_eq by done. unfold set_tag_ids. simpl.
      rewrite list_insert_insert_eq, list_insert_id by done. by destruct g.
  - right. split; [done|]. split; reflexivity.
Qed.

Lemma tag_range_roundtrip_witness :
  exists g1, rma_analyzer_get_tag_range_id analyzer_init = ([], Done 0 g1) /\
    rma_analyzer_free_tag_range (RMA_ANALYZER_BASE_MPI_TAG) g1 = ([], Done tt analyzer_init).
Proof.
  destruct (tag_range_roundtrip analyzer_init eq_refl) as [(id & g1 & H1 & _ & _ & H2)|[H _]].
  - vm_compute in H1. injection H1 as Hid Hg. destruct id; [|discriminate].
    exists g1. split; [subst g1; reflexivity|]. exact H2.
  - exfalso. apply (H 0%nat 0); reflexivity.
Defined.
