(* ===== verification/RmaOverload.v ===== *)
(** The wrappers the instrumented program calls in place of MPI
    ([src/instrumentation/rma/rma_analyzer_mpi_c_overload.cpp],
    [rma_analyzer_mpi_fort_overload.cpp]) and in front of its loads and stores
    ([rma_analyzer_load_store_overload.cpp]).  The MPI library is a parameter:
    what its calls answer, the size of a datatype, and the conversion of Fortran
    handles.  [reduced] and [arrivals] are what the end of an epoch receives
    (see [RmaAnalyzer.v]). *)
From stdpp Require Import sorting.
From S2P Require Import Prelude Multiset Interval RmaSearch RmaState RmaAnalyzer RmaLifecycle.

Definition DO_REDUCE : Z := 1.

(** A 32-bit signed [int] read from a memory cell that holds [z]. *)
Definition int32 (z : Z) : Z := (z + 2 ^ 31) mod 2 ^ 32 - 2 ^ 31.
Definition in_int32 (z : Z) : bool := (- 2 ^ 31 <=? z) && (z <? 2 ^ 31).

Section Overload.
Context (MPI_Type_size : Z -> Z)        (* bytes of a datatype *)
        (MPI_Win_f2c MPI_Comm_f2c MPI_Type_f2c : Z -> Z)
        (MPI_Comm_size : Z -> nat)
        (ret : string -> Z).            (* the error code of a profiled call *)

Definition PMPI (name : string) : M Z := memit [EPmpi name] ;;; mret (ret name).

(** * C wrappers *)

Definition parcoach_rma_MPI_Win_create (filter_env : option Z)
    (base size disp_unit comm win : Z) : M Z :=
  ret <- PMPI "PMPI_Win_create" ;;
  rma_analyzer_start filter_env base size comm win disp_unit (MPI_Comm_size comm) ;;;
  mret ret.

(** [baseptr] is the address at which [PMPI_Win_allocate] stores the base of
    the memory it allocates. *)
Definition parcoach_rma_MPI_Win_allocate (filter_env : option Z)
    (size disp_unit comm baseptr win : Z) : M Z :=
  ret <- PMPI "PMPI_Win_allocate" ;;
  rma_analyzer_start filter_env baseptr size comm win disp_unit (MPI_Comm_size comm) ;;;
  mret ret.

Definition parcoach_rma_MPI_Win_lock_all (win : Z) : M Z :=
  rma_analyzer_init_comm_check_thread win ;;; PMPI "PMPI_Win_lock_all".

Definition parcoach_rma_MPI_Win_lock (win : Z) : M Z :=
  rma_analyzer_init_comm_check_thread win ;;; PMPI "PMPI_Win_lock".

Definition parcoach_rma_MPI_Win_fence (win reduced : Z) (arrivals : list Access) : M Z :=
  state <- rma_analyzer_get_state win ;;
  (if 0 <? count_fence state then
     rma_analyzer_clear_comm_check_thread DO_REDUCE win reduced arrivals ;;;
     PMPI "PMPI_Win_fence" ;;; mret tt
   else mret tt) ;;;
  modify_state win (fun s => set_count_fence (count_fence s + 1) s) ;;;
  rma_analyzer_init_comm_check_thread win ;;;
  PMPI "PMPI_Win_fence".

Definition parcoach_rma_MPI_Win_start (win : Z) : M Z :=
  rma_analyzer_init_comm_check_thread win ;;; PMPI "PMPI_Win_start".

Definition parcoach_rma_MPI_Win_post (win : Z) : M Z :=
  rma_analyzer_init_comm_check_thread win ;;; PMPI "PMPI_Win_post".

(** A 64-bit [size], set by [MPI_Type_size] then multiplied by [count]. *)
Definition transfer_size (type_ count : Z) : Z := u64 (MPI_Type_size type_ * u64 count).

Definition parcoach_rma_MPI_Put (origin_addr origin_count origin_datatype target_rank
    target_disp target_count target_datatype win line : Z) (filename : option string) : M Z :=
  let local_size := transfer_size origin_datatype origin_count in
  let target_size := transfer_size target_datatype target_count in
  let Dbg := DebugInfo_make line filename in
  rma_analyzer_update_on_comm_send
    (Access_of_mem (mkMemoryAccess (u64 origin_addr) local_size) RMA_READ Dbg)
    (Access_of_mem (mkMemoryAccess (u64 target_disp) target_size) RMA_WRITE Dbg)
    target_rank win ;;;
  PMPI "PMPI_Put".

Definition parcoach_rma_MPI_Get (origin_addr origin_count origin_datatype target_rank
    target_disp target_count target_datatype win line : Z) (filename : option string) : M Z :=
  let local_address := u64 origin_addr in
  let local_size := transfer_size origin_datatype origin_count in
  let target_size := transfer_size target_datatype target_count in
  let Dbg := DebugInfo_make line filename in
  rma_analyzer_update_on_comm_send
    (Access_of_mem (mkMemoryAccess local_address local_size) RMA_WRITE Dbg)
    (Access_of_mem (mkMemoryAccess (u64 target_disp) target_size) RMA_READ Dbg)
    target_rank win ;;;
  PMPI "PMPI_Get".

Definition parcoach_rma_MPI_Accumulate (origin_addr origin_count origin_datatype target_rank
    target_disp target_count target_datatype win line : Z) (filename : option string) : M Z :=
  let local_address := u64 origin_addr in
  let local_size := transfer_size origin_datatype origin_count in
  let target_size := transfer_size target_datatype target_count in
  let Dbg := DebugInfo_make line filename in
  rma_analyzer_update_on_comm_send
    (Access_of_mem (mkMemoryAccess local_address local_size) RMA_READ Dbg)
    (Access_of_mem (mkMemoryAccess (u64 target_disp) target_size) RMA_WRITE Dbg)
    target_rank win ;;;
  PMPI "PMPI_Accumulate".

Definition parcoach_rma_MPI_Win_unlock_all (win reduced : Z) (arrivals : list Access) : M Z :=
  rma_analyzer_clear_comm_check_thread DO_REDUCE win reduced arrivals ;;;
  PMPI "PMPI_Win_unlock_all".

Definition parcoach_rma_MPI_Win_unlock (win reduced : Z) (arrivals : list Access) : M Z :=
  rma_analyzer_clear_comm_check_thread DO_REDUCE win reduced arrivals ;;;
  PMPI "PMPI_Win_unlock".

Definition parcoach_rma_MPI_Win_complete (win reduced : Z) (arrivals : list Access) : M Z :=
  rma_analyzer_clear_comm_check_thread DO_REDUCE win reduced arrivals ;;;
  PMPI "PMPI_Win_complete".

Definition parcoach_rma_MPI_Win_wait (win reduced : Z) (arrivals : list Access) : M Z :=
  rma_analyzer_clear_comm_check_thread DO_REDUCE win reduced arrivals ;;;
  PMPI "PMPI_Win_wait".

Definition parcoach_rma_MPI_Win_free (win : Z) (arrivals : list Access) : M Z :=
  state <- rma_analyzer_get_state win ;;
  (if 0 <? count_fence state
   then rma_analyzer_clear_comm_check_thread 0 win 0 arrivals else mret tt) ;;;
  rma_analyzer_stop win ;;;
  PMPI "PMPI_Win_free".

Definition parcoach_rma_MPI_Win_flush : M Z := PMPI "PMPI_Win_flush".

Definition parcoach_rma_MPI_Barrier (reduced : Z -> Z) (arrivals : Z -> list Access) : M Z :=
  rma_analyzer_clear_comm_check_thread_all_wins DO_REDUCE reduced arrivals ;;;
  rma_analyzer_init_comm_check_thread_all_wins ;;;
  PMPI "PMPI_Barrier".

(** * Loads and stores: [size] is in bits *)

Definition parcoach_rma_store (addr size line : Z) (filename : option string) : M unit :=
  rma_analyzer_save_interval_all_wins
    (Access_of_mem (mkMemoryAccess (u64 addr) (u64 size / 8)) LOCAL_WRITE
       (DebugInfo_make line filename)).

Definition parcoach_rma_load (addr size line : Z) (filename : option string) : M unit :=
  rma_analyzer_save_interval_all_wins
    (Access_of_mem (mkMemoryAccess (u64 addr) (u64 size / 8)) LOCAL_READ
       (DebugInfo_make line filename)).

(** * Fortran wrappers.  Arguments come by reference: an [int *] argument is
    the 32-bit integer its cell starts with. *)

Definition parcoach_rma_mpi_win_create_ (filter_env : option Z)
    (base size disp_unit comm win : Z) : M Z :=
  ret <- PMPI "mpi_win_create_" ;;
  let c_comm := MPI_Comm_f2c comm in
  rma_analyzer_start filter_env base (int32 size) c_comm (MPI_Win_f2c win) (int32 disp_unit)
    (MPI_Comm_size c_comm) ;;;
  mret ret.

Definition parcoach_rma_mpi_win_allocate_ (filter_env : option Z)
    (size disp_unit comm baseptr win : Z) : M Z :=
  ret <- PMPI "mpi_win_allocate_" ;;
  let c_comm := MPI_Comm_f2c comm in
  rma_analyzer_start filter_env baseptr (int32 size) c_comm (MPI_Win_f2c win)
    (int32 disp_unit) (MPI_Comm_size c_comm) ;;;
  mret ret.

Definition parcoach_rma_mpi_win_lock_all_ (win : Z) : M Z :=
  rma_analyzer_init_comm_check_thread (MPI_Win_f2c win) ;;; PMPI "mpi_win_lock_all_".

Definition parcoach_rma_mpi_win_lock_ (win : Z) : M Z :=
  rma_analyzer_init_comm_check_thread (MPI_Win_f2c win) ;;; PMPI "mpi_win_lock_".

(** The fence between the two epochs passes a null pointer for [assert]. *)
Definition parcoach_rma_mpi_win_fence_ (win reduced : Z) (arrivals : list Access) : M Z :=
  let c_win := MPI_Win_f2c win in
  state <- rma_analyzer_get_state c_win ;;
  (if 0 <? count_fence state then
     rma_analyzer_clear_comm_check_thread DO_REDUCE c_win reduced arrivals ;;;
     PMPI "mpi_win_fence_" ;;; mret tt
   else mret tt) ;;;
  modify_state c_win (fun s => set_count_fence (count_fence s + 1) s) ;;;
  rma_analyzer_init_comm_check_thread c_win ;;;
  PMPI "mpi_win_fence_".

Definition parcoach_rma_mpi_win_start_ (win : Z) : M Z :=
  rma_analyzer_init_comm_check_thread (MPI_Win_f2c win) ;;; PMPI "mpi_win_start_".

Definition parcoach_rma_mpi_win_post_ (win : Z) : M Z :=
  rma_analyzer_init_comm_check_thread (MPI_Win_f2c win) ;;; PMPI "mpi_win_post_".

(** The same with an [int] for the size: signed
    overflow is undefined behaviour. *)
Definition transfer_size_ (type_ count : Z) : M Z :=
  let size := MPI_Type_size (MPI_Type_f2c type_) * int32 count in
  if in_int32 size then mret size else mfail Undefined.

Definition parcoach_rma_mpi_put_ (origin_addr origin_count origin_datatype target_rank
    target_disp target_count target_datatype win line : Z) (filename : option string) : M Z :=
  local_size <- transfer_size_ origin_datatype origin_count ;;
  target_size <- transfer_size_ target_datatype target_count ;;
  let Dbg := DebugInfo_make line filename in
  rma_analyzer_update_on_comm_send
    (Access_of_mem (mkMemoryAccess (u64 origin_addr) (u64 local_size)) RMA_READ Dbg)
    (Access_of_mem (mkMemoryAccess (u64 (int32 target_disp)) (u64 target_size)) RMA_WRITE Dbg)
    (int32 target_rank) (MPI_Win_f2c win) ;;;
  PMPI "mpi_put_".

Definition parcoach_rma_mpi_get_ (origin_addr origin_count origin_datatype target_rank
    target_disp target_count target_datatype win line : Z) (filename : option string) : M Z :=
  local_size <- transfer_size_ origin_datatype origin_count ;;
  target_size <- transfer_size_ target_datatype target_count ;;
  let Dbg := DebugInfo_make line filename in
  rma_analyzer_update_on_comm_send
    (Access_of_mem (mkMemoryAccess (u64 origin_addr) (u64 local_size)) RMA_WRITE Dbg)
    (Access_of_mem (mkMemoryAccess (u64 (int32 target_disp)) (u64 target_size)) RMA_READ Dbg)
    (int32 target_rank) (MPI_Win_f2c win) ;;;
  PMPI "mpi_get_".

Definition parcoach_rma_mpi_accumulate_ (origin_addr origin_count origin_datatype target_rank
    target_disp target_count target_datatype win line : Z) (filename : option string) : M Z :=
  local_size <- transfer_size_ origin_datatype origin_count ;;
  target_size <- transfer_size_ target_datatype target_count ;;
  let Dbg := DebugInfo_make line filename in
  rma_analyzer_update_on_comm_send
    (Access_of_mem (mkMemoryAccess (u64 origin_addr) (u64 local_size)) RMA_READ Dbg)
    (Access_of_mem (mkMemoryAccess (u64 (int32 target_disp)) (u64 target_size)) RMA_WRITE Dbg)
    (int32 target_rank) (MPI_Win_f2c win) ;;;
  PMPI "mpi_accumulate_".

Definition parcoach_rma_mpi_win_unlock_all_ (win reduced : Z) (arrivals : list Access) : M Z :=
  rma_analyzer_clear_comm_check_thread DO_REDUCE (MPI_Win_f2c win) reduced arrivals ;;;
  PMPI "mpi_win_unlock_all_".

Definition parcoach_rma_mpi_win_unlock_ (win reduced : Z) (arrivals : list Access) : M Z :=
  rma_analyzer_clear_comm_check_thread DO_REDUCE (MPI_Win_f2c win) reduced arrivals ;;;
  PMPI "mpi_win_unlock_".

Definition parcoach_rma_mpi_win_complete_ (win reduced : Z) (arrivals : list Access) : M Z :=
  rma_analyzer_clear_comm_check_thread DO_REDUCE (MPI_Win_f2c win) reduced arrivals ;;;
  PMPI "mpi_win_complete_".

Definition parcoach_rma_mpi_win_wait_ (win reduced : Z) (arrivals : list Access) : M Z :=
  rma_analyzer_clear_comm_check_thread DO_REDUCE (MPI_Win_f2c win) reduced arrivals ;;;
  PMPI "mpi_win_wait_".

Definition parcoach_rma_mpi_win_free_ (win : Z) (arrivals : list Access) : M Z :=
  let c_win := MPI_Win_f2c win in
  state <- rma_analyzer_get_state c_win ;;
  (if 0 <? count_fence state
   then rma_analyzer_clear_comm_check_thread 0 c_win 0 arrivals else mret tt) ;;;
  rma_analyzer_stop c_win ;;;
  PMPI "mpi_win_free_".

Definition parcoach_rma_mpi_win_flush_ : M Z := PMPI "mpi_win_flush_".

Definition parcoach_rma_mpi_barrier_ (reduced : Z -> Z) (arrivals : Z -> list Access) : M Z :=
  rma_analyzer_clear_comm_check_thread_all_wins DO_REDUCE reduced arrivals ;;;
  rma_analyzer_init_comm_check_thread_all_wins ;;;
  PMPI "mpi_barrier_".
End Overload.

(** * Comparing wrappers *)

Definition is_pmpi (e : event) : bool := match e with EPmpi _ => true | _ => false end.

(** What a wrapper does besides the profiled call and its error code. *)
Definition observe {A} (r : list event * outcome A) : list event * outcome unit :=
  (List.filter (fun e => negb (is_pmpi e)) r.1,
   match r.2 with
   | Done _ g => Done tt g
   | ExitFailure => ExitFailure
   | MpiAbort => MpiAbort
   | StdTerminate => StdTerminate
   | Undefined => Undefined
   | Blocked => Blocked
   end).

Definition same {A B} (m1 : M A) (m2 : M B) : Prop := forall g, observe (m1 g) = observe (m2 g).

Lemma same_refl {A} (m : M A) : same m m.
Proof. intros g. reflexivity. Qed.

Lemma same_pmpi r1 r2 n1 n2 : same (PMPI r1 n1) (PMPI r2 n2).
Proof. intros g. reflexivity. Qed.

Lemma same_seq {A B C D} (m1 : M A) (m2 : M B) (k1 : M C) (k2 : M D) :
  same m1 m2 -> same k1 k2 -> same (m1 ;;; k1) (m2 ;;; k2).
Proof.
  intros Hm Hk g. specialize (Hm g). unfold observe, mbind in *.
  destruct (m1 g) as [t1 o1], (m2 g) as [t2 o2]; simpl in *.
  injection Hm as Ht Ho. destruct o1, o2; try discriminate; simpl; try congruence.
  injection Ho as ->. specialize (Hk g1). unfold observe in Hk.
  destruct (k1 g1), (k2 g1); simpl in *. injection Hk as Hl Hr.
  by rewrite !List.filter_app, Ht, Hl, Hr.
Qed.

Lemma same_get {A B} win (k1 : _ -> M A) (k2 : _ -> M B) :
  (forall s, same (k1 s) (k2 s)) ->
  same (mbind (rma_analyzer_get_state win) k1) (mbind (rma_analyzer_get_state win) k2).
Proof.
  intros Hk g. unfold mbind, rma_analyzer_get_state.
  destruct (States g !! win) as [s|]; [|reflexivity]. specialize (Hk s g).
  destruct (k1 s g), (k2 s g). exact Hk.
Qed.

Lemma same_pmpi_bind {A B} r1 r2 n1 n2 (k1 : Z -> M A) (k2 : Z -> M B) :
  (forall a b, same (k1 a) (k2 b)) ->
  same (mbind (PMPI r1 n1) k1) (mbind (PMPI r2 n2) k2).
Proof.
  intros Hk g. unfold mbind, PMPI, memit, mret; simpl.
  specialize (Hk (r1 n1) (r2 n2) g). destruct (k1 _ g), (k2 _ g). exact Hk.
Qed.

Create HintDb same.
#[export] Hint Resolve same_refl same_pmpi same_seq same_get same_pmpi_bind : same.

Lemma int32_small z : in_int32 z = true -> int32 z = z.
Proof. unfold in_int32, int32. intros H. breflect. rewrite Z.mod_small by lia. lia. Qed.

Lemma u64_mul_u64 a b : u64 (a * u64 b) = u64 (a * b).
Proof. unfold u64. by rewrite Zmult_mod_idemp_r. Qed.

(** * Calls of a program, in both languages *)

Inductive rma_call :=
| CallWinCreate (base size disp_unit comm win : Z)
| CallWinAllocate (size disp_unit comm baseptr win : Z)
| CallLockAll (win : Z) | CallLock (win : Z) | CallStart (win : Z) | CallPost (win : Z)
| CallFence (win reduced : Z) (arrivals : list Access)
| CallPut (oaddr ocount otype rank disp tcount ttype win line : Z) (f : option string)
| CallGet (oaddr ocount otype rank disp tcount ttype win line : Z) (f : option string)
| CallAcc (oaddr ocount otype rank disp tcount ttype win line : Z) (f : option string)
| CallUnlockAll (win reduced : Z) (arrivals : list Access)
| CallUnlock (win reduced : Z) (arrivals : list Access)
| CallComplete (win reduced : Z) (arrivals : list Access)
| CallWait (win reduced : Z) (arrivals : list Access)
| CallFree (win : Z) (arrivals : list Access)
| CallFlush
| CallBarrier (reduced : Z -> Z) (arrivals : Z -> list Access).

Section Calls.
Context (MPI_Type_size : Z -> Z) (MPI_Win_f2c MPI_Comm_f2c MPI_Type_f2c : Z -> Z)
        (MPI_Comm_size : Z -> nat) (ret : string -> Z) (env : option Z).

Local Abbreviation W := MPI_Win_f2c.
Local Abbreviation TY := MPI_Type_f2c.

(** The C wrapper on the C handles the Fortran handles denote. *)
Definition c_call (c : rma_call) : M Z :=
  match c with
  | CallWinCreate b s d c w =>
      parcoach_rma_MPI_Win_create MPI_Comm_size ret env b s d (MPI_Comm_f2c c) (W w)
  | CallWinAllocate s d c b w =>
      parcoach_rma_MPI_Win_allocate MPI_Comm_size ret env s d (MPI_Comm_f2c c) b (W w)
  | CallLockAll w => parcoach_rma_MPI_Win_lock_all ret (W w)
  | CallLock w => parcoach_rma_MPI_Win_lock ret (W w)
  | CallStart w => parcoach_rma_MPI_Win_start ret (W w)
  | CallPost w => parcoach_rma_MPI_Win_post ret (W w)
  | CallFence w r l => parcoach_rma_MPI_Win_fence ret (W w) r l
  | CallPut a n t r d m u w line f =>
      parcoach_rma_MPI_Put MPI_Type_size ret a n (TY t) r d m (TY u) (W w) line f
  | CallGet a n t r d m u w line f =>
      parcoach_rma_MPI_Get MPI_Type_size ret a n (TY t) r d m (TY u) (W w) line f
  | CallAcc a n t r d m u w line f =>
      parcoach_rma_MPI_Accumulate MPI_Type_size ret a n (TY t) r d m (TY u) (W w) line f
  | CallUnlockAll w r l => parcoach_rma_MPI_Win_unlock_all ret (W w) r l
  | CallUnlock w r l => parcoach_rma_MPI_Win_unlock ret (W w) r l
  | CallComplete w r l => parcoach_rma_MPI_Win_complete ret (W w) r l
  | CallWait w r l => parcoach_rma_MPI_Win_wait ret (W w) r l
  | CallFree w l => parcoach_rma_MPI_Win_free ret (W w) l
  | CallFlush => parcoach_rma_MPI_Win_flush ret
  | CallBarrier r l => parcoach_rma_MPI_Barrier ret r l
  end.

Definition fort_call (c : rma_call) : M Z :=
  match c with
  | CallWinCreate b s d c w =>
      parcoach_rma_mpi_win_create_ W MPI_Comm_f2c MPI_Comm_size ret env b s d c w
  | CallWinAllocate s d c b w =>
      parcoach_rma_mpi_win_allocate_ W MPI_Comm_f2c MPI_Comm_size ret env s d c b w
  | CallLockAll w => parcoach_rma_mpi_win_lock_all_ W ret w
  | CallLock w => parcoach_rma_mpi_win_lock_ W ret w
  | CallStart w => parcoach_rma_mpi_win_start_ W ret w
  | CallPost w => parcoach_rma_mpi_win_post_ W ret w
  | CallFence w r l => parcoach_rma_mpi_win_fence_ W ret w r l
  | CallPut a n t r d m u w line f =>
      parcoach_rma_mpi_put_ MPI_Type_size W TY ret a n t r d m u w line f
  | CallGet a n t r d m u w line f =>
      parcoach_rma_mpi_get_ MPI_Type_size W TY ret a n t r d m u w line f
  | CallAcc a n t r d m u w line f =>
      parcoach_rma_mpi_accumulate_ MPI_Type_size W TY ret a n t r d m u w line f
  | CallUnlockAll w r l => parcoach_rma_mpi_win_unlock_all_ W ret w r l
  | CallUnlock w r l => parcoach_rma_mpi_win_unlock_ W ret w r l
  | CallComplete w r l => parcoach_rma_mpi_win_complete_ W ret w r l
  | CallWait w r l => parcoach_rma_mpi_win_wait_ W ret w r l
  | CallFree w l => parcoach_rma_mpi_win_free_ W ret w l
  | CallFlush => parcoach_rma_mpi_win_flush_ ret
  | CallBarrier r l => parcoach_rma_mpi_barrier_ ret r l
  end.

(** The arguments fit the 32-bit integers the Fortran wrappers read. *)
Definition fits (c : rma_call) : bool :=
  match c with
  | CallWinCreate _ s d _ _ | CallWinAllocate s d _ _ _ => in_int32 s && in_int32 d
  | CallPut _ n t r d m u _ _ _ | CallGet _ n t r d m u _ _ _
  | CallAcc _ n t r d m u _ _ _ =>
      in_int32 n && in_int32 m && in_int32 r && in_int32 d &&
      in_int32 (MPI_Type_size (TY t) * n) && in_int32 (MPI_Type_size (TY u) * m)
  | _ => true
  end.

Lemma transfer_size_fits t n (k : Z -> M Z) (m : M Z) :
  in_int32 n = true -> in_int32 (MPI_Type_size (TY t) * n) = true ->
  (forall sz, u64 sz = transfer_size MPI_Type_size (TY t) n -> same m (k sz)) ->
  same m (mbind (transfer_size_ MPI_Type_size TY t n) k).
Proof.
  intros Hn Hs Hk g. unfold transfer_size_. rewrite (int32_small n Hn), Hs.
  unfold mbind, mret. specialize (Hk (MPI_Type_size (TY t) * n)).
  unfold transfer_size in Hk. rewrite u64_mul_u64 in Hk. specialize (Hk eq_refl g).
  destruct (k _ g). exact Hk.
Qed.

Lemma fits_transfer n m r d x y :
  in_int32 n && in_int32 m && in_int32 r && in_int32 d && x && y = true ->
  in_int32 n = true /\ in_int32 m = true /\ int32 r = r /\ int32 d = d /\ x = true /\ y = true.
Proof. intros H. breflect. rewrite !int32_small by done. done. Qed.

Lemma fort_same_c c : fits c = true -> same (c_call c) (fort_call c).
Proof.
  destruct c; simpl; intros Hf;
    try (apply fits_transfer in Hf as (H1 & H2 & H3 & H4 & H5 & H6);
      unfold parcoach_rma_mpi_put_, parcoach_rma_mpi_get_, parcoach_rma_mpi_accumulate_;
      apply transfer_size_fits; [done|done|]; intros ls Hls;
      apply transfer_size_fits; [done|done|]; intros ts Hts;
      rewrite Hls, Hts, H3, H4; apply same_seq; auto with same; fail);
    try (breflect; unfold parcoach_rma_mpi_win_create_, parcoach_rma_mpi_win_allocate_;
      rewrite !int32_small by done; apply same_pmpi_bind; intros; apply same_seq;
      [auto with same|intros g; reflexivity]; fail);
    try (apply same_seq; auto with same; fail); auto with same.
  - apply same_get. intros s. apply same_seq; [|auto with same].
    destruct (0 <? count_fence s); auto with same.
  - apply same_get. intros s. apply same_seq; auto with same.
  - apply same_pmpi.
Qed.
End Calls.

(** * Frames: what a routine on one window leaves of another *)

Definition frame {A} (w : Z) (m : M A) : Prop :=
  forall g t a g', m g = (t, Done a g') -> States g' !! w = States g !! w.

Section Frame.
Context (w : Z).

Lemma frame_preserves {A} (m : M A) :
  (forall o, preserves (fun g => States g !! w = o) m) -> frame w m.
Proof. intros H g t a g' Hm. by eapply H. Qed.

Lemma frame_ret {A} (a : A) : frame w (mret a).
Proof. by intros g t b g' [= <- <- <-]. Qed.
Lemma frame_emit l : frame w (memit l).
Proof. by intros g t b g' [= <- <- <-]. Qed.
Lemma frame_fail {A} (o : outcome A) : (forall a g, o <> Done a g) -> frame w (mfail o).
Proof. intros Ho g t b g' [= <- ->]. by destruct (Ho b g'). Qed.
Lemma frame_bind {A B} (m : M A) (k : A -> M B) :
  frame w m -> (forall a, frame w (k a)) -> frame w (mbind m k).
Proof.
  intros Hm Hk g t b g' (t1 & t2 & a & g1 & H1 & H2 & _)%mbind_done.
  rewrite (Hk _ _ _ _ _ H2). by eapply Hm.
Qed.
Lemma frame_modify win f : win <> w -> frame w (modify_state win f).
Proof. intros Hne g t [] g' [= <- <-]. by apply with_state_ne. Qed.
Lemma frame_get win : frame w (rma_analyzer_get_state win).
Proof.
  intros g t s g'. unfold rma_analyzer_get_state. destruct (States g !! win); congruence.
Qed.
End Frame.

Create HintDb frame.
#[export] Hint Resolve frame_ret frame_emit frame_bind frame_modify frame_get : frame.
#[export] Hint Extern 1 (frame _ (mfail _)) => apply frame_fail; discriminate : frame.

Lemma frame_save w Acc win : win <> w -> frame w (rma_analyzer_save_interval Acc win).
Proof.
  intros. unfold rma_analyzer_save_interval. apply frame_bind; [auto with frame|intros s].
  destruct (getConflictingIntervals _ _); auto with frame.
Qed.

Lemma frame_check w win o : win <> w -> frame w (rma_analyzer_check_communication win o).
Proof.
  intros. unfold rma_analyzer_check_communication. apply frame_bind; [auto with frame|intros s].
  destruct (_ && _); [|destruct o]; auto with frame.
Qed.
#[export] Hint Resolve frame_save frame_check : frame.

Lemma frame_thread w win l : win <> w -> frame w (rma_analyzer_comm_check_thread win l).
Proof.
  intros. induction l as [|a l IH]; simpl; (apply frame_bind; [auto with frame|intros [A|]]);
    auto with frame.
Qed.
#[export] Hint Resolve frame_thread : frame.

Lemma frame_init w win : win <> w -> frame w (rma_analyzer_init_comm_check_thread win).
Proof.
  intros. unfold rma_analyzer_init_comm_check_thread. apply frame_bind; [auto with frame|intros s].
  destruct (Thread s); auto with frame.
Qed.

Lemma frame_clear w r win v l :
  win <> w -> frame w (rma_analyzer_clear_comm_check_thread r win v l).
Proof.
  intros. unfold rma_analyzer_clear_comm_check_thread. apply frame_bind; [auto with frame|intros s].
  destruct (r =? 0), (Thread s); auto 12 with frame.
Qed.
#[export] Hint Resolve frame_init frame_clear : frame.

(** A loop over the windows acts on a window only in that window's turn. *)
Lemma mforall_turn (body : Z -> M unit) w l :
  (forall x, x <> w -> frame w (body x)) -> NoDup l -> forall g t g',
  mforall body l g = (t, Done tt g') ->
  if bool_decide (w ∈ l) then
    exists g1 t1 g2, States g1 !! w = States g !! w /\ body w g1 = (t1, Done tt g2) /\
      States g' !! w = States g2 !! w
  else States g' !! w = States g !! w.
Proof.
  intros Hb Hnd. induction Hnd as [|x l Hx Hnd IH]; intros g t g'.
  - intros [= <- <-]. by rewrite bool_decide_false by apply not_elem_of_nil.
  - simpl. intros (t1 & t2 & [] & g1 & H1 & H2 & _)%mbind_done. specialize (IH _ _ _ H2).
    destruct (decide (x = w)) as [->|Hne].
    + rewrite bool_decide_true by apply list_elem_of_here.
      rewrite bool_decide_false in IH by done. by exists g, t1, g1.
    + pose proof (Hb x Hne _ _ _ _ H1) as Hf.
      case_bool_decide as Hw; case_bool_decide as Hw'; rewrite ?elem_of_cons in *;
        try naive_solver congruence.
      destruct IH as (h1 & u & h2 & E1 & E2 & E3). exists h1, u, h2. by rewrite E1.
Qed.

Lemma for_each_turn (body : Z -> M unit) w g t g' s :
  (forall x, x <> w -> frame w (body x)) -> States g !! w = Some s ->
  for_each_win body g = (t, Done tt g') ->
  exists g1 t1 g2, States g1 !! w = Some s /\ body w g1 = (t1, Done tt g2) /\
    States g' !! w = States g2 !! w.
Proof.
  intros Hb Hs H. unfold for_each_win in H. apply (mforall_turn _ w) in H; [|done|].
  - rewrite bool_decide_true in H; [by rewrite Hs in H|]. unfold win_keys.
    rewrite merge_sort_Permutation, elem_of_elements. by apply elem_of_dom_2 in Hs.
  - unfold win_keys. rewrite merge_sort_Permutation. apply NoDup_elements.
Qed.

(** * Barrier *)

(** The state with which an epoch begins. *)
Definition epoch_state (s : rma_analyzer_state) : rma_analyzer_state :=
  set_Thread true (set_active_epoch 1 (set_count_epoch (count_epoch s + 1)
    (set_thread_end 0 (set_array (replicate (size_comm s) 0) s)))).

(** The state an ended epoch leaves. *)
Definition ended_state (r v : Z) (s : rma_analyzer_state) : rma_analyzer_state :=
  clear_state (set_thread_end 1 (set_value (expected r v) s)).

(** All of a state but what the checking thread changes. *)
Definition thread_part (s : rma_analyzer_state) : rma_analyzer_state :=
  set_Intervals [] (set_count 0 s).

Section ThreadPart.
Context (win : Z) (o : option rma_analyzer_state).
Local Abbreviation P := (fun g => thread_part <$> States g !! win = o).

Lemma thread_part_modify f :
  (forall s, thread_part (f s) = thread_part s) -> preserves P (modify_state win f).
Proof.
  intros Hf g t [] g' HP [= <- <-]. simpl. rewrite lookup_alter_eq, <- HP.
  destruct (States g !! win); simpl; [by rewrite Hf|done].
Qed.

Lemma thread_part_get w : preserves P (rma_analyzer_get_state w).
Proof.
  intros g t s g' HP. unfold rma_analyzer_get_state.
  destruct (States g !! w); [intros [= <- <- <-]; exact HP|done].
Qed.

Lemma thread_part_check x : preserves P (rma_analyzer_check_communication win x).
Proof.
  apply preserves_bind; [apply thread_part_get|intros s].
  destruct (_ && _); [|destruct x; [|auto with rma]];
    (apply preserves_bind; [by apply thread_part_modify|auto with rma]).
Qed.

Lemma thread_part_save A : preserves P (rma_analyzer_save_interval A win).
Proof.
  apply preserves_bind; [apply thread_part_get|intros s].
  apply preserves_bind; [auto with rma|intros _].
  destruct (getConflictingIntervals _ _); [|auto with rma].
  apply preserves_bind; [by apply thread_part_modify|auto with rma].
Qed.

Lemma thread_part_thread l : preserves P (rma_analyzer_comm_check_thread win l).
Proof.
  induction l as [|a l IH]; simpl;
    (apply preserves_bind; [apply thread_part_check|intros [A|]]); auto with rma.
  apply preserves_bind; [apply thread_part_save|done].
Qed.
End ThreadPart.

Lemma clear_done r win v l g t g' s :
  States g !! win = Some s -> Thread s = true ->
  rma_analyzer_clear_comm_check_thread r win v l g = (t, Done tt g') ->
  States g' !! win = Some (ended_state r v s).
Proof.
  intros H HT Hd. pose proof (clear_eq r win v l g s H HT) as He. rewrite Hd in He. simpl in He.
  set (g0 := with_state win _ g) in He.
  destruct (rma_analyzer_comm_check_thread win l g0) as [t1 o1] eqn:E. simpl in He.
  destruct o1 as [[] g1| | | | |]; try discriminate. injection He as ->.
  pose proof (thread_part_thread win _ l _ _ _ _ eq_refl E) as HP. cbv beta in HP.
  unfold g0 in HP. rewrite (with_state_eq _ _ _ _ H) in HP. simpl in HP.
  destruct (States g1 !! win) as [s1|] eqn:E1; [|done].
  rewrite (with_state_eq _ _ _ _ E1). f_equal. unfold ended_state.
  destruct s1, s. unfold thread_part in HP. cbn in HP. injection HP as -> -> -> -> -> -> -> -> -> -> -> -> -> -> ->.
  reflexivity.
Qed.

Lemma is_active_eq win g s :
  States g !! win = Some s -> rma_analyzer_is_active_epoch win g = ([], Done (0 <? active_epoch s) g).
Proof.
  intros H. unfold rma_analyzer_is_active_epoch, mbind. by rewrite (get_state_some _ _ _ H).
Qed.

Lemma frame_is_active w win : frame w (rma_analyzer_is_active_epoch win).
Proof. unfold rma_analyzer_is_active_epoch. auto with frame. Qed.
#[export] Hint Resolve frame_is_active : frame.

(** What ending the epochs of all windows does to one window. *)
Lemma clear_all_turn r v l g t g' w s :
  state_ok w s -> States g !! w = Some s ->
  rma_analyzer_clear_comm_check_thread_all_wins r v l g = (t, Done tt g') ->
  States g' !! w = Some (if active_epoch s =? 1
                         then set_from_sync 1 (ended_state r (v w) s) else s).
Proof.
  intros (_ & _ & Hact & _) Hs H. apply (for_each_turn _ w _ _ _ s) in H; [|intros x Hx|done].
  - destruct H as (g1 & t1 & g2 & H1 & H2 & ->).
    apply mbind_done in H2 as (ta & tb & b & g3 & E0 & H2 & _).
    rewrite (is_active_eq _ _ _ H1) in E0. injection E0 as <- <- <-.
    destruct Hact as [[Ha HT]|[Ha HT]]; rewrite Ha in H2 |- *; simpl in *.
    + apply mbind_done in H2 as (tc & td & [] & g4 & E1 & E2 & _).
      apply (clear_done _ _ _ _ _ _ _ s) in E1; [|done|done].
      injection E2 as <- <-. by rewrite (with_state_eq _ _ _ _ E1).
    + by injection H2 as <- <-.
  - apply frame_bind; [auto with frame|intros []]; auto with frame.
Qed.

Lemma init_all_turn g t g' w s :
  Thread s = (0 <? active_epoch s) -> States g !! w = Some s ->
  rma_analyzer_init_comm_check_thread_all_wins g = (t, Done tt g') ->
  States g' !! w = Some (if negb (0 <? active_epoch s) && (from_sync s =? 1)
                         then epoch_state s else s).
Proof.
  intros HT Hs H. apply (for_each_turn _ w _ _ _ s) in H; [|intros x Hx|done].
  - destruct H as (g1 & t1 & g2 & H1 & H2 & ->). unfold mbind in H2.
    rewrite (is_active_eq _ _ _ H1), (get_state_some _ _ _ H1) in H2.
    destruct (negb (0 <? active_epoch s) && (from_sync s =? 1)) eqn:E.
    + rewrite (init_eq _ _ _ H1) in H2. breflect. rewrite HT in H2.
      destruct (Z.ltb_spec 0 (active_epoch s)); [lia|]. injection H2 as <- <-.
      by rewrite (with_state_eq _ _ _ _ H1).
    + by injection H2 as <- <-.
  - apply frame_bind; [auto with frame|intros a]. apply frame_bind; [auto with frame|intros y].
    destruct (_ && _); auto with frame.
Qed.

(** C30 (barrier). A barrier that returns leaves every live window with a fresh
    epoch if one was active: ended, nothing recorded, begun again under the next
    tag.  A window without an active epoch is left alone if no barrier ever
    happened in one of its epochs; otherwise the barrier begins an epoch on it,
    although the program closed the last one. *)
Theorem barrier_spec (ret : string -> Z) ops g w s reduced arrivals t z g' :
  result (run_ops ops analyzer_init) = Done tt g -> States g !! w = Some s ->
  parcoach_rma_MPI_Barrier ret reduced arrivals g = (t, Done z g') ->
  States g' !! w =
  Some (if active_epoch s =? 1
        then epoch_state (set_from_sync 1 (ended_state DO_REDUCE (reduced w) s))
        else if from_sync s =? 1 then epoch_state s else s).
Proof.
  intros Hrun Hs H. destruct (run_ops_ok _ _ Hrun) as (_ & Hok & _).
  destruct (Hok _ _ Hs) as [Hst _].
  apply mbind_done in H as (t1 & t2 & [] & g1 & H1 & H2 & _).
  apply mbind_done in H2 as (t3 & t4 & [] & g2 & H2 & H3 & _).
  unfold PMPI in H3. injection H3 as _ _ <-.
  pose proof (clear_all_turn _ _ _ _ _ _ _ _ Hst Hs H1) as E1.
  destruct Hst as (_ & _ & [[Ha HT]|[Ha HT]] & _); rewrite Ha in E1 |- *; simpl in *.
  - rewrite (init_all_turn _ _ _ w _ (eq_refl : Thread (set_from_sync 1
      (ended_state DO_REDUCE (reduced w) s)) = _) E1 H2). reflexivity.
  - rewrite (init_all_turn _ _ _ w s ltac:(by rewrite HT, Ha) E1 H2), Ha. reflexivity.
Qed.

(** lock_all; barrier; unlock_all, then a barrier: it leaves window 7 in an
    epoch. *)
Definition closed_epoch_ops : list rma_op :=
  [OpStart None 0 64 0 7 1 2; OpInit 7; OpClearAll 1 (fun _ => 0) (fun _ => []);
   OpInitAll; OpClear 1 7 0 []].

Lemma barrier_spec_witness :
  exists g s, result (run_ops closed_epoch_ops analyzer_init) = Done tt g /\
    States g !! 7 = Some s /\ active_epoch s = 0 /\
    exists t g', parcoach_rma_MPI_Barrier (fun _ => 0) (fun _ => 0) (fun _ => []) g
                 = (t, Done 0 g') /\
      active_epoch <$> States g' !! 7 = Some 1.
Proof.
  do 2 eexists. split; [vm_compute; reflexivity|]. split; [vm_compute; reflexivity|].
  split; [reflexivity|].
  match goal with |- exists t g', parcoach_rma_MPI_Barrier ?r ?v ?l ?g = _ /\ _ =>
    assert (exists t g', parcoach_rma_MPI_Barrier r v l g = (t, Done 0 g')) as (t & g' & H)
      by (do 2 eexists; vm_compute; reflexivity);
    exists t, g'; split; [exact H|];
    rewrite (barrier_spec r closed_epoch_ops g 7 _ v l t 0 g' eq_refl eq_refl H)
  end. reflexivity.
Defined.

(** * The life of a window synchronised by fences *)

(** [g] with window [win] in state [s]. *)
Definition put_state (win : Z) (s : rma_analyzer_state) (g : analyzer) : analyzer :=
  mkAnalyzer (<[win := s]> (States g)) (win_mpi_tag_id g) (rma_analyzer_filter_window g).

Lemma put_state_lookup win s g : States (put_state win s g) !! win = Some s.
Proof. apply lookup_insert_eq. Qed.

Lemma with_put win f s g : with_state win f (put_state win s g) = put_state win (f s) g.
Proof.
  unfold with_state, put_state; simpl. f_equal. apply map_eq. intros i.
  destruct (decide (i = win)) as [->|].
  - by rewrite lookup_alter_eq, !lookup_insert_eq.
  - by rewrite lookup_alter_ne, !lookup_insert_ne.
Qed.

Fixpoint fences (ret : string -> Z) (win : Z) (n : nat) : M unit :=
  match n with
  | O => mret tt
  | S k => parcoach_rma_MPI_Win_fence ret win 0 [] ;;; fences ret win k
  end.

Definition fenced_state (s : rma_analyzer_state) : rma_analyzer_state :=
  epoch_state (set_count_fence (count_fence s + 1)
    (if 0 <? count_fence s then ended_state DO_REDUCE 0 s else s)).

(** A window between two fences: running, with nothing received. *)
Definition between_fences (s : rma_analyzer_state) : Prop :=
  0 <= count_fence s /\ count s = 0 /\ Thread s = (0 <? count_fence s).

Lemma clear_quiet r win s g :
  Thread s = true -> count s = 0 ->
  exists t, rma_analyzer_clear_comm_check_thread r win 0 [] (put_state win s g) =
    (t, Done tt (put_state win (ended_state r 0 s) g)).
Proof.
  intros HT Hc. pose proof (clear_eq r win 0 [] _ s (put_state_lookup win s g) HT) as He.
  assert (expected r 0 = 0) as H0 by (unfold expected; by destruct (r =? 0)).
  rewrite with_put in He. simpl in He. unfold mbind in He.
  rewrite (check_leave _ _ _ _ (put_state_lookup win _ g)) in He
    by (cbn; rewrite ?H0, ?Hc; reflexivity).
  simpl in He. rewrite !with_put in He.
  destruct (rma_analyzer_clear_comm_check_thread _ _ _ _ _) as [t o]. simpl in He. subst o.
  exists t. reflexivity.
Qed.

Lemma fence_step ret win s g :
  between_fences s ->
  (exists t z, parcoach_rma_MPI_Win_fence ret win 0 [] (put_state win s g) =
    (t, Done z (put_state win (fenced_state s) g))) /\ between_fences (fenced_state s).
Proof.
  intros (Hf & Hc & HT). split.
  - unfold parcoach_rma_MPI_Win_fence, mbind at 1.
    rewrite (get_state_some _ _ _ (put_state_lookup win s g)). unfold fenced_state.
    destruct (0 <? count_fence s).
    + destruct (clear_quiet DO_REDUCE win s g HT Hc) as [t Ht].
      unfold mbind, PMPI, modify_state, memit, mret. rewrite Ht. simpl. rewrite with_put.
      rewrite (init_eq _ _ _ (put_state_lookup win _ g)). simpl. rewrite with_put. eauto.
    + unfold mbind, PMPI, modify_state, memit, mret. rewrite with_put.
      rewrite (init_eq _ _ _ (put_state_lookup win _ g)). simpl. rewrite HT, with_put. eauto.
  - unfold between_fences, fenced_state. simpl.
    assert ((0 <? count_fence s + 1) = true) as -> by (apply Z.ltb_lt; lia).
    destruct (0 <? count_fence s); simpl; split; auto with lia.
Qed.

Lemma fences_run ret win n : forall s g, between_fences s ->
  exists t s', fences ret win n (put_state win s g) = (t, Done tt (put_state win s' g)) /\
    between_fences s' /\ count_fence s' = count_fence s + Z.of_nat n /\
    count_epoch s' = count_epoch s + Z.of_nat n /\ mpi_tag s' = mpi_tag s.
Proof.
  induction n as [|n IH]; intros s g Hs.
  - exists [], s. split; [done|]. split; [done|]. rewrite !Z.add_0_r. done.
  - destruct (fence_step ret win s g Hs) as [(t & z & Ht) Hs'].
    destruct (IH _ g Hs') as (t' & s' & Ht' & Hb & H1 & H2 & H3).
    cbn [fences]. unfold mbind. rewrite Ht, Ht'. do 2 eexists. split; [reflexivity|].
    split; [done|]. rewrite H1, H2, H3. unfold fenced_state.
    destruct (0 <? count_fence s); simpl; repeat split; lia.
Qed.

(** Where a new window is filed. *)
Definition new_state (sizeof : Z -> nat) (base size disp comm win : Z) (id : nat) :=
  mkState win false [] (u64 base) disp (u64 size) comm (sizeof comm)
    (RMA_ANALYZER_BASE_MPI_TAG + RMA_ANALYZER_MAX_EPOCH_NUMBER * Z.of_nat id)
    (replicate (sizeof comm) 0) 0 0 0 0 0 0 0.

Definition take_tag (id : nat) (g : analyzer) : analyzer :=
  mkAnalyzer (States g) (<[id := 1]> (win_mpi_tag_id g)) (rma_analyzer_filter_window g).

Lemma create_eq ret sizeof base size disp comm win g j :
  States g !! win = None -> first_free (win_mpi_tag_id g) 0 = Some j ->
  exists t, parcoach_rma_MPI_Win_create sizeof ret None base size disp comm win g =
    (t, Done (ret "PMPI_Win_create")
          (put_state win (new_state sizeof base size disp comm win j) (take_tag j g))).
Proof.
  intros Hw Hj. unfold parcoach_rma_MPI_Win_create, rma_analyzer_start, PMPI,
    rma_analyzer_get_tag_range_id, emplace_state, set_tag_ids, mbind, memit, mret.
  rewrite Hj. cbn. rewrite Hw. eauto.
Qed.

(** Freeing a window on which nothing is outstanding. *)
Lemma free_eq ret win s g (id : nat) :
  (id < RMA_ANALYZER_MAX_WIN)%nat ->
  mpi_tag s = RMA_ANALYZER_BASE_MPI_TAG + RMA_ANALYZER_MAX_EPOCH_NUMBER * Z.of_nat id ->
  between_fences s ->
  result (parcoach_rma_MPI_Win_free ret win [] (put_state win s g)) =
  Done (ret "PMPI_Win_free")
    (mkAnalyzer (delete win (<[win := s]> (States g))) (<[id := 0]> (win_mpi_tag_id g))
       (rma_analyzer_filter_window g)).
Proof.
  intros Hid Htag (_ & Hs2 & Hs3).
  assert (exists t' sF, Thread sF = false /\ mpi_tag sF = mpi_tag s /\
    (if 0 <? count_fence s then rma_analyzer_clear_comm_check_thread 0 win 0 [] else mret tt)
      (put_state win s g) = (t', Done tt (put_state win sF g))) as (t' & sF & HF & HtF & Hclr).
  { destruct (0 <? count_fence s) eqn:E.
    - destruct (clear_quiet 0 win s g) as [t' Ht']; [done|done|].
      exists t', (ended_state 0 0 s). by rewrite Ht'.
    - exists [], s. done. }
  unfold parcoach_rma_MPI_Win_free.
  rewrite (result_bind _ _ _ _ _ _ (get_state_some _ _ _ (put_state_lookup win s g))).
  rewrite (result_bind _ _ _ _ _ _ Hclr).
  unfold result, rma_analyzer_stop, mbind. cbn.
  rewrite (get_state_some _ _ _ (put_state_lookup win sF g)). cbn.
  rewrite HtF, Htag, free_tag_range_eq by done. cbn.
  rewrite (get_state_some win _ sF) by (cbn; apply lookup_insert_eq). cbn. rewrite HF. cbn.
  f_equal. by rewrite !delete_insert_eq.
Qed.





(** The Fortran wrappers keep only the low 32 bits of the
    displacement of a transfer, the C wrappers keep all 64: a target 2^32
    elements further is recorded by the former as the same bytes. *)
Theorem fortran_truncates_disp MPI_Type_size W CM TY MPI_Comm_size ret env a n t r d m u w l f :
  fort_call MPI_Type_size W CM TY MPI_Comm_size ret env
    (CallPut a n t r (d + 2 ^ 32) m u w l f) =
  fort_call MPI_Type_size W CM TY MPI_Comm_size ret env (CallPut a n t r d m u w l f) /\
  (0 <= d < 2 ^ 63 -> forall D,
   Low (Itv (Access_of_mem (mkMemoryAccess (u64 (d + 2 ^ 32)) 4) RMA_WRITE D)) =
   Low (Itv (Access_of_mem (mkMemoryAccess (u64 d) 4) RMA_WRITE D)) + 2 ^ 32).
Proof.
  split.
  - simpl. unfold parcoach_rma_mpi_put_. assert (int32 (d + 2 ^ 32) = int32 d) as ->; [|done].
    unfold int32. f_equal. rewrite <- Z.add_assoc, (Z.add_comm (2 ^ 32)), Z.add_assoc.
    by rewrite <- (Z.mul_1_l (2 ^ 32)) at 1; rewrite Z.mod_add.
  - intros Hd D. simpl. rewrite !u64_small by lia. lia.
Qed.

(** A window made by [MPI_Win_allocate] is filed with the address
    of the program's pointer variable as its base, whatever memory MPI allocated:
    the accesses other ranks announce are placed from there. *)
Theorem win_allocate_base sizeof ret size disp comm baseptr win g :
  States g !! win = None -> 0 <= baseptr < 2 ^ 64 ->
  exists g' s, result (parcoach_rma_MPI_Win_allocate sizeof ret None size disp comm baseptr win g)
      = Done (ret "PMPI_Win_allocate") g' /\
    States g' !! win = Some s /\ win_base s = baseptr /\
    forall A, Low (Itv (arrived_access s A)) = u64 (u64 (Low (Itv A) * u64 disp) + baseptr).
Proof.
  intros Hw Hb. unfold parcoach_rma_MPI_Win_allocate, rma_analyzer_start, PMPI,
    rma_analyzer_get_tag_range_id, emplace_state, set_tag_ids, result, mbind, memit, mret.
  destruct (first_free _ _) as [j|]; cbn; rewrite Hw; cbn;
    do 2 eexists; (split; [reflexivity|]); cbn; rewrite lookup_insert_eq;
    (split; [reflexivity|]); cbn; rewrite (u64_small baseptr) by done; done.
Qed.

Lemma win_allocate_base_witness :
  exists g' s, result (parcoach_rma_MPI_Win_allocate (fun _ => 2%nat) (fun _ => 0) None
      64 8 0 4096 7 analyzer_init) = Done 0 g' /\
    States g' !! 7 = Some s /\ win_base s = 4096.
Proof.
  destruct (win_allocate_base (fun _ => 2%nat) (fun _ => 0) 64 8 0 4096 7 analyzer_init)
    as (g' & s & H1 & H2 & H3 & _); [reflexivity|lia|]. by exists g', s.
Defined.
