(* ===== verification/IR.v ===== *)
(** The part of LLVM's intermediate representation that the static analyses
    read, as data: what the accessors of [Module], [Function], [BasicBlock],
    [Instruction], [Loop] and [LoopInfo] answer.  LLVM itself is not modelled;
    the analyses take a module of this type as an argument. *)
From S2P Require Import Prelude.

(** Pointers to IR objects. *)
Abbreviation BlockId := N.
Abbreviation ValueId := N.
Abbreviation FuncId := N.
Abbreviation InstId := N.

Record DebugLoc := { getFilename : string; getLine : Z }.

(** The instructions, by the [isa<>] tests the analyses make. A call holds
    [getCalledFunction()] ([None] when the call is indirect) and its argument
    operands; a load or store its pointer operand and the size in bits of the
    type it accesses. *)
Inductive Instruction :=
| CallInst (id : InstId) (callee : option FuncId) (args : list ValueId) (loc : option DebugLoc)
| ReturnInst (id : InstId) (ret : option ValueId)
| BranchInst (cond : option ValueId) (loc : option DebugLoc)
| SwitchInst (cond : ValueId) (loc : option DebugLoc)
| LoadInst (id : InstId) (ptr : ValueId) (bits : Z) (loc : option DebugLoc)
| StoreInst (id : InstId) (ptr : ValueId) (bits : Z) (loc : option DebugLoc)
| OtherInst.

(** [label] is what [printAsOperand(_, false)] prints. The order of [preds] is
    the order of the use list. *)
Record BasicBlock := {
  label : string;
  insts : list Instruction;
  succs : list BlockId;
  preds : list BlockId
}.

(** A function: its blocks in layout order, entry first; a declaration has no
    block. *)
Record Function_ := { getName : string; blocks : list BlockId }.

Record Module_ := {
  functions : list FuncId;
  function : FuncId -> Function_;
  block : BlockId -> BasicBlock;
  (** the pointer operand of a value that is a [LoadInst] *)
  loadPointer : ValueId -> option ValueId;
  (** the calls among [F.users()], with the operands of each *)
  callUsers : FuncId -> list (list ValueId)
}.

(** A loop of [LoopInfo]: its header, its blocks, the loops directly inside
    it, and what [getIncomingAndBackEdge] answers (nothing unless the header
    has exactly one predecessor outside and one inside the loop). *)
Inductive Loop := MkLoop {
  getHeader : BlockId;
  loopBlocks : list BlockId;
  subLoops : list Loop;
  getIncomingAndBackEdge : option (BlockId * BlockId)
}.

Record LoopInfo := { topLevel : list Loop; loopFor : BlockId -> option Loop }.

Definition no_loops : LoopInfo := {| topLevel := []; loopFor := fun _ => None |}.

Definition contains (L : Loop) (b : BlockId) : bool := bool_decide (b ∈ loopBlocks L).

Definition successors (M : Module_) (b : BlockId) : list BlockId := succs (block M b).
Definition predecessors (M : Module_) (b : BlockId) : list BlockId := preds (block M b).
Definition getTerminator (M : Module_) (b : BlockId) : option Instruction := last (insts (block M b)).
Definition getEntryBlock (M : Module_) (f : FuncId) : option BlockId := head (blocks (function M f)).
Definition isDeclaration (M : Module_) (f : FuncId) : bool :=
  match blocks (function M f) with [] => true | _ => false end.

(** [instructions(F)]. *)
Definition instructions (M : Module_) (f : FuncId) : list Instruction :=
  b ← blocks (function M f); insts (block M b).

(** * Results

    What a pass of the analysis may do: return, run past its fuel (never
    reached under the fuel the theorems give), or break a condition the source
    asserts or relies on (an assertion, an iterator that is [end()]). *)
Inductive res (A : Type) :=
| Ok (a : A)
| OutOfFuel
| Broken.
Arguments Ok {A} _.
Arguments OutOfFuel {A}.
Arguments Broken {A}.

Definition rbind {A B} (x : res A) (k : A -> res B) : res B :=
  match x with Ok a => k a | OutOfFuel => OutOfFuel | Broken => Broken end.

Declare Scope res_scope.
Delimit Scope res_scope with res.
Notation "'let*' x ':=' e 'in' k" := (rbind e (fun x => k))
  (at level 10, x pattern, e at level 200, k at level 200) : res_scope.
#[global] Open Scope res_scope.

Section Fold.
Context {A B : Type} (f : A -> B -> res A).

(** A range-based [for] loop over a state. *)
Fixpoint rfold (l : list B) (a : A) : res A :=
  match l with
  | [] => Ok a
  | b :: r => let* a' := f a b in rfold r a'
  end.
End Fold.

Definition guard (b : bool) : res unit := if b then Ok tt else Broken.

Definition of_option {A} (o : option A) : res A :=
  match o with Some a => Ok a | None => Broken end.

Lemma rbind_ok {A B} (x : res A) (k : A -> res B) b :
  rbind x k = Ok b -> exists a, x = Ok a /\ k a = Ok b.
Proof. destruct x; [eauto|discriminate..]. Qed.

Lemma rfold_app {A B} (f : A -> B -> res A) l1 l2 a :
  rfold f (l1 ++ l2) a = let* a' := rfold f l1 a in rfold f l2 a'.
Proof. revert a. induction l1 as [|x l IH]; simpl; [done|]. intros a. destruct (f a x); [apply IH|done..]. Qed.

(** An invariant of every step is an invariant of the fold. *)
Lemma rfold_inv {A B} (P : A -> Prop) (f : A -> B -> res A) l a a' :
  (forall x b y, b ∈ l -> P x -> f x b = Ok y -> P y) -> P a -> rfold f l a = Ok a' -> P a'.
Proof.
  revert a. induction l as [|b l IH]; simpl; intros a Hf Ha; [by intros [= <-]|].
  intros (x & Hx & Hl)%rbind_ok. eapply (IH x); [|eapply Hf; eauto using list_elem_of_here|done].
  intros y c z Hc. apply Hf. by apply list_elem_of_further.
Qed.
