(* ===== verification/Samples.v ===== *)
(** Small programs the examples and witnesses of the static analyses run on. *)
From S2P Require Import Prelude IR.
#[local] Open Scope string_scope.
#[local] Open Scope N_scope.

Definition mk_block (l : string) (code : list Instruction) (ss ps : list BlockId) : BasicBlock :=
  {| label := l; insts := code; succs := ss; preds := ps |}.

Definition find_in {A} (dflt : A) (l : list (N * A)) (n : N) : A :=
  match List.find (fun '(k, _) => N.eqb k n) l with Some (_, a) => a | None => dflt end.

Definition mk_module (fs : list (FuncId * Function_)) (bs : list (BlockId * BasicBlock)) : Module_ :=
  {| functions := fs.*1;
     function := find_in {| getName := ""; blocks := [] |} fs;
     block := find_in (mk_block "" [] [] []) bs;
     loadPointer := fun _ => None; callUsers := fun _ => [] |}.

Definition mk_func (name : string) (bs : list BlockId) : Function_ := {| getName := name; blocks := bs |}.
Definition call (id : InstId) (F : FuncId) : Instruction := CallInst id (Some F) [7] None.
Definition br (c : option ValueId) : Instruction := BranchInst c None.

(** [if (c) MPI_Barrier(comm);]: function 9 is the barrier, on communicator 7. *)
Definition barrier_fn : FuncId * Function_ := (9, mk_func "MPI_Barrier" []).

Definition diamond : Module_ := mk_module
  [(0, mk_func "main" [0; 1; 2]); barrier_fn]
  [(0, mk_block "%entry" [br (Some 5)] [1; 2] []);
   (1, mk_block "%then" [call 10 9; br None] [2] [0]);
   (2, mk_block "%end" [ReturnInst 11 None] [] [0; 1])].

Definition no_indirect : InstId -> option (list FuncId) := fun _ => None.
