(* ===== verification/Search.v ===== *)
(** The graph searches of the static analyses: a list of nodes to visit, a set
    of the nodes seen, and the loop that takes the next node, stops on a node
    it looks for, and adds the neighbours not seen yet.  A stack and a queue
    differ in where a node is pushed. *)
From stdpp Require Import relations.
From S2P Require Import Prelude IR.

Section Search.
Context {A : Type} `{Countable A}.
Context (next : A -> list A) (stop : A -> bool) (push : list A -> A -> list A).

(** The loop over the neighbours. *)
Definition see (st : list A * gset A) (s : A) : list A * gset A :=
  if bool_decide (s ∈ st.2) then st else (push st.1 s, {[ s ]} ∪ st.2).

(** The loop; [None] when it stopped on a node, else the nodes seen. *)
Fixpoint search (fuel : nat) (todo : list A) (seen : gset A) : res (option (gset A)) :=
  match todo with
  | [] => Ok (Some seen)
  | x :: todo' =>
      match fuel with
      | O => OutOfFuel
      | S fuel' =>
          if stop x then Ok None
          else let st := fold_left see (next x) (todo', seen) in search fuel' st.1 st.2
      end
  end.

(** [y] is a neighbour of [x]. *)
Definition edge (x y : A) : Prop := y ∈ next x.

Hypothesis push_perm : forall l x, push l x ≡ₚ x :: l.

Lemma see_all ss todo seen :
  exists new, (fold_left see ss (todo, seen)).1 ≡ₚ new ++ todo /\
    (fold_left see ss (todo, seen)).2 = list_to_set new ∪ seen /\ NoDup new /\
    (forall s, s ∈ new <-> s ∈ ss /\ s ∉ seen).
Proof.
  revert todo seen. induction ss as [|s ss IH]; intros todo seen; cbn [fold_left].
  - exists []. repeat split; [done|set_solver|constructor|set_solver..].
  - unfold see at 2 4. case_bool_decide as E; simpl in E |- *.
    + destruct (IH todo seen) as (new & H1 & H2 & H3 & H4). exists new. split; [done|]. split; [done|]. split; [done|].
      intros y. rewrite elem_of_cons, H4. naive_solver.
    + destruct (IH (push todo s) ({[s]} ∪ seen)) as (new & H1 & H2 & H3 & H4).
      exists (s :: new). split; [|split; [|split]].
      * rewrite H1, push_perm. symmetry. apply Permutation_middle.
      * rewrite H2. set_solver.
      * constructor; [|done]. rewrite H4. set_solver.
      * intros y. rewrite !elem_of_cons, H4. destruct (decide (y = s)); set_solver.
Qed.

(** What holds between two turns: [start] are the nodes searched from. *)
Record searching (start todo : list A) (seen : gset A) : Prop := {
  se_todo : forall x, x ∈ todo -> exists s, s ∈ start /\ rtc edge s x;
  se_seen : forall x, x ∈ seen -> x ∈ start \/ exists s, s ∈ start /\ tc edge s x;
  se_done : forall x, x ∈ start \/ x ∈ seen -> x ∈ todo \/ (stop x = false /\ forall y, edge x y -> y ∈ seen)
}.

Lemma searching_closed start seen :
  searching start [] seen ->
  (forall s x, s ∈ start -> rtc edge s x -> stop x = false) /\
  (forall s x, s ∈ start -> tc edge s x -> x ∈ seen).
Proof.
  intros [_ _ Hd]. assert (forall x, x ∈ start \/ x ∈ seen ->
    stop x = false /\ forall y, edge x y -> y ∈ seen) as Hc.
  { intros x Hx. destruct (Hd x Hx) as [Ht|Ht]; [set_solver|done]. }
  assert (forall s x, rtc edge s x -> s ∈ start \/ s ∈ seen -> x ∈ start \/ x ∈ seen) as Hr.
  { induction 1 as [|a b c Hab _ IH]; intros Ha; [done|]. apply IH. right. by apply (Hc a Ha). }
  assert (forall s x, tc edge s x -> s ∈ start \/ s ∈ seen -> x ∈ seen) as Ht.
  { induction 1 as [a b Hab|a b c Hab _ IH]; intros Ha; [by apply (Hc a Ha)|].
    apply IH. right. by apply (Hc a Ha). }
  split; [|eauto]. intros s x Hs Hsx. apply Hc. eauto.
Qed.

Lemma searching_step start x todo seen :
  searching start (x :: todo) seen -> stop x = false ->
  searching start (fold_left see (next x) (todo, seen)).1 (fold_left see (next x) (todo, seen)).2.
Proof.
  intros [H1 H2 H3] Hx. destruct (see_all (next x) todo seen) as (new & Ht & Hs & _ & Hnew).
  destruct (H1 x (list_elem_of_here _ _)) as (s & Hss & Hsx).
  assert (forall y, y ∈ next x -> exists s, s ∈ start /\ tc edge s y) as Hreach.
  { intros y Hy. exists s. split; [done|]. by eapply tc_rtc_l, tc_once. }
  rewrite Hs. split.
  - intros y Hy. rewrite Ht in Hy. apply elem_of_app in Hy as [[Hy _]%Hnew|Hy].
    + destruct (Hreach y Hy) as (s' & ? & ?%tc_rtc). eauto.
    + apply H1. by apply list_elem_of_further.
  - intros y [Hy|Hy]%elem_of_union; [|auto]. apply elem_of_list_to_set, Hnew in Hy as [Hy _]. auto.
  - intros y Hy. setoid_rewrite Ht. destruct (decide (y ∈ new)) as [Hn|Hn]; [left; set_solver|].
    assert (y ∈ start \/ y ∈ seen) as Hy' by (set_unfold; naive_solver).
    destruct (H3 y Hy') as [Hty|[Hst Hyn]]; [|right; split; [done|]; intros z Hz; set_solver].
    apply elem_of_cons in Hty as [->|Hty]; [|left; set_solver]. right. split; [done|].
    intros z Hz. destruct (decide (z ∈ seen)); [set_solver|]. assert (z ∈ new) by (apply Hnew; done). set_solver.
Qed.

(** The search returns; it stops exactly when a node it looks for can be
    reached, and otherwise has seen what can be reached. *)
Lemma search_loop (U : gset A) start fuel : forall todo seen,
  (forall x y, x ∈ U -> edge x y -> y ∈ U) -> (forall x, x ∈ todo -> x ∈ U) -> seen ⊆ U ->
  searching start todo seen ->
  (length todo + size (U ∖ seen) <= fuel)%nat ->
  (search fuel todo seen = Ok None /\ exists s x, s ∈ start /\ rtc edge s x /\ stop x = true) \/
  (exists V, search fuel todo seen = Ok (Some V) /\ searching start [] V).
Proof.
  induction fuel as [|fuel IH]; intros [|x todo] seen HU Ht Hsub HS Hf.
  - right. exists seen. done.
  - simpl in Hf. lia.
  - right. exists seen. done.
  - cbn [search]. destruct (stop x) eqn:Ex.
    + left. split; [done|]. destruct (se_todo _ _ _ HS x (list_elem_of_here _ _)) as (s & ? & ?). eauto.
    + destruct (see_all (next x) todo seen) as (new & Hp & Hs & Hn & Hnew).
      assert (x ∈ U) as HxU by (apply Ht, list_elem_of_here).
      apply IH; [done| | |by apply searching_step|].
      * intros y Hy. rewrite Hp in Hy. apply elem_of_app in Hy as [[Hy _]%Hnew|Hy]; [by eapply HU|].
        apply Ht. by apply list_elem_of_further.
      * rewrite Hs. intros y [Hy|Hy]%elem_of_union; [|auto].
        apply elem_of_list_to_set, Hnew in Hy as [Hy _]. by eapply HU.
      * rewrite Hp, Hs, length_app. cbn [length] in Hf.
        assert (U ∖ (list_to_set new ∪ seen) = (U ∖ seen) ∖ list_to_set new) as -> by set_solver.
        assert (size (list_to_set new : gset A) = length new) as Hl by (by apply size_list_to_set).
        assert (list_to_set new ⊆ U ∖ seen) as Hsub2.
        { intros y Hy%elem_of_list_to_set. apply Hnew in Hy as [Hy ?]. apply elem_of_difference.
          split; [by eapply HU|done]. }
        pose proof (size_difference (U ∖ seen) _ Hsub2). pose proof (subseteq_size _ _ Hsub2). lia.
Qed.

(** What was seen stays seen. *)
Lemma search_seen fuel : forall todo seen V, search fuel todo seen = Ok (Some V) -> seen ⊆ V.
Proof.
  induction fuel as [|fuel IH]; intros [|x todo] seen V E; cbn [search] in E; try discriminate;
    try (injection E as <-; done).
  destruct (stop x); [discriminate|]. apply IH in E.
  destruct (see_all (next x) todo seen) as (new & _ & Hs & _). rewrite Hs in E. set_solver.
Qed.

(** A search from [start], nothing or [start] itself being seen at first. *)
Lemma search_spec (U : gset A) start seen0 fuel :
  (forall x y, x ∈ U -> edge x y -> y ∈ U) -> (forall x, x ∈ start -> x ∈ U) ->
  (forall x, x ∈ seen0 -> x ∈ start) ->
  (length start + size U <= fuel)%nat ->
  (search fuel start seen0 = Ok None /\ exists s x, s ∈ start /\ rtc edge s x /\ stop x = true) \/
  (exists V, search fuel start seen0 = Ok (Some V) /\
     (forall s x, s ∈ start -> rtc edge s x -> stop x = false) /\
     (forall x, x ∈ V -> x ∈ start \/ exists s, s ∈ start /\ tc edge s x) /\
     (forall s x, s ∈ start -> tc edge s x -> x ∈ V)).
Proof.
  intros HU Hst Hseen Hf. destruct (search_loop U start fuel start seen0) as [Hn|(V & Hv & HS)]; try done.
  - intros x Hx. auto.
  - split.
    + intros x Hx. exists x. split; [done|constructor].
    + intros x Hx. left. auto.
    + intros x [Hx|Hx]; left; auto.
  - assert (size (U ∖ seen0) <= size U)%nat by (apply subseteq_size; set_solver). lia.
  - by left.
  - right. exists V. split; [done|]. destruct (searching_closed _ _ HS) as [? ?].
    split; [done|]. split; [apply HS|done].
Qed.

End Search.
