(* ===== verification/Utils.v ===== *)
(** The helpers of Utils.cpp: labels of values, the postdominance frontier and
    its iteration with their caches, the conditions of blocks, return values,
    and functions that never return. *)
From Stdlib Require Import Ascii.
From stdpp Require Import relations.
From S2P Require Import Prelude IR Search Samples.
#[local] Open Scope N_scope.

(** * Labels *)

(** [find_first_of('=')]. *)
Fixpoint find_first_of_eq (s : string) : option nat :=
  match s with
  | EmptyString => None
  | String c r => if Ascii.eqb c "="%char then Some O else S <$> find_first_of_eq r
  end.

(** [std::string::substr(pos)]; a position past the end raises. *)
Definition substr_from (pos : nat) (s : string) : res string :=
  if (pos <=? String.length s)%nat then Ok (String.substring pos (String.length s - pos) s) else Broken.

(** [getValueLabel] and [getCallValueLabel] of what [print] wrote. *)
Definition getValueLabel (Label : string) : string :=
  match find_first_of_eq Label with Some Pos => String.substring 0 Pos Label | None => Label end.

Definition getCallValueLabel (Label : string) : res string :=
  match find_first_of_eq Label with Some Pos => substr_from (Pos + 2)%nat Label | None => Ok Label end.

(** * Postdominance *)

(** LLVM's postdominator tree: the node of a block, the immediate
    postdominator and the children of a node, the block of a node. *)
Record PostDominatorTree := {
  getNode : BlockId -> option N;
  getIDom : N -> option N;
  children : N -> list N;
  getBlock : N -> BlockId
}.

(** [PdfCache] and [IpdfCache]: a null pointer is an absent entry. *)
Abbreviation Cache := (gmap BlockId (gset BlockId)).

(** [PDT[P]->getIDom() != DomNode] for a [P] with a node. *)
Definition idom_differs (PDT : PostDominatorTree) (DomNode : option N) (P : BlockId) : res bool :=
  let* ID := of_option (getNode PDT P) in
  Ok (negb (bool_decide (getIDom PDT ID = DomNode))).

(** The predecessors of [BB] that it does not immediately postdominate. *)
Definition pdf_local (M : Module_) (PDT : PostDominatorTree) (BB : BlockId) : list BlockId :=
  List.filter (fun P =>
    match getNode PDT P with
    | Some ID => negb (bool_decide (getIDom PDT ID = getNode PDT BB)) && negb (bool_decide (P = BB))
    | None => false
    end) (predecessors M BB).

(** What the loop over a child's frontier pushes. *)
Definition pdf_up (PDT : PostDominatorTree) (BB : BlockId) (PDF ChildDF : list BlockId) :
    res (list BlockId) :=
  rfold (fun PDF C =>
    let* differs := idom_differs PDT (getNode PDT BB) C in
    Ok (if differs && negb (bool_decide (C = BB)) then PDF ++ [C] else PDF)) ChildDF PDF.

(** [postdominanceFrontier]: a block without node is a null dereference. *)
Fixpoint postdominanceFrontier (fuel : nat) (M : Module_) (PDT : PostDominatorTree) (BB : BlockId)
    (PdfCache : Cache) : res (list BlockId * Cache) :=
  match PdfCache !! BB with
  | Some B => Ok (elements B, PdfCache)
  | None =>
      match fuel with
      | O => OutOfFuel
      | S fuel' =>
          let* DomNode := of_option (getNode PDT BB) in
          let* r := rfold (fun acc IDominee =>
            let* c := postdominanceFrontier fuel' M PDT (getBlock PDT IDominee) acc.2 in
            let* PDF := pdf_up PDT BB acc.1 c.1 in
            Ok (PDF, c.2)) (children PDT DomNode) (pdf_local M PDT BB, PdfCache) in
          Ok (r.1, <[BB := list_to_set r.1]> r.2)
      end
  end.

(** The insertions of one frontier: the set, and what was not in it. *)
Definition ipdf_add (Tmp : list BlockId) (st : gset BlockId * gset BlockId) : gset BlockId * gset BlockId :=
  fold_left (fun st J => if bool_decide (J ∈ st.1) then st else ({[ J ]} ∪ st.1, {[ J ]} ∪ st.2)) Tmp st.

(** One block of [ToCompute]. *)
Definition ipdf_visit (fuel : nat) (M : Module_) (PDT : PostDominatorTree)
    (acc : gset BlockId * gset BlockId * Cache) (I : BlockId) :
    res (gset BlockId * gset BlockId * Cache) :=
  let* t := postdominanceFrontier fuel M PDT I acc.2 in Ok (ipdf_add t.1 acc.1, t.2).

(** One round over [ToCompute]: the set, what is new, the cache. *)
Definition ipdf_round (fuel : nat) (M : Module_) (PDT : PostDominatorTree) (ToCompute : gset BlockId)
    (S0 : gset BlockId) (PdfCache : Cache) : res (gset BlockId * gset BlockId * Cache) :=
  rfold (ipdf_visit fuel M PDT) (elements ToCompute) (S0, ∅, PdfCache).

(** The [while (Changed)] loop. *)
Fixpoint ipdf_loop (rounds fuel : nat) (M : Module_) (PDT : PostDominatorTree)
    (ToCompute S0 : gset BlockId) (PdfCache : Cache) : res (gset BlockId * Cache) :=
  match rounds with
  | O => OutOfFuel
  | S rounds' =>
      let* r := ipdf_round fuel M PDT ToCompute S0 PdfCache in
      let '(S1, ToComputeTmp, PdfCache1) := r in
      if bool_decide (ToComputeTmp = ∅) then Ok (S1, PdfCache1)
      else ipdf_loop rounds' fuel M PDT ToComputeTmp S1 PdfCache1
  end.

(** [iterated_postdominance_frontier]; both caches are threaded. *)
Definition iterated_postdominance_frontier (rounds fuel : nat) (M : Module_) (PDT : PostDominatorTree)
    (BB : BlockId) (PdfCache IpdfCache : Cache) : res (list BlockId * Cache * Cache) :=
  match IpdfCache !! BB with
  | Some B => Ok (elements B, PdfCache, IpdfCache)
  | None =>
      let* t := postdominanceFrontier fuel M PDT BB PdfCache in
      if bool_decide (t.1 = []) then Ok ([], t.2, IpdfCache)
      else
        let* r := ipdf_loop rounds fuel M PDT (list_to_set t.1) (list_to_set t.1) t.2 in
        let IPDF := t.1 ++ elements r.1 in
        Ok (IPDF, r.2, <[BB := list_to_set IPDF]> IpdfCache)
  end.

(** [getBasicBlockCond]: a block always has a terminator. *)
Definition getBasicBlockCond (M : Module_) (BB : BlockId) : res (option ValueId) :=
  let* Term := of_option (getTerminator M BB) in
  Ok match Term with
     | BranchInst cond _ => cond
     | SwitchInst cond _ => Some cond
     | _ => None
     end.

(** [computeIPDFPredicates]. *)
Definition computeIPDFPredicates (rounds fuel : nat) (M : Module_) (PDT : PostDominatorTree)
    (BB : BlockId) (PdfCache IpdfCache : Cache) : res (gset ValueId * Cache * Cache) :=
  let* r := iterated_postdominance_frontier rounds fuel M PDT BB PdfCache IpdfCache in
  let* Preds := rfold (fun Preds B =>
    let* cond := getBasicBlockCond M B in
    Ok match cond with Some Cond => {[ Cond ]} ∪ Preds | None => Preds end) r.1.1 ∅ in
  Ok (Preds, r.1.2, r.2).

(** * Functions *)

(** [isIntrinsicDbgFunction]: the name starts with "llvm.dbg". *)
Definition isIntrinsicDbgFunction (M : Module_) (F : FuncId) : bool :=
  String.prefix "llvm.dbg" (getName (function M F)).

(** [getReturnValue]: one value at most may be returned, and one is. *)
Definition getReturnValue (M : Module_) (F : FuncId) : res ValueId :=
  let* Ret := rfold (fun Ret I =>
    match I with
    | ReturnInst _ v => let* _ := guard (bool_decide (Ret = None)) in Ok v
    | _ => Ok Ret
    end) (instructions M F) None in
  of_option Ret.

Definition has_return (M : Module_) (BB : BlockId) : bool :=
  existsb (fun I => match I with ReturnInst _ _ => true | _ => false end) (insts (block M BB)).

(** [functionDoesNotRet]: a depth-first search for a return. *)
Definition functionDoesNotRet (fuel : nat) (M : Module_) (F : FuncId) : res bool :=
  let* entry := of_option (getEntryBlock M F) in
  let* found := search (successors M) (has_return M) (fun l x => x :: l) fuel [entry] ∅ in
  Ok match found with None => false | Some _ => true end.

(** [getBBSetIntersectionSize] and [getInstSetIntersectionSize], [unsigned]. *)
Definition getSetIntersectionSize (S1 S2 : gset N) : Z :=
  fold_left (fun Ret x => if bool_decide (x ∈ S2) then u32 (Ret + 1) else Ret) (elements S1) 0%Z.

(** * Functions that do not return *)

(** [functionDoesNotRet] answers, and says that a function does
    not return exactly when no block that can be reached from its entry holds a
    return. *)
Theorem functionDoesNotRet_spec M F (U : gset BlockId) entry fuel :
  getEntryBlock M F = Some entry -> entry ∈ U ->
  (forall b c, b ∈ U -> c ∈ successors M b -> c ∈ U) -> (1 + size U <= fuel)%nat ->
  exists v, functionDoesNotRet fuel M F = Ok v /\
    (v = true <-> forall b, rtc (edge (successors M)) entry b -> has_return M b = false).
Proof.
  intros He HeU HU Hf. unfold functionDoesNotRet. rewrite He. cbn [of_option rbind].
  destruct (search_spec (successors M) (has_return M) (fun l x => x :: l) (fun _ _ => Permutation_refl _)
    U [entry] ∅ fuel) as [[-> (s & x & Hs & Hr & Hx)]|(V & -> & Hno & _)].
  - exact HU.
  - intros x Hx. by apply list_elem_of_singleton in Hx as ->.
  - set_solver.
  - simpl. lia.
  - exists false. split; [done|]. split; [done|]. intros Hall.
    apply list_elem_of_singleton in Hs as ->. by rewrite (Hall x Hr) in Hx.
  - exists true. split; [done|]. split; [|done]. intros _ b Hb. eapply Hno; [|exact Hb]. set_solver.
Qed.

(** A function that loops for ever, and a block with a return that nothing
    reaches. *)
Definition spin : Module_ := mk_module [(0, mk_func "spin" [0; 1; 2])]
  [(0, mk_block "%loop" [br None] [1] [0; 1]); (1, mk_block "%loop1" [br None] [1] [0; 1]);
   (2, mk_block "%dead" [ReturnInst 3 None] [] [])].

Lemma functionDoesNotRet_witness : functionDoesNotRet 3 spin 0 = Ok true.
Proof.
  destruct (functionDoesNotRet_spec spin 0 {[ 0; 1 ]} 0 3) as (v & Hv & Hiff).
  - reflexivity.
  - set_solver.
  - intros b c Hb Hc. unfold successors in Hc. simpl in Hc.
    apply elem_of_union in Hb as [Hb|Hb]; apply elem_of_singleton in Hb as ->; simpl in Hc; set_solver.
  - vm_compute. lia.
  - rewrite Hv. destruct v; [reflexivity|]. exfalso. vm_compute in Hv. discriminate.
Defined.

Lemma getSetIntersectionSize_spec S1 S2 :
  getSetIntersectionSize S1 S2 = u32 (Z.of_nat (size (S1 ∩ S2))).
Proof.
  unfold getSetIntersectionSize.
  assert (forall l r, NoDup l -> fold_left (fun Ret x => if bool_decide (x ∈ S2) then u32 (Ret + 1) else Ret) l (u32 r)
    = u32 (r + Z.of_nat (size (list_to_set l ∩ S2)))) as Hl.
  { induction l as [|x l IH]; intros r Hn.
    - simpl. by rewrite intersection_empty_l_L, size_empty, Z.add_0_r.
    - apply NoDup_cons in Hn as [Hx Hn]. cbn [fold_left]. case_bool_decide as Hin.
      + assert (u32 (u32 r + 1) = u32 (r + 1)) as -> by (unfold u32; by rewrite Zplus_mod_idemp_l).
        rewrite IH by done. f_equal.
        assert (list_to_set (x :: l) ∩ S2 = {[ x ]} ∪ (list_to_set l ∩ S2)) as -> by set_solver.
        rewrite (size_union ({[ x ]} : gset N) (list_to_set l ∩ S2)) by set_solver. rewrite size_singleton. lia.
      + rewrite IH by done.
        assert (list_to_set (x :: l) ∩ S2 = list_to_set l ∩ S2) as -> by set_solver. done. }
  change 0%Z with (u32 0). rewrite Hl by apply NoDup_elements.
  by rewrite list_to_set_elements_L.
Qed.
