(* ===== verification/Postdominance.v ===== *)
(** What the frontiers of Utils.cpp are: [postdominanceFrontier] computes the
    classical postdominance frontier of a block, the block itself excepted, and
    [iterated_postdominance_frontier] its closure; the caches hold what the
    functions would compute. *)
From stdpp Require Import relations.
From S2P Require Import Prelude IR Search Utils Samples.

Section Frontier.
Context (M : Module_) (PDT : PostDominatorTree) (Bs : gset BlockId) (height : N -> nat).

(** A block of [Bs] and its node. *)
Definition node_of (b : BlockId) (n : N) : Prop := b ∈ Bs /\ getNode PDT b = Some n.

(** From a node to its immediate postdominator. *)
Definition up (n m : N) : Prop := getIDom PDT n = Some m.

(** The postdominator tree of the blocks [Bs]: its nodes and blocks correspond,
    children and immediate postdominators agree, [height] bounds its subtrees,
    and the immediate postdominator of a block postdominates the block's
    successors. *)
Record pdt_ok : Prop := {
  ok_node : forall b, b ∈ Bs -> exists n, getNode PDT b = Some n /\ getBlock PDT n = b;
  ok_preds : forall b p, b ∈ Bs -> p ∈ predecessors M b -> p ∈ Bs;
  ok_child : forall b n c, node_of b n -> c ∈ children PDT n -> node_of (getBlock PDT c) c /\ up c n;
  ok_up_child : forall b n bc c, node_of b n -> node_of bc c -> up c n -> c ∈ children PDT n;
  ok_valid : forall b n m k, node_of b n -> up n m -> up m k -> exists b', node_of b' m;
  ok_height : forall n m, up n m -> (height n < height m)%nat;
  ok_edge : forall y p np ny m, node_of y ny -> p ∈ predecessors M y -> node_of p np -> up np m ->
    rtc up ny m
}.

Hypothesis OK : pdt_ok.

(** [x] is in the postdominance frontier of [b]: [b] postdominates a successor
    of [x] but not [x] strictly. *)
Definition in_frontier (b x : BlockId) : Prop :=
  exists y nb ny nx, node_of b nb /\ node_of y ny /\ node_of x nx /\
    x ∈ predecessors M y /\ rtc up ny nb /\ ~ tc up nx nb.

Definition frontier_set (b : BlockId) (S0 : gset BlockId) : Prop :=
  forall x, x ∈ S0 <-> in_frontier b x /\ x <> b.

Definition cache_ok (c : Cache) : Prop := forall b S0, c !! b = Some S0 -> frontier_set b S0.

Lemma node_fun b n m : node_of b n -> node_of b m -> n = m.
Proof. intros [_ H1] [_ H2]. congruence. Qed.

Lemma node_inj b c n : node_of b n -> node_of c n -> b = c.
Proof.
  intros [Hb Hn] [Hc Hm]. destruct (ok_node OK b Hb) as (? & ? & <-), (ok_node OK c Hc) as (? & ? & <-).
  congruence.
Qed.

Lemma rtc_up_height n m : rtc up n m -> (height n <= height m)%nat.
Proof. induction 1 as [|a b c Hab _ IH]; [lia|]. apply (ok_height OK) in Hab. lia. Qed.

Lemma tc_up_height n m : tc up n m -> (height n < height m)%nat.
Proof. induction 1 as [a b Hab|a b c Hab _ IH]; apply (ok_height OK) in Hab; lia. Qed.

(** The postdominators of a node are in a line. *)
Lemma up_linear n a b : rtc up n a -> rtc up n b -> rtc up a b \/ rtc up b a.
Proof.
  induction 1 as [|n m a Hnm Hma IH]; intros Hb; [by left|].
  inversion Hb as [|n' m' b' Hnm' Hmb]; subst; [right; by eapply rtc_l|].
  unfold up in *. apply IH. congruence.
Qed.

(** The node below [n] on the way up from a block to [n]. *)
Lemma child_on_path y ny b n :
  node_of y ny -> node_of b n -> rtc up ny n -> ny <> n ->
  exists c, c ∈ children PDT n /\ rtc up ny c /\ up c n.
Proof.
  intros Hy Hb Hr Hne. revert y Hy Hb. induction Hr as [|ny m n Hm Hr IH]; intros y Hy Hb; [done|].
  destruct (decide (m = n)) as [->|Hmn].
  - exists ny. split; [by eapply (ok_up_child OK)|]. split; [constructor|done].
  - assert (exists k, up m k) as [k Hk].
    { inversion Hr; subst; [done|eauto]. }
    destruct (ok_valid OK _ _ _ _ Hy Hm Hk) as [b' Hb'].
    destruct (IH Hmn b' Hb' Hb) as (c & Hc & Hmc & Hcn).
    exists c. split; [done|]. split; [by eapply rtc_l|done].
Qed.

(** [x] has an edge to a block below [n], and its immediate postdominator is
    not [n]: if [n] strictly postdominates [x] then so does any child of [n]
    above that block. *)
Lemma not_strict_child x nx y ny n c :
  node_of x nx -> node_of y ny -> x ∈ predecessors M y -> rtc up ny c -> up c n ->
  ~ up nx n -> tc up nx n -> tc up nx c.
Proof.
  intros Hx Hy Hxy Hyc Hcn Hnx Ht. inversion Ht as [? ? Hup|? m ? Hup Hmn]; subst; [done|].
  pose proof (ok_edge OK y x nx ny m Hy Hxy Hx Hup) as Hym.
  destruct (up_linear ny m c Hym Hyc) as [Hmc|Hcm]; [by eapply tc_rtc_r; [apply tc_once|]|].
  inversion Hcm as [|? k ? Hck Hkm]; subst; [by apply tc_once|]. exfalso.
  unfold up in *. assert (k = n) as -> by congruence.
  apply rtc_up_height in Hkm. apply tc_up_height in Hmn. lia.
Qed.

(** The recursion of the frontier: local blocks, and the children's frontiers. *)
Lemma frontier_unfold b n x :
  node_of b n ->
  (in_frontier b x /\ x <> b <->
   x <> b /\ exists nx, node_of x nx /\ ~ up nx n /\
     (x ∈ predecessors M b \/
      exists c, c ∈ children PDT n /\ in_frontier (getBlock PDT c) x /\ x <> getBlock PDT c)).
Proof.
  intros Hb. split.
  - intros [(y & nb & ny & nx & Hb' & Hy & Hx & Hxy & Hyb & Hns) Hne]. split; [done|].
    assert (nb = n) as -> by by eapply node_fun. exists nx. split; [done|].
    split; [intros Hu; by apply Hns, tc_once|].
    destruct (decide (ny = n)) as [->|Hyn]; [left; by rewrite <- (node_inj _ _ _ Hy Hb)|]. right.
    destruct (child_on_path y ny b n Hy Hb Hyb Hyn) as (c & Hc & Hyc & Hcn).
    destruct (ok_child OK b n c Hb Hc) as [Hcb _]. exists c. split; [done|]. split.
    + exists y, c, ny, nx. do 5 (split; [done|]). intros Ht. apply Hns. by eapply tc_rtc_r, rtc_once.
    + intros ->. apply Hns. rewrite (node_fun _ _ _ Hx Hcb). by apply tc_once.
  - intros [Hne (nx & Hx & Hnu & Hcase)]. split; [|done]. destruct Hcase as [Hp|(c & Hc & Hf & Hnc)].
    + exists b, n, n, nx. do 4 (split; [done|]). split; [constructor|]. intros Ht.
      inversion Ht as [|? m ? Hup Hmn]; subst; [done|].
      pose proof (ok_edge OK b x nx n m Hb Hp Hx Hup) as Hr.
      apply rtc_up_height in Hr. apply tc_up_height in Hmn. lia.
    + destruct (ok_child OK b n c Hb Hc) as [Hcb Hcn].
      destruct Hf as (y & nc & ny & nx' & Hc' & Hy & Hx' & Hxy & Hyc & Hns).
      assert (nc = c) as -> by by eapply node_fun. assert (nx' = nx) as -> by by eapply node_fun.
      exists y, n, ny, nx. do 4 (split; [done|]). split; [eapply rtc_r; [exact Hyc|exact Hcn]|].
      intros Ht. apply Hns. eapply (not_strict_child x nx y ny n c); done.
Qed.

Lemma elem_of_pdf_local b n x :
  node_of b n -> (x ∈ pdf_local M PDT b <->
    x <> b /\ exists nx, node_of x nx /\ ~ up nx n /\ x ∈ predecessors M b).
Proof.
  intros [Hb Hn]. unfold pdf_local. rewrite elem_of_filterb. rewrite Hn. split.
  - intros [Hx Hf]. destruct (getNode PDT x) as [nx|] eqn:E; [|done]. breflect.
    rewrite bool_decide_eq_false in *. split; [done|]. exists nx.
    split; [split; [by eapply (ok_preds OK)|done]|done].
  - intros [Hne (nx & [_ E] & Hu & Hx)]. split; [done|]. rewrite E.
    unfold up in Hu. by rewrite !bool_decide_false.
Qed.

(** What a child's frontier adds. *)
Lemma pdf_up_spec b n PDF l :
  node_of b n -> (forall x, x ∈ l -> x ∈ Bs) ->
  exists PDF', pdf_up PDT b PDF l = Ok PDF' /\
    forall x, x ∈ PDF' <-> x ∈ PDF \/ (x ∈ l /\ x <> b /\ exists nx, node_of x nx /\ ~ up nx n).
Proof.
  intros [Hb Hn] Hl. revert PDF. induction l as [|y l IH]; intros PDF.
  - exists PDF. split; [done|]. set_solver.
  - destruct (ok_node OK y) as (ny & Ey & _); [apply Hl, list_elem_of_here|].
    assert (pdf_up PDT b PDF (y :: l) = pdf_up PDT b
      (if negb (bool_decide (getIDom PDT ny = getNode PDT b)) && negb (bool_decide (y = b))
       then PDF ++ [y] else PDF) l) as ->.
    { unfold pdf_up. cbn [rfold]. unfold idom_differs at 1. by rewrite Ey. }
    edestruct IH as (PDF' & E & Hin); [intros; apply Hl; by apply list_elem_of_further|].
    exists PDF'. split; [exact E|]. intros x. rewrite Hin, elem_of_cons, Hn.
    assert (node_of y ny) as Hy by (split; [apply Hl, list_elem_of_here|done]).
    set (R x := x <> b /\ exists nx, node_of x nx /\ ~ up nx n).
    change (x ∈ (if negb (bool_decide (getIDom PDT ny = Some n)) && negb (bool_decide (y = b))
                 then PDF ++ [y] else PDF) \/ x ∈ l /\ R x <-> x ∈ PDF \/ (x = y \/ x ∈ l) /\ R x).
    destruct (decide (y <> b /\ getIDom PDT ny <> Some n)) as [[Hyb Hu]|HR].
    + rewrite !bool_decide_false by done. simpl. rewrite elem_of_app, list_elem_of_singleton.
      assert (R y) by (split; eauto). naive_solver.
    + assert (~ R y) as HRy.
      { intros [Hyb (ny' & Hy' & Hu)]. rewrite (node_fun _ _ _ Hy' Hy) in Hu. by apply HR. }
      assert (negb (bool_decide (getIDom PDT ny = Some n)) && negb (bool_decide (y = b)) = false) as ->.
      { apply andb_false_iff. rewrite !negb_false_iff, !bool_decide_eq_true.
        destruct (decide (y = b)); [by right|]. left.
        destruct (decide (getIDom PDT ny = Some n)); [done|]. by destruct HR. }
      split; [intros [?|[? ?]]; auto|]. intros [?|[[->|?] ?]]; auto. done.
Qed.

(** The loop over the children, given what the calls answer. *)
Lemma children_spec (rec : BlockId -> Cache -> res (list BlockId * Cache)) b n cs : forall PDF cache,
  node_of b n -> cache_ok cache -> (forall c, c ∈ cs -> c ∈ children PDT n) ->
  (forall c cache, c ∈ cs -> cache_ok cache -> exists l cache', rec (getBlock PDT c) cache = Ok (l, cache') /\
     frontier_set (getBlock PDT c) (list_to_set l) /\ cache_ok cache') ->
  exists PDF' cache', rfold (fun acc c =>
      let* r := rec (getBlock PDT c) acc.2 in
      let* PDF := pdf_up PDT b acc.1 r.1 in Ok (PDF, r.2)) cs (PDF, cache) = Ok (PDF', cache') /\
    cache_ok cache' /\
    forall x, x ∈ PDF' <-> x ∈ PDF \/ (x <> b /\ exists nx, node_of x nx /\ ~ up nx n /\
      exists c, c ∈ cs /\ in_frontier (getBlock PDT c) x /\ x <> getBlock PDT c).
Proof.
  induction cs as [|c cs IH]; intros PDF cache Hb Hc Hch Hrec.
  - exists PDF, cache. split; [done|]. split; [done|]. set_solver.
  - destruct (Hrec c cache (list_elem_of_here _ _) Hc) as (l & cache1 & E & Hl & Hc1).
    destruct (pdf_up_spec b n PDF l Hb) as (PDF1 & E1 & Hin1).
    { intros x Hx. assert (x ∈ (list_to_set l : gset N)) as Hx' by by apply elem_of_list_to_set.
      apply Hl in Hx' as [(? & ? & ? & nx & _ & _ & [? _] & _) _]. done. }
    destruct (IH PDF1 cache1 Hb Hc1) as (PDF' & cache' & E' & Hc' & Hin');
      [intros; apply Hch; by apply list_elem_of_further|intros; apply Hrec; [by apply list_elem_of_further|done]|].
    exists PDF', cache'. cbn [rfold]. cbn [fst snd]. rewrite E. cbn [rbind fst snd]. rewrite E1. cbn [rbind].
    split; [exact E'|]. split; [done|]. intros x. rewrite Hin', Hin1.
    assert (x ∈ l <-> in_frontier (getBlock PDT c) x /\ x <> getBlock PDT c) as ->
      by by rewrite <- (elem_of_list_to_set (C := gset N)).
    setoid_rewrite elem_of_cons. split.
    + intros [[?|(? & ? & nx & ? & ?)]|(? & nx & ? & ? & c' & ? & ?)]; [by left|right..].
      * split; [done|]. exists nx. do 2 (split; [done|]). exists c. auto.
      * split; [done|]. exists nx. do 2 (split; [done|]). exists c'. auto.
    + intros [?|(? & nx & ? & ? & c' & [->|?] & ?)]; [by do 2 left|left; right; eauto|right].
      split; [done|]. exists nx. do 2 (split; [done|]). by exists c'.
Qed.

Lemma frontier_correct fuel : forall b n cache,
  node_of b n -> (height n < fuel)%nat -> cache_ok cache ->
  exists l cache', postdominanceFrontier fuel M PDT b cache = Ok (l, cache') /\
    frontier_set b (list_to_set l) /\ cache_ok cache'.
Proof.
  induction fuel as [|fuel IH]; intros b n cache Hb Hf Hc; [lia|]. cbn [postdominanceFrontier].
  destruct (cache !! b) as [S0|] eqn:E.
  - exists (elements S0), cache. split; [done|]. split; [|done]. rewrite list_to_set_elements_L. by apply Hc.
  - rewrite (proj2 Hb). cbn [of_option rbind].
    destruct (children_spec (postdominanceFrontier fuel M PDT) b n (children PDT n)
      (pdf_local M PDT b) cache Hb Hc) as (PDF & cache' & -> & Hc' & Hin); [done| |].
    { intros c k Hch Hk. destruct (ok_child OK b n c Hb Hch) as [Hcb Hup].
      eapply IH; [exact Hcb| |done]. apply (ok_height OK) in Hup. lia. }
    cbn [rbind fst snd]. do 2 eexists. split; [reflexivity|].
    assert (frontier_set b (list_to_set PDF)) as HS.
    { intros x. rewrite elem_of_list_to_set, Hin, (elem_of_pdf_local b n) by done.
      rewrite (frontier_unfold b n) by done. naive_solver. }
    split; [done|]. intros x S1 HS1. destruct (decide (x = b)) as [->|Hx].
    + rewrite lookup_insert_eq in HS1. by injection HS1 as <-.
    + rewrite lookup_insert_ne in HS1 by congruence. by apply Hc'.
Qed.

(** C29 (pdf). [postdominanceFrontier] returns -- the height of the tree bounds
    its recursion -- and its answer is the postdominance frontier of the block:
    the blocks that branch to a block it postdominates without being strictly
    postdominated by it, the block itself left out; whatever the cache already
    holds, and the cache stays right. *)
Theorem postdominanceFrontier_spec fuel b n cache :
  node_of b n -> (height n < fuel)%nat -> cache_ok cache ->
  exists l cache', postdominanceFrontier fuel M PDT b cache = Ok (l, cache') /\
    (forall x, x ∈ l <-> in_frontier b x /\ x <> b) /\ cache_ok cache'.
Proof.
  intros Hb Hf Hc. destruct (frontier_correct fuel b n cache Hb Hf Hc) as (l & cache' & E & HS & Hc').
  exists l, cache'. split; [done|]. split; [|done]. intros x. specialize (HS x).
  by rewrite elem_of_list_to_set in HS.
Qed.

(** * The iterated frontier *)

(** One step of the closure. *)
Definition frontier_step (b x : BlockId) : Prop := in_frontier b x /\ x <> b.

Context (fuel : nat).
Hypothesis fuel_ok : forall b n, node_of b n -> (height n < fuel)%nat.

Lemma frontier_step_in b x : frontier_step b x -> x ∈ Bs.
Proof. intros [(y & nb & ny & nx & _ & _ & [Hx _] & _) _]. done. Qed.

Lemma frontier_call b cache :
  b ∈ Bs -> cache_ok cache ->
  exists l cache', postdominanceFrontier fuel M PDT b cache = Ok (l, cache') /\
    (forall x, x ∈ l <-> frontier_step b x) /\ cache_ok cache'.
Proof.
  intros Hb Hc. destruct (ok_node OK b Hb) as (n & En & _).
  destruct (frontier_correct fuel b n cache) as (l & cache' & E & HS & Hc'); [done|by eapply fuel_ok|done|].
  exists l, cache'. split; [done|]. split; [|done]. intros x. specialize (HS x).
  by rewrite elem_of_list_to_set in HS.
Qed.

(** The insertions of one frontier. *)
Lemma ipdf_add_spec l : forall S1 T : gset N,
  (forall x, x ∈ (ipdf_add l (S1, T)).1 <-> x ∈ S1 \/ x ∈ l) /\
  (forall x, x ∈ (ipdf_add l (S1, T)).2 <-> x ∈ T \/ (x ∈ l /\ x ∉ S1)).
Proof.
  induction l as [|y l IH]; intros S1 T; [simpl; set_solver|].
  unfold ipdf_add. cbn [fold_left fst snd]. fold (ipdf_add l). case_bool_decide as Hy.
  - destruct (IH S1 T) as [H1 H2]. split; intros x; [rewrite H1|rewrite H2]; set_solver.
  - destruct (IH ({[ y ]} ∪ S1) ({[ y ]} ∪ T)) as [H1 H2].
    split; intros x; [rewrite H1|rewrite H2]; destruct (decide (x = y)); set_solver.
Qed.

(** A round adds the frontiers of [ToCompute], and tells what is new. *)
Lemma round_spec l : forall S0 T cache,
  (forall x, x ∈ l -> x ∈ Bs) -> cache_ok cache ->
  exists (S1 T1 : gset N) cache1,
    rfold (ipdf_visit fuel M PDT) l (S0, T, cache) = Ok ((S1, T1), cache1) /\ cache_ok cache1 /\
    (forall x, x ∈ S1 <-> x ∈ S0 \/ exists b, b ∈ l /\ frontier_step b x) /\
    (forall x, x ∈ T1 <-> x ∈ T \/ ((x ∉ S0) /\ exists b, b ∈ l /\ frontier_step b x)).
Proof.
  induction l as [|b l IH]; intros S0 T cache Hl Hc.
  - exists S0, T, cache. split; [done|]. split; [done|]. set_solver.
  - destruct (frontier_call b cache) as (F & cache1 & E & HF & Hc1); [apply Hl, list_elem_of_here|done|].
    cbn [rfold]. unfold ipdf_visit at 1. cbn [fst snd]. rewrite E. cbn [rbind fst snd].
    destruct (ipdf_add_spec F S0 T) as [H1 H2]. destruct (ipdf_add F (S0, T)) as [S1 T1].
    destruct (IH S1 T1 cache1) as (S2 & T2 & cache2 & E2 & Hc2 & HS2 & HT2);
      [intros; apply Hl; by apply list_elem_of_further|done|].
    exists S2, T2, cache2. split; [exact E2|]. split; [done|]. simpl in H1, H2.
    setoid_rewrite elem_of_cons. split; intros x; [rewrite HS2, H1, HF|rewrite HT2, H1, H2, HF].
    + split.
      * intros [[?|?]|(b' & ? & ?)]; eauto.
      * intros [?|(b' & [->|?] & ?)]; eauto.
    + split.
      * intros [[?|[? ?]]|[Hn (b' & ? & ?)]]; [by left|right; eauto|right; split; [tauto|eauto]].
      * intros [?|[Hn (b' & [->|?] & ?)]]; [by do 2 left|left; right; done|].
        destruct (decide (x ∈ F)) as [HxF|HxF]; [left; right; split; [by apply HF|done]|].
        right. split; [|by eauto]. intros [?|?%HF]; done.
Qed.

(** The rounds, until nothing is new. *)
Lemma loop_spec b rounds : forall T S0 cache,
  cache_ok cache -> (forall x, x ∈ T -> x ∈ S0) ->
  (forall x, x ∈ S0 -> tc frontier_step b x) -> (forall x, frontier_step b x -> x ∈ S0) ->
  (forall x y, x ∈ S0 -> x ∉ T -> frontier_step x y -> y ∈ S0) ->
  (size (Bs ∖ S0) < rounds)%nat ->
  exists S1 cache1, ipdf_loop rounds fuel M PDT T S0 cache = Ok (S1, cache1) /\ cache_ok cache1 /\
    forall x, x ∈ S1 <-> tc frontier_step b x.
Proof.
  induction rounds as [|rounds IH]; intros T S0 cache Hc HT Hr Hb Hcl Hsz; [lia|].
  assert (forall x, x ∈ S0 -> x ∈ Bs) as HBs.
  { intros x Hx%Hr. clear -Hx. induction Hx; eauto using frontier_step_in. }
  cbn [ipdf_loop]. unfold ipdf_round.
  destruct (round_spec (elements T) S0 ∅ cache) as (S1 & T1 & cache1 & -> & Hc1 & HS1 & HT1); [set_solver|done|].
  cbn [rbind]. setoid_rewrite elem_of_elements in HS1. setoid_rewrite elem_of_elements in HT1.
  case_bool_decide as He.
  - exists S1, cache1. split; [done|]. split; [done|].
    assert (forall x, x ∈ S1 <-> x ∈ S0) as Heq.
    { intros x. rewrite HS1. split; [|by left]. intros [?|Hx]; [done|].
      destruct (decide (x ∈ S0)); [done|]. assert (x ∈ T1) by (apply HT1; auto). set_solver. }
    intros x. rewrite Heq. split; [apply Hr|].
    assert (forall x y, x ∈ S0 -> frontier_step x y -> y ∈ S0) as Hcl'.
    { intros y z Hy Hz. destruct (decide (y ∈ T)); [apply Heq, HS1; eauto|eauto]. }
    assert (forall a c, tc frontier_step a c -> a ∈ S0 -> c ∈ S0) as Htc
      by (induction 1; eauto).
    intros Ht. inversion Ht; subst; eauto.
  - apply IH; [done|intros x Hx; apply HS1; apply HT1 in Hx as [?|[? ?]]; [set_solver|by right]| | | |].
    + intros x [?|(y & Hy & Hxy)]%HS1; [auto|]. eapply tc_r; [apply Hr, HT, Hy|done].
    + intros x Hx. apply HS1. left. auto.
    + intros x y Hx HxT Hxy. apply HS1 in Hx. destruct (decide (x ∈ S0)) as [H0|H0].
      * apply HS1. destruct (decide (x ∈ T)); [right; eauto|left; eauto].
      * destruct Hx as [?|Hx]; [done|]. destruct HxT. apply HT1. auto.
    + assert (exists x, x ∈ T1) as [x Hx] by (by apply set_choose_L).
      apply HT1 in Hx as [?|[Hx0 Hx]]; [set_solver|].
      assert (x ∈ Bs) as HxB by (destruct Hx as (? & _ & ?); by eapply frontier_step_in).
      assert (Bs ∖ S1 ⊂ Bs ∖ S0) as Hsub.
      { split; [intros y Hy; apply elem_of_difference in Hy as [? Hy]; apply elem_of_difference;
          split; [done|]; intros ?; apply Hy, HS1; by left|].
        intros Hsub. assert (x ∈ Bs ∖ S1) as Hx1 by (apply Hsub; set_solver).
        apply elem_of_difference in Hx1 as [_ Hx1]. apply Hx1, HS1. by right. }
      apply subset_size in Hsub. lia.
Qed.

Definition ipdf_cache_ok (c : Cache) : Prop :=
  forall b S0, c !! b = Some S0 -> forall x, x ∈ S0 <-> tc frontier_step b x.

(** The answer, and what it leaves in the caches. *)
Lemma iterated_frontier_closure b rounds c1 c2 :
  b ∈ Bs -> cache_ok c1 -> ipdf_cache_ok c2 -> (size Bs < rounds)%nat ->
  exists l c1' c2', iterated_postdominance_frontier rounds fuel M PDT b c1 c2 = Ok (l, c1', c2') /\
    (forall x, x ∈ l <-> tc frontier_step b x) /\ cache_ok c1' /\ ipdf_cache_ok c2'.
Proof.
  intros Hb H1 H2 Hr. unfold iterated_postdominance_frontier.
  destruct (c2 !! b) as [S0|] eqn:E.
  { exists (elements S0), c1, c2. split; [done|]. split; [|done]. intros x.
    rewrite elem_of_elements. by apply H2. }
  destruct (frontier_call b c1 Hb H1) as (F & c1' & -> & HF & H1'). cbn [rbind fst snd].
  case_bool_decide as HF0.
  { exists [], c1', c2. split; [done|]. split; [|done]. intros x. split; [set_solver|]. subst F.
    intros Ht. assert (exists y, frontier_step b y) as [y Hy] by (inversion Ht; eauto). apply HF in Hy. set_solver. }
  destruct (loop_spec b rounds (list_to_set F) (list_to_set F) c1') as (S1 & c1'' & -> & H1'' & HS1).
  - done.
  - done.
  - intros x Hx%elem_of_list_to_set. by apply tc_once, HF.
  - intros x Hx%HF. by apply elem_of_list_to_set.
  - set_solver.
  - assert (size (Bs ∖ list_to_set F) <= size Bs)%nat by (apply subseteq_size; set_solver). lia.
  - cbn [rbind fst snd]. do 3 eexists. split; [reflexivity|].
    assert (forall x, x ∈ F ++ elements S1 <-> tc frontier_step b x) as Hl.
    { intros x. rewrite elem_of_app, elem_of_elements, HS1, HF. split; [intros [Hx|Hx]; [apply tc_once; exact Hx|exact Hx]|auto]. }
    split; [done|]. split; [done|]. intros b' S0 Hb'. destruct (decide (b' = b)) as [->|Hne].
    + rewrite lookup_insert_eq in Hb'. injection Hb' as <-. intros x. by rewrite elem_of_list_to_set, Hl.
    + rewrite lookup_insert_ne in Hb' by congruence. by apply H2.
Qed.

(** C34 (ipdf). [iterated_postdominance_frontier] returns -- after at most one
    round more than there are blocks -- and answers the transitive closure of
    the frontier, PDF+; both caches stay right. *)
Theorem iterated_frontier_spec b rounds c1 c2 :
  b ∈ Bs -> cache_ok c1 -> ipdf_cache_ok c2 -> (size Bs < rounds)%nat ->
  exists l c1' c2', iterated_postdominance_frontier rounds fuel M PDT b c1 c2 = Ok (l, c1', c2') /\
    (forall x, x ∈ l <-> tc frontier_step b x) /\ cache_ok c1' /\ ipdf_cache_ok c2'.
Proof. exact (iterated_frontier_closure b rounds c1 c2). Qed.

End Frontier.

(** * The frontier of [if (c) MPI_Barrier(comm);]

    The node of a block is its number; the virtual root is node 9. *)

Definition diamond_PDT : PostDominatorTree :=
  {| getNode := fun b => if bool_decide (b ∈ [0; 1; 2]%N) then Some b else None;
     getIDom := fun n => find_in None [(0, Some 2); (1, Some 2); (2, Some 9)]%N n;
     children := fun n => find_in [] [(2, [0; 1]); (9, [2])]%N n;
     getBlock := fun n => n |}.

Definition diamond_height (n : N) : nat := find_in 0%nat [(2%N, 1%nat); (9%N, 2%nat)] n.

Lemma diamond_node b n : node_of diamond_PDT {[ 0; 1; 2 ]}%N b n -> n = b /\ b ∈ [0; 1; 2]%N.
Proof. intros [Hb Hn]. simpl in Hn. case_bool_decide; [|done]. by injection Hn. Qed.

Lemma diamond_up n m : up diamond_PDT n m -> (n = 0 /\ m = 2 \/ n = 1 /\ m = 2 \/ n = 2 /\ m = 9)%N.
Proof.
  unfold up. cbn -[N.eqb]. unfold find_in. cbn -[N.eqb].
  destruct (N.eqb_spec 0 n); [intros [= <-]; auto|].
  destruct (N.eqb_spec 1 n); [intros [= <-]; auto|].
  destruct (N.eqb_spec 2 n); [intros [= <-]; auto|discriminate].
Qed.

Lemma diamond_pdt_ok : pdt_ok diamond diamond_PDT {[ 0; 1; 2 ]}%N diamond_height.
Proof.
  split.
  - intros b Hb. exists b. simpl. rewrite bool_decide_true by set_solver. done.
  - intros b p Hb Hp. assert (b ∈ [0; 1; 2]%N) as Hb' by set_solver. enum Hb'; simpl in Hp; set_solver.
  - intros b n c [-> Hb]%diamond_node Hc. enum Hb; simpl in Hc; enum Hc;
      (split; [split; [set_solver|reflexivity]|reflexivity]).
  - intros b n bc c _ _ Hu. apply diamond_up in Hu as [[-> ->]|[[-> ->]|[-> ->]]]; set_solver.
  - intros b n m k _ _ Hu. exists m. apply diamond_up in Hu as [[-> _]|[[-> _]|[-> _]]];
      (split; [set_solver|reflexivity]).
  - intros n m Hu. apply diamond_up in Hu as [[-> ->]|[[-> ->]|[-> ->]]]; apply Nat.ltb_lt; reflexivity.
  - intros y p np ny m [-> Hy]%diamond_node Hp [-> Hpb]%diamond_node Hu.
    enum Hy; simpl in Hp; enum Hp; vm_compute in Hu; injection Hu as <-;
      first [constructor | apply rtc_once; reflexivity].
Qed.

Lemma postdominanceFrontier_witness :
  exists c, postdominanceFrontier 3 diamond diamond_PDT 1 ∅ = Ok ([0%N], c) /\
    in_frontier diamond diamond_PDT {[ 0; 1; 2 ]}%N 1 0.
Proof.
  destruct (postdominanceFrontier_spec _ _ _ _ diamond_pdt_ok 3 1%N 1%N ∅) as (l & c & E & Hl & _).
  - split; [set_solver|reflexivity].
  - apply Nat.ltb_lt. reflexivity.
  - intros b S0. by rewrite lookup_empty.
  - exists c. rewrite E. assert (l = [0%N]) as -> by (vm_compute in E; congruence).
    split; [done|]. by apply Hl, list_elem_of_here.
Defined.

Lemma iterated_frontier_witness :
  exists l c1 c2, iterated_postdominance_frontier 4 3 diamond diamond_PDT 1 ∅ ∅ = Ok (l, c1, c2) /\
    0%N ∈ l.
Proof.
  destruct (iterated_frontier_spec _ _ _ _ diamond_pdt_ok 3) with (b := 1%N) (rounds := 4%nat)
    (c1 := ∅ : Cache) (c2 := ∅ : Cache) as (l & c1 & c2 & E & _ & _).
  - intros b n [-> Hb]%diamond_node. enum Hb; apply Nat.ltb_lt; reflexivity.
  - set_solver.
  - intros b S0. by rewrite lookup_empty.
  - intros b S0. by rewrite lookup_empty.
  - apply Nat.ltb_lt. reflexivity.
  - exists l, c1, c2. split; [exact E|]. vm_compute in E. injection E as <- _ _. set_solver.
Defined.
