(* ===== verification/Collectives.v ===== *)
(** The collectives PARCOACH knows (Collectives.h, Collectives.cpp, the
    [*Registry.def] tables), the activated paradigm (Options.cpp) and the
    communicators of a module (MPICommAnalysis.cpp). *)
From S2P Require Import Prelude IR.
#[local] Open Scope string_scope.
#[local] Open Scope Z_scope.

Inductive Paradigm := MPI | OMP | CUDA | RMA | UPC.

#[export] Instance Paradigm_eq_dec : EqDecision Paradigm.
Proof. solve_decision. Defined.

(** Which paradigms the build enables (the [PARCOACH_ENABLE_*] macros). *)
Record BuildConfig := { enable_openmp : bool; enable_upc : bool; enable_cuda : bool }.

Record Collective := {
  Name : string;
  K : nat;          (** position in [enum Kind] *)
  P_ : Paradigm;
  CommArgId : Z     (** meaningful for MPI; [-1] when there is no communicator *)
}.

#[export] Instance Collective_eq_dec : EqDecision Collective.
Proof. solve_decision. Defined.

(** MPIRegistry.def *)
Definition MPIRegistry : list (string * Z) := [
  ("MPI_Barrier", 0);
  ("MPI_Comm_split", 0);
  ("MPI_Comm_create", 0);
  ("MPI_Comm_dup", 0);
  ("MPI_Comm_dup_with_info", 0);
  ("MPI_Ibarrier", 0);
  ("MPI_Bcast", 4);
  ("MPI_Ibcast", 4);
  ("MPI_Allreduce", 5);
  ("MPI_Reduce_scatter", 5);
  ("MPI_Reduce_scatter_block", 5);
  ("MPI_Scan", 5);
  ("MPI_Exscan", 5);
  ("MPI_Iallreduce", 5);
  ("MPI_Ireduce_scatter_block", 5);
  ("MPI_Ireduce_scatter", 5);
  ("MPI_Iscan", 5);
  ("MPI_Iexscan", 5);
  ("MPI_Reduce", 6);
  ("MPI_Ireduce", 6);
  ("MPI_Allgather", 6);
  ("MPI_Alltoall", 6);
  ("MPI_Iallgather", 6);
  ("MPI_Ialltoall", 6);
  ("MPI_Scatter", 7);
  ("MPI_Gather", 7);
  ("MPI_Igather", 7);
  ("MPI_Allgatherv", 7);
  ("MPI_Iscatter", 7);
  ("MPI_Iallgatherv", 7);
  ("MPI_Scatterv", 8);
  ("MPI_Gatherv", 8);
  ("MPI_Alltoallv", 8);
  ("MPI_Alltoallw", 8);
  ("MPI_Igatherv", 8);
  ("MPI_Iscatterv", 8);
  ("MPI_Ialltoallv", 8);
  ("MPI_Ialltoallw", 8);
  ("MPI_Finalize", -1)
].

(** OMPRegistry.def *)
Definition OMPRegistry : list string := ["__kmpc_barrier"].

(** UPCRegistry.def *)
Definition UPCRegistry : list string := [
  "_upcr_wait";
  "_upcr_all_broadcast";
  "_upcr_all_reduceD";
  "_upcr_all_gather";
  "_upcr_all_scatter";
  "_upcr_all_reduceC";
  "_upcr_all_reduceUC";
  "_upcr_all_reduceS";
  "_upcr_all_reduceUS";
  "_upcr_all_reduceI";
  "_upcr_all_reduceUI";
  "_upcr_all_reduceL";
  "_upcr_all_reduceUL";
  "_upcr_all_reduceF";
  "_upcr_all_reduceLD"
].

(** CUDARegistry.def: name and function name *)
Definition CUDARegistry : list (string * string) := [("Barrier", "llvm.nvvm.barrier0")].

Section Registry.
Context (cfg : BuildConfig).

Definition OMP_entries : list string := if enable_openmp cfg then OMPRegistry else [].
Definition UPC_entries : list string := if enable_upc cfg then UPCRegistry else [].
Definition CUDA_entries : list (string * string) := if enable_cuda cfg then CUDARegistry else [].

(** The constants of [enum class Kind], in order; [C_Last] closes them. *)
Definition Kinds : list string :=
  MPIRegistry.*1 ++ OMP_entries ++ UPC_entries ++ CUDA_entries.*1.

Definition kind_of (name : string) : nat :=
  match list_find (fun n => n = name) Kinds with Some (i, _) => i | None => length Kinds end.

Definition C_Last : nat := length Kinds.

(** The initializer list of [Registry::Data]: every entry is keyed by the
    stringized [Name] of its macro. *)
Definition Registry_init : list (string * Collective) :=
  map (fun '(n, c) => (n, {| Name := n; K := kind_of n; P_ := MPI; CommArgId := c |})) MPIRegistry ++
  map (fun n => (n, {| Name := n; K := kind_of n; P_ := OMP; CommArgId := -1 |})) OMP_entries ++
  map (fun n => (n, {| Name := n; K := kind_of n; P_ := UPC; CommArgId := -1 |})) UPC_entries ++
  map (fun '(n, f) => (n, {| Name := f; K := kind_of n; P_ := CUDA; CommArgId := -1 |})) CUDA_entries.

(** [StringMap]'s initializer list keeps the first value of a key. *)
Definition Registry_get (key : string) : option Collective :=
  snd <$> List.find (fun '(k, _) => bool_decide (k = key)) Registry_init.

(** * Options *)

(** The flags of the command line: the [-check-*] switches and [-check]. *)
Record Options := {
  OptMpiTaint : bool; OptOmpTaint : bool; OptUpcTaint : bool; OptCudaTaint : bool;
  Check : Paradigm
}.

(** The constructor's cascade: the activated paradigm. *)
Definition ActivatedParadigm (o : Options) : Paradigm :=
  if OptMpiTaint o then MPI
  else if enable_openmp cfg && OptOmpTaint o then OMP
  else if enable_upc cfg && OptUpcTaint o then UPC
  else if enable_cuda cfg && OptCudaTaint o then CUDA
  else Check o.

Definition isActivated (o : Options) (p : Paradigm) : bool := bool_decide (p = ActivatedParadigm o).

Definition enabled (o : Options) (c : Collective) : bool := isActivated o (P_ c).

(** [Collective::find] on the function's name. *)
Definition find (o : Options) (name : string) : option Collective :=
  match Registry_get name with
  | Some c => if enabled o c then Some c else None
  | None => None
  end.

Definition isCollective (o : Options) (name : string) : bool :=
  match find o name with Some _ => true | None => false end.

End Registry.

(** * Communicators *)

(** The loop of [getCommunicator]: follow the loads. [n] bounds the chain. *)
Fixpoint skip_loads (M : Module_) (n : nat) (v : ValueId) : option ValueId :=
  match loadPointer M v with
  | None => Some v
  | Some p => match n with O => None | S n' => skip_loads M n' p end
  end.

(** [MPICollective::getCommunicator]: no value for [MPI_Finalize]; reading an
    operand the call does not have is an assertion of LLVM. *)
Definition getCommunicator (M : Module_) (n : nat) (c : Collective) (args : list ValueId) :
    res (option ValueId) :=
  if CommArgId c <? 0 then Ok None
  else let* v := of_option (args !! Z.to_nat (CommArgId c)) in
       match skip_loads M n v with Some w => Ok (Some w) | None => OutOfFuel end.

Definition isMPI (c : Collective) : bool := bool_decide (P_ c = MPI).

(** [MPICommAnalysis::run]: the communicators of the calls of the enabled MPI
    collectives, as a set. *)
Definition MPICommAnalysis_run (cfg : BuildConfig) (o : Options) (M : Module_) (n : nat) :
    res (gset ValueId) :=
  rfold (fun Res F =>
    match find cfg o (getName (function M F)) with
    | Some c =>
        if negb (isMPI c) || (CommArgId c <? 0) then Ok Res
        else rfold (fun Res args =>
               let* v := getCommunicator M n c args in
               match v with Some v => Ok ({[ v ]} ∪ Res) | None => Ok Res end)
             (callUsers M F) Res
    | None => Ok Res
    end) (functions M) ∅.

(** * What the registry guarantees *)

Definition registered (cfg : BuildConfig) (c : Collective) : Prop := c ∈ (Registry_init cfg).*2.

(** Checking a statement on every build configuration. *)
Ltac all_configs cfg := destruct cfg as [[] [] []].

Lemma Registry_keys_NoDup cfg : NoDup (Registry_init cfg).*1.
Proof. all_configs cfg; apply (bool_decide_unpack _); vm_compute; exact I. Qed.

Lemma Registry_names_NoDup cfg : NoDup (Name <$> (Registry_init cfg).*2).
Proof. all_configs cfg; apply (bool_decide_unpack _); vm_compute; exact I. Qed.

Lemma Registry_kinds cfg : K <$> (Registry_init cfg).*2 = seq 0 (C_Last cfg).
Proof. all_configs cfg; vm_compute; reflexivity. Qed.

Lemma Registry_get_in cfg key c :
  Registry_get cfg key = Some c <-> (key, c) ∈ Registry_init cfg.
Proof.
  unfold Registry_get. pose proof (Registry_keys_NoDup cfg) as Hn.
  induction (Registry_init cfg) as [|[k d] l IH]; simpl.
  - split; [discriminate|by intros ?%not_elem_of_nil].
  - apply NoDup_cons in Hn as [Hk Hn]. rewrite elem_of_cons. case_bool_decide as E; simpl.
    + subst k. split; [intros [= <-]; by left|]. intros [[= <-]|Hin]; [done|].
      destruct Hk. apply list_elem_of_fmap. by exists (key, c).
    + rewrite IH by done. split; [by right|]. intros [[= -> ->]|]; done.
Qed.

(** The key of an entry is the collective's name, CUDA's excepted. *)
Lemma Registry_key_name cfg :
  Forall (fun '(k, c) => P_ c <> CUDA -> k = Name c) (Registry_init cfg).
Proof.
  unfold Registry_init. rewrite !Forall_app. repeat split;
    apply Forall_map, Forall_forall; intros x _; try destruct x; simpl; congruence.
Qed.

(** No two collectives share a name. *)
Lemma registered_name_inj cfg c d :
  registered cfg c -> registered cfg d -> Name c = Name d -> c = d.
Proof.
  unfold registered. intros Hc Hd E.
  apply list_elem_of_lookup in Hc as [i Hi], Hd as [j Hj].
  assert (i = j) as ->; [|congruence].
  apply (NoDup_lookup (Name <$> (Registry_init cfg).*2) i j (Name c)); [apply Registry_names_NoDup| |].
  - rewrite list_lookup_fmap, Hi. done.
  - rewrite list_lookup_fmap, Hj. simpl. by rewrite E.
Qed.

Lemma registered_find cfg o name c : find cfg o name = Some c -> registered cfg c.
Proof.
  unfold find. destruct (Registry_get cfg name) as [d|] eqn:E; [|discriminate].
  destruct (enabled _ _ _); [|discriminate]. intros [= <-].
  apply Registry_get_in in E. apply list_elem_of_fmap. by exists (name, d).
Qed.

(** [Collective::find] answers exactly the registered collective of
    that name of the one activated paradigm, and nothing when the function is
    not a collective of it -- for MPI, OpenMP and UPC. *)
Theorem find_spec cfg o name c :
  ActivatedParadigm cfg o <> CUDA ->
  (find cfg o name = Some c <->
   registered cfg c /\ P_ c = ActivatedParadigm cfg o /\ Name c = name).
Proof.
  intros Hp. split.
  - intros Hf. pose proof (registered_find _ _ _ _ Hf) as Hr. split; [done|].
    revert Hf. unfold find, enabled, isActivated.
    destruct (Registry_get cfg name) as [d|] eqn:E; [|discriminate].
    case_bool_decide as Ha; [|discriminate]. intros [= ->]. split; [done|].
    apply Registry_get_in in E. pose proof (Registry_key_name cfg) as Hk.
    rewrite Forall_forall in Hk. symmetry. apply (Hk _ E). congruence.
  - intros (Hr & Ha & <-). unfold registered in Hr. apply list_elem_of_fmap in Hr as ([k d] & -> & Hin).
    simpl in *. pose proof (Registry_key_name cfg) as Hk. rewrite Forall_forall in Hk.
    rewrite <- (Hk _ Hin) by congruence.
    unfold find. apply Registry_get_in in Hin as ->. unfold enabled, isActivated.
    by rewrite bool_decide_true.
Qed.

Definition full_build : BuildConfig :=
  {| enable_openmp := true; enable_upc := true; enable_cuda := true |}.
Definition mpi_options : Options :=
  {| OptMpiTaint := true; OptOmpTaint := false; OptUpcTaint := false; OptCudaTaint := false;
     Check := MPI |}.
Definition MPI_Barrier_coll : Collective :=
  {| Name := "MPI_Barrier"; K := 0; P_ := MPI; CommArgId := 0 |}.

Lemma find_spec_witness :
  find full_build mpi_options "MPI_Barrier" = Some MPI_Barrier_coll /\
  registered full_build MPI_Barrier_coll.
Proof.
  assert (find full_build mpi_options "MPI_Barrier" = Some MPI_Barrier_coll) as H by reflexivity.
  split; [exact H|].
  apply (find_spec full_build mpi_options "MPI_Barrier" MPI_Barrier_coll) in H as [Hr _];
    [exact Hr|discriminate].
Defined.

(** The colours the instrumentation passes to the dynamic
    checks tell collectives apart: the kinds of the registry are pairwise
    different and below [C_Last], the colour of a return. *)
Theorem kinds_identify cfg c d :
  registered cfg c -> registered cfg d ->
  (K c < C_Last cfg)%nat /\ (K c = K d -> c = d).
Proof.
  intros Hc Hd. unfold registered in *.
  apply list_elem_of_lookup in Hc as [i Hi], Hd as [j Hj].
  assert (forall n e, (Registry_init cfg).*2 !! n = Some e -> K e = n /\ (n < C_Last cfg)%nat) as Hn.
  { intros n e He. assert ((K <$> (Registry_init cfg).*2) !! n = Some (K e)) as Hl
      by (rewrite list_lookup_fmap, He; done).
    rewrite Registry_kinds in Hl. apply lookup_seq in Hl. lia. }
  destruct (Hn _ _ Hi) as [-> ?], (Hn _ _ Hj) as [-> ?]. split; [done|].
  intros ->. congruence.
Qed.

Lemma kinds_identify_witness : (0 < C_Last full_build)%nat.
Proof.
  apply (kinds_identify full_build MPI_Barrier_coll MPI_Barrier_coll);
    eapply registered_find with (o := mpi_options) (name := "MPI_Barrier"); reflexivity.
Defined.

(** The one CUDA collective is keyed by its macro name, not by the
    function it stands for: no CUDA barrier is ever found. *)
Lemma cuda_barrier_not_found cfg o :
  find cfg o "llvm.nvvm.barrier0" = None.
Proof. unfold find. by all_configs cfg. Qed.
