(* ===== verification/CollectiveList.v ===== *)
(** Lists of collectives (CollectiveList.h, CollectiveList.cpp): the elements,
    the lists with their optional loop header, the operations, and the equality
    the analysis uses, which compares printed forms. *)
From Stdlib Require Import Ascii.
From S2P Require Import Prelude IR Utils Collectives.

(** The fields of [class CollectiveList]. *)
Record CL (E : Type) := MkCL { LoopHeader_ : option BlockId; List_ : list E }.
Arguments MkCL {E} _ _.
Arguments LoopHeader_ {E} _.
Arguments List_ {E} _.

(** The classes deriving from [Element]; [NavsElement] is "not a valid set". *)
Inductive Element :=
| CollElement (Value : Collective)
| NavsElement
| CollListElement (Value : CL Element).

Abbreviation CollectiveList := (CL Element).

Definition empty_CL : CollectiveList := MkCL None [].

(** Induction over elements, with the hypothesis on every element of a nested
    list. *)
Lemma Element_nested_ind (P : Element -> Prop) :
  (forall c, P (CollElement c)) -> P NavsElement ->
  (forall h l, Forall P l -> P (CollListElement (MkCL h l))) -> forall e, P e.
Proof.
  intros Hc Hn Hl. fix IH 1. intros [c| |[h l]]; [apply Hc|apply Hn|]. apply Hl.
  induction l as [|e l IHl]; constructor; [apply IH|exact IHl].
Qed.

(** [Element::copy] and the copy constructor. *)
Fixpoint copy (e : Element) : Element :=
  match e with
  | CollElement c => CollElement c
  | NavsElement => NavsElement
  | CollListElement v => CollListElement (MkCL (LoopHeader_ v) (map copy (List_ v)))
  end.

Definition copy_CL (From : CollectiveList) : CollectiveList :=
  MkCL (LoopHeader_ From) (map copy (List_ From)).

(** [CollectiveList(BasicBlock *Header, CollectiveList const &LoopList)]. *)
Definition loop_CL (Header : BlockId) (LoopList : CollectiveList) : CollectiveList :=
  MkCL (Some Header) (List_ (copy_CL LoopList)).

Fixpoint Element_navs (e : Element) : bool :=
  match e with
  | CollElement _ => false
  | NavsElement => true
  | CollListElement v => match List_ v with [] => false | x :: _ => Element_navs x end
  end.

(** [CollectiveList::navs]: only the front element counts. *)
Definition navs (l : CollectiveList) : bool :=
  match List_ l with [] => false | x :: _ => Element_navs x end.

(** [std::insert_iterator] over the list: the container and the position. *)
Definition Inserter : Type := list Element * nat.

Definition Inserter_assign (it : Inserter) (e : Element) : Inserter :=
  (take it.2 it.1 ++ e :: drop it.2 it.1, S it.2).

(** [CollectiveList::add]. *)
Definition add (Other : CollectiveList) (it : Inserter) : Inserter :=
  match List_ Other with
  | [] => it
  | _ =>
      match LoopHeader_ Other with
      | Some _ => Inserter_assign it (CollListElement (copy_CL Other))
      | None => fold_left (fun it e => Inserter_assign it (copy e)) (List_ Other) it
      end
  end.

Definition extendWith (l Other : CollectiveList) : CollectiveList :=
  MkCL (LoopHeader_ l) (add Other (List_ l, length (List_ l))).1.

Definition prependWith (l Other : CollectiveList) : CollectiveList :=
  MkCL (LoopHeader_ l) (add Other (List_ l, O)).1.

(** [extendWith<ElementTy>]: [emplace_back]. *)
Definition extendWithElement (l : CollectiveList) (e : Element) : CollectiveList :=
  MkCL (LoopHeader_ l) (List_ l ++ [e]).

Abbreviation BBToCollListMap := (gmap BlockId CollectiveList).

Section Print.
#[local] Open Scope string_scope.
(** [printAsOperand(Err, false)] of a block. *)
Context (printAsOperand : BlockId -> string).

(** The loop that prints the elements, separated by commas. *)
Fixpoint print_list (print : Element -> string) (First : bool) (l : list Element) : string :=
  match l with
  | [] => ""
  | e :: r => (if First then "" else ", ") +:+ print e +:+ print_list print false r
  end.

Fixpoint Element_toString (e : Element) : string :=
  match e with
  | CollElement c => Name c
  | NavsElement => "NAVS"
  | CollListElement v =>
      match LoopHeader_ v with Some h => "*" +:+ printAsOperand h | None => "" end +:+
      "(" +:+ print_list Element_toString true (List_ v) +:+ ")"
  end.

Definition toString (l : CollectiveList) : string :=
  match LoopHeader_ l with Some h => "*" +:+ printAsOperand h | None => "" end +:+
  "(" +:+ print_list Element_toString true (List_ l) +:+ ")".

(** [operator==] and [operator!=]. *)
Definition CL_eqb (a b : CollectiveList) : bool := bool_decide (toString a = toString b).

(** [NeighborsAreNAVS]: [std::adjacent_find] of two neighbours whose lists
    differ; a list the map does not hold is an assertion failure. *)
Fixpoint NeighborsAreNAVS (Computed : BBToCollListMap) (Neighbors : list BlockId) : res bool :=
  match Neighbors with
  | A :: ((B :: _) as r) =>
      match Computed !! A, Computed !! B with
      | Some la, Some lb => if negb (CL_eqb la lb) then Ok true else NeighborsAreNAVS Computed r
      | _, _ => Broken
      end
  | _ => Ok false
  end.

End Print.

(** * What a block contributes *)

Section Create.
Context (cfg : BuildConfig) (opts : Options) (M : Module_) (loads : nat).
(** [PTACG.getIndirectCallMap()]. *)
Context (IndirectCallMap : InstId -> option (list FuncId)).

(** [shouldIgnore]: the collective works on another communicator. *)
Definition shouldIgnore (args : list ValueId) (Coll : Collective) (Comm : option ValueId) : res bool :=
  if negb (isMPI Coll) || bool_decide (Comm = None) then Ok false
  else let* c := getCommunicator M loads Coll args in
       Ok (negb (bool_decide (c = None)) && negb (bool_decide (c = Comm))).

(** The lambda [ActOnFunction]. The entry block of a declaration is the
    sentinel of its empty list of blocks, which no map holds. *)
Definition ActOnFunction (CollLists : BBToCollListMap) (Comm : option ValueId)
    (args : list ValueId) (Current : CollectiveList) (F : FuncId) : res CollectiveList :=
  match find cfg opts (getName (function M F)) with
  | Some Coll =>
      let* ign := shouldIgnore args Coll Comm in
      Ok (if ign then Current else extendWithElement Current (CollElement Coll))
  | None =>
      match getEntryBlock M F with
      | Some entry =>
          match CollLists !! entry with
          | Some ListForFunc => Ok (extendWith Current ListForFunc)
          | None => Ok Current
          end
      | None => Ok Current
      end
  end.

(** The body of the loop over the calls of the block. *)
Definition visit_call (CollLists : BBToCollListMap) (Comm : option ValueId)
    (Current : CollectiveList) (I : Instruction) : res CollectiveList :=
  match I with
  | CallInst id None args _ =>
      match IndirectCallMap id with
      | None => Ok Current
      | Some Found =>
          rfold (fun Current MayCall =>
            if isIntrinsicDbgFunction M MayCall then Ok Current
            else ActOnFunction CollLists Comm args Current MayCall) Found Current
      end
  | CallInst _ (Some F) args _ => ActOnFunction CollLists Comm args Current F
  | _ => Ok Current
  end.

Definition CreateFromBB (CollLists : BBToCollListMap) (NeighborsNAVS : bool) (BB : BlockId)
    (Comm : option ValueId) : res CollectiveList :=
  if NeighborsNAVS then Ok (extendWithElement empty_CL NavsElement)
  else rfold (visit_call CollLists Comm) (insts (block M BB)) empty_CL.

End Create.

(** * The operations on the elements *)

Lemma copy_id e : copy e = e.
Proof.
  induction e as [c| |h l IH] using Element_nested_ind; simpl; [done..|].
  do 2 f_equal. induction IH as [|e l He _ IHl]; simpl; congruence.
Qed.

Lemma map_copy l : map copy l = l.
Proof. induction l as [|e l IH]; simpl; [done|]. by rewrite copy_id, IH. Qed.

Lemma copy_CL_id l : copy_CL l = l.
Proof. destruct l. unfold copy_CL. simpl. by rewrite map_copy. Qed.

(** What a list contributes when it is pushed into another one: nothing when
    it is empty, one element when it is a loop, its elements otherwise. *)
Definition inlined (l : CollectiveList) : list Element :=
  match List_ l with
  | [] => []
  | es => match LoopHeader_ l with Some _ => [CollListElement l] | None => es end
  end.

Lemma Inserter_assign_at l1 l2 e :
  Inserter_assign (l1 ++ l2, length l1) e = ((l1 ++ [e]) ++ l2, length (l1 ++ [e])).
Proof.
  unfold Inserter_assign. simpl. rewrite take_app_length, drop_app_length, length_app. simpl.
  f_equal; [by rewrite <- app_assoc|lia].
Qed.

Lemma add_at Other l1 l2 : (add Other (l1 ++ l2, length l1)).1 = l1 ++ inlined Other ++ l2.
Proof.
  unfold add, inlined. destruct (List_ Other) as [|e es] eqn:El; [done|].
  destruct (LoopHeader_ Other).
  - rewrite Inserter_assign_at, copy_CL_id. simpl. by rewrite <- app_assoc.
  - clear El. generalize (e :: es) as l. clear e es. intros l. revert l1.
    induction l as [|x l IH]; intros l1; [done|]. cbn [fold_left].
    rewrite Inserter_assign_at, IH, copy_id, <- app_assoc. done.
Qed.

Lemma List_extendWith l o : List_ (extendWith l o) = List_ l ++ inlined o.
Proof.
  unfold extendWith. simpl. pose proof (add_at o (List_ l) []) as H.
  by rewrite !app_nil_r in H.
Qed.

Lemma List_prependWith l o : List_ (prependWith l o) = inlined o ++ List_ l.
Proof. unfold prependWith. simpl. apply (add_at o [] (List_ l)). Qed.

Lemma LoopHeader_extendWith l o : LoopHeader_ (extendWith l o) = LoopHeader_ l.
Proof. done. Qed.



(** * The printed form determines the list *)

(** No character of [s] is [c]. *)
Fixpoint avoids (bad : list Ascii.ascii) (s : string) : bool :=
  match s with
  | EmptyString => true
  | String c r => bool_decide (c ∉ bad) && avoids bad r
  end.

Definition specials : list Ascii.ascii := ["("; ")"; ","; "*"]%char.

(** [s] starts with one of the characters of [cs]. *)
Definition starts (cs : list Ascii.ascii) (s : string) : Prop :=
  match s with EmptyString => False | String c _ => c ∈ cs end.

Lemma cons_app_string c a b : (String c a +:+ b)%string = String c (a +:+ b).
Proof. done. Qed.

Lemma nil_app_string a : ""%string +:+ a = a.
Proof. done. Qed.

Lemma char_app_string c a : String c "" +:+ a = String c a.
Proof. done. Qed.

Lemma string_app_assoc a b c : (a +:+ b) +:+ c = a +:+ b +:+ c.
Proof. induction a as [|x a IH]; [done|]. rewrite !cons_app_string. by rewrite IH. Qed.

(** Right-nested text, its separators as single characters. *)
Ltac flat_text H := rewrite ?nil_app_string, ?string_app_assoc, ?char_app_string, ?nil_app_string in H.

(** Two words without the characters of [bad], each followed by one of them. *)
Lemma split_unique bad a1 a2 s1 s2 :
  avoids bad a1 = true -> avoids bad a2 = true -> starts bad s1 -> starts bad s2 ->
  a1 +:+ s1 = a2 +:+ s2 -> a1 = a2 /\ s1 = s2.
Proof.
  revert a2. induction a1 as [|c a1 IH]; intros [|d a2] H1 H2 S1 S2 E.
  - done.
  - exfalso. rewrite nil_app_string, cons_app_string in E. subst s1. cbn in H2, S1. apply andb_true_iff in H2 as [H2%bool_decide_eq_true _].
    contradiction.
  - exfalso. rewrite nil_app_string, cons_app_string in E. subst s2. cbn in H1, S2. apply andb_true_iff in H1 as [H1%bool_decide_eq_true _].
    contradiction.
  - rewrite !cons_app_string in E. injection E as -> E. cbn in H1, H2.
    apply andb_true_iff in H1 as [_ H1], H2 as [_ H2].
    destruct (IH a2 H1 H2 S1 S2 E) as [-> ->]. done.
Qed.

(** Names of registered collectives: not empty, not "NAVS", no special
    character. *)
Definition clean (s : string) : bool :=
  avoids specials s && negb (bool_decide (s = "NAVS"%string)) && negb (bool_decide (s = ""%string)).

Lemma registered_clean cfg c : registered cfg c -> clean (Name c) = true.
Proof.
  intros H. assert (Forall (fun c => clean (Name c) = true) (Registry_init cfg).*2) as Ha
    by (all_configs cfg; repeat constructor).
  rewrite Forall_forall in Ha. by apply Ha.
Qed.

Section Printed.
Context (cfg : BuildConfig) (printAsOperand : BlockId -> string).
(** The blocks the headers range over: within one function, printing is
    injective, and unquoted labels hold no parenthesis. *)
Context (D : BlockId -> Prop).
Hypothesis label_inj : forall a b, D a -> D b -> printAsOperand a = printAsOperand b -> a = b.
Hypothesis label_clean : forall a, D a -> avoids ["("%char] (printAsOperand a) = true.

(** Elements as the analysis builds them. *)
Fixpoint wf_element (e : Element) : Prop :=
  match e with
  | CollElement c => registered cfg c
  | NavsElement => True
  | CollListElement v =>
      match LoopHeader_ v with Some h => D h | None => False end /\
      fold_right (fun e P => wf_element e /\ P) True (List_ v)
  end.

Definition wf_CL (l : CollectiveList) : Prop :=
  match LoopHeader_ l with Some h => D h | None => True end /\ Forall wf_element (List_ l).

Lemma wf_nested l : fold_right (fun e P => wf_element e /\ P) True l <-> Forall wf_element l.
Proof. induction l as [|e l IH]; simpl; [by split; constructor|]. rewrite IH, Forall_cons. done. Qed.

Lemma wf_inlined l : wf_CL l -> Forall wf_element (inlined l).
Proof.
  unfold wf_CL, inlined. destruct l as [h [|e es]]; simpl; intros [Hh Hl]; [constructor|].
  destruct h; [|done]. constructor; [|constructor]. simpl. split; [done|].
  apply Forall_cons in Hl as [? ?]. split; [done|]. by apply wf_nested.
Qed.

Local Abbreviation str := (Element_toString printAsOperand).

(** An element's text ends where a comma or parenthesis starts. *)
Definition readable (e1 : Element) : Prop :=
  forall e2 s1 s2, wf_element e1 -> wf_element e2 ->
    starts [","; ")"]%char s1 -> starts [","; ")"]%char s2 ->
    str e1 +:+ s1 = str e2 +:+ s2 -> e1 = e2 /\ s1 = s2.

Lemma starts_special s : starts [","; ")"]%char s -> starts specials s.
Proof. destruct s; simpl; [done|]. unfold specials. rewrite !elem_of_cons. naive_solver. Qed.

(** A word, followed by a separator, is not the text of a loop. *)
Lemma word_not_loop a s h t :
  avoids specials a = true -> starts [","; ")"]%char s -> a +:+ s = String "*" (h +:+ t) -> False.
Proof.
  destruct a as [|c a]; simpl; rewrite ?nil_app_string, ?cons_app_string; intros Ha Hs E.
  - subst s. simpl in Hs. rewrite !elem_of_cons in Hs.
    destruct Hs as [Hs|[Hs|Hs%not_elem_of_nil]]; [discriminate..|done].
  - injection E as -> _. apply andb_true_iff in Ha as [Ha%bool_decide_eq_true _].
    apply Ha. unfold specials. rewrite !elem_of_cons. auto.
Qed.

(** The text of an element starts with neither. *)
Lemma element_start e s :
  wf_element e -> exists c t, str e +:+ s = String c t /\ c ∉ [","; ")"]%char.
Proof.
  destruct e as [c| |[[h|] l]]; simpl; intros Hw; [|do 2 eexists; (split; [reflexivity|set_solver])..|].
  - pose proof (registered_clean _ _ Hw) as Hc. unfold clean in Hc. breflect.
    destruct (Name c) as [|x t]; [done|]. exists x, (t +:+ s). split; [done|].
    simpl in *. breflect. match goal with H : bool_decide (x ∉ _) = true |- _ =>
      apply bool_decide_eq_true in H; intros Hx; apply H; unfold specials end.
    revert Hx. rewrite !elem_of_cons. naive_solver.
  - by destruct Hw.
Qed.

Lemma tail_starts l s : starts [","; ")"]%char (print_list str false l +:+ String ")" s).
Proof. destruct l; simpl; set_solver. Qed.

(** The text of a list of elements, up to its closing parenthesis. *)
Lemma readable_list l1 : Forall readable l1 -> forall first l2 s1 s2,
  Forall wf_element l1 -> Forall wf_element l2 ->
  print_list str first l1 +:+ String ")" s1 = print_list str first l2 +:+ String ")" s2 ->
  l1 = l2 /\ s1 = s2.
Proof.
  assert (forall first e l s s', wf_element e ->
    String ")" s = print_list str first (e :: l) +:+ s' -> False) as Hne.
  { intros [] e l s s' Hw E; cbn [print_list] in E; [|discriminate]. flat_text E.
    destruct (element_start e (print_list str false l +:+ s') Hw) as (c & t & Hs & Hc).
    rewrite Hs in E. injection E as <- _. apply Hc. rewrite !elem_of_cons. auto. }
  induction 1 as [|e l1 He _ IH]; intros first [|e2 l2] s1 s2 W1 W2 E;
    rewrite ?Forall_cons in *; break_ex.
  - injection E as ->. done.
  - exfalso. by eapply Hne; [|exact E].
  - exfalso. by eapply Hne; [|symmetry; exact E].
  - cbn [print_list] in E. flat_text E. apply (inj (String.append _)) in E.
    apply He in E as [-> E]; auto using tail_starts. apply IH in E as [-> ->]; done.
Qed.

(** A header, an opening parenthesis and a list of elements. *)
Lemma readable_loop h1 h2 l1 l2 s1 s2 :
  Forall readable l1 -> D h1 -> D h2 -> Forall wf_element l1 -> Forall wf_element l2 ->
  printAsOperand h1 +:+ String "(" (print_list str true l1 +:+ String ")" s1) =
  printAsOperand h2 +:+ String "(" (print_list str true l2 +:+ String ")" s2) ->
  h1 = h2 /\ l1 = l2 /\ s1 = s2.
Proof.
  intros Hr D1 D2 W1 W2 E.
  apply (split_unique ["("%char]) in E as [E1 E2]; [|by apply label_clean..|simpl; set_solver|simpl; set_solver].
  injection E2 as E2. apply readable_list in E2 as [-> ->]; auto.
Qed.

Lemma element_readable e1 : readable e1.
Proof.
  induction e1 as [c| |h l IH] using Element_nested_ind; intros e2 s1 s2 W1 W2 S1 S2 E.
  - pose proof (registered_clean _ _ W1) as Hc. unfold clean in Hc. breflect.
    destruct e2 as [d| |[[h|] l]]; simpl in E, W2; [| | |by destruct W2].
    + pose proof (registered_clean _ _ W2) as Hd. unfold clean in Hd. breflect.
      apply (split_unique specials) in E as [E ->]; auto using starts_special.
      split; [|done]. f_equal. by eapply registered_name_inj.
    + apply (split_unique specials _ "NAVS") in E as [E ->]; auto using starts_special.
      rewrite E in *. done.
    + exfalso. flat_text E. by eapply word_not_loop, E.
  - destruct e2 as [d| |[[h|] l]]; simpl in E, W2; [| | |by destruct W2].
    + pose proof (registered_clean _ _ W2) as Hd. unfold clean in Hd. breflect.
      apply (split_unique specials "NAVS") in E as [E ->]; auto using starts_special.
      rewrite <- E in *. done.
    + by apply (inj (String.append "NAVS")) in E as ->.
    + exfalso. flat_text E. by eapply (word_not_loop "NAVS"), E.
  - destruct h as [h|]; [|by destruct W1].
    destruct e2 as [d| |[[h2|] l2]]; simpl in E, W2; flat_text E; [| | |by destruct W2].
    + exfalso. pose proof (registered_clean _ _ W2) as Hd. unfold clean in Hd. breflect.
      symmetry in E. by eapply word_not_loop, E.
    + exfalso. symmetry in E. by eapply (word_not_loop "NAVS"), E.
    + simpl in W1. rewrite wf_nested in *. break_ex.
      injection E as E. flat_text E.
      apply readable_loop in E as (-> & -> & ->); done.
Qed.

Lemma wf_readable l : Forall readable l.
Proof. apply Forall_true, element_readable. Qed.

(** Two lists of the analysis that print alike are the same list. *)
Lemma CL_eqb_eq a b : wf_CL a -> wf_CL b -> CL_eqb printAsOperand a b = true <-> a = b.
Proof.
  unfold CL_eqb. rewrite bool_decide_eq_true. intros [Ha La] [Hb Lb].
  split; [|by intros ->]. unfold toString.
  destruct a as [[h1|] l1], b as [[h2|] l2]; simpl in *; intros E; flat_text E.
  - injection E as E. flat_text E.
    apply readable_loop in E as (-> & -> & _); auto using wf_readable.
  - discriminate.
  - discriminate.
  - injection E as E. apply readable_list in E as [-> _]; auto using wf_readable.
Qed.

(** The equality of two lists of collectives, which the source
    computes by comparing their printed forms, is equality of the lists
    themselves -- element by element, loops with their headers -- for the lists
    one function builds, whose blocks print differently. *)
Theorem operator_eq_spec a b :
  wf_CL a -> wf_CL b -> CL_eqb printAsOperand a b = true <-> a = b.
Proof. apply CL_eqb_eq. Qed.

End Printed.

(** * Lists that print alike *)

Section Alike.
Context (cfg : BuildConfig) (printAsOperand : BlockId -> string).

(** The label of a header, as a number. *)
Definition label_code (b : BlockId) : BlockId := N.pos (encode (printAsOperand b)).

Definition code_label (n : BlockId) : string :=
  match n with N0 => ""%string | N.pos p => default ""%string (decode p) end.

#[local] Arguments label_code : simpl never.
#[local] Arguments code_label : simpl never.

(** An element whose loops are known by the labels of their headers alone. *)
Fixpoint labelled (e : Element) : Element :=
  match e with
  | CollElement c => CollElement c
  | NavsElement => NavsElement
  | CollListElement v => CollListElement (MkCL (label_code <$> LoopHeader_ v) (map labelled (List_ v)))
  end.

Definition labelled_CL (l : CollectiveList) : CollectiveList :=
  MkCL (label_code <$> LoopHeader_ l) (map labelled (List_ l)).

(** The same sequence of elements, but for blocks that bear the same label. *)
Definition alike (l l' : list Element) : Prop := map labelled l = map labelled l'.

Lemma label_of_code b : code_label (label_code b) = printAsOperand b.
Proof. unfold code_label, label_code. by rewrite decode_encode. Qed.

Lemma print_labelled e : Element_toString code_label (labelled e) = Element_toString printAsOperand e.
Proof.
  induction e as [c| |h l IH] using Element_nested_ind; [done..|]. simpl.
  assert (forall first, print_list (Element_toString code_label) first (map labelled l) =
    print_list (Element_toString printAsOperand) first l) as ->.
  { induction IH as [|e l He _ IHl]; intros first; [done|]. simpl. by rewrite He, IHl. }
  destruct h; simpl; [by rewrite label_of_code|done].
Qed.

Lemma toString_labelled l : toString code_label (labelled_CL l) = toString printAsOperand l.
Proof.
  pose proof (print_labelled (CollListElement l)) as H. destruct l as [[h|] l]; exact H.
Qed.

(** Unquoted labels hold no parenthesis. *)
Definition plain_label (b : BlockId) : Prop := avoids ["("%char] (printAsOperand b) = true.

Definition plain_code (n : BlockId) : Prop := exists b, plain_label b /\ n = label_code b.

Lemma wf_labelled e : wf_element cfg plain_label e -> wf_element cfg plain_code (labelled e).
Proof.
  induction e as [c| |h l IH] using Element_nested_ind; [done..|]. simpl. intros [Hh Hl].
  split; [destruct h as [h|]; [by exists h|done]|].
  induction IH as [|e l He _ IHl]; simpl in *; [done|]. split; [|apply IHl]; tauto.
Qed.

Lemma wf_labelled_CL l : wf_CL cfg plain_label l -> wf_CL cfg plain_code (labelled_CL l).
Proof.
  destruct l as [h l]. intros [Hh Hl]. split; simpl in *.
  - destruct h as [h|]; [by exists h|done].
  - induction Hl as [|e l He _ IHl]; constructor; [by apply wf_labelled|done].
Qed.

(** The comparison of the source, on any lists: up to the labels. *)
Lemma CL_eqb_alike a b : wf_CL cfg plain_label a -> wf_CL cfg plain_label b ->
  CL_eqb printAsOperand a b = true <-> labelled_CL a = labelled_CL b.
Proof.
  intros Wa Wb. rewrite <- (CL_eqb_eq cfg code_label plain_code).
  - unfold CL_eqb. by rewrite !toString_labelled.
  - intros x y (x' & _ & ->) (y' & _ & ->). rewrite !label_of_code. unfold label_code. congruence.
  - intros x (x' & Hx & ->). by rewrite label_of_code.
  - by apply wf_labelled_CL.
  - by apply wf_labelled_CL.
Qed.

Lemma labelled_navs l : NavsElement ∈ map labelled l <-> NavsElement ∈ l.
Proof.
  rewrite list_elem_of_fmap. split.
  - intros (e & He & Hin). by destruct e.
  - intros H. by exists NavsElement.
Qed.

Lemma alike_navs l l' : alike l l' -> NavsElement ∈ l <-> NavsElement ∈ l'.
Proof. intros E. by rewrite <- (labelled_navs l), <- (labelled_navs l'), E. Qed.

Lemma alike_app a l l' : alike (a ++ l) (a ++ l') <-> alike l l'.
Proof.
  unfold alike. rewrite !map_app. split; [apply app_inv_head|congruence].
Qed.

Lemma alike_app_r a l l' : alike (l ++ a) (l' ++ a) <-> alike l l'.
Proof.
  unfold alike. rewrite !map_app. split; [apply app_inv_tail|congruence].
Qed.

(** Headers that bear different labels are told apart. *)
Lemma alike_eq l l' : (forall a b, printAsOperand a = printAsOperand b -> a = b) -> alike l l' -> l = l'.
Proof.
  intros Hinj.
  assert (forall e e', labelled e = labelled e' -> e = e') as He.
  { intros e. induction e as [c| |h k IH] using Element_nested_ind; intros [d| |[h' k']] E;
      try discriminate; [by injection E as ->|done|].
    injection E as Eh El. f_equal. f_equal.
    - destruct h, h'; try discriminate; [|done]. injection Eh as Eh. f_equal. apply Hinj.
      by apply (inj encode) in Eh.
    - revert k' El. induction IH as [|e k He _ IHl]; intros [|e' k'] E; try discriminate; [done|].
      injection E as E1 E2. f_equal; auto. }
  revert l'. induction l as [|e l IH]; intros [|e' l'] E; try discriminate; [done|].
  injection E as E1 E2. f_equal; auto.
Qed.

End Alike.

(** Two loops over the same barrier, with different headers. *)
Definition barrier_loop (h : BlockId) : CollectiveList :=
  MkCL None [CollListElement (MkCL (Some h) [CollElement MPI_Barrier_coll])].

Lemma operator_eq_witness :
  let label (b : BlockId) := if N.eqb b 1 then "%for.cond"%string else "%while.cond"%string in
  CL_eqb label (barrier_loop 1) (barrier_loop 2) = false /\ barrier_loop 1 <> barrier_loop 2.
Proof.
  intros label. assert (registered full_build MPI_Barrier_coll) as Hr
    by (by eapply registered_find with (o := mpi_options) (name := "MPI_Barrier"%string)).
  assert (CL_eqb label (barrier_loop 1) (barrier_loop 2) = true <-> barrier_loop 1 = barrier_loop 2) as H.
  { apply (operator_eq_spec full_build label (fun b => b ∈ [1; 2]%N)).
    - intros a b Ha Hb. enum Ha; enum Hb; done.
    - intros a Ha. enum Ha; done.
    - split; [exact I|]. repeat constructor; try exact Hr; simpl; set_solver.
    - split; [exact I|]. repeat constructor; try exact Hr; simpl; set_solver. }
  split; [reflexivity|]. intros E. apply H in E. discriminate.
Defined.
