(* ===== verification/CfgVisitors.v ===== *)
(** The two traversals of CFGVisitors.h: [LoopVisitor], top-down over each loop
    from the innermost one, and [CFGVisitor], bottom-up over a function whose
    loops are collapsed to their headers.  Both are templates over a derived
    class; here its state and its [visitBB] are arguments. *)
From S2P Require Import Prelude IR.

Inductive NodeState := UNVISITED | PUSHED | VISITED.

#[export] Instance NodeState_eq_dec : EqDecision NodeState.
Proof. solve_decision. Defined.

(** [BBToVectorBBMap] maps to set-vectors: insertion order, no duplicate. *)
Record LoopAggretationInfo := {
  LoopHeaderToSuccessors : gmap BlockId (list BlockId);
  LoopHeaderToIncomingBlock : gmap BlockId BlockId;
  LoopSuccessorToLoopHeader : gmap BlockId BlockId
}.

(** [clear()]. *)
Definition LAI_clear : LoopAggretationInfo :=
  {| LoopHeaderToSuccessors := ∅; LoopHeaderToIncomingBlock := ∅; LoopSuccessorToLoopHeader := ∅ |}.

Definition set_successors (f : gmap BlockId (list BlockId) -> gmap BlockId (list BlockId))
    (r : LoopAggretationInfo) : LoopAggretationInfo :=
  {| LoopHeaderToSuccessors := f (LoopHeaderToSuccessors r);
     LoopHeaderToIncomingBlock := LoopHeaderToIncomingBlock r;
     LoopSuccessorToLoopHeader := LoopSuccessorToLoopHeader r |}.

Definition set_incoming (h b : BlockId) (r : LoopAggretationInfo) : LoopAggretationInfo :=
  {| LoopHeaderToSuccessors := LoopHeaderToSuccessors r;
     LoopHeaderToIncomingBlock := <[h := b]> (LoopHeaderToIncomingBlock r);
     LoopSuccessorToLoopHeader := LoopSuccessorToLoopHeader r |}.

Definition set_header_of (s h : BlockId) (r : LoopAggretationInfo) : LoopAggretationInfo :=
  {| LoopHeaderToSuccessors := LoopHeaderToSuccessors r;
     LoopHeaderToIncomingBlock := LoopHeaderToIncomingBlock r;
     LoopSuccessorToLoopHeader := <[s := h]> (LoopSuccessorToLoopHeader r) |}.

(** [SmallSetVector::insert]. *)
Definition sv_insert (b : BlockId) (l : list BlockId) : list BlockId :=
  if bool_decide (b ∈ l) then l else l ++ [b].

(** [Visited[b]]: a value-initialized state is [UNVISITED]. *)
Abbreviation VisitedMapTy := (gmap BlockId NodeState).
Definition state_of (v : VisitedMapTy) (b : BlockId) : NodeState := default UNVISITED (v !! b).
Definition IsDone (v : VisitedMapTy) (b : BlockId) : bool := bool_decide (state_of v b = VISITED).

(** * [LoopVisitor] *)

Section LoopVisitor.
Context {S : Type} (M : Module_) (LI : LoopInfo).
Context (visitBB : LoopAggretationInfo -> Loop -> BlockId -> S -> res S).
Context (endOfLoop : Loop -> S -> res S).

Record LoopState := {
  lv_queue : list BlockId;
  lv_visited : VisitedMapTy;
  lv_lai : LoopAggretationInfo;
  lv_derived : S
}.

(** The lambda [EnqueueBB]. *)
Definition lv_enqueue (L : Loop) (st : LoopState) (BB : BlockId) : LoopState :=
  if bool_decide (state_of (lv_visited st) BB = UNVISITED) then
    if contains L BB then
      {| lv_queue := lv_queue st ++ [BB]; lv_visited := <[BB := PUSHED]> (lv_visited st);
         lv_lai := lv_lai st; lv_derived := lv_derived st |}
    else
      {| lv_queue := lv_queue st; lv_visited := lv_visited st;
         lv_lai := set_successors (fun m =>
           <[getHeader L := sv_insert BB (default [] (m !! getHeader L))]> m) (lv_lai st);
         lv_derived := lv_derived st |}
  else st.

(** One turn of the loop over a queue that is not empty. *)
Definition lv_step (L : Loop) (BB : BlockId) (rest : list BlockId) (st : LoopState) : res LoopState :=
  if negb (bool_decide (is_Some (LoopHeaderToIncomingBlock (lv_lai st) !! BB)))
     && negb (forallb (IsDone (lv_visited st)) (predecessors M BB))
  then Ok {| lv_queue := rest ++ [BB]; lv_visited := lv_visited st;
             lv_lai := lv_lai st; lv_derived := lv_derived st |}
  else
    let* d := visitBB (lv_lai st) L BB (lv_derived st) in
    let st1 := {| lv_queue := rest; lv_visited := <[BB := VISITED]> (lv_visited st);
                  lv_lai := lv_lai st; lv_derived := d |} in
    let inner :=
      if bool_decide (BB = getHeader L) then None
      else match loopFor LI BB with
           | Some LoopForBB => if bool_decide (BB = getHeader LoopForBB) then Some BB else None
           | None => None
           end in
    match inner with
    | Some H =>
        let st2 := fold_left (lv_enqueue L)
          (default [] (LoopHeaderToSuccessors (lv_lai st1) !! H)) st1 in
        Ok {| lv_queue := lv_queue st2; lv_visited := lv_visited st2;
              lv_lai := set_successors (delete H) (lv_lai st2); lv_derived := lv_derived st2 |}
    | None => Ok (fold_left (lv_enqueue L) (successors M BB) st1)
    end.

Fixpoint lv_loop (fuel : nat) (L : Loop) (st : LoopState) : res LoopState :=
  match lv_queue st with
  | [] => Ok st
  | BB :: rest =>
      match fuel with
      | O => OutOfFuel
      | Datatypes.S fuel' => let* st' := lv_step L BB rest st in lv_loop fuel' L st'
      end
  end.

(** [Visit(Loop &, LoopInfo &)]: the inner loops first. *)
Fixpoint VisitLoop (fuel : nat) (L : Loop) (acc : LoopAggretationInfo * S) {struct L} :
    res (LoopAggretationInfo * S) :=
  let* acc' := rfold (fun acc SubLoop => VisitLoop fuel SubLoop acc) (subLoops L) acc in
  let lai := set_successors <[getHeader L := []]> acc'.1 in
  match getIncomingAndBackEdge L with
  | None => Ok (lai, acc'.2)
  | Some (Incoming, _) =>
      let* st := lv_loop fuel L
        {| lv_queue := [getHeader L]; lv_visited := {[ getHeader L := PUSHED ]};
           lv_lai := set_incoming (getHeader L) Incoming lai; lv_derived := acc'.2 |} in
      let* d := endOfLoop L (lv_derived st) in
      Ok (lv_lai st, d)
  end.

(** [ComputeReversedMap]: a block that succeeds two loops is an assertion
    failure. *)
Definition ComputeReversedMap (lai : LoopAggretationInfo) : res LoopAggretationInfo :=
  rfold (fun lai '(Header, Successors) =>
    rfold (fun lai Succ =>
      match LoopSuccessorToLoopHeader lai !! Succ with
      | Some _ => Broken
      | None => Ok (set_header_of Succ Header lai)
      end) Successors lai)
    (map_to_list (LoopHeaderToSuccessors lai)) lai.

(** [Visit(Function &, FunctionAnalysisManager &)]. *)
Definition LoopVisitor_Visit (fuel : nat) (d : S) : res (LoopAggretationInfo * S) :=
  let* acc := rfold (fun acc L => VisitLoop fuel L acc) (topLevel LI) (LAI_clear, d) in
  let* lai := ComputeReversedMap acc.1 in
  Ok (lai, acc.2).

End LoopVisitor.

(** * [CFGVisitor] *)

Section CFGVisitor.
Context {S : Type} (M : Module_) (LI : LoopInfo) (Res : LoopAggretationInfo).
(** [visitBB(BB)] and, for the header of a loop, [visitBB(BB, &Res)]. *)
Context (visitBB : BlockId -> bool -> S -> res S).

Definition IsLoopHeader (BB : BlockId) : bool :=
  bool_decide (is_Some (LoopHeaderToSuccessors Res !! BB)).

(** The successors waited for: the loop's for a header. *)
Definition cfg_succs (BB : BlockId) : list BlockId :=
  match LoopHeaderToSuccessors Res !! BB with
  | Some Successors => Successors
  | None => successors M BB
  end.

(** The blocks enqueued after [BB]: the incoming block of a header; for a
    successor of a loop, its header and the predecessors outside it; else all
    the predecessors. *)
Definition cfg_preds (BB : BlockId) : res (list BlockId) :=
  if IsLoopHeader BB then
    let* b := of_option (LoopHeaderToIncomingBlock Res !! BB) in Ok [b]
  else match LoopSuccessorToLoopHeader Res !! BB with
       | Some Header =>
           let* L := of_option (loopFor LI Header) in
           Ok (Header :: List.filter (fun Pred => negb (contains L Pred)) (predecessors M BB))
       | None => Ok (predecessors M BB)
       end.

Record CFGState := { cv_queue : list BlockId; cv_visited : VisitedMapTy; cv_derived : S }.

(** The lambda [EnqueueBB]. *)
Definition cv_enqueue (st : CFGState) (Current : BlockId) : CFGState :=
  if bool_decide (state_of (cv_visited st) Current = UNVISITED) then
    {| cv_queue := cv_queue st ++ [Current]; cv_visited := <[Current := PUSHED]> (cv_visited st);
       cv_derived := cv_derived st |}
  else st.

Definition cv_step (BB : BlockId) (rest : list BlockId) (st : CFGState) : res CFGState :=
  if negb (forallb (IsDone (cv_visited st)) (cfg_succs BB)) then
    Ok {| cv_queue := rest ++ [BB]; cv_visited := cv_visited st; cv_derived := cv_derived st |}
  else
    let* d := visitBB BB (IsLoopHeader BB) (cv_derived st) in
    let* ps := cfg_preds BB in
    Ok (fold_left cv_enqueue ps
          {| cv_queue := rest; cv_visited := <[BB := VISITED]> (cv_visited st); cv_derived := d |}).

Fixpoint cv_loop (fuel : nat) (st : CFGState) : res CFGState :=
  match cv_queue st with
  | [] => Ok st
  | BB :: rest =>
      match fuel with
      | O => OutOfFuel
      | Datatypes.S fuel' => let* st' := cv_step BB rest st in cv_loop fuel' st'
      end
  end.

(** The blocks without successor, in layout order. *)
Definition exits (F : FuncId) : list BlockId :=
  List.filter (fun b => bool_decide (successors M b = [])) (blocks (function M F)).

(** [CFGVisitor::Visit]. *)
Definition CFGVisitor_Visit (fuel : nat) (F : FuncId) (d : S) : res S :=
  let* _ := guard (negb (bool_decide (exits F = []))) in
  let* st := cv_loop fuel
    {| cv_queue := exits F;
       cv_visited := fold_left (fun v b => <[b := PUSHED]> v) (exits F) ∅; cv_derived := d |} in
  Ok (cv_derived st).

End CFGVisitor.

(** * The order of a traversal

    Both visitors keep a queue, put back a block while one of those it waits for
    is not visited, and enqueue others once it is.  Where waiting is acyclic and
    a block enqueues those that wait for it, every block is visited once, after
    those it waits for, and the traversal returns. *)

(** Every block of [order] comes after those it waits for. *)
Definition topological (wait : BlockId -> list BlockId) (order : list BlockId) : Prop :=
  forall l1 b l2, order = l1 ++ b :: l2 -> forall c, c ∈ wait b -> c ∈ l1.

Lemma topological_snoc wait l b :
  topological wait l -> (forall c, c ∈ wait b -> c ∈ l) -> topological wait (l ++ [b]).
Proof.
  intros Ht Hb l1 x l2 E c Hc. destruct l2 as [|y l2 _] using rev_ind.
  - apply app_inj_tail in E as [<- <-]. auto.
  - rewrite app_comm_cons, app_assoc in E. apply app_inj_tail in E as [-> _].
    eapply Ht; [reflexivity|done].
Qed.

Lemma state_of_insert (v : VisitedMapTy) p s b :
  state_of (<[p := s]> v) b = if decide (b = p) then s else state_of v b.
Proof.
  unfold state_of. case_decide as E.
  - subst b. by rewrite (lookup_insert_eq v).
  - by rewrite (lookup_insert_ne v) by congruence.
Qed.

Section Order.
(** The blocks waited for, those enqueued after a block, the blocks and a rank. *)
Context (wait next : BlockId -> list BlockId) (N : list BlockId) (rank : BlockId -> nat).

Record order_graph : Prop := {
  og_nodup : NoDup N;
  og_wait : forall b c, b ∈ N -> c ∈ wait b -> c ∈ N /\ (rank c < rank b)%nat;
  og_next : forall c b, c ∈ N -> b ∈ next c -> b ∈ N;
  og_all : forall b c, b ∈ N -> c ∈ wait b -> b ∈ next c
}.

Hypothesis OG : order_graph.

(** What holds between two turns of the loop, [visited] being the blocks visited
    so far. *)
Record traversal (visited q : list BlockId) (v : VisitedMapTy) : Prop := {
  tr_nodup : NoDup (visited ++ q);
  tr_nodes : forall b, b ∈ visited ++ q -> b ∈ N;
  tr_visited : forall b, state_of v b = VISITED <-> b ∈ visited;
  tr_pushed : forall b, state_of v b = PUSHED <-> b ∈ q;
  tr_topo : topological wait visited;
  tr_reached : forall b, b ∈ N -> (wait b = [] \/ exists c, c ∈ wait b /\ c ∈ visited) ->
    b ∈ visited ++ q
}.

Definition ready (v : VisitedMapTy) (b : BlockId) : bool := forallb (IsDone v) (wait b).

Lemma ready_iff visited q v b :
  traversal visited q v -> ready v b = true <-> (forall c, c ∈ wait b -> c ∈ visited).
Proof.
  intros T. unfold ready. rewrite forallb_forall. unfold IsDone.
  split; intros H c Hc; [apply list_elem_of_In in Hc|rewrite <- list_elem_of_In in Hc];
    specialize (H c Hc); rewrite ?bool_decide_eq_true, ?(tr_visited _ _ _ T) in *; done.
Qed.

(** Some block of the queue can be visited: the lowest one not visited. *)
Lemma some_ready visited q v :
  traversal visited q v -> q <> [] -> exists b, b ∈ q /\ ready v b = true.
Proof.
  intros T Hq. assert (exists b, b ∈ N /\ b ∉ visited) as [b0 Hb0].
  { destruct q as [|b q]; [done|]. exists b. split; [apply (tr_nodes _ _ _ T); set_solver|].
    pose proof (tr_nodup _ _ _ T) as Hn. apply NoDup_app in Hn as (_ & Hn & _). intros Hb.
    by apply (Hn b Hb), list_elem_of_here. }
  remember (rank b0) as n eqn:En. revert b0 En Hb0.
  induction n as [n IH] using lt_wf_ind. intros b ? [HbN Hbv]. subst n.
  destruct (decide (Forall (fun c => c ∈ visited) (wait b))) as [Ha|Ha].
  - rewrite Forall_forall in Ha. exists b. split; [|by eapply ready_iff].
    assert (b ∈ visited ++ q) as [?|?]%elem_of_app; [|done|done].
    apply (tr_reached _ _ _ T b HbN).
    destruct (wait b) as [|c r] eqn:E; [by left|]. right. exists c.
    split; [apply list_elem_of_here|]. apply Ha, list_elem_of_here.
  - apply not_Forall_Exists in Ha; [|intros ?; apply _]. apply Exists_exists in Ha as (c & Hc & Hcv).
    destruct (og_wait OG b c HbN Hc) as [HcN Hr]. by eapply (IH (rank c) Hr c).
Qed.

Lemma traversal_rotate visited q1 q2 v :
  traversal visited (q1 ++ q2) v -> traversal visited (q2 ++ q1) v.
Proof.
  intros []. split; try done.
  - by rewrite (Permutation_app_comm q2 q1).
  - intros b Hb. apply tr_nodes0. set_solver.
  - intros b. rewrite tr_pushed0. set_solver.
  - intros b Hb Hs. specialize (tr_reached0 b Hb Hs). set_solver.
Qed.

(** The first block of the queue that can be visited. *)
Lemma first_ready visited q v :
  traversal visited q v -> q <> [] ->
  exists q1 b q2, q = q1 ++ b :: q2 /\ ready v b = true /\ (forall x, x ∈ q1 -> ready v x = false).
Proof.
  intros T Hq. destruct (some_ready _ _ _ T Hq) as (b & Hb & Hr). clear T Hq.
  induction q as [|x q IH]; [by apply not_elem_of_nil in Hb|].
  destruct (ready v x) eqn:E.
  - exists [], x, q. split; [done|]. split; [done|]. by intros ? ?%not_elem_of_nil.
  - apply elem_of_cons in Hb as [->|Hb]; [congruence|].
    destruct (IH Hb) as (q1 & c & q2 & -> & Hc & H1). exists (x :: q1), c, q2.
    split; [done|]. split; [done|]. intros y [->|Hy]%elem_of_cons; auto.
Qed.

(** The blocks enqueued once [b] is visited: those of [next] not seen yet. *)
Record enqueued (b : BlockId) (v : VisitedMapTy) (new : list BlockId) (v' : VisitedMapTy) : Prop := {
  en_nodup : NoDup new;
  en_new : forall x, x ∈ new <-> x ∈ next b /\ state_of (<[b := VISITED]> v) x = UNVISITED;
  en_pushed : forall x, x ∈ new -> state_of v' x = PUSHED;
  en_others : forall x, x ∉ new -> state_of v' x = state_of (<[b := VISITED]> v) x
}.

(** Visiting the block at the front, which is ready. *)
Lemma visit_front visited b q v new v' :
  traversal visited (b :: q) v -> ready v b = true -> enqueued b v new v' ->
  traversal (visited ++ [b]) (q ++ new) v'.
Proof.
  intros T Hr [Hn Hin Hp Hs]. assert (b ∈ N) as HbN by (apply (tr_nodes _ _ _ T); set_solver).
  pose proof (state_of_insert v b VISITED) as Hi.
  assert ((b ∉ visited) /\ (b ∉ q)) as [Hbv Hbq].
  { pose proof (tr_nodup _ _ _ T) as Hnd. apply NoDup_app in Hnd as (_ & H1 & H2).
    apply NoDup_cons in H2 as [H2 ?]. split; [|done]. intros Hb. apply (H1 b Hb), list_elem_of_here. }
  assert (forall x, x ∈ new -> x ∉ visited ++ b :: q) as Hfresh.
  { intros x [_ Hx]%Hin. rewrite Hi in Hx. case_decide; [done|]. intros [Hx'|Hx']%elem_of_app.
    - apply (tr_visited _ _ _ T) in Hx'. congruence.
    - apply (tr_pushed _ _ _ T) in Hx'. congruence. }
  assert (forall x, x ∉ new -> state_of v' x = if decide (x = b) then VISITED else state_of v x) as Hold
    by (intros x Hx; rewrite Hs, Hi; done).
  split.
  - rewrite <- app_assoc. simpl. rewrite app_comm_cons, app_assoc. apply NoDup_app.
    split; [apply T|split; [|done]]. intros x Hx Hx'. by apply (Hfresh x).
  - intros x. rewrite <- app_assoc. simpl. rewrite app_comm_cons, app_assoc.
    intros [?|[?%(og_next OG) _]%Hin]%elem_of_app; [by apply T|done..].
  - intros x. rewrite elem_of_app, list_elem_of_singleton. destruct (decide (x ∈ new)) as [Hx|Hx].
    + rewrite (Hp x Hx). split; [done|]. intros H. destruct (Hfresh x Hx). set_solver.
    + rewrite Hold by done. case_decide; [naive_solver|]. rewrite (tr_visited _ _ _ T). naive_solver.
  - intros x. rewrite elem_of_app. destruct (decide (x ∈ new)) as [Hx|Hx].
    + rewrite (Hp x Hx). naive_solver.
    + rewrite Hold by done. case_decide; [subst; naive_solver|].
      rewrite (tr_pushed _ _ _ T), elem_of_cons. naive_solver.
  - apply topological_snoc; [apply T|]. by eapply ready_iff.
  - intros x HxN Hx. rewrite <- app_assoc. simpl. rewrite app_comm_cons, app_assoc, elem_of_app.
    destruct (decide (x ∈ visited ++ b :: q)) as [?|Hn']; [by left|]. right. apply Hin. split.
    + destruct Hx as [Hx|(c & Hc & Hcv)].
      * destruct Hn'. apply (tr_reached _ _ _ T); auto.
      * apply elem_of_app in Hcv as [Hcv|Hcv%list_elem_of_singleton].
        -- destruct Hn'. apply (tr_reached _ _ _ T); eauto.
        -- subst c. by apply (og_all OG).
    + rewrite Hi. case_decide as E; [subst; set_solver|]. destruct (state_of v x) eqn:Ex; [done| |].
      * apply (tr_pushed _ _ _ T) in Ex. set_solver.
      * apply (tr_visited _ _ _ T) in Ex. set_solver.
Qed.

Lemma traversal_complete visited v :
  traversal visited [] v -> visited ≡ₚ N.
Proof.
  intros T. assert (forall n b, b ∈ N -> rank b = n -> b ∈ visited) as Hall.
  { induction n as [n IH] using lt_wf_ind. intros b HbN ?. subst n.
    rewrite <- (app_nil_r visited). apply (tr_reached _ _ _ T b HbN).
    destruct (wait b) as [|c r] eqn:E; [by left|]. right. exists c. split; [apply list_elem_of_here|].
    destruct (og_wait OG b c HbN) as [HcN Hr]; [rewrite E; apply list_elem_of_here|].
    by eapply (IH (rank c)). }
  pose proof (tr_nodup _ _ _ T) as Hn. pose proof (tr_nodes _ _ _ T) as Hin.
  rewrite app_nil_r in *. apply NoDup_Permutation; [done|apply OG|].
  intros b. split; eauto.
Qed.

(** The start: the blocks that wait for none are in the queue. *)
Lemma traversal_start q v :
  NoDup q -> (forall b, b ∈ q <-> b ∈ N /\ wait b = []) ->
  (forall b, state_of v b = if bool_decide (b ∈ q) then PUSHED else UNVISITED) -> traversal [] q v.
Proof.
  intros Hn Hq Hv. split; [done|by intros b [? _]%Hq| | |by intros [] ? ? ?|].
  - intros b. rewrite Hv. case_bool_decide; set_solver.
  - intros b. rewrite Hv. case_bool_decide; set_solver.
  - intros b Hb [Hs|(c & _ & Hc)]; [|set_solver]. by apply Hq.
Qed.

(** A loop over a queue, on the states [state q v d]. *)
Section Machine.
Context {T D : Type} (state : list BlockId -> VisitedMapTy -> D -> T).
Context (loop : nat -> T -> res T) (visit : BlockId -> D -> res D).
Hypothesis loop_empty : forall fuel v d, loop fuel (state [] v d) = Ok (state [] v d).
Hypothesis loop_wait : forall fuel b q v d,
  b ∈ N -> ready v b = false -> loop (S fuel) (state (b :: q) v d) = loop fuel (state (q ++ [b]) v d).
Hypothesis loop_visit : forall visited b q v, traversal visited (b :: q) v -> ready v b = true ->
  exists new v', enqueued b v new v' /\ forall fuel d,
    loop (S fuel) (state (b :: q) v d) = (let* d' := visit b d in loop fuel (state (q ++ new) v' d')).

(** Blocks that are not ready go to the back of the queue. *)
Lemma loop_rotate v d f q1 : forall q2,
  (forall b, b ∈ q1 -> b ∈ N /\ ready v b = false) ->
  loop (length q1 + f) (state (q1 ++ q2) v d) = loop f (state (q2 ++ q1) v d).
Proof.
  induction q1 as [|b q1 IH]; intros q2 Hr; [by rewrite app_nil_r|].
  destruct (Hr b (list_elem_of_here _ _)) as [HbN Hb].
  cbn [length Nat.add app]. rewrite loop_wait, <- app_assoc, IH by
    (done || (intros x Hx; apply Hr; by apply list_elem_of_further)).
  by rewrite <- app_assoc.
Qed.

(** The loop returns, having visited the blocks that were left. *)
Lemma loop_order k : forall visited q v,
  traversal visited q v -> length N = (length visited + k)%nat ->
  exists order v', traversal (visited ++ order) [] v' /\
    forall fuel d, (k * k <= fuel)%nat -> loop fuel (state q v d) =
      (let* d' := rfold (fun d b => visit b d) order d in Ok (state [] v' d')).
Proof.
  induction k as [|k IH]; intros visited q v Tr Hk.
  - assert (q = []) as ->.
    { destruct q as [|b q]; [done|]. exfalso.
      assert (length (visited ++ b :: q) <= length N)%nat as Hl.
      { apply submseteq_length, NoDup_submseteq; apply Tr. }
      rewrite length_app in Hl. simpl in Hl. lia. }
    exists [], v. rewrite app_nil_r. split; [done|]. intros fuel d _. apply loop_empty.
  - destruct (decide (q = [])) as [->|Hq].
    { exists [], v. rewrite app_nil_r. split; [done|]. intros fuel d _. apply loop_empty. }
    destruct (first_ready _ _ _ Tr Hq) as (q1 & b & q2 & -> & Hr & Hn).
    assert (length q1 <= k)%nat as Hq1.
    { assert (length (visited ++ q1 ++ b :: q2) <= length N)%nat as Hl
        by (apply submseteq_length, NoDup_submseteq; apply Tr).
      rewrite !length_app in Hl. simpl in Hl. lia. }
    assert (forall x, x ∈ q1 -> x ∈ N /\ ready v x = false) as Hn'.
    { intros x Hx. split; [apply (tr_nodes _ _ _ Tr); set_solver|auto]. }
    apply traversal_rotate in Tr. cbn [app] in Tr.
    destruct (loop_visit _ _ _ _ Tr Hr) as (new & v' & He & Hstep).
    pose proof (visit_front _ _ _ _ _ _ Tr Hr He) as T'.
    destruct (IH _ _ _ T') as (order & vf & Tf & Hloop); [rewrite length_app; simpl; lia|].
    exists (b :: order), vf. rewrite <- app_assoc in Tf. split; [done|]. intros fuel d Hf.
    replace fuel with (length q1 + Datatypes.S (fuel - length q1 - 1))%nat by nia.
    rewrite loop_rotate by done. cbn [app rfold]. rewrite Hstep.
    destruct (visit b d) as [d'| |]; simpl; [|done..]. apply Hloop. nia.
Qed.

(** From the start. *)
Lemma machine_order q v : traversal [] q v ->
  exists order v', order ≡ₚ N /\ topological wait order /\
    forall fuel d, (length N * length N <= fuel)%nat -> loop fuel (state q v d) =
      (let* d' := rfold (fun d b => visit b d) order d in Ok (state [] v' d')).
Proof.
  intros Tr. destruct (loop_order (length N) [] q v Tr eq_refl) as (order & v' & Tf & Hl).
  exists order, v'. cbn [app] in Tf. split; [by eapply traversal_complete|]. split; [apply Tf|done].
Qed.

End Machine.
End Order.

(** * [CFGVisitor], when the graph with collapsed loops is acyclic *)

Section Traversal.
Context {S : Type} (M : Module_) (LI : LoopInfo) (Res : LoopAggretationInfo) (F : FuncId).
Context (visitBB : BlockId -> bool -> S -> res S).

Local Abbreviation succ := (cfg_succs M Res).

(** The collapsed graph of [F]: its nodes [N], ranked by [rank]. *)
Record collapsed_dag (N : list BlockId) (rank : BlockId -> nat) : Prop := {
  dag_nodup : NoDup N;
  dag_exits : forall b, b ∈ exits M F <-> b ∈ N /\ succ b = [];
  dag_exits_nodup : NoDup (exits M F);
  dag_succ : forall b c, b ∈ N -> c ∈ succ b -> c ∈ N /\ (rank c < rank b)%nat;
  dag_pred : forall c, c ∈ N -> exists ps, cfg_preds M LI Res c = Ok ps /\
    (forall b, b ∈ ps -> b ∈ N) /\ (forall b, b ∈ N -> c ∈ succ b -> b ∈ ps)
}.

Context (N : list BlockId) (rank : BlockId -> nat).
Context (DAG : collapsed_dag N rank).

(** The blocks enqueued after one. *)
Definition preds_of (c : BlockId) : list BlockId :=
  match cfg_preds M LI Res c with Ok ps => ps | _ => [] end.

Lemma collapsed_order : order_graph succ preds_of N rank.
Proof.
  split; [apply DAG|apply (dag_succ _ _ DAG)| |].
  - intros c b Hc Hb. unfold preds_of in Hb. destruct (dag_pred _ _ DAG c Hc) as (ps & E & H & _).
    rewrite E in Hb. auto.
  - intros b c Hb Hc. destruct (dag_succ _ _ DAG b c Hb Hc) as [HcN _].
    destruct (dag_pred _ _ DAG c HcN) as (ps & E & _ & H). unfold preds_of. rewrite E. auto.
Qed.

(** The blocks a list of [EnqueueBB] calls adds. *)
Lemma enqueue_all ps q (v : VisitedMapTy) :
  exists new v', (forall d : S, fold_left cv_enqueue ps {| cv_queue := q; cv_visited := v; cv_derived := d |} =
      {| cv_queue := q ++ new; cv_visited := v'; cv_derived := d |}) /\
    NoDup new /\ (forall b, b ∈ new <-> b ∈ ps /\ state_of v b = UNVISITED) /\
    (forall b, b ∈ new -> state_of v' b = PUSHED) /\
    (forall b, b ∉ new -> state_of v' b = state_of v b).
Proof.
  revert q v. induction ps as [|p ps IH]; intros q v.
  - exists [], v. split; [intros d; simpl; by rewrite app_nil_r|].
    split; [constructor|]. set_solver.
  - destruct (decide (state_of v p = UNVISITED)) as [E|E].
    + destruct (IH (q ++ [p]) (<[p := PUSHED]> v)) as (new & v' & Hf & Hn & Hin & Hp & Hs).
      pose proof (state_of_insert v p PUSHED) as Hi.
      assert (p ∉ new) as Hpn by (rewrite Hin, Hi; case_decide; naive_solver).
      exists (p :: new), v'. split; [|split; [by constructor|split; [|split]]].
      * intros d. cbn [fold_left]. unfold cv_enqueue at 2. simpl.
        rewrite bool_decide_true by done. rewrite Hf, <- app_assoc. done.
      * intros b. rewrite !elem_of_cons, Hin, Hi. case_decide; naive_solver.
      * intros b [->|Hb]%elem_of_cons; [|auto]. rewrite Hs by done. rewrite Hi. by case_decide.
      * intros b Hb. rewrite Hs by set_solver. rewrite Hi. case_decide; set_solver.
    + destruct (IH q v) as (new & v' & Hf & Hn & Hin & Hp & Hs). exists new, v'. split; [|split; [done|split; [|done]]].
      * intros d. cbn [fold_left]. unfold cv_enqueue at 2. simpl. by rewrite bool_decide_false.
      * intros b. rewrite elem_of_cons, Hin. naive_solver.
Qed.

Local Abbreviation state q v d := {| cv_queue := q; cv_visited := v; cv_derived := d |}.
Local Abbreviation loop := (cv_loop M LI Res visitBB).

Lemma cv_loop_wait fuel b q v (d : S) : ready succ v b = false ->
  loop (Datatypes.S fuel) (state (b :: q) v d) = loop fuel (state (q ++ [b]) v d).
Proof. intros Hr. cbn [cv_loop cv_queue]. unfold cv_step. simpl cv_visited. unfold ready in Hr. by rewrite Hr. Qed.

Lemma cv_loop_visit visited b q v :
  traversal succ N visited (b :: q) v -> ready succ v b = true ->
  exists new v', enqueued preds_of b v new v' /\ forall fuel (d : S),
    loop (Datatypes.S fuel) (state (b :: q) v d) =
      (let* d' := visitBB b (IsLoopHeader Res b) d in loop fuel (state (q ++ new) v' d')).
Proof.
  intros T Hr. assert (b ∈ N) as HbN by (apply (tr_nodes _ _ _ _ _ T); set_solver).
  destruct (dag_pred _ _ DAG b HbN) as (ps & Hps & _ & _).
  destruct (enqueue_all ps q (<[b := VISITED]> v)) as (new & v' & Hf & Hn & Hin & Hp & Hs).
  exists new, v'. split.
  - split; try done. intros x. unfold preds_of. rewrite Hps. apply Hin.
  - intros fuel d. cbn [cv_loop cv_queue]. unfold cv_step. simpl cv_visited. unfold ready in Hr. rewrite Hr.
    simpl negb. cbv iota. simpl cv_derived.
    destruct (visitBB b (IsLoopHeader Res b) d) as [d'| |]; simpl; [|done..].
    rewrite Hps. simpl. by rewrite Hf.
Qed.

Lemma state_of_pushed l (v : VisitedMapTy) b :
  state_of (fold_left (fun v b => <[b := PUSHED]> v) l v) b =
  if bool_decide (b ∈ l) then PUSHED else state_of v b.
Proof.
  revert v. induction l as [|x l IH]; intros v; [done|]. cbn [fold_left].
  rewrite IH, state_of_insert. destruct (decide (b = x)); repeat case_bool_decide; set_solver.
Qed.

Lemma exits_nonempty : N <> [] -> exits M F <> [].
Proof.
  intros Hne He. assert (exists b0, b0 ∈ N) as [b0 Hb0].
  { destruct N as [|b0 N']; [done|]. exists b0. apply list_elem_of_here. }
  assert (forall n b, b ∈ N -> rank b = n -> False) as Hno.
  { induction n as [n IH] using lt_wf_ind. intros b HbN ?. subst n.
    destruct (succ b) as [|c r] eqn:E.
    - assert (b ∈ exits M F) as Hb by (by apply (dag_exits _ _ DAG)). rewrite He in Hb. set_solver.
    - destruct (dag_succ _ _ DAG b c HbN) as [HcN Hr]; [rewrite E; apply list_elem_of_here|].
      by eapply (IH (rank c) Hr c). }
  by eapply (Hno _ b0).
Qed.

Lemma CFGVisitor_order : N <> [] ->
  exists order, order ≡ₚ N /\ topological succ order /\
    forall fuel d, (length N * length N <= fuel)%nat ->
      CFGVisitor_Visit M LI Res visitBB fuel F d =
      rfold (fun d b => visitBB b (IsLoopHeader Res b) d) order d.
Proof.
  intros Hne.
  destruct (machine_order succ preds_of N rank collapsed_order (fun q v (d : S) => state q v d) loop
    (fun b d => visitBB b (IsLoopHeader Res b) d)) with (q := exits M F)
    (v := fold_left (fun (v : VisitedMapTy) b => <[b := PUSHED]> v) (exits M F) ∅) as (order & v' & Hp & Ht & Hl).
  - by intros [].
  - intros fuel b q v d _. apply cv_loop_wait.
  - apply cv_loop_visit.
  - apply (traversal_start succ preds_of N rank collapsed_order); [apply DAG|apply (dag_exits _ _ DAG)|]. intros b. by rewrite state_of_pushed.
  - exists order. split; [done|]. split; [done|]. intros fuel d Hf. unfold CFGVisitor_Visit.
    rewrite bool_decide_false by by apply exits_nonempty. simpl. rewrite Hl by done.
    destruct (rfold _ order d); done.
Qed.

End Traversal.

(** * [LoopVisitor] on an innermost loop *)

Section InnermostLoop.
Context {S : Type} (M : Module_) (LI : LoopInfo) (L : Loop).
Context (visitBB : LoopAggretationInfo -> Loop -> BlockId -> S -> res S) (endOfLoop : Loop -> S -> res S).
Context (lai0 : LoopAggretationInfo) (Incoming BackEdge : BlockId) (rank : BlockId -> nat).

Local Abbreviation N := (loopBlocks L).
Local Abbreviation h := (getHeader L).

(** A natural loop without inner loops: it is entered by its header only, every
    other block is reached from one of its predecessors, and without the edges
    into the header it is acyclic. *)
Record innermost : Prop := {
  il_sub : subLoops L = [];
  il_edges : getIncomingAndBackEdge L = Some (Incoming, BackEdge);
  il_nodup : NoDup N;
  il_header : h ∈ N;
  il_back : BackEdge ∈ N;
  il_inner : forall b L', b ∈ N -> b <> h -> loopFor LI b = Some L' -> b <> getHeader L';
  il_incoming : forall b, b ∈ N -> b <> h -> LoopHeaderToIncomingBlock lai0 !! b = None;
  il_reached : forall b, b ∈ N -> b <> h -> predecessors M b <> [];
  il_pred : forall b c, b ∈ N -> b <> h -> c ∈ predecessors M b ->
    c ∈ N /\ (rank c < rank b)%nat /\ b ∈ successors M c
}.

Hypothesis IL : innermost.

(** The predecessors waited for, and the blocks of the loop enqueued. *)
Definition body_preds (b : BlockId) : list BlockId := if decide (b = h) then [] else predecessors M b.
Definition body_succs (b : BlockId) : list BlockId := List.filter (contains L) (successors M b).

Lemma elem_body_succs b x : x ∈ body_succs b <-> x ∈ N /\ x ∈ successors M b.
Proof.
  unfold body_succs. rewrite list_elem_of_In, filter_In, <- list_elem_of_In. unfold contains.
  rewrite bool_decide_eq_true. tauto.
Qed.

Lemma body_order : order_graph body_preds body_succs N rank.
Proof.
  split; [apply IL| | |].
  - intros b c Hb Hc. unfold body_preds in Hc. case_decide; [by apply not_elem_of_nil in Hc|].
    destruct (il_pred IL b c) as (? & ? & _); done.
  - intros c b _ [Hb _]%elem_body_succs. done.
  - intros b c Hb Hc. unfold body_preds in Hc. case_decide; [by apply not_elem_of_nil in Hc|].
    apply elem_body_succs. destruct (il_pred IL b c) as (_ & _ & ?); done.
Qed.

(** What the visit of a block adds to the successors of the loop. *)
Definition add_exits (b : BlockId) (m : gmap BlockId (list BlockId)) : gmap BlockId (list BlockId) :=
  fold_left (fun m x => <[h := sv_insert x (default [] (m !! h))]> m)
    (List.filter (fun x => negb (contains L x)) (successors M b)) m.

(** The information on the loops, with the successors found so far. *)
Definition lai_with (m : gmap BlockId (list BlockId)) : LoopAggretationInfo :=
  {| LoopHeaderToSuccessors := m;
     LoopHeaderToIncomingBlock := <[h := Incoming]> (LoopHeaderToIncomingBlock lai0);
     LoopSuccessorToLoopHeader := LoopSuccessorToLoopHeader lai0 |}.

(** The visit of a block. *)
Definition visit_body (b : BlockId) (md : gmap BlockId (list BlockId) * S) : res (gmap BlockId (list BlockId) * S) :=
  let* d := visitBB (lai_with md.1) L b md.2 in Ok (add_exits b md.1, d).

Local Abbreviation state q v md :=
  {| lv_queue := q; lv_visited := v; lv_lai := lai_with (md : gmap BlockId (list BlockId) * S).1; lv_derived := md.2 |}.
Local Abbreviation loop := (fun fuel st => lv_loop M LI visitBB fuel L st).

(** The blocks a list of [EnqueueBB] calls adds: those of the loop, the others
    are successors of the loop. *)
Lemma lv_enqueue_all ss : forall q (v : VisitedMapTy),
  (forall x, x ∉ N -> state_of v x = UNVISITED) ->
  exists new v', (forall m (d : S), fold_left (lv_enqueue L) ss (state q v (m, d)) =
      state (q ++ new) v' (fold_left (fun m x => <[h := sv_insert x (default [] (m !! h))]> m)
        (List.filter (fun x => negb (contains L x)) ss) m, d)) /\
    NoDup new /\ (forall b, b ∈ new <-> (b ∈ N /\ b ∈ ss) /\ state_of v b = UNVISITED) /\
    (forall b, b ∈ new -> state_of v' b = PUSHED) /\
    (forall b, b ∉ new -> state_of v' b = state_of v b).
Proof.
  induction ss as [|s ss IH]; intros q v Hout.
  - exists [], v. split; [intros; simpl; by rewrite app_nil_r|]. split; [constructor|]. set_solver.
  - cbn [fold_left List.filter]. unfold lv_enqueue at 2. cbn [lv_visited lv_queue lv_lai lv_derived].
    destruct (contains L s) eqn:Ec; unfold contains in Ec; [apply bool_decide_eq_true in Ec|apply bool_decide_eq_false in Ec];
      cbn [negb]; [case_bool_decide as E|].
    + destruct (IH (q ++ [s]) (<[s := PUSHED]> v)) as (new & v' & Hf & Hn & Hin & Hp & Hs).
      { intros x Hx. rewrite state_of_insert. case_decide; [by subst|auto]. }
      pose proof (state_of_insert v s PUSHED) as Hi.
      assert (s ∉ new) as Hsn by (rewrite Hin, Hi; case_decide; naive_solver).
      exists (s :: new), v'. split; [|split; [by constructor|split; [|split]]].
      * intros m d. specialize (Hf m d). rewrite <- app_assoc in Hf. exact Hf.
      * intros b. rewrite !elem_of_cons, Hin, Hi. case_decide; naive_solver.
      * intros b [->|Hb]%elem_of_cons; [|auto]. rewrite Hs by done. rewrite Hi. by case_decide.
      * intros b Hb. rewrite Hs by set_solver. rewrite Hi. case_decide; set_solver.
    + destruct (IH q v Hout) as (new & v' & Hf & Hn & Hin & Hp & Hs).
      exists new, v'. split; [exact Hf|split; [done|split; [|done]]].
      intros b. rewrite elem_of_cons, Hin. naive_solver.
    + rewrite bool_decide_true by auto. cbn [fold_left].
      destruct (IH q v Hout) as (new & v' & Hf & Hn & Hin & Hp & Hs).
      exists new, v'. split; [intros m d; exact (Hf (<[h := sv_insert s (default [] (m !! h))]> m) d)|split; [done|split; [|done]]].
      intros b. rewrite elem_of_cons, Hin. naive_solver.
Qed.

Lemma body_enqueued b q (v : VisitedMapTy) :
  (forall x, x ∉ N -> state_of (<[b := VISITED]> v) x = UNVISITED) ->
  exists new v', enqueued body_succs b v new v' /\ forall m (d : S),
    fold_left (lv_enqueue L) (successors M b) (state q (<[b := VISITED]> v) (m, d)) = state (q ++ new) v' (add_exits b m, d).
Proof.
  intros Hout. destruct (lv_enqueue_all (successors M b) q _ Hout) as (new & v' & Hf & Hn & Hin & Hp & Hs).
  exists new, v'. split; [|exact Hf]. split; try done. intros x. by rewrite Hin, elem_body_succs.
Qed.

(** The header does not wait; another block waits for its predecessors. *)
Lemma lv_waits b m v : b ∈ N ->
  negb (bool_decide (is_Some (LoopHeaderToIncomingBlock (lai_with m) !! b))) &&
    negb (forallb (IsDone v) (predecessors M b)) = negb (ready body_preds v b).
Proof.
  intros Hb. unfold lai_with, ready, body_preds. cbn [LoopHeaderToIncomingBlock]. case_decide as E.
  - subst b. rewrite (lookup_insert_eq (LoopHeaderToIncomingBlock lai0)). by rewrite bool_decide_true.
  - rewrite (lookup_insert_ne (LoopHeaderToIncomingBlock lai0)) by done. rewrite (il_incoming IL) by done.
    rewrite bool_decide_false; [done|]. by intros [? ?].
Qed.

(** No block but the header heads a loop. *)
Lemma no_inner_header b : b ∈ N ->
  (if bool_decide (b = h) then None
   else match loopFor LI b with
        | Some LoopForBB => if bool_decide (b = getHeader LoopForBB) then Some b else None
        | None => None
        end) = @None BlockId.
Proof.
  intros Hb. case_bool_decide as E; [done|]. destruct (loopFor LI b) as [L'|] eqn:El; [|done].
  rewrite bool_decide_false; [done|]. by eapply (il_inner IL).
Qed.

Lemma lv_loop_wait fuel b q v md : b ∈ N -> ready body_preds v b = false ->
  loop (Datatypes.S fuel) (state (b :: q) v md) = loop fuel (state (q ++ [b]) v md).
Proof.
  intros Hb Hr. cbn [lv_loop lv_queue]. unfold lv_step. cbn [lv_visited lv_lai lv_derived].
  rewrite lv_waits, Hr by done. done.
Qed.

Lemma lv_loop_visit visited b q v :
  traversal body_preds N visited (b :: q) v -> ready body_preds v b = true ->
  exists new v', enqueued body_succs b v new v' /\ forall fuel md,
    loop (Datatypes.S fuel) (state (b :: q) v md) =
      (let* md' := visit_body b md in loop fuel (state (q ++ new) v' md')).
Proof.
  intros T Hr. assert (b ∈ N) as HbN by (apply (tr_nodes _ _ _ _ _ T); set_solver).
  assert (forall x, x ∉ N -> state_of (<[b := VISITED]> v) x = UNVISITED) as Hout.
  { intros x Hx. rewrite state_of_insert. case_decide; [by subst|]. destruct (state_of v x) eqn:E; [done| |]; exfalso; apply Hx.
    - apply (tr_pushed _ _ _ _ _ T) in E. apply (tr_nodes _ _ _ _ _ T). set_solver.
    - apply (tr_visited _ _ _ _ _ T) in E. apply (tr_nodes _ _ _ _ _ T). set_solver. }
  destruct (body_enqueued b q v Hout) as (new & v' & He & Hf). exists new, v'. split; [exact He|].
  intros fuel [m d]. cbn [lv_loop lv_queue]. unfold lv_step. cbn [lv_visited lv_lai lv_derived].
  rewrite lv_waits, Hr by done. cbn [negb]. cbv iota. unfold visit_body. cbn [fst snd].
  destruct (visitBB (lai_with m) L b d) as [d'| |]; cbn [rbind]; [|done..].
  rewrite no_inner_header by done. cbv iota zeta. specialize (Hf m d'). cbn [fst snd] in Hf. by rewrite Hf.
Qed.

Lemma VisitLoop_eq fuel acc :
  VisitLoop M LI visitBB endOfLoop fuel L acc =
  (let* acc' := rfold (fun acc SubLoop => VisitLoop M LI visitBB endOfLoop fuel SubLoop acc) (subLoops L) acc in
   let lai := set_successors <[getHeader L := []]> acc'.1 in
   match getIncomingAndBackEdge L with
   | None => Ok (lai, acc'.2)
   | Some (Incoming, _) =>
       let* st := lv_loop M LI visitBB fuel L
         {| lv_queue := [getHeader L]; lv_visited := {[ getHeader L := PUSHED ]};
            lv_lai := set_incoming (getHeader L) Incoming lai; lv_derived := acc'.2 |} in
       let* d := endOfLoop L (lv_derived st) in
       Ok (lv_lai st, d)
   end).
Proof. by destruct L. Qed.

(** The loop is visited block by block, each after its predecessors but the
    header first, then ended. *)
Lemma VisitLoop_order :
  exists order, order ≡ₚ N /\ topological body_preds order /\ forall fuel d, (length N * length N <= fuel)%nat ->
    VisitLoop M LI visitBB endOfLoop fuel L (lai0, d) =
    (let* md := rfold (fun md b => visit_body b md) order (<[h := []]> (LoopHeaderToSuccessors lai0), d) in
     let* d' := endOfLoop L md.2 in Ok (lai_with md.1, d')).
Proof.
  destruct (machine_order body_preds body_succs N rank body_order (fun q v md => state q v md) loop visit_body)
    with (q := [h]) (v := {[ h := PUSHED ]} : VisitedMapTy) as (order & v' & Hp & Ht & Hl).
  - by intros [].
  - intros fuel b q v md. apply lv_loop_wait.
  - apply lv_loop_visit.
  - apply (traversal_start body_preds body_succs N rank body_order).
    + apply NoDup_singleton.
    + intros b. rewrite list_elem_of_singleton. unfold body_preds. split.
      * intros ->. split; [apply IL|by rewrite decide_True].
      * intros [Hb E]. case_decide; [done|]. by apply (il_reached IL) in E.
    + intros b. change ({[ h := PUSHED ]} : VisitedMapTy) with (<[h := PUSHED]> (∅ : VisitedMapTy)).
      rewrite state_of_insert. case_decide; case_bool_decide; set_solver.
  - exists order. split; [done|]. split; [done|]. intros fuel d Hf. rewrite VisitLoop_eq, (il_sub IL). cbn [rfold rbind].
    rewrite (il_edges IL). cbv zeta. cbn [fst snd].
    specialize (Hl fuel (<[h := []]> (LoopHeaderToSuccessors lai0), d) Hf). cbv beta in Hl.
    change (set_incoming h Incoming (set_successors <[h := []]> lai0)) with (lai_with (<[h := []]> (LoopHeaderToSuccessors lai0))).
    cbn [fst snd] in Hl. rewrite Hl. destruct (rfold _ order _) as [[m d']| |]; done.
Qed.

(** The successors of the loop: the blocks outside that a block of it goes to. *)
Lemma add_exits_spec b m l : m !! h = Some l ->
  exists l', add_exits b m !! h = Some l' /\ (forall x, x ∈ l' <-> x ∈ l \/ ((x ∉ N) /\ x ∈ successors M b)) /\
    forall k, k <> h -> add_exits b m !! k = m !! k.
Proof.
  unfold add_exits. intros Hm.
  assert (forall ss m l, m !! h = Some l -> exists l',
    fold_left (fun (m : gmap BlockId (list BlockId)) x => <[h := sv_insert x (default [] (m !! h))]> m) ss m !! h = Some l' /\
    (forall x, x ∈ l' <-> x ∈ l \/ x ∈ ss) /\
    forall k, k <> h -> fold_left (fun (m : gmap BlockId (list BlockId)) x => <[h := sv_insert x (default [] (m !! h))]> m) ss m !! k = m !! k) as Hall.
  { clear m l Hm. induction ss as [|s ss IH]; intros m l Hm.
    - exists l. split; [done|]. split; [set_solver|done].
    - cbn [fold_left]. rewrite Hm. simpl default.
      destruct (IH (<[h := sv_insert s l]> m) (sv_insert s l)) as (l' & El & Hl & Hk); [apply lookup_insert_eq|].
      exists l'. split; [done|]. split.
      + intros x. rewrite Hl, elem_of_cons. unfold sv_insert. case_bool_decide; set_solver.
      + intros k Hne. rewrite Hk by done. by apply lookup_insert_ne. }
  destruct (Hall (List.filter (fun x => negb (contains L x)) (successors M b)) m l Hm) as (l' & El & Hl & Hk).
  exists l'. split; [done|]. split; [|done]. intros x.
  assert (x ∈ List.filter (fun x => negb (contains L x)) (successors M b) <-> (x ∉ N) /\ x ∈ successors M b) as <-; [|apply Hl].
  rewrite list_elem_of_In, filter_In, <- list_elem_of_In. unfold contains.
  rewrite negb_true_iff, bool_decide_eq_false. tauto.
Qed.

Lemma visits_exits order : forall m l d md, m !! h = Some l -> rfold (fun md b => visit_body b md) order (m, d) = Ok md ->
  exists l', md.1 !! h = Some l' /\
    (forall x, x ∈ l' <-> x ∈ l \/ exists b, b ∈ order /\ (x ∉ N) /\ x ∈ successors M b) /\
    forall k, k <> h -> md.1 !! k = m !! k.
Proof.
  induction order as [|b order IH]; intros m l d md Hm H.
  - injection H as <-. exists l. split; [done|]. split; [set_solver|done].
  - cbn [rfold] in H. apply rbind_ok in H as (md1 & E1 & H). unfold visit_body in E1.
    apply rbind_ok in E1 as (d1 & _ & [= <-]). destruct (add_exits_spec b m l Hm) as (l1 & El1 & Hl1 & Hk1).
    destruct (IH _ l1 _ _ El1 H) as (l' & El & Hl & Hk). exists l'. split; [done|]. split.
    + intros x. rewrite Hl, Hl1. set_solver.
    + intros k Hne. rewrite Hk by done. by apply Hk1.
Qed.

End InnermostLoop.
