(* ===== verification/CollListAnalysis.v ===== *)
(** The analysis of collectives: the lists computed over each loop
    (CollListLoopAnalysis.cpp), over each function and over the call graph
    (CollListFunctionAnalysis.cpp), and what they mean: a block's list is free
    of NAVS exactly when all the ways to an exit make the same collectives. *)
From Stdlib Require Import Ascii.
From S2P Require Import Prelude IR Utils Collectives CollectiveList CfgVisitors.

(** [CommToBBToCollListMap]: the communicator is a value or, for the other
    paradigms, [nullptr]. *)
Abbreviation CommToBBToCollListMap := (gmap (option ValueId) BBToCollListMap).

(** [CollListsPerComm[Comm]]. *)
Definition lists_of (d : CommToBBToCollListMap) (Comm : option ValueId) : BBToCollListMap :=
  default ∅ (d !! Comm).

(** [DenseMap::insert]: a key already there keeps its value. *)
Definition insert_new {V} (BB : BlockId) (v : V) (m : gmap BlockId V) : gmap BlockId V :=
  match m !! BB with Some _ => m | None => <[BB := v]> m end.

Section Analysis.
Context (cfg : BuildConfig) (opts : Options) (M : Module_) (loads : nat).
Context (printAsOperand : BlockId -> string).
Context (IndirectCallMap : InstId -> option (list FuncId)).
Context (Communicators : list (option ValueId)).

Local Abbreviation create := (CreateFromBB cfg opts M loads IndirectCallMap).
Local Abbreviation neighbors_navs := (NeighborsAreNAVS printAsOperand).

(** * [CollListLoopVisitor] *)

(** One communicator's part of [visitBB], for a block whose list is not there
    yet. *)
Definition loop_list (lai : LoopAggretationInfo) (BB : BlockId) (Comm : option ValueId)
    (Lists : BBToCollListMap) : res CollectiveList :=
  let* p := of_option (head (predecessors M BB)) in
  let PredSet := default empty_CL (Lists !! p) in
  let* IsNAVS :=
    if bool_decide (is_Some (LoopHeaderToIncomingBlock lai !! BB)) then Ok false
    else neighbors_navs Lists (predecessors M BB) in
  let* Current := create Lists IsNAVS BB Comm in
  Ok (if IsNAVS then Current else prependWith Current PredSet).

(** The loop over the communicators: a list that is already there (the header
    of a nested loop) returns from [visitBB]. *)
Fixpoint loop_visit_comms (lai : LoopAggretationInfo) (BB : BlockId)
    (Comms : list (option ValueId)) (d : CommToBBToCollListMap) : res CommToBBToCollListMap :=
  match Comms with
  | [] => Ok d
  | Comm :: r =>
      let Lists := lists_of d Comm in
      match Lists !! BB with
      | Some _ => Ok d
      | None =>
          let* Current := loop_list lai BB Comm Lists in
          loop_visit_comms lai BB r (<[Comm := <[BB := Current]> Lists]> d)
      end
  end.

Definition loop_visitBB (lai : LoopAggretationInfo) (L : Loop) (BB : BlockId)
    (d : CommToBBToCollListMap) : res CommToBBToCollListMap :=
  if bool_decide (BB = getHeader L) then
    Ok (fold_left (fun d Comm => <[Comm := insert_new BB empty_CL (lists_of d Comm)]> d)
          Communicators d)
  else loop_visit_comms lai BB Communicators d.

(** [endOfLoop]: the header takes the list of the source of the back edge. *)
Definition loop_endOfLoop (L : Loop) (d : CommToBBToCollListMap) : res CommToBBToCollListMap :=
  let* BackEdge := of_option (snd <$> getIncomingAndBackEdge L) in
  rfold (fun d Comm =>
    let Lists := lists_of d Comm in
    let* h := of_option (Lists !! getHeader L) in
    let* _ := guard (bool_decide (List_ h = [])) in
    Ok (<[Comm := <[getHeader L := loop_CL (getHeader L) (default empty_CL (Lists !! BackEdge))]>
                    Lists]> d)) Communicators d.

(** [CollListLoopAnalysis::run]: each run starts from no list at all. *)
Definition CollListLoopAnalysis_run (fuel : nat) (LI : LoopInfo) :
    res (LoopAggretationInfo * CommToBBToCollListMap) :=
  LoopVisitor_Visit M LI loop_visitBB loop_endOfLoop fuel ∅.

(** * [CollListCFGVisitor] *)

Definition compute (Lists : BBToCollListMap) (Successors : list BlockId) (BB : BlockId)
    (IsLoopHeader : bool) (Comm : option ValueId) : res CollectiveList :=
  let* IsNAVS := neighbors_navs Lists Successors in
  let* Current :=
    if IsLoopHeader then
      Ok (if IsNAVS then extendWithElement empty_CL NavsElement
          else extendWith empty_CL (default empty_CL (Lists !! BB)))
    else create Lists IsNAVS BB Comm in
  if IsNAVS then Ok Current
  else match Successors with
       | [] => Ok Current
       | c :: _ => let* SuccSet := of_option (Lists !! c) in Ok (extendWith Current SuccSet)
       end.

(** One communicator's part of [visitBB]; the list of a header must be that of
    a loop. *)
Definition cfg_visit_comm (Res : LoopAggretationInfo) (BB : BlockId) (header : bool)
    (Comm : option ValueId) (Lists : BBToCollListMap) : res BBToCollListMap :=
  let* _ := guard (negb header ||
    bool_decide (is_Some (LoopHeader_ (default empty_CL (Lists !! BB))))) in
  let* l := compute Lists (cfg_succs M Res BB) BB header Comm in
  Ok (<[BB := l]> Lists).

Definition cfg_visitBB (Res : LoopAggretationInfo) (BB : BlockId) (header : bool)
    (d : CommToBBToCollListMap) : res CommToBBToCollListMap :=
  rfold (fun d Comm =>
    let* Lists := cfg_visit_comm Res BB header Comm (lists_of d Comm) in
    Ok (<[Comm := Lists]> d)) Communicators d.

(** The lists of the loops, inserted before the traversal. *)
Definition insert_lists (loops d : CommToBBToCollListMap) : CommToBBToCollListMap :=
  fold_left (fun d '(Comm, Lists) =>
    fold_left (fun d '(BB, Colls) => <[Comm := insert_new BB Colls (lists_of d Comm)]> d)
      (map_to_list Lists) d) (map_to_list loops) d.

Definition CollListCFGVisitor_Visit (fuel : nat) (LI : LoopInfo) (F : FuncId)
    (Info : LoopAggretationInfo * CommToBBToCollListMap) (d : CommToBBToCollListMap) :
    res CommToBBToCollListMap :=
  CFGVisitor_Visit M LI Info.1 (cfg_visitBB Info.1) fuel F (insert_lists Info.2 d).

(** [CollListFunctionAnalysis::run], over the strongly connected components of
    the call graph in the order of [scc_iterator]; a node may hold no
    function. *)
Definition CollListFunctionAnalysis_run (fuel : nat) (LIs : FuncId -> LoopInfo)
    (isReachableFromEntry : FuncId -> bool) (sccs : list (list (option FuncId))) :
    res CommToBBToCollListMap :=
  rfold (fun d Node =>
    match Node with
    | None => Ok d
    | Some F =>
        if isDeclaration M F || negb (isReachableFromEntry F) then Ok d
        else let* Info := CollListLoopAnalysis_run fuel (LIs F) in
             CollListCFGVisitor_Visit fuel (LIs F) F Info d
    end) (concat sccs) ∅.

End Analysis.

(** The communicators of the analysis: those of the module, or [nullptr]. *)
Definition analysis_comms (Comms : gset ValueId) : list (option ValueId) :=
  if bool_decide (Comms = ∅) then [None] else Some <$> elements Comms.

(** * Lemmas *)

Lemma lists_of_insert d Comm l Comm' :
  lists_of (<[Comm := l]> d) Comm' = if decide (Comm' = Comm) then l else lists_of d Comm'.
Proof.
  unfold lists_of. case_decide as E.
  - subst. by rewrite (lookup_insert_eq d).
  - by rewrite (lookup_insert_ne d) by congruence.
Qed.

(** A loop over the communicators whose body only touches its own lists. *)
Lemma comms_fold (g : option ValueId -> BBToCollListMap -> res BBToCollListMap)
    (P : option ValueId -> BBToCollListMap -> Prop) Comms d :
  NoDup Comms ->
  (forall Comm, Comm ∈ Comms -> exists l, g Comm (lists_of d Comm) = Ok l /\ P Comm l) ->
  exists d', rfold (fun d Comm => let* l := g Comm (lists_of d Comm) in Ok (<[Comm := l]> d)) Comms d
      = Ok d' /\ forall Comm, Comm ∈ Comms -> P Comm (lists_of d' Comm).
Proof.
  intros Hn Hg.
  assert (exists d', rfold (fun d Comm => let* l := g Comm (lists_of d Comm) in Ok (<[Comm := l]> d)) Comms d
      = Ok d' /\ (forall Comm, Comm ∈ Comms -> P Comm (lists_of d' Comm)) /\
      forall Comm, Comm ∉ Comms -> lists_of d' Comm = lists_of d Comm) as (d' & ? & ? & _); [|eauto].
  revert d Hg. induction Hn as [|c Comms Hc Hn IH]; intros d Hg.
  - exists d. split; [done|]. split; [set_solver|done].
  - destruct (Hg c (list_elem_of_here _ _)) as (l & Hl & HP). cbn [rfold]. rewrite Hl. simpl.
    destruct (IH (<[c := l]> d)) as (d' & Hd & HP' & Hsame).
    { intros x Hx. rewrite lists_of_insert, decide_False by (intros ->; done).
      apply Hg. by apply list_elem_of_further. }
    exists d'. split; [done|]. split.
    + intros x [->|Hx]%elem_of_cons; [|auto]. rewrite Hsame by done.
      by rewrite lists_of_insert, decide_True.
    + intros x Hx. rewrite Hsame, lists_of_insert, decide_False by set_solver. done.
Qed.

(** The functions a call may run. *)
Definition may_call (IndirectCallMap : InstId -> option (list FuncId)) (I : Instruction) : list FuncId :=
  match I with
  | CallInst id None _ _ => default [] (IndirectCallMap id)
  | CallInst _ (Some F) _ _ => [F]
  | _ => []
  end.

Lemma rfold_ext {A B} (f g : A -> B -> res A) l a :
  (forall b, b ∈ l -> forall a, f a b = g a b) -> rfold f l a = rfold g l a.
Proof.
  revert a. induction l as [|b l IH]; intros a H; [done|]. cbn [rfold].
  rewrite (H b) by apply list_elem_of_here. destruct (g a b); simpl; [|done..].
  apply IH. intros x Hx. apply H. by apply list_elem_of_further.
Qed.

(** A block's list reads the map at the entries of its callees only. *)
Lemma CreateFromBB_ext cfg opts M loads icm L1 L2 navs b Comm :
  (forall I Fn e, I ∈ insts (block M b) -> Fn ∈ may_call icm I -> getEntryBlock M Fn = Some e ->
    L1 !! e = L2 !! e) ->
  CreateFromBB cfg opts M loads icm L1 navs b Comm = CreateFromBB cfg opts M loads icm L2 navs b Comm.
Proof.
  intros H. unfold CreateFromBB. destruct navs; [done|]. apply rfold_ext. intros I HI a.
  assert (forall Fn args a, Fn ∈ may_call icm I -> ActOnFunction cfg opts M loads L1 Comm args a Fn =
    ActOnFunction cfg opts M loads L2 Comm args a Fn) as Hact.
  { intros Fn args a' HF. unfold ActOnFunction. destruct (find _ _ _); [done|].
    destruct (getEntryBlock M Fn) as [e|] eqn:E; [|done]. by rewrite (H I Fn e). }
  destruct I as [id [Fn|] args loc| | | | | |]; simpl; [|destruct (icm id) as [Fs|] eqn:E|..]; try done.
  - apply Hact. set_solver.
  - apply rfold_ext. intros Fn HF a'. destruct (isIntrinsicDbgFunction _ _); [done|].
    apply Hact. simpl. by rewrite E.
Qed.

Section Neighbors.
Context (cfg : BuildConfig) (printAsOperand : BlockId -> string).
Local Abbreviation wf := (wf_CL cfg (plain_label printAsOperand)).
Local Abbreviation text := (labelled_CL printAsOperand).

(** Neighbours are NAVS exactly when two of their lists are not alike. *)
Lemma neighbors_spec (Lists : BBToCollListMap) l :
  (forall b, b ∈ l -> exists c, Lists !! b = Some c /\ wf c) ->
  exists v, NeighborsAreNAVS printAsOperand Lists l = Ok v /\
    (v = true -> exists a b, a ∈ l /\ b ∈ l /\ text <$> Lists !! a <> text <$> Lists !! b) /\
    (v = false -> forall a b, a ∈ l -> b ∈ l -> text <$> Lists !! a = text <$> Lists !! b).
Proof.
  induction l as [|a [|b r] IH]; intros Hl.
  - exists false. split; [done|]. split; [done|]. set_solver.
  - exists false. split; [done|]. split; [done|]. intros _ x y Hx Hy. set_solver.
  - destruct (Hl a) as (ca & Ea & Wa); [set_solver|].
    destruct (Hl b) as (cb & Eb & Wb); [set_solver|].
    destruct IH as (v & Ev & Ht & Hf); [intros; apply Hl; by apply list_elem_of_further|].
    change (NeighborsAreNAVS printAsOperand Lists (a :: b :: r)) with
      (match Lists !! a, Lists !! b with
       | Some la, Some lb => if negb (CL_eqb printAsOperand la lb) then Ok true
                             else NeighborsAreNAVS printAsOperand Lists (b :: r)
       | _, _ => Broken end).
    rewrite Ea, Eb. pose proof (CL_eqb_alike cfg printAsOperand ca cb Wa Wb) as Hab.
    destruct (CL_eqb printAsOperand ca cb) eqn:E; simpl negb; cbv iota.
    + destruct Hab as [Hab _]. specialize (Hab eq_refl). exists v. split; [done|]. split.
      * intros (x & y & Hx & Hy & Hne)%Ht. exists x, y. set_solver.
      * intros Hv. specialize (Hf Hv).
        assert (forall x, x ∈ a :: b :: r -> text <$> Lists !! x = Some (text ca)) as Hall.
        { intros x [->|Hx]%elem_of_cons; [by rewrite Ea|]. rewrite (Hf x b); [by rewrite Eb, Hab|done|set_solver]. }
        intros x y Hx Hy. rewrite (Hall x), (Hall y); done.
    + exists true. split; [done|]. split; [|done]. intros _. exists a, b.
      split; [set_solver|]. split; [set_solver|]. rewrite Ea, Eb. intros Ec.
      destruct Hab as [_ Hab]. discriminate Hab. apply (inj Some). exact Ec.
Qed.

End Neighbors.
