(* ===== verification/CollListSound.v ===== *)
(** What the lists of collectives mean.  Over a function whose collapsed graph
    is acyclic, the traversal returns, and the list of a block is free of NAVS
    exactly when all the ways from it to an exit make the same sequence of
    collectives, none of them a divergent call -- which is then the list. *)
From Stdlib Require Import Ascii.
From S2P Require Import Prelude IR Utils Collectives CollectiveList CfgVisitors CollListAnalysis Samples.

(** * The collectives of a block *)

Section Makes.
Context (cfg : BuildConfig) (opts : Options) (M : Module_) (loads : nat).
Context (icm : InstId -> option (list FuncId)).
(** The lists of the callees, by entry block, and the communicator. *)
Context (Lists : BBToCollListMap) (Comm : option ValueId).

(** What an instruction may run, with the arguments of the call: the function
    called, or every candidate that is not a debug intrinsic. *)
Definition runs (I : Instruction) : list (list ValueId * FuncId) :=
  match I with
  | CallInst _ (Some F) args _ => [(args, F)]
  | CallInst id None args _ =>
      pair args <$> filter (fun F => isIntrinsicDbgFunction M F = false) (default [] (icm id))
  | _ => []
  end.

(** What running a function contributes: a collective of the communicator is
    itself; a collective of another one is nothing; any other function is the
    list of its entry block, one element when that is a loop, and nothing when
    it has none. *)
Inductive call_makes : list ValueId * FuncId -> list Element -> Prop :=
| makes_collective args F c :
    find cfg opts (getName (function M F)) = Some c ->
    (forall m, isMPI c = true -> Comm = Some m ->
      getCommunicator M loads c args = Ok None \/ getCommunicator M loads c args = Ok (Some m)) ->
    call_makes (args, F) [CollElement c]
| makes_elsewhere args F c m k :
    find cfg opts (getName (function M F)) = Some c -> isMPI c = true -> Comm = Some m ->
    getCommunicator M loads c args = Ok (Some k) -> k <> m -> call_makes (args, F) []
| makes_callee args F e l :
    find cfg opts (getName (function M F)) = None -> getEntryBlock M F = Some e -> Lists !! e = Some l ->
    call_makes (args, F) (inlined l)
| makes_unknown args F :
    find cfg opts (getName (function M F)) = None ->
    (forall e, getEntryBlock M F = Some e -> Lists !! e = None) -> call_makes (args, F) [].

(** What the functions run one after the other contribute. *)
Inductive calls_make : list (list ValueId * FuncId) -> list Element -> Prop :=
| calls_nil : calls_make [] []
| calls_cons call calls es ess :
    call_makes call es -> calls_make calls ess -> calls_make (call :: calls) (es ++ ess).

(** The block: its instructions, in order. *)
Definition block_makes (b : BlockId) (es : list Element) : Prop :=
  calls_make (insts (block M b) ≫= runs) es.

Lemma calls_make_app l1 l2 es : calls_make (l1 ++ l2) es ->
  exists es1 es2, calls_make l1 es1 /\ calls_make l2 es2 /\ es = es1 ++ es2.
Proof.
  revert es. induction l1 as [|c l1 IH]; intros es H; [exists [], es; by repeat constructor|].
  inversion H as [|? ? e1 ess Hc Hr]; subst. destruct (IH _ Hr) as (es1 & es2 & H1 & H2 & ->).
  exists (e1 ++ es1), es2. rewrite app_assoc. by repeat constructor.
Qed.

Local Abbreviation act := (ActOnFunction cfg opts M loads Lists Comm).

Lemma ActOnFunction_makes args F es acc :
  call_makes (args, F) es -> act args (MkCL None acc) F = Ok (MkCL None (acc ++ es)).
Proof.
  intros H. unfold ActOnFunction. inversion H as [? ? c Hf Hc|? ? c m k Hf Hm HC Hk Hne|? ? e l Hf He Hl|? ? Hf Hu]; subst;
    rewrite Hf.
  - assert (shouldIgnore M loads args c Comm = Ok false) as ->; [|done]. unfold shouldIgnore.
    destruct (isMPI c), Comm as [m|]; try done. simpl.
    destruct (Hc m eq_refl eq_refl) as [-> | ->]; simpl; [done|]. by rewrite (bool_decide_true (Some m = Some m)).
  - assert (shouldIgnore M loads args c Comm = Ok true) as ->; [|by rewrite app_nil_r].
    unfold shouldIgnore. rewrite Hm, HC. simpl. rewrite Hk. simpl. rewrite bool_decide_false by congruence. done.
  - rewrite He, Hl. f_equal. destruct (extendWith (MkCL None acc) l) as [h es'] eqn:E.
    pose proof (f_equal List_ E) as E1. pose proof (f_equal LoopHeader_ E) as E2.
    rewrite List_extendWith in E1. simpl in E1, E2. by subst.
  - rewrite app_nil_r. destruct (getEntryBlock M F) as [e|]; [|done]. by rewrite (Hu e).
Qed.

Lemma candidates_make args Fs : forall es acc,
  calls_make (pair args <$> filter (fun F => isIntrinsicDbgFunction M F = false) Fs) es ->
  rfold (fun Current MayCall => if isIntrinsicDbgFunction M MayCall then Ok Current
                                else act args Current MayCall) Fs (MkCL None acc)
  = Ok (MkCL None (acc ++ es)).
Proof.
  induction Fs as [|F Fs IH]; intros es acc H.
  - inversion H; subst. by rewrite app_nil_r.
  - rewrite filter_cons in H. cbn [rfold]. destruct (isIntrinsicDbgFunction M F); case_decide; try done.
    + by apply IH.
    + inversion H as [|? ? e1 ess Hc Hr]; subst. rewrite (ActOnFunction_makes _ _ _ _ Hc). cbn [rbind].
      rewrite (IH _ _ Hr). by rewrite app_assoc.
Qed.

Lemma visit_call_makes I es acc :
  calls_make (runs I) es ->
  visit_call cfg opts M loads icm Lists Comm (MkCL None acc) I = Ok (MkCL None (acc ++ es)).
Proof.
  destruct I as [id [F|] args loc| | | | | |]; cbn [runs visit_call]; intros H;
    try (inversion H; subst; by rewrite app_nil_r).
  - inversion H as [|? ? e1 ess Hc Hr]; subst. inversion Hr; subst. rewrite app_nil_r.
    by apply ActOnFunction_makes.
  - destruct (icm id) as [Fs|]; [by apply candidates_make|]. inversion H; subst. by rewrite app_nil_r.
Qed.

(** The source collects what the block makes, and nothing else. *)
Lemma CreateFromBB_makes b es :
  block_makes b es -> CreateFromBB cfg opts M loads icm Lists false b Comm = Ok (MkCL None es).
Proof.
  unfold block_makes, CreateFromBB, empty_CL. intros H.
  assert (forall acc, rfold (visit_call cfg opts M loads icm Lists Comm) (insts (block M b)) (MkCL None acc)
    = Ok (MkCL None (acc ++ es))) as Hf; [|by rewrite Hf].
  revert es H. induction (insts (block M b)) as [|I Is IH]; intros es H acc.
  - inversion H; subst. by rewrite app_nil_r.
  - rewrite bind_cons in H. apply calls_make_app in H as (es1 & es2 & H1 & H2 & ->). cbn [rfold].
    rewrite (visit_call_makes _ _ _ H1). cbn [rbind]. by rewrite (IH _ H2), app_assoc.
Qed.

Lemma block_makes_wf D b es :
  (forall e l, Lists !! e = Some l -> wf_CL cfg D l) -> block_makes b es -> Forall (wf_element cfg D) es.
Proof.
  intros Hl. unfold block_makes. induction 1 as [|[args F] calls es ess Hc _ IH]; [constructor|].
  apply Forall_app. split; [|done].
  inversion Hc; subst; try by constructor.
  - constructor; [|constructor]. by eapply registered_find.
  - apply wf_inlined. by eapply Hl.
Qed.

End Makes.

(** * The ways through a function *)

(** The sequences of collectives of the ways from a block to an exit, [own b]
    being what block [b] makes. *)
Inductive trace (succ : BlockId -> list BlockId) (own : BlockId -> list Element) :
  BlockId -> list Element -> Prop :=
| trace_exit b : succ b = [] -> trace succ own b (own b)
| trace_step b c t : c ∈ succ b -> trace succ own c t -> trace succ own b (own b ++ t).

Section Paths.
Context (printAsOperand : BlockId -> string).
Context (succ : BlockId -> list BlockId) (own : BlockId -> list Element).
Local Abbreviation alike := (alike printAsOperand).

(** All the ways make the same sequence, up to the labels of the loops, and
    none calls a function that diverges. *)
Definition uniform (b : BlockId) : Prop :=
  forall t t', trace succ own b t -> trace succ own b t' -> (NavsElement ∉ t) /\ alike t t'.

(** What the analysis promises of a block's list. *)
Definition describes (b : BlockId) (L : list Element) : Prop :=
  ((NavsElement ∉ L) <-> uniform b) /\ (NavsElement ∉ L -> trace succ own b L).

Lemma trace_inv b t : trace succ own b t ->
  (succ b = [] /\ t = own b) \/ exists c t', c ∈ succ b /\ trace succ own c t' /\ t = own b ++ t'.
Proof. destruct 1; eauto 6. Qed.

Lemma uniform_succ b c : uniform b -> c ∈ succ b -> uniform c.
Proof.
  intros Hu Hc t t' H H'.
  destruct (Hu (own b ++ t) (own b ++ t')) as [Hn Ha]; [by eapply trace_step..|].
  split; [set_solver|]. by apply alike_app in Ha.
Qed.

(** Two successors that differ: the block is NAVS. *)
Lemma describes_navs b c1 c2 L1 L2 :
  c1 ∈ succ b -> c2 ∈ succ b -> describes c1 L1 -> describes c2 L2 -> ~ alike L1 L2 ->
  describes b [NavsElement].
Proof.
  intros H1 H2 [U1 T1] [U2 T2] Hne. split; [split|]; [intros []; apply list_elem_of_here| |intros []; apply list_elem_of_here].
  intros Hu. exfalso. apply Hne. eapply (alike_app _ (own b)), Hu.
  - eapply trace_step; [exact H1|]. apply T1, U1. by eapply uniform_succ.
  - eapply trace_step; [exact H2|]. apply T2, U2. by eapply uniform_succ.
Qed.

(** Successors that agree: the block's own collectives, then theirs. *)
Lemma describes_cons b c L :
  c ∈ succ b -> describes c L ->
  (forall c', c' ∈ succ b -> exists L', describes c' L' /\ alike L' L) -> describes b (own b ++ L).
Proof.
  intros Hc [Uc Tc] Hall. split; [split|].
  - intros HL. assert (NavsElement ∉ own b) as Hown by set_solver.
    assert (forall t, trace succ own b t -> (NavsElement ∉ t) /\ alike t (own b ++ L)) as Heq.
    { intros t [[E _]|(c' & t' & Hc' & Ht' & ->)]%trace_inv; [rewrite E in Hc; set_solver|].
      destruct (Hall c' Hc') as (L' & [Uc' Tc'] & Ha). rewrite alike_app.
      assert (NavsElement ∉ L') as HL' by (rewrite (alike_navs _ _ _ Ha); set_solver).
      destruct (proj1 Uc' HL' t' L' Ht' (Tc' HL')) as [Hn Ht]. split; [set_solver|]. by etransitivity. }
    intros t t' [H1 H2]%Heq [H3 H4]%Heq. split; [done|]. by etransitivity.
  - intros Hu. assert (NavsElement ∉ L) as HL by (apply Uc; by eapply uniform_succ).
    assert (trace succ own b (own b ++ L)) as Ht by (eapply trace_step; eauto).
    by destruct (Hu _ _ Ht Ht).
  - intros HL. eapply trace_step; [done|]. apply Tc. set_solver.
Qed.

Lemma describes_exit b : succ b = [] -> describes b (own b).
Proof.
  intros E. split; [split|by constructor].
  - intros Hn t t' [[_ ->]|(c & ? & Hc & _)]%trace_inv [[_ ->]|(c' & ? & Hc' & _)]%trace_inv;
      rewrite ?E in *; set_solver.
  - intros Hu. assert (trace succ own b (own b)) as Ht by by constructor. by destruct (Hu _ _ Ht Ht).
Qed.

End Paths.

Section Sound.
Context (cfg : BuildConfig) (opts : Options) (M : Module_) (loads : nat).
Context (printAsOperand : BlockId -> string).
Context (icm : InstId -> option (list FuncId)).
Context (Comms : list (option ValueId)).
Context (LI : LoopInfo) (Res : LoopAggretationInfo) (F : FuncId).
Context (N : list BlockId) (rank : BlockId -> nat).
Context (d0 : CommToBBToCollListMap) (own : option ValueId -> BlockId -> list Element).
Local Abbreviation wf := (wf_CL cfg (plain_label printAsOperand)).
Local Abbreviation describes := (describes printAsOperand).

(** The setting of the traversal of [F]: its collapsed graph is acyclic, the
    lists known at the start are made of registered collectives and of loops
    whose labels hold no parenthesis, those of the callees are not computed from
    [F]'s own, and [own] is what each block makes by itself: for a header its
    loop, for another block its calls. *)
Record setting : Prop := {
  st_dag : collapsed_dag M LI Res F N rank;
  st_comms : NoDup Comms;
  st_lists : forall Comm b l, Comm ∈ Comms -> lists_of d0 Comm !! b = Some l -> wf l;
  st_callees : forall b I Fn e, b ∈ N -> I ∈ insts (block M b) -> Fn ∈ may_call icm I ->
    getEntryBlock M Fn = Some e -> e ∉ N;
  st_header : forall Comm b, Comm ∈ Comms -> b ∈ N -> IsLoopHeader Res b = true ->
    exists l, lists_of d0 Comm !! b = Some l /\ is_Some (LoopHeader_ l) /\ own Comm b = inlined l;
  st_block : forall Comm b, Comm ∈ Comms -> b ∈ N -> IsLoopHeader Res b = false ->
    block_makes cfg opts M loads icm (lists_of d0 Comm) Comm b (own Comm b)
}.

Hypothesis ST : setting.
Local Abbreviation succ := (cfg_succs M Res).

Lemma own_wf Comm b :
  Comm ∈ Comms -> b ∈ N -> Forall (wf_element cfg (plain_label printAsOperand)) (own Comm b).
Proof.
  intros HC Hb. destruct (IsLoopHeader Res b) eqn:Eh.
  - destruct (st_header ST Comm b HC Hb Eh) as (l & El & _ & ->). apply wf_inlined. by eapply (st_lists ST).
  - eapply block_makes_wf; [|by apply (st_block ST)]. intros e l. by apply (st_lists ST).
Qed.

(** The lists once the blocks of [visited] have been visited. *)
Definition computed (visited : list BlockId) (Comm : option ValueId) (Lists : BBToCollListMap) : Prop :=
  (forall b, b ∈ visited -> exists L, Lists !! b = Some (MkCL None L) /\
     wf (MkCL None L) /\ describes succ (own Comm) b L) /\
  (forall b, b ∉ visited -> Lists !! b = lists_of d0 Comm !! b).

Lemma inlined_plain L : inlined (MkCL None L) = L.
Proof. by destruct L. Qed.

(** The list before the successors are taken into account. *)
Lemma current_list visited Comm Lists b (v : bool) :
  Comm ∈ Comms -> b ∈ N -> (forall x, x ∈ visited -> x ∈ N) -> b ∉ visited -> computed visited Comm Lists ->
  (if IsLoopHeader Res b then
     Ok (if v then extendWithElement empty_CL NavsElement
         else extendWith empty_CL (default empty_CL (Lists !! b)))
   else CreateFromBB cfg opts M loads icm Lists v b Comm) =
  Ok (MkCL None (if v then [NavsElement] else own Comm b)).
Proof.
  intros HC HbN Hvis Hb [_ Hold]. destruct (IsLoopHeader Res b) eqn:Eh.
  - destruct v; [done|]. destruct (st_header ST Comm b HC HbN Eh) as (l & El & _ & ->).
    rewrite (eq_trans (Hold b Hb) El). simpl. f_equal. unfold extendWith. simpl. f_equal.
    etransitivity; [apply (add_at l [] [])|apply app_nil_r].
  - destruct v; [done|]. rewrite <- (CreateFromBB_makes _ _ _ _ _ _ _ _ _ (st_block ST Comm b HC HbN Eh)).
    apply CreateFromBB_ext.
    intros I Fn e HI HF He. apply Hold. intros Hv. eapply (st_callees ST b I Fn e); eauto.
Qed.

(** The list computed for a block whose successors have been visited. *)
Lemma compute_spec visited Comm Lists b :
  Comm ∈ Comms -> b ∈ N -> (forall x, x ∈ visited -> x ∈ N) -> b ∉ visited ->
  (forall c, c ∈ succ b -> c ∈ visited) -> computed visited Comm Lists ->
  exists L, compute cfg opts M loads printAsOperand icm Lists (succ b) b (IsLoopHeader Res b) Comm
    = Ok (MkCL None L) /\ wf (MkCL None L) /\ describes succ (own Comm) b L.
Proof.
  intros HC HbN Hvis Hb Hs HI. pose proof HI as [Hnew Hold].
  destruct (neighbors_spec cfg printAsOperand Lists (succ b)) as (v & Ev & Ht & Hf).
  { intros c Hc. destruct (Hnew c (Hs c Hc)) as (L & EL & WL & _). by exists (MkCL None L). }
  pose proof (own_wf Comm b HC HbN) as Wown.
  unfold compute. rewrite Ev. cbn [rbind]. rewrite (current_list visited) by done. cbn [rbind].
  destruct v.
  - exists [NavsElement]. split; [done|]. split; [split; [done|by repeat constructor]|].
    destruct (Ht eq_refl) as (c1 & c2 & H1 & H2 & Hne).
    destruct (Hnew c1 (Hs c1 H1)) as (L1 & E1 & _ & D1), (Hnew c2 (Hs c2 H2)) as (L2 & E2 & _ & D2).
    apply (describes_navs _ _ _ b c1 c2 L1 L2); [done..|]. intros Ha. apply Hne. rewrite E1, E2.
    unfold labelled_CL. simpl. by rewrite Ha.
  - specialize (Hf eq_refl). destruct (succ b) as [|c r] eqn:Es.
    + exists (own Comm b). split; [done|]. split; [by split|]. by apply describes_exit.
    + destruct (Hnew c (Hs c (list_elem_of_here _ _))) as (L & EL & [_ WL] & DL).
      exists (own Comm b ++ L). rewrite EL. cbn [of_option rbind]. split; [|split].
      * f_equal. unfold extendWith. simpl. pose proof (add_at (MkCL None L) (own Comm b) []) as Ha.
        rewrite !app_nil_r, inlined_plain in Ha. by rewrite Ha.
      * split; [done|]. simpl in *. by apply Forall_app.
      * eapply (describes_cons _ _ _ b c); [rewrite Es; apply list_elem_of_here|done|].
        intros c' Hc'. rewrite Es in Hc'. destruct (Hnew c' (Hs c' Hc')) as (L' & EL' & _ & D').
        exists L'. split; [done|]. specialize (Hf c' c Hc' (list_elem_of_here _ _)). rewrite EL, EL' in Hf.
        by injection Hf.
Qed.

(** Visiting a block whose successors have been visited. *)
Lemma visit_comm_spec visited Comm Lists b :
  Comm ∈ Comms -> b ∈ N -> (forall x, x ∈ visited -> x ∈ N) -> b ∉ visited ->
  (forall c, c ∈ succ b -> c ∈ visited) -> computed visited Comm Lists ->
  exists Lists', cfg_visit_comm cfg opts M loads printAsOperand icm Res b (IsLoopHeader Res b) Comm Lists
    = Ok Lists' /\ computed (visited ++ [b]) Comm Lists'.
Proof.
  intros HC HbN Hvis Hb Hs HI. pose proof HI as [Hnew Hold].
  destruct (compute_spec visited Comm Lists b) as (L & EL & WL & DL); [done..|].
  exists (<[b := MkCL None L]> Lists). unfold cfg_visit_comm. split.
  - assert (guard (negb (IsLoopHeader Res b) ||
      bool_decide (is_Some (LoopHeader_ (default empty_CL (Lists !! b))))) = Ok tt) as ->.
    { destruct (IsLoopHeader Res b) eqn:Eh; [|done]. simpl.
      destruct (st_header ST Comm b HC HbN Eh) as (l & El & Hl & _). rewrite (eq_trans (Hold b Hb) El). simpl.
      by rewrite bool_decide_true. }
    cbn [rbind]. by rewrite EL.
  - split.
    + intros x Hx. destruct (decide (x = b)) as [->|Hne].
      * exists L. by rewrite lookup_insert_eq.
      * rewrite lookup_insert_ne by congruence. apply Hnew. set_solver.
    + intros x Hx. rewrite lookup_insert_ne by set_solver. apply Hold. set_solver.
Qed.

(** The traversal, in its order. *)
Lemma visit_all order : forall visited d,
  NoDup (visited ++ order) -> (forall x, x ∈ visited ++ order -> x ∈ N) ->
  topological succ (visited ++ order) ->
  (forall Comm, Comm ∈ Comms -> computed visited Comm (lists_of d Comm)) ->
  exists d', rfold (fun d b => cfg_visitBB cfg opts M loads printAsOperand icm Comms Res b
      (IsLoopHeader Res b) d) order d = Ok d' /\
    forall Comm, Comm ∈ Comms -> computed (visited ++ order) Comm (lists_of d' Comm).
Proof.
  induction order as [|b order IH]; intros visited d Hn HN Ht HI.
  - exists d. rewrite app_nil_r. done.
  - cbn [rfold]. destruct (comms_fold
      (cfg_visit_comm cfg opts M loads printAsOperand icm Res b (IsLoopHeader Res b))
      (computed (visited ++ [b])) Comms d (st_comms ST)) as (d1 & Ed & HI1).
    { intros Comm HC. apply visit_comm_spec; auto.
      - apply HN. set_solver.
      - intros x Hx. apply HN. set_solver.
      - apply NoDup_app in Hn as (_ & Hn & _). intros Hb. apply (Hn b Hb), list_elem_of_here.
      - intros c Hc. eapply Ht; [reflexivity|done]. }
    unfold cfg_visitBB at 1. rewrite Ed. cbn [rbind].
    destruct (IH (visited ++ [b]) d1) as (d' & Ed' & HI'); rewrite <- ?app_assoc; auto.
    exists d'. split; [done|]. by rewrite <- app_assoc in HI'.
Qed.

(** C1 (lists). Over a function whose collapsed graph is acyclic, given the
    lists of its loops and of its callees, the analysis returns after at most as
    many turns as the square of the number of blocks, and every block's list, for
    every communicator, is free of NAVS exactly when all the ways from the block
    to an exit make the same sequence of collectives and loops, the loops up to
    the labels of their headers, and none calls a function whose own list holds
    NAVS; the list is then that sequence.  What a block makes is defined apart
    from the source ([block_makes]): in the order of its calls, the enabled
    collectives of the communicator and the lists of the other functions the
    calls may run; a header makes its loop, one element whatever happens inside.
    The lists known at the start are made of registered collectives and of loops
    whose labels hold no parenthesis, and no call starts in the function itself. *)
Theorem lists_describe_paths : N <> [] ->
  exists d, (forall fuel, (length N * length N <= fuel)%nat ->
      CFGVisitor_Visit M LI Res
        (cfg_visitBB cfg opts M loads printAsOperand icm Comms Res) fuel F d0 = Ok d) /\
    forall Comm b, Comm ∈ Comms -> b ∈ N ->
      exists L, lists_of d Comm !! b = Some (MkCL None L) /\
        describes succ (own Comm) b L.
Proof.
  intros Hne. destruct (CFGVisitor_order M LI Res F
    (cfg_visitBB cfg opts M loads printAsOperand icm Comms Res) N rank (st_dag ST) Hne)
    as (order & Hp & Ht & Hv).
  destruct (visit_all order [] d0) as (d & Ed & HI).
  - cbn [app]. rewrite Hp. apply (st_dag ST).
  - intros x Hx. cbn [app] in Hx. by rewrite Hp in Hx.
  - done.
  - intros Comm _. split; [set_solver|done].
  - exists d. split; [intros fuel Hf; by rewrite Hv|]. intros Comm b HC Hb.
    destruct (HI Comm HC) as [Hnew _]. destruct (Hnew b) as (L & EL & _ & DL); [cbn [app]; by rewrite Hp|].
    eauto.
Qed.

End Sound.

(** * An example: [if (c) MPI_Barrier(comm);] *)

(** What each of its blocks makes. *)
Definition diamond_own (b : BlockId) : list Element :=
  if decide (b = 1%N) then [CollElement MPI_Barrier_coll] else [].

Lemma diamond_setting :
  setting full_build mpi_options diamond 8 (fun b => label (block diamond b)) no_indirect [Some 7%N]
    no_loops LAI_clear 0 [0; 1; 2]%N (fun b => N.to_nat (2 - b)) ∅ (fun _ => diamond_own).
Proof.
  split.
  - split.
    + apply (bool_decide_unpack _). vm_compute. exact I.
    + intros b. change (exits diamond 0) with [2%N]. unfold cfg_succs. simpl. split.
      * intros Hb. enum Hb. split; [set_solver|done].
      * intros [Hb E]. enum Hb; [discriminate..|set_solver].
    + apply (bool_decide_unpack _). vm_compute. exact I.
    + intros b c Hb Hc. unfold cfg_succs in Hc. enum Hb; simpl in Hc; enum Hc;
        (split; [set_solver|apply Nat.ltb_lt; reflexivity]).
    + intros c Hc. enum Hc; (eexists; split; [reflexivity|]); split; intros b Hb; try set_solver;
        intros Hs; unfold cfg_succs in Hs; enum Hb; simpl in *; set_solver.
  - apply NoDup_singleton.
  - intros Comm b l _ Hl. unfold lists_of in Hl. by rewrite !lookup_empty in Hl.
  - intros b I Fn e Hb HI HF He. enum Hb; simpl in HI; enum HI; simpl in HF; enum HF. discriminate.
  - discriminate.
  - intros Comm b HC Hb _. enum HC. unfold block_makes. enum Hb; simpl; try constructor.
    apply (calls_cons _ _ _ _ _ _ _ _ [CollElement MPI_Barrier_coll] []); [|constructor].
    apply makes_collective; [reflexivity|]. intros m _ [= <-]. right. reflexivity.
Qed.

Lemma lists_describe_paths_witness :
  exists d L, CFGVisitor_Visit diamond no_loops LAI_clear
    (cfg_visitBB full_build mpi_options diamond 8 (fun b => label (block diamond b)) no_indirect
       [Some 7%N] LAI_clear) 9 0 ∅ = Ok d /\
    lists_of d (Some 7%N) !! 0%N = Some (MkCL None L) /\ ~ (NavsElement ∉ L).
Proof.
  destruct (lists_describe_paths _ _ _ _ _ _ _ _ _ _ _ _ _ _ diamond_setting) as (d & Hd & Hl);
    [discriminate|].
  destruct (Hl (Some 7%N) 0%N) as (L & EL & DL & _); [apply list_elem_of_here..|].
  exists d, L. split; [apply Hd; simpl; lia|]. split; [exact EL|].
  intros HL. apply DL in HL.
  assert (2%N ∈ cfg_succs diamond LAI_clear 0) as H02 by (vm_compute; set_solver).
  assert (1%N ∈ cfg_succs diamond LAI_clear 0) as H01 by (vm_compute; set_solver).
  assert (2%N ∈ cfg_succs diamond LAI_clear 1) as H12 by (vm_compute; set_solver).
  pose proof (trace_exit (cfg_succs diamond LAI_clear) diamond_own 2%N eq_refl) as T2.
  discriminate (proj2 (HL _ _ (trace_step _ _ _ _ _ H02 T2)
                  (trace_step _ _ _ _ _ H01 (trace_step _ _ _ _ _ H12 T2)))).
Defined.
