(* ===== verification/CollListLoopSound.v ===== *)
(** What the lists of a loop mean.  Over an innermost loop the traversal returns,
    and the list of a block is free of NAVS exactly when all the ways from the
    header to it make the same sequence of collectives -- which is then the list;
    the header takes the list of the source of the back edge. *)
From S2P Require Import Prelude IR Utils Collectives CollectiveList CfgVisitors CollListAnalysis CollListSound Samples.

(** The sequences of collectives of the ways from the header to a block; the
    header itself counts for nothing. *)
Inductive way (pred : BlockId -> list BlockId) (header : BlockId) (own : BlockId -> list Element) :
  BlockId -> list Element -> Prop :=
| way_header : way pred header own header []
| way_step b p t : b <> header -> p ∈ pred b -> way pred header own p t -> way pred header own b (t ++ own b).

Section Ways.
Context (printAsOperand : BlockId -> string).
Context (pred : BlockId -> list BlockId) (header : BlockId) (own : BlockId -> list Element).
Local Abbreviation alike := (alike printAsOperand).
Local Abbreviation way := (way pred header own).

Definition uniform_ways (b : BlockId) : Prop :=
  forall t t', way b t -> way b t' -> (NavsElement ∉ t) /\ alike t t'.

Definition describes_ways (b : BlockId) (L : list Element) : Prop :=
  ((NavsElement ∉ L) <-> uniform_ways b) /\ (NavsElement ∉ L -> way b L).

Lemma way_inv b t : way b t ->
  (b = header /\ t = []) \/ exists p t', b <> header /\ p ∈ pred b /\ way p t' /\ t = t' ++ own b.
Proof. destruct 1; eauto 8. Qed.

Lemma uniform_pred b p : uniform_ways b -> b <> header -> p ∈ pred b -> uniform_ways p.
Proof.
  intros Hu Hb Hp t t' H H'.
  destruct (Hu (t ++ own b) (t' ++ own b)) as [Hn Ha]; [by eapply way_step..|].
  split; [set_solver|]. by apply alike_app_r in Ha.
Qed.

Lemma ways_header : describes_ways header [].
Proof.
  assert (forall t, way header t -> t = []) as Hh by (intros t [[_ ->]|(p & t' & [] & _)]%way_inv; done).
  split; [split|]; [|set_solver|constructor].
  intros _ t t' ->%Hh ->%Hh. split; [set_solver|done].
Qed.

(** Two predecessors that differ: the block is NAVS. *)
Lemma ways_navs b p1 p2 L1 L2 : b <> header ->
  p1 ∈ pred b -> p2 ∈ pred b -> describes_ways p1 L1 -> describes_ways p2 L2 -> ~ alike L1 L2 ->
  describes_ways b [NavsElement].
Proof.
  intros Hb H1 H2 [U1 T1] [U2 T2] Hne.
  split; [split|]; [intros []; apply list_elem_of_here| |intros []; apply list_elem_of_here].
  intros Hu. exfalso. apply Hne. eapply (alike_app_r _ (own b)), Hu; (eapply way_step; [done| |]).
  - exact H1.
  - apply T1, U1. by eapply uniform_pred.
  - exact H2.
  - apply T2, U2. by eapply uniform_pred.
Qed.

(** Predecessors that agree: their collectives, then the block's own. *)
Lemma ways_snoc b p L : b <> header -> p ∈ pred b -> describes_ways p L ->
  (forall p', p' ∈ pred b -> exists L', describes_ways p' L' /\ alike L' L) -> describes_ways b (L ++ own b).
Proof.
  intros Hb Hp [Up Tp] Hall. split; [split|].
  - intros HL. assert (NavsElement ∉ own b) as Hown by set_solver.
    assert (forall t, way b t -> (NavsElement ∉ t) /\ alike t (L ++ own b)) as Heq.
    { intros t [[-> _]|(p' & t' & _ & Hp' & Ht' & ->)]%way_inv; [done|].
      destruct (Hall p' Hp') as (L' & [Up' Tp'] & Ha). rewrite alike_app_r.
      assert (NavsElement ∉ L') as HL' by (rewrite (alike_navs _ _ _ Ha); set_solver).
      destruct (proj1 Up' HL' t' L' Ht' (Tp' HL')) as [Hn Ht]. split; [set_solver|]. by etransitivity. }
    intros t t' [H1 H2]%Heq [H3 H4]%Heq. split; [done|]. by etransitivity.
  - intros Hu. assert (NavsElement ∉ L) as HL by (apply Up; by eapply uniform_pred).
    assert (way b (L ++ own b)) as Ht by (eapply way_step; eauto).
    by destruct (Hu _ _ Ht Ht).
  - intros HL. eapply way_step; [done..|]. apply Tp. set_solver.
Qed.

End Ways.

Section LoopSound.
Context (cfg : BuildConfig) (opts : Options) (M : Module_) (loads : nat).
Context (printAsOperand : BlockId -> string).
Context (icm : InstId -> option (list FuncId)).
Context (Comms : list (option ValueId)).
Context (LI : LoopInfo) (L : Loop) (lai0 : LoopAggretationInfo) (Incoming BackEdge : BlockId) (rank : BlockId -> nat).
Context (d0 : CommToBBToCollListMap) (own : option ValueId -> BlockId -> list Element).
Local Abbreviation wf := (wf_CL cfg (plain_label printAsOperand)).
Local Abbreviation N := (loopBlocks L).
Local Abbreviation h := (getHeader L).
Local Abbreviation describes Comm := (describes_ways printAsOperand (predecessors M) h (own Comm)).
Local Abbreviation visit := (loop_visitBB cfg opts M loads printAsOperand icm Comms).

(** The setting of the traversal of an innermost loop: no list is known yet for
    its blocks, those known are made of registered collectives and loops whose
    labels hold no parenthesis, none of them is computed from the loop's own, and
    [own] is what the calls of each block but the header make. *)
Record loop_setting : Prop := {
  ls_loop : innermost M LI L lai0 Incoming BackEdge rank;
  ls_comms : NoDup Comms;
  ls_lists : forall Comm b l, Comm ∈ Comms -> lists_of d0 Comm !! b = Some l -> wf l;
  ls_fresh : forall Comm b, Comm ∈ Comms -> b ∈ N -> lists_of d0 Comm !! b = None;
  ls_callees : forall b I Fn e, b ∈ N -> I ∈ insts (block M b) -> Fn ∈ may_call icm I ->
    getEntryBlock M Fn = Some e -> e ∉ N;
  ls_block : forall Comm b, Comm ∈ Comms -> b ∈ N -> b <> h ->
    block_makes cfg opts M loads icm (lists_of d0 Comm) Comm b (own Comm b)
}.

Hypothesis LS : loop_setting.
Local Abbreviation laim m := (lai_with L lai0 Incoming m).

(** The lists once the blocks of [visited] have been visited. *)
Definition loop_computed (visited : list BlockId) (Comm : option ValueId) (Lists : BBToCollListMap) : Prop :=
  (forall b, b ∈ visited -> exists es, Lists !! b = Some (MkCL None es) /\
     wf (MkCL None es) /\ describes Comm b es /\ (b = h -> es = [])) /\
  (forall b, b ∉ visited -> Lists !! b = lists_of d0 Comm !! b).

Lemma inserted visited Comm Lists b es :
  loop_computed visited Comm Lists -> wf (MkCL None es) -> describes Comm b es -> (b = h -> es = []) ->
  loop_computed (visited ++ [b]) Comm (<[b := MkCL None es]> Lists).
Proof.
  intros [Hnew Hold] Hwf Hd Hh. split.
  - intros x Hx. destruct (decide (x = b)) as [->|Hne].
    + exists es. by rewrite lookup_insert_eq.
    + rewrite lookup_insert_ne by congruence. apply Hnew. set_solver.
  - intros x Hx. rewrite lookup_insert_ne by set_solver. apply Hold. set_solver.
Qed.

(** The list computed for a block whose predecessors have been visited. *)
Lemma loop_list_spec visited Comm Lists b m :
  Comm ∈ Comms -> b ∈ N -> b <> h -> (forall x, x ∈ visited -> x ∈ N) -> b ∉ visited ->
  (forall c, c ∈ predecessors M b -> c ∈ visited) -> loop_computed visited Comm Lists ->
  exists es, loop_list cfg opts M loads printAsOperand icm (laim m) b Comm Lists = Ok (MkCL None es) /\
    wf (MkCL None es) /\ describes Comm b es.
Proof.
  intros HC HbN Hbh Hvis Hb Hp HI. pose proof HI as [Hnew Hold].
  destruct (neighbors_spec cfg printAsOperand Lists (predecessors M b)) as (v & Ev & Ht & Hf).
  { intros c Hc. destruct (Hnew c (Hp c Hc)) as (es & E & W & _). by exists (MkCL None es). }
  assert (forall v, CreateFromBB cfg opts M loads icm Lists v b Comm =
    Ok (MkCL None (if v : bool then [NavsElement] else own Comm b))) as Hcreate.
  { intros []; [done|]. rewrite <- (CreateFromBB_makes _ _ _ _ _ _ _ _ _ (ls_block LS Comm b HC HbN Hbh)).
    apply CreateFromBB_ext. intros I Fn e HI' HF He. apply Hold. intros Hv. eapply (ls_callees LS b I Fn e); eauto. }
  assert (Forall (wf_element cfg (plain_label printAsOperand)) (own Comm b)) as Wown.
  { eapply block_makes_wf; [|by apply (ls_block LS)]. intros e l. by apply (ls_lists LS). }
  pose proof (il_reached _ _ _ _ _ _ _ (ls_loop LS) b HbN Hbh) as Hne.
  unfold loop_list. destruct (predecessors M b) as [|p r] eqn:Ep; [done|]. cbn [head of_option rbind].
  assert (LoopHeaderToIncomingBlock (laim m) !! b = None) as ->.
  { unfold lai_with. cbn [LoopHeaderToIncomingBlock].
    rewrite (lookup_insert_ne (LoopHeaderToIncomingBlock lai0)) by done. by apply (il_incoming _ _ _ _ _ _ _ (ls_loop LS)). }
  rewrite bool_decide_false by by intros [? ?]. rewrite Ev. cbn [rbind]. rewrite Hcreate. cbn [rbind].
  destruct v.
  - exists [NavsElement]. split; [done|]. split; [split; [done|by repeat constructor]|].
    destruct (Ht eq_refl) as (c1 & c2 & H1 & H2 & Hdiff).
    destruct (Hnew c1 (Hp c1 H1)) as (L1 & E1 & _ & D1 & _), (Hnew c2 (Hp c2 H2)) as (L2 & E2 & _ & D2 & _).
    rewrite <- Ep in H1, H2. apply (ways_navs _ _ _ _ b c1 c2 L1 L2); [done..|]. intros Ha. apply Hdiff. rewrite E1, E2.
    unfold labelled_CL. simpl. by rewrite Ha.
  - specialize (Hf eq_refl). destruct (Hnew p (Hp p (list_elem_of_here _ _))) as (es & E & [_ W] & D & _).
    exists (es ++ own Comm b). rewrite E. cbn [default]. split; [|split].
    + f_equal. destruct (prependWith (MkCL None (own Comm b)) (MkCL None es)) as [hd l] eqn:E'.
      pose proof (f_equal List_ E') as E1. pose proof (f_equal LoopHeader_ E') as E2.
      rewrite List_prependWith, inlined_plain in E1. simpl in E1, E2. by subst.
    + split; [done|]. simpl in *. by apply Forall_app.
    + eapply (ways_snoc _ _ _ _ b p); [done|rewrite Ep; apply list_elem_of_here|done|].
      intros p' Hp'. rewrite Ep in Hp'. destruct (Hnew p' (Hp p' Hp')) as (L' & EL' & _ & D' & _).
      exists L'. split; [done|]. specialize (Hf p' p Hp' (list_elem_of_here _ _)). rewrite E, EL' in Hf. by injection Hf.
Qed.

(** Where no list is there yet, the communicators are visited one by one. *)
Lemma loop_visit_comms_fold lai b Cs d : NoDup Cs -> (forall Comm, Comm ∈ Cs -> lists_of d Comm !! b = None) ->
  loop_visit_comms cfg opts M loads printAsOperand icm lai b Cs d =
  rfold (fun d Comm => let* l := (let* C := loop_list cfg opts M loads printAsOperand icm lai b Comm (lists_of d Comm) in
                                  Ok (<[b := C]> (lists_of d Comm))) in Ok (<[Comm := l]> d)) Cs d.
Proof.
  intros Hn. revert d. induction Hn as [|c Cs Hc Hn IH]; intros d Hd; [done|].
  cbn [loop_visit_comms rfold]. rewrite (Hd c) by apply list_elem_of_here.
  destruct (loop_list _ _ _ _ _ _ lai b c (lists_of d c)) as [C| |]; cbn [rbind]; [|done..].
  apply IH. intros Comm HC. rewrite lists_of_insert, decide_False by (intros ->; done).
  apply Hd. by apply list_elem_of_further.
Qed.

Lemma rfold_fold_left {A B} (f : A -> B -> A) l a : rfold (fun a b => Ok (f a b)) l a = Ok (fold_left f l a).
Proof. revert a. induction l as [|b l IH]; intros a; [done|]. apply IH. Qed.

(** Visiting a block whose predecessors have been visited. *)
Lemma loop_visit_spec visited b d m :
  b ∈ N -> (forall x, x ∈ visited -> x ∈ N) -> b ∉ visited -> (forall c, c ∈ body_preds M L b -> c ∈ visited) ->
  (forall Comm, Comm ∈ Comms -> loop_computed visited Comm (lists_of d Comm)) ->
  exists d', visit (laim m) L b d = Ok d' /\
    forall Comm, Comm ∈ Comms -> loop_computed (visited ++ [b]) Comm (lists_of d' Comm).
Proof.
  intros HbN Hvis Hb Hp HI. unfold loop_visitBB.
  assert (forall Comm, Comm ∈ Comms -> lists_of d Comm !! b = None) as Hnone.
  { intros Comm HC. etransitivity; [apply (HI Comm HC), Hb|]. by apply (ls_fresh LS). }
  case_bool_decide as Eh.
  - destruct (comms_fold (fun Comm l => Ok (insert_new b empty_CL l)) (loop_computed (visited ++ [b])) Comms d (ls_comms LS))
      as (d' & Ed & Hd').
    { intros Comm HC. eexists. split; [reflexivity|]. unfold insert_new. rewrite Hnone by done.
      apply inserted; [by apply HI|split; [done|constructor]|subst b; apply ways_header|done]. }
    exists d'. split; [|done]. rewrite <- Ed. symmetry.
    apply (rfold_fold_left (fun d Comm => <[Comm := insert_new b empty_CL (lists_of d Comm)]> d)).
  - rewrite loop_visit_comms_fold by (apply LS || done).
    apply (comms_fold (fun Comm l => let* C := loop_list cfg opts M loads printAsOperand icm (laim m) b Comm l in Ok (<[b := C]> l)));
      [apply LS|].
    intros Comm HC. unfold body_preds in Hp. rewrite decide_False in Hp by done.
    destruct (loop_list_spec visited Comm (lists_of d Comm) b m) as (es & E & W & D); [auto..|].
    exists (<[b := MkCL None es]> (lists_of d Comm)). rewrite E. split; [done|]. by apply inserted; [apply HI|..].
Qed.

(** The blocks of the loop, in the order of the traversal. *)
Lemma loop_visit_all order : forall visited m d,
  NoDup (visited ++ order) -> (forall x, x ∈ visited ++ order -> x ∈ N) ->
  topological (body_preds M L) (visited ++ order) ->
  (forall Comm, Comm ∈ Comms -> loop_computed visited Comm (lists_of d Comm)) ->
  exists md, rfold (fun md b => visit_body M L visit lai0 Incoming b md) order (m, d) = Ok md /\
    forall Comm, Comm ∈ Comms -> loop_computed (visited ++ order) Comm (lists_of md.2 Comm).
Proof.
  induction order as [|b order IH]; intros visited m d Hn HN Ht HI.
  - exists (m, d). rewrite app_nil_r. done.
  - cbn [rfold]. destruct (loop_visit_spec visited b d m) as (d1 & Ed & HI1).
    + apply HN. set_solver.
    + intros x Hx. apply HN. set_solver.
    + apply NoDup_app in Hn as (_ & Hn & _). intros Hb. apply (Hn b Hb), list_elem_of_here.
    + intros c Hc. eapply Ht; [reflexivity|done].
    + done.
    + unfold visit_body at 1. cbn [fst snd]. rewrite Ed. cbn [rbind].
      destruct (IH (visited ++ [b]) (add_exits M L b m) d1) as (md & E & H); rewrite <- ?app_assoc; auto.
      exists md. split; [exact E|]. by rewrite <- app_assoc in H.
Qed.

(** The header takes the list of the source of the back edge. *)
Lemma loop_end_spec d :
  (forall Comm, Comm ∈ Comms -> loop_computed N Comm (lists_of d Comm)) ->
  exists d', loop_endOfLoop Comms L d = Ok d' /\ forall Comm, Comm ∈ Comms ->
    exists es, describes Comm BackEdge es /\ lists_of d' Comm !! h = Some (MkCL (Some h) es) /\
      forall b, b <> h -> lists_of d' Comm !! b = lists_of d Comm !! b.
Proof.
  intros HI. pose proof (il_header _ _ _ _ _ _ _ (ls_loop LS)) as Hh. pose proof (il_back _ _ _ _ _ _ _ (ls_loop LS)) as Hbk.
  unfold loop_endOfLoop. rewrite (il_edges _ _ _ _ _ _ _ (ls_loop LS)). cbn [fmap option_fmap option_map of_option rbind snd].
  set (g := fun (Comm : option ValueId) (Lists : BBToCollListMap) =>
    let* l := of_option (Lists !! h) in let* _ := guard (bool_decide (List_ l = [])) in
    Ok (<[h := loop_CL h (default empty_CL (Lists !! BackEdge))]> Lists)).
  destruct (comms_fold g (fun Comm l => exists es, describes Comm BackEdge es /\ l !! h = Some (MkCL (Some h) es) /\
    forall b, b <> h -> l !! b = lists_of d Comm !! b) Comms d (ls_comms LS)) as (d' & Ed & Hd').
  { intros Comm HC. destruct (HI Comm HC) as [Hnew _].
    destruct (Hnew h Hh) as (e0 & E0 & _ & _ & Hnil). destruct (Hnew BackEdge Hbk) as (es & E & _ & D & _).
    rewrite (Hnil eq_refl) in E0. unfold g. rewrite E0, E. cbn [of_option rbind List_].
    rewrite bool_decide_true by done. cbn [guard rbind]. eexists. split; [reflexivity|]. exists es. split; [done|].
    split; [|intros b Hb; by apply lookup_insert_ne]. rewrite (lookup_insert_eq (lists_of d Comm)).
    unfold loop_CL. rewrite copy_CL_id. done. }
  exists d'. split; [|done]. rewrite <- Ed. apply rfold_ext. intros Comm _ d1. unfold g. cbv zeta.
  destruct (of_option (lists_of d1 Comm !! h)) as [l| |]; cbn [rbind]; [|done..].
  by destruct (guard (bool_decide (List_ l = []))).
Qed.

(** C21 (loops). Over an innermost loop -- entered by its header only, acyclic
    without the edges into it -- the traversal returns after at most as many turns
    as the square of the number of blocks.  For every communicator, the list of a
    block is free of NAVS exactly when all the ways from the header to it make the
    same sequence, loops up to the labels of their headers, and none calls
    a function whose list holds NAVS; the list is then that sequence.  The
    collectives of the header itself count for nothing.  The header takes the
    list of the source of the back edge as that of the loop, the successors of
    the loop are the blocks outside that one of its blocks goes to, and the lists
    of other blocks are untouched.  The lists known at the start are made of
    registered collectives and of loops whose labels hold no parenthesis, and no
    call starts in the loop itself. *)
Theorem loop_lists_describe_ways :
  exists lai d, (forall fuel, (length N * length N <= fuel)%nat ->
      VisitLoop M LI visit (loop_endOfLoop Comms) fuel L (lai0, d0) = Ok (lai, d)) /\
    LoopHeaderToIncomingBlock lai = <[h := Incoming]> (LoopHeaderToIncomingBlock lai0) /\
    (exists ss, LoopHeaderToSuccessors lai !! h = Some ss /\
       forall x, x ∈ ss <-> (x ∉ N) /\ exists b, b ∈ N /\ x ∈ successors M b) /\
    forall Comm, Comm ∈ Comms ->
      (exists es, lists_of d Comm !! h = Some (MkCL (Some h) es) /\ describes Comm BackEdge es) /\
      (forall b, b ∈ N -> b <> h -> exists es, lists_of d Comm !! b = Some (MkCL None es) /\ describes Comm b es) /\
      (forall b, b ∉ N -> lists_of d Comm !! b = lists_of d0 Comm !! b).
Proof.
  pose proof (ls_loop LS) as IL.
  destruct (VisitLoop_order M LI L visit (loop_endOfLoop Comms) lai0 Incoming BackEdge rank IL) as (order & Hp & Ht & Hv).
  assert (forall x, x ∈ order <-> x ∈ N) as Hin by (intros x; by rewrite Hp).
  destruct (loop_visit_all order [] (<[h := []]> (LoopHeaderToSuccessors lai0)) d0) as (md & Em & HI).
  { cbn [app]. rewrite Hp. apply IL. }
  { intros x. cbn [app]. apply Hin. }
  { done. }
  { intros Comm _. split; [set_solver|done]. }
  cbn [app] in HI.
  assert (forall Comm, Comm ∈ Comms -> loop_computed N Comm (lists_of md.2 Comm)) as HI'.
  { intros Comm HC. destruct (HI Comm HC) as [H1 H2]. split; [intros b Hb; apply H1; by apply Hin|].
    intros b Hb. apply H2. by rewrite Hin. }
  destruct (loop_end_spec md.2 HI') as (d & Ed & Hd).
  destruct (visits_exits M LI L visit (loop_endOfLoop Comms) lai0 Incoming BackEdge rank IL order _ [] d0 md
    (lookup_insert_eq _ _ _) Em) as (ss & Ess & Hss & _).
  exists (lai_with L lai0 Incoming md.1), d. split; [|split; [done|split]].
  - intros fuel Hf. rewrite Hv by done. rewrite Em. cbn [rbind]. by rewrite Ed.
  - exists ss. split; [exact Ess|]. intros x. rewrite Hss. setoid_rewrite Hin. set_solver.
  - intros Comm HC. destruct (Hd Comm HC) as (es & D & E & Hrest). destruct (HI' Comm HC) as [H1 H2]. split; [|split].
    + exists es. done.
    + intros b Hb Hbh. destruct (H1 b Hb) as (eb & Eb & _ & Db & _). exists eb. by rewrite Hrest.
    + intros b Hb. rewrite Hrest; [by apply H2|]. intros ->. apply Hb. apply IL.
Qed.

End LoopSound.

(** * An example: [while (i) if (rank) MPI_Barrier(comm);] *)

#[local] Open Scope N_scope.

(** Blocks: 1 the header, 2 the condition on the rank, 3 the barrier, 4 the latch. *)
Definition ring : Module_ := mk_module
  [(0, mk_func "main" [0; 1; 2; 3; 4; 5]); barrier_fn]
  [(0, mk_block "%entry" [br None] [1] []);
   (1, mk_block "%while.cond" [br (Some 100)] [2; 5] [0; 4]);
   (2, mk_block "%while.body" [br (Some 101)] [3; 4] [1]);
   (3, mk_block "%if.then" [call 20 9; br None] [4] [2]);
   (4, mk_block "%if.end" [br None] [1] [2; 3]);
   (5, mk_block "%while.end" [ReturnInst 21 None] [] [1])].

Definition ring_loop : Loop := MkLoop 1 [1; 2; 3; 4] [] (Some (0, 4)).

Definition ring_LI : LoopInfo :=
  {| topLevel := [ring_loop]; loopFor := fun b => if contains ring_loop b then Some ring_loop else None |}.

Definition ring_own (b : BlockId) : list Element :=
  if decide (b = 3) then [CollElement MPI_Barrier_coll] else [].

Lemma ring_setting :
  loop_setting full_build mpi_options ring 8 (fun b => label (block ring b)) no_indirect [Some 7] ring_LI ring_loop
    LAI_clear 0 4 N.to_nat ∅ (fun _ => ring_own).
Proof.
  split.
  - split; try done.
    + apply (bool_decide_unpack _). vm_compute. exact I.
    + set_solver.
    + set_solver.
    + intros b L' Hb Hne HL. unfold ring_LI, loopFor in HL. destruct (contains ring_loop b); [|done]. by injection HL as <-.
    + intros b Hb Hne. enum Hb; done.
    + intros b c Hb Hne Hc. enum Hb; try done; simpl in Hc; enum Hc; (split; [set_solver|]; split; [apply Nat.ltb_lt; reflexivity|]);
        simpl; set_solver.
  - apply NoDup_singleton.
  - intros Comm b l _ Hl. unfold lists_of in Hl. by rewrite !lookup_empty in Hl.
  - intros Comm b _ _. unfold lists_of. by rewrite !lookup_empty.
  - intros b I Fn e Hb HI HF He. enum Hb; simpl in HI; enum HI; simpl in HF; enum HF. discriminate.
  - intros Comm b HC Hb Hne. enum HC. unfold block_makes. enum Hb; simpl; try done; try constructor.
    apply (calls_cons _ _ _ _ _ _ _ _ [CollElement MPI_Barrier_coll] []); [|constructor].
    apply makes_collective; [reflexivity|]. intros m _ [= <-]. right. reflexivity.
Qed.

(** The ways through the loop differ: its list is NAVS. *)
Lemma loop_lists_describe_ways_witness : exists lai d es,
  VisitLoop ring ring_LI (loop_visitBB full_build mpi_options ring 8 (fun b => label (block ring b)) no_indirect [Some 7])
    (loop_endOfLoop [Some 7]) 16 ring_loop (LAI_clear, ∅) = Ok (lai, d) /\
  lists_of d (Some 7) !! 1 = Some (MkCL (Some 1) es) /\ ~ (NavsElement ∉ es).
Proof.
  destruct (loop_lists_describe_ways _ _ _ _ _ _ _ _ _ _ _ _ _ _ _ ring_setting) as (lai & d & Hd & _ & _ & Hl).
  destruct (Hl (Some 7)) as [(es & Es & [De _]) _]; [apply list_elem_of_here|].
  exists lai, d, es. split; [apply Hd; simpl; lia|]. split; [exact Es|]. intros HL. apply De in HL.
  assert (1 ∈ predecessors ring 2) as H12 by (simpl; set_solver).
  assert (2 ∈ predecessors ring 3) as H23 by (simpl; set_solver).
  assert (2 ∈ predecessors ring 4) as H24 by (simpl; set_solver).
  assert (3 ∈ predecessors ring 4) as H34 by (simpl; set_solver).
  assert (2 <> getHeader ring_loop) as N2 by done. assert (3 <> getHeader ring_loop) as N3 by done.
  assert (4 <> getHeader ring_loop) as N4 by done.
  pose proof (way_step _ _ ring_own _ _ _ N2 H12 (way_header (predecessors ring) 1 ring_own)) as W2.
  discriminate (proj2 (HL _ _ (way_step _ _ _ _ _ _ N4 H24 W2)
    (way_step _ _ _ _ _ _ N4 H34 (way_step _ _ _ _ _ _ N3 H23 W2)))).
Defined.
