(* ===== verification/CollListExamples.v ===== *)
(** Programs the analysis of collectives is run on, by computation: where its
    lists lose a divergence, and where they keep it. *)
From S2P Require Import Prelude IR Collectives CollectiveList CfgVisitors CollListAnalysis Samples.
#[local] Open Scope string_scope.
#[local] Open Scope N_scope.

(** The analysis over functions given in the order of the call graph, with one
    communicator; the list of a block. *)
Definition analyse (M : Module_) (LIs : FuncId -> LoopInfo) (order : list FuncId) :
    res CommToBBToCollListMap :=
  CollListFunctionAnalysis_run full_build mpi_options M 8 (fun b => label (block M b))
    (fun _ => None) [Some 7] 200 LIs (fun _ => true) [Some <$> order].

Definition list_at (r : res CommToBBToCollListMap) (b : BlockId) : option CollectiveList :=
  match r with Ok d => lists_of d (Some 7) !! b | _ => None end.

Definition printed (M : Module_) (r : res CommToBBToCollListMap) (b : BlockId) : option string :=
  toString (fun b => label (block M b)) <$> list_at r b.

(** * [for (i) { if (rank) MPI_Barrier(comm); inner loop }]

    Blocks: 1 the header of the outer loop, 2 the condition on the rank, 3 the
    barrier, 4 the join, 5 and 6 the inner loop, 7 the latch, 8 the exit. *)

Definition nested : Module_ := mk_module
  [(0, mk_func "main" [0; 1; 2; 3; 4; 5; 6; 7; 8]); barrier_fn]
  [(0, mk_block "%entry" [br None] [1] []);
   (1, mk_block "%for.cond" [br (Some 100)] [2; 8] [0; 7]);
   (2, mk_block "%for.body" [br (Some 101)] [3; 4] [1]);
   (3, mk_block "%if.then" [call 20 9; br None] [4] [2]);
   (4, mk_block "%if.end" [br None] [5] [2; 3]);
   (5, mk_block "%for.cond1" [br (Some 102)] [6; 7] [4; 6]);
   (6, mk_block "%for.body1" [br None] [5] [5]);
   (7, mk_block "%for.inc" [br None] [1] [5]);
   (8, mk_block "%for.end" [ReturnInst 21 None] [] [1])].

Definition inner_loop : Loop := MkLoop 5 [5; 6] [] (Some (4, 6)).
Definition outer_loop : Loop := MkLoop 1 [1; 2; 3; 4; 5; 6; 7] [inner_loop] (Some (0, 7)).

Definition nested_LI : LoopInfo :=
  {| topLevel := [outer_loop];
     loopFor := fun b => if bool_decide (b ∈ [5; 6]) then Some inner_loop
                         else if contains outer_loop b then Some outer_loop else None |}.

(** The same program without the inner loop. *)
Definition flat : Module_ := mk_module
  [(0, mk_func "main" [0; 1; 2; 3; 4; 7; 8]); barrier_fn]
  [(0, mk_block "%entry" [br None] [1] []);
   (1, mk_block "%for.cond" [br (Some 100)] [2; 8] [0; 7]);
   (2, mk_block "%for.body" [br (Some 101)] [3; 4] [1]);
   (3, mk_block "%if.then" [call 20 9; br None] [4] [2]);
   (4, mk_block "%if.end" [br None] [7] [2; 3]);
   (7, mk_block "%for.inc" [br None] [1] [4]);
   (8, mk_block "%for.end" [ReturnInst 21 None] [] [1])].

Definition flat_loop : Loop := MkLoop 1 [1; 2; 3; 4; 7] [] (Some (0, 7)).

Definition flat_LI : LoopInfo :=
  {| topLevel := [flat_loop];
     loopFor := fun b => if contains flat_loop b then Some flat_loop else None |}.

(** The conditional barrier makes the loop NAVS; with any loop behind it in the
    same iteration -- even one without collectives -- it is not seen: the
    header of the inner loop keeps its own list, and what precedes it in the
    iteration is dropped. *)
Example inner_loop_hides_navs :
  printed flat (analyse flat (fun _ => flat_LI) [0]) 1 = Some "(*%for.cond(NAVS))" /\
  printed nested (analyse nested (fun _ => nested_LI) [0]) 4 = Some "(NAVS)" /\
  printed nested (analyse nested (fun _ => nested_LI) [0]) 1 = Some "()".
Proof. repeat split; vm_compute; reflexivity. Qed.

(** * [if (rank) for (i) g();] where [g] calls [MPI_Barrier] *)

Definition loop_call (body : list Instruction) : Module_ := mk_module
  [(0, mk_func "main" [0; 1; 2; 3; 4]); (1, mk_func "g" [10]); barrier_fn]
  [(0, mk_block "%entry" [br (Some 100)] [1; 4] []);
   (1, mk_block "%for.cond" [br (Some 101)] [2; 3] [0; 2]);
   (2, mk_block "%for.body" (body ++ [br None]) [1] [1]);
   (3, mk_block "%for.end" [br None] [4] [1]);
   (4, mk_block "%if.end" [ReturnInst 21 None] [] [0; 3]);
   (10, mk_block "%entry" [call 22 9; ReturnInst 23 None] [] [])].

Definition call_loop : Loop := MkLoop 1 [1; 2] [] (Some (0, 2)).

Definition call_LIs (F : FuncId) : LoopInfo :=
  if N.eqb F 0 then {| topLevel := [call_loop];
                       loopFor := fun b => if contains call_loop b then Some call_loop else None |}
  else no_loops.

(** The lists of the callees are not known to the analysis of loops: a loop
    over a call of [g] has no collective, a loop over [g]'s body has. *)
Example loop_over_call_is_empty :
  printed (loop_call [call 20 9]) (analyse (loop_call [call 20 9]) call_LIs [1; 0]) 0 = Some "(NAVS)" /\
  printed (loop_call [call 20 1]) (analyse (loop_call [call 20 1]) call_LIs [1; 0]) 10 = Some "(MPI_Barrier)" /\
  printed (loop_call [call 20 1]) (analyse (loop_call [call 20 1]) call_LIs [1; 0]) 0 = Some "()".
Proof. repeat split; vm_compute; reflexivity. Qed.

(** * [if (rank) f(); else g();], each with a loop over a barrier *)

Definition two_loops (header_of_g : string) : Module_ := mk_module
  [(0, mk_func "main" [0; 1; 2; 3]); (1, mk_func "f" [10; 11; 12; 13]);
   (2, mk_func "g" [20; 21; 22; 23]); barrier_fn]
  [(0, mk_block "%entry" [br (Some 100)] [1; 2] []);
   (1, mk_block "%if.then" [call 30 1; br None] [3] [0]);
   (2, mk_block "%if.else" [call 31 2; br None] [3] [0]);
   (3, mk_block "%if.end" [ReturnInst 32 None] [] [1; 2]);
   (10, mk_block "%entry" [br None] [11] []);
   (11, mk_block "%for.cond" [br (Some 101)] [12; 13] [10; 12]);
   (12, mk_block "%for.body" [call 33 9; br None] [11] [11]);
   (13, mk_block "%for.end" [ReturnInst 34 None] [] [11]);
   (20, mk_block "%entry" [br None] [21] []);
   (21, mk_block header_of_g [br (Some 102)] [22; 23] [20; 22]);
   (22, mk_block "%for.body" [call 35 9; br None] [21] [21]);
   (23, mk_block "%for.end" [ReturnInst 36 None] [] [21])].

Definition one_loop (h b e : BlockId) : LoopInfo :=
  let L := MkLoop h [h; b] [] (Some (e, b)) in
  {| topLevel := [L]; loopFor := fun x => if contains L x then Some L else None |}.

Definition two_LIs (F : FuncId) : LoopInfo :=
  if N.eqb F 1 then one_loop 11 12 10 else if N.eqb F 2 then one_loop 21 22 20 else no_loops.

(** Two loops are told apart by the printed name of their header alone, which
    is unique within one function only. *)
Example same_header_name :
  printed (two_loops "%while.cond") (analyse (two_loops "%while.cond") two_LIs [1; 2; 0]) 0 =
    Some "(NAVS)" /\
  printed (two_loops "%for.cond") (analyse (two_loops "%for.cond") two_LIs [1; 2; 0]) 0 =
    Some "(*%for.cond(MPI_Barrier))".
Proof. repeat split; vm_compute; reflexivity. Qed.

(** * A loop with two latches ([continue] in a [while])

    [getIncomingAndBackEdge] answers nothing for it: the loop is registered
    without successors and without incoming block, and the traversal fails on
    its header. *)

Definition two_latches : Module_ := mk_module
  [(0, mk_func "main" [0; 1; 2; 3; 4; 5]); barrier_fn]
  [(0, mk_block "%entry" [br None] [1] []);
   (1, mk_block "%while.cond" [br (Some 100)] [2; 5] [0; 3; 4]);
   (2, mk_block "%while.body" [br (Some 101)] [3; 4] [1]);
   (3, mk_block "%if.then" [br None] [1] [2]);
   (4, mk_block "%if.end" [call 20 9; br None] [1] [2]);
   (5, mk_block "%while.end" [ReturnInst 21 None] [] [1])].

Definition latches_LI : LoopInfo :=
  let L := MkLoop 1 [1; 2; 3; 4] [] None in
  {| topLevel := [L]; loopFor := fun x => if contains L x then Some L else None |}.

Example two_latches_break : analyse two_latches (fun _ => latches_LI) [0] = Broken.
Proof. vm_compute. reflexivity. Qed.
