(* ===== verification/Warnings.v ===== *)
(** Warnings (Warning.cpp) and the pass that emits them
    (CollListFunctionAnalysis.cpp: [checkWarnings], [CollectiveAnalysis::run]):
    a direct call of a collective is reported when a block of its
    interprocedural IPDF has diverging lists and a tainted condition.  The
    dependence graph is used through the interface [DepGraph]. *)
From Stdlib Require Import Ascii.
From stdpp Require Import sorting.
From S2P Require Import Prelude IR Collectives CollectiveList CollListAnalysis Utils Samples.

(** * Locations and warnings *)

Record Location := { Filename : string; Line : Z }.

(** The constructor from a [DebugLoc], which may be null. *)
Definition mk_Location (DL : option DebugLoc) : Location :=
  match DL with
  | Some l => {| Filename := getFilename l; Line := getLine l |}
  | None => {| Filename := "?"; Line := 0 |}
  end.

(** [StringRef::compare] on bytes. *)
Fixpoint str_lt (a b : string) : bool :=
  match a, b with
  | _, EmptyString => false
  | EmptyString, String _ _ => true
  | String c a', String d b' =>
      (N_of_ascii c <? N_of_ascii d)%N || ((N_of_ascii c =? N_of_ascii d)%N && str_lt a' b')
  end.

(** [operator<] by [std::tie]. *)
Definition Location_lt (a b : Location) : bool :=
  str_lt (Filename a) (Filename b) || (negb (str_lt (Filename b) (Filename a)) && (Line a <? Line b)%Z).

(** [a] may precede [b] in a sorted vector. *)
Definition Location_le (a b : Location) : Prop := Location_lt b a = false.

#[export] Instance Location_le_dec a b : Decision (Location_le a b).
Proof. unfold Location_le. apply _. Defined.

Record Warning := { MissedFunction : string; Where : Location; Conditionals : list Location }.

(** The constructor sorts the conditionals. *)
Definition mk_Warning (F : string) (DL : option DebugLoc) (C : list Location) : Warning :=
  {| MissedFunction := F; Where := mk_Location DL; Conditionals := merge_sort Location_le C |}.

Definition Warning_toString (w : Warning) : string :=
  MissedFunction w +:+ " line " +:+ pretty (Line (Where w)) +:+
  " possibly not called by all processes because of conditional(s) line(s) " +:+
  fold_right (fun Loc s => " " +:+ pretty (Line Loc) +:+ " (" +:+ Filename Loc +:+ ")" +:+ s)
    " (Call Ordering Error)" (Conditionals w).

(** * [checkWarnings] *)

(** What the pass asks of the dependence graph. *)
Class DepGraph := {
  getCallInterIPDF : InstId -> list BlockId;
  isTaintedValue : ValueId -> bool
}.

Section Check.
Context (cfg : BuildConfig) (opts : Options) (M : Module_) (loads : nat) (DG : DepGraph).
Context (CollListsPerComm : CommToBBToCollListMap).

(** The block whose list stands for [BB]: the header of its innermost loop. *)
Definition anchor (LI : LoopInfo) (BB : BlockId) : BlockId :=
  match loopFor LI BB with Some L => getHeader L | None => BB end.

(** One communicator's lists. *)
Definition or_navs (LI : LoopInfo) (CommForCollective : option ValueId) (BB : BlockId)
    (HasNAVS : bool) (p : option ValueId * BBToCollListMap) : res bool :=
  if bool_decide (CommForCollective = None) || bool_decide (p.1 = CommForCollective) then
    let* CL := of_option (p.2 !! anchor LI BB) in Ok (HasNAVS || navs CL)
  else Ok HasNAVS.

(** The loop over the lists of every communicator. *)
Definition HasNAVS (LI : LoopInfo) (CommForCollective : option ValueId) (BB : BlockId) : res bool :=
  rfold (or_navs LI CommForCollective BB) (map_to_list CollListsPerComm) false.

(** The location of the terminator. *)
Definition terminator_loc (BB : BlockId) : option DebugLoc :=
  match getTerminator M BB with
  | Some (BranchInst _ l) => l
  | Some (SwitchInst _ l) => l
  | _ => None
  end.

(** One block of the call's IPDF. *)
Definition visit_conditional (LI : LoopInfo) (CommForCollective : option ValueId)
    (Conds : list Location) (BB : BlockId) : res (list Location) :=
  let* HasNAVS := HasNAVS LI CommForCollective BB in
  if negb HasNAVS then Ok Conds
  else
    let* Cond := getBasicBlockCond M BB in
    match Cond with
    | None => Ok Conds
    | Some Cond =>
        if negb (isTaintedValue Cond) then Ok Conds
        else Ok (Conds ++ [mk_Location (terminator_loc BB)])
    end.

(** One instruction of the function. *)
Definition check_call (LI : LoopInfo) (Warnings : gmap InstId Warning) (I : Instruction) :
    res (gmap InstId Warning) :=
  match I with
  | CallInst id (Some Fn) args loc =>
      let name := getName (function M Fn) in
      match find cfg opts name with
      | None => Ok Warnings
      | Some Coll =>
          let* CommForCollective :=
            if isMPI Coll then getCommunicator M loads Coll args else Ok None in
          let* Conds := rfold (visit_conditional LI CommForCollective) (getCallInterIPDF id) [] in
          if bool_decide (Conds = []) then Ok Warnings
          else Ok (insert_new id (mk_Warning name loc Conds) Warnings)
      end
  | _ => Ok Warnings
  end.

Definition checkWarnings (LI : LoopInfo) (F : FuncId) (Warnings : gmap InstId Warning) :
    res (gmap InstId Warning) :=
  rfold (check_call LI) (instructions M F) Warnings.

(** [CollectiveAnalysis::run] over the functions of the call graph. *)
Definition CollectiveAnalysis_run (LIs : FuncId -> LoopInfo) (isReachableFromEntry : FuncId -> bool)
    (sccs : list (list (option FuncId))) : res (gmap InstId Warning) :=
  rfold (fun Result Node =>
    match Node with
    | None => Ok Result
    | Some F =>
        if isDeclaration M F || negb (isReachableFromEntry F) then Ok Result
        else checkWarnings (LIs F) F Result
    end) (concat sccs) ∅.

(** * When a call is reported *)

(** The lists of [BB] diverge for a communicator of the collective. *)
Definition diverges (LI : LoopInfo) (C : option ValueId) (BB : BlockId) : Prop :=
  exists Comm Lists l, CollListsPerComm !! Comm = Some Lists /\ (C = None \/ Comm = C) /\
    Lists !! anchor LI BB = Some l /\ navs l = true.

(** ... and the condition [BB] branches on is tainted. *)
Definition dangerous (LI : LoopInfo) (C : option ValueId) (BB : BlockId) : Prop :=
  diverges LI C BB /\ exists v, getBasicBlockCond M BB = Ok (Some v) /\ isTaintedValue v = true.

(** Every block asked about has its lists and its terminator. *)
Definition block_known (LI : LoopInfo) (BB : BlockId) : Prop :=
  (forall Comm Lists, CollListsPerComm !! Comm = Some Lists -> is_Some (Lists !! anchor LI BB)) /\
  exists c, getBasicBlockCond M BB = Ok c.

Lemma HasNAVS_spec LI C BB :
  block_known LI BB -> exists v, HasNAVS LI C BB = Ok v /\ (v = true <-> diverges LI C BB).
Proof.
  intros [Hk _]. unfold HasNAVS, diverges.
  assert (forall l v0, (forall Comm Lists, (Comm, Lists) ∈ l -> is_Some (Lists !! anchor LI BB)) ->
    exists v, rfold (or_navs LI C BB) l v0 = Ok v /\
      (v = true <-> v0 = true \/ exists Comm Lists x, (Comm, Lists) ∈ l /\ (C = None \/ Comm = C) /\
        Lists !! anchor LI BB = Some x /\ navs x = true)) as Hl.
  { induction l as [|[Comm Lists] l IH]; intros v0 Hall.
    - exists v0. split; [done|]. split; [by left|]. intros [?|(? & ? & ? & ?%not_elem_of_nil & _)]; done.
    - destruct (Hall Comm Lists (list_elem_of_here _ _)) as [x Hx]. cbn [rfold].
      unfold or_navs at 1. cbn [fst snd].
      destruct (bool_decide (C = None) || bool_decide (Comm = C)) eqn:E.
      + rewrite Hx. cbn [of_option rbind]. apply orb_true_iff in E. rewrite !bool_decide_eq_true in E.
        edestruct IH as (v & -> & Hv); [intros; eapply Hall; by apply list_elem_of_further|].
        exists v. split; [done|]. rewrite Hv, orb_true_iff. setoid_rewrite elem_of_cons. split.
        * intros [[?|?]|(c & L & y & ? & ?)]; [by left|right; exists Comm, Lists, x; auto|right; exists c, L, y; auto].
        * intros [?|(c & L & y & [[= -> ->]|?] & ? & ? & ?)]; [by do 2 left|left; right; congruence|right; eauto 8].
      + apply orb_false_iff in E. rewrite !bool_decide_eq_false in E. cbn [rbind].
        edestruct IH as (v & -> & Hv); [intros; eapply Hall; by apply list_elem_of_further|].
        exists v. split; [done|]. rewrite Hv. setoid_rewrite elem_of_cons. split.
        * intros [?|(c & L & y & ? & ?)]; [by left|right; exists c, L, y; auto].
        * intros [?|(c & L & y & [[= -> ->]|?] & ? & ? & ?)]; [by left|naive_solver|right; eauto 8]. }
  destruct (Hl (map_to_list CollListsPerComm) false) as (v & -> & Hv).
  { intros Comm Lists ?%elem_of_map_to_list. eauto. }
  exists v. split; [done|]. rewrite Hv. setoid_rewrite elem_of_map_to_list. naive_solver.
Qed.

(** The conditionals of a call: the dangerous blocks of its IPDF, in order. *)
Lemma conditionals_spec LI C l : forall Conds,
  (forall BB, BB ∈ l -> block_known LI BB) ->
  exists bad, rfold (visit_conditional LI C) l Conds
      = Ok (Conds ++ map (fun BB => mk_Location (terminator_loc BB)) bad) /\
    sublist bad l /\ forall BB, BB ∈ bad <-> BB ∈ l /\ dangerous LI C BB.
Proof.
  induction l as [|b l IH]; intros Conds Hk.
  - exists []. rewrite app_nil_r. split; [done|]. split; [constructor|]. set_solver.
  - cbn [rfold]. unfold visit_conditional at 1.
    pose proof (Hk b (list_elem_of_here _ _)) as Hb.
    destruct (HasNAVS_spec LI C b Hb) as (v & -> & Hv). destruct (proj2 Hb) as [c Ec].
    assert (forall Conds', (~ dangerous LI C b) -> Conds' = Conds ->
      exists bad, rfold (visit_conditional LI C) l Conds'
        = Ok (Conds ++ map (fun BB => mk_Location (terminator_loc BB)) bad) /\
      sublist bad (b :: l) /\ forall BB, BB ∈ bad <-> BB ∈ b :: l /\ dangerous LI C BB) as Hskip.
    { intros ? Hnd ->. destruct (IH Conds) as (bad & E & Hs & Hin);
        [intros; apply Hk; by apply list_elem_of_further|].
      exists bad. split; [done|]. split; [by constructor|]. intros x. rewrite Hin, elem_of_cons.
      split; [naive_solver|]. intros [[->|?] ?]; done. }
    cbn [rbind]. destruct v; simpl negb; cbv iota.
    2: { apply Hskip; [|done]. intros [Hd _]. by apply Hv in Hd. }
    rewrite Ec. cbn [rbind]. destruct c as [x|].
    2: { apply Hskip; [|done]. intros [_ (y & Ey & _)]. congruence. }
    destruct (isTaintedValue x) eqn:Ex; simpl negb; cbv iota.
    2: { apply Hskip; [|done]. intros [_ (y & Ey & ?)]. congruence. }
    destruct (IH (Conds ++ [mk_Location (terminator_loc b)])) as (bad & E & Hs & Hin);
      [intros; apply Hk; by apply list_elem_of_further|].
    exists (b :: bad). rewrite <- app_assoc in E. split; [exact E|]. split; [by constructor|].
    assert (dangerous LI C b) by (split; [by apply Hv|eauto]).
    intros y. rewrite !elem_of_cons, Hin. naive_solver.
Qed.

(** The communicator a collective call works on, [None] for the others. *)
Definition call_comm (Coll : Collective) (args : list ValueId) : res (option ValueId) :=
  if isMPI Coll then getCommunicator M loads Coll args else Ok None.

(** The calls of a list of instructions. *)
Definition call_ids (Is : list Instruction) : list InstId :=
  omap (fun I => match I with CallInst id _ _ _ => Some id | _ => None end) Is.

Definition call_known (LI : LoopInfo) (I : Instruction) : Prop :=
  match I with
  | CallInst id (Some Fn) args _ =>
      forall Coll, find cfg opts (getName (function M Fn)) = Some Coll ->
        (exists C, call_comm Coll args = Ok C) /\
        forall BB, BB ∈ getCallInterIPDF id -> block_known LI BB
  | _ => True
  end.

(** What the pass decides for one call: nothing, or a warning with the
    dangerous blocks of its IPDF. *)
Definition verdict (LI : LoopInfo) (id : InstId) (Fn : FuncId) (args : list ValueId)
    (loc : option DebugLoc) (w : option Warning) : Prop :=
  match find cfg opts (getName (function M Fn)) with
  | None => w = None
  | Some Coll =>
      exists C bad, call_comm Coll args = Ok C /\ sublist bad (getCallInterIPDF id) /\
        (forall BB, BB ∈ bad <-> BB ∈ getCallInterIPDF id /\ dangerous LI C BB) /\
        w = if bool_decide (bad = []) then None
            else Some (mk_Warning (getName (function M Fn)) loc
                         (map (fun BB => mk_Location (terminator_loc BB)) bad))
  end.

Lemma check_call_spec LI I W :
  call_known LI I -> (forall id, id ∈ call_ids [I] -> W !! id = None) ->
  exists W', check_call LI W I = Ok W' /\
    (forall id, id ∉ call_ids [I] -> W' !! id = W !! id) /\
    match I with
    | CallInst id (Some Fn) args loc => verdict LI id Fn args loc (W' !! id)
    | _ => True
    end.
Proof.
  intros Hk Hn. destruct I as [id [Fn|] args loc| | | | | |]; try (exists W; done).
  assert (W !! id = None) as HW by (apply Hn; apply list_elem_of_here).
  unfold check_call, verdict. simpl in Hk.
  destruct (find cfg opts (getName (function M Fn))) as [Coll|] eqn:E; [|exists W; done].
  destruct (Hk Coll eq_refl) as [[C EC] Hb]. fold (call_comm Coll args). rewrite EC. cbn [rbind].
  destruct (conditionals_spec LI C (getCallInterIPDF id) [] Hb) as (bad & -> & Hs & Hin).
  cbn [rbind app]. destruct bad as [|b bad].
  - exists W. simpl. split; [done|]. split; [done|]. exists C, []. done.
  - simpl map. rewrite bool_decide_false by done. eexists. split; [reflexivity|].
    unfold insert_new. rewrite HW. split.
    + intros x Hx. apply lookup_insert_ne. intros <-. apply Hx, list_elem_of_here.
    + exists C, (b :: bad). rewrite lookup_insert_eq. do 3 (split; [done|]). done.
Qed.

Lemma check_calls LI Is : forall W,
  NoDup (call_ids Is) -> (forall I, I ∈ Is -> call_known LI I) ->
  (forall id, id ∈ call_ids Is -> W !! id = None) ->
  exists W', rfold (check_call LI) Is W = Ok W' /\
    (forall id, id ∉ call_ids Is -> W' !! id = W !! id) /\
    forall id Fn args loc, CallInst id (Some Fn) args loc ∈ Is -> verdict LI id Fn args loc (W' !! id).
Proof.
  induction Is as [|I Is IH]; intros W Hn Hk HW.
  - exists W. split; [done|]. split; [done|]. intros ? ? ? ? ?%not_elem_of_nil. done.
  - assert (call_ids (I :: Is) = call_ids [I] ++ call_ids Is) as Happ by (by destruct I).
    rewrite Happ in *. apply NoDup_app in Hn as (_ & Hdisj & Hn).
    destruct (check_call_spec LI I W) as (W1 & E1 & Hsame & Hv);
      [apply Hk, list_elem_of_here|intros; apply HW; set_solver|].
    destruct (IH W1 Hn) as (W2 & E2 & Hsame2 & Hv2).
    + intros J HJ. apply Hk. by apply list_elem_of_further.
    + intros id Hid. rewrite Hsame; [apply HW; set_solver|]. intros Hid'. by apply (Hdisj id).
    + exists W2. cbn [rfold]. rewrite E1. split; [exact E2|]. split.
      * intros id Hid. rewrite Hsame2, Hsame by set_solver. done.
      * intros id Fn args loc [HI|HI]%elem_of_cons; [|by apply Hv2]. subst I.
        rewrite Hsame2; [exact Hv|]. apply Hdisj, list_elem_of_here.
Qed.

(** C5 (warnings). [checkWarnings] returns, and reports exactly the direct calls of a
    collective for which some block of the call's interprocedural IPDF has
    diverging lists -- for the collective's communicator, or for any when it
    has none -- and branches on a tainted condition; the warning names the
    callee and lists the locations of these blocks, and the warnings of other
    functions are kept. *)
Theorem checkWarnings_spec LI F W :
  NoDup (call_ids (instructions M F)) ->
  (forall I, I ∈ instructions M F -> call_known LI I) ->
  (forall id, id ∈ call_ids (instructions M F) -> W !! id = None) ->
  exists W', checkWarnings LI F W = Ok W' /\
    (forall id, id ∉ call_ids (instructions M F) -> W' !! id = W !! id) /\
    forall id Fn args loc, CallInst id (Some Fn) args loc ∈ instructions M F ->
      verdict LI id Fn args loc (W' !! id).
Proof. apply check_calls. Qed.

End Check.

(** * The order of the locations of a warning *)

Lemma str_lt_irrefl a : str_lt a a = false.
Proof. induction a as [|c a IH]; simpl; [done|]. by rewrite N.ltb_irrefl, N.eqb_refl, IH. Qed.

Lemma str_lt_total a b : str_lt a b = true \/ a = b \/ str_lt b a = true.
Proof.
  revert b. induction a as [|c a IH]; intros [|d b]; simpl; auto.
  destruct (N.ltb_spec (N_of_ascii c) (N_of_ascii d)); simpl; [by left|].
  destruct (N.ltb_spec (N_of_ascii d) (N_of_ascii c)); simpl; [by do 2 right|].
  assert (N_of_ascii c = N_of_ascii d) as E by lia. rewrite E, N.eqb_refl.
  assert (c = d) as -> by (rewrite <- (ascii_N_embedding c), E; apply ascii_N_embedding).
  destruct (IH b) as [H'|[H'|H']]; [left|right; left; congruence|right; right]; done.
Qed.

#[export] Instance Location_le_total : Total Location_le.
Proof.
  intros [f1 l1] [f2 l2]. unfold Location_le, Location_lt. simpl.
  destruct (str_lt_total f1 f2) as [H|[H|H]]; [|subst f2|].
  - left. rewrite H. simpl. destruct (str_lt f2 f1) eqn:E; [|done].
    exfalso. revert f2 H E. induction f1 as [|c f1 IH]; intros [|d f2]; simpl; try done.
    intros [H1|[H1 H2]%andb_true_iff]%orb_true_iff [H3|[H3 H4]%andb_true_iff]%orb_true_iff;
      rewrite ?N.ltb_lt, ?N.eqb_eq in *; try lia. eauto.
  - rewrite str_lt_irrefl. simpl. destruct (Z.ltb_spec l2 l1); [right|by left]. apply Z.ltb_ge. lia.
  - right. rewrite H. simpl. destruct (str_lt f1 f2) eqn:E; [|done].
    exfalso. revert f1 H E. induction f2 as [|c f2 IH]; intros [|d f1]; simpl; try done.
    intros [H1|[H1 H2]%andb_true_iff]%orb_true_iff [H3|[H3 H4]%andb_true_iff]%orb_true_iff;
      rewrite ?N.ltb_lt, ?N.eqb_eq in *; try lia. eauto.
Qed.

(** "Make sure lines are displayed in order": the conditionals of a warning are
    those given, in order. *)
Lemma mk_Warning_sorted F DL C :
  LocallySorted Location_le (Conditionals (mk_Warning F DL C)) /\ Conditionals (mk_Warning F DL C) ≡ₚ C.
Proof.
  split; [apply Sorted_LocallySorted_iff, Sorted_merge_sort; apply _|apply merge_sort_Permutation].
Qed.

(** * An example: the barrier under a tainted condition *)

Definition tainted_rank : DepGraph :=
  {| getCallInterIPDF := fun id => if N.eqb id 10 then [0%N] else [];
     isTaintedValue := fun v => N.eqb v 5 |}.

Definition diamond_lists : CommToBBToCollListMap :=
  {[ Some 7%N := {[ 0%N := MkCL None [NavsElement] ]} ]}.

Lemma checkWarnings_witness :
  exists W w, checkWarnings full_build mpi_options diamond 8 tainted_rank diamond_lists no_loops 0 ∅ = Ok W /\
    W !! 10%N = Some w /\
    Warning_toString w = "MPI_Barrier line 0 possibly not called by all processes because of conditional(s) line(s)  0 (?) (Call Ordering Error)"%string.
Proof.
  destruct (checkWarnings_spec full_build mpi_options diamond 8 tainted_rank diamond_lists no_loops 0 ∅)
    as (W & E & _ & Hv).
  - apply (bool_decide_unpack _). vm_compute. exact I.
  - intros J HJ. vm_compute in HJ. change (J ∈ instructions diamond 0) in HJ. unfold instructions in HJ.
    simpl in HJ. enum HJ; try exact I. intros Coll HC. vm_compute in HC. injection HC as <-.
    split; [by exists (Some 7%N)|]. intros BB HB. simpl in HB. enum HB. split; [|by eexists].
    intros Comm Lists HL. unfold diamond_lists in HL. apply lookup_singleton_Some in HL as [<- <-].
    by eexists.
  - intros id _. apply lookup_empty.
  - exists W. destruct (W !! 10%N) as [w|] eqn:Ew.
    + exists w. split; [exact E|]. split; [done|]. vm_compute in E. injection E as <-.
      vm_compute in Ew. injection Ew as <-. vm_compute. reflexivity.
    + exfalso. vm_compute in E. injection E as <-. vm_compute in Ew. discriminate.
Defined.
