(* ===== verification/Instrumentation.v ===== *)
(** The instrumentation of collectives (Instrumentation.cpp): the check calls
    inserted before collectives and before the end of the program. *)
From S2P Require Import Prelude IR Collectives CollectiveList Warnings Samples.

(** An inserted call [check_collective_*(color, name, line, warnings, file)]. *)
Record CheckCall := {
  FunctionName : string;
  OpColor : nat;
  OpName : string;
  OpLine : Z;
  WarningMsg : string;
  File : string
}.

(** The instructions of a function once instrumented. *)
Inductive Instrumented :=
| Check_ (c : CheckCall)
| Orig (I : Instruction).

Section Instrumentation.
Context (cfg : BuildConfig) (opts : Options) (M : Module_).
Context (Warnings : gmap InstId Warning).

(** [getCheckFunctionName]; another kind of collective is [llvm_unreachable]. *)
Definition getCheckFunctionName (C : option Collective) : res string :=
  match C with
  | None => Ok "check_collective_return"%string
  | Some c =>
      match P_ c with
      | MPI => Ok "check_collective_MPI"%string
      | OMP => if enable_openmp cfg then Ok "check_collective_OMP"%string else Broken
      | UPC => if enable_upc cfg then Ok "check_collective_UPC"%string else Broken
      | _ => Broken
      end
  end.

(** [insertCC]: the call put before the instruction. *)
Definition insertCC (C : option Collective) (F : string) (OpLine : Z) (WarningMsg File : string) :
    res CheckCall :=
  let* name := getCheckFunctionName C in
  Ok {| FunctionName := name;
        OpColor := match C with Some c => K c | None => C_Last cfg end;
        OpName := F; OpLine := OpLine; WarningMsg := WarningMsg; File := File |}.

(** [CalleeName == "MPI_Finalize" || ...]. *)
Definition ends_program (CalleeName : string) : bool :=
  bool_decide (CalleeName = "MPI_Finalize"%string) || bool_decide (CalleeName = "MPI_Abort"%string)
  || bool_decide (CalleeName = "abort"%string).

(** One instruction: what is emitted for it. *)
Definition instrument_instruction (I : Instruction) : res (list Instrumented) :=
  match I with
  | CallInst id (Some Callee) args loc =>
      let WarningStr := match Warnings !! id with Some w => Warning_toString w | None => " "%string end in
      let File := match loc with Some l => getFilename l | None => "o"%string end in
      let OpLine := match loc with Some l => getLine l | None => (-1)%Z end in
      let CalleeName := getName (function M Callee) in
      let Coll := find cfg opts CalleeName in
      if ends_program CalleeName then
        let* c := insertCC None CalleeName OpLine WarningStr File in Ok [Check_ c; Orig I]
      else match Coll with
           | Some _ => let* c := insertCC Coll CalleeName OpLine WarningStr File in Ok [Check_ c; Orig I]
           | None => Ok [Orig I]
           end
  | _ => Ok [Orig I]
  end.

(** [CollectiveInstrumentation::run]: the new instructions and [Changed]. *)
Definition instrument_function (Is : list Instruction) : res (list Instrumented * bool) :=
  rfold (fun acc I =>
    let* out := instrument_instruction I in
    Ok (acc.1 ++ out, acc.2 || (1 <? length out)%nat)) Is ([], false).

(** [ParcoachInstrumentationPass::run]: nothing without a warning. *)
Definition ParcoachInstrumentationPass_run : res (list (FuncId * list Instrumented)) :=
  if bool_decide (Warnings = ∅) then
    Ok (map (fun F => (F, Orig <$> instructions M F)) (functions M))
  else rfold (fun acc F =>
         let* r := instrument_function (instructions M F) in Ok (acc ++ [(F, r.1)])) (functions M) [].

(** * What is inserted *)

(** The calls a check stands before. *)
Definition checked_call (I : Instruction) : option (option Collective * string) :=
  match I with
  | CallInst _ (Some Callee) _ _ =>
      let name := getName (function M Callee) in
      if ends_program name then Some (None, name)
      else match find cfg opts name with Some c => Some (Some c, name) | None => None end
  | _ => None
  end.

(** A check for [I]: of the right kind, with the colour and the name of the
    collective. *)
Definition check_for (I : Instruction) (c : CheckCall) : Prop :=
  exists C name, checked_call I = Some (C, name) /\
    getCheckFunctionName C = Ok (FunctionName c) /\ OpName c = name /\
    OpColor c = match C with Some x => K x | None => C_Last cfg end.

(** An instrumented list and the list it comes from: the same instructions, and
    a check right before each one that is checked. *)
Inductive instruments : list Instruction -> list Instrumented -> Prop :=
| ins_nil : instruments [] []
| ins_plain I Is Js : checked_call I = None -> instruments Is Js -> instruments (I :: Is) (Orig I :: Js)
| ins_check I Is c Js : check_for I c -> instruments Is Js ->
    instruments (I :: Is) (Check_ c :: Orig I :: Js).

Lemma instruments_app Is1 Js1 Is2 Js2 :
  instruments Is1 Js1 -> instruments Is2 Js2 -> instruments (Is1 ++ Is2) (Js1 ++ Js2).
Proof. induction 1; intros; simpl; [done|apply ins_plain; auto|apply ins_check; auto]. Qed.

(** No CUDA collective: the others have a check function in a build that
    registers them. *)
Lemma find_check_function name c :
  ActivatedParadigm cfg opts <> CUDA -> find cfg opts name = Some c ->
  exists f, getCheckFunctionName (Some c) = Ok f.
Proof.
  intros Hp Hf. pose proof (registered_find _ _ _ _ Hf) as Hr.
  assert (P_ c = ActivatedParadigm cfg opts) as Ep.
  { revert Hf. unfold find, enabled, isActivated. destruct (Registry_get cfg name); [|discriminate].
    case_bool_decide; [|discriminate]. by intros [= <-]. }
  revert Hr Ep. unfold registered, Registry_init. rewrite !fmap_app, !elem_of_app, <- !list_fmap_compose.
  unfold OMP_entries, UPC_entries, CUDA_entries, getCheckFunctionName.
  intros [H|[H|[H|H]]] Ep; apply list_elem_of_fmap in H as (x & -> & Hx).
  - destruct x. simpl. eauto.
  - simpl. destruct (enable_openmp cfg); [eauto|by apply not_elem_of_nil in Hx].
  - simpl. destruct (enable_upc cfg); [eauto|by apply not_elem_of_nil in Hx].
  - destruct x. simpl in Ep. congruence.
Qed.

Lemma instrument_instruction_spec I :
  ActivatedParadigm cfg opts <> CUDA ->
  exists out, instrument_instruction I = Ok out /\ instruments [I] out /\
    (1 <? length out)%nat = match checked_call I with Some _ => true | None => false end.
Proof.
  intros Hp. destruct I as [id [F|] args loc| | | | | |]; simpl;
    try (eexists; split; [reflexivity|]; split; [by repeat constructor|done]).
  set (name := getName (function M F)). destruct (ends_program name) eqn:Ee.
  - eexists. split; [reflexivity|]. split; [|done]. constructor; [|constructor].
    exists None, name. simpl. fold name. by rewrite Ee.
  - destruct (find cfg opts name) as [c|] eqn:Ef.
    + destruct (find_check_function name c Hp Ef) as [f Hf].
      unfold insertCC. rewrite Hf. cbn [rbind]. eexists. split; [reflexivity|]. split; [|done].
      constructor; [|constructor]. exists (Some c), name. simpl. fold name. by rewrite Ee, Ef.
    + eexists. split; [reflexivity|]. split; [|done]. constructor; [|constructor].
      simpl. fold name. by rewrite Ee, Ef.
Qed.

(** C33 (instrument). Instrumenting a function succeeds and keeps its
    instructions in order; exactly the direct calls of an enabled collective
    and of [MPI_Finalize], [MPI_Abort] and [abort] are preceded, immediately,
    by one check call, carrying the colour of the collective; [Changed] says
    whether there is any. *)
Theorem instrument_function_spec Is :
  ActivatedParadigm cfg opts <> CUDA ->
  exists Js b, instrument_function Is = Ok (Js, b) /\ instruments Is Js /\
    b = existsb (fun I => match checked_call I with Some _ => true | None => false end) Is.
Proof.
  intros Hp. unfold instrument_function.
  assert (forall Is0 Js0 b0, instruments Is0 Js0 -> exists Js b,
    rfold (fun acc I => let* out := instrument_instruction I in
      Ok (acc.1 ++ out, acc.2 || (1 <? length out)%nat)) Is (Js0, b0) = Ok (Js, b) /\
    instruments (Is0 ++ Is) Js /\
    b = b0 || existsb (fun I => match checked_call I with Some _ => true | None => false end) Is) as Hl.
  { induction Is as [|I Is IH]; intros Is0 Js0 b0 H0.
    - exists Js0, b0. rewrite app_nil_r, orb_false_r. done.
    - destruct (instrument_instruction_spec I Hp) as (out & E & Hi & Hb).
      cbn [rfold]. rewrite E. cbn [rbind fst snd].
      destruct (IH (Is0 ++ [I]) (Js0 ++ out) (b0 || (1 <? length out)%nat)) as (Js & b & -> & HJ & ->).
      + by apply instruments_app.
      + eexists _, _. split; [reflexivity|]. rewrite <- app_assoc in HJ. split; [done|].
        simpl. rewrite Hb. by rewrite orb_assoc. }
  destruct (Hl [] [] false) as (Js & b & ? & ? & ?); [constructor|]. eauto.
Qed.

End Instrumentation.

Lemma instrument_function_witness :
  exists c Js b, instrument_function full_build mpi_options diamond ∅ (instructions diamond 0)
    = Ok (Js, b) /\ b = true /\ Js !! 1%nat = Some (Check_ c) /\ OpColor c = 0%nat.
Proof.
  destruct (instrument_function_spec full_build mpi_options diamond ∅ (instructions diamond 0))
    as (Js & b & E & _ & Hb); [discriminate|].
  assert (b = true) as -> by (rewrite Hb; reflexivity).
  vm_compute in E. injection E as <-. do 3 eexists. split; [vm_compute; reflexivity|].
  split; [reflexivity|]. split; [reflexivity|]. reflexivity.
Defined.
