(* ===== verification/DynamicCheck.v ===== *)
(** The dynamic checks linked with an instrumented program: the MPI one
    (MPI_DynamicCheck.c) reduces the colours of all the ranks with [areequals]
    and stops the program when they differ; the OpenMP (OMP_DynamicCheck.c) and
    UPC (UPC_DynamicCheck.c) ones. *)
From S2P Require Import Prelude IR Collectives.

(** * MPI *)

(** [~0] as an [int]. *)
Definition all_ones : Z := -1.

(** [areequals] on arrays of [Len] integers; reading past an array is
    undefined. *)
Fixpoint areequals (Len : nat) (In Inout : list Z) : res (list Z) :=
  match Len with
  | O => Ok Inout
  | S Len' =>
      match In, Inout with
      | i :: In', io :: Inout' =>
          let* r := areequals Len' In' Inout' in
          Ok ((if bool_decide (io <> i) then all_ones else io) :: r)
      | _, _ => Broken
      end
  end.

(** What a check does to the outside. *)
Inductive Output :=
| Print_warnings (Rank : nat) (Warnings : string)
| Print_error (Rank : nat) (OP_line : Z) (OP_name FileName : string)
| Print_ok
| Abort_ (code : Z).

(** The arguments of a check. *)
Record CheckArgs := {
  OP_color : Z;
  OP_name : string;
  OP_line : Z;
  Warnings_ : string;
  FileName : string
}.

(** What a rank does with the reduced value, once broadcast. *)
Definition report (a : CheckArgs) (Rank : nat) (Res : Z) : list Output :=
  if bool_decide (Res = all_ones) then
    (if (2 <? String.length (Warnings_ a))%nat then [Print_warnings Rank (Warnings_ a)] else []) ++
    (if bool_decide (Rank = 0%nat)
     then [Print_error Rank (OP_line a) (OP_name a) (FileName a); Abort_ 0] else [])
  else if bool_decide (Rank = 0%nat) then [Print_ok] else [].

(** [check_collective_MPI]: the outputs and the new [NbCc]; [reduced] is what
    [MPI_Reduce] left on rank 0. Nothing happens before [MPI_Init]. *)
Definition check_collective_MPI (a : CheckArgs) (Initialized : bool) (Rank : nat) (reduced NbCc : Z) :
    list Output * Z :=
  if Initialized then (report a Rank reduced, NbCc + 1) else ([], NbCc).

(** [check_collective_return]: nothing before [MPI_Init] or after
    [MPI_Finalize]. *)
Definition check_collective_return (a : CheckArgs) (Initialized Finalized : bool) (Rank : nat)
    (reduced : Z) : list Output :=
  if negb Finalized && Initialized then report a Rank reduced else [].

(** [MPI_Reduce] of one integer with a commutative operation: the contributions
    combined two by two, in an order MPI chooses. *)
Inductive Reduction :=
| Contribution (c : Z)
| Combine (In Inout : Reduction).

Fixpoint contributions (t : Reduction) : list Z :=
  match t with
  | Contribution c => [c]
  | Combine a b => contributions a ++ contributions b
  end.

Fixpoint reduce (t : Reduction) : res Z :=
  match t with
  | Contribution c => Ok c
  | Combine a b =>
      let* x := reduce a in
      let* y := reduce b in
      let* r := areequals 1 [x] [y] in
      of_option (head r)
  end.

(** The ranks of [MPI_COMM_WORLD], each in one of the two checks, with one
    reduction: what each rank outputs. *)
Definition check_round (ranks : list (bool * CheckArgs)) (t : Reduction) : res (list (list Output)) :=
  let* r := reduce t in
  Ok (imap (fun Rank '(is_return, a) =>
    if (is_return : bool) then check_collective_return a true false Rank r
    else (check_collective_MPI a true Rank r 0).1) ranks).

(** * OpenMP *)

(** The counters shared by the team. *)
Record Counters := {
  iEbarrier : nat; iIbarrier : nat; iSingle : nat; iSection : nat; iFor : nat; iReturn : nat
}.

Definition is_incorrect (c : Counters) (num_threads : nat) : bool :=
  bool_decide (iReturn c <> num_threads) && bool_decide (iEbarrier c + iIbarrier c <> num_threads)%nat
  && bool_decide (iSingle c <> num_threads) && bool_decide (iSection c <> num_threads)
  && bool_decide (iFor c <> num_threads).

(** The [switch] on the colour. *)
Definition count_color (c : Counters) (OP_color : Z) : Counters :=
  let 'Build_Counters e i s sec f r := c in
  match OP_color with
  | 36 => Build_Counters (S e) i s sec f r
  | 1 => Build_Counters e (S i) s sec f r
  | 38 => Build_Counters e i s sec f (S r)
  | 3 => Build_Counters e i (S s) sec f r
  | 4 => Build_Counters e i s (S sec) f r
  | 5 => Build_Counters e i s sec (S f) r
  | _ => c
  end.

Definition no_counts : Counters := Build_Counters 0 0 0 0 0 0.

(** [check_collective_OMP] and [check_collective_return], which have the same
    body, by the threads of a team, between the two barriers: does the master
    abort? The increments are atomic; they commute. *)
Definition check_collective_OMP (in_parallel : bool) (colors : list Z) : bool :=
  if negb in_parallel || (length colors =? 1)%nat then false
  else is_incorrect (fold_left count_color colors no_counts) (length colors).

(** * UPC *)

(** [my_upc_op]: [res = a = b ? a : -1] assigns, it does not compare. *)
Definition my_upc_op (a b : Z) : Z := if bool_decide (b <> 0) then a else -1.

(** * The MPI check finds every mismatch *)

Lemma areequals_one x y : areequals 1 [x] [y] = Ok [if bool_decide (y <> x) then all_ones else y].
Proof. done. Qed.

Lemma some_contribution t : exists c, c ∈ contributions t.
Proof.
  induction t as [c|a [x Hx] b _]; simpl; [exists c; apply list_elem_of_here|].
  exists x. apply elem_of_app. by left.
Qed.

(** The reduced value: the common colour, or [~0]. *)
Lemma reduce_spec t :
  (forall c, c ∈ contributions t -> c <> all_ones) ->
  exists r, reduce t = Ok r /\
    (r <> all_ones -> forall c, c ∈ contributions t -> c = r) /\
    (r = all_ones -> exists c d, c ∈ contributions t /\ d ∈ contributions t /\ c <> d).
Proof.
  induction t as [c|a IHa b IHb]; simpl; intros Hc.
  - exists c. split; [done|]. split; [set_solver|]. intros ->. set_solver.
  - destruct IHa as (x & -> & Hxe & Hxd); [set_solver|].
    destruct IHb as (y & -> & Hye & Hyd); [set_solver|]. cbn [rbind].
    case_bool_decide as E; cbn [rbind head of_option]; eexists; (split; [reflexivity|]).
    + split; [done|]. intros _.
      destruct (decide (x = all_ones)) as [Hx|Hx].
      { destruct (Hxd Hx) as (c & d & ? & ? & ?). exists c, d. rewrite !elem_of_app. auto. }
      destruct (decide (y = all_ones)) as [Hy|Hy].
      { destruct (Hyd Hy) as (c & d & ? & ? & ?). exists c, d. rewrite !elem_of_app. auto. }
      destruct (some_contribution a) as [c Hca], (some_contribution b) as [d Hdb].
      exists c, d. rewrite !elem_of_app. split; [auto|]. split; [auto|].
      rewrite (Hxe Hx c Hca), (Hye Hy d Hdb). congruence.
    + subst y. split; [intros Hx c [?|?]%elem_of_app; auto|]. intros Hx.
      destruct (Hxd Hx) as (c & d & ? & ? & ?). exists c, d. rewrite !elem_of_app. auto.
Qed.

(** All the ranks have the same colour. *)
Definition agree (ranks : list (bool * CheckArgs)) : Prop :=
  forall p q, p ∈ ranks -> q ∈ ranks -> OP_color p.2 = OP_color q.2.

Lemma check_round_at ranks t outs k p :
  check_round ranks t = Ok outs -> ranks !! k = Some p ->
  exists r, reduce t = Ok r /\ outs !! k = Some (report p.2 k r).
Proof.
  unfold check_round. destruct (reduce t) as [r| |]; simpl; try done. intros [= <-] Hk.
  exists r. split; [done|]. rewrite list_lookup_imap, Hk. simpl. by destruct p as [[] a].
Qed.

(** C28 (dynamic). When every rank of the program enters a check -- before a
    collective or a return -- with a colour of its collective, the check
    succeeds whatever order MPI reduces in: if the colours agree, rank 0 prints
    OK and nothing else happens; if two differ, rank 0 reports its own line and
    aborts the program, and every rank prints its warnings. *)
Theorem check_round_spec ranks t :
  ranks <> [] -> contributions t ≡ₚ map (fun p => OP_color p.2) ranks ->
  (forall p, p ∈ ranks -> OP_color p.2 <> all_ones) ->
  exists outs, check_round ranks t = Ok outs /\ length outs = length ranks /\
    (agree ranks -> forall k, (k < length ranks)%nat ->
       outs !! k = Some (if bool_decide (k = 0%nat) then [Print_ok] else [])) /\
    (~ agree ranks -> forall k p, ranks !! k = Some p ->
       outs !! k = Some (report p.2 k all_ones)) /\
    (~ agree ranks -> exists o, outs !! 0%nat = Some o /\ Abort_ 0 ∈ o).
Proof.
  intros Hne Hp Hc.
  assert (forall c, c ∈ contributions t <-> exists p, p ∈ ranks /\ c = OP_color p.2) as Hin.
  { intros c. rewrite Hp, list_elem_of_fmap. naive_solver. }
  destruct (reduce_spec t) as (r & Er & He & Hd).
  { intros c (p & ? & ->)%Hin. auto. }
  assert (exists outs, check_round ranks t = Ok outs) as [outs Eo].
  { unfold check_round. rewrite Er. eexists. reflexivity. }
  assert (r = all_ones <-> ~ agree ranks) as Hr.
  { split.
    - intros Hr Ha. destruct (Hd Hr) as (c & d & (p & Hpr & ->)%Hin & (q & Hqr & ->)%Hin & Hcd).
      by apply Hcd, Ha.
    - intros Hna. destruct (decide (r = all_ones)) as [|Hr]; [done|]. destruct Hna. intros p q Hpr Hqr.
      rewrite (He Hr (OP_color p.2)), (He Hr (OP_color q.2)); [done|apply Hin; eauto..]. }
  exists outs. split; [done|]. split.
  { revert Eo. unfold check_round. rewrite Er. intros [= <-]. apply length_imap. }
  split; [|split].
  - intros Ha k Hk. apply lookup_lt_is_Some in Hk as [p Hkp].
    destruct (check_round_at _ _ _ _ _ Eo Hkp) as (r' & Er' & ->).
    assert (r' = r) as -> by congruence. unfold report. rewrite bool_decide_false; [done|].
    intros Hr'. by apply Hr in Hr'.
  - intros Hna k p Hkp. destruct (check_round_at _ _ _ _ _ Eo Hkp) as (r' & Er' & ->).
    apply Hr in Hna. congruence.
  - intros Hna. destruct ranks as [|p ranks]; [done|].
    destruct (check_round_at _ _ _ 0%nat p Eo eq_refl) as (r' & Er' & ->).
    apply Hr in Hna. eexists. split; [reflexivity|]. assert (r' = all_ones) as -> by congruence.
    unfold report. rewrite !bool_decide_true by done. rewrite elem_of_app. right. set_solver.
Qed.

Definition args_of (c : Z) : CheckArgs :=
  {| OP_color := c; OP_name := "MPI_Barrier"; OP_line := 3; Warnings_ := " "; FileName := "a.c" |}.

Lemma check_round_witness :
  exists outs, check_round [(false, args_of 0); (true, args_of 55); (false, args_of 0)]
      (Combine (Contribution 55) (Combine (Contribution 0) (Contribution 0))) = Ok outs /\
    exists o, outs !! 0%nat = Some o /\ Abort_ 0 ∈ o.
Proof.
  destruct (check_round_spec [(false, args_of 0); (true, args_of 55); (false, args_of 0)]
    (Combine (Contribution 55) (Combine (Contribution 0) (Contribution 0)))) as (outs & E & _ & _ & _ & Ha).
  - discriminate.
  - simpl. apply perm_swap.
  - intros p Hp. enum Hp; discriminate.
  - exists outs. split; [exact E|]. apply Ha. intros H.
    specialize (H (false, args_of 0) (true, args_of 55)). simpl in H.
    assert (0 = 55) by (apply H; rewrite !elem_of_cons; auto). discriminate.
Defined.

(** * The other checks *)

(** The colours the instrumentation gives to OpenMP: the barrier and the
    return. *)
Definition omp_color (cfg : BuildConfig) (c : Z) : Prop :=
  c = Z.of_nat (kind_of cfg "__kmpc_barrier") \/ c = Z.of_nat (C_Last cfg).

Lemma omp_color_not_counted cfg c n :
  enable_openmp cfg = true -> omp_color cfg c -> count_color n c = n.
Proof. destruct cfg as [o [] []]; simpl; intros ->; destruct n; intros [->| ->]; vm_compute; done. Qed.

(** C36 (omp). The OpenMP check counts colours 36 and 38 for barriers and
    returns, which are not those the build assigns: in a team of two threads or
    more it aborts always, even when all threads reach the same barrier. *)
Theorem omp_check_always_aborts cfg colors :
  enable_openmp cfg = true -> (2 <= length colors)%nat -> Forall (omp_color cfg) colors ->
  check_collective_OMP true colors = true.
Proof.
  intros Ho Hl Hc. unfold check_collective_OMP.
  assert ((length colors =? 1)%nat = false) as -> by (apply Nat.eqb_neq; lia). cbn [negb orb].
  assert (fold_left count_color colors no_counts = no_counts) as ->.
  { clear Hl. generalize no_counts. induction Hc as [|c l H _ IH]; intros n; [done|].
    cbn [fold_left]. rewrite (omp_color_not_counted cfg) by done. apply IH. }
  unfold is_incorrect. simpl. rewrite !bool_decide_true by lia. done.
Qed.

Lemma omp_check_witness : check_collective_OMP true [39; 39] = true.
Proof.
  apply (omp_check_always_aborts full_build); [reflexivity|simpl; lia|].
  repeat constructor; left; reflexivity.
Defined.

(** Two ranks in different collectives of UPC are not told apart. *)
Example upc_op_misses_mismatch : my_upc_op 40 41 = 40 /\ my_upc_op 41 40 = 41.
Proof. done. Qed.
