(* ===== verification/ExtInfo.v ===== *)
(** The table of external functions (ExtInfo.cpp, ExtInfo.h): for each function
    of the libraries PARCOACH knows, how many parameters it has, whether the
    memory its result points to is modified, and which parameters point to
    memory it modifies; the map built from it, the list of the functions it
    misses, and the query of the mod/ref analyses. *)
From S2P Require Import Prelude IR Utils Samples.
#[local] Open Scope string_scope.

(** [ExtInfo::ModInfo]. *)
Record ModInfo := MI { NbArgs : nat; RetIsMod : bool; ArgIsMod : list bool }.

(** [FuncModPair]. *)
Definition FuncModPair : Type := string * ModInfo.

(** * [FuncModPairs], in the order of the source *)

(** A name the source begins with the escape [\01]: one byte of value 1, which
    tells LLVM not to mangle what follows. *)
Definition esc01 (s : string) : string := String (Ascii.ascii_of_nat 1) s.

Definition FuncModPairs_MILC : list FuncModPair := [
  ("myrand", MI 1 false [false]);
  ("cmul", MI 2 false [true; false]);
  ("cadd", MI 2 false [true; false]);
  ("csub", MI 2 false [true; false]);
  ("__snprintf_chk", MI 4 false [true; false; false; false]);
  ("__strncat_chk", MI 3 false [false; false; false])
].

Definition FuncModPairs_LLVM : list FuncModPair := [
  ("llvm.bswap.v4i32", MI 1 false [false]);
  ("llvm.bswap.i32", MI 1 false [false]);
  ("llvm.fabs.f64", MI 1 false [false]);
  ("llvm.fabs.v2f64", MI 1 false [false]);
  ("llvm.fabs.f32", MI 1 false [false]);
  ("llvm.fabs.f64", MI 1 false [false]);
  ("llvm.lifetime.start", MI 2 false [false; false]);
  ("llvm.lifetime.end", MI 2 false [false; false]);
  ("llvm.lifetime.start.p0", MI 2 false [false; false]);
  ("llvm.lifetime.end.p0", MI 2 false [false; false]);
  ("llvm.memcpy.p0i8.p0i8.i32", MI 5 false [true; false; false; false; false]);
  ("llvm.memcpy.p0i8.p0i8.i64", MI 5 false [true; false; false; false; false]);
  ("llvm.memcpy.p0.p0.i64", MI 4 false [true; false; false; false]);
  ("llvm.memmove.p0i8.p0i8.i32", MI 5 false [true; true; false; false; false]);
  ("llvm.memmove.p0i8.p0i8.i64", MI 5 false [true; true; false; false; false]);
  ("llvm.memmove.p0.p0.i64", MI 4 false [true; true; false; false]);
  ("llvm.memset.p0i8.i32", MI 5 false [true; false; false; false; false]);
  ("llvm.memset.p0i8.i64", MI 5 false [true; false; false; false; false]);
  ("llvm.memset.p0.i64", MI 4 false [true; false; false; false]);
  ("llvm.minnum.v2f64", MI 2 false [false; false]);
  ("llvm.sqrt.f64", MI 1 false [false]);
  ("llvm.stackrestore", MI 1 false [false]);
  ("llvm.stacksave", MI 0 true []);
  ("llvm.trap", MI 0 false []);
  ("llvm.va_start", MI 1 false [true]);
  ("llvm.va_end", MI 1 false [true]);
  ("llvm.x86.sse2.mfence", MI 0 false []);
  ("llvm.prefetch", MI 4 false [true; false; false; false])
].

Definition FuncModPairs_libc_1 : list FuncModPair := [
  ("abort", MI 0 false []);
  ("abs", MI 1 false [false]);
  ("acos", MI 1 false [false]);
  ("access", MI 2 false [false; false]);
  ("asprintf", MI 3 false [true; false; false]);
  ("atan", MI 1 false [false]);
  ("atanf", MI 1 false [false]);
  ("atan2", MI 2 false [false; false]);
  ("atof", MI 1 false [false]);
  ("atoi", MI 1 false [false]);
  ("atol", MI 1 false [false]);
  ("asctime", MI 1 true [false]);
  ("calloc", MI 2 true [false; false]);
  ("ceil", MI 1 false [false]);
  ("clock", MI 0 false []);
  ("clock_gettime", MI 2 false [false; true]);
  ("close", MI 1 false [false]);
  ("ctime", MI 1 true [false]);
  ("cos", MI 1 false [false]);
  ("cosh", MI 1 false [false]);
  ("erfc", MI 1 false [false]);
  ("exit", MI 1 false [false]);
  ("exp", MI 1 false [false]);
  ("fabs", MI 1 false [false]);
  ("fabsf", MI 1 false [false]);
  ("cabs", MI 1 false [false]);
  ("cabsf", MI 1 false [false]);
  ("labs", MI 1 false [false]);
  ("fclose", MI 1 false [true]);
  ("feof", MI 1 false [false]);
  ("fflush", MI 1 false [false]);
  ("fgetc", MI 1 false [false]);
  ("fgets", MI 3 true [true; false; false]);
  ("fgetpos", MI 2 false [false; true]);
  ("floor", MI 1 false [false]);
  ("fmax", MI 2 false [false; false]);
  ("fmin", MI 2 false [false; false]);
  ("fopen", MI 2 true [false; false]);
  ("fprintf", MI 3 false [true; false; false]);
  ("fputc", MI 2 false [false; true]);
  ("fputs", MI 2 false [false; false]);
  ("fread", MI 4 false [true; false; false; true]);
  ("free", MI 1 false [true]);
  ("freopen", MI 3 true [false; false; false]);
  ("fseeko", MI 3 false [false; false; false]);
  ("fsetpos", MI 2 false [false; false]);
  ("fsync", MI 1 false [false]);
  ("fwrite", MI 4 false [false; false; false; true]);
  ("getchar", MI 0 false []);
  ("getenv", MI 1 true [false]);
  ("gethostname", MI 2 false [true; false]);
  ("getopt", MI 3 false [false; false; false]);
  ("getopt_long", MI 5 false [false; false; false; false; true]);
  ("getpagesize", MI 0 false []);
  ("getrusage", MI 2 false [false; true]);
  ("gettimeofday", MI 2 false [true; true]);
  ("gmtime", MI 1 true [false]);
  ("hypot", MI 2 false [false; false]);
  ("ldexp", MI 2 false [false; false]);
  ("localtime", MI 1 true [false]);
  ("log", MI 1 false [false]);
  ("malloc", MI 1 true [false]);
  ("memset", MI 3 true [true; false; false]);
  ("memcpy", MI 3 true [true; false; false]);
  ("memmove", MI 3 true [true; false; false]);
  ("mkdir", MI 2 false [false; false]);
  ("move_pages", MI 6 false [false; false; false; false; true; false]);
  ("numa_num_configured_nodes", MI 0 false []);
  ("pow", MI 2 false [false; false]);
  ("printf", MI 2 false [false; false]);
  ("vfprintf", MI 3 false [true; false; false]);
  ("putchar", MI 1 false [false]);
  ("putenv", MI 1 false [true]);
  ("puts", MI 1 false [false]);
  ("qsort", MI 4 false [true; false; false; false]);
  ("rand", MI 0 false []);
  ("random", MI 0 false []);
  ("read", MI 3 false [false; true; false]);
  ("realloc", MI 2 true [true; false]);
  ("realpath", MI 2 true [false; true]);
  ("regcomp", MI 3 false [true; false; false]);
  ("regexec", MI 5 false [false; false; false; false; false]);
  ("regfree", MI 1 false [true]);
  ("rewind", MI 1 false [false]);
  ("signal", MI 2 false [false]);
  ("sin", MI 1 false [false]);
  ("sleep", MI 1 false [false]);
  ("snprintf", MI 4 false [true; false; false; false]);
  ("sprintf", MI 3 false [true; false; false]);
  ("sqrt", MI 1 false [false]);
  ("sqrtf", MI 1 false [false]);
  ("srand", MI 1 false [false]);
  ("srandom", MI 1 false [false]);
  ("strcasecmp", MI 2 false [false; false]);
  ("strcat", MI 2 true [true; false]);
  ("strchr", MI 2 true [false; false]);
  ("strcmp", MI 2 false [false; false]);
  ("strcpy", MI 2 true [true; false]);
  ("strcspn", MI 2 false [false; false]);
  ("strftime", MI 4 false [true; false; false; false]);
  ("strerror", MI 1 true [false]);
  ("strlen", MI 1 false [false]);
  ("strncasecmp", MI 3 false [false; false; false]);
  ("strncat", MI 3 true [true; false; false]);
  ("strncmp", MI 3 false [false; false; false]);
  ("strncpy", MI 3 true [true; false; false]);
  ("strpbrk", MI 2 true [false; false]);
  ("strrchr", MI 2 true [false; false]);
  ("strspn", MI 2 false [false; false]);
  ("strstr", MI 2 true [false; false]);
  ("strtod", MI 2 false [false; true]);
  ("strtok", MI 2 true [true; false]);
  ("strtol", MI 3 false [false; true; false]);
  ("system", MI 1 false [false]);
  ("tanh", MI 1 false [false]);
  ("time", MI 1 false [true]);
  ("tolower", MI 1 false [false]);
  ("toupper", MI 1 false [false]);
  ("uname", MI 1 false [true]);
  ("ungetc", MI 2 false [false; false]);
  ("unlink", MI 1 false [false]);
  ("vsprintf", MI 3 false [true; false; false]);
  ("write", MI 3 false [false; false; false]);
  ("_IO_getc", MI 1 false [false]);
  ("_IO_putc", MI 2 false [false; false]);
  ("__assert_fail", MI 4 false [false; false; false; false]);
  ("__ctype_b_loc", MI 0 true []);
  ("__errno_location", MI 0 true []);
  ("__isnan", MI 1 false [false]);
  ("__isnanf", MI 1 false [false]);
  ("__isoc99_fscanf", MI 3 false [true; false; true]);
  ("__isoc99_scanf", MI 2 false [false; true]);
  ("__isoc99_sscanf", MI 3 false [false; false; true]);
  ("__log_finite", MI 1 false [false]);
  ("__strdup", MI 1 true [false]);
  ("perror", MI 4 false [true; false; false; false]);
  ("fopen64", MI 2 true [false; false]);
  ("freopen64", MI 3 true [false; false; false])
].

Definition FuncModPairs_libc_2 : list FuncModPair := [
  ("fseeko64", MI 3 false [false; false; false]);
  ("open64", MI 3 false [false; false; false]);
  ("lseek64", MI 3 false [false; false; false]);
  ("stat64", MI 2 false [false; true]);
  ("statfs64", MI 2 false [false; true])
].

Definition FuncModPairs_tests : list FuncModPair := [
  ("parcoach_var_mod", MI 2 false [false; true])
].

Definition FuncModPairs_MPI_1 : list FuncModPair := [
  ("MPI_Abort", MI 2 false [false; false]);
  ("MPI_Address", MI 2 false [false; true]);
  ("MPI_Allgather", MI 7 false [false; false; false; true; false; false; false]);
  ("MPI_Allgatherv", MI 8 false [false; false; false; true; false; false; false; false]);
  ("MPI_Allreduce", MI 6 false [false; true; false; false; false; false]);
  ("MPI_Alltoall", MI 7 false [false; false; false; true; false; false; true]);
  ("MPI_Alltoallv", MI 9 false [false; false; false; false; true; false; false; false; false]);
  ("MPI_Alloc_mem", MI 3 false [false; false; true]);
  ("MPI_Alltoallw", MI 9 false [false; false; false; false; true; false; false; false; false]);
  ("MPI_Attr_get", MI 4 false [false; false; true; true]);
  ("MPI_Barrier", MI 1 false [false]);
  ("MPI_Bcast", MI 5 false [true; false; false; false; false]);
  ("MPI_Bsend", MI 6 false [false; false; false; false; false; false]);
  ("MPI_Bsend_init", MI 7 false [false; false; false; false; false; false; false]);
  ("MPI_Buffer_attach", MI 2 false [false; false]);
  ("MPI_Buffer_detach", MI 2 false [true; false]);
  ("MPI_Comm_create", MI 3 false [false; false; true]);
  ("MPI_Comm_dup", MI 2 false [false; true]);
  ("MPI_Comm_free", MI 1 false [true]);
  ("MPI_Comm_group", MI 2 false [false; true]);
  ("MPI_Comm_group_incl", MI 4 false [false; false; false; true]);
  ("MPI_Comm_rank", MI 2 false [false; true]);
  ("MPI_Comm_size", MI 2 false [false; true]);
  ("MPI_Comm_split", MI 4 false [false; false; false; true]);
  ("MPI_Cart_create", MI 6 false [false; false; false; false; false; false]);
  ("MPI_Cart_get", MI 5 false [false; false; true; true; true]);
  ("MPI_Cart_shift", MI 5 false [false; false; false; false; false]);
  ("MPI_Cart_coords", MI 4 false [false; false; false; true]);
  ("MPI_Cart_sub", MI 3 false [false; false; true]);
  ("MPI_Comm_create_group", MI 4 false [false; false; false; true]);
  ("MPI_Comm_compare", MI 3 false [false; false; true]);
  ("MPI_Errhandler_create", MI 2 false [false; true]);
  ("MPI_Errhandler_set", MI 2 false [false; false]);
  ("MPI_Error_string", MI 3 false [false; true; true]);
  ("MPI_Exscan", MI 6 false [false; true; false; false; false; false]);
  ("MPI_Get_version", MI 2 false [true; true]);
  ("MPI_File_close", MI 1 false [true]);
  ("MPI_File_delete", MI 2 false [false; false]);
  ("MPI_File_get_info", MI 2 false [false; true]);
  ("MPI_File_get_size", MI 2 false [false; false]);
  ("MPI_File_open", MI 5 false [false; false; false; false; true]);
  ("MPI_File_preallocate", MI 2 false [false; false]);
  ("MPI_File_read", MI 5 false [false; true; false; false; true]);
  ("MPI_File_read_all", MI 5 false [false; true; false; false; true]);
  ("MPI_File_read_at", MI 6 false [false; false; true; false; false; true]);
  ("MPI_File_read_at_all", MI 6 false [false; false; true; false; false; true]);
  ("MPI_File_set_view", MI 6 false [false; false; false; false; false; false]);
  ("MPI_File_seek", MI 3 false [false; false; false]);
  ("MPI_File_write", MI 5 false [false; false; false; false; true]);
  ("MPI_File_write_all", MI 5 false [false; false; false; false; true]);
  ("MPI_File_write_at", MI 6 false [false; false; false; false; false; true]);
  ("MPI_File_write_at_all", MI 6 false [false; false; false; false; false; true]);
  ("MPI_Finalize", MI 0 false []);
  ("MPI_Free_mem", MI 1 false [true]);
  ("MPI_Gather", MI 8 false [false; false; false; true; false; false; false; false]);
  ("MPI_Gatherv", MI 10 false [false; false; false; true; false; false; false; false; false; true]);
  ("MPI_Get_count", MI 3 false [false; false; true]);
  ("MPI_Get_processor_name", MI 2 false [true; true]);
  ("MPI_Group_free", MI 1 false [true]);
  ("MPI_Group_incl", MI 4 false [false; false; false; true]);
  ("MPI_Group_range_incl", MI 4 false [false; false; false; true]);
  ("MPI_Get", MI 8 false [true; false; false; false; false; false; false; false]);
  ("MPI_Group_excl", MI 4 false [false; false; false; true]);
  ("MPI_Group_range_excl", MI 4 false [false; false; false; true]);
  ("MPI_Iallgather", MI 8 false [false; false; false; true; false; false; false; false]);
  ("MPI_Iallgatherv", MI 9 false [false; false; false; true; false; false; false; false; false]);
  ("MPI_Iallreduce", MI 7 false [false; true; false; false; false; false; false]);
  ("MPI_Ialltoall", MI 8 false [false; false; false; true; false; false; true; false]);
  ("MPI_Ialltoallv", MI 10 false [false; false; false; false; true; false; false; false; false; false]);
  ("MPI_Ibarrier", MI 2 false [false; false]);
  ("MPI_Ibcast", MI 6 false [true; false; false; false; false; false]);
  ("MPI_Ibsend", MI 7 false [false; false; false; false; false; false; false]);
  ("MPI_Iexscan", MI 7 false [false; true; false; false; false; false; false]);
  ("MPI_Igather", MI 9 false [false; false; false; true; false; false; false; false; false]);
  ("MPI_Intercomm_create", MI 6 false [false; false; false; false; false; true]);
  ("MPI_Info_create", MI 1 false [true]);
  ("MPI_Info_get", MI 5 false [false; false; false; true; true]);
  ("MPI_Info_get_nkeys", MI 2 false [false; true]);
  ("MPI_Info_get_nthkey", MI 3 false [false; false; true]);
  ("MPI_Info_set", MI 3 false [true; false; false]);
  ("MPI_Init", MI 2 false [false; false]);
  ("MPI_Init_thread", MI 4 false [false; false; false; true]);
  ("MPI_Irsend", MI 7 false [false; false; false; false; false; false; false]);
  ("MPI_Iscatter", MI 9 false [false; false; false; true; false; false; false; false; false]);
  ("MPI_Iscan", MI 7 false [false; true; false; false; false; false; false]);
  ("MPI_Iprobe", MI 5 false [false; false; false; true; true]);
  ("MPI_Irecv", MI 7 false [true; false; false; false; false; false; true]);
  ("MPI_Ireduce", MI 8 false [false; true; false; false; false; false; false; false]);
  ("MPI_Isend", MI 7 false [false; false; false; false; false; false; true]);
  ("MPI_Issend", MI 7 false [false; false; false; false; false; false; true]);
  ("MPI_Op_create", MI 3 false [false; false; true]);
  ("MPI_Op_free", MI 1 false [true]);
  ("MPI_Probe", MI 4 false [false; false; false; true]);
  ("MPI_Put", MI 8 false [false; false; false; false; false; false; false; false]);
  ("MPI_Recv", MI 7 false [true; false; false; false; false; false; true]);
  ("MPI_Reduce", MI 7 false [false; true; false; false; false; false; false])
].

Definition FuncModPairs_MPI_2 : list FuncModPair := [
  ("MPI_Reduce_scatter_block", MI 6 false [false; true; false; false; false; false]);
  ("MPI_Reduce_scatter", MI 6 false [false; true; false; false; false; false]);
  ("MPI_Rsend_init", MI 7 false [false; false; false; false; false; false; false]);
  ("MPI_Request_free", MI 1 false [false]);
  ("MPI_Recv_init", MI 7 false [false; false; false; false; false; false; false]);
  ("MPI_Scan", MI 6 false [false; true; false; false; false; false]);
  ("MPI_Scatter", MI 8 false [false; false; false; true; false; false; false; false]);
  ("MPI_Scatterv", MI 9 false [false; false; false; false; true; false; false; false; false]);
  ("MPI_Send", MI 6 false [false; false; false; false; false; false]);
  ("MPI_Sendrecv", MI 12 false [false; false; false; false; false; true; false; false; false; false; false; true]);
  ("MPI_Ssend", MI 6 false [false; false; false; false; false; false]);
  ("MPI_Startall", MI 2 false [false; false]);
  ("MPI_Start", MI 1 false [false]);
  ("MPI_Ssend_init", MI 7 false [false; false; false; false; false; false; false]);
  ("MPI_Send_init", MI 7 false [false; false; false; false; false; false; false]);
  ("MPI_Test", MI 3 false [false; false; true]);
  ("MPI_Testall", MI 4 false [false; false; true; true]);
  ("MPI_Type_create_subarray", MI 7 false [false; false; false; false; false; false; true]);
  ("MPI_Type_commit", MI 1 false [false]);
  ("MPI_Type_contiguous", MI 3 false [false; false; true]);
  ("MPI_Type_free", MI 1 false [true]);
  ("MPI_Type_struct", MI 5 false [false; false; false; false; true]);
  ("MPI_Type_vector", MI 5 false [false; false; false; false; true]);
  ("MPI_Type_size", MI 2 false [false; true]);
  ("MPI_Testany", MI 5 false [false; false; false; false; false]);
  ("MPI_Testsome", MI 5 false [false; false; true; true; true]);
  ("MPI_Win_fence", MI 2 false [false; false]);
  ("MPI_Win_complete", MI 1 false [false]);
  ("MPI_Win_post", MI 3 false [false; false; false]);
  ("MPI_Win_wait", MI 1 false [false]);
  ("MPI_Win_free", MI 1 false [true]);
  ("MPI_Win_lock", MI 4 false [false; false; false; false]);
  ("MPI_Win_lock_all", MI 2 false [false; false]);
  ("MPI_Win_unlock", MI 2 false [false; false]);
  ("MPI_Win_unlock_all", MI 1 false [false]);
  ("MPI_Win_flush", MI 2 false [false; false]);
  ("MPI_Wait", MI 2 false [true; true]);
  ("MPI_Waitall", MI 3 false [false; true; true]);
  ("MPI_Waitany", MI 4 false [false; false; true; true]);
  ("MPI_Waitsome", MI 5 false [false; false; true; true; true]);
  ("MPI_Wtick", MI 0 false []);
  ("MPI_Wtime", MI 0 false []);
  ("MPI_Win_create", MI 6 false [false; false; false; false; false; true]);
  ("MPI_Win_allocate", MI 6 false [false; false; false; false; false; true]);
  ("MPI_Win_start", MI 3 false [false; false; false])
].

Definition FuncModPairs_OpenMP : list FuncModPair := [
  ("omp_get_num_threads", MI 0 false []);
  ("omp_get_thread_num", MI 0 false []);
  ("__kmpc_fork_call", MI 4 false [false; false; false; false]);
  ("__kmpc_barrier", MI 2 false [false; false]);
  ("__kmpc_single", MI 2 false [false; false]);
  ("__kmpc_end_single", MI 2 false [false; false]);
  ("__kmpc_for_static_init_4", MI 9 false [false; false; false; false; false; false; false; false; false]);
  ("__kmpc_for_static_fini", MI 2 false [false; false]);
  ("__kmpc_global_thread_num", MI 1 false [false]);
  ("__kmpc_reduce_nowait", MI 7 false [false; false; false; false; false; false; false]);
  ("__kmpc_end_reduce_nowait", MI 3 false [false; false; false]);
  ("omp_get_max_threads", MI 0 false []);
  ("__kmpc_master", MI 2 false [true; false]);
  ("__kmpc_end_master", MI 2 false [true; false]);
  ("omp_get_wtime", MI 0 false []);
  ("__kmpc_dispatch_init_4", MI 7 false [true; false; false; false; false; false; false]);
  ("__kmpc_dispatch_next_4", MI 6 false [true; false; true; true; true; true]);
  ("__kmpc_critical", MI 3 false [true; false; true]);
  ("__kmpc_end_critical", MI 3 false [true; false; true])
].

Definition FuncModPairs_UPC : list FuncModPair := [
  ("upcri_err", MI 4 false [true; false; false; false]);
  ("upcri_stack_check", MI 4 false [true; false; true; false]);
  ("gasneti_checkinit", MI 0 false []);
  ("_upcr_notify", MI 2 false [false; false]);
  ("_upcr_wait", MI 2 false [false; false]);
  ("_upcr_startup_pshalloc", MI 1 false [true]);
  ("_upcr_all_alloc", MI 2 false [false; false]);
  ("_upcr_free", MI 1 false [false]);
  ("_upcr_memget_nb", MI 3 true [true; false; false]);
  ("_upcr_waitsync", MI 1 false [true]);
  ("gasnete_get_bulk", MI 4 false [true; false; true; false]);
  ("gasnete_put_bulk", MI 4 false [false; true; true; false]);
  ("gasneti_trace_setsourceline", MI 1 false [true]);
  ("_upcri_checkvalid_pshared", MI 4 false [false; false; true; false]);
  ("gasneti_stat_intval_accumulate", MI 2 false [true; false]);
  ("gasneti_dynsprintf", MI 7 true [true; false; false; false; false; false; false]);
  ("gasneti_trace_output", MI 3 false [true; true; false]);
  ("gasneti_build_loc_str", MI 3 false [false; false; false]);
  ("gasneti_fatalerror", MI 1 false [true]);
  ("gasnete_get_nb_bulk", MI 4 true [true; false; true; false]);
  ("gasnete_try_syncnb", MI 1 false [false]);
  ("sched_yield", MI 0 false []);
  ("_gasneti_memcheck_one", MI 1 false [true]);
  ("gasnetc_AMPoll", MI 0 false []);
  ("gasneti_vis_progressfn", MI 0 false []);
  ("_bupc_dump_shared", MI 3 false [false; true; false]);
  ("_upcri_checkvalid_shared", MI 4 false [false; false; true; false]);
  ("_gasneti_extern_free", MI 2 false [true; true]);
  ("posix_memalign", MI 3 false [true; false; false]);
  ("_upcr_alloc", MI 1 false [false]);
  ("pthread_mutex_init", MI 2 false [true; true]);
  ("upcr_global_exit", MI 1 false [false]);
  ("pthread_mutex_destroy", MI 1 false [true]);
  ("_upcr_memput_nb", MI 3 true [true; false; false]);
  ("_bupc_waitsync_all", MI 2 false [true; false]);
  ("_bupc_sem_alloc", MI 1 true [false]);
  ("_bupc_sem_postN", MI 2 false [true; false]);
  ("_upcr_all_reduceD", MI 8 false [true; false; false; false; false; true; false; false]);
  ("_upcr_all_broadcast", MI 4 false [true; false; false; false])
].

Definition FuncModPairs_gsl : list FuncModPair := [
  ("gsl_integration_qag", MI 10 true [false; false; false; false; false; false; false; true; true; true]);
  ("gsl_integration_workspace_alloc", MI 1 true [false]);
  ("gsl_integration_workspace_free", MI 1 false [true]);
  ("gsl_rng_alloc", MI 1 true [false]);
  ("gsl_rng_set", MI 2 false [false; false]);
  ("gsl_rng_size", MI 1 false [false]);
  ("gsl_rng_state", MI 1 true [false]);
  ("gsl_rng_uniform", MI 1 false [false])
].

Definition FuncModPairs_cblas_1 : list FuncModPair := [
  ("cblas_idamax", MI 3 false [false; false; false]);
  ("cblas_dgemv", MI 12 false [false; false; false; false; false; false; false; false; false; false; true; false]);
  ("cblas_sscal", MI 4 false [false; false; true; false]);
  ("cblas_dscal", MI 4 false [false; false; true; false]);
  ("cblas_cscal", MI 4 false [false; false; true; false]);
  ("cblas_zscal", MI 4 false [false; false; true; false]);
  ("cblas_csscal", MI 4 false [false; false; true; false]);
  ("cblas_zdscal", MI 4 false [false; false; true; false]);
  ("cblas_saxpy", MI 6 false [false; false; false; false; true; false]);
  ("cblas_daxpy", MI 6 false [false; false; false; false; true; false]);
  ("cblas_caxpy", MI 6 false [false; false; false; false; true; false]);
  ("cblas_zaxpy", MI 6 false [false; false; false; false; true; false]);
  ("cblas_sger", MI 10 false [false; false; false; false; false; false; false; false; true; false]);
  ("cblas_dger", MI 10 false [false; false; false; false; false; false; false; false; true; false]);
  ("cblas_cgerc", MI 10 false [false; false; false; false; false; false; false; false; true; false]);
  ("cblas_zgerc", MI 10 false [false; false; false; false; false; false; false; false; true; false]);
  ("cblas_cgeru", MI 10 false [false; false; false; false; false; false; false; false; true; false]);
  ("cblas_zgeru", MI 10 false [false; false; false; false; false; false; false; false; true; false]);
  ("cblas_strsm", MI 12 false [false; false; false; false; false; false; false; false; false; false; true; false]);
  ("cblas_dtrsm", MI 12 false [false; false; false; false; false; false; false; false; false; false; true; false]);
  ("cblas_ctrsm", MI 12 false [false; false; false; false; false; false; false; false; false; false; true; false]);
  ("cblas_ztrsm", MI 12 false [false; false; false; false; false; false; false; false; false; false; true; false]);
  ("cblas_strsv", MI 9 false [false; false; false; false; false; false; false; true; false]);
  ("cblas_dtrsv", MI 9 false [false; false; false; false; false; false; false; true; false]);
  ("cblas_ctrsv", MI 9 false [false; false; false; false; false; false; false; true; false]);
  ("cblas_ztrsv", MI 9 false [false; false; false; false; false; false; false; true; false]);
  ("cblas_sgemm", MI 14 false [false; false; false; false; false; false; false; false; false; false; false; false; true; false]);
  ("cblas_dgemm", MI 14 false [false; false; false; false; false; false; false; false; false; false; false; false; true; false]);
  ("cblas_cgemm", MI 14 false [false; false; false; false; false; false; false; false; false; false; false; false; true; false]);
  ("cblas_zgemm", MI 14 false [false; false; false; false; false; false; false; false; false; false; false; false; true; false]);
  ("cblas_dcopy", MI 5 false [false; false; false; false; true; false]);
  ("cblas_dasum", MI 3 false [false; false; false]);
  ("cblas_dzasum", MI 3 false [false; false; false]);
  ("cblas_sasum", MI 3 false [false; false; false]);
  ("cblas_scasum", MI 3 false [false; false; false]);
  ("cblas_dnrm2", MI 3 false [false; false; false]);
  ("cblas_dznrm2", MI 3 false [false; false; false]);
  ("cblas_scnrm2", MI 3 false [false; false; false]);
  ("cblas_snrm2", MI 3 false [false; false; false]);
  ("llvm.nvvm.read.ptx.sreg.tid.x", MI 0 false []);
  ("llvm.nvvm.read.ptx.sreg.tid.y", MI 0 false []);
  ("llvm.nvvm.read.ptx.sreg.tid.z", MI 0 false []);
  ("llvm.nvvm.read.ptx.sreg.ctaid.x", MI 0 false []);
  ("llvm.nvvm.read.ptx.sreg.ctaid.y", MI 0 false []);
  ("llvm.nvvm.read.ptx.sreg.ctaid.z", MI 0 false []);
  ("llvm.nvvm.read.ptx.sreg.nctaid.x", MI 0 false [])
].

Definition FuncModPairs_cblas_2 : list FuncModPair := [
  ("llvm.nvvm.read.ptx.sreg.nctaid.y", MI 0 false []);
  ("llvm.nvvm.read.ptx.sreg.nctaid.z", MI 0 false []);
  ("llvm.nvvm.read.ptx.sreg.ntid.x", MI 0 false []);
  ("llvm.nvvm.read.ptx.sreg.ntid.y", MI 0 false []);
  ("llvm.nvvm.read.ptx.sreg.ntid.z", MI 0 false []);
  ("llvm.nvvm.read.ptx.sreg.warpsize", MI 0 false []);
  ("llvm.nvvm.barrier0", MI 0 false []);
  ("llvm.nvvm.fabs.ftz.f", MI 1 false [false]);
  ("llvm.nvvm.fabs.f", MI 1 false [false]);
  ("llvm.nvvm.fabs.d", MI 1 false [false]);
  ("llvm.nvvm.fmax.d", MI 2 false [false; false]);
  ("llvm.nvvm.fmax.ftz.f", MI 2 false [false; false]);
  ("llvm.nvvm.fmax.f", MI 2 false [false; false]);
  ("llvm.nvvm.min.ui", MI 2 false [false; false]);
  ("llvm.nvvm.min.i", MI 2 false [false; false]);
  ("llvm.nvvm.max.i", MI 2 false [false; false]);
  ("llvm.annotation.i1", MI 4 false [false; true; true; false]);
  ("llvm.nvvm.fmin.ftz.f", MI 2 false [false; false]);
  ("llvm.nvvm.fmin.f", MI 2 false [false; false]);
  ("llvm.nvvm.lg2.approx.ftz.f", MI 1 false [false]);
  ("llvm.nvvm.lg2.approx.f", MI 1 false [false]);
  ("llvm.nvvm.ex2.approx.ftz.f", MI 1 false [false]);
  ("llvm.nvvm.ex2.approx.f", MI 1 false [false]);
  ("llvm.nvvm.sqrt.f", MI 1 false [false]);
  ("llvm.nvvm.sqrt.rn.d", MI 1 false [false]);
  ("llvm.nvvm.rsqrt.approx.ftz.f", MI 1 false [false]);
  ("llvm.nvvm.rsqrt.approx.f", MI 1 false [false]);
  ("llvm.nvvm.floor.ftz.f", MI 1 false [false]);
  ("llvm.nvvm.floor.f", MI 1 false [false]);
  ("llvm.nvvm.mul24.i", MI 2 false [false; false]);
  ("llvm.nvvm.mul.rn.ftz.f", MI 2 false [false; false]);
  ("llvm.nvvm.mul.rn.f", MI 2 false [false; false]);
  ("llvm.nvvm.d2i.hi", MI 1 false [false]);
  ("llvm.nvvm.d2i.lo", MI 1 false [false]);
  ("llvm.nvvm.d2i.rn", MI 1 false [false])
].

Definition FuncModPairs_cblas_3 : list FuncModPair := [
  ("llvm.nvvm.mul.rn.d", MI 2 false [false; false]);
  ("llvm.nvvm.add.rn.d", MI 2 false [false; false]);
  ("llvm.nvvm.add.rn.ftz.f", MI 2 false [false; false]);
  ("llvm.nvvm.add.rn.f", MI 2 false [false; false]);
  ("llvm.nvvm.fma.rn.d", MI 3 false [false; false; false]);
  ("llvm.nvvm.fma.rn.ftz.f", MI 3 false [false; false; false]);
  ("llvm.nvvm.fma.rn.f", MI 3 false [false; false; false]);
  ("llvm.nvvm.abs.i", MI 1 false [false]);
  ("llvm.nvvm.lohi.i2d", MI 2 false [false; false]);
  ("llvm.nvvm.clz.ll", MI 1 false [false]);
  ("llvm.nvvm.ceil.d", MI 1 false [false]);
  ("llvm.nvvm.trunc.ftz.f", MI 1 false [false]);
  ("llvm.nvvm.trunc.f", MI 1 false [false]);
  ("__nvvm_reflect", MI 1 false [true]);
  ("__assertfail", MI 5 false [false; false; false; false; false]);
  ("llvm.nvvm.atomic.load.add.f32.p0f32", MI 2 false [true; false]);
  ("llvm.nvvm.membar.cta", MI 0 false []);
  ("llvm.nvvm.brev32", MI 1 false [false]);
  ("llvm.nvvm.clz.i", MI 1 false [false]);
  ("llvm.nvvm.popc.i", MI 1 false [false])
].

Definition FuncModPairs_NAS : list FuncModPair := [
  ("memset_pattern16", MI 3 false [false; false; false]);
  (esc01 "_fopen", MI 2 true [false; false]);
  ("initADCpar", MI 1 false [true]);
  ("ParseParFile", MI 2 false [true; true]);
  ("ShowADCPar", MI 1 false [true]);
  ("GenerateADC", MI 1 false [false]);
  ("NewAdcViewCntl", MI 2 true [true; false]);
  ("PartitionCube", MI 1 false [true]);
  ("ComputeGivenGroupbys", MI 1 false [true]);
  ("CloseAdcView", MI 1 false [true]);
  ("timer_stop", MI 1 false [false]);
  ("timer_start", MI 1 false [false]);
  ("timer_clear", MI 1 false [false]);
  ("timer_read", MI 1 false [false]);
  ("c_print_results", MI 20 false [true; false; false; false; false; false; false; false; false; true; false; true; true; true; true; true; true; true; true; true])
].

Definition FuncModPairs_AMG : list FuncModPair := [
  (esc01 "_strtod", MI 2 false [false; true]);
  ("sscanf", MI 3 false [false; false; true]);
  ("llvm.objectsize.i64.p0i8", MI 2 false [false; false]);
  ("__memcpy_chk", MI 3 false [true; false; false]);
  (esc01 "_clock", MI 0 false []);
  ("__strncpy_chk", MI 3 true [true; false; false]);
  ("__sprintf_chk", MI 3 false [true; false; false]);
  ("llvm.pow.f64", MI 2 false [false; false]);
  ("fscanf", MI 3 false [false; false; true])
].

Definition FuncModPairs_PHYLIP : list FuncModPair := [
  ("scanf", MI 2 false [false; true]);
  ("putc", MI 2 false [false; false]);
  ("getc", MI 1 false [false]);
  ("islower", MI 1 false [false]);
  ("isdigit", MI 1 false [false]);
  ("isalpha", MI 1 false [false]);
  (esc01 "_fputs", MI 2 false [false; false]);
  (esc01 "_freopen", MI 3 true [false; false; false]);
  ("__strcpy_chk", MI 3 false [true; false; false]);
  ("__memset_chk", MI 4 false [true; false; false; false]);
  ("uppercase", MI 1 false [true]);
  ("isupper", MI 1 false [true])
].

Definition FuncModPairs_Gadget2 : list FuncModPair := [
  (esc01 "_fwrite", MI 4 false [false; false; false; true]);
  (esc01 "_strerror", MI 1 true [false]);
  (esc01 "_system", MI 1 false [true]);
  ("__strcat_chk", MI 3 true [true; true; false]);
  ("__error", MI 0 false []);
  ("__memmove_chk", MI 4 true [true; true; false; false])
].

Definition FuncModPairs_IOR : list FuncModPair := [
  (esc01 "_sleep", MI 1 false [false]);
  (esc01 "_putenv", MI 1 false [true]);
  ("statvfs", MI 2 false [true; true]);
  (esc01 "_realpath$DARWIN_EXTSN", MI 2 true [true; true]);
  (esc01 "_regcomp", MI 3 false [true; true; false]);
  (esc01 "_open", MI 2 false [true; false]);
  ("lseek", MI 3 false [false; false; false]);
  (esc01 "_read", MI 3 false [false; true; false]);
  (esc01 "_write", MI 3 false [false; true; false]);
  (esc01 "_close", MI 1 false [false]);
  ("isspace", MI 1 false [false]);
  (esc01 "_getopt", MI 3 false [false; true; true]);
  (esc01 "_fsync", MI 1 false [false]);
  (esc01 "_stat$INODE64", MI 2 false [true; true])
].

Definition FuncModPairs_CoMD : list FuncModPair := [
  ("__assert_rtn", MI 4 false [true; true; false; true])
].

Definition FuncModPairs_miniAMR : list FuncModPair := [
  ("__exp10", MI 1 false [false])
].

Definition FuncModPairs_Hydro : list FuncModPair := [
  ("ComputeQEforRow", MI 12 false [false; false; false; false; false; false; false; false; false; false; false; false])
].

Definition FuncModPairs_HPL : list FuncModPair := [
  ("__vsprintf_chk", MI 5 false [false; false; false; false; false])
].

Definition FuncModPairs_LAPACKE : list FuncModPair := [
  ("LAPACKE_dlamch", MI 1 false [false]);
  ("LAPACKE_clange", MI 6 false [false; false; false; false; false; false]);
  ("LAPACKE_clascl_work", MI 10 false [false; false; false; false; false; false; false; false; true; false]);
  ("LAPACKE_claset_work", MI 8 false [false; false; false; false; false; false; true; false]);
  ("LAPACKE_dlange", MI 6 false [false; false; false; false; false; false]);
  ("LAPACKE_dlascl_work", MI 10 false [false; false; false; false; false; false; false; false; true; false]);
  ("LAPACKE_dlaset_work", MI 8 false [false; false; false; false; false; false; true; false]);
  ("LAPACKE_slamch", MI 1 false [false]);
  ("LAPACKE_slange", MI 6 false [false; false; false; false; false; false]);
  ("LAPACKE_slascl_work", MI 10 false [false; false; false; false; false; false; false; false; true; false]);
  ("LAPACKE_slaset_work", MI 8 false [false; false; false; false; false; false; true; false]);
  ("LAPACKE_zlange", MI 6 false [false; false; false; false; false; false]);
  ("LAPACKE_zlascl_work", MI 10 false [false; false; false; false; false; false; false; false; true; false]);
  ("LAPACKE_zlaset_work", MI 8 false [false; false; false; false; false; false; true; false]);
  ("__muldc3", MI 2 false [false; false]);
  ("__mulsc3", MI 2 false [false; false])
].

Definition FuncModPairs : list FuncModPair :=
  FuncModPairs_MILC ++
  FuncModPairs_LLVM ++
  FuncModPairs_libc_1 ++
  FuncModPairs_libc_2 ++
  FuncModPairs_tests ++
  FuncModPairs_MPI_1 ++
  FuncModPairs_MPI_2 ++
  FuncModPairs_OpenMP ++
  FuncModPairs_UPC ++
  FuncModPairs_gsl ++
  FuncModPairs_cblas_1 ++
  FuncModPairs_cblas_2 ++
  FuncModPairs_cblas_3 ++
  FuncModPairs_NAS ++
  FuncModPairs_AMG ++
  FuncModPairs_PHYLIP ++
  FuncModPairs_Gadget2 ++
  FuncModPairs_IOR ++
  FuncModPairs_CoMD ++
  FuncModPairs_miniAMR ++
  FuncModPairs_Hydro ++
  FuncModPairs_HPL ++
  FuncModPairs_LAPACKE.

#[local] Open Scope list_scope.

(** [ExtModInfoMap], as the constructor fills it: a later entry of the same name
    replaces an earlier one. *)
Definition ExtModInfoMap : gmap string ModInfo :=
  fold_left (fun (m : gmap string ModInfo) '(Name, Info) => <[Name := Info]> m) FuncModPairs ∅.

(** [getExtModInfo]. *)
Definition getExtModInfo (Name : string) : option ModInfo := ExtModInfoMap !! Name.

(** [MissingInfo]: the declared functions without information, in the order of
    the module. *)
Definition MissingInfo (M : Module_) : list string :=
  fold_left (fun Missing F =>
    if negb (isDeclaration M F) || isIntrinsicDbgFunction M F then Missing
    else match getExtModInfo (getName (function M F)) with
         | Some _ => Missing
         | None => Missing ++ [getName (function M F)]
         end) (functions M) [].

(** The message of the constructor; nothing when nothing is missing. *)
Definition missing_message (Missing : list string) : string :=
  match Missing with
  | [] => ""
  | x :: r =>
      "Parcoach is missing some information about external functions: " +:+
      fold_left (fun s n => s +:+ ", " +:+ n) r x +:+
      ".
The alias analyses may be innaccurate, you may want to add these functions to ExtInfo.cpp.
"
  end.

(** How ModRefAnalysis.cpp and MemorySSA.cpp read the entry for argument [I] of
    a call: past the parameters of a variadic function the last one answers.
    An index out of the vector is undefined behaviour. *)
Definition arg_is_mod (Info : ModInfo) (I : nat) (isVarArg : bool) : res bool :=
  if (NbArgs Info <=? I)%nat then
    if negb isVarArg then Broken
    else match NbArgs Info with O => Broken | S n => of_option (ArgIsMod Info !! n) end
  else of_option (ArgIsMod Info !! I).

(** * What holds of the table *)

(** The entries whose vector is not as long as the number of parameters. *)
Definition ill_sized : list string :=
  omap (fun '(n, i) => if bool_decide (length (ArgIsMod i) = NbArgs i) then None else Some n) FuncModPairs.

Lemma ill_sized_eq : ill_sized = ["signal"; "cblas_dcopy"].
Proof. vm_compute. reflexivity. Qed.

(** Entries of the same name agree, so that the map loses nothing. *)
Definition consistent_table : bool :=
  forallb (fun '(n, i) => match getExtModInfo n with
    | Some j => (NbArgs i =? NbArgs j)%nat && Bool.eqb (RetIsMod i) (RetIsMod j) &&
                bool_decide (ArgIsMod i = ArgIsMod j)
    | None => false end) FuncModPairs.

Lemma table_is_consistent : consistent_table = true.
Proof. vm_compute. reflexivity. Qed.

Lemma fold_insert_lookup (l : list FuncModPair) (m : gmap string ModInfo) n i :
  fold_left (fun (m : gmap string ModInfo) '(Name, Info) => <[Name := Info]> m) l m !! n = Some i ->
  (n, i) ∈ l \/ m !! n = Some i.
Proof.
  revert m. induction l as [|[x j] l IH]; intros m; cbn [fold_left]; [auto|].
  intros [?|H]%IH; [left; by apply list_elem_of_further|].
  destruct (decide (x = n)) as [->|Hx].
  - rewrite (lookup_insert_eq m) in H. injection H as ->. left. apply list_elem_of_here.
  - rewrite (lookup_insert_ne m) in H by done. by right.
Qed.

Lemma getExtModInfo_in n i : getExtModInfo n = Some i -> (n, i) ∈ FuncModPairs.
Proof. intros [?|H]%fold_insert_lookup; [done|]. by rewrite lookup_empty in H. Qed.

(** [getExtModInfo] answers exactly the entries of the table. *)
Lemma getExtModInfo_iff n i : getExtModInfo n = Some i <-> (n, i) ∈ FuncModPairs.
Proof.
  split; [apply getExtModInfo_in|]. intros Hin. pose proof table_is_consistent as Hc.
  unfold consistent_table in Hc. rewrite forallb_forall in Hc.
  rewrite list_elem_of_In in Hin. specialize (Hc (n, i) Hin). cbv beta iota in Hc.
  destruct (getExtModInfo n) as [j|]; [|done]. destruct i as [a b c], j as [a' b' c']. cbn [NbArgs RetIsMod ArgIsMod] in Hc.
  apply andb_true_iff in Hc as [[H1 H2]%andb_true_iff H3].
  apply Nat.eqb_eq in H1. apply Bool.eqb_prop in H2. apply bool_decide_eq_true in H3. congruence.
Qed.

Lemma well_sized n i :
  getExtModInfo n = Some i -> n <> "signal" -> (NbArgs i <= length (ArgIsMod i))%nat.
Proof.
  intros Hin%getExtModInfo_in Hs.
  assert (forallb (fun '(n, i) => bool_decide (n = "signal") || (NbArgs i <=? length (ArgIsMod i))%nat)
    FuncModPairs = true) as H by (vm_compute; reflexivity).
  rewrite forallb_forall in H. rewrite list_elem_of_In in Hin. specialize (H (n, i) Hin). cbv beta iota in H.
  rewrite bool_decide_false in H by done. by apply Nat.leb_le.
Qed.

(** A Darwin name is known with its first byte only. *)
Example darwin_fopen :
  String.length (esc01 "_fopen") = 7%nat /\ getExtModInfo (esc01 "_fopen") = Some (MI 2 true [false; false]) /\
  getExtModInfo "_fopen" = None.
Proof. vm_compute. auto. Qed.

(** C35 (extinfo). The information the table gives about a known function
    answers for every argument of a call -- those of its parameters, and the
    further ones of a variadic function with a parameter -- inside its vector
    of flags, for every function but [signal], whose vector is one short: the
    query for its second argument reads out of bounds. *)
Theorem arg_is_mod_in_bounds n i :
  getExtModInfo n = Some i ->
  (n <> "signal" -> forall I isVarArg, ((I < NbArgs i)%nat \/ (isVarArg = true /\ 0 < NbArgs i)%nat) ->
     exists b, arg_is_mod i I isVarArg = Ok b) /\
  (n = "signal" -> arg_is_mod i 1 false = Broken).
Proof.
  intros Hi. split.
  - intros Hs I v Hv. pose proof (well_sized n i Hi Hs) as Hl. unfold arg_is_mod.
    destruct (Nat.leb_spec (NbArgs i) I) as [H|H].
    + destruct Hv as [?|[-> Hpos]]; [lia|]. simpl. destruct (NbArgs i) as [|k]; [lia|].
      destruct (lookup_lt_is_Some_2 (ArgIsMod i) k) as [b ->]; [lia|]. eexists. reflexivity.
    + destruct (lookup_lt_is_Some_2 (ArgIsMod i) I) as [b ->]; [lia|]. eexists. reflexivity.
  - intros ->. vm_compute in Hi. injection Hi as <-. reflexivity.
Qed.

Lemma arg_is_mod_in_bounds_witness :
  exists i, getExtModInfo "printf" = Some i /\ exists b, arg_is_mod i 3 true = Ok b.
Proof.
  destruct (getExtModInfo "printf") as [i|] eqn:E; [|exfalso; vm_compute in E; discriminate].
  exists i. split; [reflexivity|]. apply (arg_is_mod_in_bounds "printf" i E); [discriminate|].
  right. split; [reflexivity|]. vm_compute in E. injection E as <-. simpl. lia.
Defined.

#[local] Opaque FuncModPairs ExtModInfoMap.

(** The functions the constructor reports are exactly the
    declared, non-debug functions the table has no entry for, in the order of
    the module. *)
Theorem MissingInfo_spec M :
  MissingInfo M = (fun F => getName (function M F)) <$>
    List.filter (fun F => isDeclaration M F && negb (isIntrinsicDbgFunction M F) &&
      negb (bool_decide (getName (function M F) ∈ FuncModPairs.*1))) (functions M).
Proof.
  unfold MissingInfo.
  assert (forall l acc, fold_left (fun Missing F =>
      if negb (isDeclaration M F) || isIntrinsicDbgFunction M F then Missing
      else match getExtModInfo (getName (function M F)) with
           | Some _ => Missing | None => Missing ++ [getName (function M F)] end) l acc =
    acc ++ ((fun F => getName (function M F)) <$>
      List.filter (fun F => isDeclaration M F && negb (isIntrinsicDbgFunction M F) &&
        negb (bool_decide (getName (function M F) ∈ FuncModPairs.*1))) l)) as Hl; [|by rewrite Hl].
  induction l as [|F l IH]; intros acc; cbn [fold_left List.filter]; [by rewrite app_nil_r|].
  rewrite IH. destruct (isDeclaration M F); simpl; [|done].
  destruct (isIntrinsicDbgFunction M F); simpl; [done|].
  destruct (getExtModInfo (getName (function M F))) as [i|] eqn:E.
  - apply getExtModInfo_in in E. rewrite bool_decide_true; [done|].
    apply list_elem_of_fmap. by exists (getName (function M F), i).
  - rewrite bool_decide_false; [by rewrite <- app_assoc|].
    intros ([n i] & En & Hin)%list_elem_of_fmap. apply getExtModInfo_iff in Hin. cbn [fst] in En. congruence.
Qed.
