(* ===== verification/PTACallGraph.v ===== *)
(** The call graph (PTACallGraph.cpp, PTACallGraph.h): a node per function, the
    call records, the targets of indirect calls given by the pointer analysis
    (the interface [PointsTo]), and the functions reachable from [main]. *)
From stdpp Require Import relations.
From S2P Require Import Prelude IR Search Samples.

(** A node: of a function of [FunctionMap] -- the null function's is the
    external calling node -- or the node of calls to the outside. *)
Inductive CGNode :=
| FnNode (F : option FuncId)
| CallsExternalNode.

#[export] Instance CGNode_eq_dec : EqDecision CGNode.
Proof. solve_decision. Defined.

#[export] Instance CGNode_countable : Countable CGNode.
Proof.
  refine (inj_countable' (fun n => match n with FnNode F => Some F | CallsExternalNode => None end)
    (fun o => match o with Some F => FnNode F | None => CallsExternalNode end) _).
  by intros [].
Defined.

(** [CallRecord]: the call, if there is one, and the node called. *)
Abbreviation CallRecord := (option InstId * CGNode)%type.

(** The fields of [class PTACallGraph]; [FunctionMap] holds the records of each
    node. *)
Record PTACallGraph := {
  FunctionMap : gmap (option FuncId) (list CallRecord);
  Root : option (option FuncId);
  ProgEntry : option (option FuncId);
  reachableFunctions : gset FuncId;
  indirectCallMap : gmap InstId (gset FuncId)
}.

(** What the code asks of a function. *)
Class FunctionInfo := {
  hasLocalLinkage : FuncId -> bool;
  hasAddressTaken : FuncId -> bool;
  isIntrinsic : FuncId -> bool;
  isLeaf : FuncId -> bool;      (** [Intrinsic::isLeaf(F->getIntrinsicID())] *)
  arg_size : FuncId -> nat;
  isVarArg : FuncId -> bool
}.

(** What it asks of the pointer analysis: the functions among the values the
    called operand of an indirect call points to. *)
Class PointsTo := { getPointsToSet : InstId -> option (list FuncId) }.

Section CallGraph.
Context (M : Module_) {FI : FunctionInfo} {AA : PointsTo}.

Definition set_map (f : gmap (option FuncId) (list CallRecord) -> gmap (option FuncId) (list CallRecord))
    (g : PTACallGraph) : PTACallGraph :=
  {| FunctionMap := f (FunctionMap g); Root := Root g; ProgEntry := ProgEntry g;
     reachableFunctions := reachableFunctions g; indirectCallMap := indirectCallMap g |}.

(** [getOrInsertFunction]. *)
Definition getOrInsertFunction (F : option FuncId) (g : PTACallGraph) : PTACallGraph :=
  match FunctionMap g !! F with Some _ => g | None => set_map (<[F := []]>) g end.

(** [addCalledFunction] on the node of [F]. *)
Definition addCalledFunction (F : option FuncId) (r : CallRecord) (g : PTACallGraph) : PTACallGraph :=
  set_map (alter (fun rs => rs ++ [r]) F) g.

(** [IsCandidateF]: the arity of the candidate allows the call. *)
Definition IsCandidateF (nargs : nat) (F : FuncId) : bool :=
  (nargs =? arg_size F)%nat || (isVarArg F && (arg_size F <? nargs)%nat).

(** One candidate of an indirect call. *)
Definition add_candidate (F : FuncId) (CI : InstId) (g : PTACallGraph) (LocalCallee : FuncId) :
    PTACallGraph :=
  let g1 := {| FunctionMap := FunctionMap g; Root := Root g; ProgEntry := ProgEntry g;
               reachableFunctions := reachableFunctions g;
               indirectCallMap := <[CI := {[ LocalCallee ]} ∪ default ∅ (indirectCallMap g !! CI)]>
                                    (indirectCallMap g) |} in
  if isLeaf LocalCallee then
    addCalledFunction (Some F) (Some CI, FnNode (Some LocalCallee))
      (getOrInsertFunction (Some LocalCallee) g1)
  else g1.

(** One call of [F]. *)
Definition add_call (F : FuncId) (g : PTACallGraph) (I : Instruction) : res PTACallGraph :=
  match I with
  | CallInst CI (Some Callee) _ _ =>
      Ok (if negb (isLeaf Callee) then addCalledFunction (Some F) (Some CI, CallsExternalNode) g
          else if negb (isIntrinsic Callee) then
            addCalledFunction (Some F) (Some CI, FnNode (Some Callee))
              (getOrInsertFunction (Some Callee) g)
          else g)
  | CallInst CI None args _ =>
      let g1 := addCalledFunction (Some F) (Some CI, CallsExternalNode) g in
      let* PtsSet := of_option (getPointsToSet CI) in
      let candidates := List.filter (IsCandidateF (length args)) PtsSet in
      let* _ := guard (negb (bool_decide (candidates = []))) in
      Ok (fold_left (add_candidate F CI) candidates g1)
  | _ => Ok g
  end.

(** A function with external linkage: anything could call it, and it may be the entry
    point. *)
Definition add_external_linkage (F : FuncId) (g : PTACallGraph) : res PTACallGraph :=
  if negb (hasLocalLinkage F) then
    let g' := addCalledFunction None (None, FnNode (Some F)) g in
    if bool_decide (getName (function M F) = "main"%string) then
      let* _ := guard (bool_decide (Root g' = None)) in
      Ok {| FunctionMap := FunctionMap g'; Root := Some (Some F); ProgEntry := Some (Some F);
            reachableFunctions := reachableFunctions g'; indirectCallMap := indirectCallMap g' |}
    else Ok g'
  else Ok g.

(** [addToCallGraph]. *)
Definition addToCallGraph (g : PTACallGraph) (F : FuncId) : res PTACallGraph :=
  let* g2 := add_external_linkage F (getOrInsertFunction (Some F) g) in
  let g3 := if hasAddressTaken F then addCalledFunction None (None, FnNode (Some F)) g2 else g2 in
  let g4 := if isDeclaration M F && negb (isIntrinsic F)
            then addCalledFunction (Some F) (None, CallsExternalNode) g3 else g3 in
  rfold (add_call F) (instructions M F) g4.

(** The nodes a node calls, in the order of its records. *)
Definition callees (g : PTACallGraph) (n : CGNode) : list CGNode :=
  match n with
  | FnNode F => (default [] (FunctionMap g !! F)).*2
  | CallsExternalNode => []
  end.

(** The function of a node, if any. *)
Definition getFunction (n : CGNode) : option FuncId :=
  match n with FnNode F => F | CallsExternalNode => None end.

(** The search from the entry: a queue. *)
Definition reachable_from (fuel : nat) (g : PTACallGraph) (entry : option FuncId) : res (gset FuncId) :=
  let* v := search (callees g) (fun _ => false) (fun q n => q ++ [n]) fuel [FnNode entry] {[ FnNode entry ]} in
  let* Visited := of_option v in
  Ok (list_to_set (omap getFunction (elements Visited))).

(** The constructor. *)
Definition PTACallGraph_build (fuel : nat) : res PTACallGraph :=
  let g0 := getOrInsertFunction None
    {| FunctionMap := ∅; Root := None; ProgEntry := None; reachableFunctions := ∅;
       indirectCallMap := ∅ |} in
  let* g1 := rfold addToCallGraph (functions M) g0 in
  let root := match Root g1 with Some r => Some r | None => Some None end in
  match ProgEntry g1 with
  | None => Ok {| FunctionMap := FunctionMap g1; Root := root; ProgEntry := None;
                  reachableFunctions := ∅; indirectCallMap := indirectCallMap g1 |}
  | Some e =>
      let* reach := reachable_from fuel g1 e in
      Ok {| FunctionMap := FunctionMap g1; Root := root; ProgEntry := Some e;
            reachableFunctions := reach; indirectCallMap := indirectCallMap g1 |}
  end.

(** [isReachableFromEntry]: without a main function, everything is. *)
Definition isReachableFromEntry (g : PTACallGraph) (F : FuncId) : bool :=
  match ProgEntry g with
  | Some _ => bool_decide (F ∈ reachableFunctions g)
  | None => true
  end.

(** * The call relation of the program *)

(** A call of [F] that the graph follows to [G]: direct, to a function that is
    no intrinsic, or indirect, to a candidate. *)
Definition call_target (I : Instruction) (G : FuncId) : Prop :=
  match I with
  | CallInst _ (Some Callee) _ _ => Callee = G /\ isLeaf G = true /\ isIntrinsic G = false
  | CallInst CI None args _ =>
      exists l, getPointsToSet CI = Some l /\ G ∈ l /\ IsCandidateF (length args) G = true /\ isLeaf G = true
  | _ => False
  end.

Definition calls (F G : FuncId) : Prop :=
  F ∈ functions M /\ exists I, I ∈ instructions M F /\ call_target I G.

(** Every function called is one of the module, and every indirect call has a
    candidate. *)
Record calls_ok : Prop := {
  co_nodup : NoDup (functions M);
  co_direct : forall F CI G args loc, F ∈ functions M ->
    CallInst CI (Some G) args loc ∈ instructions M F -> G ∈ functions M;
  co_indirect : forall F CI args loc, F ∈ functions M -> CallInst CI None args loc ∈ instructions M F ->
    exists l, getPointsToSet CI = Some l /\ (forall G, G ∈ l -> G ∈ functions M) /\
      exists G, G ∈ l /\ IsCandidateF (length args) G = true;
  co_main : forall F G, F ∈ functions M -> G ∈ functions M ->
    getName (function M F) = "main"%string -> getName (function M G) = "main"%string -> F = G
}.

(** * The graph has the edges of the call relation *)

(** The nodes called by the node of [F]. *)
Local Abbreviation out g F := ((default [] (FunctionMap g !! F)).*2).

(** What an operation of [F] may change: the records of [F] grow by [l]. *)
Definition grows (F : option FuncId) (l : list CGNode) (g g' : PTACallGraph) : Prop :=
  is_Some (FunctionMap g' !! F) /\ out g' F = out g F ++ l /\
  (forall F', F' <> F -> out g' F' = out g F') /\
  (forall F', is_Some (FunctionMap g !! F') -> is_Some (FunctionMap g' !! F')) /\
  Root g' = Root g /\ ProgEntry g' = ProgEntry g /\ reachableFunctions g' = reachableFunctions g.

Lemma grows_trans F l1 l2 g1 g2 g3 : grows F l1 g1 g2 -> grows F l2 g2 g3 -> grows F (l1 ++ l2) g1 g3.
Proof.
  intros (? & E1 & S1 & K1 & ? & ? & ?) (? & E2 & S2 & K2 & ? & ? & ?).
  split; [done|]. split; [by rewrite E2, E1, app_assoc|]. split; [intros; rewrite S2, S1; done|].
  split; [auto|]. repeat split; congruence.
Qed.

Lemma out_getOrInsert F g F' : out (getOrInsertFunction F g) F' = out g F'.
Proof.
  unfold getOrInsertFunction. destruct (FunctionMap g !! F) eqn:E; [done|]. simpl.
  destruct (decide (F' = F)) as [->|Hne].
  - by rewrite (lookup_insert_eq (FunctionMap g)), E.
  - by rewrite (lookup_insert_ne (FunctionMap g)) by congruence.
Qed.

Lemma getOrInsert_some F g F' :
  is_Some (FunctionMap g !! F') \/ F' = F -> is_Some (FunctionMap (getOrInsertFunction F g) !! F').
Proof.
  unfold getOrInsertFunction. destruct (FunctionMap g !! F) eqn:E; [by intros [?| ->]|]. simpl.
  destruct (decide (F' = F)) as [->|Hne].
  - rewrite (lookup_insert_eq (FunctionMap g)). eauto.
  - rewrite (lookup_insert_ne (FunctionMap g)) by congruence. by intros [?|?].
Qed.

Lemma grows_add F r g : is_Some (FunctionMap g !! F) -> grows F [r.2] g (addCalledFunction F r g).
Proof.
  intros [rs Hrs]. unfold addCalledFunction, set_map, grows. simpl.
  rewrite (lookup_alter_eq (M := gmap (option FuncId))), Hrs. simpl. split; [eauto|].
  split; [by rewrite fmap_app|]. split; [|split; [|done]].
  - intros F' Hne. by rewrite (lookup_alter_ne (M := gmap (option FuncId))) by congruence.
  - intros F' HF'. destruct (decide (F' = F)) as [->|Hne].
    + rewrite (lookup_alter_eq (M := gmap (option FuncId))), Hrs. eauto.
    + by rewrite (lookup_alter_ne (M := gmap (option FuncId))) by congruence.
Qed.

Lemma grows_insert F G g :
  is_Some (FunctionMap g !! F) -> grows F [] g (getOrInsertFunction G g).
Proof.
  intros HF. split; [apply getOrInsert_some; by left|]. rewrite app_nil_r, out_getOrInsert.
  split; [done|]. split; [intros; apply out_getOrInsert|].
  split; [intros; apply getOrInsert_some; by left|].
  unfold getOrInsertFunction. by destruct (FunctionMap g !! G).
Qed.

(** The nodes a call adds. *)
Definition adds (I : Instruction) (l : list CGNode) : Prop :=
  (FnNode None ∉ l) /\ forall G, FnNode (Some G) ∈ l <-> call_target I G.

Lemma add_candidate_spec F CI g G :
  is_Some (FunctionMap g !! Some F) ->
  grows (Some F) (if isLeaf G then [FnNode (Some G)] else []) g (add_candidate F CI g G).
Proof.
  intros HF. unfold add_candidate. set (g1 := Build_PTACallGraph _ _ _ _ _).
  assert (grows (Some F) [] g g1) as H1.
  { split; [done|]. rewrite app_nil_r. repeat split; done. }
  destruct (isLeaf G); [|done].
  pose proof (grows_insert (Some F) (Some G) g1 HF) as H2.
  exact (grows_trans _ _ _ _ _ _ H1 (grows_trans _ _ _ _ _ _ H2
    (grows_add (Some F) (Some CI, FnNode (Some G)) _ (proj1 H2)))).
Qed.

Lemma add_candidates_spec F CI Gs : forall g,
  is_Some (FunctionMap g !! Some F) ->
  exists l, grows (Some F) l g (fold_left (add_candidate F CI) Gs g) /\ (FnNode None ∉ l) /\
    forall G, FnNode (Some G) ∈ l <-> G ∈ Gs /\ isLeaf G = true.
Proof.
  induction Gs as [|G Gs IH]; intros g HF; cbn [fold_left].
  - exists []. split; [|set_solver]. split; [done|]. rewrite app_nil_r. done.
  - pose proof (add_candidate_spec F CI g G HF) as H1.
    destruct (IH (add_candidate F CI g G)) as (l & Hl & Hn & Hin); [exact (proj1 H1)|].
    eexists. split; [eapply grows_trans; eassumption|]. split.
    + intros [Hx|Hx]%elem_of_app; [|done]. destruct (isLeaf G); set_solver.
    + intros G'. rewrite elem_of_app, Hin, elem_of_cons. destruct (isLeaf G) eqn:E.
      * rewrite list_elem_of_singleton. split; [|intros [[->|?] ?]; auto].
        intros [[= ->]|[? ?]]; auto.
      * split; [intros [?%not_elem_of_nil|[? ?]]; [done|auto]|].
        intros [[->|?] ?]; [congruence|auto].
Qed.

Lemma add_call_spec F g I :
  calls_ok -> F ∈ functions M -> I ∈ instructions M F -> is_Some (FunctionMap g !! Some F) ->
  exists g' l, add_call F g I = Ok g' /\ grows (Some F) l g g' /\ adds I l.
Proof.
  intros OK HF HI Hg. unfold adds.
  assert (forall I, (forall G, ~ call_target I G) -> exists g' l,
    Ok g = Ok g' /\ grows (Some F) l g g' /\ (FnNode None ∉ l) /\
    forall G, FnNode (Some G) ∈ l <-> call_target I G) as Hnone.
  { intros J HJ. exists g, []. split; [done|]. split; [|split; [set_solver|]].
    - split; [done|]. rewrite app_nil_r. done.
    - intros G. split; [by intros ?%not_elem_of_nil|intros ?; by destruct (HJ G)]. }
  destruct I as [CI [Callee|] args loc| | | | | |]; try (apply Hnone; intros G []).
  - simpl. destruct (isLeaf Callee) eqn:El; simpl; [destruct (isIntrinsic Callee) eqn:Ei; simpl|].
    + apply (Hnone (CallInst CI (Some Callee) args loc)). intros G (-> & _ & ?). congruence.
    + pose proof (grows_insert (Some F) (Some Callee) g Hg) as H1.
      pose proof (grows_add (Some F) (Some CI, FnNode (Some Callee)) (getOrInsertFunction (Some Callee) g)
        (proj1 H1)) as H2.
      eexists _, _. split; [reflexivity|]. split; [exact (grows_trans _ _ _ _ _ _ H1 H2)|].
      cbn [app snd]. split; [set_solver|]. intros G. rewrite list_elem_of_singleton.
      split; [intros [= ->]; done|]. by intros (-> & _).
    + pose proof (grows_add (Some F) (Some CI, CallsExternalNode) g Hg) as H1.
      eexists _, _. split; [reflexivity|]. split; [exact H1|]. cbn [snd]. split; [set_solver|].
      intros G. split; [by intros ?%list_elem_of_singleton|]. intros (-> & ? & _). congruence.
  - destruct (co_indirect OK F CI args loc HF HI) as (pts & Ep & _ & G0 & HG0 & Hc0).
    unfold add_call. rewrite Ep. cbn [of_option rbind].
    assert (G0 ∈ List.filter (IsCandidateF (length args)) pts) as H0 by (by apply elem_of_filterb).
    rewrite bool_decide_false by (intros E; rewrite E in H0; set_solver). cbn [negb guard rbind].
    pose proof (grows_add (Some F) (Some CI, CallsExternalNode) g Hg) as H1.
    destruct (add_candidates_spec F CI (List.filter (IsCandidateF (length args)) pts)
      (addCalledFunction (Some F) (Some CI, CallsExternalNode) g) (proj1 H1)) as (l & Hl & Hn & Hin).
    eexists _, _. split; [reflexivity|]. split; [exact (grows_trans _ _ _ _ _ _ H1 Hl)|].
    cbn [snd app]. split; [set_solver|]. intros G. rewrite elem_of_cons, Hin, elem_of_filterb. simpl.
    split.
    + intros [?|[[? ?] ?]]; [done|]. exists pts. done.
    + intros (l' & Ep' & ? & ? & ?). right. assert (l' = pts) as -> by congruence. done.
Qed.

Lemma add_calls_spec F Is : forall g,
  calls_ok -> F ∈ functions M -> (forall I, I ∈ Is -> I ∈ instructions M F) ->
  is_Some (FunctionMap g !! Some F) ->
  exists g' l, rfold (add_call F) Is g = Ok g' /\ grows (Some F) l g g' /\ (FnNode None ∉ l) /\
    forall G, FnNode (Some G) ∈ l <-> exists I, I ∈ Is /\ call_target I G.
Proof.
  induction Is as [|I Is IH]; intros g OK HF HIs Hg.
  - exists g, []. split; [done|]. split; [|set_solver]. split; [done|]. rewrite app_nil_r. done.
  - destruct (add_call_spec F g I OK HF (HIs I (list_elem_of_here _ _)) Hg) as (g1 & l1 & E1 & H1 & Hn1 & Hi1).
    destruct (IH g1 OK HF) as (g2 & l2 & E2 & H2 & Hn2 & Hi2);
      [intros; apply HIs; by apply list_elem_of_further|exact (proj1 H1)|].
    exists g2, (l1 ++ l2). cbn [rfold]. rewrite E1. split; [exact E2|]. split; [by eapply grows_trans|].
    split; [set_solver|]. intros G. rewrite elem_of_app, Hi1, Hi2. setoid_rewrite elem_of_cons. split.
    + intros [?|(J & ? & ?)]; eauto.
    + intros (J & [->|?] & ?); eauto.
Qed.

(** The entry point: a function named main with external linkage. *)
Definition is_main (F : FuncId) : Prop :=
  hasLocalLinkage F = false /\ getName (function M F) = "main"%string.

(** The records of a function that has been added. *)
Definition recorded (g : PTACallGraph) (F : FuncId) : Prop :=
  (FnNode None ∉ out g (Some F)) /\
  forall G, FnNode (Some G) ∈ out g (Some F) <-> exists I, I ∈ instructions M F /\ call_target I G.

(** The graph once the functions [added] have been added. *)
Record graph_inv (added : list FuncId) (g : PTACallGraph) : Prop := {
  gi_none : is_Some (FunctionMap g !! None);
  gi_added : forall F, F ∈ added -> recorded g F;
  gi_other : forall F, F ∉ added -> out g (Some F) = [];
  gi_root : ProgEntry g = Root g;
  gi_main : forall r, Root g = Some r <-> exists F, r = Some F /\ F ∈ added /\ is_main F;
  gi_ext : forall n, n ∈ out g None -> is_Some (getFunction n)
}.

(** Until the calls of [F] are looked at, only the external node and the root
    change. *)
Record prepared (F : FuncId) (g g' : PTACallGraph) : Prop := {
  pr_some : is_Some (FunctionMap g' !! Some F);
  pr_none : is_Some (FunctionMap g' !! None);
  pr_out : forall F', out g' (Some F') = out g (Some F');
  pr_ext : forall n, n ∈ out g' None -> n ∈ out g None \/ is_Some (getFunction n)
}.

Lemma prepared_external F g g' :
  prepared F g g' -> prepared F g (addCalledFunction None (None, FnNode (Some F)) g').
Proof.
  intros [H1 H2 H3 H4]. destruct (grows_add None (None, FnNode (Some F)) g' H2) as (? & Ho & Hs & Hk & _).
  split; [by apply Hk|done| |].
  - intros F'. rewrite Hs by done. apply H3.
  - intros n. rewrite Ho. intros [Hn|Hn]%elem_of_app; [by apply H4|]. apply list_elem_of_singleton in Hn as ->. right. eauto.
Qed.

Definition is_entry (F : FuncId) : bool := negb (hasLocalLinkage F) && bool_decide (getName (function M F) = "main"%string).

Lemma is_entry_main F : is_entry F = true <-> is_main F.
Proof. unfold is_entry, is_main. rewrite andb_true_iff, negb_true_iff, bool_decide_eq_true. done. Qed.

(** The entry point once [F] has been added. *)
Lemma main_added (added : list FuncId) g F r :
  calls_ok -> F ∈ functions M -> (forall G, G ∈ added -> G ∈ functions M) ->
  (forall r, Root g = Some r <-> exists F, r = Some F /\ F ∈ added /\ is_main F) ->
  (if is_entry F then Some (Some F) else Root g) = Some r <-> exists G, r = Some G /\ G ∈ added ++ [F] /\ is_main G.
Proof.
  intros OK HF Hadd G5. setoid_rewrite elem_of_app. destruct (is_entry F) eqn:E.
  - apply is_entry_main in E. split.
    + intros [= <-]. exists F. split; [done|]. split; [set_solver|done].
    + intros (G & -> & HG & Hm). do 2 f_equal. apply (co_main OK); [done| |apply E|apply Hm].
      destruct HG as [?|HG%list_elem_of_singleton]; [auto|by subst].
  - rewrite G5. split.
    + intros (G & -> & ? & ?). exists G. auto.
    + intros (G & -> & [?|HG%list_elem_of_singleton] & Hm); [eauto|]. subst G. apply is_entry_main in Hm. congruence.
Qed.

Lemma add_external_linkage_spec (added : list FuncId) g F :
  calls_ok -> F ∈ functions M -> F ∉ added -> (forall G, G ∈ added -> G ∈ functions M) ->
  (forall r, Root g = Some r <-> exists F, r = Some F /\ F ∈ added /\ is_main F) ->
  is_Some (FunctionMap g !! None) ->
  exists g2, add_external_linkage F (getOrInsertFunction (Some F) g) = Ok g2 /\ prepared F g g2 /\
    Root g2 = (if is_entry F then Some (Some F) else Root g) /\
    ProgEntry g2 = (if is_entry F then Some (Some F) else ProgEntry g).
Proof.
  intros OK HF Hn Hadd G5 G1.
  assert (prepared F g (getOrInsertFunction (Some F) g)) as P1.
  { split; [apply getOrInsert_some; by right|apply getOrInsert_some; by left|..].
    - intros F'. apply out_getOrInsert.
    - intros n. rewrite out_getOrInsert. by left. }
  assert (forall h, Root (getOrInsertFunction h g) = Root g /\ ProgEntry (getOrInsertFunction h g) = ProgEntry g)
    as Hgi by (intros h; unfold getOrInsertFunction; by destruct (FunctionMap g !! h)).
  unfold add_external_linkage, is_entry. destruct (hasLocalLinkage F) eqn:El; simpl negb; cbv iota; simpl andb.
  - eexists. split; [reflexivity|]. split; [done|]. apply Hgi.
  - case_bool_decide as Em.
    + assert (Root g = None) as Er.
      { destruct (Root g) as [r|] eqn:E; [|done].
        destruct (proj1 (G5 r) eq_refl) as (G & _ & HG & Hm).
        exfalso. apply Hn. rewrite (co_main OK F G HF (Hadd G HG) Em (proj2 Hm)). done. }
      cbn [Root addCalledFunction set_map]. rewrite (proj1 (Hgi (Some F))), Er.
      eexists. split; [reflexivity|].
      destruct (prepared_external F g _ P1) as [A B C D]. split; [by split|done].
    + eexists. split; [reflexivity|]. split; [by apply prepared_external|]. apply Hgi.
Qed.

Lemma addToCallGraph_spec added g F :
  calls_ok -> F ∈ functions M -> F ∉ added -> (forall G, G ∈ added -> G ∈ functions M) ->
  graph_inv added g ->
  exists g', addToCallGraph g F = Ok g' /\ graph_inv (added ++ [F]) g'.
Proof.
  intros OK HF Hn Hadd [G1 G2 G3 G4 G5 G6]. unfold addToCallGraph.
  destruct (add_external_linkage_spec added g F OK HF Hn Hadd G5 G1) as (g2 & -> & P2 & R2 & E2).
  cbn [rbind].
  assert (prepared F g (if hasAddressTaken F then addCalledFunction None (None, FnNode (Some F)) g2 else g2)) as P3
    by (destruct (hasAddressTaken F); [by apply prepared_external|done]).
  set (g3 := if hasAddressTaken F then _ else g2) in *.
  assert (Root g3 = Root g2 /\ ProgEntry g3 = ProgEntry g2) as [R3 E3]
    by (unfold g3; by destruct (hasAddressTaken F)).
  set (g4 := if isDeclaration M F && negb (isIntrinsic F) then _ else g3).
  assert (exists l0, grows (Some F) l0 g3 g4 /\ (forall n, FnNode n ∉ l0)) as (l0 & H4 & Hl0).
  { unfold g4. destruct (isDeclaration M F && negb (isIntrinsic F)).
    - eexists. split; [apply grows_add; exact (pr_some _ _ _ P3)|]. intros n. cbn [snd]. set_solver.
    - exists []. split; [|set_solver]. split; [exact (pr_some _ _ _ P3)|]. rewrite app_nil_r. done. }
  destruct (add_calls_spec F (instructions M F) g4 OK HF) as (g5 & l & E5 & H5 & Hln & Hl);
    [done|exact (proj1 H4)|].
  exists g5. split; [exact E5|].
  destruct (grows_trans _ _ _ _ _ _ H4 H5) as (K1 & K2 & K3 & K4 & KR & KE & _).
  split.
  - apply K4. exact (pr_none _ _ _ P3).
  - intros F' [HF'|HF']%elem_of_app.
    + unfold recorded. rewrite K3 by congruence. rewrite (pr_out _ _ _ P3). by apply G2.
    + apply list_elem_of_singleton in HF' as ->. unfold recorded.
      rewrite K2, (pr_out _ _ _ P3), (G3 F Hn). cbn [app]. split.
      * intros [Hx|Hx]%elem_of_app; [by apply (Hl0 None)|done].
      * intros G. rewrite elem_of_app, Hl. split; [intros [Hx|?]; [by apply Hl0 in Hx|done]|auto].
  - intros F' HF'. rewrite K3 by set_solver. rewrite (pr_out _ _ _ P3). apply G3. set_solver.
  - rewrite KR, KE, R3, E3, R2, E2. destruct (is_entry F); congruence.
  - intros r. rewrite KR, R3, R2. by apply main_added.
  - intros n. rewrite K3 by done. intros [Hx|?]%(pr_ext _ _ _ P3); [by apply G6|done].
Qed.

Lemma add_all Fs : forall added g,
  calls_ok -> NoDup (added ++ Fs) -> (forall G, G ∈ added ++ Fs -> G ∈ functions M) -> graph_inv added g ->
  exists g', rfold addToCallGraph Fs g = Ok g' /\ graph_inv (added ++ Fs) g'.
Proof.
  induction Fs as [|F Fs IH]; intros added g OK Hn Hin HI.
  - exists g. by rewrite app_nil_r.
  - destruct (addToCallGraph_spec added g F OK) as (g1 & E1 & HI1); [set_solver| |set_solver|done|].
    { apply NoDup_app in Hn as (_ & Hn & _). intros HF. apply (Hn F HF), list_elem_of_here. }
    destruct (IH (added ++ [F]) g1 OK) as (g' & E' & HI'); rewrite <- ?app_assoc; auto.
    exists g'. cbn [rfold]. rewrite E1. split; [exact E'|]. by rewrite <- app_assoc in HI'.
Qed.

(** * Reachability *)

Lemma callees_edge g F n :
  graph_inv (functions M) g -> F ∈ functions M ->
  edge (callees g) (FnNode (Some F)) n ->
  n = CallsExternalNode \/ exists G, n = FnNode (Some G) /\ calls F G.
Proof.
  intros HI HF Hn. unfold edge in Hn. simpl in Hn. destruct (gi_added _ _ HI F HF) as [Hno Hin].
  destruct n as [[G|]|]; [|done|by left]. right. exists G. split; [done|]. split; [done|]. by apply Hin.
Qed.

Lemma calls_in_module F G : calls_ok -> calls F G -> G ∈ functions M.
Proof.
  intros OK [HF (I & HI & HT)]. destruct I as [CI [Callee|] args loc| | | | | |]; try done.
  - destruct HT as (-> & _). by eapply (co_direct OK).
  - destruct HT as (l & El & HG & _). destruct (co_indirect OK F CI args loc HF HI) as (l' & El' & Hl & _).
    apply Hl. congruence.
Qed.

Lemma rtc_callees g F : calls_ok -> graph_inv (functions M) g -> F ∈ functions M -> forall G,
  rtc (edge (callees g)) (FnNode (Some F)) (FnNode (Some G)) <-> rtc calls F G.
Proof.
  intros OK HI HF G. split.
  - intros Hr. remember (FnNode (Some F)) as a eqn:Ea. remember (FnNode (Some G)) as b eqn:Eb.
    revert F HF Ea. induction Hr as [a|a m b Ham Hmb IH]; intros F HF ->.
    + injection Eb as ->. constructor.
    + apply (callees_edge g F m HI HF) in Ham as [->|(G' & -> & Hc)].
      * exfalso. subst b. inversion Hmb as [|? ? ? He]; subst. unfold edge in He. simpl in He. set_solver.
      * eapply rtc_l; [exact Hc|]. apply IH; [done|by eapply calls_in_module|done].
  - intros Hr. induction Hr as [|F m G Hc Hr IH]; [constructor|].
    eapply rtc_l; [|apply IH; by eapply calls_in_module].
    destruct Hc as [_ HI']. unfold edge. simpl. by apply (gi_added _ _ HI F HF).
Qed.

(** The nodes the search may meet. *)
Definition graph_nodes : list CGNode := CallsExternalNode :: ((fun F => FnNode (Some F)) <$> functions M).

Lemma graph_nodes_closed g x y :
  calls_ok -> graph_inv (functions M) g -> x ∈ graph_nodes -> edge (callees g) x y -> y ∈ graph_nodes.
Proof.
  intros OK HI Hx Hxy. apply elem_of_cons in Hx as [->|Hx].
  { unfold edge in Hxy. simpl in Hxy. set_solver. }
  apply list_elem_of_fmap in Hx as (F & -> & HF). apply elem_of_cons.
  destruct (callees_edge g F y HI HF Hxy) as [->|(G & -> & Hc)]; [by left|right].
  apply list_elem_of_fmap. exists G. split; [done|]. by eapply calls_in_module.
Qed.

Lemma graph_nodes_size : calls_ok ->
  size (list_to_set graph_nodes : gset CGNode) = S (length (functions M)).
Proof.
  intros OK. assert (NoDup graph_nodes) as Hnd.
  { constructor; [by intros (? & [=] & ?)%list_elem_of_fmap|].
    apply NoDup_fmap_2; [by intros ? ? [=]|apply (co_nodup OK)]. }
  rewrite (size_list_to_set (C := gset CGNode) _ Hnd). unfold graph_nodes. cbn [length]. by rewrite length_fmap.
Qed.

(** The search from [main] finds what it calls, directly or not. *)
Lemma reachable_from_spec fuel g m :
  calls_ok -> graph_inv (functions M) g -> m ∈ functions M -> (length (functions M) + 2 <= fuel)%nat ->
  exists V, reachable_from fuel g (Some m) = Ok V /\ forall F, F ∈ V <-> rtc calls m F.
Proof.
  intros OK HI Hm Hf. pose proof (fun l x => Permutation_sym (Permutation_cons_append (A := CGNode) l x)) as Hpush.
  unfold reachable_from.
  destruct (search_spec (callees g) (fun _ => false) (fun q n => q ++ [n]) Hpush (list_to_set graph_nodes)
    [FnNode (Some m)] {[ FnNode (Some m) ]} fuel) as [[_ (? & ? & _ & _ & ?)]|(V & EV & _ & HV1 & HV2)].
  - intros x y Hx Hxy. rewrite elem_of_list_to_set in Hx |- *. by eapply graph_nodes_closed.
  - intros x Hx. apply list_elem_of_singleton in Hx as ->. apply elem_of_list_to_set, elem_of_cons. right.
    apply list_elem_of_fmap. eauto.
  - set_solver.
  - rewrite graph_nodes_size by done. simpl length. lia.
  - discriminate.
  - rewrite EV. cbn [rbind of_option]. eexists. split; [reflexivity|]. intros F.
    rewrite elem_of_list_to_set, list_elem_of_omap. rewrite <- (rtc_callees g m OK HI Hm). setoid_rewrite elem_of_elements.
    split.
    + intros ([[F'|]|] & Hn & [= ->]). destruct (HV1 _ Hn) as [Hx|(s & Hs & Ht)].
      * apply list_elem_of_singleton in Hx as [= ->]. constructor.
      * apply list_elem_of_singleton in Hs as ->. by apply tc_rtc.
    + intros Hr. exists (FnNode (Some F)). split; [|done]. apply rtc_tc in Hr as [Heq|Ht].
      * assert (FnNode (Some m) ∈ V) as HmV by (apply (search_seen _ _ _ Hpush _ _ _ _ EV); set_solver).
        by rewrite <- Heq.
      * eapply HV2; [apply list_elem_of_here|done].
Qed.

(** What the constructor returns. *)
Lemma PTACallGraph_built fuel : calls_ok -> (length (functions M) + 2 <= fuel)%nat ->
  exists g g1, PTACallGraph_build fuel = Ok g /\ graph_inv (functions M) g1 /\ FunctionMap g = FunctionMap g1 /\
    Root g = (match ProgEntry g with Some e => Some e | None => Some None end) /\
    match ProgEntry g with
    | Some e => exists m, e = Some m /\ m ∈ functions M /\ is_main m /\
        forall F, isReachableFromEntry g F = true <-> rtc calls m F
    | None => forall m, m ∈ functions M -> ~ is_main m
    end.
Proof.
  intros OK Hf. unfold PTACallGraph_build.
  destruct (add_all (functions M) [] (getOrInsertFunction None
    {| FunctionMap := ∅; Root := None; ProgEntry := None; reachableFunctions := ∅; indirectCallMap := ∅ |}) OK)
    as (g & E & HI).
  - apply (co_nodup OK).
  - done.
  - split.
    + apply getOrInsert_some. by right.
    + set_solver.
    + intros F _. by rewrite out_getOrInsert.
    + done.
    + intros r. split; [done|]. intros (? & _ & ? & _). set_solver.
    + intros n. rewrite out_getOrInsert. by intros ?%not_elem_of_nil.
  - rewrite E. cbn [rbind app] in *. pose proof (gi_root _ _ HI) as Hroot. destruct (ProgEntry g) as [e|] eqn:Ee.
    + assert (Root g = Some e) as Er by (rewrite <- Hroot; done). rewrite Er.
      apply (gi_main _ _ HI) in Er as (m & -> & Hm & Hmain).
      destruct (reachable_from_spec fuel g m OK HI Hm Hf) as (V & EV & HV).
      rewrite EV. eexists _, g. split; [reflexivity|]. cbn [FunctionMap ProgEntry Root]. do 3 (split; [done|]).
      exists m. split; [done|]. split; [done|]. split; [done|]. intros F.
      unfold isReachableFromEntry. cbn [ProgEntry reachableFunctions]. by rewrite bool_decide_eq_true, HV.
    + rewrite <- Hroot. eexists _, g. split; [reflexivity|]. cbn [FunctionMap ProgEntry Root]. do 3 (split; [done|]).
      intros m Hm Hmain. assert (Root g = Some (Some m)) as Er by (apply (gi_main _ _ HI); eauto). congruence.
Qed.

(** The node of a function that the entry reaches. *)
Definition reachable_node (g : PTACallGraph) (N : CGNode) : Prop :=
  exists F, getFunction N = Some F /\ isReachableFromEntry g F = true.

(** Where a traversal of the graph may start, and that it stays on such nodes. *)
Lemma PTACallGraph_closed fuel : calls_ok -> (length (functions M) + 2 <= fuel)%nat ->
  exists g, PTACallGraph_build fuel = Ok g /\
    (forall N c, reachable_node g N -> c ∈ callees g N -> is_Some (getFunction c) -> reachable_node g c) /\
    exists r, Root g = Some r /\
      match r with Some m => reachable_node g (FnNode r) | None => forall c, c ∈ callees g (FnNode r) -> reachable_node g c end.
Proof.
  intros OK Hf. destruct (PTACallGraph_built fuel OK Hf) as (g & g1 & E & HI & EM & ER & Hg). exists g. split; [done|].
  assert (forall n, callees g n = callees g1 n) as Ec by (intros [F|]; simpl; [by rewrite EM|done]).
  destruct (ProgEntry g) as [e|] eqn:Ee.
  - destruct Hg as (m & -> & Hm & _ & Hr). split.
    + intros N c (F & EF & HF) Hc Hs. destruct N as [[F'|]|]; try done. injection EF as ->. rewrite Ec in Hc.
      assert (F ∈ functions M) as HFM.
      { apply Hr in HF. revert Hm HF. clear -OK. intros Hm HF.
        induction HF as [|F G H HFG _ IH]; [done|]. apply IH. by eapply calls_in_module. }
      destruct (callees_edge g1 F c HI HFM Hc) as [->|(G & -> & HG)]; [by destruct Hs|].
      exists G. split; [done|]. apply Hr. apply Hr in HF. by eapply rtc_r.
    + exists (Some m). split; [done|]. exists m. split; [done|]. apply Hr. constructor.
  - assert (forall c, is_Some (getFunction c) -> reachable_node g c) as Hall.
    { intros c [F HF]. exists F. split; [done|]. unfold isReachableFromEntry. by rewrite Ee. }
    split; [eauto|]. exists None. split; [done|]. intros c Hc. apply Hall. rewrite Ec in Hc. by apply (gi_ext _ _ HI).
Qed.

(** C11 (callgraph). Building the call graph succeeds, and a function is
    reachable from the entry exactly when [main] reaches it through direct
    calls and candidates of indirect calls; without a main function every
    function is. *)
Theorem PTACallGraph_reachable fuel :
  calls_ok -> (length (functions M) + 2 <= fuel)%nat ->
  exists g, PTACallGraph_build fuel = Ok g /\
    forall F, isReachableFromEntry g F = true <->
      ((forall m, m ∈ functions M -> ~ is_main m) \/ exists m, m ∈ functions M /\ is_main m /\ rtc calls m F).
Proof.
  intros OK Hf. destruct (PTACallGraph_built fuel OK Hf) as (g & _ & E & _ & _ & _ & Hg). exists g. split; [done|].
  intros F. destruct (ProgEntry g) as [e|] eqn:Ee.
  - destruct Hg as (m & _ & Hm & Hmain & Hr). rewrite Hr. split; [intros; right; eauto|].
    intros [Hno|(m' & Hm' & Hmain' & HF)]; [by destruct (Hno m Hm)|].
    by rewrite (co_main OK m m' Hm Hm' (proj2 Hmain) (proj2 Hmain')).
  - split; [by left|]. intros _. unfold isReachableFromEntry. by rewrite Ee.
Qed.

End CallGraph.

(** * An example: [main] calls [f], [f] calls through a pointer to [g]; nobody
    calls [h]. *)
Definition chain : Module_ := mk_module
  [(0, mk_func "main" [0]); (1, mk_func "f" [1]); (2, mk_func "g" [2]); (3, mk_func "h" [3])]%N
  [(0, mk_block "%entry" [call 10 1; ReturnInst 11 None] [] []);
   (1, mk_block "%entry" [CallInst 12 None [7] None; ReturnInst 13 None] [] []);
   (2, mk_block "%entry" [ReturnInst 14 None] [] []);
   (3, mk_block "%entry" [call 15 0; ReturnInst 16 None] [] [])]%N.

Definition chain_info : FunctionInfo :=
  {| hasLocalLinkage := fun F => negb (N.eqb F 0); hasAddressTaken := fun F => N.eqb F 2;
     isIntrinsic := fun _ => false; isLeaf := fun _ => true; arg_size := fun _ => 1%nat;
     isVarArg := fun _ => false |}.

Definition chain_pts : PointsTo := {| getPointsToSet := fun CI => if N.eqb CI 12 then Some [2%N] else None |}.

Lemma chain_ok : @calls_ok chain chain_info chain_pts.
Proof.
  split.
  - apply (bool_decide_unpack _). vm_compute. exact I.
  - intros F CI G args loc HF HI. unfold instructions in HI. simpl in HF. enum HF; simpl in HI; unfold call, br in HI;
      rewrite ?elem_of_cons in HI; destruct_or?; simplify_eq; simpl; try set_solver.
  - intros F CI args loc HF HI. unfold instructions in HI. simpl in HF. enum HF; simpl in HI; unfold call, br in HI;
      rewrite ?elem_of_cons in HI; destruct_or?; simplify_eq; simpl; try set_solver.
    exists [2%N]. split; [done|]. split; [intros H; rewrite list_elem_of_singleton; intros ->; in_list|]. exists 2%N. split; [apply list_elem_of_here|done].
  - intros F G HF HG. simpl in HF, HG. enum HF; enum HG; done.
Qed.

Lemma PTACallGraph_witness :
  exists g, @PTACallGraph_build chain chain_info chain_pts 6 = Ok g /\
    isReachableFromEntry g 2 = true /\ isReachableFromEntry g 3 = false.
Proof.
  destruct (@PTACallGraph_reachable chain chain_info chain_pts 6 chain_ok) as (g & E & Hr).
  - simpl. lia.
  - exists g. split; [exact E|]. split.
    + apply Hr. right. exists 0%N. split; [in_list|]. split; [done|].
      apply (rtc_l _ _ 1%N); [|apply rtc_once].
      * split; [in_list|]. exists (call 10 1). split; [in_list|done].
      * split; [in_list|]. exists (CallInst 12 None [7%N] None). split; [in_list|].
        exists [2%N]. split; [done|]. split; [in_list|done].
    + vm_compute in E. injection E as <-. vm_compute. reflexivity.
Defined.
