(* ===== verification/LocalConcurrency.v ===== *)
(** Local concurrency errors (LocalConcurrencyAnalysis.cpp): a local buffer read
    or written while a one-sided transfer on it is pending. A breadth-first
    search of each loop from the innermost one, then of the function, hands the
    pending transfers of a block to its successors. *)
From S2P Require Import Prelude IR CfgVisitors Samples.

(** [enum Color] of the two searches. *)
Inductive Color := WHITE | GREY | BLACK.

Inductive ACCESS := READ | WRITE.

#[export] Instance Color_eq_dec : EqDecision Color.
Proof. solve_decision. Defined.
#[export] Instance ACCESS_eq_dec : EqDecision ACCESS.
Proof. solve_decision. Defined.
#[export] Instance DebugLoc_eq_dec : EqDecision DebugLoc.
Proof. solve_decision. Defined.
#[export] Instance Instruction_eq_dec : EqDecision Instruction.
Proof. solve_decision. Defined.

(** [BBColorMap]: a [DenseMap] read with [operator[]], white by default. *)
Abbreviation BBColorMap := (gmap BlockId Color).
Definition color (m : BBColorMap) (b : BlockId) : Color := default WHITE (m !! b).

(** [BBMap]: false by default. *)
Abbreviation BBMap := (gmap BlockId bool).
Definition flag (m : BBMap) (b : BlockId) : bool := default false (m !! b).

(** The transfers a block has pending: the buffer and the instruction. *)
Abbreviation MemMap := (gmap ValueId Instruction).

(** The results are a set in the order of insertion. The pairs one instruction
    adds come in the order of a pointer-keyed map, which is not specified: here
    it is that of [map_to_list]. *)
Abbreviation LocalConcurrencyVector := (list (Instruction * Instruction)).

Definition insert_result (p : Instruction * Instruction) (R : LocalConcurrencyVector) :
    LocalConcurrencyVector :=
  if bool_decide (p ∈ R) then R else R ++ [p].

(** [LCDAnalysis]. *)
Record LCDAnalysis := {
  ColorMap : BBColorMap;
  LheaderMap : BBMap;
  LlatchMap : BBMap;
  BBToMemAccess : gmap BlockId MemMap;
  Results : LocalConcurrencyVector
}.

Definition with_color (f : BBColorMap -> BBColorMap) (st : LCDAnalysis) : LCDAnalysis :=
  {| ColorMap := f (ColorMap st); LheaderMap := LheaderMap st; LlatchMap := LlatchMap st;
     BBToMemAccess := BBToMemAccess st; Results := Results st |}.

Definition with_memory (BB : gmap BlockId MemMap) (R : LocalConcurrencyVector) (st : LCDAnalysis) :
    LCDAnalysis :=
  {| ColorMap := ColorMap st; LheaderMap := LheaderMap st; LlatchMap := LlatchMap st;
     BBToMemAccess := BB; Results := R |}.

Definition memory (BB : gmap BlockId MemMap) (b : BlockId) : MemMap := default ∅ (BB !! b).

(** The names compared with in [getInstructionType] and [analyzeBB]. *)
Definition is_get (CalledName : string) : bool :=
  bool_decide (CalledName ∈ ["MPI_Get"; "mpi_get_"]%string).
Definition is_transfer (CalledName : string) : bool :=
  bool_decide (CalledName ∈ ["MPI_Get"; "MPI_Put"; "mpi_put_"; "mpi_get_"]%string).
Definition is_synchro (CalledName : string) : bool :=
  bool_decide (CalledName ∈ ["MPI_Win_flush"; "MPI_Win_flush_all"; "MPI_Win_fence";
    "MPI_Win_flush_local"; "MPI_Win_unlock_all"; "mpi_win_unlock_all_"; "mpi_win_flush_";
    "mpi_win_flush_all_"; "mpi_win_fence_"]%string).

Section LCD.
Context (M : Module_) (LI : LoopInfo).
(** [Loop::getLoopLatch], and [AA.alias(a, b) != NoAlias]. *)
Context (getLoopLatch : Loop -> option BlockId) (may_alias : ValueId -> ValueId -> bool).

(** [getInstructionType]. *)
Definition getInstructionType (I : Instruction) : ACCESS :=
  match I with
  | CallInst _ (Some CalledFunction) _ _ =>
      if is_get (getName (function M CalledFunction)) then WRITE else READ
  | StoreInst _ _ _ _ => WRITE
  | _ => READ
  end.

Definition conflicting (I PrevAccess : Instruction) : bool :=
  bool_decide (getInstructionType PrevAccess = WRITE) || bool_decide (getInstructionType I = WRITE).

(** The loop over the pending transfers that may alias. *)
Definition report_aliases (I : Instruction) (Mem : ValueId) (MM : MemMap) (R : LocalConcurrencyVector) :
    LocalConcurrencyVector :=
  fold_left (fun R '(K, PrevAccess) =>
    if may_alias K Mem && conflicting I PrevAccess then insert_result (I, PrevAccess) R else R)
    (map_to_list MM) R.

(** [if (Mem)] of [analyzeBB]. *)
Definition analyze_access (I : Instruction) (Mem : ValueId) (IsLoadOrStore : bool)
    (st : MemMap * LocalConcurrencyVector) : MemMap * LocalConcurrencyVector :=
  match st.1 !! Mem with
  | Some PrevAccess =>
      if conflicting I PrevAccess then (st.1, insert_result (I, PrevAccess) st.2)
      else if negb IsLoadOrStore then (<[Mem := I]> st.1, st.2)
      else st
  | None =>
      let R := report_aliases I Mem st.1 st.2 in
      if negb IsLoadOrStore then (<[Mem := I]> st.1, R) else (st.1, R)
  end.

(** One instruction of [analyzeBB]. *)
Definition analyze_inst (st : MemMap * LocalConcurrencyVector) (Inst : Instruction) :
    res (MemMap * LocalConcurrencyVector) :=
  match Inst with
  | CallInst _ (Some CalledFunction) args _ =>
      let CalledName := getName (function M CalledFunction) in
      if is_transfer CalledName then
        let* Mem := of_option (head args) in Ok (analyze_access Inst Mem false st)
      else if is_synchro CalledName then Ok (∅, st.2)
      else Ok st
  | StoreInst _ Mem _ _ | LoadInst _ Mem _ _ => Ok (analyze_access Inst Mem true st)
  | _ => Ok st
  end.

Definition analyzeBB (BB : BlockId) (st : LCDAnalysis) : res LCDAnalysis :=
  let* p := rfold analyze_inst (insts (block M BB)) (memory (BBToMemAccess st) BB, Results st) in
  Ok (with_memory (<[BB := p.1]> (BBToMemAccess st)) p.2 st).

Definition mustWait (st : LCDAnalysis) (BB : BlockId) : bool :=
  if flag (LheaderMap st) BB then false
  else existsb (fun Pred => negb (bool_decide (color (ColorMap st) Pred = BLACK))) (predecessors M BB).

Definition mustWaitLoop (st : LCDAnalysis) (BB : BlockId) (L : Loop) : bool :=
  existsb (fun Pred => negb (bool_decide (Pred = BB) || flag (LlatchMap st) Pred) &&
    (negb (bool_decide (color (ColorMap st) Pred = BLACK)) && contains L Pred)) (predecessors M BB).

(** [BBToMemAccess[Succ].insert(...)]: entries of [Succ] stay. *)
Definition merge_into (Header : BlockId) (BB : gmap BlockId MemMap) (Succ : BlockId) : gmap BlockId MemMap :=
  <[Succ := memory BB Succ ∪ memory BB Header]> BB.

(** A successor that is not ignored. *)
Definition visit_succ (Header : BlockId) (p : LCDAnalysis * list BlockId) (Succ : BlockId) :
    LCDAnalysis * list BlockId :=
  let st := with_memory (merge_into Header (BBToMemAccess p.1) Succ) (Results p.1) p.1 in
  if bool_decide (color (ColorMap p.1) Succ = WHITE) then
    (with_color <[Succ := GREY]> st, p.2 ++ [Succ])
  else (st, p.2).

Definition ignored (st : LCDAnalysis) (Header Succ : BlockId) : bool :=
  flag (LlatchMap st) Header && flag (LheaderMap st) Succ.

(** The body of the two searches once [Header] need not wait; [inside] is the
    test that ignores the successors not in the loop. *)
Definition visit_block (inside : BlockId -> bool) (Header : BlockId) (rest : list BlockId) (st : LCDAnalysis) :
    res (LCDAnalysis * list BlockId) :=
  let* st1 := analyzeBB Header st in
  let p := fold_left (fun p Succ =>
      if negb (inside Succ) || ignored p.1 Header Succ then p else visit_succ Header p Succ)
    (successors M Header) (with_color <[Header := GREY]> st1, rest) in
  Ok (with_color <[Header := BLACK]> p.1, p.2).

(** A [while] loop over the deque; [wait] is the test that puts the block back. *)
Fixpoint bfs (wait : LCDAnalysis -> BlockId -> bool) (inside : BlockId -> bool) (fuel : nat)
    (st : LCDAnalysis) (Unvisited : list BlockId) : res LCDAnalysis :=
  match Unvisited with
  | [] => Ok st
  | Header :: rest =>
      match fuel with
      | O => OutOfFuel
      | S fuel' =>
          if bool_decide (color (ColorMap st) Header = BLACK) then bfs wait inside fuel' st rest
          else if wait st Header then bfs wait inside fuel' st (rest ++ [Header])
          else let* p := visit_block inside Header rest st in bfs wait inside fuel' p.1 p.2
      end
  end.

(** [bfsLoop]. *)
Fixpoint bfsLoop (fuel : nat) (L : Loop) (st : LCDAnalysis) : res LCDAnalysis :=
  match L with
  | MkLoop Lheader bbs children _ =>
      let* st1 := rfold (fun st ChildLoop => bfsLoop fuel ChildLoop st) children st in
      let st2 := {| ColorMap := ColorMap st1; LheaderMap := <[Lheader := true]> (LheaderMap st1);
                    LlatchMap := LlatchMap st1; BBToMemAccess := BBToMemAccess st1; Results := Results st1 |} in
      let* st3 := bfs (fun st Header => mustWaitLoop st Header L && negb (bool_decide (Header = Lheader)))
                      (contains L) fuel st2 [Lheader] in
      let st4 := with_color (fun c => fold_left (fun c BB => <[BB := WHITE]> c) bbs c) st3 in
      Ok match getLoopLatch L with
         | Some Llatch => {| ColorMap := ColorMap st4; LheaderMap := LheaderMap st4;
                             LlatchMap := <[Llatch := true]> (LlatchMap st4);
                             BBToMemAccess := BBToMemAccess st4; Results := Results st4 |}
         | None => st4
         end
  end.

(** [analyze]; the analysis starts with empty maps. *)
Definition analyze (fuel : nat) (F : FuncId) : res LCDAnalysis :=
  let all {A} (x : A) : gmap BlockId A := fold_left (fun c BB => <[BB := x]> c) (blocks (function M F)) ∅ in
  let st0 := {| ColorMap := all WHITE; LheaderMap := all false; LlatchMap := all false;
                BBToMemAccess := ∅; Results := [] |} in
  let* Entry := of_option (getEntryBlock M F) in
  let* st1 := rfold (fun st L => bfsLoop fuel L st) (topLevel LI) st0 in
  bfs mustWait (fun _ => true) fuel st1 [Entry].

(** [LocalConcurrencyAnalysis::run]. *)
Definition LocalConcurrencyAnalysis_run (fuel : nat) (F : FuncId) : res LocalConcurrencyVector :=
  let* st := analyze fuel F in Ok (Results st).

(** * What is to be reported *)

(** The buffer an instruction accesses, and whether it starts a transfer on it. *)
Definition transfer_of (I : Instruction) : option ValueId :=
  match I with
  | CallInst _ (Some G) args _ => if is_transfer (getName (function M G)) then head args else None
  | _ => None
  end.

Definition access_of (I : Instruction) : option ValueId :=
  match I with
  | StoreInst _ Mem _ _ | LoadInst _ Mem _ _ => Some Mem
  | _ => transfer_of I
  end.

Definition synchronizes (I : Instruction) : bool :=
  match I with
  | CallInst _ (Some G) _ _ => is_synchro (getName (function M G))
  | _ => false
  end.

Section Pending.
Context (F : FuncId).

(** [pending b k m I]: on some way to the [k]-th instruction of [b], [I] has
    started a transfer on [m] and nothing has synchronized since. *)
Inductive pending : BlockId -> nat -> ValueId -> Instruction -> Prop :=
| pending_start b k m I :
    insts (block M b) !! k = Some I -> transfer_of I = Some m -> pending b (S k) m I
| pending_next b k m I J :
    pending b k m I -> insts (block M b) !! k = Some J -> synchronizes J = false -> pending b (S k) m I
| pending_edge b c m I :
    b ∈ blocks (function M F) -> c ∈ successors M b ->
    pending b (length (insts (block M b))) m I -> pending c 0 m I.

(** [I1] accesses a buffer that overlaps that of the pending transfer [I2], and
    one of the two writes. *)
Definition race_at (b : BlockId) (k : nat) (I1 I2 : Instruction) : Prop :=
  exists m m2, insts (block M b) !! k = Some I1 /\ access_of I1 = Some m /\ pending b k m2 I2 /\
    (m2 = m \/ may_alias m2 m = true) /\ conflicting I1 I2 = true.

Definition racing (I1 I2 : Instruction) : Prop :=
  exists b k, b ∈ blocks (function M F) /\ race_at b k I1 I2.

End Pending.
End LCD.
