(* ===== verification/LocalConcurrencySound.v ===== *)
(** On a function without loops the analysis of local concurrency errors
    returns, reports only pairs that overlap on some way through the function,
    and reports every write to a buffer with a pending transfer. *)
From S2P Require Import Prelude IR CfgVisitors LocalConcurrency Samples.

Section Sound.
Context (M : Module_) (F : FuncId) (may_alias : ValueId -> ValueId -> bool).

Local Abbreviation pend := (pending M F).
Local Abbreviation code b := (insts (block M b)).

(** A map of pending transfers that holds those at the [k]-th instruction. *)
Record flow (b : BlockId) (k : nat) (MM : MemMap) : Prop := {
  flow_sound : forall m I, MM !! m = Some I -> pend b k m I;
  flow_complete : forall m I, pend b k m I -> is_Some (MM !! m)
}.

(** What has been reported, of the positions [P]. *)
Record reported (P : BlockId -> nat -> Prop) (R : LocalConcurrencyVector) : Prop := {
  rep_sound : forall I1 I2, (I1, I2) ∈ R -> exists b k, P b k /\ race_at M may_alias F b k I1 I2;
  rep_complete : forall b k I1 I2, P b k -> race_at M may_alias F b k I1 I2 ->
    getInstructionType M I1 = WRITE -> exists I2', (I1, I2') ∈ R
}.

Lemma elem_of_insert_result p q R : p ∈ insert_result q R <-> p = q \/ p ∈ R.
Proof.
  unfold insert_result. case_bool_decide as E.
  - split; [auto|]. by intros [->|?].
  - rewrite elem_of_app, list_elem_of_singleton. tauto.
Qed.

Lemma elem_of_report_aliases I Mem MM R I1 I2 :
  (I1, I2) ∈ report_aliases M may_alias I Mem MM R <->
  (I1, I2) ∈ R \/ (I1 = I /\ exists K, MM !! K = Some I2 /\ may_alias K Mem = true /\ conflicting M I I2 = true).
Proof.
  unfold report_aliases. setoid_rewrite <- elem_of_map_to_list.
  generalize (map_to_list MM) as l. intros l. revert R. induction l as [|[K J] l IH]; intros R; cbn [fold_left].
  - set_solver.
  - rewrite IH. destruct (may_alias K Mem) eqn:Ea, (conflicting M I J) eqn:Ec; cbn [andb];
      rewrite ?elem_of_insert_result; split; setoid_rewrite elem_of_cons; intros H;
      repeat match goal with
        | H : _ \/ _ |- _ => destruct H
        | H : _ /\ _ |- _ => destruct H
        | H : exists _, _ |- _ => destruct H
        | H : (_, _) = (_, _) |- _ => injection H as ?; subst
      end; auto; try congruence; right; split; eauto 6.
Qed.

Lemma pending_S b k m I :
  pend b (S k) m I <-> (code b !! k = Some I /\ transfer_of M I = Some m) \/
    (pend b k m I /\ exists J, code b !! k = Some J /\ synchronizes M J = false).
Proof.
  split.
  - intros H. inversion H; subst; eauto 6.
  - intros [[? ?]|(? & J & ? & ?)]; [by apply pending_start|by eapply pending_next].
Qed.

Lemma conflicting_write I1 I2 : getInstructionType M I1 = WRITE -> conflicting M I1 I2 = true.
Proof. intros H. unfold conflicting. rewrite H, (bool_decide_true (WRITE = WRITE)) by done. apply orb_true_r. Qed.

(** What a list of reports needs to cover the accesses of one more instruction. *)
Lemma reported_here b k I Mem (MM : MemMap) R R' P :
  code b !! k = Some I -> access_of M I = Some Mem -> flow b k MM -> reported P R ->
  (forall x, x ∈ R -> x ∈ R') -> (forall I1 I2, (I1, I2) ∈ R' -> (I1, I2) ∈ R \/ race_at M may_alias F b k I1 I2) ->
  (forall m2 I2, MM !! m2 = Some I2 -> m2 = Mem \/ (MM !! Mem = None /\ may_alias m2 Mem = true) ->
      getInstructionType M I = WRITE -> (I, I2) ∈ R') ->
  reported (fun b' k' => P b' k' \/ (b' = b /\ k' = k)) R'.
Proof.
  intros Hk Ha [F1 F2] [R1 R2] Hsub Hs1 Hc1. split.
  - intros I1 I2 [Hr|Hr]%Hs1.
    + destruct (R1 _ _ Hr) as (b' & k' & ? & ?). eauto.
    + exists b, k. auto.
  - intros b' k' I1 I2 [HP|[-> ->]] Hr Hw.
    + destruct (R2 _ _ _ _ HP Hr Hw) as [I2' ?]. eauto.
    + destruct Hr as (m & m2 & Hk1 & Ha1 & Hp & Hal & _). assert (I1 = I) as -> by congruence.
      assert (m = Mem) as -> by congruence. destruct (F2 _ _ Hp) as [J HJ].
      destruct (MM !! Mem) as [J'|] eqn:EM; [exists J'; apply (Hc1 Mem); auto|].
      exists J. apply (Hc1 m2); auto. destruct Hal; [|auto]. left; done.
Qed.

(** The accesses that are pending after one more instruction. *)
Lemma flow_here b k I Mem (ils : bool) (MM : MemMap) :
  code b !! k = Some I -> synchronizes M I = false -> transfer_of M I = (if ils then None else Some Mem) -> flow b k MM ->
  flow b (S k) (if ils then MM else <[Mem := I]> MM).
Proof.
  intros Hk Hs Ht [F1 F2]. split.
  - intros m J H. apply pending_S. destruct ils; [right; split; [by apply F1|eauto]|].
    destruct (decide (m = Mem)) as [->|Hm].
    + rewrite (lookup_insert_eq MM) in H. injection H as <-. left. done.
    + rewrite (lookup_insert_ne MM) in H by congruence. right. split; [by apply F1|eauto].
  - intros m J [[HI HT]|[Hp _]]%pending_S.
    + assert (J = I) as -> by congruence. rewrite Ht in HT. destruct ils; [done|]. injection HT as ->.
      rewrite (lookup_insert_eq MM). eauto.
    + destruct ils; [by eapply F2|]. destruct (decide (m = Mem)) as [->|Hm].
      * rewrite (lookup_insert_eq MM). eauto.
      * rewrite (lookup_insert_ne MM) by congruence. by eapply F2.
Qed.

(** The access of the [k]-th instruction. *)
Lemma analyze_access_spec b k I Mem (ils : bool) (MM : MemMap) R P :
  code b !! k = Some I -> access_of M I = Some Mem -> synchronizes M I = false ->
  transfer_of M I = (if ils then None else Some Mem) ->
  flow b k MM -> reported P R ->
  flow b (S k) (analyze_access M may_alias I Mem ils (MM, R)).1 /\
  reported (fun b' k' => P b' k' \/ (b' = b /\ k' = k)) (analyze_access M may_alias I Mem ils (MM, R)).2.
Proof.
  intros Hk Ha Hs Ht HF HR.
  pose proof (flow_here b k I Mem ils MM Hk Hs Ht HF) as Hflow.
  pose proof (fun R' => reported_here b k I Mem MM R R' P Hk Ha HF HR) as Hrep. destruct HF as [F1 F2], HR as [R1 R2].
  assert (forall J m, MM !! m = Some J -> m = Mem \/ may_alias m Mem = true -> conflicting M I J = true ->
    race_at M may_alias F b k I J) as Hrace.
  { intros J m HJ Hm Hc. exists Mem, m. auto. }
  unfold analyze_access. cbn [fst snd]. destruct (MM !! Mem) as [J|] eqn:EM.
  - destruct (conflicting M I J) eqn:Ec; cbn [fst snd].
    + split.
      * destruct ils; [done|]. split.
        -- intros m J' H. apply pending_S. right. split; [by apply F1|eauto].
        -- intros m J' [[HI HT]|[Hp _]]%pending_S; [|by eapply F2].
           assert (J' = I) as -> by congruence. assert (m = Mem) as -> by congruence. rewrite EM. eauto.
      * apply Hrep.
        -- intros x. rewrite elem_of_insert_result. auto.
        -- intros I1 I2 [[= -> ->]|?]%elem_of_insert_result; [right; by eapply Hrace; eauto|auto].
        -- intros m2 I2 Hm2 [->|[? _]] _; [|congruence]. apply elem_of_insert_result. left. congruence.
    + assert (reported (fun b' k' => P b' k' \/ (b' = b /\ k' = k)) R) as Hr.
      { apply Hrep; [auto..|]. intros m2 I2 Hm2 _ Hw.
        rewrite (conflicting_write I J Hw) in Ec. done. }
      destruct ils; cbn [negb fst snd]; done.
  - assert (reported (fun b' k' => P b' k' \/ (b' = b /\ k' = k)) (report_aliases M may_alias I Mem MM R)) as Hr.
    { apply Hrep.
      - intros [x y] Hx. apply elem_of_report_aliases. auto.
      - intros I1 I2 [?|(-> & K & HK & Hal & Hc)]%elem_of_report_aliases; [auto|]. right. eapply Hrace; eauto.
      - intros m2 I2 Hm2 Hm Hw. apply elem_of_report_aliases. right. split; [done|]. exists m2.
        split; [done|]. destruct Hm as [->|[_ Hal]]; [congruence|]. split; [done|]. by apply conflicting_write. }
    destruct ils; cbn [negb fst snd]; done.
Qed.

Lemma transfer_not_synchro n : is_transfer n = true -> is_synchro n = false.
Proof.
  unfold is_transfer, is_synchro. rewrite bool_decide_eq_true. intros H. enum H; apply bool_decide_eq_false; set_solver.
Qed.

Lemma no_access_race b k I I1 I2 :
  code b !! k = Some I -> access_of M I = None -> ~ race_at M may_alias F b k I1 I2.
Proof. intros Hk Ha (m & m2 & Hk' & Ha' & _). congruence. Qed.

(** The transfers of the function name their buffer. *)
Definition well_called (b : BlockId) : Prop := forall id G args loc,
  CallInst id (Some G) args loc ∈ code b -> is_transfer (getName (function M G)) = true -> args <> [].

Lemma reported_more (P Q : BlockId -> nat -> Prop) R :
  reported P R -> (forall b k, P b k <-> Q b k) -> reported Q R.
Proof.
  intros [H1 H2] HPQ. split.
  - intros I1 I2 (b & k & ? & ?)%H1. exists b, k. split; [by apply HPQ|done].
  - intros b k I1 I2 HQ. apply H2. by apply HPQ.
Qed.

Lemma analyze_inst_spec b k I MM R P :
  well_called b -> code b !! k = Some I -> flow b k MM -> reported P R ->
  exists MM' R', analyze_inst M may_alias (MM, R) I = Ok (MM', R') /\ flow b (S k) MM' /\
    reported (fun b' k' => P b' k' \/ (b' = b /\ k' = k)) R'.
Proof.
  intros Hw Hk HF HR.
  assert (access_of M I = None -> reported (fun b' k' => P b' k' \/ (b' = b /\ k' = k)) R) as Hnone.
  { intros Ha. split.
    - intros I1 I2 (b' & k' & ? & ?)%(rep_sound _ _ HR). eauto.
    - intros b' k' I1 I2 [HP|[-> ->]] Hr; [by eapply (rep_complete _ _ HR b' k')|].
      by apply (no_access_race _ _ I) in Hr. }
  assert (transfer_of M I = None -> synchronizes M I = false -> flow b (S k) MM) as Hkeep.
  { intros Ht Hs. split.
    - intros m J HJ. apply pending_S. right. split; [by apply (flow_sound _ _ _ HF)|eauto].
    - intros m J [[HI HT]|[Hp _]]%pending_S; [congruence|by eapply flow_complete]. }
  assert (transfer_of M I = None -> synchronizes M I = false -> access_of M I = None ->
    exists MM' R', Ok (MM, R) = Ok (MM', R') /\ flow b (S k) MM' /\
      reported (fun b' k' => P b' k' \/ (b' = b /\ k' = k)) R') as Hplain.
  { intros Ht Hs Ha. exists MM, R. auto. }
  assert (forall Mem (ils : bool), access_of M I = Some Mem -> synchronizes M I = false ->
    transfer_of M I = (if ils then None else Some Mem) ->
    exists MM' R', Ok (analyze_access M may_alias I Mem ils (MM, R)) = Ok (MM', R') /\ flow b (S k) MM' /\
      reported (fun b' k' => P b' k' \/ (b' = b /\ k' = k)) R') as Hacc.
  { intros Mem ils H1 H2 H3. destruct (analyze_access_spec b k I Mem ils MM R P Hk H1 H2 H3 HF HR).
    destruct (analyze_access _ _ _ _ _ _) as [MM' R']. exists MM', R'. done. }
  destruct I as [id [G|] args loc| | | | | |]; simpl; try (by apply Hplain); try (by apply (Hacc _ true)).
  destruct (is_transfer (getName (function M G))) eqn:Et.
  - destruct args as [|Mem args].
    { destruct (Hw id G [] loc); [by eapply list_elem_of_lookup_2|done|done]. }
    simpl. apply (Hacc Mem false); simpl; rewrite ?Et; try done. by apply transfer_not_synchro.
  - destruct (is_synchro (getName (function M G))) eqn:Es.
    + exists ∅, R. split; [done|]. split; [|apply Hnone; simpl; by rewrite Et]. split; [done|].
      intros m J [[HI HT]|[Hp (J' & HJ' & Hs)]]%pending_S; simplify_eq; simpl in *; [by rewrite Et in HT|congruence].
    + apply Hplain; simpl; by rewrite ?Et.
Qed.

Lemma analyze_code b : well_called b -> forall l l0 MM R P,
  code b = l0 ++ l -> flow b (length l0) MM -> reported P R ->
  exists MM' R', rfold (analyze_inst M may_alias) l (MM, R) = Ok (MM', R') /\
    flow b (length (code b)) MM' /\
    reported (fun b' k' => P b' k' \/ (b' = b /\ (length l0 <= k' < length (code b))%nat)) R'.
Proof.
  intros Hw. induction l as [|I l IH]; intros l0 MM R P Hl HF HR.
  - rewrite app_nil_r in Hl. exists MM, R. split; [done|]. rewrite Hl. split; [done|].
    apply (reported_more P); [done|]. intros b' k'. split; [auto|]. intros [?|[_ ?]]; [done|lia].
  - destruct (analyze_inst_spec b (length l0) I MM R P Hw) as (MM1 & R1 & E1 & HF1 & HR1); [|done..|].
    { rewrite Hl. by rewrite lookup_app_r, Nat.sub_diag by lia. }
    edestruct (IH (l0 ++ [I]) MM1 R1) as (MM' & R' & E' & HF' & HR').
    + by rewrite <- app_assoc.
    + rewrite length_app, Nat.add_comm. done.
    + exact HR1.
    + exists MM', R'. cbn [rfold]. rewrite E1. split; [done|]. split; [done|].
      apply (reported_more _ _ _ HR'). intros b' k'. rewrite length_app. simpl.
      assert (length l0 < length (code b))%nat by (rewrite Hl, length_app; simpl; lia).
      split; [intros [[?|[-> ->]]|[-> ?]]|intros [?|[-> ?]]]; auto; try (right; split; [done|lia]).
      destruct (decide (k' = length l0)); [auto|]. right. split; [done|lia].
Qed.

(** * The order of the blocks *)

(** The data a search hands along. *)
Abbreviation Data := (gmap BlockId MemMap * LocalConcurrencyVector)%type.

(** What visiting a block does to it when there is no loop. *)
Definition visit_data (b : BlockId) (d : Data) : res Data :=
  let* p := rfold (analyze_inst M may_alias) (code b) (memory d.1 b, d.2) in
  Ok (fold_left (merge_into b) (successors M b) (<[b := p.1]> d.1), p.2).

(** A function without loops, all of whose blocks are reachable: [rank] grows
    along its edges. *)
Record loop_free (LI : LoopInfo) (Entry : BlockId) (rank : BlockId -> nat) : Prop := {
  lf_nodup : NoDup (blocks (function M F));
  lf_entry : getEntryBlock M F = Some Entry;
  lf_loops : topLevel LI = [];
  lf_succ : forall b c, b ∈ blocks (function M F) -> c ∈ successors M b ->
    c ∈ blocks (function M F) /\ (rank b < rank c)%nat;
  lf_pred : forall b c, c ∈ blocks (function M F) ->
    b ∈ predecessors M c <-> b ∈ blocks (function M F) /\ c ∈ successors M b;
  lf_start : forall c, c ∈ blocks (function M F) -> predecessors M c = [] <-> c = Entry;
  lf_calls : forall b, b ∈ blocks (function M F) -> well_called b
}.

Local Abbreviation NB := (blocks (function M F)).

Lemma memory_insert (BB : gmap BlockId MemMap) b c (MM : MemMap) :
  memory (<[b := MM]> BB) c = if decide (c = b) then MM else memory BB c.
Proof.
  unfold memory. case_decide as E.
  - subst c. by rewrite (lookup_insert_eq BB).
  - by rewrite (lookup_insert_ne BB) by congruence.
Qed.

(** The merges into the successors of [b], none of which is [b]. *)
Lemma merge_all b ss : b ∉ ss -> forall BB c,
  (c ∉ ss -> memory (fold_left (merge_into b) ss BB) c = memory BB c) /\
  (c ∈ ss -> memory (fold_left (merge_into b) ss BB) c = memory BB c ∪ memory BB b).
Proof.
  intros Hb. induction ss as [|s ss IH]; intros BB c; cbn [fold_left]; [split; [done|set_solver]|].
  destruct (IH ltac:(set_solver) (merge_into b BB s) c) as [IH1 IH2].
  assert (b <> s) as Hbs by set_solver.
  assert (memory (merge_into b BB s) b = memory BB b) as Eb.
  { unfold merge_into. rewrite memory_insert. by case_decide. }
  assert (memory (merge_into b BB s) c = if decide (c = s) then memory BB s ∪ memory BB b else memory BB c) as Ec.
  { unfold merge_into. by rewrite memory_insert. }
  split.
  - intros Hc. rewrite IH1, Ec by set_solver. case_decide; set_solver.
  - intros Hc. destruct (decide (c ∈ ss)) as [Hcs|Hcs].
    + rewrite IH2, Ec, Eb by done. case_decide as E; [|done]. subst c.
      apply map_eq. intros m. rewrite !(lookup_union (M := gmap ValueId)).
      destruct (memory BB s !! m), (memory BB b !! m); done.
    + rewrite IH1, Ec by done. apply elem_of_cons in Hc as [->|?]; [|done]. by rewrite decide_True.
Qed.

Section Order.
Context (LI : LoopInfo) (Entry : BlockId) (rank : BlockId -> nat).
Hypothesis LF : loop_free LI Entry rank.

(** What holds of the data once the blocks [visited] are. *)
Record handed (visited : list BlockId) (d : Data) : Prop := {
  hd_closed : forall b p, b ∈ visited -> p ∈ predecessors M b -> p ∈ visited;
  hd_out : forall b, b ∈ visited -> flow b (length (code b)) (memory d.1 b);
  hd_sound : forall c m I, c ∈ NB -> c ∉ visited -> memory d.1 c !! m = Some I -> pend c 0 m I;
  hd_complete : forall p c m I, p ∈ visited -> c ∈ successors M p -> c ∉ visited ->
    pend p (length (code p)) m I -> is_Some (memory d.1 c !! m);
  hd_reported : reported (fun b k => b ∈ visited /\ (k < length (code b))%nat) d.2
}.

Lemma handed_entry visited d b :
  handed visited d -> b ∈ NB -> b ∉ visited -> (forall p, p ∈ predecessors M b -> p ∈ visited) ->
  flow b 0 (memory d.1 b).
Proof.
  intros H Hb Hv Hp. split.
  - intros m I. by apply (hd_sound _ _ H).
  - intros m I Hpend. inversion Hpend as [| |p ? ? ? HpN Hs Hpp]; subst.
    apply (hd_complete _ _ H p _ _ I); [|done..]. apply Hp. by apply (lf_pred _ _ _ LF).
Qed.

Lemma handed_visit visited d b :
  handed visited d -> b ∈ NB -> b ∉ visited -> (forall p, p ∈ predecessors M b -> p ∈ visited) ->
  exists d', visit_data b d = Ok d' /\ handed (visited ++ [b]) d'.
Proof.
  intros H Hb Hv Hp. pose proof (handed_entry _ _ _ H Hb Hv Hp) as HF.
  destruct (analyze_code b (lf_calls _ _ _ LF b Hb) (code b) [] (memory d.1 b) d.2 _ eq_refl HF
    (hd_reported _ _ H)) as (MM & R & E & HF' & HR). unfold visit_data. rewrite E. cbn [rbind fst snd].
  eexists. split; [reflexivity|].
  assert (b ∉ successors M b) as Hself.
  { intros Hs. apply (lf_succ _ _ _ LF b b Hb) in Hs as [_ ?]. lia. }
  assert (forall c, memory (fold_left (merge_into b) (successors M b) (<[b:=MM]> d.1)) c =
    if decide (c = b) then MM else if decide (c ∈ successors M b) then memory d.1 c ∪ MM else memory d.1 c) as Hm.
  { intros c. destruct (merge_all b (successors M b) Hself (<[b:=MM]> d.1) c) as [H1 H2].
    destruct (decide (c ∈ successors M b)) as [Hc|Hc]; [rewrite H2 by done|rewrite H1 by done];
      rewrite !memory_insert; destruct (decide (c = b)); try done; [set_solver|by rewrite decide_True]. }
  assert (forall x, x ∈ visited -> x <> b /\ x ∉ successors M b) as Hold.
  { intros x Hx. split; [set_solver|]. intros Hs. apply Hv. apply (hd_closed _ _ H x b Hx).
    apply (lf_pred _ _ _ LF); [by apply (lf_succ _ _ _ LF b)|done]. }
  split; cbn [fst snd].
  - intros x p [Hx|Hx%list_elem_of_singleton]%elem_of_app Hpx; apply elem_of_app; left.
    + by apply (hd_closed _ _ H x).
    + subst x. auto.
  - intros x [Hx|Hx%list_elem_of_singleton]%elem_of_app; rewrite Hm.
    + destruct (Hold x Hx). rewrite !decide_False by done. by apply (hd_out _ _ H).
    + subst x. by rewrite decide_True.
  - intros c m I Hc Hcv. rewrite Hm, decide_False by set_solver.
    assert (c ∉ visited) as Hcv' by set_solver.
    case_decide as Hs; [|by apply (hd_sound _ _ H)].
    intros [Hl|[_ Hl]]%lookup_union_Some_raw; [by apply (hd_sound _ _ H)|].
    apply (pending_edge M F b); [done..|]. by apply HF'.
  - intros p c m I [Hpv|Hpb%list_elem_of_singleton]%elem_of_app Hs Hcv Hpend;
      rewrite Hm, decide_False by set_solver.
    + assert (is_Some (memory d.1 c !! m)) as Hd by (apply (hd_complete _ _ H p _ _ I); set_solver).
      case_decide; [|done]. apply lookup_union_is_Some. by left.
    + subst p. rewrite decide_True by done. apply lookup_union_is_Some. right. by eapply HF'.
  - apply (reported_more _ _ _ HR). intros b' k. rewrite elem_of_app, list_elem_of_singleton. simpl.
    split; [intros [[? ?]|[-> ?]]|intros [[?|Hx] ?]]; auto; [split; [auto|lia]|].
    subst b'. right. split; [done|lia].
Qed.

Lemma handed_init : handed [] (∅, []).
Proof.
  split; cbn [fst snd]; [set_solver|set_solver| |set_solver|].
  - intros c m I _ _ Hm. exfalso. unfold memory in Hm. rewrite (lookup_empty c) in Hm. simpl in Hm.
    by rewrite (lookup_empty m) in Hm.
  - split; [set_solver|]. intros b k I1 I2 [? _]. set_solver.
Qed.

Lemma handed_all order : forall visited d,
  handed visited d -> topological (predecessors M) (visited ++ order) -> NoDup (visited ++ order) ->
  (forall b, b ∈ order -> b ∈ NB) ->
  exists d', rfold (fun d b => visit_data b d) order d = Ok d' /\ handed (visited ++ order) d'.
Proof.
  induction order as [|b order IH]; intros visited d H Ht Hn HN.
  - exists d. by rewrite app_nil_r.
  - destruct (handed_visit visited d b H) as (d1 & E1 & H1).
    + apply HN. apply list_elem_of_here.
    + apply NoDup_app in Hn as (_ & Hn & _). intros Hb. apply (Hn b Hb), list_elem_of_here.
    + by apply (Ht visited b order eq_refl).
    + destruct (IH (visited ++ [b]) d1 H1) as (d' & E' & H'); rewrite <- ?app_assoc; auto.
      { intros x Hx. apply HN. by apply list_elem_of_further. }
      exists d'. cbn [rfold]. rewrite E1. split; [exact E'|]. by rewrite <- app_assoc in H'.
Qed.

(** * The search against the traversal of the reversed function *)

Definition rev_module : Module_ :=
  {| functions := functions M; function := function M;
     block := fun b => {| label := label (block M b); insts := code b;
                          succs := predecessors M b; preds := successors M b |};
     loadPointer := loadPointer M; callUsers := callUsers M |}.

Local Abbreviation no_info := LAI_clear.

Local Abbreviation vd := (fun b (_ : bool) d => visit_data b d).
Local Abbreviation cvs := (CFGState (S := Data)).

Lemma no_info_succs b : cfg_succs rev_module no_info b = predecessors M b.
Proof. unfold cfg_succs. simpl. by rewrite (lookup_empty b). Qed.

Lemma no_info_preds b : cfg_preds rev_module LI no_info b = Ok (successors M b).
Proof.
  unfold cfg_preds, IsLoopHeader. simpl. rewrite !(lookup_empty b). rewrite bool_decide_false; [done|].
  by intros [? ?].
Qed.

Lemma reversed_dag : collapsed_dag rev_module LI no_info F NB rank.
Proof.
  assert (forall b, b ∈ exits rev_module F <-> b ∈ NB /\ predecessors M b = []) as Hex.
  { intros b. unfold exits. rewrite list_elem_of_In, filter_In, <- list_elem_of_In, bool_decide_eq_true.
    tauto. }
  split.
  - apply LF.
  - intros b. rewrite no_info_succs. apply Hex.
  - apply NoDup_ListNoDup, List.NoDup_filter, NoDup_ListNoDup, LF.
  - intros b c Hb Hc. rewrite no_info_succs in Hc. apply (lf_pred _ _ _ LF c b Hb) in Hc as [Hc Hs].
    split; [done|]. by apply (lf_succ _ _ _ LF c b Hc).
  - intros c Hc. exists (successors M c). split; [apply no_info_preds|]. split.
    + intros b Hb. by apply (lf_succ _ _ _ LF c b Hc) in Hb as [? _].
    + intros b Hb Hcb. rewrite no_info_succs in Hcb. by apply (lf_pred _ _ _ LF c b Hb) in Hcb as [_ ?].
Qed.

(** The colours of the one and the states of the other; [busy] is the block
    being visited, grey in the one, visited in the other. The entry, never
    pushed by an edge, is white in the one until it is visited. *)
Record agree (busy : option BlockId) (st : LCDAnalysis) (v : VisitedMapTy) : Prop := {
  ag_white : forall x, x <> Entry -> color (ColorMap st) x = WHITE <-> state_of v x = UNVISITED;
  ag_black : forall x, Some x <> busy -> color (ColorMap st) x = BLACK <-> state_of v x = VISITED;
  ag_header : forall x, flag (LheaderMap st) x = false;
  ag_latch : forall x, flag (LlatchMap st) x = false
}.

Lemma color_insert (m : BBColorMap) b c x :
  color (<[b := c]> m) x = if decide (x = b) then c else color m x.
Proof.
  unfold color. case_decide as E.
  - subst x. by rewrite (lookup_insert_eq m).
  - by rewrite (lookup_insert_ne m) by congruence.
Qed.

Local Abbreviation step_succ b := (fun (p : LCDAnalysis * list BlockId) Succ =>
  if negb true || ignored p.1 b Succ then p else visit_succ b p Succ).

Lemma succs_agree b ss : forall st q v (d : Data),
  (forall c, c ∈ ss -> c <> Entry /\ c <> b) -> agree (Some b) st v ->
  let p := fold_left (step_succ b) ss (st, q) in
  let e := fold_left cv_enqueue ss {| cv_queue := q; cv_visited := v; cv_derived := d |} in
  p.2 = cv_queue e /\ agree (Some b) p.1 (cv_visited e) /\
  BBToMemAccess p.1 = fold_left (merge_into b) ss (BBToMemAccess st) /\ Results p.1 = Results st.
Proof.
  induction ss as [|c ss IH]; intros st q v d Hss HA; [done|]. cbn [fold_left].
  destruct (Hss c (list_elem_of_here _ _)) as [HcE Hcb].
  assert (ignored st b c = false) as Hi by (unfold ignored; by rewrite (ag_latch _ _ _ HA)).
  assert (step_succ b (st, q) c = visit_succ b (st, q) c) as -> by (simpl; by rewrite Hi).
  assert (visit_succ b (st, q) c =
    (let st' := with_memory (merge_into b (BBToMemAccess st) c) (Results st) st in
     if bool_decide (color (ColorMap st) c = WHITE) then (with_color <[c := GREY]> st', q ++ [c]) else (st', q)))
    as -> by done.
  assert (cv_enqueue {| cv_queue := q; cv_visited := v; cv_derived := d |} c =
    (if bool_decide (state_of v c = UNVISITED)
     then {| cv_queue := q ++ [c]; cv_visited := <[c := PUSHED]> v; cv_derived := d |}
     else {| cv_queue := q; cv_visited := v; cv_derived := d |})) as -> by done.
  cbv zeta.
  pose proof (ag_white _ _ _ HA c HcE) as Hw. pose proof (state_of_insert v c PUSHED) as Hins.
  assert (forall x, x ∈ ss -> x <> Entry /\ x <> b) as Hss' by (intros x Hx; apply Hss; by apply list_elem_of_further).
  case_bool_decide as Ec; [rewrite bool_decide_true by tauto|rewrite bool_decide_false by tauto].
  - apply (IH (with_color <[c:=GREY]> (with_memory (merge_into b (BBToMemAccess st) c) (Results st) st))); [done|].
    split; simpl; try apply HA.
    + intros x Hx. rewrite color_insert, Hins. case_decide; [done|by apply HA].
    + intros x Hx. rewrite color_insert, Hins. case_decide; [done|by apply HA].
  - apply (IH (with_memory (merge_into b (BBToMemAccess st) c) (Results st) st)); [done|]. split; apply HA.
Qed.

(** What relates the two between two turns. *)
Record follows (st : LCDAnalysis) (q : list BlockId) (cv : cvs) : Prop := {
  fo_queue : cv_queue cv = q;
  fo_data : cv_derived cv = (BBToMemAccess st, Results st);
  fo_agree : agree None st (cv_visited cv);
  fo_pushed : forall b, b ∈ q -> state_of (cv_visited cv) b = PUSHED;
  fo_nodup : NoDup q;
  fo_nodes : forall b, b ∈ q -> b ∈ NB
}.

Lemma wait_agrees st q cv b :
  follows st q cv -> mustWait M st b = negb (forallb (IsDone (cv_visited cv)) (predecessors M b)).
Proof.
  intros H. unfold mustWait. rewrite (ag_header _ _ _ (fo_agree _ _ _ H)).
  induction (predecessors M b) as [|p ps IH]; [done|]. cbn [existsb forallb].
  rewrite IH, negb_andb. f_equal. f_equal. unfold IsDone. apply bool_decide_ext.
  by apply (ag_black _ _ _ (fo_agree _ _ _ H)).
Qed.

Lemma visit_follows st b rest cv d' :
  follows st (b :: rest) cv -> visit_data b (cv_derived cv) = Ok d' ->
  exists p, visit_block M may_alias (fun _ => true) b rest st = Ok p /\
    follows p.1 p.2 (fold_left cv_enqueue (successors M b)
      {| cv_queue := rest; cv_visited := <[b := VISITED]> (cv_visited cv); cv_derived := d' |}).
Proof.
  intros [Hq Hd HA Hp Hn HN] Hv. rewrite Hd in Hv. unfold visit_data in Hv. cbn [fst snd] in Hv.
  unfold visit_block, analyzeBB. destruct (rfold _ _ _) as [[MM R]| |]; try discriminate. cbn [rbind fst snd] in *.
  injection Hv as <-.
  assert (b ∈ NB) as Hb by (apply HN, list_elem_of_here).
  apply NoDup_cons in Hn as [Hbr Hn].
  assert (forall c, c ∈ successors M b -> c ∈ NB /\ c <> Entry /\ c <> b) as Hss.
  { intros c Hc. destruct (lf_succ _ _ _ LF b c Hb Hc) as [HcN Hr]. split; [done|]. split; [|intros ->; lia].
    intros HE. apply (lf_start _ _ _ LF c HcN) in HE.
    assert (b ∈ predecessors M c) as Hbc by (by apply (lf_pred _ _ _ LF)). rewrite HE in Hbc. set_solver. }
  pose proof (state_of_insert (cv_visited cv) b VISITED) as Hi.
  set (st1 := with_memory (<[b := MM]> (BBToMemAccess st)) R st).
  destruct (succs_agree b (successors M b) (with_color <[b := GREY]> st1) rest
    (<[b := VISITED]> (cv_visited cv)) (fold_left (merge_into b) (successors M b) (<[b := MM]> (BBToMemAccess st)), R))
    as (H1 & H2 & H3 & H4).
  { intros c Hc. apply (Hss c Hc). }
  { split; simpl; try apply HA.
    - intros x Hx. rewrite color_insert, Hi. case_decide; [done|by apply HA].
    - intros x Hx. rewrite color_insert, Hi. case_decide; [congruence|by apply HA]. }
  destruct (enqueue_all rev_module LI no_info F vd NB rank reversed_dag (successors M b) rest (<[b := VISITED]> (cv_visited cv)))
    as (new & v' & Hf & Hnn & Hin & Hpn & Hold).
  eexists. split; [reflexivity|]. cbn [fst snd].
  rewrite (Hf (fold_left (merge_into b) (successors M b) (<[b := MM]> (BBToMemAccess st)), R)) in H1, H2 |- *.
  cbn [cv_queue cv_visited] in *.
  split; cbn [cv_queue cv_derived cv_visited].
  - by rewrite H1.
  - cbn [with_color BBToMemAccess Results]. rewrite H3, H4. done.
  - split; simpl; try apply H2.
    + intros x Hx. rewrite color_insert. case_decide as E; [|by apply H2]. subst x.
      split; [done|]. rewrite Hold by (rewrite Hin, Hi; case_decide; naive_solver).
      rewrite Hi. by case_decide.
    + intros x _. rewrite color_insert. case_decide as E; [|apply H2; congruence]. subst x.
      split; [|done]. intros _. rewrite Hold by (rewrite Hin, Hi; case_decide; naive_solver).
      rewrite Hi. by case_decide.
  - intros x. rewrite H1. intros [Hx|Hx]%elem_of_app; [|auto].
    rewrite Hold, Hi; [case_decide; [congruence|]; apply Hp; by apply list_elem_of_further|].
    rewrite Hin, Hi. intros [_ Hu]. case_decide; [done|].
    rewrite Hp in Hu by (by apply list_elem_of_further). done.
  - rewrite H1. apply NoDup_app. split; [done|]. split; [|done]. intros x Hx [_ Hu]%Hin.
    rewrite Hi in Hu. case_decide; [done|]. rewrite Hp in Hu by (by apply list_elem_of_further). done.
  - intros x. rewrite H1. intros [Hx|[Hx _]%Hin]%elem_of_app; [|by apply Hss].
    apply HN. by apply list_elem_of_further.
Qed.

Lemma bfs_follows fuel : forall st q cv cv',
  follows st q cv -> cv_loop rev_module LI no_info vd fuel cv = Ok cv' ->
  exists st', bfs M may_alias (mustWait M) (fun _ => true) fuel st q = Ok st' /\
    (BBToMemAccess st', Results st') = cv_derived cv'.
Proof.
  induction fuel as [|fuel IH]; intros st q cv cv' H Hl; pose proof H as [Hq Hd HA Hp Hn HN];
    cbn [cv_loop] in Hl; rewrite Hq in Hl; destruct q as [|b rest]; try discriminate;
    try (injection Hl as <-; exists st; done).
  cbn [bfs]. pose proof (Hp b (list_elem_of_here _ _)) as Hb.
  rewrite bool_decide_false by (intros HB; apply (ag_black _ _ _ HA) in HB; congruence).
  rewrite (wait_agrees st _ cv b H).
  apply rbind_ok in Hl as (cv1 & Hs & Hl). unfold cv_step in Hs. rewrite no_info_succs in Hs.
  destruct (forallb _ _); cbn [negb] in Hs |- *.
  - apply rbind_ok in Hs as (d' & Hd' & Hs). rewrite no_info_preds in Hs. cbn [rbind] in Hs. injection Hs as <-.
    destruct (visit_follows st b rest cv d' H Hd') as (p & -> & Hp'). cbn [rbind]. by eapply IH.
  - injection Hs as <-. eapply IH; [|exact Hl]. assert (rest ++ [b] ≡ₚ b :: rest) as HP by solve_Permutation.
    split; try done.
    + intros x Hx. rewrite HP in Hx. by apply Hp.
    + by rewrite HP.
    + intros x Hx. rewrite HP in Hx. by apply HN.
Qed.

Lemma flag_all l x (m : BBMap) :
  flag m x = false -> flag (fold_left (fun c BB => <[BB := false]> c) l m) x = false.
Proof.
  revert m. induction l as [|b l IH]; intros m Hm; [done|]. cbn [fold_left]. apply IH.
  unfold flag in *. destruct (decide (x = b)) as [->|Hx].
  - by rewrite (lookup_insert_eq m).
  - by rewrite (lookup_insert_ne m) by congruence.
Qed.

Lemma white_all l x (m : BBColorMap) :
  color m x = WHITE -> color (fold_left (fun c BB => <[BB := WHITE]> c) l m) x = WHITE.
Proof.
  revert m. induction l as [|b l IH]; intros m Hm; [done|]. cbn [fold_left]. apply IH.
  rewrite color_insert. by case_decide.
Qed.

Lemma entry_node : Entry ∈ NB.
Proof.
  pose proof (lf_entry _ _ _ LF) as He. unfold getEntryBlock in He.
  destruct NB as [|b l]; [done|]. injection He as ->. apply list_elem_of_here.
Qed.

Lemma exits_entry : exits rev_module F = [Entry].
Proof.
  assert (forall l, NoDup l -> (forall c, c ∈ l -> predecessors M c = [] <-> c = Entry) -> Entry ∈ l ->
    List.filter (fun b => bool_decide (successors rev_module b = [])) l = [Entry]) as Hl.
  { induction l as [|b l IH]; intros Hn Hc Hin; [set_solver|]. apply NoDup_cons in Hn as [Hb Hn].
    cbn [List.filter]. destruct (decide (b = Entry)) as [->|Hne].
    - rewrite bool_decide_true by (apply (Hc Entry); [apply list_elem_of_here|done]). f_equal.
      assert (forall c, c ∈ l -> predecessors M c <> []) as Hno.
      { intros c Hcl HE. apply Hc in HE; [|by apply list_elem_of_further]. by subst c. }
      clear IH Hc Hin Hb Hn. induction l as [|c l IH]; [done|]. cbn [List.filter].
      rewrite bool_decide_false by (apply (Hno c), list_elem_of_here). apply IH. set_solver.
    - rewrite bool_decide_false by (intros HE; apply Hne, Hc; [apply list_elem_of_here|done]).
      apply IH; [done| |set_solver]. intros c Hcl. apply Hc. by apply list_elem_of_further. }
  apply Hl; [apply LF|apply (lf_start _ _ _ LF)|apply entry_node].
Qed.

End Order.

(** C6 (local). On a function without loops whose blocks are all reachable, the
    analysis returns; every pair it reports is an access and a transfer pending
    at it on some way through the function, on buffers that may overlap, one of
    them a write; and every write -- a store or a get -- to a buffer that may
    overlap that of a pending transfer is reported. *)
Theorem LocalConcurrency_spec LI Entry rank getLoopLatch fuel :
  loop_free LI Entry rank -> (length NB * length NB <= fuel)%nat ->
  exists R, LocalConcurrencyAnalysis_run M LI getLoopLatch may_alias fuel F = Ok R /\
    (forall I1 I2, (I1, I2) ∈ R -> racing M may_alias F I1 I2) /\
    (forall I1 I2, racing M may_alias F I1 I2 -> getInstructionType M I1 = WRITE -> exists I2', (I1, I2') ∈ R).
Proof.
  intros LF Hf. pose proof (lf_entry _ _ _ LF) as He.
  destruct (CFGVisitor_order rev_module LI LAI_clear F (fun b (_ : bool) d => visit_data b d) NB rank
    (reversed_dag LI Entry rank LF)) as (order & Hp & Ht & Hrun).
  { unfold getEntryBlock in He. intros E. by rewrite E in He. }
  assert (topological (predecessors M) order) as Ht'.
  { intros l1 b l2 E c Hc. apply (Ht l1 b l2 E). by rewrite no_info_succs. }
  destruct (handed_all LI Entry rank LF order [] (∅, []) (handed_init LI Entry rank LF)) as (d & Ed & Hd); cbn [app] in *.
  { done. }
  { rewrite Hp. apply LF. }
  { intros b Hb. by rewrite <- Hp. }
  specialize (Hrun fuel (∅, []) Hf). rewrite Ed in Hrun. unfold CFGVisitor_Visit in Hrun.
  rewrite (exits_entry LI Entry rank LF) in Hrun. apply rbind_ok in Hrun as ([] & _ & Hrun).
  apply rbind_ok in Hrun as (cv' & Hrun & [= <-]). cbn [fold_left] in Hrun.
  unfold LocalConcurrencyAnalysis_run, analyze. rewrite He, (lf_loops _ _ _ LF). cbn [rbind of_option rfold].
  match goal with |- context [bfs _ _ _ _ _ ?st [Entry]] => set (st0 := st) end.
  assert (follows Entry st0 [Entry]
    {| cv_queue := [Entry]; cv_visited := <[Entry := PUSHED]> ∅; cv_derived := (∅, []) |}) as Hinit.
  { split; cbn [cv_queue cv_derived cv_visited]; try done.
    + split; simpl.
      * intros x Hx. rewrite state_of_insert. case_decide; [done|].
        rewrite white_all by (unfold color; by rewrite (lookup_empty x)).
        unfold state_of. by rewrite (lookup_empty x).
      * intros x _. rewrite state_of_insert, white_all by (unfold color; by rewrite (lookup_empty x)).
        case_decide; [done|]. unfold state_of. by rewrite (lookup_empty x).
      * intros x. apply flag_all. unfold flag. by rewrite (lookup_empty x).
      * intros x. apply flag_all. unfold flag. by rewrite (lookup_empty x).
    + intros b ->%list_elem_of_singleton. rewrite state_of_insert. by case_decide.
    + apply NoDup_singleton.
    + intros b ->%list_elem_of_singleton. by eapply entry_node. }
  destruct (bfs_follows LI Entry rank LF fuel st0 [Entry] _ cv' Hinit Hrun) as (st' & Eb & E').
  { rewrite Eb. cbn [rbind]. exists (Results st'). split; [done|].
    pose proof (hd_reported _ _ Hd) as HR. rewrite <- E' in HR. cbn [snd] in HR. split.
    + intros I1 I2 (b & k & [Hb _] & Hr)%(rep_sound _ _ HR). exists b, k. split; [|done]. by rewrite <- Hp.
    + intros I1 I2 (b & k & Hb & Hr) Hw. apply (rep_complete _ _ HR b k I1 I2); [|done..].
      split; [by rewrite Hp|]. destruct Hr as (m & m2 & Hk & _). by eapply lookup_lt_Some. }
Qed.

End Sound.
