(* ===== verification/LocalConcurrencyExamples.v ===== *)
(** The analysis of local concurrency errors on small functions: what it
    reports, what it misses, what it reports wrongly, and where it does not
    return. *)
From S2P Require Import Prelude IR LocalConcurrency LocalConcurrencySound Samples.
#[local] Open Scope N_scope.

Definition put_fn : FuncId * Function_ := (30, mk_func "MPI_Put" []).
Definition get_fn : FuncId * Function_ := (31, mk_func "MPI_Get" []).
Definition flush_fn : FuncId * Function_ := (32, mk_func "MPI_Win_flush" []).
Definition unlock_fn : FuncId * Function_ := (33, mk_func "MPI_Win_unlock" []).

(** A transfer on buffer [m]; a load and a store. *)
Definition Put (id m : N) : Instruction := CallInst id (Some 30) [m] None.
Definition Get (id m : N) : Instruction := CallInst id (Some 31) [m] None.
Definition Flush (id : N) : Instruction := CallInst id (Some 32) [7] None.
Definition Unlock (id : N) : Instruction := CallInst id (Some 33) [0; 7] None.
Definition Load (id m : N) : Instruction := LoadInst id m 32 None.
Definition Store (id m : N) : Instruction := StoreInst id m 32 None.
Definition ret : Instruction := ReturnInst 99 None.

Definition rma_module (bs : list (BlockId * BasicBlock)) : Module_ :=
  mk_module [(0, mk_func "main" bs.*1); put_fn; get_fn; flush_fn; unlock_fn] bs.

(** Different values do not alias. *)
Definition no_alias : ValueId -> ValueId -> bool := fun _ _ => false.
Definition latch_of (l : Loop) : option BlockId := option_map snd (getIncomingAndBackEdge l).

Definition run (bs : list (BlockId * BasicBlock)) (ls : list Loop) (fuel : nat) :
    res LocalConcurrencyVector :=
  LocalConcurrencyAnalysis_run (rma_module bs)
    {| topLevel := ls; loopFor := fun b => List.find (fun L => contains L b) ls |} latch_of no_alias fuel 0.

(** [if (c) Get(buf); else flush; *buf = x;] *)
Definition branch : list (BlockId * BasicBlock) :=
  [(0, mk_block "%entry" [br (Some 5)] [1; 2] []);
   (1, mk_block "%then" [Get 10 20; br None] [3] [0]);
   (2, mk_block "%else" [Flush 11; br None] [3] [0]);
   (3, mk_block "%end" [Store 12 20; ret] [] [1; 2])].

Lemma branch_ok : loop_free (rma_module branch) 0 no_loops 0 (fun b => N.to_nat b).
Proof.
  split; try done.
  - apply (bool_decide_unpack _). vm_compute. exact I.
  - intros b c Hb Hc. simpl in Hb. enum Hb; vm_compute in Hc; enum Hc; simpl; (split; [set_solver|lia]).
  - intros b c Hc. simpl in Hc. enum Hc; (split; [intros Hb; vm_compute in Hb; enum Hb; (split; [set_solver|vm_compute; set_solver])|
      intros [Hb Hs]; simpl in Hb; enum Hb; vm_compute in Hs; enum Hs; vm_compute; set_solver]).
  - intros c Hc. simpl in Hc. by enum Hc.
  - intros b Hb id G args loc HI Ht. simpl in Hb. enum Hb; simpl in HI;
      unfold Get, Flush, Store, ret, br in HI; enum HI; simplify_eq; try done; by vm_compute in Ht.
Qed.

Lemma LocalConcurrency_witness : exists R,
  LocalConcurrencyAnalysis_run (rma_module branch) no_loops latch_of no_alias 16 0 = Ok R /\
  exists I2, (Store 12 20, I2) ∈ R.
Proof.
  destruct (LocalConcurrency_spec (rma_module branch) 0 no_alias no_loops 0 (fun b => N.to_nat b) latch_of 16
    branch_ok) as (R & E & Hs & Hc).
  - vm_compute. lia.
  - exists R. split; [exact E|]. apply (Hc _ (Get 10 20)); [|reflexivity].
    exists 3, 0%nat. split; [in_list|]. exists 20, 20. split; [reflexivity|]. split; [reflexivity|].
    split; [|split; [left; reflexivity|reflexivity]].
    apply (pending_edge _ _ 1); [in_list|in_list|].
    apply (pending_next _ _ _ _ _ _ (br None)); [|reflexivity|reflexivity].
    apply pending_start; reflexivity.
Defined.

(** A put, then a get on the same buffer, then a load: the get is reported, but
    the put stays the transfer remembered, and the load is not. *)
Definition put_get_load : list (BlockId * BasicBlock) :=
  [(0, mk_block "%entry" [Put 10 20; Get 11 20; Load 12 20; ret] [] [])].

(** [while (c) { *buf = x; Get(buf); if (d) g(); flush; }]: no store meets a
    pending get. *)
Definition loop_with_flush : list (BlockId * BasicBlock) :=
  [(0, mk_block "%entry" [br None] [1] []);
   (1, mk_block "%header" [br (Some 5)] [2; 4] [0; 3]);
   (2, mk_block "%body" [Store 10 20; Get 11 20; br None] [3] [1]);
   (3, mk_block "%latch" [Flush 12; br None] [1] [2]);
   (4, mk_block "%end" [ret] [] [1])].
Definition its_loop : list Loop := [MkLoop 1 [1; 2; 3] [] (Some (0, 3))].

(** A get completed by [MPI_Win_unlock], then a store. *)
Definition unlocked : list (BlockId * BasicBlock) :=
  [(0, mk_block "%entry" [Get 10 20; Unlock 11; Store 12 20; ret] [] [])].

(** A block of the function with a predecessor that cannot be reached. *)
Definition dead_pred : list (BlockId * BasicBlock) :=
  [(0, mk_block "%entry" [Get 10 20; br None] [2] []);
   (1, mk_block "%dead" [br None] [2] []);
   (2, mk_block "%end" [Store 12 20; ret] [] [0; 1])].

(** Waiting forever. *)
Lemma bfs_starves M may_alias wait inside st b fuel :
  color (ColorMap st) b <> BLACK -> wait st b = true ->
  bfs M may_alias wait inside fuel st [b] = OutOfFuel.
Proof.
  intros Hc Hw. induction fuel as [|fuel IH]; [done|]. cbn [bfs app].
  by rewrite bool_decide_false, Hw by done.
Qed.

Lemma dead_pred_starves fuel : run dead_pred [] fuel = OutOfFuel.
Proof.
  unfold run, LocalConcurrencyAnalysis_run, analyze. cbn [topLevel rfold rbind].
  change (getEntryBlock (rma_module dead_pred) 0) with (Some 0). cbn [of_option rbind].
  destruct fuel as [|fuel]; [done|].
  set (st0 := {| ColorMap := _ |}). cbn [bfs].
  assert (mustWait (rma_module dead_pred) st0 0 = false) as -> by (vm_compute; reflexivity).
  rewrite bool_decide_false by (vm_compute; discriminate).
  destruct (visit_block (rma_module dead_pred) no_alias (fun _ => true) 0 [] st0) as [p| |] eqn:E;
    try (exfalso; vm_compute in E; discriminate).
  vm_compute in E. injection E as <-. cbn [rbind fst snd].
  rewrite bfs_starves; [done|vm_compute; discriminate|vm_compute; reflexivity].
Qed.

(** The transfers of [loop_with_flush]. *)
Lemma transfers_at b k I m :
  insts (block (rma_module loop_with_flush) b) !! k = Some I ->
  transfer_of (rma_module loop_with_flush) I = Some m -> b = 2 /\ k = 1%nat.
Proof.
  assert (forallb (fun '(b', bb) => forallb (fun '(k', I') =>
      match transfer_of (rma_module loop_with_flush) I' with
      | Some _ => N.eqb b' 2 && Nat.eqb k' 1 | None => true end) (imap pair (insts bb))) loop_with_flush = true) as Hc
    by (vm_compute; reflexivity).
  rewrite forallb_forall in Hc. intros Hk Ht.
  unfold rma_module, mk_module in Hk. cbn [block] in Hk. unfold find_in in Hk.
  destruct (List.find _ loop_with_flush) as [[b' bb]|] eqn:E; [|by destruct k].
  apply List.find_some in E as [Hin Hb]. apply N.eqb_eq in Hb as ->.
  specialize (Hc _ Hin). cbv beta iota in Hc. rewrite forallb_forall in Hc.
  specialize (Hc (k, I)). cbv beta iota in Hc. unfold rma_module, mk_module in Ht, Hc. rewrite Ht in Hc.
  assert (List.In (k, I) (imap pair (insts bb))) as Hi.
  { apply list_elem_of_In, list_elem_of_lookup. exists k. by rewrite list_lookup_imap, Hk. }
  apply Hc, andb_true_iff in Hi as [?%N.eqb_eq ?%Nat.eqb_eq]. done.
Qed.

(** What the analysis does not do: a load after a put and a get on
    its buffer is not reported against the get; a store that precedes a get in
    an iteration that ends with a flush is reported, and the get against itself, because the second visit
    of a loop starts from what the first one left; [MPI_Win_unlock] completes no
    transfer; and a function in which a reachable block has an unreachable
    predecessor is never done with. *)
Theorem LocalConcurrency_limits :
  run put_get_load [] 10 = Ok [(Get 11 20, Put 10 20)] /\
  racing (rma_module put_get_load) no_alias 0 (Load 12 20) (Get 11 20) /\
  run loop_with_flush its_loop 50 = Ok [(Store 10 20, Get 11 20); (Get 11 20, Get 11 20)] /\
  (forall m I, ~ pending (rma_module loop_with_flush) 0 2 0 m I) /\
  run unlocked [] 10 = Ok [(Store 12 20, Get 10 20)] /\
  (forall fuel, run dead_pred [] fuel = OutOfFuel).
Proof.
  split; [vm_compute; reflexivity|]. split; [|split; [vm_compute; reflexivity|split; [|split;
    [vm_compute; reflexivity|exact dead_pred_starves]]]].
  - exists 0, 2%nat. split; [set_solver|]. exists 20, 20. split; [reflexivity|]. split; [reflexivity|].
    split; [apply pending_start; reflexivity|]. split; [by left|reflexivity].
  - assert (forall b k m I, pending (rma_module loop_with_flush) 0 b k m I ->
      (b = 2 /\ (2 <= k)%nat) \/ (b = 3 /\ k = 0%nat)) as H.
    { induction 1 as [b k m I Hk Ht|b k m I J _ IH Hk Hs|b c m I Hb Hc _ IH].
      - left. destruct (transfers_at _ _ _ _ Hk Ht) as [-> ->]. lia.
      - destruct IH as [[-> ?]|[-> ->]]; [left; lia|]. vm_compute in Hk. injection Hk as <-. done.
      - destruct IH as [[-> _]|[-> Hl]]; [|by vm_compute in Hl]. vm_compute in Hc.
        apply list_elem_of_singleton in Hc as ->. by right. }
    intros m I Hp%H. destruct Hp as [[_ ?]|[? _]]; [lia|discriminate].
Qed.
