(* ===== verification/RmaInstrumentation.v ===== *)
(** The instrumentation for the RMA runtime (RMAInstrumentation.cpp,
    InstrumentedFunctions.def) with its statistics (RMAStatisticsAnalysis.cpp):
    MPI calls are redirected to the wrappers of RmaOverload.v, and the loads and
    stores thought to be inside an epoch are preceded by a call that records
    them. *)
From stdpp Require Import relations.
From S2P Require Import Prelude IR LocalConcurrency Samples.

(** * Statistics *)

(** [RMAStatisticsAnalysis::Statistics]. *)
Record Statistics := MkStatistics {
  sGet : N; sPut : N; sAcc : N; sWin : N; sFree : N; sFence : N; sFlush : N; sLock : N;
  sLockall : N; sUnlock : N; sUnlockall : N; sBarrier : N; sMpi : N
}.

(** The counter a name increments. *)
Inductive Counter :=
| cGet | cPut | cAcc | cWin | cFree | cFence | cFlush | cLock | cLockall | cUnlock | cUnlockall | cBarrier | cMpi.

#[export] Instance Counter_eq_dec : EqDecision Counter.
Proof. solve_decision. Defined.

Definition increment (c : Counter) (s : Statistics) : Statistics :=
  let up d n := (if bool_decide (c = d) then N.succ n else n) in
  {| sGet := up cGet (sGet s); sPut := up cPut (sPut s); sAcc := up cAcc (sAcc s);
     sWin := up cWin (sWin s); sFree := up cFree (sFree s); sFence := up cFence (sFence s);
     sFlush := up cFlush (sFlush s); sLock := up cLock (sLock s); sLockall := up cLockall (sLockall s);
     sUnlock := up cUnlock (sUnlock s); sUnlockall := up cUnlockall (sUnlockall s);
     sBarrier := up cBarrier (sBarrier s); sMpi := up cMpi (sMpi s) |}.

(** The chain of comparisons of [CountMPIfuncs]. *)
Definition counted_names : list (string * string * Counter) := [
  ("MPI_Get", "mpi_get_", cGet); ("MPI_Put", "mpi_put_", cPut);
  ("MPI_Win_create", "mpi_win_create_", cWin); ("MPI_Win_allocate", "mpi_win_allocate_", cWin);
  ("MPI_Accumulate", "mpi_accumulate_", cAcc); ("MPI_Win_fence", "mpi_win_fence_", cFence);
  ("MPI_Win_flush", "mpi_win_flush_", cFlush); ("MPI_Win_lock", "mpi_win_lock_", cLock);
  ("MPI_Win_unlock", "mpi_win_unlock_", cUnlock); ("MPI_Win_unlock_all", "mpi_win_unlock_all_", cUnlockall);
  ("MPI_Win_lock_all", "mpi_win_lock_all_", cLockall); ("MPI_Win_free", "mpi_win_free_", cFree);
  ("MPI_Barrier", "mpi_barrier_", cBarrier)]%string.

Definition CountMPIfuncs (Name : string) (Res : Statistics) : Statistics :=
  match List.find (fun '(n, f, _) => bool_decide (Name = n) || bool_decide (Name = f)) counted_names with
  | Some (_, _, c) => increment c Res
  | None => Res
  end.

(** [RMAStatisticsAnalysis::run]; the counters it never touches are left out. *)
Definition RMAStatistics_run (M : Module_) (F : FuncId) : Statistics :=
  fold_left (fun Res I =>
    match I with
    | CallInst _ (Some calledFunction) _ _ =>
        let FName := getName (function M calledFunction) in
        if String.prefix "MPI_" FName || String.prefix "mpi_" FName
        then CountMPIfuncs FName (increment cMpi Res) else Res
    | _ => Res
    end) (instructions M F) (MkStatistics 0 0 0 0 0 0 0 0 0 0 0 0 0).

Definition getTotalRMA (s : Statistics) : N :=
  sWin s + sPut s + sGet s + sFence s + sAcc s + sLock s + sLockall s + sUnlock s + sUnlockall s +
  sFree s + sFlush s.

Definition getTotalOneSided (s : Statistics) : N := sPut s + sGet s + sAcc s.

(** The statistics of the collective analysis ([StatisticsAnalysis]). *)
Record ModuleStatistics := { Functions : N; DirectCalls : N; IndirectCalls : N }.

Definition StatisticsAnalysis_run (M : Module_) : ModuleStatistics :=
  fold_left (fun Res F =>
    fold_left (fun Res I =>
      match I with
      | CallInst _ (Some _) _ _ => {| Functions := Functions Res; DirectCalls := N.succ (DirectCalls Res);
                                      IndirectCalls := IndirectCalls Res |}
      | CallInst _ None _ _ => {| Functions := Functions Res; DirectCalls := DirectCalls Res;
                                  IndirectCalls := N.succ (IndirectCalls Res) |}
      | _ => Res
      end) (instructions M F)
      {| Functions := N.succ (Functions Res); DirectCalls := DirectCalls Res; IndirectCalls := IndirectCalls Res |})
    (functions M) {| Functions := 0; DirectCalls := 0; IndirectCalls := 0 |}.

(** * Instrumentation *)

(** InstrumentedFunctions.def: C name, Fortran name, whether the call begins or
    ends an epoch. *)
Definition InstrumentedFunctions : list (string * string * bool) := [
  ("MPI_Accumulate", "mpi_accumulate_", false);
  ("MPI_Barrier", "mpi_barrier_", false);
  ("MPI_Get", "mpi_get_", false);
  ("MPI_Put", "mpi_put_", false);
  ("MPI_Win_create", "mpi_win_create_", false);
  ("MPI_Win_allocate", "mpi_win_allocate_", false);
  ("MPI_Win_fence", "mpi_win_fence_", true);
  ("MPI_Win_flush", "mpi_win_flush_", false);
  ("MPI_Win_free", "mpi_win_free_", false);
  ("MPI_Win_lock", "mpi_win_lock_", true);
  ("MPI_Win_lock_all", "mpi_win_lock_all_", true);
  ("MPI_Win_unlock", "mpi_win_unlock_", true);
  ("MPI_Win_unlock_all", "mpi_win_unlock_all_", true)]%string.

Definition ParcoachPrefix : string := "parcoach_rma_".

(** What an instruction becomes: itself, the call of a wrapper in the place of
    a call (the uses of which it takes over), or the recording of an access. *)
Inductive Emitted :=
| Keep (I : Instruction)
| WrapperCall (id : InstId) (Name : string) (Args : list ValueId) (Line : Z) (Filename : string)
| RecordCall (Name : string) (Addr : ValueId) (Size : Z) (Line : Z) (Filename : string).

Record AccessCounters := {
  CountLoad : N; CountStore : N; CountInstLoad : N; CountInstStore : N
}.

Definition resetCounters : AccessCounters :=
  {| CountLoad := 0; CountStore := 0; CountInstLoad := 0; CountInstStore := 0 |}.

Definition dbg_line (Dbg : option DebugLoc) : Z := match Dbg with Some d => getLine d | None => 0%Z end.
Definition dbg_file (Dbg : option DebugLoc) : string :=
  match Dbg with Some d => getFilename d | None => "?"%string end.

Section Instrument.
Context (M : Module_).

(** [getInstrumentationInfo] on the name of the callee. *)
Definition getInstrumentationInfo (callee : option FuncId) : bool * bool :=
  match callee with
  | None => (false, false)
  | Some F =>
      let Name := getName (function M F) in
      match List.find (fun '(n, f, _) => bool_decide (Name = n) || bool_decide (Name = f)) InstrumentedFunctions with
      | Some (_, _, ChangesEpoch) => (true, ChangesEpoch)
      | None => (false, false)
      end
  end.

(** [createInstrumentedCall], the callee known. *)
Definition createInstrumentedCall (id : InstId) (F : FuncId) (Args : list ValueId) (Dbg : option DebugLoc) : Emitted :=
  WrapperCall id (ParcoachPrefix +:+ getName (function M F)) Args (dbg_line Dbg) (dbg_file Dbg).

(** [insertInstrumentationCall]. *)
Definition insertInstrumentationCall (InstName : string) (Addr : ValueId) (Size : Z) (Dbg : option DebugLoc) : Emitted :=
  RecordCall (ParcoachPrefix +:+ InstName) Addr Size (dbg_line Dbg) (dbg_file Dbg).

Definition count (load : bool) (instrumented : bool) (c : AccessCounters) : AccessCounters :=
  let up (b : bool) n := if b then N.succ n else n in
  {| CountLoad := up load (CountLoad c); CountStore := up (negb load) (CountStore c);
     CountInstLoad := up (load && instrumented) (CountInstLoad c);
     CountInstStore := up (negb load && instrumented) (CountInstStore c) |}.

(** One instruction: what is emitted for it, and [NewEpoch] after it. *)
Definition instrument_one (InEpoch : bool) (NewEpoch : bool) (I : Instruction) : list Emitted * bool :=
  match I with
  | CallInst id (Some F) args loc =>
      let '(shouldInstrument, changesEpoch) := getInstrumentationInfo (Some F) in
      if shouldInstrument then ([createInstrumentedCall id F args loc], changesEpoch)
      else ([Keep I], NewEpoch)
  | StoreInst _ p bits loc =>
      ((if InEpoch || NewEpoch then [insertInstrumentationCall "store" p bits loc] else []) ++ [Keep I], NewEpoch)
  | LoadInst _ p bits loc =>
      ((if InEpoch || NewEpoch then [insertInstrumentationCall "load" p bits loc] else []) ++ [Keep I], NewEpoch)
  | _ => ([Keep I], NewEpoch)
  end.

Definition count_one (InEpoch NewEpoch : bool) (I : Instruction) (c : AccessCounters) : AccessCounters :=
  match I with
  | StoreInst _ _ _ _ => count false (InEpoch || NewEpoch) c
  | LoadInst _ _ _ _ => count true (InEpoch || NewEpoch) c
  | _ => c
  end.

(** The loop of [instrumentBb]. *)
Definition instrument_step (InEpoch : bool) (st : list Emitted * bool * AccessCounters) (I : Instruction) :
    list Emitted * bool * AccessCounters :=
  let '(out, NewEpoch, c) := st in
  let '(e, NewEpoch') := instrument_one InEpoch NewEpoch I in
  (out ++ e, NewEpoch', count_one InEpoch NewEpoch I c).

(** [instrumentBb]: the new code of the block, the flag for the next block, the
    counters. *)
Definition instrumentBb (Bb : BlockId) (InEpoch : bool) (c : AccessCounters) :
    list Emitted * bool * AccessCounters :=
  let '(out, NewEpoch, c') := fold_left (instrument_step InEpoch) (insts (block M Bb)) ([], false, c) in
  (out, if NewEpoch then negb InEpoch else InEpoch, c').

(** The state of [instrumentMemAccessesIt]. *)
Record DfsState := {
  dColor : BBColorMap;
  dUnvisited : list BlockId;
  dInEpoch : bool;
  dCode : gmap BlockId (list Emitted);
  dCounters : AccessCounters
}.

Definition hasWhiteSucc (c : BBColorMap) (BB : BlockId) : bool :=
  existsb (fun Succ => bool_decide (color c Succ = WHITE)) (successors M BB).

(** A block is pushed, instrumented, and turns grey. *)
Definition enter_block (st : DfsState) (Succ : BlockId) : DfsState :=
  let '(out, InEpoch, c) := instrumentBb Succ (dInEpoch st) (dCounters st) in
  {| dColor := <[Succ := GREY]> (dColor st); dUnvisited := Succ :: dUnvisited st; dInEpoch := InEpoch;
     dCode := <[Succ := out]> (dCode st); dCounters := c |}.

Definition visit_white (st : DfsState) (Succ : BlockId) : DfsState :=
  if bool_decide (color (dColor st) Succ = WHITE) then enter_block st Succ else st.

Fixpoint dfs (fuel : nat) (st : DfsState) : res DfsState :=
  match dUnvisited st with
  | [] => Ok st
  | Header :: rest =>
      match fuel with
      | O => OutOfFuel
      | S fuel' =>
          if hasWhiteSucc (dColor st) Header then
            dfs fuel' (fold_left visit_white (successors M Header) st)
          else
            dfs fuel' {| dColor := <[Header := BLACK]> (dColor st); dUnvisited := rest;
                         dInEpoch := dInEpoch st; dCode := dCode st; dCounters := dCounters st |}
      end
  end.

(** [instrumentMemAccessesIt]: the code of the blocks reached. *)
Definition instrumentMemAccessesIt (fuel : nat) (F : FuncId) (c : AccessCounters) : res DfsState :=
  let* Entry := of_option (getEntryBlock M F) in
  dfs fuel (enter_block
    {| dColor := fold_left (fun c BB => <[BB := WHITE]> c) (blocks (function M F)) ∅; dUnvisited := [];
       dInEpoch := false; dCode := ∅; dCounters := c |} Entry).

(** What [runOnModule] does with a function that has a body: its statistics,
    the local concurrency errors when it makes one-sided transfers, and its new
    code. *)
Record Report := {
  repFunction : FuncId;
  repStats : Statistics;
  repErrors : LocalConcurrencyVector;
  repDfs : DfsState
}.

Context (LI : FuncId -> LoopInfo) (getLoopLatch : Loop -> option BlockId)
  (may_alias : ValueId -> ValueId -> bool).

Definition run_on_function (fuel : nat) (F : FuncId) : res Report :=
  let Stats := RMAStatistics_run M F in
  let* Res := if N.eqb (getTotalOneSided Stats) 0 then Ok []
              else LocalConcurrencyAnalysis_run M (LI F) getLoopLatch may_alias fuel F in
  let* d := instrumentMemAccessesIt fuel F resetCounters in
  Ok {| repFunction := F; repStats := Stats; repErrors := Res; repDfs := d |}.

Definition runOnModule (fuel : nat) : res (list Report) :=
  rfold (fun reps F =>
    if isDeclaration M F then Ok reps
    else let* r := run_on_function fuel F in Ok (reps ++ [r])) (functions M) [].

End Instrument.

(** * The traversal *)

Section Spec.
Context (M : Module_) (F : FuncId) (Entry : BlockId) (c0 : AccessCounters).

Local Abbreviation NB := (blocks (function M F)).
Local Abbreviation edge := (fun b c => c ∈ successors M b).

Hypothesis Hentry : getEntryBlock M F = Some Entry.
Hypothesis Hclosed : forall b c, b ∈ NB -> c ∈ successors M b -> c ∈ NB.

(** Instrumenting blocks one after the other, each with the flag the one before left. *)
Definition thread (st : bool * gmap BlockId (list Emitted) * AccessCounters) (b : BlockId) :
    bool * gmap BlockId (list Emitted) * AccessCounters :=
  let '(e, code, c) := st in
  let '(out, e', c') := instrumentBb M b e c in (e', <[b := out]> code, c').

Definition threaded (order : list BlockId) := fold_left thread order (false, ∅, c0).

(** [order]: the blocks entered so far. *)
Record traversed (order : list BlockId) (st : DfsState) : Prop := {
  tv_threaded : (dInEpoch st, dCode st, dCounters st) = threaded order;
  tv_nodup : NoDup order;
  tv_white : forall b, color (dColor st) b = WHITE <-> b ∉ order;
  tv_stack : forall b, b ∈ dUnvisited st -> b ∈ order;
  tv_black : forall b, b ∈ order -> b ∈ dUnvisited st \/ forall c, c ∈ successors M b -> c ∈ order;
  tv_reached : forall b, b ∈ order -> rtc edge Entry b;
  tv_nodes : forall b, b ∈ order -> b ∈ NB
}.

(** Blocks to enter count twice, blocks to leave once. *)
Definition remaining (order : list BlockId) (st : DfsState) : nat :=
  2 * (length (remove_dups NB) - length order) + length (dUnvisited st).

Lemma order_bound order st : traversed order st -> (length order <= length (remove_dups NB))%nat.
Proof.
  intros H. apply submseteq_length, NoDup_submseteq; [apply H|].
  intros b Hb. apply elem_of_remove_dups. by apply (tv_nodes _ _ H).
Qed.

Lemma enter_traversed order st b :
  traversed order st -> b ∉ order -> rtc edge Entry b -> b ∈ NB ->
  traversed (order ++ [b]) (enter_block M st b).
Proof.
  intros H Hb Hr HbN. pose proof (tv_threaded _ _ H) as Ht. unfold enter_block, threaded in *.
  destruct (instrumentBb M b (dInEpoch st) (dCounters st)) as [[out e] c] eqn:E. split; simpl.
  - unfold threaded. rewrite fold_left_app. cbn [fold_left]. rewrite <- Ht. unfold thread. by rewrite E.
  - apply NoDup_app. split; [apply H|]. split; [set_solver|apply NoDup_singleton].
  - intros x. unfold color. destruct (decide (x = b)) as [->|Hx].
    + rewrite (lookup_insert_eq (dColor st)). simpl. set_solver.
    + rewrite (lookup_insert_ne (dColor st)) by done. change (default WHITE (dColor st !! x)) with (color (dColor st) x).
      rewrite (tv_white _ _ H). set_solver.
  - intros x [->|Hx]%elem_of_cons; [set_solver|]. apply (tv_stack _ _ H) in Hx. set_solver.
  - intros x Hx. destruct (decide (x = b)) as [->|Hxb]; [left; apply list_elem_of_here|].
    destruct (tv_black _ _ H x) as [?|Hs]; [set_solver|left; set_solver|right; set_solver].
  - intros x [Hx| ->%list_elem_of_singleton]%elem_of_app; [by apply H|done].
  - intros x [Hx| ->%list_elem_of_singleton]%elem_of_app; [by apply (tv_nodes _ _ H)|done].
Qed.

Lemma succs_traversed ss : forall order st,
  traversed order st -> (forall s, s ∈ ss -> s ∈ NB /\ rtc edge Entry s) ->
  exists new, traversed (order ++ new) (fold_left (visit_white M) ss st) /\
    length (dUnvisited (fold_left (visit_white M) ss st)) = (length new + length (dUnvisited st))%nat /\
    (forall s, s ∈ ss -> s ∈ order ++ new) /\ ((exists s, s ∈ ss /\ s ∉ order) -> new <> []).
Proof.
  induction ss as [|s ss IH]; intros order st H Hss.
  { exists []. rewrite app_nil_r. split; [done|]. split; [done|]. set_solver. }
  cbn [fold_left]. unfold visit_white at 2 4.
  destruct (Hss s (list_elem_of_here _ _)) as [HsN Hsr].
  assert (forall x, x ∈ ss -> x ∈ NB /\ rtc edge Entry x) as Hss'
    by (intros x Hx; apply Hss; by apply list_elem_of_further).
  case_bool_decide as Ew; rewrite (tv_white _ _ H) in Ew.
  - destruct (IH (order ++ [s]) (enter_block M st s)) as (new & H1 & H2 & H3 & H4); [by apply enter_traversed|done|].
    exists (s :: new). rewrite <- app_assoc in H1, H3. split; [exact H1|]. split; [|split; [|done]].
    + rewrite H2. unfold enter_block. destruct (instrumentBb _ _ _ _) as [[??]?]. simpl. lia.
    + intros x [->|Hx]%elem_of_cons; [set_solver|]. apply H3 in Hx. done.
  - destruct (IH order st H Hss') as (new & H1 & H2 & H3 & H4). exists new. split; [done|]. split; [done|]. split.
    + intros x [->|Hx]%elem_of_cons; [|auto]. apply elem_of_app. left. by destruct (decide (s ∈ order)).
    + intros (x & [->|Hx]%elem_of_cons & Hxo); [done|]. apply H4. eauto.
Qed.

Lemma hasWhiteSucc_iff order st b :
  traversed order st -> hasWhiteSucc M (dColor st) b = true <-> exists s, s ∈ successors M b /\ s ∉ order.
Proof.
  intros H. unfold hasWhiteSucc. rewrite existsb_exists.
  split; intros (s & Hs & Hw); exists s.
  - rewrite bool_decide_eq_true, (tv_white _ _ H) in Hw. by rewrite list_elem_of_In.
  - rewrite bool_decide_eq_true, (tv_white _ _ H). by rewrite <- list_elem_of_In.
Qed.

Lemma pop_traversed order st b rest :
  traversed order st -> dUnvisited st = b :: rest -> hasWhiteSucc M (dColor st) b = false ->
  traversed order {| dColor := <[b := BLACK]> (dColor st); dUnvisited := rest; dInEpoch := dInEpoch st;
                     dCode := dCode st; dCounters := dCounters st |}.
Proof.
  intros H Hq Hw. assert (b ∈ order) as Hb by (apply (tv_stack _ _ H); rewrite Hq; apply list_elem_of_here).
  split; simpl; try apply H.
  - intros x. unfold color. destruct (decide (x = b)) as [->|Hx].
    + rewrite (lookup_insert_eq (dColor st)). simpl. set_solver.
    + rewrite (lookup_insert_ne (dColor st)) by done. apply H.
  - intros x Hx. apply (tv_stack _ _ H). rewrite Hq. by apply list_elem_of_further.
  - intros x Hx. destruct (tv_black _ _ H x Hx) as [Hs|?]; [|by right]. rewrite Hq in Hs.
    apply elem_of_cons in Hs as [->|?]; [|by left]. right. intros s Hs.
    destruct (decide (s ∈ order)) as [?|Hn]; [done|]. exfalso.
    assert (hasWhiteSucc M (dColor st) b = true) as He by (apply (hasWhiteSucc_iff _ _ _ H); eauto). congruence.
Qed.

Lemma dfs_returns fuel : forall order st,
  traversed order st -> (remaining order st <= fuel)%nat ->
  exists st' new, dfs M fuel st = Ok st' /\ dUnvisited st' = [] /\ traversed (order ++ new) st'.
Proof.
  induction fuel as [|fuel IH]; intros order st H Hf; cbn [dfs];
    destruct (dUnvisited st) as [|b rest] eqn:Eq.
  1,3: exists st, []; rewrite app_nil_r; done.
  { unfold remaining in Hf. rewrite Eq in Hf. simpl in Hf. lia. }
  pose proof (tv_stack _ _ H b) as Hb. rewrite Eq in Hb. specialize (Hb (list_elem_of_here _ _)).
  unfold remaining in Hf. rewrite Eq in Hf. cbn [length] in Hf.
  destruct (hasWhiteSucc M (dColor st) b) eqn:Ew.
  - destruct (succs_traversed (successors M b) order st H) as (new & H1 & H2 & _ & H4).
    { intros s Hs. split; [eapply Hclosed; [by apply (tv_nodes _ _ H)|done]|].
      eapply rtc_r; [by apply (tv_reached _ _ H)|done]. }
    assert (new <> []) as Hne by (by apply H4, (hasWhiteSucc_iff _ _ _ H)).
    destruct (IH (order ++ new) _ H1) as (st' & new' & E & Hs & Ht).
    { pose proof (order_bound _ _ H1) as Hl. unfold remaining. rewrite H2, Eq, length_app in *. cbn [length].
      destruct new; [done|]. simpl in *. lia. }
    exists st', (new ++ new'). rewrite app_assoc. done.
  - apply IH; [by eapply pop_traversed|]. unfold remaining. simpl. lia.
Qed.

(** The blocks entered are the reachable ones, each once, the entry first. *)
Lemma instrument_order fuel :
  (2 * length NB <= fuel)%nat ->
  exists order st, instrumentMemAccessesIt M fuel F c0 = Ok st /\ NoDup order /\ head order = Some Entry /\
    (forall b, b ∈ order <-> rtc edge Entry b) /\
    (dInEpoch st, dCode st, dCounters st) = threaded order.
Proof.
  intros Hf. unfold instrumentMemAccessesIt. rewrite Hentry. cbn [of_option rbind].
  match goal with |- context [enter_block M ?s Entry] => set (st0 := s) end.
  assert (Entry ∈ NB) as HE.
  { unfold getEntryBlock in Hentry. destruct NB as [|b l]; [done|]. injection Hentry as ->. apply list_elem_of_here. }
  assert (traversed [] st0) as H0.
  { split; simpl; try set_solver; [constructor|]. intros b. split; [set_solver|]. intros _.
    assert (forall l (m : BBColorMap), color m b = WHITE -> color (fold_left (fun c BB => <[BB:=WHITE]> c) l m) b = WHITE) as Hw.
    { induction l as [|x l IH]; intros m Hm; [done|]. cbn [fold_left]. apply IH. unfold color in *.
      destruct (decide (b = x)) as [->|Hx]; [by rewrite (lookup_insert_eq m)|by rewrite (lookup_insert_ne m)]. }
    apply Hw. unfold color. by rewrite (lookup_empty b). }
  destruct (dfs_returns fuel [Entry] (enter_block M st0 Entry)) as (st & new & E & Hs & Ht).
  - apply (enter_traversed [] st0); [done|set_solver|constructor|done].
  - assert (length (dUnvisited (enter_block M st0 Entry)) = 1)%nat as Hl.
    { unfold enter_block. destruct (instrumentBb _ _ _ _) as [[??]?]. done. }
    unfold remaining. rewrite Hl. cbn [length].
    assert (length (remove_dups NB) <= length NB)%nat 
      by (apply submseteq_length, NoDup_submseteq; [apply NoDup_remove_dups|intros x; by rewrite elem_of_remove_dups]).
    destruct NB; simpl in *; [set_solver|]. lia.
  - exists ([Entry] ++ new), st. split; [done|]. split; [apply Ht|]. split; [done|]. split; [|apply Ht].
    intros b. split; [apply Ht|]. intros Hr.
    assert (forall x y, rtc edge x y -> x ∈ [Entry] ++ new -> y ∈ [Entry] ++ new) as Hx.
    { induction 1 as [|x y z Hxy _ IH]; [done|]. intros Hx. apply IH.
      destruct (tv_black _ _ Ht x Hx) as [Hq|Hc]; [rewrite Hs in Hq; set_solver|by apply Hc]. }
    apply (Hx Entry b Hr). apply list_elem_of_here.
Qed.

End Spec.

(** * The code of a block *)

Section Block.
Context (M : Module_).

Definition is_record (e : Emitted) : bool := match e with RecordCall _ _ _ _ _ => true | _ => false end.

(** Where an instruction is redirected. *)
Definition redirect (I : Instruction) : Emitted :=
  match I with
  | CallInst id (Some F) args loc =>
      if (getInstrumentationInfo M (Some F)).1 then createInstrumentedCall M id F args loc else Keep I
  | _ => Keep I
  end.

(** [NewEpoch] before the [k]-th instruction: what the last redirected call says. *)
Definition new_epoch (l : list Instruction) : bool :=
  fold_left (fun NewEpoch I => match I with
    | CallInst _ (Some F) _ _ => let '(s, ch) := getInstrumentationInfo M (Some F) in if s then ch else NewEpoch
    | _ => NewEpoch end) l false.

(** The recording put before an access. *)
Definition record_of (I : Instruction) : list Emitted :=
  match I with
  | StoreInst _ p bits loc => [insertInstrumentationCall "store" p bits loc]
  | LoadInst _ p bits loc => [insertInstrumentationCall "load" p bits loc]
  | _ => []
  end.

(** The code of the first [k] instructions. *)
Fixpoint expected (InEpoch : bool) (before l : list Instruction) : list Emitted :=
  match l with
  | [] => []
  | x :: r => (if InEpoch || new_epoch before then record_of x else []) ++ redirect x ::
              expected InEpoch (before ++ [x]) r
  end.

Lemma new_epoch_snoc before I :
  new_epoch (before ++ [I]) = (instrument_one M false (new_epoch before) I).2.
Proof.
  unfold new_epoch. rewrite fold_left_app. cbn [fold_left]. destruct I as [id [G|] args loc| | | | | |]; try done.
  unfold instrument_one. destruct (getInstrumentationInfo M (Some G)) as [[] ch]; done.
Qed.

Lemma instrument_one_emits InEpoch before I :
  (instrument_one M InEpoch (new_epoch before) I).1 =
    (if InEpoch || new_epoch before then record_of I else []) ++ [redirect I] /\
  (instrument_one M InEpoch (new_epoch before) I).2 = new_epoch (before ++ [I]).
Proof.
  rewrite new_epoch_snoc. destruct I as [id [G|] args loc| | | | | |];
    unfold instrument_one, record_of, redirect;
    try (destruct (getInstrumentationInfo M (Some G)) as [[] ch]; cbn [fst snd]);
    destruct (InEpoch || new_epoch before); done.
Qed.

Lemma instrument_fold InEpoch l : forall before out c,
  exists c', fold_left (instrument_step M InEpoch) l (out, new_epoch before, c) =
    (out ++ expected InEpoch before l, new_epoch (before ++ l), c').
Proof.
  induction l as [|I l IH]; intros before out c; cbn [fold_left expected].
  - exists c. by rewrite !app_nil_r.
  - destruct (instrument_one_emits InEpoch before I) as [H1 H2].
    assert (instrument_step M InEpoch (out, new_epoch before, c) I =
      (out ++ (if InEpoch || new_epoch before then record_of I else []) ++ [redirect I],
       new_epoch (before ++ [I]), count_one InEpoch (new_epoch before) I c)) as ->.
    { unfold instrument_step. destruct (instrument_one _ _ _ _) as [e ne]. simpl in H1, H2. by rewrite <- H1, <- H2. }
    destruct (IH (before ++ [I]) (out ++ (if InEpoch || new_epoch before then record_of I else []) ++ [redirect I])
      (count_one InEpoch (new_epoch before) I c)) as [c' E].
    exists c'. rewrite E. rewrite <- !app_assoc. done.
Qed.

Lemma instrumentBb_emits b InEpoch c :
  (instrumentBb M b InEpoch c).1 = (expected InEpoch [] (insts (block M b)),
    xorb InEpoch (new_epoch (insts (block M b)))).
Proof.
  unfold instrumentBb. destruct (instrument_fold InEpoch (insts (block M b)) [] [] c) as [c' E].
  change (new_epoch []) with false in E. rewrite E. cbn [fst]. f_equal. destruct InEpoch, (new_epoch _); done.
Qed.

Lemma expected_code InEpoch l : forall before,
  List.filter (fun e => negb (is_record e)) (expected InEpoch before l) = redirect <$> l.
Proof.
  induction l as [|I l IH]; intros before; [done|]. cbn [expected]. rewrite List.filter_app. cbn [List.filter].
  assert (is_record (redirect I) = false) as ->.
  { destruct I as [id [G|] args loc| | | | | |]; try done. unfold redirect, createInstrumentedCall.
    by destruct (getInstrumentationInfo M (Some G)) as [[] ch]. }
  cbn [negb]. rewrite IH. destruct (InEpoch || new_epoch before); [|done]. by destruct I.
Qed.

(** The code the blocks of [order] get: each with the flag the blocks before it
    left. *)
Fixpoint flags (e : bool) (order : list BlockId) : list (BlockId * bool) :=
  match order with
  | [] => []
  | b :: r => (b, e) :: flags (xorb e (new_epoch (insts (block M b)))) r
  end.

Lemma flags_fst e order : (flags e order).*1 = order.
Proof. revert e. induction order as [|b order IH]; intros e; [done|]. cbn [flags]. rewrite fmap_cons. simpl. by rewrite IH. Qed.

Lemma threaded_code order : forall e code c b, NoDup order ->
  (fold_left (thread M) order (e, code, c)).1.2 !! b =
    match List.find (fun p => bool_decide (p.1 = b)) (flags e order) with
    | Some (_, e') => Some (expected e' [] (insts (block M b)))
    | None => code !! b
    end.
Proof.
  induction order as [|x order IH]; intros e code c b Hn; [done|]. apply NoDup_cons in Hn as [Hx Hn].
  cbn [fold_left flags List.find fst].
  assert (exists c', thread M (e, code, c) x =
    (xorb e (new_epoch (insts (block M x))), <[x := expected e [] (insts (block M x))]> code, c')) as [c' ->].
  { unfold thread. pose proof (instrumentBb_emits x e c) as H. destruct (instrumentBb M x e c) as [[out e'] c'].
    simpl in H. injection H as -> ->. eauto. }
  rewrite IH by done. case_bool_decide as Exb.
  - subst x. destruct (List.find _ _) as [[y e']|] eqn:E.
    + exfalso. apply List.find_some in E as [Hin Hy]. apply bool_decide_eq_true in Hy. simpl in Hy. subst y. apply Hx.
      rewrite <- (flags_fst (xorb e (new_epoch (insts (block M b)))) order). apply list_elem_of_fmap.
      exists (b, e'). split; [done|]. by apply list_elem_of_In.
    + by rewrite (lookup_insert_eq code).
  - destruct (List.find _ _) as [[y e']|]; [done|]. by rewrite (lookup_insert_ne code).
Qed.

Lemma flags_head e b order : head (flags e (b :: order)) = Some (b, e).
Proof. done. Qed.

End Block.

(** C7 (rma_instrument). The pass over a function returns; it enters exactly the
    blocks reachable from the entry, each once, the entry first. Apart from the
    recordings it inserts, the new code of a block is the old one with every call
    of an instrumented function replaced by the call of its wrapper, with the
    line and the file. An access is recorded, right before it, exactly when the
    flag the blocks entered before leave is set or the last redirected call of
    its block begins or ends an epoch. *)
Theorem instrument_spec M F Entry c fuel :
  getEntryBlock M F = Some Entry ->
  (forall b s, b ∈ blocks (function M F) -> s ∈ successors M b -> s ∈ blocks (function M F)) ->
  (2 * length (blocks (function M F)) <= fuel)%nat ->
  exists order st, instrumentMemAccessesIt M fuel F c = Ok st /\ NoDup order /\ head order = Some Entry /\
    (forall b, b ∈ order <-> rtc (fun x y => y ∈ successors M x) Entry b) /\
    (forall b e, (b, e) ∈ flags M false order -> dCode st !! b = Some (expected M e [] (insts (block M b)))) /\
    (forall b, b ∉ order -> dCode st !! b = None) /\
    (forall b out, dCode st !! b = Some out ->
       List.filter (fun e => negb (is_record e)) out = redirect M <$> insts (block M b)).
Proof.
  intros He Hc Hf. destruct (instrument_order M F Entry c He Hc fuel Hf) as (order & st & E & Hn & Hh & Hr & Ht).
  exists order, st. do 4 (split; [done|]).
  assert (forall b, dCode st !! b = match List.find (fun p => bool_decide (p.1 = b)) (flags M false order) with
    | Some (_, e') => Some (expected M e' [] (insts (block M b))) | None => None end) as Hcode.
  { intros b. change (dCode st) with (dInEpoch st, dCode st, dCounters st).1.2. rewrite Ht. unfold threaded.
    rewrite threaded_code by done. by rewrite (lookup_empty b). }
  split; [|split].
  - intros b e Hin. rewrite Hcode.
    destruct (List.find _ _) as [[x e']|] eqn:Ef.
    + apply List.find_some in Ef as [Hx Hb]. apply bool_decide_eq_true in Hb. simpl in Hb. subst x.
      assert (e' = e) as ->; [|done]. apply list_elem_of_In in Hx.
      apply list_elem_of_lookup in Hx as [i Hi]. apply list_elem_of_lookup in Hin as [j Hj].
      assert (i = j) as ->; [|congruence].
      apply (NoDup_lookup order i j b Hn); rewrite <- (flags_fst M false order), list_lookup_fmap;
        [by rewrite Hi|by rewrite Hj].
    + exfalso. apply list_elem_of_In in Hin. apply (List.find_none _ _ Ef) in Hin.
      simpl in Hin. by rewrite bool_decide_true in Hin.
  - intros b Hb. rewrite Hcode. destruct (List.find _ _) as [[x e']|] eqn:Ef; [|done]. exfalso.
    apply List.find_some in Ef as [Hx Hxb]. apply bool_decide_eq_true in Hxb. simpl in Hxb. subst x. apply Hb.
    rewrite <- (flags_fst M false order). apply list_elem_of_fmap. exists (b, e'). split; [done|].
    by apply list_elem_of_In.
  - intros b out. rewrite Hcode. destruct (List.find _ _) as [[x e']|]; [|done]. intros [= <-].
    apply expected_code.
Qed.

(** * Examples *)

#[local] Open Scope N_scope.

Definition rma_fn (id : FuncId) (n : string) : FuncId * Function_ := (id, mk_func n []).
Definition epoch_module (bs : list (BlockId * BasicBlock)) : Module_ :=
  mk_module [(0, mk_func "main" bs.*1); rma_fn 30 "MPI_Put"; rma_fn 34 "MPI_Win_lock_all";
             rma_fn 35 "MPI_Win_unlock_all"; rma_fn 36 "MPI_Win_fence"] bs.
Definition acall (id F : N) : Instruction := CallInst id (Some F) [20] (Some {| getFilename := "a.c"; getLine := 3 |}).
Definition store (id : N) : Instruction := StoreInst id 20 32 None.

(** The recordings of a block. *)
Definition records (bs : list (BlockId * BasicBlock)) (fuel : nat) : res (gmap BlockId (list Emitted)) :=
  let* st := instrumentMemAccessesIt (epoch_module bs) fuel 0 resetCounters in
  Ok ((fun out => List.filter is_record out) <$> dCode st).

(** An epoch in one block; one over three blocks; the same with a put in the
    first block; an epoch on one side of a branch. *)
Definition one_block : list (BlockId * BasicBlock) :=
  [(0, mk_block "%0" [acall 10 34; acall 11 30; store 12; acall 13 35; ReturnInst 14 None] [] [])].
Definition three_blocks : list (BlockId * BasicBlock) :=
  [(0, mk_block "%0" [acall 10 36; br None] [1] []); (1, mk_block "%1" [store 12; br None] [2] [0]);
   (2, mk_block "%2" [acall 13 36; ReturnInst 14 None] [] [1])].
Definition put_first : list (BlockId * BasicBlock) :=
  [(0, mk_block "%0" [acall 10 36; acall 11 30; br None] [1] []); (1, mk_block "%1" [store 12; br None] [2] [0]);
   (2, mk_block "%2" [acall 13 36; ReturnInst 14 None] [] [1])].
Definition one_side : list (BlockId * BasicBlock) :=
  [(0, mk_block "%0" [br (Some 5)] [1; 2] []); (1, mk_block "%1" [acall 10 34; ReturnInst 11 None] [] [0]);
   (2, mk_block "%2" [store 12; ReturnInst 14 None] [] [0])].

Lemma instrument_spec_witness : exists st,
  instrumentMemAccessesIt (epoch_module three_blocks) 6 0 resetCounters = Ok st /\
  dCode st !! 1 = Some [RecordCall "parcoach_rma_store" 20 32 0 "?"; Keep (store 12); Keep (br None)].
Proof.
  destruct (instrument_spec (epoch_module three_blocks) 0 0 resetCounters 6) as (order & st & E & _ & _ & _ & _ & _ & Hc).
  - reflexivity.
  - intros b s Hb Hs. simpl in Hb. enum Hb; vm_compute in Hs; enum Hs; apply (bool_decide_unpack _); vm_compute; exact I.
  - vm_compute. lia.
  - exists st. split; [exact E|]. vm_compute in E. injection E as <-. vm_compute. reflexivity.
Defined.

(** What is thought to be inside an epoch: a store after a put
    of its block is not recorded although its epoch began in the block, nor is
    one in a later block when a put followed the call that began the epoch; the
    same store without the put is; and a store on the other side of a branch is
    recorded although no epoch began on its path. *)
Theorem epoch_flag_limits :
  records one_block 10 = Ok {[ 0 := [] ]} /\
  records put_first 10 = Ok {[ 0 := []; 1 := []; 2 := [] ]} /\
  records three_blocks 10 =
    Ok {[ 0 := []; 1 := [RecordCall "parcoach_rma_store" 20 32 0 "?"]; 2 := [] ]} /\
  records one_side 10 =
    Ok {[ 0 := []; 1 := []; 2 := [RecordCall "parcoach_rma_store" 20 32 0 "?"] ]}.
Proof. repeat split; vm_compute; reflexivity. Qed.
