(* ===== verification/AndersenNodes.v ===== *)
(** The nodes of the pointer analysis (NodeFactory.cpp, NodeFactory.h) and its
    constraints (Constraint.h): the tables from values to nodes, and the merging
    of nodes, a union-find forest with path compression. *)
From S2P Require Import Prelude IR.

(** * What the analysis reads of values *)

(** The opcodes of the constant expressions it distinguishes. *)
Inductive CEOpcode := CE_GetElementPtr | CE_IntToPtr | CE_PtrToInt | CE_BitCast | CE_AddrSpaceCast | CE_Other.

Inductive TypeKind := PointerTy | SingleValueTy | AggregateTy.

(** Constants, with what the analysis asks of their types; global variables and
    functions are [GlobalValue]s. *)
Inductive Constant :=
| ConstantPointerNull
| UndefValue (ty : TypeKind)
| GlobalValue (g : ValueId)
| ConstantExpr (op : CEOpcode) (isPtr : bool) (operand : Constant)
| ConstantScalar
| ConstantAggregateZero
| ConstantAggregate (operands : list Constant).

Inductive Value :=
| Const (c : Constant)
| Local (v : ValueId).     (** an argument or an instruction *)

Definition isPointer (c : Constant) : bool :=
  match c with
  | ConstantPointerNull | GlobalValue _ => true
  | UndefValue PointerTy => true
  | ConstantExpr _ isPtr _ => isPtr
  | _ => false
  end.

(** * Nodes and constraints *)

(** Indices are machine unsigned integers; the greatest one, [InvalidIndex], is
    [None] here. A module with that many nodes is not considered. *)
Abbreviation NodeIndex := N.

Inductive AndersNodeType := VALUE_NODE | OBJ_NODE.

Record AndersNode := mk_node {
  nodeType : AndersNodeType;
  idx : NodeIndex;
  mergeTarget : NodeIndex;
  value : option ValueId
}.

Inductive ConstraintType := ADDR_OF | COPY | LOAD | STORE.

Record AndersConstraint := mk_constraint { cType : ConstraintType; getDest : NodeIndex; getSrc : NodeIndex }.

Record AndersNodeFactory := {
  nodes : list AndersNode;
  valueNodeMap : gmap ValueId NodeIndex;
  objNodeMap : gmap ValueId NodeIndex;
  returnMap : gmap FuncId NodeIndex;
  varargMap : gmap FuncId NodeIndex
}.

Definition getUniversalPtrNode : NodeIndex := 0.
Definition getUniversalObjNode : NodeIndex := 1.
Definition getNullPtrNode : NodeIndex := 2.
Definition getNullObjectNode : NodeIndex := 3.

Definition getNumNodes (s : AndersNodeFactory) : N := N.of_nat (length (nodes s)).

(** The constructor of a node: it is its own target. *)
Definition new_node (t : AndersNodeType) (i : NodeIndex) (v : option ValueId) : AndersNode := mk_node t i i v.

(** The constructor of the factory. *)
Definition AndersNodeFactory_init : AndersNodeFactory :=
  {| nodes := [new_node VALUE_NODE 0 None; new_node OBJ_NODE 1 None;
               new_node VALUE_NODE 2 None; new_node OBJ_NODE 3 None];
     valueNodeMap := ∅; objNodeMap := ∅; returnMap := ∅; varargMap := ∅ |}.

Definition set_nodes (l : list AndersNode) (s : AndersNodeFactory) : AndersNodeFactory :=
  {| nodes := l; valueNodeMap := valueNodeMap s; objNodeMap := objNodeMap s;
     returnMap := returnMap s; varargMap := varargMap s |}.

Definition push_node (t : AndersNodeType) (v : option ValueId) (s : AndersNodeFactory) : AndersNodeFactory :=
  set_nodes (nodes s ++ [new_node t (getNumNodes s) v]) s.

(** The four creators; each asserts that its value is new. *)
Definition createValueNode (Val : option ValueId) (s : AndersNodeFactory) : res (NodeIndex * AndersNodeFactory) :=
  let NextIdx := getNumNodes s in
  let s1 := push_node VALUE_NODE Val s in
  match Val with
  | None => Ok (NextIdx, s1)
  | Some v =>
      let* _ := guard (bool_decide (valueNodeMap s !! v = None)) in
      Ok (NextIdx, {| nodes := nodes s1; valueNodeMap := <[v := NextIdx]> (valueNodeMap s);
                      objNodeMap := objNodeMap s; returnMap := returnMap s; varargMap := varargMap s |})
  end.

Definition createObjectNode (Val : option ValueId) (s : AndersNodeFactory) : res (NodeIndex * AndersNodeFactory) :=
  let NextIdx := getNumNodes s in
  let s1 := push_node OBJ_NODE Val s in
  match Val with
  | None => Ok (NextIdx, s1)
  | Some v =>
      let* _ := guard (bool_decide (objNodeMap s !! v = None)) in
      Ok (NextIdx, {| nodes := nodes s1; valueNodeMap := valueNodeMap s;
                      objNodeMap := <[v := NextIdx]> (objNodeMap s); returnMap := returnMap s;
                      varargMap := varargMap s |})
  end.

Definition createReturnNode (F : FuncId) (s : AndersNodeFactory) : res (NodeIndex * AndersNodeFactory) :=
  let NextIdx := getNumNodes s in
  let s1 := push_node VALUE_NODE (Some F) s in
  let* _ := guard (bool_decide (returnMap s !! F = None)) in
  Ok (NextIdx, {| nodes := nodes s1; valueNodeMap := valueNodeMap s; objNodeMap := objNodeMap s;
                  returnMap := <[F := NextIdx]> (returnMap s); varargMap := varargMap s |}).

Definition createVarargNode (F : FuncId) (s : AndersNodeFactory) : res (NodeIndex * AndersNodeFactory) :=
  let NextIdx := getNumNodes s in
  let s1 := push_node OBJ_NODE (Some F) s in
  let* _ := guard (bool_decide (varargMap s !! F = None)) in
  Ok (NextIdx, {| nodes := nodes s1; valueNodeMap := valueNodeMap s; objNodeMap := objNodeMap s;
                  returnMap := returnMap s; varargMap := <[F := NextIdx]> (varargMap s) |}).

(** [getValueNodeForConstant], with [getValueNodeFor] on constants. *)
Fixpoint getValueNodeForConstant (s : AndersNodeFactory) (C : Constant) : res (option NodeIndex) :=
  let* _ := guard (isPointer C) in
  match C with
  | ConstantPointerNull | UndefValue _ => Ok (Some getNullPtrNode)
  | GlobalValue g => Ok (valueNodeMap s !! g)
  | ConstantExpr CE_GetElementPtr _ o => getValueNodeForConstant s o
  | ConstantExpr CE_IntToPtr _ _ | ConstantExpr CE_PtrToInt _ _ => Ok (Some getUniversalPtrNode)
  | ConstantExpr CE_BitCast _ o | ConstantExpr CE_AddrSpaceCast _ o => getValueNodeForConstant s o
  | _ => Broken
  end.

Definition getValueNodeFor (s : AndersNodeFactory) (Val : Value) : res (option NodeIndex) :=
  match Val with
  | Const (GlobalValue g) => Ok (valueNodeMap s !! g)
  | Const C => getValueNodeForConstant s C
  | Local v => Ok (valueNodeMap s !! v)
  end.

Fixpoint getObjectNodeForConstant (s : AndersNodeFactory) (C : Constant) : res (option NodeIndex) :=
  let* _ := guard (isPointer C) in
  match C with
  | ConstantPointerNull => Ok (Some getNullObjectNode)
  | GlobalValue g => Ok (objNodeMap s !! g)
  | ConstantExpr CE_GetElementPtr _ o => getObjectNodeForConstant s o
  | ConstantExpr CE_IntToPtr _ _ | ConstantExpr CE_PtrToInt _ _ => Ok (Some getUniversalObjNode)
  | ConstantExpr CE_BitCast _ o | ConstantExpr CE_AddrSpaceCast _ o => getObjectNodeForConstant s o
  | _ => Broken
  end.

Definition getObjectNodeFor (s : AndersNodeFactory) (Val : Value) : res (option NodeIndex) :=
  match Val with
  | Const (GlobalValue g) => Ok (objNodeMap s !! g)
  | Const C => getObjectNodeForConstant s C
  | Local v => Ok (objNodeMap s !! v)
  end.

Definition getReturnNodeFor (s : AndersNodeFactory) (F : FuncId) : option NodeIndex := returnMap s !! F.
Definition getVarargNodeFor (s : AndersNodeFactory) (F : FuncId) : option NodeIndex := varargMap s !! F.

Definition node_at (s : AndersNodeFactory) (n : NodeIndex) : option AndersNode := nodes s !! N.to_nat n.
Definition target (s : AndersNodeFactory) (n : NodeIndex) : option NodeIndex := mergeTarget <$> node_at s n.

Definition set_target (n t : NodeIndex) (s : AndersNodeFactory) : AndersNodeFactory :=
  set_nodes (alter (fun x => mk_node (nodeType x) (idx x) t (value x)) (N.to_nat n) (nodes s)) s.

(** [mergeNode]. *)
Definition mergeNode (N0 N1 : NodeIndex) (s : AndersNodeFactory) : res AndersNodeFactory :=
  let* _ := guard (bool_decide (N0 < getNumNodes s)%N && bool_decide (N1 < getNumNodes s)%N) in
  Ok (set_target N1 N0 s).

(** The loop of [getMergeTarget]: from [Ret] to its representative, with the
    nodes passed. *)
Fixpoint find_loop (fuel : nat) (s : AndersNodeFactory) (Ret : NodeIndex) (Path : list NodeIndex) :
    res (NodeIndex * list NodeIndex) :=
  match fuel with
  | O => OutOfFuel
  | S fuel' =>
      let* t := of_option (target s Ret) in
      if bool_decide (Ret = t) then Ok (Ret, Path) else find_loop fuel' s t (Path ++ [Ret])
  end.

(** [getMergeTarget], which makes the nodes passed point to the representative. *)
Definition getMergeTarget (fuel : nat) (N : NodeIndex) (s : AndersNodeFactory) : res (NodeIndex * AndersNodeFactory) :=
  let* Ret := of_option (target s N) in
  if bool_decide (Ret = N) then Ok (Ret, s)
  else
    let* p := find_loop fuel s Ret [N] in
    Ok (p.1, fold_left (fun s Idx => set_target Idx p.1 s) p.2 s).

(** [getMergeTarget() const]. *)
Definition getMergeTarget_const (fuel : nat) (N : NodeIndex) (s : AndersNodeFactory) : res NodeIndex :=
  let* Ret := of_option (target s N) in
  let* p := find_loop fuel s Ret [] in
  Ok p.1.

Definition isObjectNode (s : AndersNodeFactory) (i : NodeIndex) : bool :=
  match node_at s i with Some n => match nodeType n with OBJ_NODE => true | _ => false end | None => false end.

Definition getValueForNode (s : AndersNodeFactory) (i : NodeIndex) : res (option ValueId) :=
  let* n := of_option (node_at s i) in Ok (value n).

(** [getAllocSites], in an order the code leaves open. *)
Definition getAllocSites (s : AndersNodeFactory) : list ValueId := (map_to_list (objNodeMap s)).*1.

Definition removeNodeForValue (val : ValueId) (s : AndersNodeFactory) : AndersNodeFactory :=
  {| nodes := nodes s; valueNodeMap := delete val (valueNodeMap s); objNodeMap := objNodeMap s;
     returnMap := returnMap s; varargMap := varargMap s |}.

(** * The merge targets as a union-find forest *)

(** [n] leads to the representative [r] in [k] steps. *)
Inductive steps (s : AndersNodeFactory) : nat -> NodeIndex -> NodeIndex -> Prop :=
| steps_here r : target s r = Some r -> steps s 0 r r
| steps_next n t k r : target s n = Some t -> t <> n -> steps s k t r -> steps s (S k) n r.

Definition rooted (s : AndersNodeFactory) (n r : NodeIndex) : Prop := exists k, steps s k n r.

(** Every node has a representative. *)
Definition forest (s : AndersNodeFactory) : Prop := forall n, (n < getNumNodes s)%N -> exists r, rooted s n r.

Lemma target_lt s n t : target s n = Some t -> (n < getNumNodes s)%N.
Proof.
  unfold target, node_at, getNumNodes. intros H. destruct (nodes s !! N.to_nat n) eqn:E; [|done].
  apply lookup_lt_Some in E. lia.
Qed.

Lemma target_set s n t m :
  target (set_target n t s) m = if decide (m = n) then (if bool_decide (n < getNumNodes s)%N then Some t else None) else target s m.
Proof.
  unfold target, set_target, node_at. cbn [nodes set_nodes]. case_decide as E.
  - subst m. rewrite list_lookup_alter_eq. unfold getNumNodes.
    destruct (nodes s !! N.to_nat n) eqn:El; simpl; case_bool_decide as Hb; try done.
    + apply lookup_lt_Some in El. lia.
    + apply lookup_ge_None in El. lia.
  - by rewrite list_lookup_alter_ne by lia.
Qed.

Lemma steps_det s k n r : steps s k n r -> forall k' r', steps s k' n r' -> k = k' /\ r = r'.
Proof.
  induction 1 as [r Hr|n t k r Ht Hne _ IH]; intros k' r' H';
    inversion H' as [? Hr0|? t0 k0 ? Ht0 Hne0 Hs0]; subst; try congruence; try done.
  assert (t0 = t) as -> by congruence. destruct (IH _ _ Hs0) as [-> ->]. done.
Qed.

Lemma rooted_det s n r r' : rooted s n r -> rooted s n r' -> r = r'.
Proof. intros [k H] [k' H']. by destruct (steps_det _ _ _ _ H _ _ H'). Qed.

Lemma rooted_root s n r : rooted s n r -> target s r = Some r.
Proof. intros [k H]. by induction H. Qed.

Lemma root_rooted s r : target s r = Some r -> rooted s r r.
Proof. exists 0%nat. by constructor. Qed.

Lemma rooted_lt s n r : rooted s n r -> (n < getNumNodes s)%N.
Proof. intros [k H]. inversion H; subst; by eapply target_lt. Qed.

Lemma rooted_step s n t r : target s n = Some t -> rooted s t r -> rooted s n r.
Proof.
  intros Ht [k H]. destruct (decide (t = n)) as [->|Hne]; [by exists k|]. exists (S k). by eapply steps_next.
Qed.

(** The nodes passed on the way are different, so there are at most as many as
    nodes. *)
Lemma steps_path s k n r :
  steps s k n r -> exists path, length path = k /\ NoDup path /\
    (forall x, x ∈ path -> (exists j, (j <= k)%nat /\ (0 < j)%nat /\ steps s j x r) /\ (x < getNumNodes s)%N).
Proof.
  induction 1 as [r Hr|n t k r Ht Hne Hs (path & Hl & Hn & Hp)].
  - exists []. split; [done|]. split; [constructor|]. set_solver.
  - exists (n :: path). split; [simpl; lia|]. split.
    + constructor; [|done]. intros Hin. destruct (Hp n Hin) as [(j & Hj & _ & Hsj) _].
      assert (steps s (S k) n r) as Hk by (by eapply steps_next).
      destruct (steps_det _ _ _ _ Hk _ _ Hsj). lia.
    + intros x [->|Hx]%elem_of_cons.
      * split; [exists (S k); repeat split; try lia; by eapply steps_next|by eapply target_lt].
      * destruct (Hp x Hx) as [(j & ? & ? & ?) ?]. split; [exists j; repeat split; try lia; done|done].
Qed.

Lemma steps_bound s k n r : steps s k n r -> (k < length (nodes s))%nat.
Proof.
  intros H. destruct (steps_path _ _ _ _ H) as (path & Hl & Hn & Hp).
  assert (r ∉ path) as Hr.
  { intros Hin. destruct (Hp r Hin) as [(j & _ & Hj & Hs) _].
    assert (steps s 0 r r) as H0 by (constructor; by eapply (rooted_root _ n); exists k).
    destruct (steps_det _ _ _ _ H0 _ _ Hs). lia. }
  assert (r < getNumNodes s)%N as Hlt by (by eapply target_lt, (rooted_root _ n); exists k).
  assert (length (r :: path) <= length (seq 0 (length (nodes s))))%nat as Hle.
  { rewrite <- (length_fmap N.to_nat (r :: path)). apply submseteq_length, NoDup_submseteq.
    - apply NoDup_fmap_2; [intros ? ? ?; lia|]. by constructor.
    - intros i (x & -> & Hx)%list_elem_of_fmap. apply elem_of_seq. unfold getNumNodes in *.
      apply elem_of_cons in Hx as [->|Hx]; [lia|]. destruct (Hp x Hx) as [_ ?]. lia. }
  rewrite length_seq in Hle. simpl in Hle. lia.
Qed.

Lemma find_loop_spec s k n r : steps s k n r -> forall fuel Path, (k < fuel)%nat ->
  exists path, find_loop fuel s n Path = Ok (r, Path ++ path) /\
    (forall x, x ∈ path -> rooted s x r /\ x <> r).
Proof.
  induction 1 as [r Hr|n t k r Ht Hne Hs IH]; intros [|fuel] Path Hf; try lia; cbn [find_loop].
  - exists []. rewrite Hr. cbn [of_option rbind]. rewrite bool_decide_true, app_nil_r by done.
    split; [done|]. set_solver.
  - rewrite Ht. cbn [of_option rbind]. rewrite bool_decide_false by done.
    destruct (IH fuel (Path ++ [n])) as (path & E & Hp); [lia|]. exists (n :: path).
    rewrite E, <- app_assoc. split; [done|]. intros x [->|Hx]%elem_of_cons; [|auto].
    assert (steps s (S k) n r) as Hn by (by eapply steps_next). split; [by exists (S k)|]. intros ->.
    assert (steps s 0 r r) as H0 by (constructor; by eapply (rooted_root _ t); exists k).
    by destruct (steps_det _ _ _ _ H0 _ _ Hn).
Qed.

(** Making [x] point to its representative changes no representative. *)
Lemma compress_rooted s x r : rooted s x r -> x <> r -> forall n y, rooted (set_target x r s) n y <-> rooted s n y.
Proof.
  intros Hx Hne. pose proof (rooted_root _ _ _ Hx) as Hr.
  assert (forall m, target (set_target x r s) m = if decide (m = x) then Some r else target s m) as Ht.
  { intros m. rewrite target_set. case_decide; [|done]. by rewrite bool_decide_true by (by eapply rooted_lt). }
  assert (rooted (set_target x r s) r r) as Hr' by (apply root_rooted; rewrite Ht; by case_decide).
  assert (forall n y, rooted s n y -> rooted (set_target x r s) n y) as Hto.
  { intros n y [k H]. induction H as [y Hy|n t k y Hn Hnt Hs IH].
    - apply root_rooted. rewrite Ht. case_decide; [|done]. subst y. destruct Hne.
      symmetry. by apply (rooted_det s x); [|apply root_rooted].
    - destruct (decide (n = x)) as [->|Hnx].
      + assert (y = r) as -> by (eapply rooted_det; [|exact Hx]; exists (S k); by eapply steps_next).
        eapply rooted_step; [|exact Hr']. rewrite Ht. by rewrite decide_True.
      + eapply rooted_step; [|exact IH]. rewrite Ht. by rewrite decide_False. }
  intros n y. split; [|apply Hto]. intros [k H].
  induction H as [y Hy|n t k y Hn Hnt Hs IH].
  - rewrite Ht in Hy. case_decide; [congruence|]. by apply root_rooted.
  - rewrite Ht in Hn. case_decide as E.
    + subst n. injection Hn as <-. assert (y = r) as -> by (eapply rooted_det; [exact IH|by apply root_rooted]). done.
    + by eapply rooted_step.
Qed.

Lemma set_target_size x t s : length (nodes (set_target x t s)) = length (nodes s).
Proof. unfold set_target. cbn [nodes set_nodes]. apply length_alter. Qed.

Lemma compress_all path r : forall s,
  (forall x, x ∈ path -> rooted s x r /\ x <> r) ->
  let s' := fold_left (fun s Idx => set_target Idx r s) path s in
  (forall n y, rooted s' n y <-> rooted s n y) /\ length (nodes s') = length (nodes s).
Proof.
  induction path as [|x path IH]; intros s Hp; [done|]. cbn [fold_left].
  destruct (Hp x (list_elem_of_here _ _)) as [Hx Hne]. pose proof (compress_rooted s x r Hx Hne) as Hc.
  destruct (IH (set_target x r s)) as [H1 H2].
  - intros y Hy. rewrite Hc. apply Hp. by apply list_elem_of_further.
  - split; [|by rewrite H2, set_target_size]. intros n y. by rewrite H1, Hc.
Qed.

(** Both versions find the representative; the one that compresses changes none. *)
Lemma getMergeTarget_finds s n r fuel :
  rooted s n r -> (length (nodes s) <= fuel)%nat ->
  getMergeTarget_const fuel n s = Ok r /\
  exists s', getMergeTarget fuel n s = Ok (r, s') /\ length (nodes s') = length (nodes s) /\
    (forall x y, rooted s' x y <-> rooted s x y).
Proof.
  intros Hn Hf. pose proof Hn as [k Hs]. inversion Hs as [? Ht|? t k' ? Ht Hne Hs']; subst.
  - assert (0 < fuel)%nat by (apply steps_bound in Hs; lia).
    unfold getMergeTarget_const, getMergeTarget. rewrite Ht. cbn [of_option rbind].
    rewrite bool_decide_true by done. destruct (find_loop_spec s 0 r r Hs fuel []) as (p & E & _); [done|].
    rewrite E. split; [done|]. exists s. done.
  - apply steps_bound in Hs as Hk.
    unfold getMergeTarget_const, getMergeTarget. rewrite Ht. cbn [of_option rbind].
    rewrite bool_decide_false by done.
    destruct (find_loop_spec s k' t r Hs' fuel []) as (p & E & _); [lia|]. rewrite E. split; [done|].
    destruct (find_loop_spec s k' t r Hs' fuel [n]) as (p' & E' & Hp); [lia|]. rewrite E'. cbn [rbind fst snd].
    eexists. split; [reflexivity|]. destruct (compress_all ([n] ++ p') r s) as [H1 H2]; [|done].
    intros x [->%list_elem_of_singleton|Hx]%elem_of_app; [|auto]. split; [done|]. intros ->.
    assert (steps s 0 r r) as H0 by (constructor; by eapply (rooted_root _ t); exists k').
    by destruct (steps_det _ _ _ _ H0 _ _ Hs).
Qed.

(** Merging the representative [b] into [a], another tree's node. *)
Lemma mergeNode_rooted s a b ra :
  rooted s a ra -> target s b = Some b -> ra <> b ->
  exists s', mergeNode a b s = Ok s' /\ length (nodes s') = length (nodes s) /\
    forall n y, rooted s' n y <-> exists z, rooted s n z /\ y = if decide (z = b) then ra else z.
Proof.
  intros Ha Hb Hne. unfold mergeNode.
  rewrite (bool_decide_true (a < _)%N) by (by eapply rooted_lt).
  rewrite (bool_decide_true (b < _)%N) by (by eapply target_lt). cbn [andb guard rbind].
  eexists. split; [reflexivity|]. split; [apply set_target_size|].
  assert (forall m, target (set_target b a s) m = if decide (m = b) then Some a else target s m) as Ht.
  { intros m. rewrite target_set. case_decide; [|done]. by rewrite bool_decide_true by (by eapply target_lt). }
  assert (a <> b) as Hab by (intros ->; destruct Hne; eapply rooted_det; [done|by apply root_rooted]).
  assert (forall n z, rooted s n z -> z <> b -> rooted (set_target b a s) n z) as Hkeep.
  { intros n z [k H] Hz. induction H as [z Hr|n t k z Hn Hnt Hs IH].
    - apply root_rooted. rewrite Ht. by case_decide.
    - eapply rooted_step; [|by apply IH]. rewrite Ht. case_decide as E; [|done]. subst n. congruence. }
  assert (rooted (set_target b a s) b ra) as Hbra.
  { eapply rooted_step; [|by eapply (Hkeep a)]. rewrite Ht. by case_decide. }
  assert (forall n z, rooted s n z -> rooted (set_target b a s) n (if decide (z = b) then ra else z)) as Hto.
  { intros n z H. case_decide as E; [|by apply Hkeep]. subst z. destruct H as [k H].
    remember b as b' eqn:Eb in H. induction H as [z Hr|n t k z Hn Hnt Hs IH]; subst; [done|].
    eapply rooted_step; [|by apply IH]. rewrite Ht. case_decide as E; [|done]. subst n. congruence. }
  intros n y. split; [|intros (z & Hz & ->); by apply Hto].
  intros H. assert (exists z, rooted s n z) as [z Hz].
  { destruct H as [k H]. induction H as [y Hy|n t k y Hn Hnt Hs [z IH]].
    - rewrite Ht in Hy. case_decide; [|eexists; by apply root_rooted]. subst y. eexists. by apply root_rooted.
    - rewrite Ht in Hn. case_decide as E; [subst n; eexists; by apply root_rooted|].
      exists z. by eapply rooted_step. }
  exists z. split; [done|]. eapply rooted_det; [exact H|by apply Hto].
Qed.

(** No node has been merged. *)
Definition unmerged (s : AndersNodeFactory) : Prop := forall n, (n < getNumNodes s)%N -> target s n = Some n.

Lemma unmerged_init : unmerged AndersNodeFactory_init.
Proof.
  intros n Hn. change (getNumNodes AndersNodeFactory_init) with 4%N in Hn.
  assert (n = 0 \/ n = 1 \/ n = 2 \/ n = 3)%N as [->|[->|[->| ->]]] by lia; reflexivity.
Qed.

Lemma getNumNodes_push t v s : getNumNodes (push_node t v s) = N.succ (getNumNodes s).
Proof. unfold getNumNodes, push_node. cbn [nodes set_nodes]. rewrite length_app. simpl. lia. Qed.

Lemma node_at_push t v s n :
  node_at (push_node t v s) n =
    if decide (n = getNumNodes s) then Some (new_node t (getNumNodes s) v) else node_at s n.
Proof.
  unfold node_at, push_node. cbn [nodes set_nodes]. case_decide as E.
  - subst n. unfold getNumNodes. rewrite Nat2N.id, lookup_app_r, Nat.sub_diag by lia. done.
  - destruct (decide (N.to_nat n < length (nodes s))%nat) as [Hl|Hl].
    + by rewrite lookup_app_l.
    + rewrite !lookup_ge_None_2; [done|lia|]. rewrite length_app. simpl. unfold getNumNodes in E. lia.
Qed.

Lemma unmerged_push t v s : unmerged s -> unmerged (push_node t v s).
Proof.
  intros H n Hn. rewrite getNumNodes_push in Hn. unfold target. rewrite node_at_push.
  case_decide as E; [by subst n|]. apply H. lia.
Qed.

(** C32 (nodes). In a forest of merge targets both versions of getMergeTarget
    return the representative of a node; path compression changes no
    representative; and merging a representative into a node of another tree
    makes exactly the nodes of its tree answer with the other representative,
    again in a forest. *)
Theorem merge_targets s a b ra fuel :
  forest s -> rooted s a ra -> target s b = Some b -> ra <> b -> (length (nodes s) <= fuel)%nat ->
  exists s', mergeNode a b s = Ok s' /\ forest s' /\
    forall n r, rooted s n r ->
      getMergeTarget_const fuel n s = Ok r /\
      (exists s1, getMergeTarget fuel n s = Ok (r, s1) /\ forest s1 /\ forall x y, rooted s1 x y <-> rooted s x y) /\
      getMergeTarget_const fuel n s' = Ok (if decide (r = b) then ra else r) /\
      (exists s1, getMergeTarget fuel n s' = Ok (if decide (r = b) then ra else r, s1) /\
         forall x y, rooted s1 x y <-> rooted s' x y).
Proof.
  intros HF Ha Hb Hne Hf. destruct (mergeNode_rooted s a b ra Ha Hb Hne) as (s' & E & Hl & Hr).
  exists s'. split; [done|]. split.
  - intros n Hn. unfold getNumNodes in Hn. rewrite Hl in Hn. destruct (HF n Hn) as [r Hnr].
    exists (if decide (r = b) then ra else r). apply Hr. eauto.
  - intros n r Hn. destruct (getMergeTarget_finds s n r fuel Hn Hf) as (H1 & s1 & H2 & H3 & H4).
    split; [done|]. split.
    { exists s1. split; [done|]. split; [|done]. intros x Hx. unfold getNumNodes in Hx. rewrite H3 in Hx.
      destruct (HF x Hx) as [y Hy]. exists y. by apply H4. }
    destruct (getMergeTarget_finds s' n (if decide (r = b) then ra else r) fuel) as (H5 & s2 & H6 & _ & H7).
    + apply Hr. eauto.
    + by rewrite Hl.
    + split; [done|]. by exists s2.
Qed.

Lemma merge_targets_witness :
  let s := set_target 2 1 (set_target 1 0 AndersNodeFactory_init) in
  exists s', mergeNode 3 0 s = Ok s' /\ getMergeTarget_const 4 2 s' = Ok 3%N.
Proof.
  intros s.
  assert (rooted s 3 3 /\ rooted s 0 0) as [H3 H0] by (split; apply root_rooted; reflexivity).
  assert (rooted s 1 0) as H1 by (apply (rooted_step s 1 0); [reflexivity|exact H0]).
  assert (rooted s 2 0) as H2 by (apply (rooted_step s 2 1); [reflexivity|exact H1]).
  destruct (merge_targets s 3 0 3 4) as (s' & E & _ & H).
  - intros n Hn. assert (n = 0 \/ n = 1 \/ n = 2 \/ n = 3)%N as Hc by (change (getNumNodes s) with 4%N in Hn; lia).
    destruct Hc as [->|[->|[->| ->]]]; eauto.
  - exact H3.
  - reflexivity.
  - discriminate.
  - simpl. lia.
  - exists s'. split; [exact E|]. apply (H 2%N 0%N H2).
Defined.
