(* ===== verification/AndersenSolver.v ===== *)
(** The solver of the pointer analysis (ConstraintSolving.cpp, CycleDetector.h,
    SparseBitVectorGraph.h): points-to sets are propagated along the edges of
    the constraint graph, with two optimisations that merge nodes, hybrid
    (offline) and lazy (online) cycle detection. *)
From stdpp Require Import sorting.
From S2P Require Import Prelude IR AndersenNodes.

(** The elements of a set in increasing order, as [std::set] and
    [SparseBitVector] give them. Where the code iterates over a [DenseSet] or an
    [unordered_map] the order is not specified; here it is this one as well. *)
Definition sorted (X : gset NodeIndex) : list NodeIndex := merge_sort N.le (elements X).

Lemma elem_of_sorted X n : n ∈ sorted X <-> n ∈ X.
Proof. unfold sorted. rewrite merge_sort_Permutation. apply elem_of_elements. Qed.

(** * The constraint graph *)

Record ConstraintGraphNode := {
  cgIdx : NodeIndex;
  copyEdges : gset NodeIndex;
  loadEdges : gset NodeIndex;
  storeEdges : gset NodeIndex
}.

Definition new_cnode (i : NodeIndex) : ConstraintGraphNode :=
  {| cgIdx := i; copyEdges := ∅; loadEdges := ∅; storeEdges := ∅ |}.

(** The three kinds of edges. *)
Inductive EdgeKind := CopyEdge | LoadEdge | StoreEdge.

#[export] Instance EdgeKind_eq_dec : EqDecision EdgeKind.
Proof. solve_decision. Defined.

Definition edges (k : EdgeKind) (n : ConstraintGraphNode) : gset NodeIndex :=
  match k with CopyEdge => copyEdges n | LoadEdge => loadEdges n | StoreEdge => storeEdges n end.

Definition set_edges (k : EdgeKind) (X : gset NodeIndex) (n : ConstraintGraphNode) : ConstraintGraphNode :=
  match k with
  | CopyEdge => {| cgIdx := cgIdx n; copyEdges := X; loadEdges := loadEdges n; storeEdges := storeEdges n |}
  | LoadEdge => {| cgIdx := cgIdx n; copyEdges := copyEdges n; loadEdges := X; storeEdges := storeEdges n |}
  | StoreEdge => {| cgIdx := cgIdx n; copyEdges := copyEdges n; loadEdges := loadEdges n; storeEdges := X |}
  end.

Definition mergeEdges (n other : ConstraintGraphNode) : ConstraintGraphNode :=
  {| cgIdx := cgIdx n; copyEdges := copyEdges n ∪ copyEdges other;
     loadEdges := loadEdges n ∪ loadEdges other; storeEdges := storeEdges n ∪ storeEdges other |}.

(** [replaceCopyEdge] and its two likes: nothing when the old edge is not there. *)
Definition replaceEdge (k : EdgeKind) (oldIdx newIdx : NodeIndex) (n : ConstraintGraphNode) : ConstraintGraphNode :=
  if bool_decide (oldIdx ∈ edges k n) then set_edges k ({[ newIdx ]} ∪ edges k n ∖ {[ oldIdx ]}) n else n.

Abbreviation ConstraintGraph := (gmap NodeIndex ConstraintGraphNode).

(** [insertCopyEdge] and its two likes: whether the edge is new, and the graph. *)
Definition insertEdge (k : EdgeKind) (src dst : NodeIndex) (g : ConstraintGraph) : bool * ConstraintGraph :=
  match g !! src with
  | None => (true, <[src := set_edges k {[ dst ]} (new_cnode src)]> g)
  | Some n => (negb (bool_decide (dst ∈ edges k n)), <[src := set_edges k ({[ dst ]} ∪ edges k n) n]> g)
  end.

(** [ConstraintGraph::mergeNodes]: without a node for [dst], that of [src] is
    copied with its index. *)
Definition mergeNodes (dst src : NodeIndex) (g : ConstraintGraph) : ConstraintGraph :=
  match g !! src with
  | None => g
  | Some srcNode =>
      match g !! dst with
      | None => <[dst := srcNode]> g
      | Some n => <[dst := mergeEdges n srcNode]> g
      end
  end.

Definition getOrInsertNode (i : NodeIndex) (g : ConstraintGraph) : ConstraintGraph :=
  match g !! i with None => <[i := new_cnode i]> g | Some _ => g end.

(** * The state of the solver *)

Abbreviation PtsGraph := (gmap NodeIndex (gset NodeIndex)).

(** The worklists hold each node once, so the set beside each queue is the set of
    its elements. *)
Record Solver := {
  factory : AndersNodeFactory;
  cGraph : ConstraintGraph;
  ptsGraph : PtsGraph;
  nextWorkList : list NodeIndex;
  cycleCandidates : gset NodeIndex;
  checkedEdges : gset (NodeIndex * NodeIndex)
}.

Definition with_factory (f : AndersNodeFactory) (st : Solver) : Solver :=
  {| factory := f; cGraph := cGraph st; ptsGraph := ptsGraph st; nextWorkList := nextWorkList st;
     cycleCandidates := cycleCandidates st; checkedEdges := checkedEdges st |}.
Definition with_cGraph (g : ConstraintGraph) (st : Solver) : Solver :=
  {| factory := factory st; cGraph := g; ptsGraph := ptsGraph st; nextWorkList := nextWorkList st;
     cycleCandidates := cycleCandidates st; checkedEdges := checkedEdges st |}.
Definition with_pts (p : PtsGraph) (st : Solver) : Solver :=
  {| factory := factory st; cGraph := cGraph st; ptsGraph := p; nextWorkList := nextWorkList st;
     cycleCandidates := cycleCandidates st; checkedEdges := checkedEdges st |}.
Definition with_next (l : list NodeIndex) (st : Solver) : Solver :=
  {| factory := factory st; cGraph := cGraph st; ptsGraph := ptsGraph st; nextWorkList := l;
     cycleCandidates := cycleCandidates st; checkedEdges := checkedEdges st |}.
Definition with_cycles (c : gset NodeIndex) (e : gset (NodeIndex * NodeIndex)) (st : Solver) : Solver :=
  {| factory := factory st; cGraph := cGraph st; ptsGraph := ptsGraph st; nextWorkList := nextWorkList st;
     cycleCandidates := c; checkedEdges := e |}.

(** [AndersWorkList::enqueue]. *)
Definition enqueue_list (elem : NodeIndex) (l : list NodeIndex) : list NodeIndex :=
  if bool_decide (elem ∈ l) then l else l ++ [elem].
Definition enqueue (elem : NodeIndex) (st : Solver) : Solver :=
  with_next (enqueue_list elem (nextWorkList st)) st.

(** [nodeFactory.getMergeTarget]. The fuel is that of its loop. *)
Definition mergeTgt (n : NodeIndex) (f : AndersNodeFactory) : res (NodeIndex * AndersNodeFactory) :=
  getMergeTarget (length (nodes f)) n f.

Definition findTarget (n : NodeIndex) (st : Solver) : res (NodeIndex * Solver) :=
  let* p := mergeTgt n (factory st) in Ok (p.1, with_factory p.2 st).

Definition pts (p : PtsGraph) (n : NodeIndex) : gset NodeIndex := default ∅ (p !! n).

(** [collapseNodes]. *)
Definition collapseNodes (dst src : NodeIndex) (st : Solver) : res Solver :=
  if bool_decide (dst = src) then Ok st
  else
    let* f := mergeNode dst src (factory st) in
    let p := match ptsGraph st !! src with
             | Some s => <[dst := pts (ptsGraph st) dst ∪ s]> (ptsGraph st)
             | None => ptsGraph st
             end in
    Ok {| factory := f; cGraph := delete src (mergeNodes dst src (cGraph st)); ptsGraph := delete src p;
          nextWorkList := nextWorkList st; cycleCandidates := cycleCandidates st;
          checkedEdges := checkedEdges st |}.

(** * The cycle detector: Nuutila's algorithm

    The code keys its tables by the addresses of the nodes; here they are keyed
    by the indices. *)

Record Detector (S : Type) := {
  sccStack : list NodeIndex;
  dfsNum : gmap NodeIndex N;
  inComponent : gset NodeIndex;
  timestamp : N;
  user : S
}.
Arguments sccStack {S} _.
Arguments dfsNum {S} _.
Arguments inComponent {S} _.
Arguments timestamp {S} _.
Arguments user {S} _.

Section CycleDetector.
Context {S : Type}.
Context (children : S -> NodeIndex -> list NodeIndex) (getRep : NodeIndex -> S -> res (NodeIndex * S)).
Context (processNodeOnCycle : NodeIndex -> NodeIndex -> S -> res S) (processCycleRepNode : NodeIndex -> S -> res S).

Definition Detector_init (u : S) : Detector S :=
  {| sccStack := []; dfsNum := ∅; inComponent := ∅; timestamp := 0; user := u |}.

Definition num (d : Detector S) (n : NodeIndex) : N := default 0%N (dfsNum d !! n).

(** [while (!sccStack.empty())] of [visit]. *)
Fixpoint pop_cycle (stack : list NodeIndex) (node : NodeIndex) (myTimeStamp : N) (d : Detector S) : res (Detector S) :=
  match stack with
  | [] => Ok {| sccStack := []; dfsNum := dfsNum d; inComponent := inComponent d; timestamp := timestamp d; user := user d |}
  | cycleNode :: rest =>
      if (num d cycleNode <? myTimeStamp)%N then
        Ok {| sccStack := stack; dfsNum := dfsNum d; inComponent := inComponent d; timestamp := timestamp d; user := user d |}
      else
        let* u := processNodeOnCycle cycleNode node (user d) in
        pop_cycle rest node myTimeStamp
          {| sccStack := rest; dfsNum := dfsNum d; inComponent := {[ cycleNode ]} ∪ inComponent d;
             timestamp := timestamp d; user := u |}
  end.

(** [visit]. *)
Fixpoint visit (fuel : nat) (node : NodeIndex) (d : Detector S) : res (Detector S) :=
  match fuel with
  | O => OutOfFuel
  | Datatypes.S fuel' =>
      let myTimeStamp := timestamp d in
      let* _ := guard (bool_decide (dfsNum d !! node = None)) in
      let d1 := {| sccStack := sccStack d; dfsNum := <[node := myTimeStamp]> (dfsNum d);
                   inComponent := inComponent d; timestamp := N.succ myTimeStamp; user := user d |} in
      let* d2 := rfold (fun d child =>
          let* p := getRep child (user d) in
          let d' := {| sccStack := sccStack d; dfsNum := dfsNum d; inComponent := inComponent d;
                       timestamp := timestamp d; user := p.2 |} in
          let* d'' := if bool_decide (dfsNum d' !! p.1 = None) then visit fuel' p.1 d' else Ok d' in
          if negb (bool_decide (p.1 ∈ inComponent d'')) && (num d'' p.1 <? num d'' node)%N then
            Ok {| sccStack := sccStack d''; dfsNum := <[node := num d'' p.1]> (dfsNum d'');
                  inComponent := inComponent d''; timestamp := timestamp d''; user := user d'' |}
          else Ok d'') (children (user d1) node) d1 in
      if negb (bool_decide (myTimeStamp = num d2 node)) then
        Ok {| sccStack := node :: sccStack d2; dfsNum := dfsNum d2; inComponent := inComponent d2;
              timestamp := timestamp d2; user := user d2 |}
      else
        let d3 := {| sccStack := sccStack d2; dfsNum := dfsNum d2; inComponent := {[ node ]} ∪ inComponent d2;
                     timestamp := timestamp d2; user := user d2 |} in
        let* d4 := pop_cycle (sccStack d3) node myTimeStamp d3 in
        let* u := processCycleRepNode node (user d4) in
        Ok {| sccStack := sccStack d4; dfsNum := dfsNum d4; inComponent := inComponent d4;
              timestamp := timestamp d4; user := u |}
  end.

(** Visiting the representative of a node that has not been. *)
Definition visit_rep (fuel : nat) (d : Detector S) (node : NodeIndex) : res (Detector S) :=
  let* p := getRep node (user d) in
  let d' := {| sccStack := sccStack d; dfsNum := dfsNum d; inComponent := inComponent d;
               timestamp := timestamp d; user := p.2 |} in
  if bool_decide (dfsNum d' !! p.1 = None) then visit fuel p.1 d' else Ok d'.

(** [runOnNode]. *)
Definition runOnNode (fuel : nat) (d : Detector S) (node : NodeIndex) : res (Detector S) :=
  let* _ := guard (bool_decide (sccStack d = [])) in
  let* d' := visit_rep fuel d node in
  let* _ := guard (bool_decide (sccStack d' = [])) in
  Ok d'.

(** [runOnGraph]; the tables are asserted empty at first. *)
Definition runOnGraph (fuel : nat) (graph_nodes : list NodeIndex) (d : Detector S) : res (Detector S) :=
  let* _ := guard (bool_decide (sccStack d = []) && bool_decide (dfsNum d = ∅) && bool_decide (inComponent d = ∅)) in
  let* d' := rfold (visit_rep fuel) graph_nodes d in
  let* _ := guard (bool_decide (sccStack d' = [])) in
  Ok d'.
End CycleDetector.

(** * Hybrid cycle detection, the offline part *)

(** A [SparseBitVectorGraph]: the successors of each node. *)
Abbreviation SparseBitVectorGraph := (gmap NodeIndex (gset NodeIndex)).

Definition sbv_getOrInsertNode (i : NodeIndex) (g : SparseBitVectorGraph) : SparseBitVectorGraph :=
  match g !! i with None => <[i := ∅]> g | Some _ => g end.

Definition sbv_insertEdge (src dst : NodeIndex) (g : SparseBitVectorGraph) : SparseBitVectorGraph :=
  <[src := {[ dst ]} ∪ default ∅ (g !! src)]> g.

Record OfflineCycleDetector := {
  offFactory : AndersNodeFactory;
  offlineGraph : SparseBitVectorGraph;
  collapseMap : gmap NodeIndex NodeIndex;
  mergeMap : gmap NodeIndex NodeIndex;
  scc : gset NodeIndex
}.

Definition off_set (f : AndersNodeFactory) (g : SparseBitVectorGraph) (s : gset NodeIndex) (o : OfflineCycleDetector) :
    OfflineCycleDetector :=
  {| offFactory := f; offlineGraph := g; collapseMap := collapseMap o; mergeMap := mergeMap o; scc := s |}.

(** [getRefNodeIndex]. *)
Definition getRefNodeIndex (f : AndersNodeFactory) (n : NodeIndex) : NodeIndex := (n + getNumNodes f)%N.

(** One constraint of [buildOfflineConstraintGraph]. *)
Definition offline_edge (o : OfflineCycleDetector) (c : AndersConstraint) : res OfflineCycleDetector :=
  let* p := mergeTgt (getSrc c) (offFactory o) in
  let* q := mergeTgt (getDest c) p.2 in
  let srcTgt := p.1 in let dstTgt := q.1 in let f := q.2 in
  let g := offlineGraph o in
  let g' := match cType c with
            | ADDR_OF => g
            | LOAD => sbv_insertEdge (getRefNodeIndex f srcTgt) dstTgt g
            | STORE => sbv_insertEdge srcTgt (getRefNodeIndex f dstTgt) g
            | COPY => sbv_insertEdge srcTgt dstTgt g
            end in
  Ok (off_set f g' (scc o) o).

Definition buildOfflineConstraintGraph (constraints : list AndersConstraint) (f : AndersNodeFactory) :
    res OfflineCycleDetector :=
  rfold offline_edge constraints
    {| offFactory := f; offlineGraph := ∅; collapseMap := ∅; mergeMap := ∅; scc := ∅ |}.

Definition off_getRep (i : NodeIndex) (o : OfflineCycleDetector) : res (NodeIndex * OfflineCycleDetector) :=
  Ok (i, off_set (offFactory o) (sbv_getOrInsertNode i (offlineGraph o)) (scc o) o).

Definition off_processNodeOnCycle (node rep : NodeIndex) (o : OfflineCycleDetector) : res OfflineCycleDetector :=
  Ok (off_set (offFactory o) (offlineGraph o) ({[ node ]} ∪ scc o) o).

(** [processCycleRepNode]: the reference nodes of the component go to the
    collapse map, the others to the merge map. *)
Definition off_processCycleRepNode (node : NodeIndex) (o : OfflineCycleDetector) : res OfflineCycleDetector :=
  if bool_decide (scc o = ∅) then Ok o
  else
    match sorted ({[ node ]} ∪ scc o) with
    | [] => Broken
    | repNode :: others =>
        let* _ := guard (repNode <? getNumNodes (offFactory o))%N in
        let o' := fold_left (fun o cycleNode =>
          if (getNumNodes (offFactory o) <? cycleNode)%N then
            {| offFactory := offFactory o; offlineGraph := offlineGraph o;
               collapseMap := <[(cycleNode - getNumNodes (offFactory o))%N := repNode]> (collapseMap o);
               mergeMap := mergeMap o; scc := scc o |}
          else
            {| offFactory := offFactory o; offlineGraph := offlineGraph o; collapseMap := collapseMap o;
               mergeMap := <[cycleNode := repNode]> (mergeMap o); scc := scc o |}) others o in
        Ok (off_set (offFactory o') (offlineGraph o') ∅ o')
    end.

Definition off_children (o : OfflineCycleDetector) (n : NodeIndex) : list NodeIndex :=
  sorted (default ∅ (offlineGraph o !! n)).

(** [OfflineCycleDetector::run]: what is left is the factory and the collapse
    map. *)
Definition OfflineCycleDetector_run (fuel : nat) (o : OfflineCycleDetector) :
    res (AndersNodeFactory * gmap NodeIndex NodeIndex) :=
  let* d := runOnGraph off_children off_getRep off_processNodeOnCycle off_processCycleRepNode fuel
              (sorted (dom (offlineGraph o))) (Detector_init o) in
  let o' := user d in
  let* f := rfold (fun f '(first, second) => mergeNode second first f) (map_to_list (mergeMap o')) (offFactory o') in
  Ok (f, collapseMap o').

(** * Building the constraint graph *)

Definition addConstraint (st : Solver) (c : AndersConstraint) : res Solver :=
  let* p := findTarget (getSrc c) st in
  let* q := findTarget (getDest c) p.2 in
  let srcTgt := p.1 in let dstTgt := q.1 in let st' := q.2 in
  Ok match cType c with
     | ADDR_OF => with_pts (<[dstTgt := {[ getSrc c ]} ∪ pts (ptsGraph st') dstTgt]> (ptsGraph st')) st'
     | LOAD => with_cGraph (insertEdge LoadEdge srcTgt dstTgt (cGraph st')).2 st'
     | STORE => with_cGraph (insertEdge StoreEdge dstTgt srcTgt (cGraph st')).2 st'
     | COPY => with_cGraph (insertEdge CopyEdge srcTgt dstTgt (cGraph st')).2 st'
     end.

Definition buildConstraintGraph (constraints : list AndersConstraint) (st : Solver) : res Solver :=
  rfold addConstraint constraints st.

(** * Lazy cycle detection *)

Definition on_getRep (i : NodeIndex) (st : Solver) : res (NodeIndex * Solver) :=
  let* p := findTarget i st in
  Ok (p.1, with_cGraph (getOrInsertNode p.1 (cGraph p.2)) p.2).

Definition on_processNodeOnCycle (node rep : NodeIndex) (st : Solver) : res Solver :=
  let* p := findTarget rep st in
  let* q := findTarget node p.2 in
  collapseNodes p.1 q.1 q.2.

Definition on_children (st : Solver) (n : NodeIndex) : list NodeIndex :=
  sorted (match cGraph st !! n with Some c => copyEdges c | None => ∅ end).

(** [OnlineCycleDetector::run] on the candidates. *)
Definition OnlineCycleDetector_run (fuel : nat) (st : Solver) : res Solver :=
  let* d := rfold (runOnNode on_children on_getRep on_processNodeOnCycle (fun _ st => Ok st) fuel)
              (sorted (cycleCandidates st)) (Detector_init st) in
  Ok (user d).

(** * [solveConstraints] *)

Section Solve.
Context (EnableHCD EnableLCD : bool) (collapse : gmap NodeIndex NodeIndex).

(** The hybrid part for [node]: what it points to is merged with its collapse
    target. [true] when [node] itself is gone. The set is read once, before the
    merges. *)
Definition hcd_collapse (node : NodeIndex) (ptsSet : gset NodeIndex) (st : Solver) : res (bool * Solver) :=
  match collapse !! node with
  | None => Ok (false, st)
  | Some collapseTarget =>
      let* p := findTarget collapseTarget st in
      let ctRep := p.1 in
      let* r := rfold (fun '(mergeSelf, st) v =>
          let* q := findTarget v st in
          if bool_decide (q.1 = node) then Ok (true, q.2)
          else let* st' := collapseNodes ctRep q.1 q.2 in Ok (mergeSelf, st'))
        (sorted ptsSet) (false, p.2) in
      if fst r then
        let* st' := collapseNodes ctRep node r.2 in
        if bool_decide (ctRep = node) then Ok (false, st') else Ok (true, enqueue ctRep st')
      else Ok (false, r.2)
  end.

Definition node_edges (k : EdgeKind) (node : NodeIndex) (st : Solver) : gset NodeIndex :=
  match cGraph st !! node with Some c => edges k c | None => ∅ end.

(** The updates remembered in an [updateMap]. *)
Definition apply_updates (k : EdgeKind) (node : NodeIndex) (updateMap : list (NodeIndex * NodeIndex)) (st : Solver) : Solver :=
  with_cGraph (alter (fun c => fold_left (fun c '(o, n) => replaceEdge k o n c) updateMap c) node (cGraph st)) st.

Definition remember (tgtNode dst : NodeIndex) (u : list (NodeIndex * NodeIndex)) : list (NodeIndex * NodeIndex) :=
  if bool_decide (tgtNode = dst) then u else u ++ [(dst, tgtNode)].

(** A new copy edge puts its source on the next worklist. *)
Definition addCopyEdge (src dst : NodeIndex) (st : Solver) : Solver :=
  let '(isNew, g) := insertEdge CopyEdge src dst (cGraph st) in
  let st' := with_cGraph g st in if isNew then enqueue src st' else st'.

(** One load edge, one store edge, of [node] for the pointee [vRep]. *)
Definition load_step (vRep : NodeIndex) (p : Solver * list (NodeIndex * NodeIndex)) (dst : NodeIndex) :
    res (Solver * list (NodeIndex * NodeIndex)) :=
  let* q := findTarget dst p.1 in
  Ok (addCopyEdge vRep q.1 q.2, remember q.1 dst p.2).

Definition store_step (vRep : NodeIndex) (p : Solver * list (NodeIndex * NodeIndex)) (dst : NodeIndex) :
    res (Solver * list (NodeIndex * NodeIndex)) :=
  let* q := findTarget dst p.1 in
  Ok (addCopyEdge q.1 vRep q.2, remember q.1 dst p.2).

(** One pointee of [node]. *)
Definition pointee_step (node : NodeIndex) (st : Solver) (v : NodeIndex) : res Solver :=
  let* p := findTarget v st in
  let vRep := p.1 in
  let* l := rfold (load_step vRep) (sorted (node_edges LoadEdge node p.2)) (p.2, []) in
  let st1 := apply_updates LoadEdge node l.2 l.1 in
  let* s := rfold (store_step vRep) (sorted (node_edges StoreEdge node st1)) (st1, []) in
  Ok (apply_updates StoreEdge node s.2 s.1).

(** One copy edge of [node]. *)
Definition copy_step (node : NodeIndex) (ptsSet : gset NodeIndex) (p : Solver * list (NodeIndex * NodeIndex))
    (dst : NodeIndex) : res (Solver * list (NodeIndex * NodeIndex)) :=
  let* q := findTarget dst p.1 in
  let tgtNode := q.1 in let st := q.2 in
  if bool_decide (node = tgtNode) then Ok (st, p.2)
  else
    let tgtPtsSet := pts (ptsGraph st) tgtNode in
    let newSet := tgtPtsSet ∪ ptsSet in
    let st1 := with_pts (<[tgtNode := newSet]> (ptsGraph st)) st in
    let st2 :=
      if negb (bool_decide (newSet = tgtPtsSet)) then enqueue tgtNode st1
      else if EnableLCD && negb (bool_decide ((node, tgtNode) ∈ checkedEdges st1)) && bool_decide (ptsSet = newSet) then
        with_cycles ({[ tgtNode ]} ∪ cycleCandidates st1) ({[ (node, tgtNode) ]} ∪ checkedEdges st1) st1
      else st1 in
    Ok (st2, remember tgtNode dst p.2).

(** The body of the inner loop for the node dequeued. *)
Definition process_node (st0 : Solver) (dequeued : NodeIndex) : res Solver :=
  let* p := findTarget dequeued st0 in
  let node := p.1 in let st := p.2 in
  match cGraph st !! node, ptsGraph st !! node with
  | Some _, Some ptsSet =>
      let* h := if EnableHCD then hcd_collapse node ptsSet st else Ok (false, st) in
      if fst h then Ok h.2
      else
        let* st1 := rfold (pointee_step node) (sorted (pts (ptsGraph h.2) node)) h.2 in
        let* c := rfold (copy_step node (pts (ptsGraph st1) node)) (sorted (node_edges CopyEdge node st1)) (st1, []) in
        Ok (apply_updates CopyEdge node c.2 c.1)
  | _, _ => Ok st
  end.

(** The outer loop, on the current worklist. In the inner loop nodes are only
    enqueued on the other worklist, so it goes through the current one once. *)
Fixpoint solve_loop (fuel : nat) (currWorkList : list NodeIndex) (st : Solver) : res Solver :=
  match currWorkList with
  | [] => Ok st
  | _ :: _ =>
      match fuel with
      | O => OutOfFuel
      | Datatypes.S fuel' =>
          let* st1 :=
            if EnableLCD && negb (bool_decide (cycleCandidates st = ∅)) then
              let* st' := OnlineCycleDetector_run fuel st in Ok (with_cycles ∅ (checkedEdges st') st')
            else Ok st in
          let* st2 := rfold process_node currWorkList st1 in
          solve_loop fuel' (nextWorkList st2) (with_next [] st2)
      end
  end.
End Solve.

(** The first worklist. *)
Definition initial_worklist (st : Solver) : res (list NodeIndex * Solver) :=
  rfold (fun '(l, st) node =>
    let* p := findTarget node st in
    if bool_decide (p.1 = node) && bool_decide (is_Some (cGraph p.2 !! node))
    then Ok (enqueue_list node l, p.2) else Ok (l, p.2))
    (sorted (dom (ptsGraph st))) ([], st).

(** [solveConstraints]: the factory and the points-to graph. *)
Definition solveConstraints (EnableHCD EnableLCD : bool) (fuel : nat) (constraints : list AndersConstraint)
    (nodeFactory : AndersNodeFactory) : res (AndersNodeFactory * PtsGraph) :=
  let* o := buildOfflineConstraintGraph constraints nodeFactory in
  let* h := if EnableHCD then OfflineCycleDetector_run fuel o else Ok (offFactory o, ∅) in
  let* st := buildConstraintGraph constraints
    {| factory := h.1; cGraph := ∅; ptsGraph := ∅; nextWorkList := []; cycleCandidates := ∅; checkedEdges := ∅ |} in
  let* w := initial_worklist st in
  let* st' := solve_loop EnableHCD EnableLCD h.2 fuel w.1 w.2 in
  Ok (factory st', ptsGraph st').
