(* ===== verification/AndersenSound.v ===== *)
(** What the solver computes: without the merging of cycles, exactly the least
    points-to relation that satisfies the constraints. *)
From S2P Require Import Prelude IR AndersenNodes AndersenSolver.

Section Solution.
Context (C : list AndersConstraint) (f : AndersNodeFactory).

Local Abbreviation ADDR d s := (mk_constraint ADDR_OF d s ∈ C).
Local Abbreviation COPYC d s := (mk_constraint COPY d s ∈ C).
Local Abbreviation LOADC d s := (mk_constraint LOAD d s ∈ C).
Local Abbreviation STOREC d s := (mk_constraint STORE d s ∈ C).

(** The reference: inclusion constraints as rules. *)
Inductive points_to : NodeIndex -> NodeIndex -> Prop :=
| pt_addr d s : ADDR d s -> points_to d s
| pt_copy d s o : COPYC d s -> points_to s o -> points_to d o
| pt_load d s v o : LOADC d s -> points_to s v -> points_to v o -> points_to d o
| pt_store d s v o : STOREC d s -> points_to d v -> points_to s o -> points_to v o.

(** A copy edge the rules justify. *)
Definition flows (a b : NodeIndex) : Prop :=
  COPYC b a \/ (exists n, LOADC b n /\ points_to n a) \/ (exists n, STOREC n a /\ points_to n b).

Lemma flows_points_to a b o : flows a b -> points_to a o -> points_to b o.
Proof.
  intros [H|[(n & H & Hp)|(n & H & Hp)]] Ho; [by eapply pt_copy|by eapply pt_load|by eapply pt_store].
Qed.

(** The hypotheses: nodes of the constraints exist, none has been merged. *)
Hypothesis Hrange : forall c, c ∈ C -> (getDest c < getNumNodes f)%N /\ (getSrc c < getNumNodes f)%N.
Hypothesis Hfresh : unmerged f.

Local Abbreviation inr n := (n < getNumNodes f)%N.
Local Abbreviation copies st n := (node_edges CopyEdge n st).
Local Abbreviation loads st n := (node_edges LoadEdge n st).
Local Abbreviation stores st n := (node_edges StoreEdge n st).
Local Abbreviation ptset st n := (pts (ptsGraph st) n).

Lemma range_dest t d s : mk_constraint t d s ∈ C -> inr d.
Proof. intros H. apply (Hrange _ H). Qed.
Lemma range_src t d s : mk_constraint t d s ∈ C -> inr s.
Proof. intros H. apply (Hrange _ H). Qed.
#[local] Hint Resolve range_dest range_src : core.

Lemma points_to_range n o : points_to n o -> inr n /\ inr o.
Proof. induction 1; naive_solver eauto using range_dest, range_src. Qed.

Lemma flows_range a b : flows a b -> inr a /\ inr b.
Proof.
  intros [H|[(n & H & Hp)|(n & H & Hp)]]; [split; eauto| |]; apply points_to_range in Hp as [? ?]; split; eauto.
Qed.

Lemma mergeTgt_same n : inr n -> mergeTgt n f = Ok (n, f).
Proof.
  intros H. unfold mergeTgt, getMergeTarget. rewrite (Hfresh n H). cbn [of_option rbind].
  by rewrite bool_decide_true.
Qed.

Lemma findTarget_same n st : factory st = f -> inr n -> findTarget n st = Ok (n, st).
Proof.
  intros Hst Hn. unfold findTarget. rewrite Hst, (mergeTgt_same n Hn). cbn [rbind fst snd].
  destruct st; simpl in *; subst; done.
Qed.

(** * What a step of the solver may do *)

(** A fact of [st'] that is none of [st]. *)
Definition new_fact (st st' : Solver) : Prop :=
  exists n m, (m ∈ copies st' n /\ m ∉ copies st n) \/ (m ∈ ptset st' n /\ m ∉ ptset st n).

(** Edges and points-to sets grow; the nodes concerned are enqueued, and nothing
    is without such a growth. *)
Record progress (st st' : Solver) : Prop := {
  pg_factory : factory st' = factory st;
  pg_load : forall n, loads st' n = loads st n;
  pg_store : forall n, stores st' n = stores st n;
  pg_copy : forall n, copies st n ⊆ copies st' n;
  pg_pts : forall n, ptset st n ⊆ ptset st' n;
  pg_copy_next : forall n m, m ∈ copies st' n -> m ∈ copies st n \/ n ∈ nextWorkList st';
  pg_pts_next : forall n m, m ∈ ptset st' n -> m ∈ ptset st n \/ n ∈ nextWorkList st';
  pg_next : forall n, n ∈ nextWorkList st -> n ∈ nextWorkList st';
  pg_new : forall n, n ∈ nextWorkList st' -> n ∈ nextWorkList st \/ new_fact st st'
}.

Lemma progress_refl st : progress st st.
Proof. split; auto. Qed.

Lemma new_fact_mono st st1 st2 : progress st st1 -> progress st1 st2 -> new_fact st st1 \/ new_fact st1 st2 -> new_fact st st2.
Proof.
  intros H1 H2 [(n & m & [[Hi Hn]|[Hi Hn]])|(n & m & [[Hi Hn]|[Hi Hn]])]; exists n, m.
  - left. split; [by apply (pg_copy _ _ H2)|done].
  - right. split; [by apply (pg_pts _ _ H2)|done].
  - left. split; [done|]. intros ?. by apply Hn, (pg_copy _ _ H1).
  - right. split; [done|]. intros ?. by apply Hn, (pg_pts _ _ H1).
Qed.

Lemma progress_trans st st1 st2 : progress st st1 -> progress st1 st2 -> progress st st2.
Proof.
  intros H1 H2. split.
  - rewrite (pg_factory _ _ H2). apply H1.
  - intros n. rewrite (pg_load _ _ H2). apply H1.
  - intros n. rewrite (pg_store _ _ H2). apply H1.
  - intros n m Hm. by apply (pg_copy _ _ H2), (pg_copy _ _ H1).
  - intros n m Hm. by apply (pg_pts _ _ H2), (pg_pts _ _ H1).
  - intros n m [Hm|?]%(pg_copy_next _ _ H2); [|by right].
    apply (pg_copy_next _ _ H1) in Hm as [?|?]; [by left|right; by apply H2].
  - intros n m [Hm|?]%(pg_pts_next _ _ H2); [|by right].
    apply (pg_pts_next _ _ H1) in Hm as [?|?]; [by left|right; by apply H2].
  - intros n Hn. by apply H2, H1.
  - intros n [Hn|Hn]%(pg_new _ _ H2).
    + apply (pg_new _ _ H1) in Hn as [?|?]; [by left|right; eapply new_fact_mono; eauto].
    + right. eapply new_fact_mono; eauto.
Qed.

(** What holds of the state at any time. *)
Record precise (st : Solver) : Prop := {
  pr_factory : factory st = f;
  pr_next : forall n, n ∈ nextWorkList st -> inr n;
  pr_pts : forall n o, o ∈ ptset st n -> points_to n o;
  pr_copy : forall a b, b ∈ copies st a -> flows a b;
  pr_load : forall n d, d ∈ loads st n <-> LOADC d n;
  pr_store : forall n s, s ∈ stores st n <-> STOREC n s
}.

(** Nothing is left to do for [n]. *)
Definition saturated (st : Solver) (n : NodeIndex) : Prop :=
  (forall v d, v ∈ ptset st n -> d ∈ loads st n -> d ∈ copies st v) /\
  (forall v s, v ∈ ptset st n -> s ∈ stores st n -> v ∈ copies st s) /\
  (forall b, b ∈ copies st n -> ptset st n ⊆ ptset st b).

Lemma saturated_progress st st' n :
  progress st st' -> saturated st n -> n ∈ nextWorkList st' \/ saturated st' n.
Proof.
  intros H (S1 & S2 & S3). destruct (decide (n ∈ nextWorkList st')) as [?|Hn]; [by left|right].
  assert (forall v, v ∈ ptset st' n -> v ∈ ptset st n) as Hp by (intros v [?|?]%(pg_pts_next _ _ H); done).
  split; [|split].
  - intros v d Hv%Hp Hd. rewrite (pg_load _ _ H) in Hd. apply (pg_copy _ _ H). by apply S1.
  - intros v s Hv%Hp Hs. rewrite (pg_store _ _ H) in Hs. apply (pg_copy _ _ H). by apply S2.
  - intros b [Hb|?]%(pg_copy_next _ _ H) v Hv%Hp; [|done]. apply (pg_pts _ _ H). by apply (S3 b Hb).
Qed.

(** * Its steps *)

Lemma elem_of_enqueue_list x n l : x ∈ enqueue_list n l <-> x = n \/ x ∈ l.
Proof.
  unfold enqueue_list. case_bool_decide as E; [split; [auto|by intros [->|?]]|].
  rewrite elem_of_app, list_elem_of_singleton. tauto.
Qed.

Lemma edges_set k k' X c : edges k (set_edges k' X c) = if decide (k = k') then X else edges k c.
Proof. destruct k, k'; done. Qed.

Lemma node_edges_insert k k' src dst n st st' :
  cGraph st' = (insertEdge k' src dst (cGraph st)).2 ->
  node_edges k n st' = if decide (n = src /\ k = k') then {[ dst ]} ∪ node_edges k n st else node_edges k n st.
Proof.
  intros E. unfold node_edges. rewrite E. unfold insertEdge.
  destruct (cGraph st !! src) as [c|] eqn:Ec; cbn [snd].
  - destruct (decide (n = src)) as [->|Hn].
    + rewrite (lookup_insert_eq (cGraph st)), Ec, edges_set.
      destruct (decide (k = k')) as [->|?]; [by rewrite decide_True|rewrite decide_False by (by intros [_ ?]); done].
    + rewrite (lookup_insert_ne (cGraph st)) by done. by rewrite decide_False by (by intros [? _]).
  - destruct (decide (n = src)) as [->|Hn].
    + rewrite (lookup_insert_eq (cGraph st)), Ec, edges_set.
      destruct (decide (k = k')) as [->|?]; [rewrite decide_True by done; set_solver|].
      rewrite decide_False by (by intros [_ ?]). by destruct k.
    + rewrite (lookup_insert_ne (cGraph st)) by done. by rewrite decide_False by (by intros [? _]).
Qed.

Lemma insertEdge_new k src dst st :
  (insertEdge k src dst (cGraph st)).1 = negb (bool_decide (dst ∈ node_edges k src st)).
Proof.
  unfold insertEdge, node_edges. destruct (cGraph st !! src) as [c|]; [done|].
  by rewrite bool_decide_false by set_solver.
Qed.

Lemma addCopyEdge_spec src dst st :
  precise st -> flows src dst ->
  progress st (addCopyEdge src dst st) /\ precise (addCopyEdge src dst st) /\
  dst ∈ copies (addCopyEdge src dst st) src /\ ptsGraph (addCopyEdge src dst st) = ptsGraph st.
Proof.
  intros HP Hfl. pose proof (insertEdge_new CopyEdge src dst st) as Hnew. unfold addCopyEdge.
  destruct (insertEdge CopyEdge src dst (cGraph st)) as [isNew g] eqn:E. cbn [fst] in Hnew.
  set (st' := if isNew then enqueue src (with_cGraph g st) else with_cGraph g st).
  assert (cGraph st' = (insertEdge CopyEdge src dst (cGraph st)).2) as Hg by (rewrite E; unfold st'; by destruct isNew).
  pose proof (fun k n => node_edges_insert k CopyEdge src dst n st st' Hg) as He.
  assert (forall n, loads st' n = loads st n) as Hl by (intros n; rewrite He; by rewrite decide_False by (by intros [_ ?])).
  assert (forall n, stores st' n = stores st n) as Hs by (intros n; rewrite He; by rewrite decide_False by (by intros [_ ?])).
  assert (ptsGraph st' = ptsGraph st) as Hp by (unfold st'; by destruct isNew).
  assert (factory st' = factory st) as Hf by (unfold st'; by destruct isNew).
  assert (forall n m, m ∈ copies st' n <-> (n = src /\ m = dst) \/ m ∈ copies st n) as Hc.
  { intros n m. rewrite He. destruct (decide (n = src /\ CopyEdge = CopyEdge)) as [[-> _]|Ed].
    - rewrite elem_of_union, elem_of_singleton. tauto.
    - split; [by right|]. intros [[-> _]|?]; [by destruct Ed|done]. }
  assert (forall x, x ∈ nextWorkList st' <-> (isNew = true /\ x = src) \/ x ∈ nextWorkList st) as Hn.
  { intros x. unfold st', enqueue. destruct isNew; cbn [nextWorkList with_next with_cGraph].
    - rewrite elem_of_enqueue_list. clear. naive_solver.
    - clear. naive_solver. }
  split; [split|split; [split|split]]; try done.
  - intros n m Hm. apply Hc. by right.
  - intros n m. by rewrite Hp.
  - intros n m [[-> ->]|Hm]%Hc; [|by left]. destruct (decide (dst ∈ copies st src)) as [?|Hd]; [by left|].
    right. apply Hn. left. by rewrite Hnew, bool_decide_false.
  - intros n m. rewrite Hp. by left.
  - intros x Hx. apply Hn. by right.
  - intros x [[HN ->]|Hx]%Hn; [|by left]. right. exists src, dst. left. split; [apply Hc; by left|].
    rewrite Hnew in HN. by apply negb_true_iff, bool_decide_eq_false in HN.
  - rewrite Hf. apply HP.
  - intros x [[_ ->]|Hx]%Hn; [by apply (flows_range src dst)|by apply HP].
  - intros n o. rewrite Hp. apply HP.
  - intros a b [[-> ->]|Hb]%Hc; [done|]. by apply HP.
  - intros n d. rewrite Hl. apply HP.
  - intros n d. rewrite Hs. apply HP.
  - apply Hc. by left.
Qed.

Lemma remember_same n u : remember n n u = u.
Proof. unfold remember. by rewrite bool_decide_true. Qed.

Lemma apply_no_updates k n st : apply_updates k n [] st = st.
Proof.
  unfold apply_updates. cbn [fold_left]. rewrite alter_id by done. by destruct st.
Qed.

(** The load edges of a node for a pointee [v], the store edges likewise: [pair]
    says which way the copy edge goes. *)
Lemma edges_fold (step : Solver * list (NodeIndex * NodeIndex) -> NodeIndex -> res (Solver * list (NodeIndex * NodeIndex)))
    (from to : NodeIndex -> NodeIndex) l :
  (forall st d, factory st = f -> d ∈ l -> step (st, []) d = Ok (addCopyEdge (from d) (to d) st, [])) ->
  (forall d, d ∈ l -> flows (from d) (to d)) -> forall st, precise st ->
  exists st', rfold step l (st, []) = Ok (st', []) /\ progress st st' /\ precise st' /\
    (forall d, d ∈ l -> to d ∈ copies st' (from d)) /\ ptsGraph st' = ptsGraph st.
Proof.
  induction l as [|d l IH]; intros Hstep Hfl st HP.
  - exists st. split; [done|]. split; [apply progress_refl|]. set_solver.
  - cbn [rfold]. rewrite Hstep by (apply HP || apply list_elem_of_here). cbn [rbind].
    destruct (addCopyEdge_spec (from d) (to d) st HP) as (H1 & H2 & H3 & H4); [apply Hfl, list_elem_of_here|].
    destruct (IH) with (st := addCopyEdge (from d) (to d) st) as (st' & E & G1 & G2 & G3 & G4).
    + intros st0 x ? Hx. apply Hstep; [done|by apply list_elem_of_further].
    + intros x Hx. apply Hfl. by apply list_elem_of_further.
    + done.
    + exists st'. split; [done|]. split; [by eapply progress_trans|]. split; [done|]. split; [|congruence].
      intros x [->|Hx]%elem_of_cons; [by apply (pg_copy _ _ G1)|by apply G3].
Qed.

Lemma pointee_step_spec n v st :
  precise st -> v ∈ ptset st n ->
  exists st', pointee_step n st v = Ok st' /\ progress st st' /\ precise st' /\ ptsGraph st' = ptsGraph st /\
    (forall d, d ∈ loads st' n -> d ∈ copies st' v) /\ (forall s, s ∈ stores st' n -> v ∈ copies st' s).
Proof.
  intros HP Hv. pose proof (pr_pts _ HP n v Hv) as Hnv. destruct (points_to_range _ _ Hnv) as [Hn Hvr].
  unfold pointee_step. rewrite (findTarget_same v st) by (done || apply HP). cbn [rbind fst snd].
  destruct (edges_fold (load_step v) (fun _ => v) (fun d => d) (sorted (loads st n))) with (st := st)
    as (st1 & E1 & G1 & P1 & C1 & T1); [| |done|].
  { intros st0 d Hf Hd. rewrite elem_of_sorted in Hd. apply (pr_load _ HP) in Hd.
    unfold load_step. cbn [fst snd]. rewrite (findTarget_same d st0 Hf) by eauto. cbn [rbind fst snd].
    by rewrite remember_same. }
  { intros d Hd. rewrite elem_of_sorted in Hd. apply (pr_load _ HP) in Hd. right. left. eauto. }
  rewrite E1. cbn [rbind fst snd]. rewrite apply_no_updates.
  destruct (edges_fold (store_step v) (fun s => s) (fun _ => v) (sorted (stores st1 n))) with (st := st1)
    as (st2 & E2 & G2 & P2 & C2 & T2); [| |done|].
  { intros st0 d Hf Hd. rewrite elem_of_sorted in Hd. apply (pr_store _ P1) in Hd.
    unfold store_step. cbn [fst snd]. rewrite (findTarget_same d st0 Hf) by eauto. cbn [rbind fst snd].
    by rewrite remember_same. }
  { intros d Hd. rewrite elem_of_sorted in Hd. apply (pr_store _ P1) in Hd. right. right. eauto. }
  rewrite E2. cbn [rbind fst snd]. rewrite apply_no_updates.
  exists st2. split; [done|]. split; [by eapply progress_trans|]. split; [done|]. split; [congruence|]. split.
  - intros d Hd. rewrite (pg_load _ _ G2), (pg_load _ _ G1) in Hd.
    apply (pg_copy _ _ G2), C1. by apply elem_of_sorted.
  - intros s Hs. rewrite (pg_store _ _ G2) in Hs. apply C2. by apply elem_of_sorted.
Qed.

(** All the pointees of [n]. *)
Lemma pointees_spec n l : forall st, precise st -> (forall v, v ∈ l -> v ∈ ptset st n) ->
  exists st', rfold (pointee_step n) l st = Ok st' /\ progress st st' /\ precise st' /\ ptsGraph st' = ptsGraph st /\
    (forall v d, v ∈ l -> d ∈ loads st' n -> d ∈ copies st' v) /\
    (forall v s, v ∈ l -> s ∈ stores st' n -> v ∈ copies st' s).
Proof.
  induction l as [|v l IH]; intros st HP Hl.
  - exists st. split; [done|]. split; [apply progress_refl|]. split; [done|]. split; [done|].
    split; intros ? ? ?%not_elem_of_nil; done.
  - destruct (pointee_step_spec n v st HP) as (st1 & E1 & G1 & P1 & T1 & L1 & S1); [apply Hl, list_elem_of_here|].
    destruct (IH st1 P1) as (st2 & E2 & G2 & P2 & T2 & L2 & S2).
    { intros x Hx. rewrite T1. apply Hl. by apply list_elem_of_further. }
    exists st2. cbn [rfold]. rewrite E1. split; [done|]. split; [by eapply progress_trans|]. split; [done|].
    split; [congruence|]. split.
    + intros x d [->|Hx]%elem_of_cons Hd; [|by apply L2]. apply (pg_copy _ _ G2), L1.
      by rewrite <- (pg_load _ _ G2).
    + intros x s [->|Hx]%elem_of_cons Hs; [|by apply S2]. apply (pg_copy _ _ G2), S1.
      by rewrite <- (pg_store _ _ G2).
Qed.

Lemma pts_insert (p : PtsGraph) n X m : pts (<[n := X]> p) m = if decide (m = n) then X else pts p m.
Proof.
  unfold pts. destruct (decide (m = n)) as [->|Hm].
  - by rewrite (lookup_insert_eq p).
  - by rewrite (lookup_insert_ne p).
Qed.

(** One copy edge, lazy cycle detection off. *)
Lemma copy_step_spec n d st :
  precise st -> d ∈ copies st n -> n <> d ->
  exists st', copy_step false n (ptset st n) (st, []) d = Ok (st', []) /\ progress st st' /\ precise st' /\
    ptset st n ⊆ ptset st' d /\ cGraph st' = cGraph st /\ (forall m, m <> d -> ptset st' m = ptset st m).
Proof.
  intros HP Hd Hne. pose proof (pr_copy _ HP _ _ Hd) as Hfl. destruct (flows_range _ _ Hfl) as [_ Hdr].
  unfold copy_step. cbn [fst snd]. rewrite (findTarget_same d st) by (done || apply HP). cbn [rbind fst snd].
  rewrite bool_decide_false by done. rewrite remember_same.
  set (X := ptset st d ∪ ptset st n). cbn [andb]. eexists. split; [reflexivity|].
  set (st1 := with_pts (<[d := X]> (ptsGraph st)) st).
  set (st' := if negb (bool_decide (X = ptset st d)) then enqueue d st1 else st1).
  assert (forall m, ptset st' m = if decide (m = d) then X else ptset st m) as Hp.
  { intros m. rewrite <- pts_insert. unfold st'. by destruct (negb _). }
  assert (cGraph st' = cGraph st) as Hg by (unfold st'; by destruct (negb _)).
  assert (factory st' = factory st) as Hf by (unfold st'; by destruct (negb _)).
  assert (forall k m, node_edges k m st' = node_edges k m st) as He by (intros k m; unfold node_edges; by rewrite Hg).
  assert (forall x, x ∈ nextWorkList st' <-> (X <> ptset st d /\ x = d) \/ x ∈ nextWorkList st) as Hn.
  { intros x. unfold st', enqueue. case_bool_decide as EX; cbn [negb nextWorkList with_next st1 with_pts].
    - tauto.
    - rewrite elem_of_enqueue_list. tauto. }
  split; [split|split; [split|split; [|split]]]; try done.
  - intros m. rewrite He. done.
  - intros m. rewrite Hp. case_decide as E; [|done]. subst m. unfold X. apply union_subseteq_l.
  - intros m x Hx. left. by rewrite <- He.
  - intros m x Hx. rewrite Hp in Hx. case_decide as E; [|by left]. subst m.
    destruct (decide (x ∈ ptset st d)) as [?|Hxd]; [by left|right]. apply Hn. left. split; [|done].
    intros EX. by rewrite EX in Hx.
  - intros x Hx. apply Hn. by right.
  - intros x [[HX ->]|Hx]%Hn; [|by left]. right.
    assert (exists o, o ∈ X /\ o ∉ ptset st d) as (o & Ho & Hod).
    { destruct (decide (X ⊆ ptset st d)) as [Hs|Hs].
      - destruct HX. apply set_eq. intros o. split; [apply Hs|]. unfold X. rewrite elem_of_union. by left.
      - destruct (decide (X ∖ ptset st d = ∅)) as [Hz|Hz].
        + destruct Hs. by apply empty_difference_subseteq_L.
        + apply set_choose_L in Hz as [o Ho]. exists o. by apply elem_of_difference in Ho. }
    exists d, o. right. split; [|done]. rewrite Hp. by rewrite decide_True.
  - rewrite Hf. apply HP.
  - intros x [[_ ->]|Hx]%Hn; [done|by apply HP].
  - intros m o Ho. rewrite Hp in Ho. case_decide as E; [|by apply HP]. subst m. unfold X in Ho.
    apply elem_of_union in Ho as [Ho|Ho]; [by apply HP|]. eapply flows_points_to; [exact Hfl|by apply HP].
  - intros a b. rewrite He. apply HP.
  - intros m x. rewrite He. apply HP.
  - intros m x. rewrite He. apply HP.
  - rewrite Hp, decide_True by done. unfold X. apply union_subseteq_r.
  - intros m Hm. rewrite Hp. by rewrite decide_False.
Qed.

(** All the copy edges of [n]. *)
Lemma copies_spec n X l : forall st, precise st -> ptset st n = X -> (forall d, d ∈ l -> d ∈ copies st n) ->
  exists st', rfold (copy_step false n X) l (st, []) = Ok (st', []) /\ progress st st' /\ precise st' /\
    cGraph st' = cGraph st /\ ptset st' n = X /\ (forall d, d ∈ l -> X ⊆ ptset st' d).
Proof.
  induction l as [|d l IH]; intros st HP HX Hl.
  - exists st. split; [done|]. split; [apply progress_refl|]. do 3 (split; [done|]). intros ? ?%not_elem_of_nil. done.
  - pose proof (Hl d (list_elem_of_here _ _)) as Hd.
    assert (exists st1, copy_step false n X (st, []) d = Ok (st1, []) /\ progress st st1 /\ precise st1 /\
      cGraph st1 = cGraph st /\ ptset st1 n = X /\ X ⊆ ptset st1 d) as (st1 & E1 & G1 & P1 & C1 & N1 & S1).
    { destruct (decide (n = d)) as [->|Hne].
      - exists st. assert (inr d) as Hdr by (apply (flows_range d d), (pr_copy _ HP), Hd).
        unfold copy_step. cbn [fst snd].
        rewrite (findTarget_same d st) by (done || apply HP). cbn [rbind fst snd]. rewrite bool_decide_true by done.
        split; [done|]. split; [apply progress_refl|]. do 3 (split; [done|]). by rewrite HX.
      - subst X. destruct (copy_step_spec n d st HP Hd Hne) as (st1 & E1 & G1 & P1 & S1 & C1 & O1).
        exists st1. do 4 (split; [done|]). split; [by apply O1|done]. }
    destruct (IH st1 P1 N1) as (st2 & E2 & G2 & P2 & C2 & N2 & S2).
    { intros x Hx. unfold node_edges. rewrite C1. apply (Hl x). by apply list_elem_of_further. }
    exists st2. cbn [rfold]. rewrite E1. split; [done|]. split; [by eapply progress_trans|]. split; [done|].
    split; [congruence|]. split; [done|]. intros x [->|Hx]%elem_of_cons; [|by apply S2].
    etransitivity; [exact S1|]. apply (pg_pts _ _ G2).
Qed.

(** After its turn a node is saturated or on the next worklist. *)
Lemma process_node_spec collapse n st :
  precise st -> inr n ->
  exists st', process_node false false collapse st n = Ok st' /\ progress st st' /\ precise st' /\
    (n ∈ nextWorkList st' \/ saturated st' n).
Proof.
  intros HP Hn. unfold process_node. rewrite (findTarget_same n st) by (done || apply HP). cbn [rbind fst snd].
  destruct (cGraph st !! n) as [c|] eqn:Ec; [destruct (ptsGraph st !! n) as [ps|] eqn:Ep|].
  - cbn [rbind fst snd].
    destruct (pointees_spec n (sorted (ptset st n)) st HP) as (st1 & E1 & G1 & P1 & T1 & L1 & S1).
    { intros v. by rewrite elem_of_sorted. }
    rewrite E1. cbn [rbind].
    destruct (copies_spec n (ptset st1 n) (sorted (copies st1 n)) st1 P1 eq_refl) as (st2 & E2 & G2 & P2 & C2 & N2 & S2).
    { intros d. by rewrite elem_of_sorted. }
    rewrite E2. cbn [rbind fst snd]. rewrite apply_no_updates. exists st2. split; [done|].
    split; [by eapply progress_trans|]. split; [done|]. right.
    assert (forall k m, node_edges k m st2 = node_edges k m st1) as He by (intros k m; unfold node_edges; by rewrite C2).
    split; [|split].
    + intros v d Hv Hd. rewrite He in Hd |- *. apply L1; [|done]. apply elem_of_sorted. by rewrite <- T1, <- N2.
    + intros v s Hv Hs. rewrite He in Hs |- *. apply S1; [|done]. apply elem_of_sorted. by rewrite <- T1, <- N2.
    + intros b Hb. rewrite N2. apply S2. apply elem_of_sorted. by rewrite He in Hb.
  - exists st. split; [done|]. split; [apply progress_refl|]. split; [done|]. right.
    assert (ptset st n = ∅) as Hpn by (unfold pts; by rewrite Ep).
    unfold saturated. rewrite Hpn. split; [|split]; [set_solver..|]. intros b _. apply empty_subseteq.
  - exists st. split; [done|]. split; [apply progress_refl|]. split; [done|]. right.
    assert (forall k, node_edges k n st = ∅) as He by (intros k; unfold node_edges; by rewrite Ec).
    unfold saturated. rewrite !He. split; [|split]; set_solver.
Qed.

(** One round over the current worklist. *)
Definition pending (W : list NodeIndex) (st : Solver) : Prop :=
  forall n, n ∈ W \/ n ∈ nextWorkList st \/ saturated st n.

Lemma solver_round collapse W : forall st, precise st -> (forall n, n ∈ W -> inr n) -> pending W st ->
  exists st', rfold (process_node false false collapse) W st = Ok st' /\ progress st st' /\ precise st' /\ pending [] st'.
Proof.
  induction W as [|n W IH]; intros st HP HW Hs.
  - exists st. split; [done|]. split; [apply progress_refl|]. done.
  - destruct (process_node_spec collapse n st HP) as (st1 & E1 & G1 & P1 & S1); [apply HW, list_elem_of_here|].
    destruct (IH st1 P1) as (st2 & E2 & G2 & P2 & S2).
    + intros x Hx. apply HW. by apply list_elem_of_further.
    + intros m. destruct (decide (m = n)) as [->|Hm]; [by right|].
      destruct (Hs m) as [HmW|[Hmn|Hms]].
      * left. by apply elem_of_cons in HmW as [?|?].
      * right. left. by apply G1.
      * right. by apply (saturated_progress st st1).
    + exists st2. cbn [rfold]. rewrite E1. split; [done|]. split; [by eapply progress_trans|]. done.
Qed.

(** * The rounds end *)

Local Abbreviation K := (N.to_nat (getNumNodes f)).

(** All there may be to find out: a copy edge or a pointee for each pair. *)
Definition universe : list (bool * N * N) :=
  b ← [true; false]; x ← seq 0 K; y ← seq 0 K; [(b, N.of_nat x, N.of_nat y)].

Definition holds (st : Solver) (t : bool * N * N) : bool :=
  if t.1.1 then bool_decide (t.2 ∈ copies st t.1.2) else bool_decide (t.2 ∈ ptset st t.1.2).

Definition found (st : Solver) : nat := length (List.filter (holds st) universe).

Lemma universe_length : length universe = (2 * K * K)%nat.
Proof.
  assert (forall {A B : Type} (g : A -> list B) n l, (forall a, length (g a) = n) -> length (l ≫= g) = (length l * n)%nat) as Hb.
  { intros A B g n l Hg. induction l as [|a l IH]; [done|]. cbn [mbind list_bind]. rewrite length_app, IH, Hg. simpl. lia. }
  unfold universe. rewrite (Hb _ _ _ (K * K)%nat); [simpl length; lia|]. intros b.
  rewrite (Hb _ _ _ K); [by rewrite length_seq|]. intros x.
  rewrite (Hb _ _ _ 1%nat); [rewrite length_seq; lia|done].
Qed.

Lemma elem_of_universe b x y : inr x -> inr y -> (b, x, y) ∈ universe.
Proof.
  intros Hx Hy. unfold universe. apply list_elem_of_bind. exists b. split; [|destruct b; set_solver].
  apply list_elem_of_bind. exists (N.to_nat x). split; [|apply elem_of_seq; lia].
  apply list_elem_of_bind. exists (N.to_nat y). split; [|apply elem_of_seq; lia].
  rewrite !N2Nat.id. apply list_elem_of_here.
Qed.

Lemma found_bound st : (found st <= 2 * K * K)%nat.
Proof. rewrite <- universe_length. apply List.filter_length_le. Qed.

Lemma found_grows st st' : progress st st' -> precise st' -> new_fact st st' -> (found st < found st')%nat.
Proof.
  intros HG HP (n & m & Hnew). assert (exists t, t ∈ universe /\ holds st t = false /\ holds st' t = true) as (t & Ht & H0 & H1).
  { destruct Hnew as [[Hi Hn]|[Hi Hn]].
    - exists (true, n, m). split; [|split; [by apply bool_decide_eq_false|by apply bool_decide_eq_true]].
      apply elem_of_universe; by apply (flows_range n m), (pr_copy _ HP).
    - exists (false, n, m). split; [|split; [by apply bool_decide_eq_false|by apply bool_decide_eq_true]].
      apply elem_of_universe; by apply (points_to_range n m), (pr_pts _ HP). }
  unfold found. apply filter_length_lt with (x := t); [|by apply list_elem_of_In|done|done].
  intros [[b x] y] _. unfold holds. cbn [fst snd]. destruct b; rewrite !bool_decide_eq_true.
  - apply (pg_copy _ _ HG).
  - apply (pg_pts _ _ HG).
Qed.

Lemma solve_loop_spec collapse fuel : forall W st,
  precise st -> (forall n, n ∈ W -> inr n) -> pending W st -> nextWorkList st = [] ->
  (W = [] \/ 2 * K * K - found st < fuel)%nat ->
  exists st', solve_loop false false collapse fuel W st = Ok st' /\ precise st' /\ (forall n, saturated st' n) /\
    (forall n, ptset st n ⊆ ptset st' n) /\ (forall n, copies st n ⊆ copies st' n).
Proof.
  induction fuel as [|fuel IH]; intros [|n0 W] st HP HW HS Hnx Hf; cbn [solve_loop];
    try (exists st; split; [done|]; split; [done|]; split; [|done]; intros n;
         destruct (HS n) as [Hn|[Hn|?]]; [set_solver|rewrite Hnx in Hn; set_solver|done]).
  { destruct Hf as [?|?]; [done|lia]. }
  cbn [andb rbind].
  destruct (solver_round collapse (n0 :: W) st HP HW HS) as (st1 & E1 & G1 & P1 & S1). rewrite E1. cbn [rbind].
  destruct (IH (nextWorkList st1) (with_next [] st1)) as (st' & E' & P' & S' & T' & C').
  - destruct P1 as [A B D F G H]. split; try done. intros n ?%not_elem_of_nil. done.
  - apply P1.
  - intros n. destruct (S1 n) as [?%not_elem_of_nil|[?|?]]; [done|by left|by right; right].
  - done.
  - destruct (nextWorkList st1) as [|x l] eqn:Ex; [by left|right]. destruct Hf as [?|Hf]; [done|].
    assert (new_fact st st1) as Hnew.
    { destruct (pg_new _ _ G1 x) as [Hx|?]; [rewrite Ex; apply list_elem_of_here| |done].
      rewrite Hnx in Hx. set_solver. }
    pose proof (found_grows st st1 G1 P1 Hnew). pose proof (found_bound st1).
    change (found (with_next [] st1)) with (found st1). lia.
  - exists st'. split; [exact E'|]. split; [done|]. split; [done|]. split; intros n.
    + etransitivity; [apply (pg_pts _ _ G1)|apply T'].
    + etransitivity; [apply (pg_copy _ _ G1)|apply C'].
Qed.

(** * The first state *)

(** The state that holds the constraints [l]. *)
Record built (l : list AndersConstraint) (st : Solver) : Prop := {
  bu_factory : factory st = f;
  bu_next : nextWorkList st = [];
  bu_pts : forall d s, s ∈ ptset st d <-> mk_constraint ADDR_OF d s ∈ l;
  bu_dom : forall n, is_Some (ptsGraph st !! n) -> exists s, mk_constraint ADDR_OF n s ∈ l;
  bu_copy : forall a b, b ∈ copies st a <-> mk_constraint COPY b a ∈ l;
  bu_load : forall n d, d ∈ loads st n <-> mk_constraint LOAD d n ∈ l;
  bu_store : forall n s, s ∈ stores st n <-> mk_constraint STORE n s ∈ l
}.

Lemma node_edges_added k k' src dst n m st st' :
  cGraph st' = (insertEdge k' src dst (cGraph st)).2 ->
  m ∈ node_edges k n st' <-> (k = k' /\ n = src /\ m = dst) \/ m ∈ node_edges k n st.
Proof.
  intros E. rewrite (node_edges_insert k k' src dst n st st' E).
  destruct (decide (n = src /\ k = k')) as [[-> ->]|Hd].
  - rewrite elem_of_union, elem_of_singleton. tauto.
  - split; [by right|]. intros [(-> & -> & _)|?]; [by destruct Hd|done].
Qed.

Lemma addConstraint_built l st c :
  built l st -> c ∈ C -> exists st', addConstraint st c = Ok st' /\ built (l ++ [c]) st'.
Proof.
  intros [B1 B2 B3 B4 B5 B6 B7] Hc. destruct (Hrange c Hc) as [Hd Hs]. unfold addConstraint.
  rewrite (findTarget_same (getSrc c) st B1 Hs). cbn [rbind fst snd].
  rewrite (findTarget_same (getDest c) st B1 Hd). cbn [rbind fst snd].
  eexists. split; [reflexivity|]. destruct c as [t d s]. cbn [cType getDest getSrc] in *.
  assert (forall t' d' s', (mk_constraint t' d' s' ∈ l ++ [mk_constraint t d s]) <->
     (t' = t /\ d' = d /\ s' = s) \/ mk_constraint t' d' s' ∈ l) as Hin.
  { intros t' d' s'. rewrite elem_of_app, list_elem_of_singleton. split.
    - intros [?|[= -> -> ->]]; auto.
    - intros [(-> & -> & ->)|?]; auto. }
  destruct t.
  - split; try done; unfold with_pts; cbn [ptsGraph cGraph].
    + intros d' s'. rewrite pts_insert, (Hin _ _ _), <- B3. destruct (decide (d' = d)) as [->|Hne].
      * rewrite elem_of_union, elem_of_singleton. tauto.
      * tauto.
    + intros n Hn. destruct (decide (n = d)) as [->|Hne]; [exists s; apply (Hin _ _ _); auto|].
      rewrite (lookup_insert_ne (ptsGraph st)) in Hn by done. destruct (B4 n Hn) as [s' ?].
      exists s'. apply (Hin _ _ _). by right.
    + intros a b. rewrite (Hin _ _ _), <- B5. unfold node_edges. cbn [cGraph]. naive_solver.
    + intros a b. rewrite (Hin _ _ _), <- B6. unfold node_edges. cbn [cGraph]. naive_solver.
    + intros a b. rewrite (Hin _ _ _), <- B7. unfold node_edges. cbn [cGraph]. naive_solver.
  - split; try done; cbn [ptsGraph].
    + intros d' s'. rewrite (Hin _ _ _), <- B3. naive_solver.
    + intros n Hn. destruct (B4 n Hn) as [s' ?]. exists s'. apply (Hin _ _ _). by right.
    + intros a b. rewrite (Hin _ _ _), <- B5. rewrite (node_edges_added _ CopyEdge s d) by reflexivity. tauto.
    + intros a b. rewrite (Hin _ _ _), <- B6. rewrite (node_edges_added _ CopyEdge s d) by reflexivity. naive_solver.
    + intros a b. rewrite (Hin _ _ _), <- B7. rewrite (node_edges_added _ CopyEdge s d) by reflexivity. naive_solver.
  - split; try done; cbn [ptsGraph].
    + intros d' s'. rewrite (Hin _ _ _), <- B3. naive_solver.
    + intros n Hn. destruct (B4 n Hn) as [s' ?]. exists s'. apply (Hin _ _ _). by right.
    + intros a b. rewrite (Hin _ _ _), <- B5. rewrite (node_edges_added _ LoadEdge s d) by reflexivity. naive_solver.
    + intros a b. rewrite (Hin _ _ _), <- B6. rewrite (node_edges_added _ LoadEdge s d) by reflexivity. tauto.
    + intros a b. rewrite (Hin _ _ _), <- B7. rewrite (node_edges_added _ LoadEdge s d) by reflexivity. naive_solver.
  - split; try done; cbn [ptsGraph].
    + intros d' s'. rewrite (Hin _ _ _), <- B3. naive_solver.
    + intros n Hn. destruct (B4 n Hn) as [s' ?]. exists s'. apply (Hin _ _ _). by right.
    + intros a b. rewrite (Hin _ _ _), <- B5. rewrite (node_edges_added _ StoreEdge d s) by reflexivity. naive_solver.
    + intros a b. rewrite (Hin _ _ _), <- B6. rewrite (node_edges_added _ StoreEdge d s) by reflexivity. naive_solver.
    + intros a b. rewrite (Hin _ _ _), <- B7. rewrite (node_edges_added _ StoreEdge d s) by reflexivity. tauto.
Qed.

Lemma build_built l : forall l0 st, built l0 st -> (forall c, c ∈ l -> c ∈ C) ->
  exists st', buildConstraintGraph l st = Ok st' /\ built (l0 ++ l) st'.
Proof.
  induction l as [|c l IH]; intros l0 st HB Hl.
  - exists st. by rewrite app_nil_r.
  - destruct (addConstraint_built l0 st c HB) as (st1 & E1 & H1); [apply Hl, list_elem_of_here|].
    destruct (IH (l0 ++ [c]) st1 H1) as (st' & E' & H'); [intros x Hx; apply Hl; by apply list_elem_of_further|].
    exists st'. unfold buildConstraintGraph in *. cbn [rfold]. rewrite E1. split; [done|].
    by rewrite <- app_assoc in H'.
Qed.

Lemma built_precise st : built C st -> precise st.
Proof.
  intros [B1 B2 B3 B4 B5 B6 B7]. split; [done| |..].
  - rewrite B2. intros n ?%not_elem_of_nil. done.
  - intros n o Ho%B3. by apply pt_addr.
  - intros a b Hb%B5. by left.
  - done.
  - done.
Qed.

Lemma initial_worklist_spec st : built C st ->
  exists W, initial_worklist st = Ok (W, st) /\ (forall n, n ∈ W -> inr n) /\
    (forall n, is_Some (ptsGraph st !! n) -> is_Some (cGraph st !! n) -> n ∈ W).
Proof.
  intros HB.
  assert (forall l W0, (forall n, n ∈ l -> inr n) -> (forall n, n ∈ W0 -> inr n) ->
    exists W, rfold (fun '(l, st) node =>
      let* p := findTarget node st in
      if bool_decide (p.1 = node) && bool_decide (is_Some (cGraph p.2 !! node))
      then Ok (enqueue_list node l, p.2) else Ok (l, p.2)) l (W0, st) = Ok (W, st) /\
      (forall n, n ∈ W -> inr n) /\ (forall n, n ∈ W0 -> n ∈ W) /\
      (forall n, n ∈ l -> is_Some (cGraph st !! n) -> n ∈ W)) as Hl.
  { induction l as [|n l IH]; intros W0 Hl HW.
    - exists W0. split; [done|]. split; [done|]. split; [done|]. intros n ?%not_elem_of_nil. done.
    - cbn [rfold]. rewrite (findTarget_same n st (bu_factory _ _ HB)) by (apply Hl, list_elem_of_here).
      cbn [rbind fst snd]. rewrite (bool_decide_true (n = n)) by done. cbn [andb].
      assert (forall x, x ∈ l -> inr x) as Hl' by (intros x Hx; apply Hl; by apply list_elem_of_further).
      case_bool_decide as Hc.
      + destruct (IH (enqueue_list n W0) Hl') as (W & E & H1 & H2 & H3).
        { intros x [->|Hx]%elem_of_enqueue_list; [apply Hl, list_elem_of_here|by apply HW]. }
        exists W. cbn [rbind]. split; [exact E|]. split; [done|]. split.
        * intros x Hx. apply H2, elem_of_enqueue_list. by right.
        * intros x [->|Hx]%elem_of_cons Hs; [apply H2, elem_of_enqueue_list; by left|by apply H3].
      + destruct (IH W0 Hl' HW) as (W & E & H1 & H2 & H3). exists W. cbn [rbind]. split; [exact E|].
        split; [done|]. split; [done|]. intros x [->|Hx]%elem_of_cons Hs; [by destruct Hc|by apply H3]. }
  destruct (Hl (sorted (dom (ptsGraph st))) []) as (W & E & H1 & _ & H3).
  - intros n Hn. rewrite elem_of_sorted, elem_of_dom in Hn. apply (bu_dom _ _ HB) in Hn as [s Hs]. eauto.
  - intros n ?%not_elem_of_nil. done.
  - exists W. split; [exact E|]. split; [done|]. intros n Hn. apply H3. by rewrite elem_of_sorted, elem_of_dom.
Qed.

Lemma offline_same l : (forall c, c ∈ l -> c ∈ C) -> forall o, offFactory o = f ->
  exists o', rfold offline_edge l o = Ok o' /\ offFactory o' = f.
Proof.
  induction l as [|c l IH]; intros Hl o Ho; [by exists o|]. cbn [rfold].
  destruct (Hrange c) as [Hd Hs]; [apply Hl, list_elem_of_here|].
  unfold offline_edge. rewrite Ho, (mergeTgt_same _ Hs). cbn [rbind fst snd]. rewrite (mergeTgt_same _ Hd).
  cbn [rbind fst snd]. apply IH; [intros x Hx; apply Hl; by apply list_elem_of_further|done].
Qed.

Lemma saturated_complete st :
  (forall n, saturated st n) -> (forall d s, ADDR d s -> s ∈ ptset st d) -> (forall d s, COPYC d s -> d ∈ copies st s) ->
  (forall n d, LOADC d n -> d ∈ loads st n) -> (forall n s, STOREC n s -> s ∈ stores st n) ->
  forall n o, points_to n o -> o ∈ ptset st n.
Proof.
  intros HS H1 H2 H3 H4. induction 1 as [d s H|d s o H _ IH|d s v o H _ IH1 _ IH2|d s v o H _ IH1 _ IH2].
  - by apply H1.
  - destruct (HS s) as (_ & _ & Hc). apply (Hc d); [by apply H2|done].
  - destruct (HS s) as (Hl & _ & _). destruct (HS v) as (_ & _ & Hc). apply (Hc d); [|done].
    by apply Hl; [|apply H3].
  - destruct (HS d) as (_ & Hst & _). destruct (HS s) as (_ & _ & Hc). apply (Hc v); [|done].
    by apply Hst; [|apply H4].
Qed.

Lemma solve_least fuel :
  (2 * K * K + 1 <= fuel)%nat ->
  exists p, solveConstraints false false fuel C f = Ok (f, p) /\ forall n o, o ∈ pts p n <-> points_to n o.
Proof.
  intros Hf. unfold solveConstraints, buildOfflineConstraintGraph.
  match goal with |- context [rfold offline_edge C ?o0] =>
    destruct (offline_same C (fun _ H => H) o0 eq_refl) as (off & Eo & Ho) end.
  rewrite Eo. cbn [rbind fst snd]. rewrite Ho.
  match goal with |- context [buildConstraintGraph C ?s0] => set (st0 := s0) end.
  destruct (build_built C [] st0) as (st & E & HB); [|done|].
  { split; try done.
    - intros d s. unfold pts. cbn [ptsGraph st0]. rewrite (lookup_empty d). set_solver.
    - intros n. cbn [ptsGraph st0]. rewrite (lookup_empty n). by intros [? ?].
    - intros a b. unfold node_edges. cbn [cGraph st0]. rewrite (lookup_empty a). set_solver.
    - intros a b. unfold node_edges. cbn [cGraph st0]. rewrite (lookup_empty a). set_solver.
    - intros a b. unfold node_edges. cbn [cGraph st0]. rewrite (lookup_empty a). set_solver. }
  rewrite E. cbn [rbind]. cbn [app] in HB. pose proof (built_precise st HB) as HP.
  destruct (initial_worklist_spec st HB) as (W & EW & HW1 & HW2). rewrite EW. cbn [rbind fst snd].
  destruct (solve_loop_spec ∅ fuel W st HP HW1) as (st' & E' & HP' & HS' & HT & HC).
  - intros n. destruct (cGraph st !! n) as [c|] eqn:Ec; [destruct (ptsGraph st !! n) as [x|] eqn:Ep|].
    + left. apply HW2; [by rewrite Ep|by rewrite Ec].
    + right. right. assert (ptset st n = ∅) as Hpn by (unfold pts; by rewrite Ep).
      unfold saturated. rewrite Hpn. split; [|split]; [set_solver..|]. intros b _. apply empty_subseteq.
    + right. right. assert (forall k, node_edges k n st = ∅) as He by (intros k; unfold node_edges; by rewrite Ec).
      unfold saturated. rewrite !He. split; [|split]; set_solver.
  - apply HB.
  - right. pose proof (found_bound st). lia.
  - rewrite E'. cbn [rbind]. exists (ptsGraph st'). rewrite (pr_factory _ HP'). split; [done|].
    intros n o. split; [apply HP'|]. apply saturated_complete; [done|..].
    + intros d s H. apply HT. by apply (bu_pts _ _ HB).
    + intros d s H. apply HC. by apply (bu_copy _ _ HB).
    + intros m d H. by apply (pr_load _ HP').
    + intros m s H. by apply (pr_store _ HP').
Qed.
(** C8 (solver). With both cycle detections off, the solver returns, merges
    nothing, and its points-to sets are exactly the least ones that satisfy the
    constraints. *)
Theorem solveConstraints_least fuel :
  (2 * K * K + 1 <= fuel)%nat ->
  exists p, solveConstraints false false fuel C f = Ok (f, p) /\ forall n o, o ∈ pts p n <-> points_to n o.
Proof. apply solve_least. Qed.
End Solution.

(** * Examples *)

#[local] Open Scope N_scope.

(** A factory with [n] further nodes. *)
Definition fresh_factory (n : nat) : AndersNodeFactory :=
  Nat.iter n (fun s => push_node OBJ_NODE None s) AndersNodeFactory_init.

Lemma fresh_unmerged n : unmerged (fresh_factory n).
Proof. induction n as [|n IH]; [exact unmerged_init|]. simpl. by apply unmerged_push. Qed.

(** [x = *n; *n = x; y = x; n = &v1; v2 = &o], and [&v2] reaches [n] through four
    copies; [n], [x], [y], [v1], [v2], [o] are the nodes 4 to 9. *)
Definition late_pointee : list AndersConstraint := [
  mk_constraint LOAD 5 4; mk_constraint STORE 4 5; mk_constraint COPY 6 5; mk_constraint ADDR_OF 4 7;
  mk_constraint ADDR_OF 8 9; mk_constraint COPY 10 13; mk_constraint COPY 11 10; mk_constraint COPY 12 11;
  mk_constraint COPY 4 12; mk_constraint ADDR_OF 13 8].

(** [x = *u; *u = x] where [u] is the universal pointer. *)
Definition universal_cycle : list AndersConstraint := [mk_constraint LOAD 4 0; mk_constraint STORE 0 4].

Ltac in_constraints := unfold late_pointee; repeat first [apply list_elem_of_here | apply list_elem_of_further].

Lemma late_derivation : points_to late_pointee 6 9.
Proof.
  assert (points_to late_pointee 4 8) as H.
  { apply (pt_copy _ 4 12 8); [in_constraints|]. apply (pt_copy _ 12 11 8); [in_constraints|].
    apply (pt_copy _ 11 10 8); [in_constraints|]. apply (pt_copy _ 10 13 8); [in_constraints|].
    apply pt_addr. in_constraints. }
  apply (pt_copy _ 6 5 9); [in_constraints|]. apply (pt_load _ 5 4 8 9); [in_constraints|done|].
  apply pt_addr. in_constraints.
Qed.

Lemma solveConstraints_witness : exists p,
  solveConstraints false false 400 late_pointee (fresh_factory 10) = Ok (fresh_factory 10, p) /\ 9 ∈ pts p 6.
Proof.
  destruct (solveConstraints_least late_pointee (fresh_factory 10)) with (fuel := 400%nat) as (p & E & H).
  - intros c Hc. unfold late_pointee in Hc. enum Hc; vm_compute; done.
  - exact (fresh_unmerged 10).
  - apply Nat.leb_le. vm_compute. reflexivity.
  - exists p. split; [exact E|]. apply H.
    exact late_derivation.
Defined.

(** With hybrid cycle detection, which is on by default, the answer
    can be too small: when a pointee found late is merged into its collapse
    target, the target, whose set grows, is not enqueued, and a node it flows to
    keeps its old set -- here the empty one, where the constraints give it a
    pointee. And a load and a store through the universal pointer that make a
    cycle abort the solver. *)
Example hcd_loses_pointees :
  points_to late_pointee 6 9 /\
  (exists f p, solveConstraints true true 400 late_pointee (fresh_factory 10) = Ok (f, p) /\
     getMergeTarget_const 20 6 f = Ok 6 /\ pts p 6 = ∅) /\
  solveConstraints true true 400 universal_cycle (fresh_factory 1) = Broken.
Proof.
  split; [|split].
  - exact late_derivation.
  - destruct (solveConstraints true true 400 late_pointee (fresh_factory 10)) as [[f p]| |] eqn:E;
      try (exfalso; vm_compute in E; discriminate).
    exists f, p. vm_compute in E. injection E as <- <-. split; [done|]. split; vm_compute; reflexivity.
  - vm_compute. reflexivity.
Qed.
