(* ===== verification/AndersenCollect.v ===== *)
(** The constraints of a module (ConstraintCollect.cpp, ExternalLibrary.cpp):
    one or more for each pointer instruction, call and global initializer. *)
From S2P Require Import Prelude IR AndersenNodes.

(** * What the collection reads of the module *)

(** The operand of an [inttoptr]: a [ptrtoint], a sum with one, or anything. *)
Inductive IntSource := PtrToInt (X : Value) | AddPtrToInt (X : Value) | OtherInt.

Inductive AOpcode :=
| Alloca
| Call (callee : option FuncId) (args : list Value)       (** and [Invoke] *)
| Ret (v : option Value)
| Load (p : Value)
| Store (v p : Value)
| GetElementPtr (p : Value)
| PHI (incoming : list Value)
| BitCast (v : Value)                                      (** and [AddrSpaceCast] *)
| IntToPtr (op : IntSource)
| Select (t e : Value)
| VAArg
| ExtractValue                                             (** and [InsertValue] *)
| Unimplemented                                            (** exception handling, atomics *)
| OtherOp.

Record AInstruction := { iId : ValueId; iOp : AOpcode }.

Record AFunction := {
  fId : FuncId;
  fName : string;
  fAddressTaken : bool;
  fDeclaration : bool;
  fIntrinsic : bool;
  fReturnsPointer : bool;
  fVarArg : bool;
  fArgs : list ValueId;
  fInsts : list AInstruction
}.

(** A global variable and its definitive initializer. *)
Record AGlobal := { gId : ValueId; gInit : option Constant }.

Record AModule := {
  mGlobals : list AGlobal;
  mFunctions : list AFunction;
  isPtrTy : ValueId -> bool      (** of arguments and instructions *)
}.

(** * Known library functions (ExternalLibrary.cpp) *)

Definition noopFuncs : list string := [
  "log"; "log10"; "exp"; "exp2"; "exp10"; "strcmp"; "strncmp"; "strlen";
  "atoi"; "atof"; "atol"; "atoll"; "remove"; "unlink"; "rename"; "memcmp";
  "free"; "execl"; "execlp"; "execle"; "execv"; "execvp"; "chmod"; "puts";
  "write"; "open"; "create"; "truncate"; "chdir"; "mkdir"; "rmdir"; "read";
  "pipe"; "wait"; "time"; "stat"; "fstat"; "lstat"; "strtod"; "strtof";
  "strtold"; "fopen"; "fdopen"; "fflush"; "feof"; "fileno"; "clearerr";
  "rewind"; "ftell"; "ferror"; "fgetc"; "fgetc"; "_IO_getc"; "fwrite";
  "fread"; "fgets"; "ungetc"; "fputc"; "fputs"; "putc"; "ftell"; "rewind";
  "_IO_putc"; "fseek"; "fgetpos"; "fsetpos"; "printf"; "fprintf"; "sprintf";
  "vprintf"; "vfprintf"; "vsprintf"; "scanf"; "fscanf"; "sscanf";
  "__assert_fail"; "modf"; "putchar"; "isalnum"; "isalpha"; "isascii";
  "isatty"; "isblank"; "iscntrl"; "isdigit"; "isgraph"; "islower"; "isprint";
  "ispunct"; "isspace"; "isupper"; "iswalnum"; "iswalpha"; "iswctype";
  "iswdigit"; "iswlower"; "iswspace"; "iswprint"; "iswupper"; "sin"; "cos";
  "sinf"; "cosf"; "asin"; "acos"; "tan"; "atan"; "fabs"; "pow"; "floor";
  "ceil"; "sqrt"; "sqrtf"; "hypot"; "random"; "tolower"; "toupper";
  "towlower"; "towupper"; "system"; "clock"; "exit"; "abort"; "gettimeofday";
  "settimeofday"; "sleep"; "ctime"; "strspn"; "strcspn"; "localtime";
  "strftime"; "qsort"; "popen"; "pclose"; "rand"; "rand_r"; "srand"; "seed48";
  "drand48"; "lrand48"; "srand48"; "__isoc99_sscanf"; "__isoc99_fscanf";
  "fclose"; "close"; "perror"; "strerror"; "__errno_location"; "__ctype_b_loc";
  "abs"; "difftime"; "setbuf"; "_ZdlPv"; "_ZdaPv";
  "fesetround"; "fegetround"; "fetestexcept"; "feraiseexcept";
  "feclearexcept"; "llvm.bswap.i16"; "llvm.bswap.i32"; "llvm.ctlz.i64";
  "llvm.lifetime.start"; "llvm.lifetime.end"; "llvm.stackrestore"; "memset";
  "llvm.memset.i32"; "llvm.memset.p0i8.i32"; "llvm.memset.i64";
  "llvm.memset.p0i8.i64"; "llvm.va_end"; "setrlimit"; "getrlimit"]%string.

Definition mallocFuncs : list string := [
  "malloc"; "valloc"; "calloc"; "_Znwj"; "_ZnwjRKSt9nothrow_t"; "_Znwm"; "_ZnwmRKSt9nothrow_t";
  "_Znaj"; "_ZnajRKSt9nothrow_t"; "_Znam"; "_ZnamRKSt9nothrow_t"; "strdup"; "strndup"; "getenv";
  "memalign"; "posix_memalign"]%string.

Definition reallocFuncs : list string := ["realloc"; "strtok"; "strtok_r"]%string.

Definition retArg0Funcs : list string := [
  "fgets"; "gets"; "stpcpy"; "strcat"; "strchr"; "strcpy"; "strerror_r"; "strncat"; "strncpy"; "strpbrk";
  "strptime"; "strrchr"; "strstr"; "getcwd"]%string.

Definition retArg1Funcs : list string := ["signal"]%string.

Definition retArg2Funcs : list string := ["freopen"]%string.

Definition memcpyFuncs : list string := [
  "llvm.memcpy.i32"; "llvm.memcpy.p0i8.p0i8.i32"; "llvm.memcpy.i64"; "llvm.memcpy.p0i8.p0i8.i64";
  "llvm.memmove.i32"; "llvm.memmove.p0i8.p0i8.i32"; "llvm.memmove.i64"; "llvm.memmove.p0i8.p0i8.i64";
  "memccpy"; "memmove"; "bcopy"]%string.

Definition convertFuncs : list string := ["strtod"; "strtof"; "strtol"; "strtold"; "strtoll"; "strtoul"]%string.

(** [lookupName]. *)
Definition lookupName (table : list string) (str : string) : bool := bool_decide (str ∈ table).

(** * Collecting *)

(** The factory and the constraints so far. *)
Abbreviation Collected := (AndersNodeFactory * list AndersConstraint)%type.

Definition emit (t : ConstraintType) (d s : NodeIndex) (st : Collected) : Collected :=
  (st.1, st.2 ++ [mk_constraint t d s]).

(** An index that is asserted to be valid. *)
Definition valid (r : res (option NodeIndex)) : res NodeIndex := let* o := r in of_option o.

Definition value_node (st : Collected) (v : Value) : res NodeIndex := valid (getValueNodeFor st.1 v).

Section Collect.
Context (M : AModule).

Definition isPointerTy (v : Value) : bool :=
  match v with Const c => isPointer c | Local x => isPtrTy M x end.

Definition isNull (v : Value) : bool := match v with Const ConstantPointerNull => true | _ => false end.

Definition find_function (F : FuncId) : option AFunction :=
  List.find (fun g => N.eqb (fId g) F) (mFunctions M).

Definition external (f : AFunction) : bool := fDeclaration f || fIntrinsic f.

(** [getArgOperand]. *)
Definition getArgOperand (args : list Value) (i : nat) : res Value := of_option (args !! i).

(** The return value of a call copied from an argument; [must] when the node of
    the call is asserted to be there. *)
Definition copy_return (must : bool) (cs : ValueId) (args : list Value) (i : nat) (st : Collected) : res (bool * Collected) :=
  let* ret := getValueNodeFor st.1 (Local cs) in
  match ret with
  | None => if must then Broken else Ok (true, st)
  | Some retIndex =>
      let* a := getArgOperand args i in
      let* argIndex := value_node st a in
      Ok (true, emit COPY retIndex argIndex st)
  end.

(** [addConstraintForExternalLibrary]: [parent] is the function the call is in. *)
Definition addConstraintForExternalLibrary (parent : AFunction) (cs : ValueId) (args : list Value) (f : AFunction)
    (st : Collected) : res (bool * Collected) :=
  let name := fName f in
  if lookupName noopFuncs name then Ok (true, st)
  else
    let isReallocLike := lookupName reallocFuncs name in
    let* nullArg0 := if isReallocLike then let* a := getArgOperand args 0 in Ok (isNull a) else Ok false in
    if lookupName mallocFuncs name || (isReallocLike && negb nullArg0) then
      let* o := createObjectNode (Some cs) st.1 in
      let st1 := (o.2, st.2) in
      let* ptr := getValueNodeFor st1.1 (Local cs) in
      match ptr with
      | Some ptrIndex => Ok (true, emit ADDR_OF ptrIndex o.1 st1)
      | None =>
          if bool_decide (name = "posix_memalign"%string) then
            let* a := getArgOperand args 0 in
            let* ptrIndex := value_node st1 a in
            Ok (true, emit STORE ptrIndex o.1 st1)
          else Broken
      end
    else if lookupName retArg0Funcs name || (isReallocLike && nullArg0) then copy_return false cs args 0 st
    else if lookupName retArg1Funcs name then copy_return true cs args 1 st
    else if lookupName retArg2Funcs name then copy_return true cs args 2 st
    else if lookupName memcpyFuncs name then
      let* a0 := getArgOperand args 0 in
      let* arg0Index := value_node st a0 in
      let* a1 := getArgOperand args 1 in
      let* arg1Index := value_node st a1 in
      let* t := createValueNode None st.1 in
      let st1 := emit STORE arg0Index t.1 (emit LOAD t.1 arg1Index (t.2, st.2)) in
      let* ret := getValueNodeFor st1.1 (Local cs) in
      Ok (true, match ret with Some retIndex => emit COPY retIndex arg0Index st1 | None => st1 end)
    else if lookupName convertFuncs name then
      let* a1 := getArgOperand args 1 in
      if isNull a1 then Ok (true, st)
      else
        let* a0 := getArgOperand args 0 in
        let* arg0Index := value_node st a0 in
        let* arg1Index := value_node st a1 in
        Ok (true, emit STORE arg0Index arg1Index st)
    else if bool_decide (name = "llvm.va_start"%string) then
      let* _ := guard (fVarArg parent) in
      let* a0 := getArgOperand args 0 in
      let* arg0Index := value_node st a0 in
      let* vaIndex := of_option (getVarargNodeFor st.1 (fId parent)) in
      Ok (true, emit ADDR_OF arg0Index vaIndex st)
    else Ok (false, st).

(** Every pointer argument gets the universal pointer. *)
Definition pollute_arg (st : Collected) (a : Value) : res Collected :=
  if isPointerTy a then
    let* argIndex := value_node st a in Ok (emit COPY argIndex getUniversalPtrNode st)
  else Ok st.

Definition pollute_args (args : list Value) (st : Collected) : res Collected := rfold pollute_arg args st.

(** The result of a call, when it is a pointer, from [src]. *)
Definition copy_result (cs : ValueId) (src : res NodeIndex) (st : Collected) : res Collected :=
  if isPtrTy M cs then
    let* retIndex := value_node st (Local cs) in
    let* s := src in
    Ok (emit COPY retIndex s st)
  else Ok st.

(** The first loop of [addArgumentConstraintForCall]: what is left of the actual
    arguments is that of the variable part. *)
Fixpoint match_args (formals : list ValueId) (actuals : list Value) (st : Collected) : res (list Value * Collected) :=
  match formals, actuals with
  | formal :: fs, actual :: rest =>
      let* st' :=
        if isPtrTy M formal then
          let* fIndex := value_node st (Local formal) in
          if isPointerTy actual then
            let* aIndex := value_node st actual in Ok (emit COPY fIndex aIndex st)
          else Ok (emit COPY fIndex getUniversalPtrNode st)
        else Ok st in
      match_args fs rest st'
  | _, _ => Ok (actuals, st)
  end.

(** An actual argument of the variable part. *)
Definition pass_vararg (f : AFunction) (st : Collected) (actual : Value) : res Collected :=
  if isPointerTy actual then
    let* aIndex := value_node st actual in
    let* vaIndex := of_option (getVarargNodeFor st.1 (fId f)) in
    Ok (emit COPY vaIndex aIndex st)
  else Ok st.

Definition addArgumentConstraintForCall (args : list Value) (f : AFunction) (st : Collected) : res Collected :=
  let* p := match_args (fArgs f) args st in
  if fVarArg f then rfold (pass_vararg f) p.1 p.2 else Ok p.2.

(** One candidate of an indirect call. *)
Definition indirect_candidate (parent : AFunction) (cs : ValueId) (args : list Value) (st : Collected) (f : AFunction) :
    res Collected :=
  let* funPtr := getValueNodeFor st.1 (Const (GlobalValue (fId f))) in
  match funPtr with
  | None => Ok st
  | Some _ =>
      if negb (fVarArg f) && negb (length (fArgs f) =? length args)%nat then Ok st
      else if external f then
        let* p := addConstraintForExternalLibrary parent cs args f st in
        if fst p then Ok p.2 else pollute_args args p.2
      else addArgumentConstraintForCall args f st
  end.

(** [addConstraintForCall]. *)
Definition addConstraintForCall (parent : AFunction) (cs : ValueId) (callee : option FuncId) (args : list Value)
    (st : Collected) : res Collected :=
  match callee with
  | Some F =>
      let* f := of_option (find_function F) in
      if external f then
        let* p := addConstraintForExternalLibrary parent cs args f st in
        if fst p then Ok p.2
        else let* st1 := copy_result cs (Ok getUniversalPtrNode) p.2 in pollute_args args st1
      else
        let* st1 := copy_result cs (of_option (getReturnNodeFor st.1 F)) st in
        addArgumentConstraintForCall args f st1
  | None =>
      let* st1 := copy_result cs (Ok getUniversalPtrNode) st in
      rfold (indirect_candidate parent cs args) (mFunctions M) st1
  end.

(** A copy constraint between the nodes of two values. *)
Definition copy_values (dst src : Value) (st : Collected) : res Collected :=
  let* srcIndex := value_node st src in
  let* dstIndex := value_node st dst in
  Ok (emit COPY dstIndex srcIndex st).

(** [collectConstraintsForInstruction]. *)
Definition collectConstraintsForInstruction (F : AFunction) (st : Collected) (i : AInstruction) : res Collected :=
  let inst := Local (iId i) in
  let ptr := isPtrTy M (iId i) in
  match iOp i with
  | Alloca =>
      let* valNode := value_node st inst in
      let* o := createObjectNode (Some (iId i)) st.1 in
      Ok (emit ADDR_OF valNode o.1 (o.2, st.2))
  | Call callee args => addConstraintForCall F (iId i) callee args st
  | Ret (Some v) =>
      if isPointerTy v then
        let* retIndex := of_option (getReturnNodeFor st.1 (fId F)) in
        let* valIndex := value_node st v in
        Ok (emit COPY retIndex valIndex st)
      else Ok st
  | Ret None => Ok st
  | Load p =>
      if ptr then
        let* opIndex := value_node st p in
        let* valIndex := value_node st inst in
        Ok (emit LOAD valIndex opIndex st)
      else Ok st
  | Store v p =>
      if isPointerTy v then
        let* srcIndex := value_node st v in
        let* dstIndex := value_node st p in
        Ok (emit STORE dstIndex srcIndex st)
      else Ok st
  | GetElementPtr p => let* _ := guard ptr in copy_values inst p st
  | PHI incoming =>
      if ptr then
        let* dstIndex := value_node st inst in
        rfold (fun st v => let* srcIndex := value_node st v in Ok (emit COPY dstIndex srcIndex st)) incoming st
      else Ok st
  | BitCast v => if ptr then copy_values inst v st else Ok st
  | IntToPtr op =>
      let* _ := guard ptr in
      let* dstIndex := value_node st inst in
      match op with
      | PtrToInt X | AddPtrToInt X => let* srcIndex := value_node st X in Ok (emit COPY dstIndex srcIndex st)
      | OtherInt => Ok (emit COPY dstIndex getUniversalPtrNode st)
      end
  | Select t e =>
      if ptr then
        let* srcIndex1 := value_node st t in
        let* srcIndex2 := value_node st e in
        let* dstIndex := value_node st inst in
        Ok (emit COPY dstIndex srcIndex2 (emit COPY dstIndex srcIndex1 st))
      else Ok st
  | VAArg =>
      if ptr then
        let* dstIndex := value_node st inst in
        let* vaIndex := of_option (getVarargNodeFor st.1 (fId F)) in
        Ok (emit COPY dstIndex vaIndex st)
      else Ok st
  | ExtractValue => if ptr then Broken else Ok st
  | Unimplemented => Broken
  | OtherOp => if ptr then Broken else Ok st
  end.

(** [addGlobalInitializerConstraints]. *)
Fixpoint addGlobalInitializerConstraints (objNode : NodeIndex) (c : Constant) (st : Collected) : res Collected :=
  match c with
  | ConstantPointerNull | GlobalValue _ | UndefValue PointerTy | ConstantExpr _ true _ =>
      let* rhsNode := valid (getObjectNodeForConstant st.1 c) in
      Ok (emit ADDR_OF objNode rhsNode st)
  | UndefValue _ | ConstantExpr _ false _ | ConstantScalar => Ok st
  | ConstantAggregateZero => Ok (emit COPY objNode getNullObjectNode st)
  | ConstantAggregate operands =>
      (fix go (ops : list Constant) (st : Collected) : res Collected :=
         match ops with
         | [] => Ok st
         | o :: r => let* st' := addGlobalInitializerConstraints objNode o st in go r st'
         end) operands st
  end.

(** The four loops of [collectConstraintsForGlobals]. *)
Definition create_nodes (vs : list ValueId) (st : Collected) : res Collected :=
  rfold (fun st v => if isPtrTy M v then let* p := createValueNode (Some v) st.1 in Ok (p.2, st.2) else Ok st) vs st.

Definition add_global (st : Collected) (g : AGlobal) : res Collected :=
  let* v := createValueNode (Some (gId g)) st.1 in
  let* o := createObjectNode (Some (gId g)) v.2 in
  Ok (emit ADDR_OF v.1 o.1 (o.2, st.2)).

Definition add_function (st : Collected) (f : AFunction) : res Collected :=
  let* st1 :=
    if fAddressTaken f then
      let* v := createValueNode (Some (fId f)) st.1 in
      let* o := createObjectNode (Some (fId f)) v.2 in
      Ok (emit ADDR_OF v.1 o.1 (o.2, st.2))
    else Ok st in
  if external f then Ok st1
  else
    let* st2 := if fReturnsPointer f then let* p := createReturnNode (fId f) st1.1 in Ok (p.2, st1.2) else Ok st1 in
    let* st3 := if fVarArg f then let* p := createVarargNode (fId f) st2.1 in Ok (p.2, st2.2) else Ok st2 in
    create_nodes (fArgs f) st3.

Definition init_global (st : Collected) (g : AGlobal) : res Collected :=
  let* gObj := valid (getObjectNodeFor st.1 (Const (GlobalValue (gId g)))) in
  match gInit g with
  | Some c => addGlobalInitializerConstraints gObj c st
  | None => Ok (emit COPY gObj getUniversalObjNode st)
  end.

Definition collectConstraintsForGlobals (st : Collected) : res Collected :=
  let* st1 := rfold add_global (mGlobals M) st in
  let* st2 := rfold add_function (mFunctions M) st1 in
  rfold init_global (mGlobals M) st2.

(** The body of a function. *)
Definition collect_function (st : Collected) (f : AFunction) : res Collected :=
  if external f then Ok st
  else
    let* st1 := create_nodes (iId <$> fInsts f) st in
    rfold (collectConstraintsForInstruction f) (fInsts f) st1.

(** [collectConstraints]. *)
Definition collectConstraints : res Collected :=
  let st0 := emit ADDR_OF getNullPtrNode getNullObjectNode
    (emit STORE getUniversalObjNode getUniversalObjNode
      (emit ADDR_OF getUniversalPtrNode getUniversalObjNode (AndersNodeFactory_init, []))) in
  let* st1 := collectConstraintsForGlobals st0 in
  rfold collect_function (mFunctions M) st1.
End Collect.
