(* ===== verification/AndersenCollectSound.v ===== *)
(** The constraints collected from a module are well formed: their nodes exist,
    the addresses taken are those of objects, and the tables lead to nodes of
    the right kind that stand for the value looked up. *)
From S2P Require Import Prelude IR AndersenNodes AndersenCollect.

(** [v]'s node in a table. *)
Definition table_ok (f : AndersNodeFactory) (t : AndersNodeType) (m : gmap ValueId NodeIndex) : Prop :=
  forall v n, m !! v = Some n -> node_at f n = Some (mk_node t n n (Some v)).

Record factory_ok (f : AndersNodeFactory) : Prop := {
  fo_unmerged : unmerged f;
  fo_special : (4 <= getNumNodes f)%N;
  fo_objects : isObjectNode f getUniversalObjNode = true /\ isObjectNode f getNullObjectNode = true;
  fo_value : table_ok f VALUE_NODE (valueNodeMap f);
  fo_obj : table_ok f OBJ_NODE (objNodeMap f);
  fo_return : table_ok f VALUE_NODE (returnMap f);
  fo_vararg : table_ok f OBJ_NODE (varargMap f)
}.

(** A constraint over the nodes of [f]; an address is that of an object. *)
Definition constraint_ok (f : AndersNodeFactory) (c : AndersConstraint) : Prop :=
  (getDest c < getNumNodes f)%N /\ (getSrc c < getNumNodes f)%N /\
  (cType c = ADDR_OF -> isObjectNode f (getSrc c) = true).

Definition collected_ok (st : Collected) : Prop :=
  factory_ok st.1 /\ forall c, c ∈ st.2 -> constraint_ok st.1 c.

(** Nodes are added only. *)
Definition extends (f f' : AndersNodeFactory) : Prop :=
  (getNumNodes f <= getNumNodes f')%N /\ forall n, (n < getNumNodes f)%N -> node_at f' n = node_at f n.

(** The entries of the tables are kept. *)
Definition tables_in (f f' : AndersNodeFactory) : Prop :=
  valueNodeMap f ⊆ valueNodeMap f' /\ objNodeMap f ⊆ objNodeMap f' /\
  returnMap f ⊆ returnMap f' /\ varargMap f ⊆ varargMap f'.

Lemma tables_in_refl f : tables_in f f.
Proof. done. Qed.

Lemma tables_in_trans f f1 f2 : tables_in f f1 -> tables_in f1 f2 -> tables_in f f2.
Proof. intros (? & ? & ? & ?) (? & ? & ? & ?). repeat split; by etrans. Qed.

Lemma node_at_lt f n x : node_at f n = Some x -> (n < getNumNodes f)%N.
Proof. unfold node_at, getNumNodes. intros H%lookup_lt_Some. lia. Qed.

Lemma isObjectNode_lt f n : isObjectNode f n = true -> (n < getNumNodes f)%N.
Proof. unfold isObjectNode. destruct (node_at f n) eqn:E; [|done]. intros _. by eapply node_at_lt. Qed.

Lemma extends_object f f' n : extends f f' -> isObjectNode f n = true -> isObjectNode f' n = true.
Proof. intros [_ He] H. unfold isObjectNode in *. by rewrite He by by apply isObjectNode_lt. Qed.

Lemma extends_table f f' t m : extends f f' -> table_ok f t m -> table_ok f' t m.
Proof.
  intros [_ He] H v n Hv. specialize (H v n Hv). rewrite He; [done|by eapply node_at_lt].
Qed.

Lemma extends_constraint f f' c : extends f f' -> constraint_ok f c -> constraint_ok f' c.
Proof.
  intros He (H1 & H2 & H3). destruct He as [Hn He]. split; [lia|]. split; [lia|].
  intros Ht. eapply extends_object; [split; [exact Hn|exact He]|auto].
Qed.

Lemma extends_push t v f : extends f (push_node t v f).
Proof.
  split; [rewrite getNumNodes_push; lia|]. intros n Hn. rewrite node_at_push. by rewrite decide_False by lia.
Qed.

(** A factory with the nodes of [push_node t v f] and tables that are right. *)
Lemma factory_pushed f f' t v :
  factory_ok f -> nodes f' = nodes (push_node t v f) ->
  table_ok f' VALUE_NODE (valueNodeMap f') -> table_ok f' OBJ_NODE (objNodeMap f') ->
  table_ok f' VALUE_NODE (returnMap f') -> table_ok f' OBJ_NODE (varargMap f') ->
  factory_ok f' /\ extends f f' /\ node_at f' (getNumNodes f) = Some (new_node t (getNumNodes f) v).
Proof.
  intros HF Hn H1 H2 H3 H4.
  assert (forall n, node_at f' n = node_at (push_node t v f) n) as Hat by (intros n; unfold node_at; by rewrite Hn).
  assert (getNumNodes f' = getNumNodes (push_node t v f)) as Hnum by (unfold getNumNodes; by rewrite Hn).
  assert (extends f f') as He.
  { destruct (extends_push t v f) as [E1 E2]. split; [by rewrite Hnum|]. intros n ?. by rewrite Hat, E2. }
  split; [split; try done|split; [done|]].
  - intros n Hlt. unfold target. rewrite Hat. apply (unmerged_push t v f (fo_unmerged _ HF)). by rewrite <- Hnum.
  - destruct HF, He. lia.
  - destruct (fo_objects _ HF). split; by apply (extends_object f).
  - rewrite Hat, node_at_push. by rewrite decide_True.
Qed.

Lemma table_insert f f' t v m :
  factory_ok f -> extends f f' -> node_at f' (getNumNodes f) = Some (new_node t (getNumNodes f) (Some v)) ->
  table_ok f t m -> table_ok f' t (<[v := getNumNodes f]> m).
Proof.
  intros HF He Hat Hm x n. destruct (decide (x = v)) as [->|Hx].
  - rewrite (lookup_insert_eq m). by intros [= <-].
  - rewrite (lookup_insert_ne m) by done. by apply (extends_table f).
Qed.

Definition created (t : AndersNodeType) (v : option ValueId) (f : AndersNodeFactory) (p : NodeIndex * AndersNodeFactory) : Prop :=
  p.1 = getNumNodes f /\ factory_ok p.2 /\ (extends f p.2 /\ tables_in f p.2) /\ node_at p.2 p.1 = Some (new_node t p.1 v).

Lemma node_at_same f f' n : nodes f' = nodes f -> node_at f' n = node_at f n.
Proof. unfold node_at. by intros ->. Qed.

(** The creators keep the factory right. *)
Lemma create_ok f t v f' :
  factory_ok f -> nodes f' = nodes (push_node t v f) -> tables_in f f' ->
  (forall (He : extends f f') (Hat : node_at f' (getNumNodes f) = Some (new_node t (getNumNodes f) v)),
     table_ok f' VALUE_NODE (valueNodeMap f') /\ table_ok f' OBJ_NODE (objNodeMap f') /\
     table_ok f' VALUE_NODE (returnMap f') /\ table_ok f' OBJ_NODE (varargMap f')) ->
  created t v f (getNumNodes f, f').
Proof.
  intros HF Hn Hi Ht.
  assert (extends f f') as He.
  { destruct (extends_push t v f) as [E1 E2]. split.
    - unfold getNumNodes in *. by rewrite Hn.
    - intros n ?. rewrite (node_at_same _ _ n Hn). by apply E2. }
  assert (node_at f' (getNumNodes f) = Some (new_node t (getNumNodes f) v)) as Hat.
  { rewrite (node_at_same _ _ _ Hn), node_at_push. by rewrite decide_True. }
  destruct (Ht He Hat) as (H1 & H2 & H3 & H4).
  destruct (factory_pushed f f' t v HF Hn H1 H2 H3 H4) as (? & ? & ?). split; [done|]. by split_and!.
Qed.

Lemma guard_new {P : Prop} {d : Decision P} u : guard (bool_decide P) = Ok u -> P.
Proof. unfold guard. destruct (bool_decide P) eqn:E; [by apply bool_decide_eq_true in E|discriminate]. Qed.

Ltac kept :=
  repeat split; first
    [ done | cbn [valueNodeMap objNodeMap returnMap varargMap]; apply insert_subseteq; by eapply guard_new ].

Ltac tables HF He Hat :=
  repeat split; first [ apply (extends_table _ _ _ _ He); apply HF
                      | apply (table_insert _ _ _ _ _ HF He Hat); apply HF ].

Lemma createValueNode_ok f v p : factory_ok f -> createValueNode v f = Ok p -> created VALUE_NODE v f p.
Proof.
  intros HF H. destruct v as [v|]; simpl in H.
  - apply rbind_ok in H as (? & H0 & [= <-]). apply create_ok; [done|done|kept|]. intros He Hat. tables HF He Hat.
  - injection H as <-. apply create_ok; [done|done|done|]. intros He Hat. tables HF He Hat.
Qed.

Lemma createObjectNode_ok f v p : factory_ok f -> createObjectNode v f = Ok p -> created OBJ_NODE v f p.
Proof.
  intros HF H. destruct v as [v|]; simpl in H.
  - apply rbind_ok in H as (? & H0 & [= <-]). apply create_ok; [done|done|kept|]. intros He Hat. tables HF He Hat.
  - injection H as <-. apply create_ok; [done|done|done|]. intros He Hat. tables HF He Hat.
Qed.

Lemma createReturnNode_ok f F p : factory_ok f -> createReturnNode F f = Ok p -> created VALUE_NODE (Some F) f p.
Proof.
  intros HF H. apply rbind_ok in H as (? & H0 & [= <-]). apply create_ok; [done|done|kept|]. intros He Hat. tables HF He Hat.
Qed.

Lemma createVarargNode_ok f F p : factory_ok f -> createVarargNode F f = Ok p -> created OBJ_NODE (Some F) f p.
Proof.
  intros HF H. apply rbind_ok in H as (? & H0 & [= <-]). apply create_ok; [done|done|kept|]. intros He Hat. tables HF He Hat.
Qed.

(** * The steps *)

Lemma extends_refl f : extends f f.
Proof. split; [lia|done]. Qed.

Lemma extends_trans f f1 f2 : extends f f1 -> extends f1 f2 -> extends f f2.
Proof. intros [H1 H2] [H3 H4]. split; [lia|]. intros n Hn. rewrite H4 by lia. by apply H2. Qed.

(** A step from a right state to a right state. *)
Definition goes (st st' : Collected) : Prop :=
  collected_ok st' /\ extends st.1 st'.1 /\ tables_in st.1 st'.1 /\ (forall c, c ∈ st.2 -> c ∈ st'.2).

Lemma goes_refl st : collected_ok st -> goes st st.
Proof. split; [done|]. split; [apply extends_refl|done]. Qed.

Lemma goes_trans st st1 st2 : goes st st1 -> goes st1 st2 -> goes st st2.
Proof.
  intros (_ & E1 & T1 & C1) (H2 & E2 & T2 & C2). split; [done|]. split; [by eapply extends_trans|].
  split; [by eapply tables_in_trans|auto].
Qed.

Lemma rfold_goes_inv {A} (g : Collected -> A -> res Collected) (Q : Collected -> Prop) l :
  (forall st x st', x ∈ l -> collected_ok st -> Q st -> g st x = Ok st' -> goes st st') ->
  (forall st st', goes st st' -> Q st -> Q st') ->
  forall st st', collected_ok st -> Q st -> rfold g l st = Ok st' -> goes st st'.
Proof.
  intros Hg HQ. induction l as [|x l IH]; intros st st' Hst Hq H; cbn [rfold] in H.
  - injection H as <-. by apply goes_refl.
  - apply rbind_ok in H as (st1 & E1 & H). apply (Hg st x st1 (list_elem_of_here _ _) Hst Hq) in E1.
    eapply goes_trans; [exact E1|]. eapply IH; [|apply E1|by eapply HQ|exact H].
    intros s y s' Hy. apply Hg. by apply list_elem_of_further.
Qed.

Lemma rfold_goes {A} (g : Collected -> A -> res Collected) l st st' :
  (forall st x st', x ∈ l -> collected_ok st -> g st x = Ok st' -> goes st st') ->
  collected_ok st -> rfold g l st = Ok st' -> goes st st'.
Proof.
  intros Hg Hst. apply (rfold_goes_inv g (fun _ => True)); [|done..]. intros s x s' Hx Hs _. by apply Hg.
Qed.

Lemma emit_ok st t d s :
  collected_ok st -> (d < getNumNodes st.1)%N -> (s < getNumNodes st.1)%N ->
  (t = ADDR_OF -> isObjectNode st.1 s = true) -> goes st (emit t d s st).
Proof.
  intros [HF HC] Hd Hs Ht. split; [|split; [apply extends_refl|split; [apply tables_in_refl|]]];
    [|intros c ?; cbn [emit snd]; apply elem_of_app; by left].
  split; [done|]. cbn [emit fst snd].
  intros c [Hc|Hc%list_elem_of_singleton]%elem_of_app; [by apply HC|]. subst c. by split.
Qed.

Lemma special_lt st : collected_ok st ->
  (getUniversalPtrNode < getNumNodes st.1)%N /\ (getUniversalObjNode < getNumNodes st.1)%N /\
  (getNullPtrNode < getNumNodes st.1)%N /\ (getNullObjectNode < getNumNodes st.1)%N.
Proof.
  intros [HF _]. pose proof (fo_special _ HF).
  unfold getUniversalPtrNode, getUniversalObjNode, getNullPtrNode, getNullObjectNode. lia.
Qed.

Lemma table_lt f t m v n : table_ok f t m -> m !! v = Some n -> (n < getNumNodes f)%N.
Proof. intros H Hv. eapply node_at_lt. by apply H. Qed.

Lemma table_object f m v n : table_ok f OBJ_NODE m -> m !! v = Some n -> isObjectNode f n = true.
Proof. intros H Hv. unfold isObjectNode. by rewrite (H v n Hv). Qed.

Lemma constant_node_lt f c n : factory_ok f -> getValueNodeForConstant f c = Ok (Some n) -> (n < getNumNodes f)%N.
Proof.
  intros HF. pose proof (fo_special _ HF) as H4.
  induction c as [|ty|g|op b c IH| | |ops] using Constant_rect; cbn [getValueNodeForConstant];
    intros H; apply rbind_ok in H as ([] & _ & H); try discriminate.
  - injection H as <-. unfold getNullPtrNode. lia.
  - injection H as <-. unfold getNullPtrNode. lia.
  - injection H as H. by eapply table_lt; [apply HF|].
  - destruct op; try discriminate; auto; injection H as <-; unfold getUniversalPtrNode; lia.
Qed.

Lemma constant_object f c n : factory_ok f -> getObjectNodeForConstant f c = Ok (Some n) -> isObjectNode f n = true.
Proof.
  intros HF. induction c as [|ty|g|op b c IH| | |ops] using Constant_rect; cbn [getObjectNodeForConstant];
    intros H; apply rbind_ok in H as ([] & _ & H); try discriminate.
  - injection H as <-. apply HF.
  - injection H as H. by eapply table_object; [apply HF|].
  - destruct op; try discriminate; auto; injection H as <-; apply HF.
Qed.

Lemma getValueNodeFor_lt st v n : collected_ok st -> getValueNodeFor st.1 v = Ok (Some n) -> (n < getNumNodes st.1)%N.
Proof.
  intros [HF _] H. destruct v as [c|x]; simpl in H.
  - destruct c; try (by eapply constant_node_lt; [|exact H]). injection H as H. by eapply table_lt; [apply HF|].
  - injection H as H. by eapply table_lt; [apply HF|].
Qed.

Lemma value_node_lt st v n : collected_ok st -> value_node st v = Ok n -> (n < getNumNodes st.1)%N.
Proof.
  intros Hst H. apply rbind_ok in H as (o & Ho & H). destruct o as [m|]; [|done]. injection H as ->.
  by eapply getValueNodeFor_lt.
Qed.

(** A new node: the state with the factory that has it. *)
Lemma created_goes t v st p :
  collected_ok st -> created t v st.1 p ->
  goes st (p.2, st.2) /\ (p.1 < getNumNodes p.2)%N /\ (t = OBJ_NODE -> isObjectNode p.2 p.1 = true).
Proof.
  intros [HF HC] (Hp & HF' & [He Hi] & Hat). split; [split; [split|]|split].
  - done.
  - intros c Hc. eapply extends_constraint; [exact He|by apply HC].
  - by split.
  - by eapply node_at_lt.
  - intros ->. unfold isObjectNode. by rewrite Hat.
Qed.

(** Decomposes the sequence of a computation that returned. *)
Ltac unbind H := repeat
  match type of H with
  | rbind _ _ = Ok _ => let a := fresh "a" in let E := fresh "E" in apply rbind_ok in H as (a & E & H)
  end.

Section Steps.
Context (M : AModule).

Lemma copy_return_goes must cs args i st p :
  collected_ok st -> copy_return must cs args i st = Ok p -> goes st p.2.
Proof.
  intros Hst H. unfold copy_return in H. apply rbind_ok in H as (ret & Er & H). destruct ret as [r|].
  - unbind H. injection H as <-. apply emit_ok; [done|by eapply getValueNodeFor_lt|by eapply value_node_lt|done].
  - destruct must; [done|]. injection H as <-. by apply goes_refl.
Qed.

Lemma external_goes parent cs args f st p :
  collected_ok st -> addConstraintForExternalLibrary parent cs args f st = Ok p -> goes st p.2.
Proof.
  intros Hst H. unfold addConstraintForExternalLibrary in H.
  destruct (lookupName noopFuncs (fName f)); [injection H as <-; by apply goes_refl|].
  apply rbind_ok in H as (nullArg0 & _ & H).
  destruct (_ || _).
  { apply rbind_ok in H as (o & Eo & H). apply createObjectNode_ok in Eo; [|apply Hst].
    destruct (created_goes _ _ _ _ Hst Eo) as (Hg & Hlt & Hob).
    eapply goes_trans; [exact Hg|]. destruct Hg as [Hok _].
    apply rbind_ok in H as (ptr & Ep & H). cbn [fst] in Ep. destruct ptr as [r|].
    - injection H as <-. apply emit_ok; [done| |done|by intros _; apply Hob].
      by apply (getValueNodeFor_lt (o.2, st.2)) in Ep.
    - destruct (bool_decide _); [|done]. unbind H. injection H as <-. apply emit_ok; [done| |done|done].
      by eapply value_node_lt. }
  destruct (_ || _); [by eapply copy_return_goes|].
  destruct (lookupName retArg1Funcs (fName f)); [by eapply copy_return_goes|].
  destruct (lookupName retArg2Funcs (fName f)); [by eapply copy_return_goes|].
  destruct (lookupName memcpyFuncs (fName f)).
  { unbind H. apply createValueNode_ok in E3; [|apply Hst].
    destruct (created_goes _ _ _ _ Hst E3) as (Hg & Hlt & _).
    assert (forall n, (n < getNumNodes st.1)%N -> (n < getNumNodes a3.2)%N) as Hm
      by (intros n ?; destruct Hg as [_ [[? _] _]]; simpl in *; lia).
    pose proof (value_node_lt _ _ _ Hst E0) as H0. pose proof (value_node_lt _ _ _ Hst E2) as H2.
    pose proof (emit_ok (a3.2, st.2) LOAD a3.1 a2 (proj1 Hg) Hlt (Hm _ H2)) as G1.
    specialize (G1 ltac:(done)). pose proof (emit_ok _ STORE a0 a3.1 (proj1 G1)) as G2.
    specialize (G2 (Hm _ H0) Hlt ltac:(done)).
    assert (goes st (emit STORE a0 a3.1 (emit LOAD a3.1 a2 (a3.2, st.2)))) as G
      by (eapply goes_trans; [exact Hg|]; by eapply goes_trans).
    destruct a4 as [r|]; injection H as <-; [|exact G]. eapply goes_trans; [exact G|].
    apply emit_ok; [apply G|eapply getValueNodeFor_lt; [apply G|exact E4]|by apply Hm|done]. }
  destruct (lookupName convertFuncs (fName f)).
  { apply rbind_ok in H as (a1 & _ & H). destruct (isNull a1); [injection H as <-; by apply goes_refl|].
    unbind H. injection H as <-. apply emit_ok; [done|by eapply value_node_lt|by eapply value_node_lt|done]. }
  destruct (bool_decide _); [|injection H as <-; by apply goes_refl].
  unbind H. injection H as <-. unfold getVarargNodeFor in *. destruct (varargMap st.1 !! fId parent) as [va|] eqn:Ev; [|done].
  injection E2 as <-. destruct Hst as [HF HC].
  apply emit_ok; [done|by eapply value_node_lt|eapply table_lt; [apply (fo_vararg _ HF)|exact Ev]|].
  intros _. eapply table_object; [apply (fo_vararg _ HF)|exact Ev].
Qed.

Lemma pollute_arg_goes st a st' : collected_ok st -> pollute_arg M st a = Ok st' -> goes st st'.
Proof.
  intros Hst H. unfold pollute_arg in H. destruct (isPointerTy M a); [|injection H as <-; by apply goes_refl].
  unbind H. injection H as <-. apply emit_ok; [done|by eapply value_node_lt|by apply special_lt|done].
Qed.

Lemma pollute_goes args st st' : collected_ok st -> pollute_args M args st = Ok st' -> goes st st'.
Proof. intros Hst. apply rfold_goes; [|done]. intros s a s' _. apply pollute_arg_goes. Qed.

Lemma copy_result_goes cs src st st' :
  collected_ok st -> (forall n, src = Ok n -> (n < getNumNodes st.1)%N) -> copy_result M cs src st = Ok st' -> goes st st'.
Proof.
  intros Hst Hsrc H. unfold copy_result in H. destruct (isPtrTy M cs); [|injection H as <-; by apply goes_refl].
  unbind H. injection H as <-. apply emit_ok; [done|by eapply value_node_lt|by apply Hsrc|done].
Qed.

Lemma match_args_goes fs : forall actuals st p, collected_ok st -> match_args M fs actuals st = Ok p -> goes st p.2.
Proof.
  induction fs as [|formal fs IH]; intros actuals st p Hst H; cbn [match_args] in H.
  - injection H as <-. by apply goes_refl.
  - destruct actuals as [|actual rest]; [injection H as <-; by apply goes_refl|].
    apply rbind_ok in H as (st1 & E & H). assert (goes st st1) as G.
    { destruct (isPtrTy M formal); [|injection E as <-; by apply goes_refl].
      apply rbind_ok in E as (n & En & E). destruct (isPointerTy M actual); unbind E; injection E as <-.
      - apply emit_ok; [done|by eapply value_node_lt|by eapply value_node_lt|done].
      - apply emit_ok; [done|by eapply value_node_lt|by apply special_lt|done]. }
    eapply goes_trans; [exact G|]. eapply IH; [apply G|exact H].
Qed.

Lemma pass_vararg_goes f st a st' : collected_ok st -> pass_vararg M f st a = Ok st' -> goes st st'.
Proof.
  intros Hst H. unfold pass_vararg in H. destruct (isPointerTy M a); [|injection H as <-; by apply goes_refl].
  unbind H. injection H as <-. unfold getVarargNodeFor in *. destruct (varargMap st.1 !! fId f) eqn:Ev; [|done].
  injection E0 as <-. apply emit_ok; [done| |by eapply value_node_lt|done].
  eapply table_lt; [apply (fo_vararg _ (proj1 Hst))|exact Ev].
Qed.

Lemma pass_varargs_goes f l st st' : collected_ok st -> rfold (pass_vararg M f) l st = Ok st' -> goes st st'.
Proof. intros Hst. apply rfold_goes; [|done]. intros s a s' _. apply pass_vararg_goes. Qed.

Lemma arguments_goes args f st st' : collected_ok st -> addArgumentConstraintForCall M args f st = Ok st' -> goes st st'.
Proof.
  intros Hst H. apply rbind_ok in H as (p & Ep & H). apply match_args_goes in Ep; [|done].
  destruct (fVarArg f); [|injection H as <-; done]. eapply goes_trans; [exact Ep|].
  revert H. apply pass_varargs_goes, Ep.
Qed.

Lemma candidate_goes parent cs args st f st' :
  collected_ok st -> indirect_candidate M parent cs args st f = Ok st' -> goes st st'.
Proof.
  intros Hst H. apply rbind_ok in H as (fp & _ & H). destruct fp; [|injection H as <-; by apply goes_refl].
  destruct (_ && _); [injection H as <-; by apply goes_refl|].
  destruct (external f); [|by eapply arguments_goes].
  apply rbind_ok in H as (p & Ep & H). apply external_goes in Ep; [|done].
  destruct (fst p); [injection H as <-; done|]. eapply goes_trans; [exact Ep|]. by eapply pollute_goes; [apply Ep|].
Qed.

Lemma call_goes parent cs callee args st st' :
  collected_ok st -> addConstraintForCall M parent cs callee args st = Ok st' -> goes st st'.
Proof.
  intros Hst H. destruct callee as [F|]; cbn [addConstraintForCall] in H.
  - apply rbind_ok in H as (f & _ & H). destruct (external f).
    + apply rbind_ok in H as (p & Ep & H). apply external_goes in Ep; [|done].
      destruct (fst p); [injection H as <-; done|]. apply rbind_ok in H as (st1 & E1 & H).
      apply copy_result_goes in E1; [|apply Ep|intros n [= <-]; apply special_lt, Ep].
      eapply goes_trans; [exact Ep|]. eapply goes_trans; [exact E1|]. by eapply pollute_goes; [apply E1|].
    + apply rbind_ok in H as (st1 & E1 & H). apply copy_result_goes in E1; [|done|].
      * eapply goes_trans; [exact E1|]. by eapply arguments_goes; [apply E1|].
      * intros n Hn. unfold getReturnNodeFor in Hn. destruct (returnMap st.1 !! F) eqn:Er; [|done].
        injection Hn as <-. eapply table_lt; [apply (fo_return _ (proj1 Hst))|exact Er].
  - apply rbind_ok in H as (st1 & E1 & H).
    apply copy_result_goes in E1; [|done|intros n [= <-]; by apply special_lt].
    eapply goes_trans; [exact E1|]. revert H. apply rfold_goes; [|apply E1].
    intros s f s' _ Hs. by apply candidate_goes.
Qed.

Lemma copy_values_goes dst src st st' : collected_ok st -> copy_values dst src st = Ok st' -> goes st st'.
Proof.
  intros Hst H. unfold copy_values in H. unbind H. injection H as <-.
  apply emit_ok; [done|by eapply value_node_lt|by eapply value_node_lt|done].
Qed.

Lemma return_lt st F n : collected_ok st -> of_option (getReturnNodeFor st.1 F) = Ok n -> (n < getNumNodes st.1)%N.
Proof.
  intros Hst H. unfold getReturnNodeFor in H. destruct (returnMap st.1 !! F) eqn:E; [|done]. injection H as <-.
  eapply table_lt; [apply (fo_return _ (proj1 Hst))|exact E].
Qed.

Lemma vararg_lt st F n : collected_ok st -> of_option (getVarargNodeFor st.1 F) = Ok n -> (n < getNumNodes st.1)%N.
Proof.
  intros Hst H. unfold getVarargNodeFor in H. destruct (varargMap st.1 !! F) eqn:E; [|done]. injection H as <-.
  eapply table_lt; [apply (fo_vararg _ (proj1 Hst))|exact E].
Qed.

Lemma instruction_goes F st i st' :
  collected_ok st -> collectConstraintsForInstruction M F st i = Ok st' -> goes st st'.
Proof.
  intros Hst H. pose proof (special_lt st Hst) as (HU & _).
  destruct i as [x op]. unfold collectConstraintsForInstruction in H. cbn [iId iOp] in H.
  destruct op as [|callee args|[v|]|p|v p|p|incoming|v|op|t e| | | |].
  - unbind H. injection H as <-. apply createObjectNode_ok in E0; [|apply Hst].
    destruct (created_goes _ _ _ _ Hst E0) as (Hg & Hlt & Hob). eapply goes_trans; [exact Hg|].
    apply value_node_lt in E; [|done].
    apply emit_ok; [apply Hg|destruct Hg as [_ [[? _] _]]; simpl in *; lia|done|by intros _; apply Hob].
  - by eapply call_goes.
  - destruct (isPointerTy M v); [|injection H as <-; by apply goes_refl]. unbind H. injection H as <-.
    apply emit_ok; [done|by eapply return_lt|by eapply value_node_lt|done].
  - injection H as <-. by apply goes_refl.
  - destruct (isPtrTy M x); [|injection H as <-; by apply goes_refl]. unbind H. injection H as <-.
    apply emit_ok; [done|by eapply value_node_lt|by eapply value_node_lt|done].
  - destruct (isPointerTy M v); [|injection H as <-; by apply goes_refl]. unbind H. injection H as <-.
    apply emit_ok; [done|by eapply value_node_lt|by eapply value_node_lt|done].
  - apply rbind_ok in H as ([] & _ & H). by eapply copy_values_goes.
  - destruct (isPtrTy M x); [|injection H as <-; by apply goes_refl].
    apply rbind_ok in H as (d & Ed & H). apply value_node_lt in Ed; [|done].
    assert (forall s s', (d < getNumNodes s.1)%N -> collected_ok s ->
      rfold (fun st v => let* srcIndex := value_node st v in Ok (emit COPY d srcIndex st)) incoming s = Ok s' -> goes s s') as Hl.
    { clear H. induction incoming as [|v l IH]; intros s s' Hd Hs H; cbn [rfold] in H.
      - injection H as <-. by apply goes_refl.
      - apply rbind_ok in H as (s1 & E1 & H). unbind E1. injection E1 as <-.
        assert (goes s (emit COPY d a s)) as G by (apply emit_ok; [done|done|by eapply value_node_lt|done]).
        eapply goes_trans; [exact G|]. eapply IH; [exact Hd|apply G|exact H]. }
    by eapply Hl.
  - destruct (isPtrTy M x); [|injection H as <-; by apply goes_refl]. by eapply copy_values_goes.
  - unbind H. destruct op as [X|X|]; unbind H; injection H as <-;
      apply emit_ok; try done; by eapply value_node_lt.
  - destruct (isPtrTy M x); [|injection H as <-; by apply goes_refl]. unbind H. injection H as <-.
    assert (goes st (emit COPY a1 a st)) as G
      by (apply emit_ok; [done|by eapply value_node_lt|by eapply value_node_lt|done]).
    eapply goes_trans; [exact G|]. apply emit_ok; [apply G| | |done]; cbn [emit fst]; by eapply value_node_lt.
  - destruct (isPtrTy M x); [|injection H as <-; by apply goes_refl]. unbind H. injection H as <-.
    apply emit_ok; [done|by eapply value_node_lt|by eapply vararg_lt|done].
  - destruct (isPtrTy M x); [done|]. injection H as <-. by apply goes_refl.
  - done.
  - destruct (isPtrTy M x); [done|]. injection H as <-. by apply goes_refl.
Qed.

Lemma initializer_goes n c : forall st st', collected_ok st -> (n < getNumNodes st.1)%N ->
  addGlobalInitializerConstraints n c st = Ok st' -> goes st st'.
Proof.
  assert (forall c st st', collected_ok st -> (n < getNumNodes st.1)%N ->
    (let* rhsNode := valid (getObjectNodeForConstant st.1 c) in Ok (emit ADDR_OF n rhsNode st)) = Ok st' -> goes st st') as Hp.
  { intros c0 st st' Hst Hn H. unbind H. injection H as <-. apply rbind_ok in E as (o & Eo & E).
    destruct o as [m|]; [|done]. injection E as <-. apply constant_object in Eo; [|apply Hst].
    apply emit_ok; [done|done|by apply isObjectNode_lt|done]. }
  revert c. fix IH 1. intros c st st' Hst Hn H. destruct c as [|[]|g|op [] c'| | |ops];
    cbn [addGlobalInitializerConstraints] in H;
    try (injection H as <-; by apply goes_refl); try (by eapply (Hp _ st)).
  - injection H as <-. apply emit_ok; [done|done|by apply special_lt|done].
  - revert st st' Hst Hn H. induction ops as [|o r IHr]; intros st st' Hst Hn H.
    + injection H as <-. by apply goes_refl.
    + apply rbind_ok in H as (st1 & E1 & H). apply (IH o st st1 Hst Hn) in E1.
      eapply goes_trans; [exact E1|]. apply (IHr st1 st'); [apply E1| |exact H].
      destruct E1 as [_ [[? _] _]]. lia.
Qed.

Lemma create_nodes_goes vs st st' : collected_ok st -> create_nodes M vs st = Ok st' -> goes st st'.
Proof.
  intros Hst. apply rfold_goes; [|done]. clear. intros st v st' _ Hst H.
  destruct (isPtrTy M v); [|injection H as <-; by apply goes_refl]. unbind H. injection H as <-.
  apply createValueNode_ok in E; [|apply Hst]. by apply (created_goes _ _ _ _ Hst E).
Qed.

(** A value and an object for a global, and its address. *)
Lemma value_and_object_goes v st p o :
  collected_ok st -> createValueNode (Some v) st.1 = Ok p -> createObjectNode (Some v) p.2 = Ok o ->
  goes st (emit ADDR_OF p.1 o.1 (o.2, st.2)).
Proof.
  intros Hst Ep Eo. apply createValueNode_ok in Ep; [|apply Hst].
  destruct (created_goes _ _ _ _ Hst Ep) as (Hg & Hlt & _).
  apply createObjectNode_ok in Eo; [|apply (proj1 Hg)].
  destruct (created_goes _ _ (p.2, st.2) _ (proj1 Hg) Eo) as (Hg2 & Hlt2 & Hob).
  eapply goes_trans; [exact Hg|]. eapply goes_trans; [exact Hg2|].
  apply emit_ok; [apply Hg2|destruct Hg2 as [_ [[? _] _]]; simpl in *; lia|done|by intros _; apply Hob].
Qed.

Lemma add_function_goes st f st' : collected_ok st -> add_function M st f = Ok st' -> goes st st'.
Proof.
  intros Hst H. apply rbind_ok in H as (st1 & E1 & H). assert (goes st st1) as G1.
  { destruct (fAddressTaken f); [|injection E1 as <-; by apply goes_refl].
    unbind E1. injection E1 as <-. by apply value_and_object_goes with (v := fId f). }
  destruct (external f); [injection H as <-; done|].
  apply rbind_ok in H as (st2 & E2 & H). assert (goes st1 st2) as G2.
  { destruct (fReturnsPointer f); [|injection E2 as <-; apply goes_refl, G1]. unbind E2. injection E2 as <-.
    apply createReturnNode_ok in E; [|apply G1]. apply (created_goes _ _ _ _ (proj1 G1) E). }
  apply rbind_ok in H as (st3 & E3 & H). assert (goes st2 st3) as G3.
  { destruct (fVarArg f); [|injection E3 as <-; apply goes_refl, G2]. unbind E3. injection E3 as <-.
    apply createVarargNode_ok in E; [|apply G2]. apply (created_goes _ _ _ _ (proj1 G2) E). }
  apply create_nodes_goes in H; [|apply G3].
  eapply goes_trans; [exact G1|]. eapply goes_trans; [exact G2|]. by eapply goes_trans.
Qed.

Lemma init_global_goes st g st' : collected_ok st -> init_global st g = Ok st' -> goes st st'.
Proof.
  intros Hst H. apply rbind_ok in H as (o & Eo & H).
  assert (o < getNumNodes st.1)%N as Ho.
  { apply rbind_ok in Eo as (x & Ex & Eo). destruct x as [y|]; [|done]. injection Eo as ->. simpl in Ex.
    injection Ex as Ex. eapply table_lt; [apply (fo_obj _ (proj1 Hst))|exact Ex]. }
  destruct (gInit g) as [c|].
  - by eapply initializer_goes.
  - injection H as <-. apply emit_ok; [done|done|by apply special_lt|done].
Qed.

Lemma collect_function_goes st f st' : collected_ok st -> collect_function M st f = Ok st' -> goes st st'.
Proof.
  intros Hst H. unfold collect_function in H. destruct (external f); [injection H as <-; by apply goes_refl|].
  apply rbind_ok in H as (st1 & E1 & H). apply create_nodes_goes in E1; [|done].
  eapply goes_trans; [exact E1|]. revert H. apply rfold_goes; [|apply E1].
  intros s i s' _ Hs. by apply instruction_goes.
Qed.

Lemma init_ok : collected_ok (AndersNodeFactory_init, []).
Proof.
  split; [split|]; cbn [fst snd].
  - apply unmerged_init.
  - done.
  - done.
  - intros v n H. cbn [valueNodeMap AndersNodeFactory_init] in H. by rewrite (lookup_empty v) in H.
  - intros v n H. cbn [objNodeMap AndersNodeFactory_init] in H. by rewrite (lookup_empty v) in H.
  - intros v n H. cbn [returnMap AndersNodeFactory_init] in H. by rewrite (lookup_empty v) in H.
  - intros v n H. cbn [varargMap AndersNodeFactory_init] in H. by rewrite (lookup_empty v) in H.
  - intros c ?%not_elem_of_nil. done.
Qed.

(** The state the collection starts from. *)
Lemma start_ok : collected_ok (emit ADDR_OF getNullPtrNode getNullObjectNode
    (emit STORE getUniversalObjNode getUniversalObjNode
      (emit ADDR_OF getUniversalPtrNode getUniversalObjNode (AndersNodeFactory_init, [])))).
Proof. apply emit_ok; [apply emit_ok; [apply emit_ok; [apply init_ok|done..]|done..]|done..]. Qed.

Lemma collect_ok st : collectConstraints M = Ok st -> collected_ok st.
Proof.
  intros H. unfold collectConstraints in H. apply rbind_ok in H as (st1 & E1 & H).
  unfold collectConstraintsForGlobals in E1. apply rbind_ok in E1 as (s1 & G1 & E1).
  apply rfold_goes in G1; [|intros s g s' _ Hs Hg; unfold add_global in Hg; unbind Hg; injection Hg as <-;
    by apply value_and_object_goes with (v := gId g)|apply start_ok].
  apply rbind_ok in E1 as (s2 & G2 & E1).
  apply rfold_goes in G2; [|intros s f s' _ Hs; by apply add_function_goes|apply G1].
  apply rfold_goes in E1; [|intros s g s' _ Hs; by apply init_global_goes|apply G2].
  apply rfold_goes in H; [apply H|intros s f s' _ Hs; by apply collect_function_goes|apply E1].
Qed.

End Steps.
