(* ===== verification/AndersenCover.v ===== *)
(** What the collection owes the solver: every instruction that moves a pointer,
    every call and every global has its constraints among those collected. *)
From S2P Require Import Prelude IR AndersenNodes AndersenCollect AndersenCollectSound.

Section Cover.
Context (M : AModule).

(** * The constraints an instruction needs *)

(** [dst] gets what [src] points to, or everything. *)
Definition copied (st : Collected) (dst src : Value) : Prop :=
  exists d s, value_node st dst = Ok d /\ value_node st src = Ok s /\ mk_constraint COPY d s ∈ st.2.

Definition from_universal (st : Collected) (dst : Value) : Prop :=
  exists d, value_node st dst = Ok d /\ mk_constraint COPY d getUniversalPtrNode ∈ st.2.

(** [v] points to an object of its own. *)
Definition allocated (st : Collected) (v : ValueId) : Prop :=
  exists n o, value_node st (Local v) = Ok n /\ objNodeMap st.1 !! v = Some o /\ mk_constraint ADDR_OF n o ∈ st.2.

Definition loaded (st : Collected) (dst p : Value) : Prop :=
  exists d s, value_node st dst = Ok d /\ value_node st p = Ok s /\ mk_constraint LOAD d s ∈ st.2.

Definition stored (st : Collected) (p src : Value) : Prop :=
  exists d s, value_node st p = Ok d /\ value_node st src = Ok s /\ mk_constraint STORE d s ∈ st.2.

(** The memory behind [src] copied to that behind [dst]. *)
Definition moved (st : Collected) (dst src : Value) : Prop :=
  exists d s t, value_node st dst = Ok d /\ value_node st src = Ok s /\
    mk_constraint LOAD t s ∈ st.2 /\ mk_constraint STORE d t ∈ st.2.

Definition formals_covered (st : Collected) (f : AFunction) (args : list Value) : Prop :=
  forall k formal actual, fArgs f !! k = Some formal -> args !! k = Some actual -> isPtrTy M formal = true ->
    if isPointerTy M actual then copied st (Local formal) actual else from_universal st (Local formal).

Definition rest_covered (st : Collected) (f : AFunction) (rest : list Value) : Prop :=
  forall actual, actual ∈ rest -> isPointerTy M actual = true ->
    exists va a, varargMap st.1 !! fId f = Some va /\ value_node st actual = Ok a /\ mk_constraint COPY va a ∈ st.2.

Definition arguments_covered (st : Collected) (f : AFunction) (args : list Value) : Prop :=
  formals_covered st f args /\ (fVarArg f = true -> rest_covered st f (drop (length (fArgs f)) args)).

Definition polluted (st : Collected) (args : list Value) : Prop :=
  forall a, a ∈ args -> isPointerTy M a = true -> from_universal st a.

Definition returns_arg (st : Collected) (x : ValueId) (args : list Value) (i : nat) : Prop :=
  isPtrTy M x = true -> exists a, args !! i = Some a /\ copied st (Local x) a.

(** The functions whose effect is known. *)
Definition known (name : string) : bool :=
  lookupName noopFuncs name || lookupName mallocFuncs name || lookupName reallocFuncs name ||
  lookupName retArg0Funcs name || lookupName retArg1Funcs name || lookupName retArg2Funcs name ||
  lookupName memcpyFuncs name || lookupName convertFuncs name || bool_decide (name = "llvm.va_start"%string).

(** A call that allocates: its result points to an object of its own; where it
    has none -- [posix_memalign] -- the object is stored behind its first
    argument. *)
Definition memaligned (st : Collected) (x : ValueId) (args : list Value) : Prop :=
  exists a p o, args !! 0%nat = Some a /\ value_node st a = Ok p /\ objNodeMap st.1 !! x = Some o /\
    mk_constraint STORE p o ∈ st.2.

Definition allocation_covered (st : Collected) (x : ValueId) (args : list Value) : Prop :=
  (isPtrTy M x = true -> allocated st x) /\ (valueNodeMap st.1 !! x = None -> memaligned st x args).

(** A conversion of a string stores its second argument behind the first, unless
    the second is null (the C library stores a pointer into the first behind the
    second). *)
Definition converted (st : Collected) (args : list Value) : Prop :=
  exists b, args !! 1%nat = Some b /\ (isNull b = false -> exists a, args !! 0%nat = Some a /\ stored st a b).

(** The list of variable arguments that [va_start] opens. *)
Definition va_started (st : Collected) (parent : AFunction) (args : list Value) : Prop :=
  exists a n va, args !! 0%nat = Some a /\ value_node st a = Ok n /\ varargMap st.1 !! fId parent = Some va /\
    mk_constraint ADDR_OF n va ∈ st.2.

(** Their effects; [parent] is the function the call is in. *)
Definition library_covered (st : Collected) (parent : AFunction) (x : ValueId) (args : list Value) (name : string) : Prop :=
  lookupName noopFuncs name = false ->
  if lookupName mallocFuncs name then allocation_covered st x args
  else if lookupName reallocFuncs name then
    exists a, args !! 0%nat = Some a /\ if isNull a then returns_arg st x args 0 else allocation_covered st x args
  else if lookupName retArg0Funcs name then returns_arg st x args 0
  else if lookupName retArg1Funcs name then returns_arg st x args 1
  else if lookupName retArg2Funcs name then returns_arg st x args 2
  else if lookupName memcpyFuncs name then
    (exists a b, args !! 0%nat = Some a /\ args !! 1%nat = Some b /\ moved st a b) /\ returns_arg st x args 0
  else if lookupName convertFuncs name then converted st args
  else name = "llvm.va_start"%string -> va_started st parent args.

Definition result_covered (st : Collected) (x : ValueId) (F : FuncId) : Prop :=
  isPtrTy M x = true ->
  exists d r, value_node st (Local x) = Ok d /\ returnMap st.1 !! F = Some r /\ mk_constraint COPY d r ∈ st.2.

Definition callee_covered (st : Collected) (parent : AFunction) (x : ValueId) (args : list Value) (f : AFunction) : Prop :=
  if external f then library_covered st parent x args (fName f) /\ (known (fName f) = false -> polluted st args)
  else arguments_covered st f args.

(** A direct call, and an indirect one: there every function whose address is
    taken and that can be called with that many arguments is a callee. *)
Definition call_covered (st : Collected) (parent : AFunction) (x : ValueId) (callee : option FuncId) (args : list Value) : Prop :=
  match callee with
  | Some F => exists f, find_function M F = Some f /\ callee_covered st parent x args f /\
      if external f then known (fName f) = false -> isPtrTy M x = true -> from_universal st (Local x)
      else result_covered st x F
  | None =>
      (isPtrTy M x = true -> from_universal st (Local x)) /\
      forall f, f ∈ mFunctions M -> fAddressTaken f = true ->
        fVarArg f = true \/ length (fArgs f) = length args -> callee_covered st parent x args f
  end.

Definition instruction_covered (F : AFunction) (st : Collected) (i : AInstruction) : Prop :=
  let x := iId i in
  match iOp i with
  | Alloca => allocated st x
  | Call callee args => call_covered st F x callee args
  | Ret (Some v) => isPointerTy M v = true ->
      exists r n, returnMap st.1 !! fId F = Some r /\ value_node st v = Ok n /\ mk_constraint COPY r n ∈ st.2
  | Load p => isPtrTy M x = true -> loaded st (Local x) p
  | Store v p => isPointerTy M v = true -> stored st p v
  | GetElementPtr p => copied st (Local x) p
  | PHI incoming => isPtrTy M x = true -> forall v, v ∈ incoming -> copied st (Local x) v
  | BitCast v => isPtrTy M x = true -> copied st (Local x) v
  | IntToPtr (PtrToInt X) | IntToPtr (AddPtrToInt X) => copied st (Local x) X
  | IntToPtr OtherInt => from_universal st (Local x)
  | Select t e => isPtrTy M x = true -> copied st (Local x) t /\ copied st (Local x) e
  | VAArg => isPtrTy M x = true ->
      exists d va, value_node st (Local x) = Ok d /\ varargMap st.1 !! fId F = Some va /\ mk_constraint COPY d va ∈ st.2
  | Ret None | ExtractValue | Unimplemented | OtherOp => True
  end.

(** A global, and a function whose address is taken, points to its object; what
    a global without a definition contains is unknown. *)
Definition address_covered (st : Collected) (v : ValueId) : Prop :=
  exists n o, valueNodeMap st.1 !! v = Some n /\ objNodeMap st.1 !! v = Some o /\ mk_constraint ADDR_OF n o ∈ st.2.

(** * Going on collecting keeps what is covered *)

Lemma constant_node_mono st st' c n :
  goes st st' -> getValueNodeForConstant st.1 c = Ok (Some n) -> getValueNodeForConstant st'.1 c = Ok (Some n).
Proof.
  intros (_ & _ & (Hv & _) & _). induction c as [|ty|g|op b c IH| | |ops] using Constant_rect;
    cbn [getValueNodeForConstant]; intros H; apply rbind_ok in H as ([] & -> & H); cbn [rbind]; try done.
  - injection H as H. f_equal. by eapply lookup_weaken.
  - destruct op; auto.
Qed.

Lemma value_node_mono st st' v n : goes st st' -> value_node st v = Ok n -> value_node st' v = Ok n.
Proof.
  intros Hg H. unfold value_node, valid in *. apply rbind_ok in H as (o & Ho & H). destruct o as [m|]; [|done].
  injection H as ->. assert (getValueNodeFor st'.1 v = Ok (Some n)) as ->; [|done].
  destruct v as [c|x]; cbn [getValueNodeFor] in *.
  - destruct c; try (by eapply constant_node_mono). injection Ho as Ho. f_equal.
    eapply lookup_weaken; [exact Ho|apply Hg].
  - injection Ho as Ho. f_equal. eapply lookup_weaken; [exact Ho|apply Hg].
Qed.

Lemma constraint_mono st st' c : goes st st' -> c ∈ st.2 -> c ∈ st'.2.
Proof. intros (_ & _ & _ & H). apply H. Qed.

Lemma obj_mono st st' v n : goes st st' -> objNodeMap st.1 !! v = Some n -> objNodeMap st'.1 !! v = Some n.
Proof. intros (_ & _ & (_ & H & _) & _) ?. by eapply lookup_weaken. Qed.

Lemma val_mono st st' v n : goes st st' -> valueNodeMap st.1 !! v = Some n -> valueNodeMap st'.1 !! v = Some n.
Proof. intros (_ & _ & (H & _) & _) ?. by eapply lookup_weaken. Qed.

Lemma return_mono st st' v n : goes st st' -> returnMap st.1 !! v = Some n -> returnMap st'.1 !! v = Some n.
Proof. intros (_ & _ & (_ & _ & H & _) & _) ?. by eapply lookup_weaken. Qed.

Lemma vararg_mono st st' v n : goes st st' -> varargMap st.1 !! v = Some n -> varargMap st'.1 !! v = Some n.
Proof. intros (_ & _ & (_ & _ & _ & H) & _) ?. by eapply lookup_weaken. Qed.

Create HintDb cover.
#[local] Hint Resolve value_node_mono constraint_mono obj_mono val_mono return_mono vararg_mono : cover.

Lemma copied_mono st st' d s : goes st st' -> copied st d s -> copied st' d s.
Proof. intros Hg (? & ? & ? & ? & ?). do 2 eexists. eauto 12 with cover. Qed.

Lemma universal_mono st st' d : goes st st' -> from_universal st d -> from_universal st' d.
Proof. intros Hg (? & ? & ?). eexists. eauto 12 with cover. Qed.

Lemma allocated_mono st st' v : goes st st' -> allocated st v -> allocated st' v.
Proof. intros Hg (? & ? & ? & ? & ?). do 2 eexists. eauto 12 with cover. Qed.

Lemma loaded_mono st st' d p : goes st st' -> loaded st d p -> loaded st' d p.
Proof. intros Hg (? & ? & ? & ? & ?). do 2 eexists. eauto 12 with cover. Qed.

Lemma stored_mono st st' d p : goes st st' -> stored st d p -> stored st' d p.
Proof. intros Hg (? & ? & ? & ? & ?). do 2 eexists. eauto 12 with cover. Qed.

Lemma moved_mono st st' d s : goes st st' -> moved st d s -> moved st' d s.
Proof. intros Hg (? & ? & ? & ? & ? & ? & ?). do 3 eexists. eauto 12 with cover. Qed.

#[local] Hint Resolve copied_mono universal_mono allocated_mono loaded_mono stored_mono moved_mono : cover.

Lemma arguments_mono st st' f args : goes st st' -> arguments_covered st f args -> arguments_covered st' f args.
Proof.
  intros Hg [H1 H2]. split.
  - intros k fo ac Hf Ha Hp. specialize (H1 k fo ac Hf Ha Hp). destruct (isPointerTy M ac); eauto 12 with cover.
  - intros Hv a Ha Hp. destruct (H2 Hv a Ha Hp) as (? & ? & ? & ? & ?). do 2 eexists. eauto 12 with cover.
Qed.

Lemma polluted_mono st st' args : goes st st' -> polluted st args -> polluted st' args.
Proof. intros Hg H a Ha Hp. eauto 12 with cover. Qed.

Lemma returns_mono st st' x args i : goes st st' -> returns_arg st x args i -> returns_arg st' x args i.
Proof. intros Hg H Hp. destruct (H Hp) as (a & ? & ?). eauto 12 with cover. Qed.

Lemma memaligned_mono st st' x args : goes st st' -> memaligned st x args -> memaligned st' x args.
Proof. intros Hg (? & ? & ? & ? & ? & ? & ?). do 3 eexists. eauto 12 with cover. Qed.

Lemma val_none_mono st st' x : goes st st' -> valueNodeMap st'.1 !! x = None -> valueNodeMap st.1 !! x = None.
Proof.
  intros Hg H. destruct (valueNodeMap st.1 !! x) eqn:E; [|done].
  eapply val_mono in E; [|exact Hg]. congruence.
Qed.

Lemma allocation_mono st st' x args : goes st st' -> allocation_covered st x args -> allocation_covered st' x args.
Proof.
  intros Hg [H1 H2]. split; [eauto with cover|]. intros Hn. eapply memaligned_mono; [exact Hg|].
  by eapply H2, val_none_mono.
Qed.

Lemma converted_mono st st' args : goes st st' -> converted st args -> converted st' args.
Proof.
  intros Hg (b & Hb & H). exists b. split; [done|]. intros Hn. destruct (H Hn) as (a & ? & ?). eauto with cover.
Qed.

Lemma va_started_mono st st' parent args : goes st st' -> va_started st parent args -> va_started st' parent args.
Proof. intros Hg (? & ? & ? & ? & ? & ? & ?). do 3 eexists. eauto 12 with cover. Qed.

Lemma library_mono st st' parent x args name :
  goes st st' -> library_covered st parent x args name -> library_covered st' parent x args name.
Proof.
  intros Hg H Hn. specialize (H Hn).
  destruct (lookupName mallocFuncs name); [by eapply allocation_mono|].
  destruct (lookupName reallocFuncs name).
  { destruct H as (a & Ha & H). exists a. split; [done|]. destruct (isNull a); [by eapply returns_mono|by eapply allocation_mono]. }
  destruct (lookupName retArg0Funcs name); [by eapply returns_mono|].
  destruct (lookupName retArg1Funcs name); [by eapply returns_mono|].
  destruct (lookupName retArg2Funcs name); [by eapply returns_mono|].
  destruct (lookupName memcpyFuncs name).
  { destruct H as [(a & b & ? & ? & ?) Hr]. split; [|by eapply returns_mono]. do 2 eexists. eauto 12 with cover. }
  destruct (lookupName convertFuncs name); [by eapply converted_mono|]. intros He. by eapply va_started_mono; [|apply H].
Qed.

Lemma callee_mono st st' parent x args f :
  goes st st' -> callee_covered st parent x args f -> callee_covered st' parent x args f.
Proof.
  intros Hg H. unfold callee_covered in *. destruct (external f); [|by eapply arguments_mono].
  destruct H as [H1 H2]. split; [by eapply library_mono|]. intros Hk. by eapply polluted_mono; [|apply H2].
Qed.

Lemma call_mono st st' parent x callee args :
  goes st st' -> call_covered st parent x callee args -> call_covered st' parent x callee args.
Proof.
  intros Hg H. destruct callee as [F|]; cbn [call_covered] in *.
  - destruct H as (f & Hf & Hc & Hr). exists f. split; [done|]. split; [by eapply callee_mono|].
    destruct (external f); [eauto 12 with cover|]. intros Hp. destruct (Hr Hp) as (? & ? & ? & ? & ?).
    do 2 eexists. eauto 12 with cover.
  - destruct H as [H1 H2]. split; [eauto 12 with cover|]. intros f Hf Ht Ha. eapply callee_mono; [exact Hg|eauto].
Qed.

Lemma instruction_mono F st st' i : goes st st' -> instruction_covered F st i -> instruction_covered F st' i.
Proof.
  intros Hg H. unfold instruction_covered in *. destruct (iOp i) as [|callee args|[v|]|p|v p|p|incoming|v|[X|X|]|t e| | | |];
    eauto 12 with cover.
  - by eapply call_mono.
  - intros Hp. destruct (H Hp) as (? & ? & ? & ? & ?). do 2 eexists. eauto 12 with cover.
  - intros Hp. destruct (H Hp). eauto 12 with cover.
  - intros Hp. destruct (H Hp) as (? & ? & ? & ? & ?). do 2 eexists. eauto 12 with cover.
Qed.

(** * Each step covers what it reads *)

(** The nodes of pointer-valued instructions and of the functions whose address
    is taken are made before the instructions are read. *)
Definition has_node (st : Collected) (x : ValueId) : Prop :=
  isPtrTy M x = true -> exists n, valueNodeMap st.1 !! x = Some n.

Definition candidates_known (st : Collected) : Prop :=
  forall f, f ∈ mFunctions M -> fAddressTaken f = true -> exists n, valueNodeMap st.1 !! fId f = Some n.

Lemma has_node_mono st st' x : goes st st' -> has_node st x -> has_node st' x.
Proof. intros Hg H Hp. destruct (H Hp). eauto with cover. Qed.

Lemma candidates_mono st st' : goes st st' -> candidates_known st -> candidates_known st'.
Proof. intros Hg H f Hf Ht. destruct (H f Hf Ht). eauto with cover. Qed.

Lemma rfold_covers {A} (g : Collected -> A -> res Collected) (Q : Collected -> Prop) (P : A -> Collected -> Prop) l :
  (forall x st st', x ∈ l -> collected_ok st -> Q st -> g st x = Ok st' -> goes st st' /\ P x st') ->
  (forall st st', goes st st' -> Q st -> Q st') ->
  (forall x st st', x ∈ l -> goes st st' -> P x st -> P x st') ->
  forall st st', collected_ok st -> Q st -> rfold g l st = Ok st' -> forall x, x ∈ l -> P x st'.
Proof.
  intros Hg HQ HP. induction l as [|y l IH]; intros st st' Hst Hq H x Hx; [by apply not_elem_of_nil in Hx|].
  cbn [rfold] in H. apply rbind_ok in H as (st1 & E & H).
  destruct (Hg y st st1 (list_elem_of_here _ _) Hst Hq E) as [G1 P1].
  assert (goes st1 st') as G2.
  { revert H. apply (rfold_goes_inv g Q); [|done|apply G1|by eapply HQ].
    intros s z s' Hz Hs Hqs Hgs. by apply (Hg z s s' (list_elem_of_further _ _ _ Hz) Hs Hqs). }
  apply elem_of_cons in Hx as [->|Hx].
  - eapply HP; [apply list_elem_of_here|exact G2|exact P1].
  - eapply (IH); [|..|exact H|exact Hx].
    + intros z s s' Hz. apply Hg. by apply list_elem_of_further.
    + intros z s s' Hz. apply HP. by apply list_elem_of_further.
    + apply G1.
    + by eapply HQ.
Qed.

Lemma emitted t d s st : mk_constraint t d s ∈ (emit t d s st).2.
Proof. apply elem_of_app. right. by apply list_elem_of_singleton. Qed.
#[local] Hint Resolve emitted : cover.

Lemma value_node_local (st : Collected) x n : valueNodeMap st.1 !! x = Some n -> value_node st (Local x) = Ok n.
Proof. intros H. unfold value_node. cbn [getValueNodeFor]. by rewrite H. Qed.

Lemma node_local (st : Collected) x o : getValueNodeFor st.1 (Local x) = Ok o -> o = valueNodeMap st.1 !! x.
Proof. intros H. by injection H. Qed.

Lemma copy_return_covers must cs args i st (p : bool * Collected) :
  has_node st cs -> copy_return must cs args i st = Ok p -> p.1 = true /\ returns_arg p.2 cs args i.
Proof.
  intros Hn H. unfold copy_return in H. apply rbind_ok in H as (ret & ->%node_local & H).
  destruct (valueNodeMap st.1 !! cs) as [r|] eqn:Er.
  - unbind H. injection H as <-. split; [done|]. intros _. exists a. split.
    { unfold getArgOperand in E. destruct (args !! i); [by injection E as ->|done]. }
    exists r, a0. split; [by apply value_node_local|]. split; [exact E0|]. apply emitted.
  - destruct must; [done|]. injection H as <-. split; [done|]. intros Hp. destruct (Hn Hp). congruence.
Qed.

Lemma arg_operand args i a : getArgOperand args i = Ok a -> args !! i = Some a.
Proof. unfold getArgOperand. destruct (args !! i); [by intros [= ->]|done]. Qed.

(** The branch of the functions that allocate. *)
Lemma allocation_covers cs (args : list Value) f st (p : bool * Collected) :
  collected_ok st -> has_node st cs ->
  (let* o := createObjectNode (Some cs) st.1 in
   let st1 := (o.2, st.2) in
   let* ptr := getValueNodeFor st1.1 (Local cs) in
   match ptr with
   | Some ptrIndex => Ok (true, emit ADDR_OF ptrIndex o.1 st1)
   | None =>
       if bool_decide (fName f = "posix_memalign"%string) then
         let* a := getArgOperand args 0 in
         let* ptrIndex := value_node st1 a in
         Ok (true, emit STORE ptrIndex o.1 st1)
       else Broken
   end) = Ok p -> p.1 = true /\ allocation_covered p.2 cs args.
Proof.
  intros Hst Hn H. apply rbind_ok in H as (o & Eo & H). cbv zeta in H.
  assert (valueNodeMap o.2 = valueNodeMap st.1 /\ objNodeMap o.2 !! cs = Some o.1) as [Hv Ho].
  { apply rbind_ok in Eo as (u & _ & [= <-]). split; [done|].
    cbn [fst snd objNodeMap]. apply (lookup_insert_eq (objNodeMap st.1)). }
  apply rbind_ok in H as (ptr & ->%node_local & H). cbn [fst] in H. rewrite Hv in H.
  destruct (valueNodeMap st.1 !! cs) as [n|] eqn:En.
  - injection H as <-. split; [done|]. split; [|cbn [emit fst snd]; congruence].
    intros _. exists n, o.1. split; [|split; [exact Ho|apply emitted]].
    apply value_node_local. cbn [emit fst snd]. by rewrite Hv.
  - destruct (bool_decide _); [|done]. apply rbind_ok in H as (a & Ea%arg_operand & H).
    apply rbind_ok in H as (q & Eq & H). injection H as <-. split; [done|].
    split; [intros Hp; destruct (Hn Hp); congruence|]. intros _. exists a, q, o.1.
    split; [exact Ea|]. split; [exact Eq|]. split; [exact Ho|apply emitted].
Qed.

Lemma memcpy_covers cs args st (p : bool * Collected) :
  collected_ok st -> has_node st cs ->
  (let* a0 := getArgOperand args 0 in
   let* arg0Index := value_node st a0 in
   let* a1 := getArgOperand args 1 in
   let* arg1Index := value_node st a1 in
   let* t := createValueNode None st.1 in
   let st1 := emit STORE arg0Index t.1 (emit LOAD t.1 arg1Index (t.2, st.2)) in
   let* ret := getValueNodeFor st1.1 (Local cs) in
   Ok (true, match ret with Some retIndex => emit COPY retIndex arg0Index st1 | None => st1 end)) = Ok p ->
  p.1 = true /\ (exists a b, args !! 0%nat = Some a /\ args !! 1%nat = Some b /\ moved p.2 a b) /\ returns_arg p.2 cs args 0.
Proof.
  intros Hst Hn H. cbv zeta in H. apply rbind_ok in H as (a & Ea%arg_operand & H). apply rbind_ok in H as (d & Ed & H).
  apply rbind_ok in H as (b & Eb%arg_operand & H). apply rbind_ok in H as (s & Es & H).
  apply rbind_ok in H as (t & Et & H).
  apply createValueNode_ok in Et; [|apply Hst].
  destruct (created_goes _ _ _ _ Hst Et) as (Hg & _ & _).
  set (st1 := emit STORE d t.1 (emit LOAD t.1 s (t.2, st.2))) in *.
  assert (value_node st1 a = Ok d) as Ed' by exact (value_node_mono _ _ _ _ Hg Ed).
  apply rbind_ok in H as (ret & ->%node_local & H). injection H as <-. split; [done|].
  assert (moved st1 a b) as Hm.
  { exists d, s, t.1. split; [exact Ed'|]. split; [exact (value_node_mono _ _ _ _ Hg Es)|].
    split; [apply elem_of_app; left; apply emitted|apply emitted]. }
  change (valueNodeMap t.2 !! cs) with (valueNodeMap st1.1 !! cs).
  destruct (valueNodeMap st1.1 !! cs) as [r|] eqn:Er; (split; [exists a, b; split; [done|]; split; [done|]|]).
  - destruct Hm as (d1 & s1 & t1 & H1 & H2 & H3 & H4). exists d1, s1, t1.
    split; [exact H1|]. split; [exact H2|]. split; apply elem_of_app; left; assumption.
  - intros _. exists a. split; [done|]. exists r, d. split; [by apply value_node_local|].
    split; [exact Ed'|apply emitted].
  - exact Hm.
  - intros Hp. destruct (Hn Hp) as [n En]. apply (val_mono _ (t.2, st.2)) in En; [|exact Hg]. cbn [snd st1 emit fst] in *. congruence.
Qed.

Lemma convert_covers (args : list Value) st (p : bool * Collected) :
  (let* a1 := getArgOperand args 1 in
   if isNull a1 then Ok (true, st)
   else
     let* a0 := getArgOperand args 0 in
     let* arg0Index := value_node st a0 in
     let* arg1Index := value_node st a1 in
     Ok (true, emit STORE arg0Index arg1Index st)) = Ok p -> p.1 = true /\ converted p.2 args.
Proof.
  intros H. apply rbind_ok in H as (b & Eb%arg_operand & H). destruct (isNull b) eqn:En.
  - injection H as <-. split; [done|]. exists b. split; [done|congruence].
  - apply rbind_ok in H as (a & Ea%arg_operand & H). apply rbind_ok in H as (n & Ena & H).
    apply rbind_ok in H as (m & Em & H). injection H as <-. split; [done|]. exists b. split; [done|]. intros _.
    exists a. split; [done|]. exists n, m. split; [exact Ena|]. split; [exact Em|apply emitted].
Qed.

Lemma va_start_covers parent (args : list Value) st (p : bool * Collected) :
  (let* _ := guard (fVarArg parent) in
   let* a0 := getArgOperand args 0 in
   let* arg0Index := value_node st a0 in
   let* vaIndex := of_option (getVarargNodeFor st.1 (fId parent)) in
   Ok (true, emit ADDR_OF arg0Index vaIndex st)) = Ok p -> p.1 = true /\ va_started p.2 parent args.
Proof.
  intros H. apply rbind_ok in H as (u & _ & H). apply rbind_ok in H as (a & Ea%arg_operand & H).
  apply rbind_ok in H as (n & En & H). apply rbind_ok in H as (va & Eva & H). injection H as <-. split; [done|].
  exists a, n, va. split; [done|]. split; [exact En|]. split; [|apply emitted].
  unfold getVarargNodeFor in Eva. cbn [emit fst snd].
  destruct (varargMap st.1 !! fId parent) as [w|]; [by injection Eva as ->|done].
Qed.

(** A result that is [true] was that of a known function. *)
Lemma external_covers parent cs args f st (p : bool * Collected) :
  collected_ok st -> has_node st cs -> addConstraintForExternalLibrary parent cs args f st = Ok p ->
  library_covered p.2 parent cs args (fName f) /\ (p.1 = true -> known (fName f) = true).
Proof.
  intros Hst Hn H. unfold addConstraintForExternalLibrary in H. unfold library_covered, known.
  destruct (lookupName noopFuncs (fName f)); [by injection H as <-|].
  apply rbind_ok in H as (nullArg0 & En & H).
  destruct (lookupName mallocFuncs (fName f)) eqn:Em; cbn [orb] in H |- *.
  { apply allocation_covers in H as [_ H]; [|done..]. done. }
  destruct (lookupName reallocFuncs (fName f)) eqn:Er; cbn [orb andb] in H |- *.
  { apply rbind_ok in En as (a & Ea%arg_operand & [= <-]). split; [|done]. intros _. exists a. split; [done|].
    destruct (isNull a); cbn [negb] in H.
    - rewrite orb_true_r in H. by apply copy_return_covers in H as [_ H].
    - by apply allocation_covers in H as [_ H]. }
  rewrite orb_false_r in H.
  destruct (lookupName retArg0Funcs (fName f)); [by apply copy_return_covers in H as [_ H]|].
  destruct (lookupName retArg1Funcs (fName f)); [by apply copy_return_covers in H as [_ H]|].
  destruct (lookupName retArg2Funcs (fName f)); [by apply copy_return_covers in H as [_ H]|].
  destruct (lookupName memcpyFuncs (fName f)); [by apply memcpy_covers in H as [_ H]|].
  destruct (lookupName convertFuncs (fName f)); [by apply convert_covers in H as [_ H]|]. cbn [orb] in H |- *.
  case_bool_decide as Ev; [by apply va_start_covers in H as [_ H]|]. by injection H as <-.
Qed.

Lemma pollute_covers args st st' : collected_ok st -> pollute_args M args st = Ok st' -> polluted st' args.
Proof.
  intros Hst H a Ha. revert a Ha. eapply (rfold_covers _ (fun _ => True) (fun a s => isPointerTy M a = true -> from_universal s a));
    [| |..|exact Hst|done|exact H]; [|done|eauto 12 with cover].
  clear. intros a st st' _ Hst _ H. split; [by eapply pollute_arg_goes|]. intros Hp. unfold pollute_arg in H.
  rewrite Hp in H. unbind H. injection H as <-. eexists. split; [exact E|]. apply emitted.
Qed.

Lemma copy_result_covers cs src n st st' :
  src = Ok n -> copy_result M cs src st = Ok st' -> isPtrTy M cs = true ->
  exists d, value_node st' (Local cs) = Ok d /\ mk_constraint COPY d n ∈ st'.2.
Proof.
  intros -> H Hp. unfold copy_result in H. rewrite Hp in H. unbind H. injection E0 as <-. injection H as <-.
  eexists. split; [exact E|]. apply emitted.
Qed.

Lemma match_args_covers fs : forall actuals st p, collected_ok st -> match_args M fs actuals st = Ok p ->
  p.1 = drop (length fs) actuals /\
  forall k formal actual, fs !! k = Some formal -> actuals !! k = Some actual -> isPtrTy M formal = true ->
    if isPointerTy M actual then copied p.2 (Local formal) actual else from_universal p.2 (Local formal).
Proof.
  induction fs as [|formal fs IH]; intros actuals st p Hst H; cbn [match_args] in H.
  { injection H as <-. by split. }
  destruct actuals as [|actual rest]; [injection H as <-; by split|].
  apply rbind_ok in H as (st1 & E & H).
  assert (goes st st1) as G.
  { apply (match_args_goes M [formal] [actual] st ([], st1) Hst). cbn [match_args]. by rewrite E. }
  pose proof (match_args_goes M _ _ _ _ (proj1 G) H) as G2. destruct (IH _ _ _ (proj1 G) H) as [H1 H2]. split; [done|].
  intros [|k] fo ac Hf Ha Hp; [|by apply (H2 k)]. injection Hf as <-. injection Ha as <-. rewrite Hp in E.
  apply rbind_ok in E as (d & Ed & E). destruct (isPointerTy M actual).
  - apply rbind_ok in E as (s & Es & [= <-]). eapply copied_mono; [exact G2|]. exists d, s. split; [done|]. split; [done|apply emitted].
  - injection E as <-. eapply universal_mono; [exact G2|]. exists d. split; [done|apply emitted].
Qed.

Lemma arguments_covers args f st st' :
  collected_ok st -> addArgumentConstraintForCall M args f st = Ok st' -> arguments_covered st' f args.
Proof.
  intros Hst H. apply rbind_ok in H as (p & Ep & H).
  pose proof (match_args_goes M _ _ _ _ Hst Ep) as G. destruct (match_args_covers _ _ _ _ Hst Ep) as [H1 H2].
  destruct (fVarArg f) eqn:Ev; [|injection H as <-; split; [exact H2|congruence]].
  pose proof (pass_varargs_goes M _ _ _ _ (proj1 G) H) as G1. split.
  - intros k fo ac Hf Ha Hp. specialize (H2 k fo ac Hf Ha Hp). destruct (isPointerTy M ac); eauto with cover.
  - intros _. rewrite <- H1. intros a Ha. revert a Ha.
    eapply (rfold_covers _ (fun _ => True) (fun a s => isPointerTy M a = true -> exists va n,
      varargMap s.1 !! fId f = Some va /\ value_node s a = Ok n /\ mk_constraint COPY va n ∈ s.2));
      [| |..|apply G|done|exact H]; [|done|].
    + clear. intros a s s' _ Hs _ H. split; [by eapply pass_vararg_goes|]. intros Hp. unfold pass_vararg in H.
      rewrite Hp in H. unbind H. injection H as <-. unfold getVarargNodeFor in E0.
      destruct (varargMap s.1 !! fId f) eqn:Em; [|done]. injection E0 as <-. do 2 eexists.
      split; [exact Em|]. split; [exact E|apply emitted].
    + intros a s s' _ Hg Ha Hp. destruct (Ha Hp) as (? & ? & ? & ? & ?). do 2 eexists. eauto 12 with cover.
Qed.

Lemma candidate_covers parent cs args st f st' :
  collected_ok st -> has_node st cs -> candidates_known st -> f ∈ mFunctions M ->
  indirect_candidate M parent cs args st f = Ok st' ->
  fAddressTaken f = true -> fVarArg f = true \/ length (fArgs f) = length args -> callee_covered st' parent cs args f.
Proof.
  intros Hst Hn Hk Hf H Ht Ha. destruct (Hk f Hf Ht) as [n En].
  apply rbind_ok in H as (fp & Efp & H). injection Efp as <-. rewrite En in H.
  assert (negb (fVarArg f) && negb (length (fArgs f) =? length args)%nat = false) as Eg.
  { destruct Ha as [-> | ->]; [done|]. rewrite Nat.eqb_refl. apply andb_false_r. }
  rewrite Eg in H. unfold callee_covered. destruct (external f); [|by eapply arguments_covers].
  apply rbind_ok in H as (p & Ep & H). pose proof (external_goes _ _ _ _ _ _ Hst Ep) as G.
  destruct (external_covers _ _ _ _ _ _ Hst Hn Ep) as [H1 H2]. destruct (fst p).
  - injection H as <-. split; [done|]. rewrite (H2 eq_refl). done.
  - pose proof (pollute_goes M _ _ _ (proj1 G) H) as G2. split; [by eapply library_mono|].
    intros _. by eapply pollute_covers; [apply G|].
Qed.

Lemma call_covers parent cs callee args st st' :
  collected_ok st -> has_node st cs -> candidates_known st ->
  addConstraintForCall M parent cs callee args st = Ok st' -> call_covered st' parent cs callee args.
Proof.
  intros Hst Hn Hk H. destruct callee as [F|]; cbn [addConstraintForCall call_covered] in *.
  - apply rbind_ok in H as (f & Ef & H). destruct (find_function M F) as [f'|]; [|done]. injection Ef as ->.
    exists f. split; [done|]. unfold callee_covered. destruct (external f).
    + apply rbind_ok in H as (p & Ep & H). pose proof (external_goes _ _ _ _ _ _ Hst Ep) as G.
      destruct (external_covers _ _ _ _ _ _ Hst Hn Ep) as [H1 H2]. destruct (fst p).
      { injection H as <-. rewrite (H2 eq_refl). by split. }
      apply rbind_ok in H as (st1 & E1 & H).
      assert (goes p.2 st1) as G1.
      { refine (copy_result_goes M cs (Ok getUniversalPtrNode) _ _ (proj1 G) _ E1). intros n [= <-]. apply special_lt, G. }
      pose proof (pollute_goes M _ _ _ (proj1 G1) H) as G2. split; [split|].
      * eapply library_mono; [exact G2|]. by eapply library_mono.
      * intros _. by eapply pollute_covers; [apply G1|].
      * intros _ Hp. eapply universal_mono; [exact G2|]. by eapply copy_result_covers.
    + apply rbind_ok in H as (st1 & E1 & H).
      assert (forall n, of_option (getReturnNodeFor st.1 F) = Ok n -> (n < getNumNodes st.1)%N) as Hr
        by (intros n; by apply return_lt).
      pose proof (copy_result_goes M _ _ _ _ Hst Hr E1) as G1.
      pose proof (arguments_goes M _ _ _ _ (proj1 G1) H) as G2. split; [by eapply arguments_covers; [apply G1|]|].
      intros Hp. pose proof E1 as E1'. unfold copy_result in E1'. rewrite Hp in E1'. unbind E1'.
      destruct (copy_result_covers _ _ _ _ _ E0 E1 Hp) as (d & Hd & Hc). unfold getReturnNodeFor in E0.
      destruct (returnMap st.1 !! F) eqn:Em; [|done]. injection E0 as <-.
      exists d. eexists. split; [by eapply value_node_mono|]. split; [|by eapply constraint_mono].
      eapply return_mono; [exact G2|]. by eapply return_mono.
  - apply rbind_ok in H as (st1 & E1 & H).
    assert (goes st st1) as G1.
    { refine (copy_result_goes M cs (Ok getUniversalPtrNode) _ _ Hst _ E1). intros n [= <-]. by apply special_lt. }
    assert (goes st1 st') as G2.
    { revert H. apply rfold_goes; [|apply G1]. intros s f s' _. apply candidate_goes. }
    split; [intros Hp; eapply universal_mono; [exact G2|]; by eapply copy_result_covers|].
    eapply (rfold_covers _ (fun s => has_node s cs /\ candidates_known s) (fun f s => fAddressTaken f = true ->
      fVarArg f = true \/ length (fArgs f) = length args -> callee_covered s parent cs args f)); [| | |apply G1| |exact H].
    + intros f s s' Hf Hs [Hns Hks] Hc. split; [by eapply candidate_goes|]. intros Ht Ha. by eapply candidate_covers.
    + intros s s' G [? ?]. split; [by eapply has_node_mono|by eapply candidates_mono].
    + intros f s s' _ G Hc Ht Ha. eapply callee_mono; [exact G|auto].
    + split; [by eapply has_node_mono|by eapply candidates_mono].
Qed.

Lemma copy_values_covers dst src st st' : copy_values dst src st = Ok st' -> copied st' dst src.
Proof.
  intros H. unfold copy_values in H. unbind H. injection H as <-. do 2 eexists.
  split; [exact E0|]. split; [exact E|]. apply emitted.
Qed.

Lemma phi_covers st dst d incoming st' :
  collected_ok st -> value_node st dst = Ok d ->
  rfold (fun st v => let* srcIndex := value_node st v in Ok (emit COPY d srcIndex st)) incoming st = Ok st' ->
  forall v, v ∈ incoming -> copied st' dst v.
Proof.
  intros Hst Hd H. eapply (rfold_covers _ (fun s => value_node s dst = Ok d) (fun v s => copied s dst v));
    [| | |exact Hst|exact Hd|exact H].
  - intros v s s' _ Hs Hds Hv. apply rbind_ok in Hv as (n & En & [= <-]). split.
    + apply emit_ok; [done|by eapply value_node_lt|by eapply value_node_lt|done].
    + exists d, n. split; [done|]. split; [done|apply emitted].
  - intros s s' G. by apply value_node_mono.
  - intros v s s' _ G. by apply copied_mono.
Qed.

Lemma return_node (st : Collected) F n : of_option (getReturnNodeFor st.1 F) = Ok n -> returnMap st.1 !! F = Some n.
Proof. unfold getReturnNodeFor. destruct (returnMap st.1 !! F); [by intros [= ->]|done]. Qed.

Lemma vararg_node (st : Collected) F n : of_option (getVarargNodeFor st.1 F) = Ok n -> varargMap st.1 !! F = Some n.
Proof. unfold getVarargNodeFor. destruct (varargMap st.1 !! F); [by intros [= ->]|done]. Qed.

Lemma instruction_covers F st i st' :
  collected_ok st -> has_node st (iId i) -> candidates_known st ->
  collectConstraintsForInstruction M F st i = Ok st' -> instruction_covered F st' i.
Proof.
  intros Hst Hn Hk H. destruct i as [x op].
  unfold collectConstraintsForInstruction, instruction_covered in *. cbn [iId iOp] in *.
  destruct op as [|callee args|[v|]|p|v p|p|incoming|v|[X|X|]|t e| | | |]; try done;
    try (intros Hp; rewrite Hp in H).
  - unbind H. injection H as <-. exists a, a0.1. split; [|split; [|apply emitted]].
    + cbn [emit fst snd]. unfold value_node in *. cbn [getValueNodeFor] in *.
      apply rbind_ok in E0 as (u & _ & [= <-]). exact E.
    + apply rbind_ok in E0 as (u & _ & [= <-]). cbn [emit fst snd objNodeMap]. apply (lookup_insert_eq (objNodeMap st.1)).
  - by eapply call_covers.
  - unbind H. injection H as <-. exists a, a0. split; [by apply return_node|]. split; [exact E0|apply emitted].
  - unbind H. injection H as <-. exists a0, a. split; [exact E0|]. split; [exact E|apply emitted].
  - unbind H. injection H as <-. exists a0, a. split; [exact E0|]. split; [exact E|apply emitted].
  - apply rbind_ok in H as ([] & _ & H). by eapply copy_values_covers.
  - apply rbind_ok in H as (d & Ed & H). by eapply phi_covers.
  - by eapply copy_values_covers.
  - unbind H. injection H as <-. exists a0, a1. split; [exact E0|]. split; [exact E1|apply emitted].
  - unbind H. injection H as <-. exists a0, a1. split; [exact E0|]. split; [exact E1|apply emitted].
  - unbind H. injection H as <-. exists a0. split; [exact E0|apply emitted].
  - unbind H. injection H as <-. split; [exists a1, a|exists a1, a0]; (split; [done|split; [done|]]); [|apply emitted].
    apply elem_of_app. left. apply emitted.
  - unbind H. injection H as <-. exists a, a0. split; [exact E|]. split; [by apply vararg_node|apply emitted].
Qed.

Lemma create_nodes_has vs st st' :
  collected_ok st -> create_nodes M vs st = Ok st' -> forall x, x ∈ vs -> has_node st' x.
Proof.
  intros Hst H. eapply (rfold_covers _ (fun _ => True) (fun x s => has_node s x)); [| | |exact Hst|done|exact H]; [|done|].
  - intros x s s' _ Hs _ Hx. split.
    + apply (create_nodes_goes M [x]); [done|]. unfold create_nodes. cbn [rfold]. by rewrite Hx.
    + intros Hp. cbv beta in Hx; rewrite Hp in Hx. unbind Hx. injection Hx as <-. apply rbind_ok in E as (u & _ & [= <-]).
      eexists. cbn [fst valueNodeMap]. apply (lookup_insert_eq (valueNodeMap s.1)).
  - intros x s s' _ G. by apply has_node_mono.
Qed.

Lemma function_covers st f st' :
  collected_ok st -> candidates_known st -> collect_function M st f = Ok st' -> external f = false ->
  forall i, i ∈ fInsts f -> instruction_covered f st' i.
Proof.
  intros Hst Hk H He. unfold collect_function in H. rewrite He in H. apply rbind_ok in H as (st1 & E1 & H).
  pose proof (create_nodes_goes M _ _ _ Hst E1) as G1.
  eapply (rfold_covers _ (fun s => candidates_known s /\ forall x, x ∈ iId <$> fInsts f -> has_node s x)
    (fun i s => instruction_covered f s i)); [| | |apply G1| |exact H].
  - intros i s s' Hi Hs [Hks Hns] Hc. split; [by eapply instruction_goes|]. eapply instruction_covers; [done| |done|done].
    apply Hns. apply list_elem_of_fmap. eauto.
  - intros s s' G [? Hns]. split; [by eapply candidates_mono|]. intros x Hx. eapply has_node_mono; [exact G|auto].
  - intros i s s' _ G. by apply instruction_mono.
  - split; [by eapply candidates_mono|]. by eapply create_nodes_has.
Qed.
(** What a global without a definitive initializer contains is unknown. *)
Definition contents_unknown (st : Collected) (v : ValueId) : Prop :=
  exists o, objNodeMap st.1 !! v = Some o /\ mk_constraint COPY o getUniversalObjNode ∈ st.2.

(** The parts of an initializer that are no aggregate. *)
Inductive leaf : Constant -> Constant -> Prop :=
| leaf_here c : leaf c c
| leaf_in ops o l : o ∈ ops -> leaf o l -> leaf (ConstantAggregate ops) l.

(** What an initializer needs: its global contains the address of the object of
    every pointer in it, and null where it is zero. *)
Definition contains (st : Collected) (o : NodeIndex) (c : Constant) : Prop :=
  forall l, leaf c l ->
    (isPointer l = true -> exists r, getObjectNodeForConstant st.1 l = Ok (Some r) /\ mk_constraint ADDR_OF o r ∈ st.2) /\
    (l = ConstantAggregateZero -> mk_constraint COPY o getNullObjectNode ∈ st.2).

Definition initialised (st : Collected) (v : ValueId) (c : Constant) : Prop :=
  exists o, objNodeMap st.1 !! v = Some o /\ contains st o c.

Lemma constant_object_mono st st' c r :
  goes st st' -> getObjectNodeForConstant st.1 c = Ok (Some r) -> getObjectNodeForConstant st'.1 c = Ok (Some r).
Proof.
  intros Hg. induction c as [|ty|g|op b c IH| | |ops] using Constant_rect;
    cbn [getObjectNodeForConstant]; intros H; apply rbind_ok in H as ([] & -> & H); cbn [rbind]; try done.
  - injection H as H. f_equal. by eapply obj_mono.
  - destruct op; auto.
Qed.

Lemma contains_mono st st' o c : goes st st' -> contains st o c -> contains st' o c.
Proof.
  intros Hg H l Hl. destruct (H l Hl) as [H1 H2]. split; [|eauto with cover].
  intros Hp. destruct (H1 Hp) as (r & Er & Hr). exists r. split; [by eapply constant_object_mono|by eapply constraint_mono].
Qed.

Lemma initialised_mono st st' v c : goes st st' -> initialised st v c -> initialised st' v c.
Proof. intros Hg (o & Ho & H). exists o. split; [by eapply obj_mono|by eapply contains_mono]. Qed.

Lemma leaf_inv c l : leaf c l -> l = c \/ exists ops o, c = ConstantAggregate ops /\ o ∈ ops /\ leaf o l.
Proof. destruct 1; [by left|right; eauto]. Qed.

(** A constant that is no aggregate. *)
Lemma contains_simple st o c :
  (forall ops, c <> ConstantAggregate ops) ->
  (isPointer c = true -> exists r, getObjectNodeForConstant st.1 c = Ok (Some r) /\ mk_constraint ADDR_OF o r ∈ st.2) ->
  (c = ConstantAggregateZero -> mk_constraint COPY o getNullObjectNode ∈ st.2) -> contains st o c.
Proof. intros Hn H1 H2 l [->|(ops & x & -> & _)]%leaf_inv; [done|]. by destruct (Hn ops). Qed.

Lemma initializer_covers n c : forall st st', collected_ok st -> (n < getNumNodes st.1)%N ->
  addGlobalInitializerConstraints n c st = Ok st' -> contains st' n c.
Proof.
  assert (forall c st st', (forall ops, c <> ConstantAggregate ops) -> c <> ConstantAggregateZero ->
    (let* rhsNode := valid (getObjectNodeForConstant st.1 c) in Ok (emit ADDR_OF n rhsNode st)) = Ok st' -> contains st' n c) as Hp.
  { intros c0 st st' Hn Hz H. unbind H. injection H as <-. apply contains_simple; [done| |done]. intros _.
    exists a. split; [|apply emitted]. unfold valid in E. apply rbind_ok in E as (o & Eo & E).
    destruct o as [m|]; [|done]. injection E as ->. exact Eo. }
  revert c. fix IH 1. intros c st st' Hst Hn H. destruct c as [|[]|g|op [] c'| | |ops];
    cbn [addGlobalInitializerConstraints] in H;
    try (by apply contains_simple); try (by eapply (Hp _ st)).
  - injection H as <-. apply contains_simple; [done..|]. intros _. apply emitted.
  - intros l [->|(ops' & x & [= <-] & Hx & Hl)]%leaf_inv; [done|]. revert l Hl.
    change (contains st' n x). revert x Hx. revert st st' Hst Hn H.
    induction ops as [|o r IHr]; intros st st' Hst Hn H x Hx; [by apply not_elem_of_nil in Hx|].
    apply rbind_ok in H as (st1 & E1 & H).
    pose proof (initializer_goes n o st st1 Hst Hn E1) as G1.
    assert ((n < getNumNodes st1.1)%N) as Hn1 by (destruct G1 as [_ [[? _] _]]; lia).
    pose proof (initializer_goes n (ConstantAggregate r) st1 st' (proj1 G1) Hn1 H) as G2.
    apply elem_of_cons in Hx as [->|Hx].
    + eapply contains_mono; [exact G2|]. by apply (IH o st st1).
    + apply (IHr st1 st' (proj1 G1) Hn1 H x Hx).
Qed.

Lemma init_global_covers st g st' :
  collected_ok st -> init_global st g = Ok st' ->
  match gInit g with None => contents_unknown st' (gId g) | Some c => initialised st' (gId g) c end.
Proof.
  intros Hst H. pose proof (init_global_goes st g st' Hst H) as G. apply rbind_ok in H as (o & Eo & H).
  assert (objNodeMap st.1 !! gId g = Some o) as Ho.
  { apply rbind_ok in Eo as (x & Ex & Eo). destruct x; [|done]. injection Eo as ->.
    cbn [getObjectNodeFor] in Ex. by injection Ex. }
  destruct (gInit g) as [c|].
  - exists o. split; [by eapply obj_mono|]. eapply initializer_covers; [done| |exact H].
    eapply table_lt; [apply (fo_obj _ (proj1 Hst))|exact Ho].
  - injection H as <-. exists o. split; [exact Ho|apply emitted].
Qed.

Lemma address_mono st st' v : goes st st' -> address_covered st v -> address_covered st' v.
Proof. intros Hg (? & ? & ? & ? & ?). do 2 eexists. eauto 12 with cover. Qed.

Lemma unknown_mono st st' v : goes st st' -> contents_unknown st v -> contents_unknown st' v.
Proof. intros Hg (? & ? & ?). eexists. eauto 12 with cover. Qed.

Lemma value_and_object_covers v (st : Collected) p o :
  createValueNode (Some v) st.1 = Ok p -> createObjectNode (Some v) p.2 = Ok o ->
  address_covered (emit ADDR_OF p.1 o.1 (o.2, st.2)) v.
Proof.
  intros Ep Eo. apply rbind_ok in Ep as (u & _ & [= <-]). apply rbind_ok in Eo as (u' & _ & [= <-]).
  do 2 eexists. cbn [emit fst snd valueNodeMap objNodeMap].
  split; [apply (lookup_insert_eq (valueNodeMap st.1))|]. split; [apply (lookup_insert_eq (objNodeMap st.1))|].
  apply elem_of_app. right. by apply list_elem_of_singleton.
Qed.

Lemma add_global_goes st g st' :
  collected_ok st -> add_global st g = Ok st' -> goes st st' /\ address_covered st' (gId g).
Proof.
  intros Hst H. unfold add_global in H. unbind H. injection H as <-.
  split; [by apply value_and_object_goes with (v := gId g)|by apply value_and_object_covers].
Qed.

Lemma add_function_covers st f st' :
  collected_ok st -> add_function M st f = Ok st' -> fAddressTaken f = true -> address_covered st' (fId f).
Proof.
  intros Hst H Ht. apply rbind_ok in H as (st1 & E1 & H). rewrite Ht in E1. unbind E1. injection E1 as <-.
  match goal with H : context [external f] |- _ => revert H end.
  match goal with |- context [emit ADDR_OF ?a ?b ?s] => set (s1 := emit ADDR_OF a b s) end. intros H.
  assert (address_covered s1 (fId f)) as Hc by by apply value_and_object_covers.
  assert (goes st s1) as G1 by by apply value_and_object_goes with (v := fId f).
  assert (goes s1 st') as G; [|by eapply address_mono].
  set (f' := {| fId := fId f; fName := fName f; fAddressTaken := false; fDeclaration := fDeclaration f;
    fIntrinsic := fIntrinsic f; fReturnsPointer := fReturnsPointer f; fVarArg := fVarArg f; fArgs := fArgs f; fInsts := [] |}).
  apply (add_function_goes M s1 f'); [apply G1|]. unfold add_function. cbn [fAddressTaken f' rbind]. exact H.
Qed.

(** The state after the globals. *)
Lemma globals_cover st st' :
  collected_ok st -> collectConstraintsForGlobals M st = Ok st' ->
  goes st st' /\ (forall g, g ∈ mGlobals M -> address_covered st' (gId g)) /\
  (forall f, f ∈ mFunctions M -> fAddressTaken f = true -> address_covered st' (fId f)) /\
  (forall g, g ∈ mGlobals M ->
    match gInit g with None => contents_unknown st' (gId g) | Some c => initialised st' (gId g) c end).
Proof.
  intros Hst H. apply rbind_ok in H as (s1 & E1 & H). apply rbind_ok in H as (s2 & E2 & H).
  assert (goes st s1) as G1.
  { revert E1. apply rfold_goes; [|done]. intros s g s' _ Hs Hg. apply (add_global_goes s g s' Hs Hg). }
  assert (goes s1 s2) as G2.
  { revert E2. apply rfold_goes; [|apply G1]. intros s f s' _. apply add_function_goes. }
  assert (goes s2 st') as G3.
  { revert H. apply rfold_goes; [|apply G2]. intros s g s' _. apply init_global_goes. }
  split; [eapply goes_trans; [exact G1|]; by eapply goes_trans|]. split; [|split].
  - intros g Hg. eapply address_mono; [exact G3|]. eapply address_mono; [exact G2|]. revert g Hg.
    eapply (rfold_covers _ (fun _ => True) (fun g s => address_covered s (gId g))); [| | |exact Hst|done|exact E1]; [|done|].
    + intros g s s' _ Hs _. by apply add_global_goes.
    + intros g s s' _ G. by apply address_mono.
  - intros f Hf Ht. eapply address_mono; [exact G3|]. revert f Hf Ht.
    eapply (rfold_covers _ (fun _ => True) (fun f s => fAddressTaken f = true -> address_covered s (fId f)));
      [| | |apply G1|done|exact E2]; [|done|].
    + intros f s s' _ Hs _ Hf. split; [by eapply add_function_goes|]. by eapply add_function_covers.
    + intros f s s' _ G Hf Ht. eapply address_mono; [exact G|auto].
  - eapply (rfold_covers _ (fun _ => True) (fun g s =>
      match gInit g with None => contents_unknown s (gId g) | Some c => initialised s (gId g) c end));
      [| | |apply G2|done|exact H]; [|done|].
    + intros g s s' _ Hs _ Hg. split; [by eapply init_global_goes|by eapply init_global_covers].
    + intros g s s' _ G Hg. destruct (gInit g); [by eapply initialised_mono|by eapply unknown_mono].
Qed.

(** C10 (collect). When the collection returns, every constraint is between
    nodes of the factory and takes the address of objects only; and none is
    missing: the universal and the null pointer have theirs, a global and a
    function whose address is taken point to their objects, a global contains the
    objects of the pointers of its initializer, or anything when it has none, and
    every instruction of every function with a body -- allocation, load, store,
    copy, return, and call, direct, indirect or of the library: allocating,
    reallocating, returning or copying its arguments, converting, opening variable
    arguments, unknown -- has the constraints it needs on the nodes of its
    operands. *)
Theorem constraints_complete st :
  collectConstraints M = Ok st ->
  (forall c, c ∈ st.2 -> constraint_ok st.1 c) /\
  (forall c, c ∈ [mk_constraint ADDR_OF getUniversalPtrNode getUniversalObjNode;
                  mk_constraint STORE getUniversalObjNode getUniversalObjNode;
                  mk_constraint ADDR_OF getNullPtrNode getNullObjectNode] -> c ∈ st.2) /\
  (forall g, g ∈ mGlobals M -> address_covered st (gId g) /\
     match gInit g with None => contents_unknown st (gId g) | Some c => initialised st (gId g) c end) /\
  (forall f, f ∈ mFunctions M -> fAddressTaken f = true -> address_covered st (fId f)) /\
  (forall f, f ∈ mFunctions M -> external f = false -> forall i, i ∈ fInsts f -> instruction_covered f st i).
Proof.
  intros H. split; [apply (collect_ok M st H)|]. apply rbind_ok in H as (s & E & H).
  apply globals_cover in E as (G0 & H1 & H2 & H3); [|apply start_ok].
  assert (goes s st) as G.
  { revert H. apply rfold_goes; [|apply G0]. intros s0 f s' _. apply collect_function_goes. }
  split; [|split; [|split]].
  - intros c Hc. eapply constraint_mono; [exact G|]. eapply constraint_mono; [exact G0|]. exact Hc.
  - intros g Hg. split; [eapply address_mono; [exact G|auto]|]. specialize (H3 g Hg).
    destruct (gInit g); [by eapply initialised_mono|by eapply unknown_mono].
  - intros f Hf Ht. eapply address_mono; [exact G|auto].
  - eapply (rfold_covers _ candidates_known (fun f s => external f = false -> forall i, i ∈ fInsts f -> instruction_covered f s i));
      [| | |apply G0| |exact H].
    + intros f s0 s' _ Hs Hk Hf. split; [by eapply collect_function_goes|]. by eapply function_covers.
    + apply candidates_mono.
    + intros f s0 s' _ G1 Hf He i Hi. eapply instruction_mono; [exact G1|auto].
    + intros f Hf Ht. destruct (H2 f Hf Ht) as (n & _ & ? & _). eauto.
Qed.
End Cover.

(** * Example *)

#[local] Open Scope N_scope.

Definition inst (i : ValueId) (op : AOpcode) : AInstruction := {| iId := i; iOp := op |}.

Definition library (i : FuncId) (name : string) : AFunction :=
  {| fId := i; fName := name; fAddressTaken := false; fDeclaration := true; fIntrinsic := false;
     fReturnsPointer := true; fVarArg := false; fArgs := []; fInsts := [] |}.

(** [void *g; void *work(void *a) { g = a; return a; }
    int main(...) { void *p = malloc(1); void *h = p; void *q = h; void *s = work(q); void *t = f(q); }]
    where [f] is unknown and the address of [work] is taken; the local [h] is in memory. *)
Definition sample : AModule := {|
  mGlobals := [{| gId := 10; gInit := Some ConstantPointerNull |}];
  mFunctions := [
    library 2 "malloc";
    {| fId := 3; fName := "work"; fAddressTaken := true; fDeclaration := false; fIntrinsic := false;
       fReturnsPointer := true; fVarArg := false; fArgs := [30];
       fInsts := [inst 31 (Store (Local 30) (Const (GlobalValue 10))); inst 32 (Ret (Some (Local 30)))] |};
    {| fId := 1; fName := "main"; fAddressTaken := false; fDeclaration := false; fIntrinsic := false;
       fReturnsPointer := false; fVarArg := false; fArgs := [];
       fInsts := [inst 20 Alloca; inst 21 (Call (Some 2) [Const ConstantScalar]);
                  inst 22 (Store (Local 21) (Local 20)); inst 23 (Load (Local 20));
                  inst 24 (Call (Some 3) [Local 23]); inst 25 (Call None [Local 23]); inst 26 (Ret None)] |}];
  isPtrTy := fun v => bool_decide (v ∈ [20; 21; 23; 24; 25; 30]) |}.

(** The same with a global [struct { int n; void *(*f)(void *); } k = {0, work};]. *)
Definition sample_global : AModule := {|
  mGlobals := mGlobals sample ++ [{| gId := 11; gInit := Some (ConstantAggregate [ConstantScalar; GlobalValue 3]) |}];
  mFunctions := mFunctions sample;
  isPtrTy := isPtrTy sample |}.

Lemma constraints_complete_witness : exists st,
  collectConstraints sample_global = Ok st /\
  (exists o r, objNodeMap st.1 !! 11 = Some o /\ objNodeMap st.1 !! 3 = Some r /\ mk_constraint ADDR_OF o r ∈ st.2) /\
  allocated st 21 /\ loaded st (Local 23) (Local 20) /\ copied st (Local 30) (Local 23).
Proof.
  destruct (collectConstraints sample_global) as [st| |] eqn:E; try (exfalso; vm_compute in E; discriminate).
  exists st. split; [done|].
  destruct (constraints_complete sample_global st E) as (_ & _ & HG & _ & H).
  split.
  { destruct (mGlobals sample_global !! 1%nat) as [g|] eqn:Eg; [|discriminate].
    assert (g ∈ mGlobals sample_global) as Hg by (by eapply list_elem_of_lookup_2).
    injection Eg as <-. destruct (HG _ Hg) as (_ & o & Ho & Hc). exists o.
    destruct (Hc (GlobalValue 3)) as [(r & Er & Hr) _]; [|done|exists r; injection Er; auto].
    eapply leaf_in; [apply list_elem_of_further, list_elem_of_here|apply leaf_here]. }
  destruct (mFunctions sample_global !! 2%nat) as [f|] eqn:Ef; [|discriminate].
  assert (f ∈ mFunctions sample_global) as Hf by (by eapply list_elem_of_lookup_2).
  injection Ef as <-. specialize (H _ Hf eq_refl).
  assert (forall k i, fInsts _ !! k = Some i -> instruction_covered sample_global _ st i) as Hi
    by (intros k i Hk; by apply H, (list_elem_of_lookup_2 _ k)).
  split; [|split].
  - destruct (Hi 1%nat _ eq_refl) as (f & Ef & Hc & _). injection Ef as <-. by apply Hc.
  - by apply (Hi 3%nat _ eq_refl).
  - destruct (Hi 4%nat _ eq_refl) as (f & Ef & Hc & _). injection Ef as <-. destruct Hc as [Hc _].
    by apply (Hc 0%nat 30 (Local 23)).
Defined.
