(* ===== verification/Andersen.v ===== *)
(** The pointer analysis as its clients see it (Andersen.cpp, Andersen.h): the
    constraints of a module are collected and solved, and a pointer is answered
    with the values of the objects in its set. *)
From S2P Require Import Prelude IR AndersenNodes AndersenSolver AndersenSound AndersenCollect.
From S2P Require Import AndersenCollectSound AndersenCover PTACallGraph.

(** [class Andersen]; the constraints are not used once they are solved. *)
Record Andersen := { nodeFactory : AndersNodeFactory; constraints : list AndersConstraint; ptsGraph : PtsGraph }.

(** [runOnModule]. *)
Definition runOnModule (EnableHCD EnableLCD : bool) (fuel : nat) (M : AModule) : res Andersen :=
  let* st := collectConstraints M in
  let* s := solveConstraints EnableHCD EnableLCD fuel st.2 st.1 in
  Ok {| nodeFactory := s.1; constraints := st.2; ptsGraph := s.2 |}.

(** The loop of [getPointsToSet]: the null object and the objects without a
    value are left out. *)
Definition add_pointee (f : AndersNodeFactory) (ptsSet : list ValueId) (v : NodeIndex) : res (list ValueId) :=
  if bool_decide (v = getNullObjectNode) then Ok ptsSet
  else
    let* val := getValueForNode f v in
    Ok (match val with Some x => ptsSet ++ [x] | None => ptsSet end).

(** [getPointsToSet]: [None] where the code returns false. *)
Definition getPointsToSet (A : Andersen) (v : Value) : res (option (list ValueId)) :=
  let f := nodeFactory A in
  let* ptrIndex := getValueNodeFor f v in
  match ptrIndex with
  | None => Ok None
  | Some ptrIndex =>
      if bool_decide (ptrIndex = getUniversalPtrNode) then Ok None
      else
        let* ptrTgt := getMergeTarget_const (length (nodes f)) ptrIndex f in
        match ptsGraph A !! ptrTgt with
        | None => Ok (Some [])
        | Some X => let* l := rfold (add_pointee f) (sorted X) [] in Ok (Some l)
        end
  end.

Definition getAllAllocationSites (A : Andersen) : list ValueId := getAllocSites (nodeFactory A).

(** What the call graph asks of it: the functions in the set of the called
    operand. *)
Definition andersen_points_to (A : Andersen) (getCalledOperand : InstId -> Value) (isFunction : ValueId -> bool) : PointsTo :=
  {| PTACallGraph.getPointsToSet := fun CI =>
       match getPointsToSet A (getCalledOperand CI) with
       | Ok (Some l) => Some (List.filter isFunction l)
       | _ => None
       end |}.

(** * Lemmas *)

(** Every pointee is an object of the factory. *)
Lemma pointee_object st n o :
  collected_ok st -> points_to st.2 n o -> isObjectNode st.1 o = true.
Proof.
  intros [_ HC]. induction 1 as [d s H| | |]; [|done..]. destruct (HC _ H) as (_ & _ & Ho). by apply Ho.
Qed.

(** The values of the nodes in a list. *)
Lemma pointee_values f l : (forall o, o ∈ l -> (o < getNumNodes f)%N) -> forall acc,
  exists r, rfold (add_pointee f) l acc = Ok r /\
    forall x, x ∈ r <-> x ∈ acc \/ exists o, o ∈ l /\ o <> getNullObjectNode /\ value <$> node_at f o = Some (Some x).
Proof.
  induction l as [|o l IH]; intros Hl acc.
  { exists acc. split; [done|]. intros x. split; [by left|]. intros [?|(o & H & _)]; [done|]. by apply not_elem_of_nil in H. }
  assert (exists nd, node_at f o = Some nd) as [nd Hnd].
  { pose proof (Hl o (list_elem_of_here _ _)) as Ho. unfold node_at, getNumNodes in *.
    apply lookup_lt_is_Some. lia. }
  assert (exists acc', add_pointee f acc o = Ok acc' /\
    forall x, x ∈ acc' <-> x ∈ acc \/ (o <> getNullObjectNode /\ value nd = Some x)) as (acc' & E & Ha).
  { unfold add_pointee, getValueForNode. rewrite Hnd. cbn [of_option rbind]. case_bool_decide as Hb.
    - eexists. split; [done|]. tauto.
    - eexists. split; [done|]. intros x. destruct (value nd) as [y|].
      + rewrite elem_of_app, list_elem_of_singleton. split; [intros [?|?]; subst; auto|intros [?|[_ [= ?]]]; subst; auto].
      + split; [auto|intros [?|[_ ?]]; done]. }
  destruct (IH (fun y Hy => Hl y (list_elem_of_further _ _ _ Hy)) acc') as (r & Er & Hr).
  exists r. cbn [rfold]. rewrite E. split; [exact Er|]. intros x. rewrite Hr, Ha. split.
  - intros [[?|[? ?]]|(y & ? & ? & ?)]; [by left| |].
    + right. exists o. split; [apply list_elem_of_here|]. split; [done|]. rewrite Hnd. cbn. by f_equal.
    + right. exists y. split; [by apply list_elem_of_further|done].
  - intros [?|(y & [-> | ?]%elem_of_cons & ? & Hy)]; [tauto| |].
    + rewrite Hnd in Hy. injection Hy as Hy. left. right. done.
    + right. eauto.
Qed.

Lemma merge_target_same f n : unmerged f -> (n < getNumNodes f)%N ->
  getMergeTarget_const (length (nodes f)) n f = Ok n.
Proof.
  intros Hf Hn. unfold getMergeTarget_const. rewrite (Hf n Hn). cbn [of_option rbind].
  unfold getNumNodes in Hn. destruct (length (nodes f)) eqn:E; [lia|]. cbn [find_loop].
  rewrite (Hf n) by (unfold getNumNodes; lia). cbn [of_option rbind]. by rewrite bool_decide_true.
Qed.

(** C9 (andersen). The whole analysis, without the merging of cycles: once the
    constraints of a module are collected the solver returns, and a pointer with a
    node of its own is answered with exactly the values of the objects the
    constraints derive for it -- each of them an object of the factory --, the null
    object apart; a value without a node is not answered. *)
Theorem runOnModule_answers M st fuel :
  let K := N.to_nat (getNumNodes st.1) in
  collectConstraints M = Ok st -> (2 * K * K + 1 <= fuel)%nat ->
  exists A, runOnModule false false fuel M = Ok A /\
    (forall v n, getValueNodeFor st.1 v = Ok (Some n) -> n <> getUniversalPtrNode ->
      exists l, getPointsToSet A v = Ok (Some l) /\
        forall x, x ∈ l <-> exists o, points_to st.2 n o /\ isObjectNode st.1 o = true /\ o <> getNullObjectNode /\
          value <$> node_at st.1 o = Some (Some x)) /\
    (forall v n, getValueNodeFor st.1 v = Ok n -> n = None \/ n = Some getUniversalPtrNode ->
      getPointsToSet A v = Ok None).
Proof.
  intros K E Hf. pose proof (collect_ok M st E) as Hok. pose proof Hok as [HF HC].
  assert (forall c, c ∈ st.2 -> (getDest c < getNumNodes st.1)%N /\ (getSrc c < getNumNodes st.1)%N) as Hr.
  { intros c Hc. destruct (HC c Hc) as (? & ? & _). done. }
  destruct (solve_least st.2 st.1 Hr (fo_unmerged _ HF) fuel Hf) as (p & Es & Hp).
  eexists. unfold runOnModule. rewrite E. cbn [rbind]. rewrite Es. split; [reflexivity|].
  unfold getPointsToSet. cbn [nodeFactory ptsGraph fst snd]. split.
  - intros v n Hn Hu. rewrite Hn. cbn [rbind]. rewrite bool_decide_false by done.
    rewrite (merge_target_same st.1 n (fo_unmerged _ HF)) by (by eapply getValueNodeFor_lt). cbn [rbind].
    destruct (p !! n) as [X|] eqn:En.
    + destruct (pointee_values st.1 (sorted X)) with (acc := @nil ValueId) as (l & El & Hl).
      { intros o Ho. rewrite elem_of_sorted in Ho. apply isObjectNode_lt. apply (pointee_object st n); [done|].
        apply Hp. unfold pts. by rewrite En. }
      rewrite El. exists l. split; [done|]. intros x. rewrite Hl. split.
      * intros [?%not_elem_of_nil|(o & Ho & Hnull & Hv)]; [done|]. rewrite elem_of_sorted in Ho.
        assert (points_to st.2 n o) as Hno by (apply Hp; unfold pts; by rewrite En).
        exists o. split; [done|]. split; [by eapply pointee_object|done].
      * intros (o & Ho & _ & Hnull & Hv). right. exists o. rewrite elem_of_sorted. apply Hp in Ho.
        unfold pts in Ho. by rewrite En in Ho.
    + exists []. split; [done|]. intros x. split; [by intros ?%not_elem_of_nil|].
      intros (o & Ho & _). apply Hp in Ho. unfold pts in Ho. rewrite En in Ho. cbn in Ho. set_solver.
  - intros v n Hn Hu. rewrite Hn. cbn [rbind]. destruct Hu as [-> | ->]; [done|]. by rewrite bool_decide_true.
Qed.

(** * Examples *)

#[local] Open Scope N_scope.

Lemma runOnModule_answers_witness : exists A l,
  runOnModule false false 1000 sample = Ok A /\ getPointsToSet A (Local 30) = Ok (Some l) /\ 21 ∈ l.
Proof.
  destruct (collectConstraints sample) as [st| |] eqn:E; try (exfalso; vm_compute in E; discriminate).
  destruct (runOnModule_answers sample st 1000 E) as (A & EA & H & _).
  - apply Nat.leb_le. vm_compute in E. injection E as <-. vm_compute. reflexivity.
  - destruct (H (Local 30) 9) as (l & El & Hl); [by vm_compute in E; injection E as <-|discriminate|].
    exists A, l. split; [exact EA|]. split; [exact El|]. apply Hl.
    assert (forall k c, st.2 !! k = Some c -> c ∈ st.2) as Hc by (intros k c Hk; by eapply list_elem_of_lookup_2).
    vm_compute in E. injection E as <-. exists 16. split; [|split; [reflexivity|split; [discriminate|reflexivity]]].
    apply (pt_copy _ 9 12); [apply (Hc 13%nat); reflexivity|].
    apply (pt_load _ 12 10 15); [apply (Hc 11%nat); reflexivity| |].
    + apply pt_addr. apply (Hc 8%nat). reflexivity.
    + apply (pt_store _ 10 11 15).
      * apply (Hc 10%nat). reflexivity.
      * apply pt_addr. apply (Hc 8%nat). reflexivity.
      * apply pt_addr. apply (Hc 9%nat). reflexivity.
Defined.

(** One function with a body, and the library functions it calls. *)
Definition program (libs : list AFunction) (ptrs : list ValueId) (insts : list AInstruction) : AModule := {|
  mGlobals := [];
  mFunctions := libs ++ [
    {| fId := 1; fName := "main"; fAddressTaken := false; fDeclaration := false; fIntrinsic := false;
       fReturnsPointer := false; fVarArg := false; fArgs := []; fInsts := insts |}];
  isPtrTy := fun v => bool_decide (v ∈ ptrs) |}.

Definition answer (M : AModule) (v : ValueId) : res (option (list ValueId)) :=
  let* A := runOnModule true true 1000 M in getPointsToSet A (Local v).

Definition malloc_call (v : ValueId) : AInstruction := inst v (Call (Some 2) [Const ConstantScalar]).
Definition realloc_call (v : ValueId) (p : Value) : AInstruction := inst v (Call (Some 3) [p; Const ConstantScalar]).
Definition heap_program := program [library 2 "malloc"; library 3 "realloc"] [20; 21; 23; 24].

Definition reallocated (p : Value) : AModule := heap_program [malloc_call 20; realloc_call 21 p].

Definition block_moved : AModule := heap_program
  [malloc_call 20; inst 21 Alloca; inst 22 (Store (Local 21) (Local 20)); realloc_call 23 (Local 20); inst 24 (Load (Local 23))].

Definition aligned : AModule := program [library 2 "posix_memalign"] [20; 22]
  [inst 20 Alloca; inst 21 (Call (Some 2) [Local 20; Const ConstantScalar; Const ConstantScalar]); inst 22 (Load (Local 20))].

(** Pointers that are answered with the empty set, as if they could
    point to nothing: one made from an arbitrary integer, and the result of an
    indirect call -- both may point anywhere, and the universal object they are
    given has no value --; the result of [realloc(NULL, n)], which is a copy of
    [NULL], where [realloc(p, n)] gets an object; what [posix_memalign] stores; and
    a pointer read from a block that [realloc] has moved. *)
Theorem unknown_answered_empty :
  answer (program [] [20] [inst 20 (IntToPtr OtherInt)]) 20 = Ok (Some []) /\
  answer sample 25 = Ok (Some []) /\
  answer (reallocated (Const ConstantPointerNull)) 21 = Ok (Some []) /\
  answer (reallocated (Local 20)) 21 = Ok (Some [21]) /\
  answer aligned 22 = Ok (Some []) /\
  answer block_moved 24 = Ok (Some []).
Proof. vm_compute. repeat split. Qed.
