(* ===== verification/MemRegions.v ===== *)
(** Memory regions (MemoryRegion.cpp, MemoryRegion.h) and the preparation of
    OpenMP programs (OpenMPInstr.cpp): a region per allocation site of the pointer
    analysis, the regions a pointer may point to, and the regions the threads of
    an outlined function share. *)
From S2P Require Import Prelude IR Samples Collectives AndersenNodes AndersenCollect Andersen.

(** * The module as the memory analyses read it *)

(** An argument of a call: what its type and kind are asked. *)
Record Operand := {
  opId : ValueId;
  opIsPointer : bool;
  opIsIntToPtr : bool      (** a constant [inttoptr] expression *)
}.

(** The instructions by the visitor that handles them. An [invoke] is a call the
    code does not handle: it asserts that there is none. *)
Inductive MInst :=
| AllocaI (id : InstId)
| LoadI (id : InstId) (ptr : ValueId)
| StoreI (id : InstId) (val ptr : ValueId)
| CallI (id : InstId) (callee : option FuncId) (args : list Operand) (isDbg retPointer : bool)
| PhiI (id : InstId) (incoming : list (ValueId * BlockId))
| OperandsI (id : InstId) (operands : list ValueId)
    (** comparisons, casts, arithmetic, [getelementptr], [select], [freeze], vectors and aggregates *)
| ReturnI (id : InstId)
| TerminatorI
| UnhandledI.

Record MModule := {
  base : Module_;
  code : BlockId -> list MInst;
  formals : FuncId -> list (ValueId * bool);     (** the arguments, whether they are pointers *)
  varArg : FuncId -> bool;
  returnsPointer : FuncId -> bool;
  returnsVoid : FuncId -> bool;
  instFunction : ValueId -> option FuncId         (** the function of an instruction *)
}.

Definition fname (M : MModule) (F : FuncId) : string := getName (function (base M) F).
Definition mblocks (M : MModule) (F : FuncId) : list BlockId := blocks (function (base M) F).
Definition isDecl (M : MModule) (F : FuncId) : bool := isDeclaration (base M) F.
Definition arg_count (M : MModule) (F : FuncId) : nat := length (formals M F).

(** The instructions of a function with their blocks, in order. *)
Definition minsts (M : MModule) (F : FuncId) : list (BlockId * MInst) :=
  b ← mblocks M F; (fun I => (b, I)) <$> code M b.

(** * What is asked of the pointer analysis *)

Class PointerAnalysis := {
  pointees : ValueId -> option (list ValueId);     (** [getPointsToSet] *)
  allocationSites : list ValueId                    (** [getAllAllocationSites] *)
}.

(** The pointer analysis of this library; [as_value] tells constants from
    others. *)
Definition andersen_pointers (A : Andersen.Andersen) (as_value : ValueId -> AndersenNodes.Value) : PointerAnalysis := {|
  pointees := fun v => match Andersen.getPointsToSet A (as_value v) with Ok (Some l) => Some l | _ => None end;
  allocationSites := getAllAllocationSites A |}.

(** * Regions *)

(** A region is known by its allocation site: the pointer to its entry is the
    value here. *)
Abbreviation RegId := ValueId.

Record MemRegEntry := { id_ : Z; cudaShared_ : bool; Val : ValueId }.

Record MemReg := {
  valueToRegMap : gmap ValueId MemRegEntry;
  sharedCudaRegions : gset RegId;
  func2SharedOmpRegs : gmap FuncId (gset RegId);
  Count : Z                    (** of the next identifier, an [unsigned] *)
}.

Section Regions.
Context (cfg : BuildConfig) (opts : Options) (addressSpace3 : ValueId -> bool).

(** The constructor of [MemRegEntry] with [generateId]. *)
Definition new_entry (V : ValueId) (Count : Z) : MemRegEntry := {|
  id_ := Count;
  cudaShared_ := enable_cuda cfg && isActivated cfg opts CUDA && addressSpace3 V;
  Val := V |}.

(** [createRegion]: the entry is made before the insertion is tried. *)
Definition createRegion (r : MemReg) (V : ValueId) : MemReg :=
  let made := new_entry V (Count r) in
  let Entry := match valueToRegMap r !! V with Some e => e | None => made end in
  {| valueToRegMap := <[V := Entry]> (valueToRegMap r);
     sharedCudaRegions := if cudaShared_ Entry then {[ V ]} ∪ sharedCudaRegions r else sharedCudaRegions r;
     func2SharedOmpRegs := func2SharedOmpRegs r;
     Count := u32 (Count r + 1) |}.

Definition getValueRegion (r : MemReg) (V : ValueId) : option RegId :=
  match valueToRegMap r !! V with Some Entry => Some (Val Entry) | None => None end.

(** [getValuesRegion]: the regions, in the order of their addresses, before
    those of [Regs]. *)
Definition getValuesRegion (r : MemReg) (PtsSet : list ValueId) (Regs : list RegId) : list RegId :=
  in_order (list_to_set (omap (getValueRegion r) PtsSet)) ++ Regs.

Definition setOmpSharedRegions (F : FuncId) (Regs : list RegId) (r : MemReg) : MemReg :=
  {| valueToRegMap := valueToRegMap r; sharedCudaRegions := sharedCudaRegions r;
     func2SharedOmpRegs := <[F := list_to_set Regs ∪ default ∅ (func2SharedOmpRegs r !! F)]> (func2SharedOmpRegs r);
     Count := Count r |}.

Context {PA : PointerAnalysis}.

(** One shared variable of an outlined function. *)
Definition share (F : FuncId) (r : MemReg) (V : ValueId) : MemReg :=
  match pointees V with
  | Some PtsSet => setOmpSharedRegions F (getValuesRegion r PtsSet []) r
  | None => r
  end.

(** The constructor of [MemReg]. *)
Definition MemReg_init (Count0 : Z) (func2SharedOmpVar : gmap FuncId (gset ValueId)) : MemReg :=
  let r := fold_left createRegion allocationSites
    {| valueToRegMap := ∅; sharedCudaRegions := ∅; func2SharedOmpRegs := ∅; Count := Count0 |} in
  if enable_openmp cfg && isActivated cfg opts OMP then
    fold_left (fun r p => fold_left (share p.1) (in_order p.2) r) (map_to_list func2SharedOmpVar) r
  else r.
End Regions.

(** * OpenMP programs (OpenMPInstr.cpp) *)

(** [MemReg::func2SharedOmpVar]. *)
Abbreviation SharedVars := (gmap FuncId (gset ValueId)).

Section Prepare.
Context (M : MModule) (as_function : ValueId -> option FuncId) (null_value : bool -> ValueId).

(** The null value for a formal argument of the outlined function. *)
Definition null_operand (OutlinedFunc : FuncId) (I : nat) : res Operand :=
  let* a := of_option (formals M OutlinedFunc !! I) in
  Ok {| opId := null_value a.2; opIsPointer := a.2; opIsIntToPtr := false |}.

Definition insert_shared (F : FuncId) (s : SharedVars) (o : Operand) : SharedVars :=
  <[F := {[ opId o ]} ∪ default ∅ (s !! F)]> s.

(** One candidate call: the call of the outlined function that replaces it. *)
Definition replace_fork (id : InstId) (args : list Operand) (s : SharedVars) : res (MInst * SharedVars) :=
  let* Op2 := of_option (args !! 2%nat) in
  let* OutlinedFunc := of_option (as_function (opId Op2)) in
  let* n0 := null_operand OutlinedFunc 0 in
  let* n1 := null_operand OutlinedFunc 1 in
  let shared := drop 3 args in
  Ok (CallI id (Some OutlinedFunc) (n0 :: n1 :: shared) false (returnsPointer M OutlinedFunc),
      fold_left (insert_shared OutlinedFunc) shared s).

Definition prepare_inst (st : list MInst * SharedVars) (I : MInst) : res (list MInst * SharedVars) :=
  match I with
  | CallI id (Some Callee) args _ _ =>
      if bool_decide (fname M Callee = "__kmpc_fork_call"%string) then
        let* r := replace_fork id args st.2 in Ok (st.1 ++ [r.1], r.2)
      else Ok (st.1 ++ [I], st.2)
  | _ => Ok (st.1 ++ [I], st.2)
  end.

(** One block of a function. *)
Definition prepare_block (acc : gmap BlockId (list MInst) * SharedVars) (b : BlockId) :
    res (gmap BlockId (list MInst) * SharedVars) :=
  let* r := rfold prepare_inst (code M b) ([], acc.2) in Ok (<[b := r.1]> acc.1, r.2).

(** [PrepareOpenMPInstr::run]: the new code of the blocks, and the table of the
    shared variables. *)
Definition PrepareOpenMPInstr (s : SharedVars) : res (gmap BlockId (list MInst) * SharedVars) :=
  rfold prepare_block (functions (base M) ≫= mblocks M) (∅, s).
End Prepare.

(** * Which regions there are *)

(** Every entry is filed under its value. *)
Definition filed (r : MemReg) : Prop := forall V e, valueToRegMap r !! V = Some e -> Val e = V.

Section RegionsSpec.
Context (cfg : BuildConfig) (opts : Options) (addressSpace3 : ValueId -> bool).

Lemma createRegion_spec r V : filed r ->
  let r' := createRegion cfg opts addressSpace3 r V in
  filed r' /\ func2SharedOmpRegs r' = func2SharedOmpRegs r /\
  forall W, is_Some (valueToRegMap r' !! W) <-> W = V \/ is_Some (valueToRegMap r !! W).
Proof.
  intros Hf. split; [|split; [done|]].
  - intros W e. simpl. destruct (decide (W = V)) as [->|Hne].
    + rewrite lookup_insert_eq. intros [= <-]. destruct (valueToRegMap r !! V) eqn:E; [by apply Hf in E|done].
    + rewrite lookup_insert_ne by congruence. apply Hf.
  - intros W. simpl. destruct (decide (W = V)) as [->|Hne].
    + rewrite lookup_insert_eq. split; [by left|eauto].
    + rewrite lookup_insert_ne by congruence. split; [by right|by intros [?|?]].
Qed.

Lemma createRegions_spec l : forall r, filed r ->
  let r' := fold_left (createRegion cfg opts addressSpace3) l r in
  filed r' /\ func2SharedOmpRegs r' = func2SharedOmpRegs r /\
  forall W, is_Some (valueToRegMap r' !! W) <-> W ∈ l \/ is_Some (valueToRegMap r !! W).
Proof.
  induction l as [|V l IH]; intros r Hf; simpl; [split; [done|]; split; [done|]; set_solver|].
  destruct (createRegion_spec r V Hf) as (H1 & H2 & H3). destruct (IH _ H1) as (H1' & H2' & H3').
  split; [done|]. split; [by rewrite H2'|]. intros W. rewrite H3', H3, elem_of_cons. tauto.
Qed.

End RegionsSpec.

Lemma getValueRegion_spec r V R : filed r -> getValueRegion r V = Some R <-> R = V /\ is_Some (valueToRegMap r !! V).
Proof.
  intros Hf. unfold getValueRegion. destruct (valueToRegMap r !! V) as [e|] eqn:E.
  - rewrite (Hf V e E). split; [intros [= <-]; eauto|intros [-> _]; done].
  - split; [done|]. by intros [_ [? ?]].
Qed.

Lemma elem_of_getValuesRegion r PtsSet Regs R : filed r ->
  R ∈ getValuesRegion r PtsSet Regs <-> R ∈ Regs \/ R ∈ PtsSet /\ is_Some (valueToRegMap r !! R).
Proof.
  intros Hf. unfold getValuesRegion. rewrite elem_of_app, elem_of_in_order, elem_of_list_to_set, list_elem_of_omap.
  split.
  - intros [(V & HV & HR)|?]; [|by left]. apply (getValueRegion_spec r V R Hf) in HR as [-> ?]. by right.
  - intros [?|[HR Hs]]; [by right|]. left. exists R. split; [done|]. by apply getValueRegion_spec.
Qed.

Lemma getValuesRegion_nodup r PtsSet : NoDup (getValuesRegion r PtsSet []).
Proof. unfold getValuesRegion. rewrite app_nil_r. apply NoDup_in_order. Qed.

Section Share.
Context {PA : PointerAnalysis}.

(** What the loop over the shared variables adds. *)
Definition shares (r : MemReg) (F : FuncId) (V : ValueId) (R : RegId) : Prop :=
  exists PtsSet, pointees V = Some PtsSet /\ R ∈ PtsSet /\ is_Some (valueToRegMap r !! R).

Lemma share_spec F V r : filed r ->
  valueToRegMap (share F r V) = valueToRegMap r /\
  forall G R, R ∈ default ∅ (func2SharedOmpRegs (share F r V) !! G) <->
    R ∈ default ∅ (func2SharedOmpRegs r !! G) \/ G = F /\ shares r F V R.
Proof.
  intros Hf. unfold share, shares. destruct (pointees V) as [PtsSet|]; [|naive_solver].
  split; [done|]. intros G R. simpl. destruct (decide (G = F)) as [->|Hne].
  - rewrite lookup_insert_eq. simpl. rewrite elem_of_union, elem_of_list_to_set, (elem_of_getValuesRegion r PtsSet [] R Hf).
    split; [intros [[?%not_elem_of_nil|?]|?]; [done|right; eauto|by left]|].
    intros [?|[_ (P & [= <-] & ?)]]; [by right|left; by right].
  - rewrite lookup_insert_ne by congruence. naive_solver.
Qed.

Lemma shares_spec F l : forall r, filed r ->
  valueToRegMap (fold_left (share F) l r) = valueToRegMap r /\
  forall G R, R ∈ default ∅ (func2SharedOmpRegs (fold_left (share F) l r) !! G) <->
    R ∈ default ∅ (func2SharedOmpRegs r !! G) \/ G = F /\ exists V, V ∈ l /\ shares r F V R.
Proof.
  induction l as [|V l IH]; intros r Hf; simpl; [split; [done|]; set_solver|].
  destruct (share_spec F V r Hf) as [E1 H1]. assert (filed (share F r V)) as Hf' by (unfold filed; by rewrite E1).
  destruct (IH _ Hf') as [E2 H2]. split; [by rewrite E2|]. intros G R. rewrite H2, H1. unfold shares. rewrite E1.
  setoid_rewrite elem_of_cons. naive_solver.
Qed.
End Share.

(** * Which regions the threads share *)

Section Shared.
Context (M : MModule) (as_function : ValueId -> option FuncId) (null_value : bool -> ValueId).

(** A call that starts the outlined function [F] on threads. *)
Definition fork_call (I : MInst) (F : FuncId) (args : list Operand) : Prop :=
  exists id Callee isDbg rp Op2, I = CallI id (Some Callee) args isDbg rp /\
    fname M Callee = "__kmpc_fork_call"%string /\ args !! 2%nat = Some Op2 /\ as_function (opId Op2) = Some F.

(** What takes the place of an instruction. *)
Definition prepared (I J : MInst) : Prop :=
  (exists F args n0 n1, fork_call I F args /\ null_operand M null_value F 0 = Ok n0 /\ null_operand M null_value F 1 = Ok n1 /\
    exists id, J = CallI id (Some F) (n0 :: n1 :: drop 3 args) false (returnsPointer M F)) \/
  ((forall F args, ~ fork_call I F args) /\ J = I).

(** The calls that start threads name a function with two arguments at least. *)
Definition fork_ok (I : MInst) : Prop := forall id Callee args isDbg rp,
  I = CallI id (Some Callee) args isDbg rp -> fname M Callee = "__kmpc_fork_call"%string ->
  exists F, fork_call I F args /\ (2 <= arg_count M F)%nat.

Local Abbreviation vars s F := (default ∅ (s !! F)).

Lemma insert_shared_all F os : forall (s : SharedVars) G V,
  V ∈ vars (fold_left (insert_shared F) os s) G <-> V ∈ vars s G \/ G = F /\ exists o, o ∈ os /\ opId o = V.
Proof.
  induction os as [|o os IH]; intros s G V; simpl; [set_solver|]. rewrite IH. unfold insert_shared.
  setoid_rewrite elem_of_cons. destruct (decide (G = F)) as [->|Hne].
  - rewrite lookup_insert_eq. simpl. rewrite elem_of_union, elem_of_singleton. naive_solver.
  - rewrite lookup_insert_ne by congruence. naive_solver.
Qed.

Lemma null_operand_ok F I : (I < arg_count M F)%nat -> exists o, null_operand M null_value F I = Ok o.
Proof.
  intros H. unfold null_operand. destruct (lookup_lt_is_Some_2 (formals M F) I H) as [a ->]. eexists. reflexivity.
Qed.

Lemma fork_call_fun I F args F' args' : fork_call I F args -> fork_call I F' args' -> F = F' /\ args = args'.
Proof. intros (? & ? & ? & ? & ? & -> & _ & ? & ?) (? & ? & ? & ? & ? & [= -> -> -> -> ->] & _ & ? & ?). naive_solver. Qed.

Lemma prepare_inst_spec out s I : fork_ok I ->
  exists J s', prepare_inst M as_function null_value (out, s) I = Ok (out ++ [J], s') /\ prepared I J /\
    forall G V, V ∈ vars s' G <-> V ∈ vars s G \/ exists args o, fork_call I G args /\ o ∈ drop 3 args /\ opId o = V.
Proof.
  intros Hok. assert ((forall F args, ~ fork_call I F args) -> prepare_inst M as_function null_value (out, s) I = Ok (out ++ [I], s) ->
    exists J s', prepare_inst M as_function null_value (out, s) I = Ok (out ++ [J], s') /\ prepared I J /\
    forall G V, V ∈ vars s' G <-> V ∈ vars s G \/ exists args o, fork_call I G args /\ o ∈ drop 3 args /\ opId o = V) as Hsame.
  { intros Hno E. exists I, s. split; [done|]. split; [by right|]. intros G V. split; [by left|].
    intros [?|(args & o & Hf & _)]; [done|]. by destruct (Hno G args). }
  destruct I as [|id p|id v p|id [Callee|] args d rp|id l|id l|id| |]; try (apply Hsame; [by intros ? ? (?&?&?&?&?&[=]&_)|done]).
  destruct (decide (fname M Callee = "__kmpc_fork_call"%string)) as [En|En].
  - simpl. rewrite bool_decide_true by done. destruct (Hok id Callee args d rp eq_refl En) as (F & Hf & HF).
    pose proof Hf as (? & ? & ? & ? & Op2 & [= <- <- <- <-] & _ & E2 & EF).
    destruct (null_operand_ok F 0) as [n0 E0]; [lia|]. destruct (null_operand_ok F 1) as [n1 E1]; [lia|].
    unfold replace_fork. rewrite E2. simpl. rewrite EF. simpl. rewrite E0, E1. simpl.
    eexists _, _. split; [reflexivity|]. split; [left; exists F, args, n0, n1; eauto 10|].
    intros G V. rewrite insert_shared_all. apply or_iff_compat_l. split.
    + intros [-> (o & Ho & HV)]. exists args, o. done.
    + intros (args' & o & Hf' & Ho & HV). destruct (fork_call_fun _ _ _ _ _ Hf Hf') as [<- <-]. eauto.
  - apply Hsame; [|simpl; by rewrite bool_decide_false].
    by intros F args' (? & ? & ? & ? & ? & [= <- <- <- <- <-] & ? & _).
Qed.

Lemma prepare_insts_spec Is : forall out s, (forall I, I ∈ Is -> fork_ok I) ->
  exists Js s', rfold (prepare_inst M as_function null_value) Is (out, s) = Ok (out ++ Js, s') /\ Forall2 prepared Is Js /\
    forall G V, V ∈ vars s' G <-> V ∈ vars s G \/
      exists I args o, I ∈ Is /\ fork_call I G args /\ o ∈ drop 3 args /\ opId o = V.
Proof.
  induction Is as [|I Is IH]; intros out s Hok.
  - exists [], s. rewrite app_nil_r. split; [done|]. split; [constructor|]. set_solver.
  - destruct (prepare_inst_spec out s I) as (J & s1 & E1 & HJ & H1); [apply Hok, list_elem_of_here|].
    destruct (IH (out ++ [J]) s1) as (Js & s2 & E2 & HJs & H2); [intros K HK; apply Hok; by apply list_elem_of_further|].
    exists (J :: Js), s2. cbn [rfold]. rewrite E1. cbn [rbind]. rewrite E2, <- app_assoc. split; [done|].
    split; [by constructor|]. intros G V. rewrite H2, H1. setoid_rewrite elem_of_cons. naive_solver.
Qed.

Lemma prepare_blocks_spec bs : forall (c : gmap BlockId (list MInst)) s, NoDup bs -> (forall b I, b ∈ bs -> I ∈ code M b -> fork_ok I) ->
  exists c' s', rfold (prepare_block M as_function null_value) bs (c, s) = Ok (c', s') /\
    (forall b, b ∉ bs -> c' !! b = c !! b) /\
    (forall b, b ∈ bs -> exists Js, c' !! b = Some Js /\ Forall2 prepared (code M b) Js) /\
    forall G V, V ∈ vars s' G <-> V ∈ vars s G \/
      exists b I args o, b ∈ bs /\ I ∈ code M b /\ fork_call I G args /\ o ∈ drop 3 args /\ opId o = V.
Proof.
  induction bs as [|b bs IH]; intros c s Hnd Hok.
  - exists c, s. split; [done|]. split; [done|]. split; [by intros b ?%not_elem_of_nil|]. set_solver.
  - apply NoDup_cons in Hnd as [Hb Hnd].
    destruct (prepare_insts_spec (code M b) [] s) as (Js & s1 & E1 & HJ & H1); [intros I; apply Hok, list_elem_of_here|].
    destruct (IH (<[b := Js]> c) s1 Hnd) as (c' & s' & E & Hout & Hin & H'); [intros b' I Hb'; apply Hok; by apply list_elem_of_further|].
    exists c', s'. cbn [rfold]. unfold prepare_block at 1. cbn [snd]. rewrite E1. simpl. rewrite E. split; [done|]. split; [|split].
    + intros b' [Hne Hb']%not_elem_of_cons. rewrite Hout by done. by rewrite lookup_insert_ne by congruence.
    + intros b' [->|Hb']%elem_of_cons; [|by apply Hin]. exists Js. split; [|done]. by rewrite Hout, lookup_insert_eq.
    + intros G V. rewrite H', H1. setoid_rewrite elem_of_cons. naive_solver.
Qed.

Context (cfg : BuildConfig) (opts : Options) (addressSpace3 : ValueId -> bool) {PA : PointerAnalysis}.

(** The table of regions at the end of the constructor. *)
Lemma MemReg_init_spec Count0 (s : SharedVars) :
  let r := MemReg_init cfg opts addressSpace3 Count0 s in
  filed r /\ (forall V, is_Some (valueToRegMap r !! V) <-> V ∈ allocationSites) /\
  (enable_openmp cfg && isActivated cfg opts OMP = true -> forall F R,
    R ∈ vars (func2SharedOmpRegs r) F <->
    exists V PtsSet, V ∈ vars s F /\ pointees V = Some PtsSet /\ R ∈ PtsSet /\ R ∈ allocationSites).
Proof.
  set (r0 := fold_left (createRegion cfg opts addressSpace3) allocationSites
    {| valueToRegMap := ∅; sharedCudaRegions := ∅; func2SharedOmpRegs := ∅; Count := Count0 |}).
  assert (filed r0 /\ func2SharedOmpRegs r0 = ∅ /\ forall V, is_Some (valueToRegMap r0 !! V) <-> V ∈ allocationSites) as (Hf & E0 & Hr).
  { destruct (createRegions_spec cfg opts addressSpace3 allocationSites
      {| valueToRegMap := ∅; sharedCudaRegions := ∅; func2SharedOmpRegs := ∅; Count := Count0 |}) as (H1 & H2 & H3).
    { intros V e H. simpl in H. by rewrite lookup_empty in H. }
    split; [exact H1|]. split; [exact H2|]. intros V. etrans; [apply H3|]. simpl. rewrite lookup_empty.
    split; [by intros [?|[? ?]]|by left]. }
  assert (forall l r, filed r -> valueToRegMap r = valueToRegMap r0 ->
    let r' := fold_left (fun r p => fold_left (share p.1) (in_order p.2) r) l r in
    valueToRegMap r' = valueToRegMap r0 /\ forall F R, R ∈ vars (func2SharedOmpRegs r') F <-> R ∈ vars (func2SharedOmpRegs r) F \/
      exists X V, (F, X) ∈ l /\ V ∈ X /\ shares r0 F V R) as Hall.
  { induction l as [|[G X] l IH]; intros r Hfr Er; simpl; [split; [done|]; set_solver|].
    destruct (shares_spec G (in_order X) r Hfr) as [E1 H1].
    destruct (IH (fold_left (share G) (in_order X) r)) as [E2 H2]; [unfold filed; by rewrite E1|by rewrite E1|].
    split; [done|]. intros F R. rewrite H2, H1. unfold shares. rewrite Er. setoid_rewrite elem_of_in_order.
    setoid_rewrite elem_of_cons. naive_solver. }
  intros r. assert (valueToRegMap r = valueToRegMap r0) as Er.
  { unfold r, MemReg_init. fold r0. destruct (enable_openmp cfg && isActivated cfg opts OMP); [|done]. by apply Hall. }
  split; [unfold filed; by rewrite Er|]. split; [by rewrite Er|]. intros Homp F R. unfold r, MemReg_init. fold r0. rewrite Homp.
  rewrite (proj2 (Hall _ r0 Hf eq_refl)), E0, lookup_empty. setoid_rewrite elem_of_map_to_list. unfold shares. split.
  - intros [?|(X & V & HX & HV & P & HP & HR & HS)]; [set_solver|]. exists V, P. rewrite HX. simpl. by rewrite <- Hr.
  - intros (V & P & HV & HP & HR & HS). right. destruct (s !! F) as [X|] eqn:EX; [|simpl in HV; set_solver].
    exists X, V. split; [done|]. split; [done|]. exists P. by rewrite Hr.
Qed.

(** C31 (shared). Preparing an OpenMP program replaces every call that starts
    threads by a call of the outlined function on two null values and the shared
    variables, and nothing else; the regions that are then recorded as shared by a
    function are exactly the allocation sites the shared variables of its calls
    may point to. *)
Theorem shared_regions Count0 :
  NoDup (functions (base M) ≫= mblocks M) ->
  (forall b I, b ∈ functions (base M) ≫= mblocks M -> I ∈ code M b -> fork_ok I) ->
  enable_openmp cfg && isActivated cfg opts OMP = true ->
  exists c s, PrepareOpenMPInstr M as_function null_value ∅ = Ok (c, s) /\
    (forall b, b ∈ functions (base M) ≫= mblocks M -> exists Js, c !! b = Some Js /\ Forall2 prepared (code M b) Js) /\
    forall F R, R ∈ vars (func2SharedOmpRegs (MemReg_init cfg opts addressSpace3 Count0 s)) F <->
      exists b I args o PtsSet, b ∈ functions (base M) ≫= mblocks M /\ I ∈ code M b /\ fork_call I F args /\
        o ∈ drop 3 args /\ pointees (opId o) = Some PtsSet /\ R ∈ PtsSet /\ R ∈ allocationSites.
Proof.
  intros Hnd Hok Homp. destruct (prepare_blocks_spec _ ∅ ∅ Hnd Hok) as (c & s & E & _ & Hc & Hs).
  exists c, s. split; [exact E|]. split; [exact Hc|]. intros F R.
  destruct (MemReg_init_spec Count0 s) as (_ & _ & Hr). rewrite (Hr Homp). setoid_rewrite Hs. rewrite lookup_empty. split.
  - intros (V & P & [HV|(b & I & args & o & Hb & HI & Hf & Ho & <-)] & HP & HR & HA); [simpl in HV; set_solver|].
    exists b, I, args, o, P. done.
  - intros (b & I & args & o & P & Hb & HI & Hf & Ho & HP & HR & HA). exists (opId o), P.
    split; [|done]. right. exists b, I, args, o. done.
Qed.
End Shared.

(** * Example: [#pragma omp parallel shared(x)] in [main] *)
#[local] Open Scope N_scope.

Definition pointer (v : ValueId) : Operand := {| opId := v; opIsPointer := true; opIsIntToPtr := false |}.

Definition parallel_region : MModule := {|
  base := mk_module [(0, mk_func "main" [0]); (8, mk_func "main.omp_outlined" [1]); (9, mk_func "__kmpc_fork_call" [])]
    [(0, mk_block "%entry" [] [] []); (1, mk_block "%entry" [] [] [])];
  code := fun b => if N.eqb b 0 then [AllocaI 20; CallI 30 (Some 9) [pointer 1; pointer 2; pointer 8; pointer 20] false false; ReturnI 31]
                   else [ReturnI 40];
  formals := fun F => if N.eqb F 8 then [(50, true); (51, true); (52, true)] else [];
  varArg := fun _ => false; returnsPointer := fun _ => false; returnsVoid := fun _ => true; instFunction := fun _ => None |}.

Definition outlined_of (v : ValueId) : option FuncId := if N.eqb v 8 then Some 8 else None.

Definition own_region : PointerAnalysis := {|
  pointees := fun v => if N.eqb v 20 then Some [20] else None; allocationSites := [20] |}.

Definition omp_build : BuildConfig := {| enable_openmp := true; enable_upc := false; enable_cuda := false |}.
Definition omp_options : Options :=
  {| OptMpiTaint := false; OptOmpTaint := true; OptUpcTaint := false; OptCudaTaint := false; Check := MPI |}.

Lemma shared_regions_witness : exists c s,
  PrepareOpenMPInstr parallel_region outlined_of (fun _ => 60) ∅ = Ok (c, s) /\
  c !! 0 = Some [AllocaI 20; CallI 30 (Some 8) [pointer 60; pointer 60; pointer 20] false false; ReturnI 31] /\
  20 ∈ default ∅ (func2SharedOmpRegs (@MemReg_init omp_build omp_options (fun _ => false) own_region 0 s) !! 8).
Proof.
  destruct (@shared_regions parallel_region outlined_of (fun _ => 60) omp_build omp_options (fun _ => false) own_region 0%Z)
    as (c & s & E & _ & Hs).
  - apply (bool_decide_unpack _). vm_compute. exact I.
  - intros b I Hb HI id Callee args d rp -> En. simpl in Hb. enum Hb; simpl in HI.
    + enum HI; try discriminate HI. injection HI as -> -> -> -> ->. exists 8. split; [|apply Nat.leb_le; reflexivity].
      exists 30, 9, false, false, (pointer 8). done.
    + enum HI; discriminate HI.
  - reflexivity.
  - exists c, s. split; [exact E|]. split; [vm_compute in E; injection E as <- _; reflexivity|].
    apply Hs. exists 0, (CallI 30 (Some 9) [pointer 1; pointer 2; pointer 8; pointer 20] false false),
      [pointer 1; pointer 2; pointer 8; pointer 20], (pointer 20), [20].
    split; [in_list|]. split; [in_list|]. split; [exists 30, 9, false, false, (pointer 8); done|].
    split; [in_list|]. split; [reflexivity|]. split; in_list.
Defined.
