(* ===== verification/ModRef.v ===== *)
(** The mod/ref analysis (ModRefAnalysis.cpp): the regions a function may modify
    and read, by its own instructions and by its callees, those of the locals of
    its callees left out. *)
From S2P Require Import Prelude IR Collectives Utils ExtInfo PTACallGraph MemRegions Samples.

Abbreviation RegMap := (gmap FuncId (gset RegId)).

(** [map[F]]. *)
Definition regs_of (m : RegMap) (F : FuncId) : gset RegId := default ∅ (m !! F).
Definition add_regs (F : FuncId) (X : gset RegId) (m : RegMap) : RegMap := <[F := X ∪ regs_of m F]> m.

Record ModRefAnalysisResult := {
  funcModMap : RegMap;
  funcRefMap : RegMap;
  funcLocalMap : RegMap;
  funcKillMap : RegMap;
  globalKillSet : gset RegId
}.

Section ModRef.
Context (cfg : BuildConfig) (opts : Options) (M : MModule) (CG : PTACallGraph) (Regions : MemReg).
Context {PA : PointerAnalysis}.

Definition with_mod (m : RegMap) (s : ModRefAnalysisResult) : ModRefAnalysisResult :=
  {| funcModMap := m; funcRefMap := funcRefMap s; funcLocalMap := funcLocalMap s; funcKillMap := funcKillMap s;
     globalKillSet := globalKillSet s |}.
Definition with_ref (m : RegMap) (s : ModRefAnalysisResult) : ModRefAnalysisResult :=
  {| funcModMap := funcModMap s; funcRefMap := m; funcLocalMap := funcLocalMap s; funcKillMap := funcKillMap s;
     globalKillSet := globalKillSet s |}.
Definition with_local (m : RegMap) (s : ModRefAnalysisResult) : ModRefAnalysisResult :=
  {| funcModMap := funcModMap s; funcRefMap := funcRefMap s; funcLocalMap := m; funcKillMap := funcKillMap s;
     globalKillSet := globalKillSet s |}.
Definition with_kill (m : RegMap) (s : ModRefAnalysisResult) : ModRefAnalysisResult :=
  {| funcModMap := funcModMap s; funcRefMap := funcRefMap s; funcLocalMap := funcLocalMap s; funcKillMap := m;
     globalKillSet := globalKillSet s |}.

(** The loops that insert the regions outside the global kill set. *)
Definition add_mod (F : FuncId) (Regs : list RegId) (s : ModRefAnalysisResult) : ModRefAnalysisResult :=
  with_mod (add_regs F (list_to_set Regs ∖ globalKillSet s) (funcModMap s)) s.
Definition add_ref (F : FuncId) (Regs : list RegId) (s : ModRefAnalysisResult) : ModRefAnalysisResult :=
  with_ref (add_regs F (list_to_set Regs ∖ globalKillSet s) (funcRefMap s)) s.

(** The regions a value points to; the analysis asserts that it knows. *)
Definition regions_of (v : ValueId) : res (list RegId) :=
  let* PtsSet := of_option (pointees v) in Ok (getValuesRegion Regions PtsSet []).

(** ** Calls *)

(** The callees the indirect call may have, among them the external ones. *)
Definition indirect_callees (CI : InstId) : list FuncId := in_order (default ∅ (indirectCallMap CG !! CI)).
Definition external_callee (F : FuncId) : bool := isDecl M F && negb (isIntrinsicDbgFunction (base M) F).

(** The synchronizations: all shared regions are written. *)
Definition visit_sync (F : FuncId) (Callee : option FuncId) (s : ModRefAnalysisResult) : ModRefAnalysisResult :=
  match Callee with
  | None => s
  | Some C =>
      match Collectives.find cfg opts (fname M C) with
      | None => s
      | Some Coll =>
          let s1 := if enable_cuda cfg && bool_decide (P_ Coll = CUDA) && bool_decide (Name Coll = "llvm.nvvm.barrier0"%string)
                    then add_mod F (in_order (sharedCudaRegions Regions)) s else s in
          if enable_openmp cfg && bool_decide (P_ Coll = OMP) && bool_decide (Name Coll = "__kmpc_barrier"%string)
          then add_mod F (in_order (default ∅ (func2SharedOmpRegs Regions !! F))) s1 else s1
      end
  end.

(** What the table of external functions says of the argument [i]. *)
Definition visit_modified (F : FuncId) (Callee : FuncId) (i : nat) (Regs : list RegId) (s : ModRefAnalysisResult) :
    res ModRefAnalysisResult :=
  match getExtModInfo (fname M Callee) with
  | None => Ok s
  | Some Info =>
      let* modified := arg_is_mod Info i (varArg M Callee) in
      Ok (if modified then add_mod F Regs s else s)
  end.

(** The external functions a call may reach. *)
Definition call_externals (CI : InstId) (Callee : option FuncId) : list FuncId :=
  match Callee with
  | Some C => if external_callee C then [C] else []
  | None => List.filter external_callee (indirect_callees CI)
  end.

(** One argument. *)
Definition visit_arg (F : FuncId) (externals : list FuncId) (s : ModRefAnalysisResult) (a : nat * Operand) :
    res ModRefAnalysisResult :=
  let '(i, Arg) := a in
  if negb (opIsPointer Arg) || opIsIntToPtr Arg then Ok s
  else
    let* Regs := regions_of (opId Arg) in
    rfold (fun s C => visit_modified F C i Regs s) externals (add_ref F Regs s).

(** The return value of one external callee. *)
Definition visit_return (F : FuncId) (CI : InstId) (s : ModRefAnalysisResult) (C : FuncId) : res ModRefAnalysisResult :=
  if negb (returnsPointer M C) then Ok s
  else
    let* Regs := regions_of CI in
    let s1 := add_ref F Regs s in
    match getExtModInfo (fname M C) with
    | Some Info => Ok (if RetIsMod Info then add_mod F Regs s1 else s1)
    | None => Ok s1
    end.

(** [visitCallBase]. *)
Definition visitCallBase (F : FuncId) (CI : InstId) (Callee : option FuncId) (args : list Operand)
    (s : ModRefAnalysisResult) : res ModRefAnalysisResult :=
  let s0 := visit_sync F Callee s in
  let externals := call_externals CI Callee in
  if bool_decide (externals = []) then Ok s0
  else
    let* s1 := rfold (visit_arg F externals) (imap pair args) s0 in
    rfold (visit_return F CI) externals s1.

(** The visitor; the other instructions have no visit method. *)
Definition visit_inst (F : FuncId) (s : ModRefAnalysisResult) (I : MInst) : res ModRefAnalysisResult :=
  match I with
  | AllocaI id =>
      let* R := of_option (getValueRegion Regions id) in
      Ok (with_local (add_regs F {[ R ]} (funcLocalMap s)) s)
  | LoadI _ ptr => let* Regs := regions_of ptr in Ok (add_ref F Regs s)
  | StoreI _ _ ptr => let* Regs := regions_of ptr in Ok (add_mod F Regs s)
  | CallI id Callee args _ _ => visitCallBase F id Callee args s
  | _ => Ok s
  end.

(** ** The call graph *)

(** The functions the node of [F] calls, in the order of its records. *)
Definition callee_functions (F : FuncId) : list FuncId :=
  List.filter (fun C => negb (bool_decide (C = F))) (omap getFunction (callees CG (FnNode (Some F)))).

(** The kill set of [F] from the callees outside its component. *)
Definition kill_from (NodeVec : list FuncId) (F : FuncId) (s : ModRefAnalysisResult) (Callee : FuncId) : ModRefAnalysisResult :=
  if bool_decide (Callee ∈ NodeVec) then s
  else with_kill (add_regs F (regs_of (funcLocalMap s) Callee ∪ regs_of (funcKillMap s) Callee) (funcKillMap s)) s.

(** [Mod(F) = Mod(F) \ kill(F)], [Ref(F) = Ref(F) \ kill(F)]. *)
Definition remove_killed (F : FuncId) (s : ModRefAnalysisResult) : ModRefAnalysisResult :=
  with_ref (<[F := regs_of (funcRefMap s) F ∖ regs_of (funcKillMap s) F]> (funcRefMap s))
    (with_mod (<[F := regs_of (funcModMap s) F ∖ regs_of (funcKillMap s) F]> (funcModMap s)) s).

Definition kill_function (NodeVec : list FuncId) (s : ModRefAnalysisResult) (F : FuncId) : ModRefAnalysisResult :=
  remove_killed F (fold_left (kill_from NodeVec F) (callee_functions F) s).

(** What a caller gets from a callee. *)
Definition pull_from (F : FuncId) (s : ModRefAnalysisResult) (Callee : FuncId) : ModRefAnalysisResult :=
  let K := regs_of (funcKillMap s) F in
  with_ref (add_regs F (regs_of (funcRefMap s) Callee ∖ K) (funcRefMap s))
    (with_mod (add_regs F (regs_of (funcModMap s) Callee ∖ K) (funcModMap s)) s).

(** One function of the component: whether its sets grew. *)
Definition pull_function (acc : bool * ModRefAnalysisResult) (F : FuncId) : bool * ModRefAnalysisResult :=
  let '(Changed, s) := acc in
  let s' := fold_left (pull_from F) (callee_functions F) s in
  (Changed || (size (regs_of (funcModMap s) F) <? size (regs_of (funcModMap s') F))%nat
           || (size (regs_of (funcRefMap s) F) <? size (regs_of (funcRefMap s') F))%nat, s').

Fixpoint pull_loop (fuel : nat) (NodeVec : list FuncId) (s : ModRefAnalysisResult) : res ModRefAnalysisResult :=
  match fuel with
  | O => OutOfFuel
  | S fuel' =>
      let '(Changed, s') := fold_left pull_function NodeVec (false, s) in
      if Changed then pull_loop fuel' NodeVec s' else Ok s'
  end.

(** One strongly connected component; nodes without a function are skipped
    throughout, so a component is given by its functions. *)
Definition visit_scc (fuel : nat) (s : ModRefAnalysisResult) (NodeVec : list FuncId) : res ModRefAnalysisResult :=
  pull_loop fuel NodeVec (fold_left (kill_function NodeVec) NodeVec s).

(** The global kill set: the regions allocated in unreachable functions. *)
Definition unreachable_site (V : ValueId) : option RegId :=
  match instFunction M V with
  | Some F => if isReachableFromEntry CG F then None else getValueRegion Regions V
  | None => None
  end.

(** [analyze]; [sccs] are the components in the order of [scc_iterator]. *)
Definition visit_function (s : ModRefAnalysisResult) (F : FuncId) : res ModRefAnalysisResult :=
  if isReachableFromEntry CG F then rfold (visit_inst F) (minsts M F).*2 s else Ok s.

Definition analyze (fuel : nat) (sccs : list (list FuncId)) : res ModRefAnalysisResult :=
  let s0 := {| funcModMap := ∅; funcRefMap := ∅; funcLocalMap := ∅; funcKillMap := ∅;
               globalKillSet := list_to_set (omap unreachable_site allocationSites) |} in
  let* s1 := rfold visit_function (functions (base M)) s0 in
  rfold (visit_scc fuel) sccs s1.

Definition getFuncMod (s : ModRefAnalysisResult) (F : FuncId) : gset RegId := regs_of (funcModMap s) F.
Definition getFuncRef (s : ModRefAnalysisResult) (F : FuncId) : gset RegId := regs_of (funcRefMap s) F.
Definition getFuncKill (s : ModRefAnalysisResult) (F : FuncId) : gset RegId := regs_of (funcKillMap s) F.
Definition inGlobalKillSet (s : ModRefAnalysisResult) (R : RegId) : bool := bool_decide (R ∈ globalKillSet s).
End ModRef.

(** * One component *)

#[local] Open Scope nat_scope.

(** The modified regions of a function, or those read. *)
Definition effects (b : bool) (s : ModRefAnalysisResult) (F : FuncId) : gset RegId :=
  regs_of (if b then funcModMap s else funcRefMap s) F.

Lemma regs_of_insert (m : RegMap) F X G : regs_of (<[F := X]> m) G = if decide (G = F) then X else regs_of m G.
Proof.
  unfold regs_of. destruct (decide (G = F)) as [->|Hne]; [by rewrite lookup_insert_eq|].
  by rewrite lookup_insert_ne by congruence.
Qed.

Lemma regs_of_add F X m G : regs_of (add_regs F X m) G = if decide (G = F) then X ∪ regs_of m F else regs_of m G.
Proof. apply regs_of_insert. Qed.

Section Component.
Context (CG : PTACallGraph).

Local Abbreviation calls F := (callee_functions CG F).

(** The sets that the two loops leave alone. *)
Definition same_frame (s s' : ModRefAnalysisResult) : Prop :=
  funcKillMap s' = funcKillMap s /\ funcLocalMap s' = funcLocalMap s /\ globalKillSet s' = globalKillSet s.

Lemma not_own_callee F : F ∉ calls F.
Proof. unfold callee_functions. rewrite elem_of_filterb. intros [_ H]. by rewrite bool_decide_true in H. Qed.

Lemma pull_from_spec F C s :
  same_frame s (pull_from F s C) /\
  forall b G, effects b (pull_from F s C) G =
    if decide (G = F) then (effects b s C ∖ regs_of (funcKillMap s) F) ∪ effects b s F else effects b s G.
Proof. split; [done|]. intros [] G; apply regs_of_add. Qed.

Lemma pull_all_spec F Cs : forall s, F ∉ Cs ->
  let s' := fold_left (pull_from F) Cs s in
  same_frame s s' /\ (forall b G, G <> F -> effects b s' G = effects b s G) /\
  forall b R, R ∈ effects b s' F <->
    R ∈ effects b s F \/ exists C, C ∈ Cs /\ R ∈ effects b s C /\ R ∉ regs_of (funcKillMap s) F.
Proof.
  induction Cs as [|C Cs IH]; intros s HF; simpl; [split; [done|]; split; [done|]; set_solver|].
  apply not_elem_of_cons in HF as [HC HF]. destruct (pull_from_spec F C s) as [(K1 & L1 & G1) E1].
  destruct (IH (pull_from F s C) HF) as ((K2 & L2 & G2) & O2 & S2). split; [|split].
  - repeat split; congruence.
  - intros b G Hne. rewrite O2, E1 by done. by rewrite decide_False.
  - intros b R. rewrite S2, E1, decide_True by done. rewrite elem_of_union, elem_of_difference, K1.
    setoid_rewrite elem_of_cons. split.
    + intros [[[? ?]|?]|(D & HD & HR & HK)]; [right; eauto|by left|]. right. exists D. split; [by right|].
      rewrite E1, decide_False in HR by (intros ->; done). done.
    + intros [?|(D & [->|HD] & HR & HK)]; [by left; right|by left; left|]. right. exists D. split; [done|].
      rewrite E1, decide_False by (intros ->; done). done.
Qed.

(** The functions of the component. *)
Lemma pull_functions_spec vec : forall ch s,
  let '(ch', s') := fold_left (pull_function CG) vec (ch, s) in
  same_frame s s' /\
  (forall b G, effects b s G ⊆ effects b s' G) /\
  (forall b G, G ∉ vec -> effects b s' G = effects b s G) /\
  (forall b (P : FuncId -> RegId -> Prop), (forall F R, R ∈ effects b s F -> P F R) ->
    (forall F C R, F ∈ vec -> C ∈ calls F -> P C R -> R ∉ regs_of (funcKillMap s) F -> P F R) ->
    forall F R, R ∈ effects b s' F -> P F R) /\
  (ch' = false -> ch = false /\ forall b, (forall G, effects b s' G = effects b s G) /\
    forall F C, F ∈ vec -> C ∈ calls F -> effects b s C ∖ regs_of (funcKillMap s) F ⊆ effects b s F) /\
  (ch' = true -> ch = true \/ exists F b, F ∈ vec /\ size (effects b s F) < size (effects b s' F)).
Proof.
  induction vec as [|F vec IH]; intros ch s; cbn [fold_left].
  { split; [done|]. split; [done|]. split; [done|]. split; [eauto|]. split; [|by left].
    intros ->. split; [done|]. intros b. split; [done|]. by intros F C ?%not_elem_of_nil. }
  cbn [pull_function]. destruct (pull_all_spec F (calls F) s (not_own_callee F)) as ((K1 & L1 & G1) & O1 & S1).
  set (s1 := fold_left (pull_from F) (calls F) s) in *.
  set (ch1 := ch || (size (regs_of (funcModMap s) F) <? size (regs_of (funcModMap s1) F))
    || (size (regs_of (funcRefMap s) F) <? size (regs_of (funcRefMap s1) F))).
  specialize (IH ch1 s1). destruct (fold_left (pull_function CG) vec (ch1, s1)) as [ch' s'].
  destruct IH as ((K2 & L2 & G2) & M2 & O2 & P2 & F2 & T2).
  assert (forall b G, effects b s G ⊆ effects b s1 G) as M1.
  { intros b G R HR. destruct (decide (G = F)) as [->|]; [apply S1; by left|by rewrite O1]. }
  split; [repeat split; congruence|]. split; [set_solver|]. split; [|split; [|split]].
  - intros b G [Hne HG]%not_elem_of_cons. by rewrite O2, O1.
  - intros b P HP HC. apply P2.
    + intros G R HR. destruct (decide (G = F)) as [->|]; [|rewrite O1 in HR by done; by apply HP].
      apply S1 in HR as [?|(C & HCF & HR & HK)]; [by apply HP|]. apply (HC F C R); [apply list_elem_of_here|done|by apply HP|done].
    + rewrite K1. intros G C R HG. apply HC. by apply list_elem_of_further.
  - intros Hf. destruct (F2 Hf) as [Hc1 H2]. unfold ch1 in Hc1.
    apply orb_false_iff in Hc1 as [[-> Hmod%Nat.ltb_ge]%orb_false_iff Href%Nat.ltb_ge]. split; [done|]. intros b.
    assert (effects b s1 F = effects b s F) as Eb.
    { apply set_eq. intros R. split; [|apply M1]. intros HR. apply dec_stable. intros Hn.
      assert (size (effects b s F) < size (effects b s1 F)) as Hlt by (apply subset_size; split; [apply M1|set_solver]).
      destruct b; unfold effects in Hlt; lia. }
    assert (forall G, effects b s1 G = effects b s G) as E1.
    { intros G. destruct (decide (G = F)) as [->|]; [done|by apply O1]. }
    destruct (H2 b) as [E2 C2]. split; [intros G; by rewrite E2, E1|].
    intros G C [->|HG]%elem_of_cons HC; [|rewrite <- !E1, <- K1; by apply C2].
    intros R [HR HK]%elem_of_difference. rewrite <- Eb. apply S1. right. eauto.
  - intros Ht. destruct (T2 Ht) as [Hc1|(G & b & HG & Hlt)].
    + unfold ch1 in Hc1. apply orb_true_iff in Hc1 as [[?|Hlt%Nat.ltb_lt]%orb_true_iff|Hlt%Nat.ltb_lt]; [by left|..]; right.
      * exists F, true. split; [apply list_elem_of_here|]. eapply Nat.lt_le_trans; [exact Hlt|]. apply subseteq_size, (M2 true).
      * exists F, false. split; [apply list_elem_of_here|]. eapply Nat.lt_le_trans; [exact Hlt|]. apply subseteq_size, (M2 false).
    + right. exists G, b. split; [by apply list_elem_of_further|]. eapply Nat.le_lt_trans; [|exact Hlt].
      apply subseteq_size, M1.
Qed.

(** The fixed point of the component [vec]: [P] bounds the sets, [U] holds all
    regions. *)
Section Loop.
Context (vec : list FuncId) (U : gset RegId) (P : bool -> FuncId -> RegId -> Prop).
Hypothesis HU : forall b F R, F ∈ vec -> P b F R -> R ∈ U.

(** The regions the sets of the component do not have. *)
Definition missing (s : ModRefAnalysisResult) : nat :=
  sum_list_with (fun F => size (U ∖ effects true s F) + size (U ∖ effects false s F)) vec.

Definition bounded (s : ModRefAnalysisResult) : Prop :=
  (forall b F R, R ∈ effects b s F -> P b F R) /\
  (forall b F C R, F ∈ vec -> C ∈ calls F -> P b C R -> R ∉ regs_of (funcKillMap s) F -> P b F R).

Definition closed (s : ModRefAnalysisResult) : Prop :=
  forall b F C, F ∈ vec -> C ∈ calls F -> effects b s C ∖ regs_of (funcKillMap s) F ⊆ effects b s F.

Lemma missing_lt s s' F b : F ∈ vec -> (forall b G, effects b s G ⊆ effects b s' G) ->
  (forall G R, R ∈ effects b s' G -> P b G R) -> size (effects b s F) < size (effects b s' F) -> missing s' < missing s.
Proof.
  intros HF Hsub HP Hlt.
  assert (forall c G, size (U ∖ effects c s' G) <= size (U ∖ effects c s G)) as Hle.
  { intros c G. apply subseteq_size. specialize (Hsub c G). set_solver. }
  assert (size (U ∖ effects b s' F) < size (U ∖ effects b s F)) as HltF.
  { assert (exists R, R ∈ effects b s' F /\ (R ∉ effects b s F)) as (R & H1 & H2).
    { destruct (set_choose_or_empty (effects b s' F ∖ effects b s F)) as [[R HR]|He]; [exists R; set_solver|].
      assert (effects b s' F ⊆ effects b s F) as Hs%subseteq_size by set_solver. lia. }
    apply subset_size. split; [specialize (Hsub b F); set_solver|]. intros Hs.
    assert (R ∈ U ∖ effects b s F) as HR by (apply elem_of_difference; split; [by eapply HU, HP|done]). set_solver. }
  unfold missing. clear HP. induction vec as [|G l IH]; [by apply not_elem_of_nil in HF|]. simpl.
  pose proof (Hle true G). pose proof (Hle false G).
  assert (sum_list_with (fun F => size (U ∖ effects true s' F) + size (U ∖ effects false s' F)) l <=
    sum_list_with (fun F => size (U ∖ effects true s F) + size (U ∖ effects false s F)) l) as Hl.
  { clear -Hle. induction l as [|K l IH]; simpl; [lia|]. pose proof (Hle true K). pose proof (Hle false K). lia. }
  apply elem_of_cons in HF as [->|HF]; [destruct b; lia|].
  assert (sum_list_with (fun F => size (U ∖ effects true s' F) + size (U ∖ effects false s' F)) l <
    sum_list_with (fun F => size (U ∖ effects true s F) + size (U ∖ effects false s F)) l); [|lia].
  apply IH; [|done]. intros c K R HK. apply HU. by apply list_elem_of_further.
Qed.

Lemma missing_le s : missing s <= 2 * length vec * size U.
Proof.
  unfold missing. clear HU. induction vec as [|F l IH]; simpl; [lia|].
  assert (size (U ∖ effects true s F) <= size U) by (apply subseteq_size; set_solver).
  assert (size (U ∖ effects false s F) <= size U) by (apply subseteq_size; set_solver). lia.
Qed.

Lemma pull_loop_spec fuel : forall s, missing s < fuel -> bounded s ->
  exists s', pull_loop CG fuel vec s = Ok s' /\ same_frame s s' /\ bounded s' /\ closed s' /\
    (forall b G, effects b s G ⊆ effects b s' G) /\ (forall b G, G ∉ vec -> effects b s' G = effects b s G).
Proof.
  induction fuel as [|fuel IH]; intros s Hf [B1 B2]; [lia|]. cbn [pull_loop].
  pose proof (pull_functions_spec vec false s) as H.
  destruct (fold_left (pull_function CG) vec (false, s)) as [ch' s']. destruct H as ((K1 & L1 & G1) & M1 & O1 & P1 & F1 & T1).
  assert (bounded s') as Hb'.
  { split; [|by rewrite K1]. intros b. apply P1; [apply B1|]. intros F C R. apply B2. }
  destruct ch'.
  - destruct (T1 eq_refl) as [|(F & b & HF & Hlt)]; [done|].
    destruct (IH s') as (s2 & E & (K2 & L2 & G2) & Hb & Hc & M2 & O2); [|done|].
    + assert (missing s' < missing s); [|lia]. apply (missing_lt s s' F b HF M1 (proj1 Hb' b) Hlt).
    + exists s2. split; [done|]. split; [repeat split; congruence|]. split; [done|]. split; [done|].
      split; [set_solver|]. intros c G HG. by rewrite O2, O1.
  - destruct (F1 eq_refl) as [_ Hc]. exists s'. split; [done|]. split; [done|]. split; [done|]. split; [|done].
    intros b F C HF HC. destruct (Hc b) as [E C1]. rewrite !E, K1. by apply C1.
Qed.
End Loop.

(** * The kill sets *)

Lemma kill_from_spec vec F Cs : forall s, F ∉ Cs ->
  let s' := fold_left (kill_from vec F) Cs s in
  funcLocalMap s' = funcLocalMap s /\ globalKillSet s' = globalKillSet s /\ (forall b G, effects b s' G = effects b s G) /\
  (forall G, G <> F -> regs_of (funcKillMap s') G = regs_of (funcKillMap s) G) /\
  forall R, R ∈ regs_of (funcKillMap s') F <-> R ∈ regs_of (funcKillMap s) F \/
    exists C, C ∈ Cs /\ (C ∉ vec) /\ (R ∈ regs_of (funcLocalMap s) C \/ R ∈ regs_of (funcKillMap s) C).
Proof.
  induction Cs as [|C Cs IH]; intros s HF; simpl; [do 4 (split; [done|]); set_solver|].
  apply not_elem_of_cons in HF as [HC HF]. unfold kill_from at 2 4 6 8 10. case_bool_decide as Hv.
  - destruct (IH s HF) as (H1 & H2 & H3 & H4 & H5). do 4 (split; [done|]). intros R. rewrite H5.
    setoid_rewrite elem_of_cons. naive_solver.
  - destruct (IH (with_kill (add_regs F (regs_of (funcLocalMap s) C ∪ regs_of (funcKillMap s) C) (funcKillMap s)) s) HF)
      as (H1 & H2 & H3 & H4 & H5). split; [done|]. split; [done|]. split; [intros b G; rewrite H3; by destruct b|].
    split; [intros G Hne; rewrite H4 by done; simpl; by rewrite regs_of_add, decide_False|].
    intros R. rewrite H5. simpl. setoid_rewrite regs_of_add. rewrite decide_True by done. rewrite !elem_of_union.
    setoid_rewrite elem_of_cons. split.
    + intros [[[?|?]|?]|(D & HD & HDv & HR)]; [right; exists C; tauto|right; exists C; tauto|by left|]. right. exists D.
      rewrite decide_False in HR by (intros ->; done). tauto.
    + intros [?|(D & [->|HD] & HDv & HR)]; [by left; right|left; left; tauto|]. right. exists D.
      rewrite decide_False by (intros ->; done). tauto.
Qed.

Lemma kill_function_spec vec F s : F ∈ vec ->
  let s' := kill_function CG vec s F in
  funcLocalMap s' = funcLocalMap s /\ globalKillSet s' = globalKillSet s /\
  (forall G, G <> F -> regs_of (funcKillMap s') G = regs_of (funcKillMap s) G /\ forall b, effects b s' G = effects b s G) /\
  (forall R, R ∈ regs_of (funcKillMap s') F <-> R ∈ regs_of (funcKillMap s) F \/
    exists C, C ∈ calls F /\ (C ∉ vec) /\ (R ∈ regs_of (funcLocalMap s) C \/ R ∈ regs_of (funcKillMap s) C)) /\
  forall b, effects b s' F = effects b s F ∖ regs_of (funcKillMap s') F.
Proof.
  intros HF. unfold kill_function.
  destruct (kill_from_spec vec F (calls F) s (not_own_callee F)) as (H1 & H2 & H3 & H4 & H5).
  set (s1 := fold_left (kill_from vec F) (calls F) s) in *. split; [done|]. split; [done|]. split; [|split; [done|]].
  - intros G Hne. split; [by apply H4|]. intros b. rewrite <- H3. unfold effects, remove_killed.
    destruct b; simpl; by rewrite regs_of_insert, decide_False.
  - intros b. rewrite <- H3. unfold effects, remove_killed. destruct b; simpl; by rewrite regs_of_insert, decide_True.
Qed.

Lemma kill_functions_spec vec Fs : forall s, NoDup Fs -> (forall F, F ∈ Fs -> F ∈ vec) ->
  let s' := fold_left (kill_function CG vec) Fs s in
  funcLocalMap s' = funcLocalMap s /\ globalKillSet s' = globalKillSet s /\
  (forall G, G ∉ Fs -> regs_of (funcKillMap s') G = regs_of (funcKillMap s) G /\ forall b, effects b s' G = effects b s G) /\
  forall F, F ∈ Fs ->
    (forall R, R ∈ regs_of (funcKillMap s') F <-> R ∈ regs_of (funcKillMap s) F \/
      exists C, C ∈ calls F /\ (C ∉ vec) /\ (R ∈ regs_of (funcLocalMap s) C \/ R ∈ regs_of (funcKillMap s) C)) /\
    forall b, effects b s' F = effects b s F ∖ regs_of (funcKillMap s') F.
Proof.
  induction Fs as [|F Fs IH]; intros s Hnd Hin; simpl; [do 3 (split; [done|]); by intros ? ?%not_elem_of_nil|].
  apply NoDup_cons in Hnd as [HF Hnd]. assert (F ∈ vec) as HFv by (apply Hin, list_elem_of_here).
  destruct (kill_function_spec vec F s HFv) as (L1 & G1 & O1 & K1 & E1).
  destruct (IH (kill_function CG vec s F) Hnd) as (L2 & G2 & O2 & K2); [intros G HG; apply Hin; by apply list_elem_of_further|].
  split; [congruence|]. split; [congruence|]. split.
  - intros G [Hne HG]%not_elem_of_cons. destruct (O2 G HG) as [-> E2], (O1 G Hne) as [-> E1']. split; [done|].
    intros b. by rewrite E2, E1'.
  - intros G [->|HG]%elem_of_cons.
    + destruct (O2 F HF) as [EK E2]. rewrite EK. split; [done|]. intros b. by rewrite E2, E1.
    + destruct (K2 G HG) as [HR HE]. assert (G <> F) as Hne by (intros ->; done). destruct (O1 G Hne) as [EKG EG]. split.
      * intros R. rewrite HR, L1, EKG. apply or_iff_compat_l. split; intros (C & HC & HCv & HR'); exists C;
          (split; [done|]); (split; [done|]); destruct (O1 C) as [EKC _]; try (by intros ->); [rewrite <- EKC|rewrite EKC]; done.
      * intros b. by rewrite HE, EG.
Qed.
End Component.

(** * All components *)

Section Components.
Context (CG : PTACallGraph) (sccs : list (list FuncId)).
Context (direct : bool -> FuncId -> RegId -> Prop) (local : FuncId -> RegId -> Prop) (U : gset RegId).

Local Abbreviation calls F := (callee_functions CG F).

(** The components are in the order of [scc_iterator], callees first. *)
Definition callees_first : Prop := forall done vec rest F C,
  sccs = done ++ vec :: rest -> F ∈ vec -> C ∈ calls F -> C ∈ vec \/ C ∈ concat done.

(** The locals of a callee in an earlier component, and what that callee does not
    let its callers see. *)
Inductive killed : FuncId -> RegId -> Prop :=
| killed_local vec F C R : vec ∈ sccs -> F ∈ vec -> C ∈ calls F -> C ∉ vec -> local C R -> killed F R
| killed_callee vec F C R : vec ∈ sccs -> F ∈ vec -> C ∈ calls F -> C ∉ vec -> killed C R -> killed F R.

Lemma killed_inv F R : killed F R -> exists vec C, vec ∈ sccs /\ F ∈ vec /\ C ∈ calls F /\ (C ∉ vec) /\ (local C R \/ killed C R).
Proof. destruct 1; eauto 10. Qed.

(** What a function does to memory, as far as its callers see it. *)
Inductive effect (b : bool) : FuncId -> RegId -> Prop :=
| effect_direct F R : direct b F R -> ~ killed F R -> effect b F R
| effect_call F C R : C ∈ calls F -> effect b C R -> ~ killed F R -> effect b F R.

Hypothesis Hdirect : forall b F R, direct b F R -> R ∈ U.

Lemma effect_in b F R : effect b F R -> R ∈ U.
Proof. induction 1; eauto. Qed.

(** The state once the components [done] are visited. *)
Record visited_sccs (done : list (list FuncId)) (s : ModRefAnalysisResult) : Prop := {
  vs_local : forall F R, R ∈ regs_of (funcLocalMap s) F <-> local F R;
  vs_done : forall F, F ∈ concat done ->
    (forall R, R ∈ regs_of (funcKillMap s) F <-> killed F R) /\
    forall b R, R ∈ effects b s F <-> effect b F R;
  vs_rest : forall F, F ∉ concat done ->
    (forall R, R ∉ regs_of (funcKillMap s) F) /\ forall b R, R ∈ effects b s F <-> direct b F R
}.

Lemma elem_of_concat_list F (l : list (list FuncId)) : F ∈ concat l <-> exists v, v ∈ l /\ F ∈ v.
Proof.
  rewrite list_elem_of_In, in_concat. setoid_rewrite list_elem_of_In. naive_solver.
Qed.

(** The components are apart. *)
Lemma scc_fresh done vec rest : sccs = done ++ vec :: rest -> NoDup (concat sccs) ->
  NoDup vec /\ forall F, F ∈ vec -> F ∉ concat done.
Proof.
  intros Es Hnd. rewrite Es, concat_app in Hnd. simpl in Hnd. rewrite app_assoc in Hnd. apply NoDup_app in Hnd as [Hnd _].
  apply NoDup_app in Hnd as (_ & Hdis & Hvec). split; [done|]. intros F HF HD. by apply (Hdis F).
Qed.

Lemma scc_unique done vec rest v F : sccs = done ++ vec :: rest -> NoDup (concat sccs) -> v ∈ sccs -> F ∈ v -> F ∈ vec -> v = vec.
Proof.
  intros Es Hnd Hv HF HFv. pose proof (proj2 (scc_fresh done vec rest Es Hnd)) as Hnew.
  rewrite Es in Hv, Hnd. apply elem_of_app in Hv as [Hv|[->|Hv]%elem_of_cons]; [|done|]; exfalso.
  - apply (Hnew F HFv). apply elem_of_concat_list. eauto.
  - rewrite concat_app in Hnd. simpl in Hnd. apply NoDup_app in Hnd as (_ & _ & Hnd).
    apply NoDup_app in Hnd as (_ & Hd & _). apply (Hd F HFv). apply elem_of_concat_list. eauto.
Qed.

Lemma visit_scc_spec done vec rest s fuel :
  sccs = done ++ vec :: rest -> callees_first -> NoDup (concat sccs) -> 2 * length vec * size U < fuel ->
  visited_sccs done s -> exists s', visit_scc CG fuel s vec = Ok s' /\ visited_sccs (done ++ [vec]) s'.
Proof.
  intros Es Hord Hnd Hf [VL VD VR].
  destruct (scc_fresh done vec rest Es Hnd) as [Hvec Hnew].
  assert (forall F C, F ∈ vec -> C ∈ calls F -> C ∈ vec \/ C ∈ concat done) as Hcall by (intros F C; by apply (Hord done vec rest)).
  assert (vec ∈ sccs) as Hin by (rewrite Es; apply elem_of_app; right; apply list_elem_of_here).
  pose proof (fun v F => scc_unique done vec rest v F Es Hnd) as Huniq.
  unfold visit_scc. destruct (kill_functions_spec CG vec vec s Hvec (fun _ H => H)) as (KL & _ & KO & KV).
  set (s1 := fold_left (kill_function CG vec) vec s) in *.
  assert (forall F R, F ∈ vec -> R ∈ regs_of (funcKillMap s1) F <-> killed F R) as HK.
  { intros F R HF. destruct (KV F HF) as [-> _]. split.
    - intros [HR|(C & HC & HCv & HR)]; [by apply (proj1 (VR F (Hnew F HF))) in HR|].
      destruct (Hcall F C HF HC) as [|HCd]; [done|]. rewrite VL, (proj1 (VD C HCd)) in HR.
      destruct HR; [by apply (killed_local vec F C)|by apply (killed_callee vec F C)].
    - intros (v & C & Hv & HFv & HC & HCv & HR)%killed_inv. rewrite (Huniq v F Hv HFv HF) in HCv.
      right. exists C. split; [done|]. split; [done|]. destruct (Hcall F C HF HC) as [|HCd]; [done|].
      by rewrite VL, (proj1 (VD C HCd)). }
  assert (forall b F R, F ∈ vec -> R ∈ effects b s1 F <-> direct b F R /\ ~ killed F R) as HE.
  { intros b F R HF. destruct (KV F HF) as [_ ->]. rewrite elem_of_difference, HK by done.
    by rewrite (proj2 (VR F (Hnew F HF))). }
  set (P := fun b F R => F ∈ vec /\ effect b F R \/ (F ∉ vec) /\ R ∈ effects b s1 F).
  destruct (pull_loop_spec CG vec U P) with (fuel := fuel) (s := s1) as (s2 & E & (K2 & L2 & _) & [B2 _] & C2 & M2 & O2).
  - intros b F R HF [[_ HR]|[? _]]; [by eapply effect_in|done].
  - eapply Nat.le_lt_trans; [apply missing_le|done].
  - split.
    + intros b F R HR. destruct (decide (F ∈ vec)) as [HF|HF]; [left|by right]. split; [done|].
      apply HE in HR as [? ?]; [|done]. by apply effect_direct.
    + intros b F C R HF HC HCR HKR. left. split; [done|]. rewrite HK in HKR by done.
      apply (effect_call b F C R HC); [|done]. destruct HCR as [[_ ?]|[HCv HCR]]; [done|].
      destruct (Hcall F C HF HC) as [|HCd]; [done|]. apply (proj2 (VD C HCd)). by rewrite <- (proj2 (KO C HCv)).
  - exists s2. split; [done|]. split.
    + intros F R. by rewrite L2, KL.
    + intros F HF. rewrite concat_app in HF. simpl in HF. rewrite app_nil_r in HF. apply elem_of_app in HF.
      destruct (decide (F ∈ vec)) as [HFv|HFv].
      * rewrite K2. split; [intros R; by apply HK|]. intros b R. split.
        -- intros HR%B2. destruct HR as [[_ ?]|[? _]]; done.
        -- assert (forall F R, effect b F R -> F ∈ vec -> R ∈ effects b s2 F) as Hall; [|eauto].
           clear F HF HFv R. induction 1 as [F R HR HnK|F C R HC HCR IH HnK]; intros HF; [apply M2, HE; done|].
           apply (C2 b F C HF HC), elem_of_difference. rewrite K2, HK by done. split; [|done].
           destruct (decide (C ∈ vec)) as [HCv|HCv]; [by apply IH|]. destruct (Hcall F C HF HC) as [|HCd]; [done|].
           rewrite O2, (proj2 (KO C HCv)) by done. by apply (proj2 (VD C HCd)).
      * destruct HF as [HF|]; [|done]. rewrite K2, (proj1 (KO F HFv)). split; [apply VD, HF|]. intros b R.
        rewrite O2, (proj2 (KO F HFv)) by done. by apply VD.
    + intros F HF. rewrite concat_app in HF. simpl in HF. rewrite app_nil_r in HF. apply not_elem_of_app in HF as [HF HFv].
      rewrite K2, (proj1 (KO F HFv)). split; [apply VR, HF|]. intros b R. rewrite O2, (proj2 (KO F HFv)) by done. by apply VR.
Qed.

Lemma visit_sccs_spec fuel rest : forall done s,
  sccs = done ++ rest -> callees_first -> NoDup (concat sccs) -> (forall vec, vec ∈ sccs -> 2 * length vec * size U < fuel) ->
  visited_sccs done s -> exists s', rfold (visit_scc CG fuel) rest s = Ok s' /\ visited_sccs sccs s'.
Proof.
  induction rest as [|vec rest IH]; intros done s Es Hord Hnd Hf Hs.
  - exists s. rewrite app_nil_r in Es. by rewrite Es.
  - destruct (visit_scc_spec done vec rest s fuel Es Hord Hnd) as (s1 & E1 & Hs1); [|done|].
    { apply Hf. rewrite Es. apply elem_of_app. right. apply list_elem_of_here. }
    destruct (IH (done ++ [vec]) s1) as (s' & E' & Hs'); [by rewrite <- app_assoc|done..|].
    exists s'. cbn [rfold]. by rewrite E1.
Qed.
End Components.

(** * What the instructions do *)

#[local] Opaque getExtModInfo ExtModInfoMap.

Section Direct.
Context (cfg : BuildConfig) (opts : Options) (M : MModule) (CG : PTACallGraph) (Regions : MemReg).
Context {PA : PointerAnalysis}.
Hypothesis Hfiled : filed Regions.

(** [v] may point to the region [R]. *)
Definition may_point (v : ValueId) (R : RegId) : Prop :=
  exists PtsSet, pointees v = Some PtsSet /\ R ∈ PtsSet /\ is_Some (valueToRegMap Regions !! R).

(** The synchronizations that write shared regions. *)
Definition sync_writes (F : FuncId) (Callee : option FuncId) (R : RegId) : Prop :=
  exists C Coll, Callee = Some C /\ Collectives.find cfg opts (fname M C) = Some Coll /\
    (enable_cuda cfg = true /\ P_ Coll = CUDA /\ Name Coll = "llvm.nvvm.barrier0"%string /\ R ∈ sharedCudaRegions Regions \/
     enable_openmp cfg = true /\ P_ Coll = OMP /\ Name Coll = "__kmpc_barrier"%string /\
       R ∈ regs_of (func2SharedOmpRegs Regions) F).

(** A pointer argument that is no integer in disguise. *)
Definition passes (a : Operand) : Prop := opIsPointer a = true /\ opIsIntToPtr a = false.

(** The external function [C] writes through its argument [i]. *)
Definition modifies_arg (C : FuncId) (i : nat) : Prop :=
  exists Info, getExtModInfo (fname M C) = Some Info /\ arg_is_mod Info i (varArg M C) = Ok true.

Definition inst_writes (F : FuncId) (I : MInst) (R : RegId) : Prop :=
  match I with
  | StoreI _ _ ptr => may_point ptr R
  | CallI CI Callee args _ _ => sync_writes F Callee R \/
      exists C, C ∈ call_externals M CG CI Callee /\
        ((exists i a, args !! i = Some a /\ passes a /\ modifies_arg C i /\ may_point (opId a) R) \/
         (returnsPointer M C = true /\ (exists Info, getExtModInfo (fname M C) = Some Info /\ RetIsMod Info = true) /\
          may_point CI R))
  | _ => False
  end.

Definition inst_reads (I : MInst) (R : RegId) : Prop :=
  match I with
  | LoadI _ ptr => may_point ptr R
  | CallI CI Callee args _ _ => exists C, C ∈ call_externals M CG CI Callee /\
      ((exists a, a ∈ args /\ passes a /\ may_point (opId a) R) \/ (returnsPointer M C = true /\ may_point CI R))
  | _ => False
  end.

Definition inst_effect (b : bool) (F : FuncId) (I : MInst) (R : RegId) : Prop :=
  if b then inst_writes F I R else inst_reads I R.

Definition inst_local (I : MInst) (R : RegId) : Prop := match I with AllocaI id => R = id | _ => False end.

(** What the code asserts, or reads inside the bounds of the table. *)
Definition inst_known (I : MInst) : Prop :=
  match I with
  | AllocaI id => is_Some (valueToRegMap Regions !! id)
  | LoadI _ ptr | StoreI _ _ ptr => is_Some (pointees ptr)
  | CallI CI Callee args _ _ => forall C, C ∈ call_externals M CG CI Callee ->
      (returnsPointer M C = true -> is_Some (pointees CI)) /\
      forall i a, args !! i = Some a -> passes a -> is_Some (pointees (opId a)) /\
        forall Info, getExtModInfo (fname M C) = Some Info -> exists m, arg_is_mod Info i (varArg M C) = Ok m
  | _ => True
  end.

(** ** One step *)

(** The step adds [D] to the effects of [F] and nothing else. *)
Record adds_effects (F : FuncId) (D : bool -> RegId -> Prop) (s s' : ModRefAnalysisResult) : Prop := {
  ae_local : funcLocalMap s' = funcLocalMap s;
  ae_frame : funcKillMap s' = funcKillMap s /\ globalKillSet s' = globalKillSet s;
  ae_effects : forall b G R, R ∈ effects b s' G <-> R ∈ effects b s G \/ G = F /\ D b R /\ (R ∉ globalKillSet s)
}.

Lemma adds_none F s : adds_effects F (fun _ _ => False) s s.
Proof. split; [done|done|]. intros b G R. tauto. Qed.

Lemma adds_ext F D D' s s' : (forall b R, D b R <-> D' b R) -> adds_effects F D s s' -> adds_effects F D' s s'.
Proof. intros H [L K E]. split; [done|done|]. intros b G R. rewrite E, (H b R). tauto. Qed.

Lemma adds_trans F D D' s s1 s2 :
  adds_effects F D s s1 -> adds_effects F D' s1 s2 -> adds_effects F (fun b R => D b R \/ D' b R) s s2.
Proof.
  intros [L1 [K1 G1] E1] [L2 [K2 G2] E2]. split; [congruence|split; congruence|]. intros b G R. rewrite E2, E1, G1. tauto.
Qed.

Lemma add_mod_adds F Regs s : adds_effects F (fun b R => b = true /\ R ∈ Regs) s (add_mod F Regs s).
Proof.
  split; [done|done|]. intros b G R. unfold effects. destruct b; simpl; [|naive_solver].
  rewrite regs_of_add. destruct (decide (G = F)) as [->|]; [|naive_solver].
  rewrite elem_of_union, elem_of_difference, elem_of_list_to_set. tauto.
Qed.

Lemma add_ref_adds F Regs s : adds_effects F (fun b R => b = false /\ R ∈ Regs) s (add_ref F Regs s).
Proof.
  split; [done|done|]. intros b G R. unfold effects. destruct b; simpl; [naive_solver|].
  rewrite regs_of_add. destruct (decide (G = F)) as [->|]; [|naive_solver].
  rewrite elem_of_union, elem_of_difference, elem_of_list_to_set. tauto.
Qed.

(** A loop that adds. *)
Lemma rfold_adds {B} F (f : ModRefAnalysisResult -> B -> res ModRefAnalysisResult) (D : B -> bool -> RegId -> Prop) l : forall s,
  (forall x s, x ∈ l -> exists s', f s x = Ok s' /\ adds_effects F (D x) s s') ->
  exists s', rfold f l s = Ok s' /\ adds_effects F (fun b R => exists x, x ∈ l /\ D x b R) s s'.
Proof.
  induction l as [|x l IH]; intros s Hf.
  - exists s. split; [done|]. eapply adds_ext; [|apply adds_none]. intros b R. cbv beta. split; [done|].
    by intros (? & ?%not_elem_of_nil & _).
  - destruct (Hf x s (list_elem_of_here _ _)) as (s1 & E1 & A1).
    destruct (IH s1) as (s2 & E2 & A2); [intros y t Hy; apply Hf; by apply list_elem_of_further|].
    exists s2. cbn [rfold]. rewrite E1. split; [exact E2|]. eapply adds_ext; [|eapply adds_trans; eassumption].
    intros b R. cbv beta. setoid_rewrite elem_of_cons. naive_solver.
Qed.

Lemma regions_of_spec v : is_Some (pointees v) ->
  exists Regs, regions_of Regions v = Ok Regs /\ forall R, R ∈ Regs <-> may_point v R.
Proof.
  intros [P HP]. unfold regions_of, may_point. rewrite HP. eexists. split; [reflexivity|]. intros R.
  rewrite (elem_of_getValuesRegion Regions P [] R Hfiled). split.
  - intros [?%not_elem_of_nil|?]; [done|eauto].
  - intros (P' & [= <-] & ?). by right.
Qed.

Lemma visit_sync_adds F Callee s :
  adds_effects F (fun b R => b = true /\ sync_writes F Callee R) s (visit_sync cfg opts M Regions F Callee s).
Proof.
  assert (forall C Coll, Collectives.find cfg opts (fname M C) = Some Coll ->
    forall (P1 P2 : bool) L1 L2,
    adds_effects F (fun b R => b = true /\ (P1 = true /\ R ∈ L1 \/ P2 = true /\ R ∈ L2)) s
      (let s1 := if P1 then add_mod F L1 s else s in if P2 then add_mod F L2 s1 else s1)) as Hboth.
  { intros C Coll _ P1 P2 L1 L2. set (s1 := if P1 then add_mod F L1 s else s).
    assert (adds_effects F (fun b R => b = true /\ P1 = true /\ R ∈ L1) s s1) as A1.
    { unfold s1. destruct P1; [eapply adds_ext; [|apply add_mod_adds]; naive_solver|].
      eapply adds_ext; [|apply adds_none]. naive_solver. }
    cbv zeta. destruct P2.
    - eapply adds_ext; [|eapply adds_trans; [exact A1|apply add_mod_adds]]. intros b R. cbv beta. tauto.
    - eapply adds_ext; [|exact A1]. intros b R. cbv beta. naive_solver. }
  unfold visit_sync, sync_writes. destruct Callee as [C|]; [|eapply adds_ext; [|apply adds_none]; naive_solver].
  destruct (Collectives.find cfg opts (fname M C)) as [Coll|] eqn:EC.
  - eapply adds_ext; [|apply (Hboth C Coll EC)]. intros b R. cbv beta.
    rewrite !andb_true_iff, !bool_decide_eq_true, !elem_of_in_order. split; [naive_solver|].
    intros (-> & C' & Coll' & [= <-] & HC & H). rewrite EC in HC. injection HC as <-. unfold regs_of in H. tauto.
  - eapply adds_ext; [|apply adds_none]. intros b R. cbv beta. split; [done|]. intros (_ & C' & Coll' & [= <-] & HC & _). congruence.
Qed.

Lemma visit_arg_adds F exts i Arg s : exts <> [] -> (passes Arg -> is_Some (pointees (opId Arg)) /\
    forall C Info, C ∈ exts -> getExtModInfo (fname M C) = Some Info -> exists m, arg_is_mod Info i (varArg M C) = Ok m) ->
  exists s', visit_arg M Regions F exts s (i, Arg) = Ok s' /\
    adds_effects F (fun b R => passes Arg /\ may_point (opId Arg) R /\
      (b = false \/ b = true /\ exists C, C ∈ exts /\ modifies_arg C i)) s s'.
Proof.
  intros Hne Hk. unfold visit_arg. destruct (negb (opIsPointer Arg) || opIsIntToPtr Arg) eqn:E.
  { exists s. split; [done|]. eapply adds_ext; [|apply adds_none]. intros b R. cbv beta. split; [done|]. intros ([H1 H2] & _).
    rewrite H1, H2 in E. done. }
  apply orb_false_iff in E as [E1%negb_false_iff E2]. assert (passes Arg) as Hp by done.
  destruct (Hk Hp) as [Hpts Hmod]. destruct (regions_of_spec _ Hpts) as (Regs & -> & HR). cbn [rbind].
  destruct (rfold_adds F (fun s C => visit_modified M F C i Regs s)
    (fun C b R => b = true /\ modifies_arg C i /\ R ∈ Regs) exts (add_ref F Regs s)) as (s' & E' & A').
  { intros C t HC. pose proof (fun Info => Hmod C Info HC) as Hm. revert Hm. clear. unfold visit_modified, modifies_arg.
    destruct (getExtModInfo (fname M C)) as [Info|]; intros Hm.
    - destruct (Hm Info eq_refl) as [[] Em]; rewrite Em; eexists; (split; [reflexivity|]).
      + eapply adds_ext; [|apply add_mod_adds]. intros b R. cbv beta. split; [intros [-> H]; split; eauto|].
        by intros (-> & _ & H).
      + eapply adds_ext; [|apply adds_none]. intros b R. cbv beta. split; [intros []|].
        intros (_ & (I' & [= <-] & Et) & _). rewrite Em in Et. discriminate Et.
    - exists t. split; [done|]. eapply adds_ext; [|apply adds_none]. intros b R. cbv beta. split; [intros []|].
      by intros (_ & (? & [=] & _) & _). }
  exists s'. split; [done|]. eapply adds_ext; [|eapply adds_trans; [apply add_ref_adds|exact A']].
  intros b R. cbv beta. setoid_rewrite HR. clear -Hp. split.
  - intros [[-> H]|(C & HC & -> & Hm & H)]; (split; [done|]; split; [done|]); [by left|right; eauto].
  - intros (_ & H & [->|(-> & C & HC & Hm)]); [by left|right; exists C; done].
Qed.

Lemma visit_return_adds F CI C s : (returnsPointer M C = true -> is_Some (pointees CI)) ->
  exists s', visit_return M Regions F CI s C = Ok s' /\
    adds_effects F (fun b R => returnsPointer M C = true /\ may_point CI R /\
      (b = false \/ b = true /\ exists Info, getExtModInfo (fname M C) = Some Info /\ RetIsMod Info = true)) s s'.
Proof.
  intros Hk. unfold visit_return. destruct (returnsPointer M C); simpl.
  2: { exists s. split; [done|]. eapply adds_ext; [|apply adds_none]. naive_solver. }
  destruct (regions_of_spec _ (Hk eq_refl)) as (Regs & -> & HR). cbn [rbind].
  destruct (getExtModInfo (fname M C)) as [Info|]; [destruct (RetIsMod Info) eqn:ER|]; eexists; (split; [reflexivity|]).
  - eapply adds_ext; [|eapply adds_trans; [apply add_ref_adds|apply add_mod_adds]]. intros b R. cbv beta. rewrite HR. clear -ER. naive_solver.
  - eapply adds_ext; [|apply add_ref_adds]. intros b R. cbv beta. rewrite HR. clear -ER. naive_solver.
  - eapply adds_ext; [|apply add_ref_adds]. intros b R. cbv beta. rewrite HR. clear. naive_solver.
Qed.

Lemma visitCallBase_adds F CI Callee args isDbg rp s : inst_known (CallI CI Callee args isDbg rp) ->
  exists s', visitCallBase cfg opts M CG Regions F CI Callee args s = Ok s' /\
    adds_effects F (fun b R => inst_effect b F (CallI CI Callee args isDbg rp) R) s s'.
Proof.
  intros Hk. unfold visitCallBase. pose proof (visit_sync_adds F Callee s) as A0.
  set (s0 := visit_sync cfg opts M Regions F Callee s) in *. simpl in Hk.
  set (exts := call_externals M CG CI Callee) in *. case_bool_decide as He.
  { exists s0. split; [done|]. eapply adds_ext; [|exact A0]. intros b R. cbv beta. unfold inst_effect, inst_writes, inst_reads.
    fold exts. rewrite He. destruct b; split.
    - intros [_ H]. by left.
    - intros [H|(C & HC & _)]; [done|by apply not_elem_of_nil in HC].
    - by intros [? _].
    - intros (C & HC & _). by apply not_elem_of_nil in HC. }
  assert (exists C0, C0 ∈ exts) as [C0 HC0] by (destruct exts as [|C0 ?]; [done|exists C0; apply list_elem_of_here]).
  destruct (rfold_adds F (visit_arg M Regions F exts)
    (fun p b R => passes p.2 /\ may_point (opId p.2) R /\ (b = false \/ b = true /\ exists C, C ∈ exts /\ modifies_arg C p.1))
    (imap pair args) s0) as (s1 & E1 & A1).
  { intros [i a] t Hp. apply elem_of_lookup_imap in Hp as (j & y & [= <- <-] & Hy).
    apply visit_arg_adds; [done|]. intros Hpass. split; [by apply (proj2 (Hk C0 HC0) i a Hy)|].
    intros C Info HC. by apply (proj2 (Hk C HC) i a Hy Hpass). }
  destruct (rfold_adds F (visit_return M Regions F CI) (fun C b R => returnsPointer M C = true /\ may_point CI R /\
    (b = false \/ b = true /\ exists Info, getExtModInfo (fname M C) = Some Info /\ RetIsMod Info = true)) exts s1) as (s2 & E2 & A2).
  { intros C t HC. apply visit_return_adds, (Hk C HC). }
  exists s2. rewrite E1. split; [exact E2|]. eapply adds_ext; [|eapply adds_trans; [exact A0|eapply adds_trans; [exact A1|exact A2]]].
  assert (forall p : nat * Operand, p ∈ imap pair args <-> args !! p.1 = Some p.2) as Himap.
  { intros [i a]. rewrite elem_of_lookup_imap. simpl. split; [by intros (j & y & [= <- <-] & ?)|eauto]. }
  intros b R. cbv beta. unfold inst_effect, inst_writes, inst_reads. fold exts. clear A0 A1 A2 E1 E2 Hk. destruct b; split.
  - intros [[_ ?]|[([i a] & Hp & Hpass & Hm & [?|(_ & C & HC & HM)])|(C & HC & Hr & Hm & [?|(_ & HI)])]]; [by left|done| |done|].
    + right. exists C. split; [done|]. left. exists i, a. split; [by apply Himap in Hp|done].
    + right. exists C. split; [done|]. by right.
  - intros [?|(C & HC & [(i & a & Ha & Hpass & HM & Hm)|(Hr & HI & Hm)])]; [by left|right; left|right; right].
    + exists (i, a). split; [by apply Himap|]. split; [done|]. split; [done|]. right. eauto.
    + exists C. split; [done|]. split; [done|]. split; [done|]. by right.
  - intros [[? _]|[([i a] & Hp & Hpass & Hm & _)|(C & HC & Hr & Hm & _)]]; [done| |].
    + exists C0. split; [done|]. left. exists a. split; [|done]. apply Himap in Hp. by eapply list_elem_of_lookup_2.
    + exists C. split; [done|]. by right.
  - intros (C & HC & [(a & Ha & Hpass & Hm)|(Hr & Hm)]); right; [left|right].
    + apply list_elem_of_lookup in Ha as [i Hi]. exists (i, a). split; [by apply Himap|]. split; [done|]. split; [done|]. by left.
    + exists C. split; [done|]. split; [done|]. split; [done|]. by left.
Qed.

(** What a step of [F] leaves: its effects and its locals grow, the rest stays. *)
Record does (F : FuncId) (D : bool -> RegId -> Prop) (L : RegId -> Prop) (s s' : ModRefAnalysisResult) : Prop := {
  do_kill : funcKillMap s' = funcKillMap s;
  do_global : globalKillSet s' = globalKillSet s;
  do_effects : forall b G R, R ∈ effects b s' G <-> R ∈ effects b s G \/ G = F /\ D b R /\ (R ∉ globalKillSet s);
  do_local : forall G R, R ∈ regs_of (funcLocalMap s') G <-> R ∈ regs_of (funcLocalMap s) G \/ G = F /\ L R
}.

Lemma adds_does F D s s' : adds_effects F D s s' -> does F D (fun _ => False) s s'.
Proof. intros [L [K G] E]. split; [done|done|done|]. intros G' R. rewrite L. tauto. Qed.

Lemma visit_inst_does F I s : inst_known I ->
  exists s', visit_inst cfg opts M CG Regions F s I = Ok s' /\ does F (fun b R => inst_effect b F I R) (inst_local I) s s'.
Proof.
  intros Hk. assert (forall s', adds_effects F (fun b R => inst_effect b F I R) s s' -> inst_local I = (fun _ => False) ->
    does F (fun b R => inst_effect b F I R) (inst_local I) s s') as Had by (intros s' HA ->; by apply adds_does).
  destruct I as [id|id p|id v p|id Callee args d rp|id l|id l|id| |];
    try (exists s; split; [reflexivity|]; apply Had; [|reflexivity];
         eapply adds_ext; [|apply adds_none]; intros [] R; cbv beta; simpl; tauto).
  - simpl in Hk. unfold visit_inst, getValueRegion. destruct Hk as [e He]. rewrite He, (Hfiled id e He). simpl.
    eexists. split; [reflexivity|]. split; [done|done| |].
    + intros [] G R; simpl; tauto.
    + intros G R. simpl. rewrite regs_of_add. destruct (decide (G = F)) as [->|Hne]; [|tauto]. set_solver.
  - destruct (regions_of_spec p Hk) as (Regs & E & HR). unfold visit_inst. rewrite E. eexists. split; [reflexivity|].
    apply Had; [|done]. eapply adds_ext; [|apply add_ref_adds]. intros b R. cbv beta. rewrite HR. destruct b; simpl; intuition discriminate.
  - destruct (regions_of_spec p Hk) as (Regs & E & HR). unfold visit_inst. rewrite E. eexists. split; [reflexivity|].
    apply Had; [|done]. eapply adds_ext; [|apply add_mod_adds]. intros b R. cbv beta. rewrite HR. destruct b; simpl; intuition discriminate.
  - destruct (visitCallBase_adds F id Callee args d rp s Hk) as (s' & E & A). exists s'. split; [exact E|]. by apply Had.
Qed.

Lemma does_all F Is : forall s, (forall I, I ∈ Is -> inst_known I) ->
  exists s', rfold (visit_inst cfg opts M CG Regions F) Is s = Ok s' /\
    does F (fun b R => exists I, I ∈ Is /\ inst_effect b F I R) (fun R => exists I, I ∈ Is /\ inst_local I R) s s'.
Proof.
  induction Is as [|I Is IH]; intros s Hk.
  - exists s. split; [done|]. split; [done|done|..]; intros; set_solver.
  - destruct (visit_inst_does F I s) as (s1 & E1 & [K1 G1 D1 L1]); [apply Hk, list_elem_of_here|].
    destruct (IH s1) as (s2 & E2 & [K2 G2 D2 L2]); [intros J HJ; apply Hk; by apply list_elem_of_further|].
    exists s2. cbn [rfold]. rewrite E1. split; [exact E2|]. split; [congruence|congruence|..].
    + intros b G R. rewrite D2, D1, G1. setoid_rewrite elem_of_cons. naive_solver.
    + intros G R. rewrite L2, L1. setoid_rewrite elem_of_cons. naive_solver.
Qed.

(** The regions are those of the tables. *)
Definition some_region (R : RegId) : Prop :=
  is_Some (valueToRegMap Regions !! R) \/ (exists F, R ∈ regs_of (func2SharedOmpRegs Regions) F) \/
  R ∈ sharedCudaRegions Regions.

Lemma may_point_region v R : may_point v R -> some_region R.
Proof. intros (P & _ & _ & H). by left. Qed.

Lemma inst_effect_region b F I R : inst_effect b F I R -> some_region R.
Proof.
  destruct b, I; cbn -[getExtModInfo]; try done; try apply may_point_region.
  - intros [(C & Coll & _ & _ & [(_ & _ & _ & H)|(_ & _ & _ & H)])|(C & _ & [(i & a & _ & _ & _ & H)|(_ & _ & H)])].
    + by right; right.
    + right; left. eauto.
    + by eapply may_point_region.
    + by eapply may_point_region.
  - intros (C & _ & [(a & _ & _ & H)|(_ & H)]); by eapply may_point_region.
Qed.

(** ** The whole module *)

(** A reachable function with an instruction that has the effect. *)
Definition direct_effect (gk : gset RegId) (Fs : list FuncId) (b : bool) (F : FuncId) (R : RegId) : Prop :=
  F ∈ Fs /\ isReachableFromEntry CG F = true /\ (R ∉ gk) /\ exists bb I, (bb, I) ∈ minsts M F /\ inst_effect b F I R.

Definition local_region (Fs : list FuncId) (F : FuncId) (R : RegId) : Prop :=
  F ∈ Fs /\ isReachableFromEntry CG F = true /\ exists bb I, (bb, I) ∈ minsts M F /\ inst_local I R.

Lemma visit_functions_spec Fs : forall s,
  (forall F bb I, F ∈ Fs -> isReachableFromEntry CG F = true -> (bb, I) ∈ minsts M F -> inst_known I) ->
  exists s', rfold (visit_function cfg opts M CG Regions) Fs s = Ok s' /\
    funcKillMap s' = funcKillMap s /\ globalKillSet s' = globalKillSet s /\
    (forall b F R, R ∈ effects b s' F <-> R ∈ effects b s F \/ direct_effect (globalKillSet s) Fs b F R) /\
    (forall F R, R ∈ regs_of (funcLocalMap s') F <-> R ∈ regs_of (funcLocalMap s) F \/ local_region Fs F R).
Proof.
  induction Fs as [|F Fs IH]; intros s Hk.
  - exists s. unfold direct_effect, local_region. split; [done|]. split; [done|]. split; [done|]. split; intros; set_solver.
  - assert (forall G bb I, G ∈ Fs -> isReachableFromEntry CG G = true -> (bb, I) ∈ minsts M G -> inst_known I) as Hk'.
    { intros G bb I HG. apply Hk. by apply list_elem_of_further. }
    cbn [rfold]. unfold visit_function at 1. destruct (isReachableFromEntry CG F) eqn:ER.
    + destruct (does_all F (minsts M F).*2 s) as (s1 & -> & [K1 G1 D1 L1]).
      { intros I ([bb J] & -> & HI)%list_elem_of_fmap. by apply (Hk F bb J); [apply list_elem_of_here| |]. }
      destruct (IH s1 Hk') as (s2 & E2 & K2 & G2 & D2 & L2). exists s2. split; [exact E2|].
      split; [congruence|]. split; [congruence|].
      assert (forall P : MInst -> Prop, (exists I, I ∈ (minsts M F).*2 /\ P I) <-> exists bb I, (bb, I) ∈ minsts M F /\ P I) as Hex.
      { intros P. split; [intros (I & ([bb J] & -> & ?)%list_elem_of_fmap & ?); eauto|].
        intros (bb & I & HI & HP). exists I. split; [|done]. apply list_elem_of_fmap. by exists (bb, I). }
      split; [intros b G R; rewrite D2, D1, G1, Hex|intros G R; rewrite L2, L1, Hex];
        unfold direct_effect, local_region; rewrite elem_of_cons; clear -ER; naive_solver.
    + destruct (IH s Hk') as (s2 & E2 & K2 & G2 & D2 & L2). exists s2. split; [exact E2|]. split; [done|]. split; [done|].
      split; [intros b G R; rewrite D2|intros G R; rewrite L2];
        unfold direct_effect, local_region; rewrite elem_of_cons; clear -ER; intuition (subst; congruence).
Qed.

(** The regions allocated in functions the entry does not reach. *)
Definition unreachable_regions : gset RegId := list_to_set (omap (unreachable_site M CG Regions) allocationSites).

Local Abbreviation direct := (direct_effect unreachable_regions (functions (base M))).
Local Abbreviation local := (local_region (functions (base M))).

(** C12 (modref). Where the pointer analysis knows the pointers of the reachable
    functions, and the components of the call graph come callees first, the
    analysis returns, and what it answers for a function is exactly what it and
    the functions it calls do to regions of reachable functions, directly or not --
    less, at each call on the way, the regions of the locals of callees outside the
    component of the caller. *)
Theorem mod_ref_spec fuel sccs (U : gset RegId) :
  (forall F bb I, F ∈ functions (base M) -> isReachableFromEntry CG F = true -> (bb, I) ∈ minsts M F -> inst_known I) ->
  callees_first CG sccs -> NoDup (concat sccs) ->
  (forall R, some_region R -> R ∈ U) ->
  (forall vec, vec ∈ sccs -> 2 * length vec * size U < fuel) ->
  exists s, analyze cfg opts M CG Regions fuel sccs = Ok s /\
    forall F R, F ∈ concat sccs ->
      (R ∈ getFuncMod s F <-> effect CG sccs direct local true F R) /\
      (R ∈ getFuncRef s F <-> effect CG sccs direct local false F R) /\
      (R ∈ getFuncKill s F <-> killed CG sccs local F R).
Proof.
  intros Hk Hord Hnd HU Hf. unfold analyze. fold unreachable_regions.
  set (s0 := {| funcModMap := ∅; funcRefMap := ∅; funcLocalMap := ∅; funcKillMap := ∅; globalKillSet := unreachable_regions |}).
  destruct (visit_functions_spec (functions (base M)) s0 Hk) as (s1 & -> & K1 & _ & D1 & L1). cbn [rbind].
  assert (forall b F R, R ∉ effects b s0 F) as Hempty by (intros [] F R; unfold effects, regs_of; simpl; rewrite lookup_empty; simpl; set_solver).
  destruct (visit_sccs_spec CG sccs direct local U) with (fuel := fuel) (rest := sccs) (done := @nil (list FuncId)) (s := s1)
    as (s & E & Hs); [|done|done|done|done| |].
  - intros b F R (_ & _ & _ & bb & I & _ & HI). by eapply HU, inst_effect_region.
  - split; [|by intros F ?%not_elem_of_nil|].
    + intros F R. rewrite L1. unfold regs_of. simpl. rewrite lookup_empty. simpl. set_solver.
    + intros F _. split; [intros R; rewrite K1; unfold regs_of; simpl; rewrite lookup_empty; simpl; set_solver|].
      intros b R. rewrite D1. split; [intros [?%Hempty|?]; done|by right].
  - exists s. split; [exact E|]. intros F R HF. destruct (vs_done _ _ _ _ _ _ Hs F HF) as [HK HE].
    split; [apply (HE true)|]. split; [apply (HE false)|apply HK].
Qed.
End Direct.

(** Deciding the order of the components. *)
Fixpoint in_callee_order (CG : PTACallGraph) (seen : list FuncId) (l : list (list FuncId)) : bool :=
  match l with
  | [] => true
  | vec :: rest =>
      forallb (fun F => forallb (fun C => bool_decide (C ∈ vec) || bool_decide (C ∈ seen)) (callee_functions CG F)) vec &&
      in_callee_order CG (seen ++ vec) rest
  end.

Lemma in_callee_order_sound CG sccs : in_callee_order CG [] sccs = true -> callees_first CG sccs.
Proof.
  intros H done vec rest F C -> HF HC. change (concat done) with ([] ++ concat done).
  revert H. generalize (@nil FuncId) as seen. induction done as [|d done IH]; intros seen; simpl; rewrite andb_true_iff; intros [H1 H2].
  - rewrite forallb_forall in H1. specialize (H1 F (proj1 (list_elem_of_In _ _) HF)). rewrite forallb_forall in H1.
    specialize (H1 C (proj1 (list_elem_of_In _ _) HC)). apply orb_true_iff in H1 as [H1%bool_decide_eq_true|H1%bool_decide_eq_true]; [by left|].
    right. apply elem_of_app. by left.
  - rewrite app_assoc. by apply IH.
Qed.

(** * An example: [main] passes its local to [f], which writes it and a local of
    its own, and calls [g], which reads it. *)
Definition nested_calls : MModule := {|
  base := mk_module [(0, mk_func "main" [0]); (1, mk_func "f" [1]); (2, mk_func "g" [2])]
    [(0, mk_block "%entry" [] [] []); (1, mk_block "%entry" [] [] []); (2, mk_block "%entry" [] [] [])];
  code := fun b => if N.eqb b 0 then [AllocaI 20; CallI 30 (Some 1) [pointer 20] false false; ReturnI 31]
    else if N.eqb b 1 then [AllocaI 21; StoreI 32 60 40; StoreI 33 60 21; CallI 34 (Some 2) [pointer 40] false false; ReturnI 35]
    else [LoadI 36 41; ReturnI 37];
  formals := fun F => if N.eqb F 0 then [] else [(39 + F, true)];
  varArg := fun _ => false; returnsPointer := fun _ => false; returnsVoid := fun _ => true;
  instFunction := fun V => if N.eqb V 20 then Some 0 else if N.eqb V 21 then Some 1 else None |}%N.

Definition nested_graph : PTACallGraph := {|
  FunctionMap := {[ Some 0 := [(Some 30, FnNode (Some 1))]; Some 1 := [(Some 34, FnNode (Some 2))]; Some 2 := [];
                    None := [(None, FnNode (Some 0))] ]};
  Root := Some (Some 0); ProgEntry := Some (Some 0); reachableFunctions := {[ 0; 1; 2 ]}; indirectCallMap := ∅ |}%N.

Definition nested_pointers : PointerAnalysis := {|
  pointees := fun v => if bool_decide (v ∈ [20; 40; 41]) then Some [20] else if N.eqb v 21 then Some [21] else None;
  allocationSites := [20; 21] |}%N.

Definition nested_regions : MemReg := @MemReg_init omp_build omp_options (fun _ => false) nested_pointers 0 ∅.

Lemma nested_filed : filed nested_regions.
Proof. apply (@createRegions_spec omp_build omp_options (fun _ => false) [20; 21]%N). intros V e H. simpl in H. by rewrite lookup_empty in H. Qed.

Lemma mod_ref_witness : exists s,
  @analyze omp_build omp_options nested_calls nested_graph nested_regions nested_pointers 9 [[2]; [1]; [0]]%N = Ok s /\
  20%N ∈ getFuncMod s 0%N /\ 21%N ∈ getFuncMod s 1%N /\
  killed nested_graph [[2]; [1]; [0]]%N (local_region nested_calls nested_graph (functions (base nested_calls))) 0%N 21%N /\
  (21%N ∉ getFuncMod s 0%N).
Proof.
  destruct (@mod_ref_spec omp_build omp_options nested_calls nested_graph nested_regions nested_pointers nested_filed
    9 [[2]; [1]; [0]]%N {[ 20; 21 ]}%N) as (s & E & Hs).
  - assert (forall id Callee args d rp, call_externals nested_calls nested_graph id Callee = [] ->
      @inst_known nested_calls nested_graph nested_regions nested_pointers (CallI id Callee args d rp)) as Hcall.
    { intros id Callee args d rp Hno C HC. rewrite Hno in HC. by apply not_elem_of_nil in HC. }
    intros F bb I HF _ HI. simpl in HF. enum HF; apply list_elem_of_In in HI; vm_compute in HI;
      repeat (destruct HI as [HI|HI]; [injection HI as <- <-; first [exact Logic.I | apply Hcall; reflexivity | eexists; reflexivity]|]); destruct HI.
  - apply in_callee_order_sound. vm_compute. reflexivity.
  - apply (bool_decide_unpack _). vm_compute. exact Logic.I.
  - assert (forall V, is_Some (valueToRegMap nested_regions !! V) -> V ∈ ({[ 20; 21 ]} : gset N)%N) as H1.
    { intros V HV. apply (@createRegions_spec omp_build omp_options (fun _ => false) [20; 21]%N) in HV as [HV|[e H]].
      - enum HV; apply (bool_decide_unpack _); vm_compute; exact Logic.I.
      - simpl in H. by rewrite lookup_empty in H.
      - intros W e0 HW. simpl in HW. by rewrite lookup_empty in HW. }
    intros R [HR|[[F HR]|HR]]; [by apply H1|..].
    + exfalso. revert HR. unfold regs_of. vm_compute. discriminate.
    + exfalso. revert HR. vm_compute. discriminate.
  - intros vec Hv. enum Hv; vm_compute; lia.
  - exists s. split; [exact E|].
    assert (21%N ∈ getFuncKill s 0%N -> killed nested_graph [[2]; [1]; [0]]%N
      (local_region nested_calls nested_graph (functions (base nested_calls))) 0%N 21%N) as Hkill by (apply Hs; in_list).
    clear Hs. revert Hkill. vm_compute in E. injection E as <-. intros Hkill.
    repeat split; try (apply (bool_decide_unpack _); vm_compute; exact Logic.I).
    apply Hkill, (bool_decide_unpack _). vm_compute. exact Logic.I.
Defined.
