(* ===== verification/DepGraph.v ===== *)
(** The dependency graph (DepGraphDCF.cpp, DepGraphDCF.h): its eight tables of
    edges between LLVM values and variables of the memory SSA, and the
    elimination of the phi nodes whose operands are equivalent. *)
From S2P Require Import Prelude IR.

(** Pointers to variables of the memory SSA. *)
Abbreviation VarId := N.

(** * Nodes and edges *)

(** The two kinds of nodes; the overloads of [addEdge] and [removeEdge] are one
    function on them. *)
Inductive Node := LV (v : ValueId) | SV (x : VarId).

#[export] Instance Node_eq_dec : EqDecision Node.
Proof. solve_decision. Defined.

#[export] Instance Node_countable : Countable Node.
Proof.
  refine (inj_countable' (fun n => match n with LV v => inl v | SV x => inr x end)
    (fun s => match s with inl v => LV v | inr x => SV x end) _).
  by intros [].
Defined.

Abbreviation Table := (gmap N (gset N)).

Record Graph := {
  llvmToLLVMChildren : Table;
  llvmToLLVMParents : Table;
  llvmToSSAChildren : Table;
  llvmToSSAParents : Table;
  ssaToLLVMChildren : Table;
  ssaToLLVMParents : Table;
  ssaToSSAChildren : Table;
  ssaToSSAParents : Table
}.

Definition empty_graph : Graph := {|
  llvmToLLVMChildren := ∅; llvmToLLVMParents := ∅; llvmToSSAChildren := ∅; llvmToSSAParents := ∅;
  ssaToLLVMChildren := ∅; ssaToLLVMParents := ∅; ssaToSSAChildren := ∅; ssaToSSAParents := ∅ |}.

(** [T[k]], read; writing through it makes the entry. *)
Definition at_key (T : Table) (k : N) : gset N := default ∅ (T !! k).
Definition insert_at (k x : N) (T : Table) : Table := <[k := {[ x ]} ∪ at_key T k]> T.

(** [T[k].erase(x)], which must erase one element. *)
Definition erase_at (k x : N) (T : Table) : res Table :=
  let* _ := guard (bool_decide (x ∈ at_key T k)) in Ok (<[k := at_key T k ∖ {[ x ]}]> T).

(** The tables of the edges from nodes of one kind to nodes of another. *)
Definition with_ll (C P : Table) (g : Graph) : Graph :=
  {| llvmToLLVMChildren := C; llvmToLLVMParents := P;
     llvmToSSAChildren := llvmToSSAChildren g; llvmToSSAParents := llvmToSSAParents g;
     ssaToLLVMChildren := ssaToLLVMChildren g; ssaToLLVMParents := ssaToLLVMParents g;
     ssaToSSAChildren := ssaToSSAChildren g; ssaToSSAParents := ssaToSSAParents g |}.
Definition with_ls (C P : Table) (g : Graph) : Graph :=
  {| llvmToLLVMChildren := llvmToLLVMChildren g; llvmToLLVMParents := llvmToLLVMParents g;
     llvmToSSAChildren := C; llvmToSSAParents := llvmToSSAParents g;
     ssaToLLVMChildren := ssaToLLVMChildren g; ssaToLLVMParents := P;
     ssaToSSAChildren := ssaToSSAChildren g; ssaToSSAParents := ssaToSSAParents g |}.
Definition with_sl (C P : Table) (g : Graph) : Graph :=
  {| llvmToLLVMChildren := llvmToLLVMChildren g; llvmToLLVMParents := llvmToLLVMParents g;
     llvmToSSAChildren := llvmToSSAChildren g; llvmToSSAParents := P;
     ssaToLLVMChildren := C; ssaToLLVMParents := ssaToLLVMParents g;
     ssaToSSAChildren := ssaToSSAChildren g; ssaToSSAParents := ssaToSSAParents g |}.
Definition with_ss (C P : Table) (g : Graph) : Graph :=
  {| llvmToLLVMChildren := llvmToLLVMChildren g; llvmToLLVMParents := llvmToLLVMParents g;
     llvmToSSAChildren := llvmToSSAChildren g; llvmToSSAParents := llvmToSSAParents g;
     ssaToLLVMChildren := ssaToLLVMChildren g; ssaToLLVMParents := ssaToLLVMParents g;
     ssaToSSAChildren := C; ssaToSSAParents := P |}.

Definition addEdge (S D : Node) (g : Graph) : Graph :=
  match S, D with
  | LV s, LV d => with_ll (insert_at s d (llvmToLLVMChildren g)) (insert_at d s (llvmToLLVMParents g)) g
  | LV s, SV d => with_ls (insert_at s d (llvmToSSAChildren g)) (insert_at d s (ssaToLLVMParents g)) g
  | SV s, LV d => with_sl (insert_at s d (ssaToLLVMChildren g)) (insert_at d s (llvmToSSAParents g)) g
  | SV s, SV d => with_ss (insert_at s d (ssaToSSAChildren g)) (insert_at d s (ssaToSSAParents g)) g
  end.

Definition removeEdge (S D : Node) (g : Graph) : res Graph :=
  match S, D with
  | LV s, LV d =>
      let* C := erase_at s d (llvmToLLVMChildren g) in
      let* P := erase_at d s (llvmToLLVMParents g) in Ok (with_ll C P g)
  | LV s, SV d =>
      let* C := erase_at s d (llvmToSSAChildren g) in
      let* P := erase_at d s (ssaToLLVMParents g) in Ok (with_ls C P g)
  | SV s, LV d =>
      let* C := erase_at s d (ssaToLLVMChildren g) in
      let* P := erase_at d s (llvmToSSAParents g) in Ok (with_sl C P g)
  | SV s, SV d =>
      let* C := erase_at s d (ssaToSSAChildren g) in
      let* P := erase_at d s (ssaToSSAParents g) in Ok (with_ss C P g)
  end.

Definition removeEdges (es : list (Node * Node)) (g : Graph) : res Graph :=
  rfold (fun g e => removeEdge e.1 e.2 g) es g.

(** * Phi nodes *)

(** A phi of the memory SSA, by the variable it defines: its operands in the
    order of the predecessors, its predicates, and the function of its block. *)
Record MSSAPhi := {
  opsVar : list VarId;
  phiPreds : gset ValueId;
  phiFunction : FuncId
}.

(** What the elimination works on: the graph, the nodes of each function, the
    phis. *)
Record PhiState := {
  graph : Graph;
  funcToSSANodesMap : gmap FuncId (gset VarId);
  phis : gmap VarId MSSAPhi
}.

Definition with_graph (g : Graph) (st : PhiState) : PhiState :=
  {| graph := g; funcToSSANodesMap := funcToSSANodesMap st; phis := phis st |}.
Definition with_phis (p : gmap VarId MSSAPhi) (st : PhiState) : PhiState :=
  {| graph := graph st; funcToSSANodesMap := funcToSSANodesMap st; phis := p |}.
Definition with_nodes (m : gmap FuncId (gset VarId)) (st : PhiState) : PhiState :=
  {| graph := graph st; funcToSSANodesMap := m; phis := phis st |}.

Definition is_phi (st : PhiState) (x : VarId) : bool := bool_decide (is_Some (phis st !! x)).

(** One of the four tests of [areSSANodesEquivalent]: both have an entry or none
    has, of the same size, and the first is included in the second. *)
Definition same_at (T : Table) (x y : VarId) : bool :=
  match T !! x, T !! y with
  | Some X, Some Y => (size X =? size Y)%nat && forallb (fun v => bool_decide (v ∈ Y)) (elements X)
  | None, None => true
  | _, _ => false
  end.

Definition areSSANodesEquivalent (st : PhiState) (Var1 Var2 : VarId) : bool :=
  if is_phi st Var1 || is_phi st Var2 then false
  else
    let g := graph st in
    same_at (ssaToSSAChildren g) Var1 Var2 && same_at (ssaToLLVMChildren g) Var1 Var2 &&
    same_at (ssaToSSAParents g) Var1 Var2 && same_at (ssaToLLVMParents g) Var1 Var2.

(** The phi [OutPhi] gets [new] instead of [old], once. *)
Fixpoint replace_first (old new : VarId) (l : list VarId) : list VarId :=
  match l with
  | [] => []
  | x :: r => if bool_decide (x = old) then new :: r else x :: replace_first old new r
  end.

Definition replace_operand (old new : VarId) (V : VarId) (p : gmap VarId MSSAPhi) : gmap VarId MSSAPhi :=
  match p !! V with
  | Some OutPhi =>
      <[V := {| opsVar := replace_first old new (opsVar OutPhi); phiPreds := phiPreds OutPhi;
                phiFunction := phiFunction OutPhi |}]> p
  | None => p
  end.

(** The outgoing edges of the phi go to [Op]. *)
Definition redirect (Phi Op : VarId) (cs : list Node) (g : Graph) : res Graph :=
  let g1 := fold_left (fun g c => addEdge (SV Op) c g) cs g in
  removeEdges ((fun c => (SV Phi, c)) <$> cs) g1.

Definition ssa_children (g : Graph) (x : VarId) : list Node := SV <$> elements (at_key (ssaToSSAChildren g) x).
Definition llvm_children (g : Graph) (x : VarId) : list Node := LV <$> elements (at_key (ssaToLLVMChildren g) x).
Definition ssa_parents (g : Graph) (x : VarId) : list Node := SV <$> elements (at_key (ssaToSSAParents g) x).
Definition llvm_parents (g : Graph) (x : VarId) : list Node := LV <$> elements (at_key (ssaToLLVMParents g) x).

(** The edges of the operands that go. *)
Definition edges_ssa (g : Graph) (x : VarId) : list (Node * Node) :=
  ((fun v => (v, SV x)) <$> ssa_parents g x) ++ ((fun v => (SV x, v)) <$> ssa_children g x).
Definition edges_to_llvm (g : Graph) (x : VarId) : list (Node * Node) := (fun v => (SV x, v)) <$> llvm_children g x.
Definition edges_from_llvm (g : Graph) (x : VarId) : list (Node * Node) := (fun v => (v, SV x)) <$> llvm_parents g x.

(** [funcToSSANodesMap[F].erase(x)], asserted to be there. *)
Definition erase_node (F : FuncId) (x : VarId) (st : PhiState) : res PhiState :=
  let* m := erase_at F x (funcToSSANodesMap st) in Ok (with_nodes m st).

(** [eliminatePhi]. *)
Definition eliminatePhi (PhiVar : VarId) (Phi : MSSAPhi) (Ops0 : list VarId) (st : PhiState) : res PhiState :=
  let Ops := in_order (list_to_set Ops0) in
  let* g1 := removeEdges ((fun v => (LV v, SV PhiVar)) <$> elements (phiPreds Phi)) (graph st) in
  let* g2 := removeEdges ((fun o => (SV o, SV PhiVar)) <$> Ops) g1 in
  match Ops with
  | [] => Broken
  | Op0 :: Others =>
      let outs := elements (at_key (ssaToSSAChildren g2) PhiVar) in
      let st1 := with_phis (fold_left (fun p V => replace_operand PhiVar Op0 V p) outs (phis st)) st in
      let* g3 := redirect PhiVar Op0 (ssa_children g2 PhiVar) g2 in
      let* g4 := redirect PhiVar Op0 (llvm_children g3 PhiVar) g3 in
      let F := phiFunction Phi in
      let* st2 := erase_node F PhiVar st1 in
      let* g5 := removeEdges (Others ≫= edges_ssa g4) g4 in
      let* g6 := removeEdges (Others ≫= edges_to_llvm g4) g5 in
      let* g7 := removeEdges (Others ≫= edges_from_llvm g4) g6 in
      rfold (fun st x => erase_node F x st) Others (with_graph g7 st2)
  end.

(** Whether every operand is equivalent to the next. *)
Fixpoint all_equivalent (st : PhiState) (ops : list VarId) : bool :=
  match ops with
  | x :: (y :: _) as r => areSSANodesEquivalent st x y && all_equivalent st r
  | _ => true
  end.

(** One phi of a block: whether it was eliminated. *)
Definition try_phi (F : FuncId) (acc : bool * PhiState) (PhiVar : VarId) : res (bool * PhiState) :=
  let '(Changed, st) := acc in
  let* nodes := of_option (funcToSSANodesMap st !! F) in
  if negb (bool_decide (PhiVar ∈ nodes)) then Ok (Changed, st)
  else
    let* Phi := of_option (phis st !! PhiVar) in
    let* _ := guard (negb (bool_decide (opsVar Phi = []))) in
    if all_equivalent st (opsVar Phi) then
      let* st' := eliminatePhi PhiVar Phi (opsVar Phi) st in Ok (true, st')
    else Ok (Changed, st).

(** The fixed point of one function, whose phis are [ps]. *)
Fixpoint phi_loop (fuel : nat) (F : FuncId) (ps : list VarId) (st : PhiState) : res PhiState :=
  match fuel with
  | O => OutOfFuel
  | Datatypes.S fuel' =>
      let* r := rfold (try_phi F) ps (false, st) in
      if fst r then phi_loop fuel' F ps r.2 else Ok r.2
  end.

(** [phiElimination]; [bbToPhiMap] gives the phis of each block. *)
Definition phiElimination (fuel : nat) (M : Module_) (bbToPhiMap : BlockId -> list VarId) (st : PhiState) : res PhiState :=
  rfold (fun st F => phi_loop fuel F (blocks (function M F) ≫= bbToPhiMap) st) (functions M) st.
