(* ===== verification/DepGraphPhi.v ===== *)
(** Phi elimination: what it does to the edges, and why it is right -- the nodes
    that remain are tainted exactly when they were, the predicates of the phi
    left out. *)
From S2P Require Import Prelude IR DepGraph.

(** * Edges *)

(** [b] is recorded as a child of [a], and [a] as a parent of [b]. *)
Definition child (g : Graph) (a b : Node) : Prop :=
  match a, b with
  | LV s, LV d => d ∈ at_key (llvmToLLVMChildren g) s
  | LV s, SV d => d ∈ at_key (llvmToSSAChildren g) s
  | SV s, LV d => d ∈ at_key (ssaToLLVMChildren g) s
  | SV s, SV d => d ∈ at_key (ssaToSSAChildren g) s
  end.

Definition parent (g : Graph) (a b : Node) : Prop :=
  match a, b with
  | LV s, LV d => s ∈ at_key (llvmToLLVMParents g) d
  | LV s, SV d => s ∈ at_key (ssaToLLVMParents g) d
  | SV s, LV d => s ∈ at_key (llvmToSSAParents g) d
  | SV s, SV d => s ∈ at_key (ssaToSSAParents g) d
  end.

(** The graph holds the edges of [R], both ways. *)
Definition represents (g : Graph) (R : Node -> Node -> Prop) : Prop :=
  forall a b, (child g a b <-> R a b) /\ (parent g a b <-> R a b).

Lemma at_key_insert k' X T k : at_key (<[k' := X]> T) k = if decide (k = k') then X else at_key T k.
Proof.
  unfold at_key. case_decide as E; [subst k; by rewrite (lookup_insert_eq T)|by rewrite (lookup_insert_ne T)].
Qed.

Lemma elem_insert_at k x T k' y : y ∈ at_key (insert_at k x T) k' <-> (k' = k /\ y = x) \/ y ∈ at_key T k'.
Proof. unfold insert_at. rewrite at_key_insert. case_decide as E; [subst; set_solver|naive_solver]. Qed.

Lemma erase_at_ok k x T : x ∈ at_key T k ->
  exists T', erase_at k x T = Ok T' /\ forall k' y, y ∈ at_key T' k' <-> y ∈ at_key T k' /\ ~ (k' = k /\ y = x).
Proof.
  intros H. unfold erase_at. rewrite bool_decide_true by done. cbn [guard rbind]. eexists. split; [reflexivity|].
  intros k' y. rewrite at_key_insert. case_decide as E; [subst; set_solver|naive_solver].
Qed.

Lemma represents_empty : represents empty_graph (fun _ _ => False).
Proof.
  assert (forall k x, x ∉ at_key ∅ k) as H by (intros k x; unfold at_key; rewrite (lookup_empty k); set_solver).
  intros [] []; cbn [child parent empty_graph]; split; (split; [by apply H|done]).
Qed.

Lemma represents_ext g R R' : (forall a b, R a b <-> R' a b) -> represents g R -> represents g R'.
Proof. intros H Hg a b. rewrite <- H. apply Hg. Qed.

Lemma addEdge_represents S D g R :
  represents g R -> represents (addEdge S D g) (fun a b => (a = S /\ b = D) \/ R a b).
Proof.
  intros H a b. destruct (H a b) as [H1 H2]. split; [rewrite <- H1|rewrite <- H2]; clear H H1 H2;
  destruct S as [s|s], D as [d|d], a as [a|a], b as [b|b]; cbn [addEdge with_ll with_ls with_sl with_ss child parent
    llvmToLLVMChildren llvmToLLVMParents llvmToSSAChildren llvmToSSAParents ssaToLLVMChildren ssaToLLVMParents
    ssaToSSAChildren ssaToSSAParents]; rewrite ?elem_insert_at; naive_solver.
Qed.

Lemma addEdges_represents es : forall g R, represents g R ->
  represents (fold_left (fun g e => addEdge e.1 e.2 g) es g) (fun a b => (a, b) ∈ es \/ R a b).
Proof.
  induction es as [|[s d] es IH]; intros g R H; cbn [fold_left fst snd].
  - eapply represents_ext; [|exact H]. intros a b. rewrite elem_of_nil. tauto.
  - eapply represents_ext; [|apply IH, addEdge_represents, H]. intros a b. rewrite elem_of_cons.
    split; [naive_solver|]. intros [[[= -> ->]|?]|?]; auto.
Qed.

Lemma removeEdge_represents S D g R :
  represents g R -> R S D ->
  exists g', removeEdge S D g = Ok g' /\ represents g' (fun a b => R a b /\ ~ (a = S /\ b = D)).
Proof.
  intros H HR. destruct (H S D) as [[_ HC] [_ HP]]. specialize (HC HR). specialize (HP HR).
  destruct S as [s|s], D as [d|d]; cbn [child parent removeEdge] in *;
    apply erase_at_ok in HC as (C & -> & HC); apply erase_at_ok in HP as (P & -> & HP); cbn [rbind];
    (eexists; split; [reflexivity|]); intros a b; destruct (H a b) as [H1 H2]; (split; [rewrite <- H1|rewrite <- H2]); clear H H1 H2;
    destruct a as [a|a], b as [b|b]; cbn [with_ll with_ls with_sl with_ss child parent
      llvmToLLVMChildren llvmToLLVMParents llvmToSSAChildren llvmToSSAParents ssaToLLVMChildren ssaToLLVMParents
      ssaToSSAChildren ssaToSSAParents]; rewrite ?HC, ?HP; clear; naive_solver.
Qed.

Lemma removeEdges_represents es : forall g R,
  represents g R -> NoDup es -> (forall a b, (a, b) ∈ es -> R a b) ->
  exists g', removeEdges es g = Ok g' /\ represents g' (fun a b => R a b /\ (a, b) ∉ es).
Proof.
  induction es as [|[s d] es IH]; intros g R H Hn HR.
  - exists g. split; [done|]. eapply represents_ext; [|exact H]. intros a b. rewrite elem_of_nil. tauto.
  - apply NoDup_cons in Hn as [Hnot Hn].
    destruct (removeEdge_represents s d g R H) as (g1 & E1 & H1); [apply HR, list_elem_of_here|].
    destruct (IH g1 _ H1 Hn) as (g' & E' & H').
    { intros a b Hab. split; [apply HR; by apply list_elem_of_further|]. by intros [-> ->]. }
    exists g'. unfold removeEdges in *. cbn [rfold fst snd]. rewrite E1. split; [exact E'|].
    eapply represents_ext; [|exact H']. intros a b. cbv beta. rewrite elem_of_cons.
    split; [intros [[? Hne] ?]; split; [done|]; intros [[= -> ->]|?]; [by apply Hne|done]|].
    intros [? Hni]. split; [split; [done|]|]; [intros [-> ->]; apply Hni; by left|intros ?; apply Hni; by right].
Qed.

(** The nodes of one kind among the children and the parents. *)
Lemma elem_of_ssa_children g R x b : represents g R -> b ∈ ssa_children g x <-> (exists y, b = SV y) /\ R (SV x) b.
Proof.
  intros H. unfold ssa_children. rewrite list_elem_of_fmap. setoid_rewrite elem_of_elements. split.
  - intros (y & -> & Hy). split; [eauto|]. by apply (proj1 (H (SV x) (SV y))).
  - intros [[y ->] Hy]. exists y. split; [done|]. by apply (proj1 (H (SV x) (SV y))) in Hy.
Qed.

Lemma elem_of_llvm_children g R x b : represents g R -> b ∈ llvm_children g x <-> (exists y, b = LV y) /\ R (SV x) b.
Proof.
  intros H. unfold llvm_children. rewrite list_elem_of_fmap. setoid_rewrite elem_of_elements. split.
  - intros (y & -> & Hy). split; [eauto|]. by apply (proj1 (H (SV x) (LV y))).
  - intros [[y ->] Hy]. exists y. split; [done|]. by apply (proj1 (H (SV x) (LV y))) in Hy.
Qed.

Lemma elem_of_ssa_parents g R x a : represents g R -> a ∈ ssa_parents g x <-> (exists y, a = SV y) /\ R a (SV x).
Proof.
  intros H. unfold ssa_parents. rewrite list_elem_of_fmap. setoid_rewrite elem_of_elements. split.
  - intros (y & -> & Hy). split; [eauto|]. by apply (proj2 (H (SV y) (SV x))).
  - intros [[y ->] Hy]. exists y. split; [done|]. by apply (proj2 (H (SV y) (SV x))) in Hy.
Qed.

Lemma elem_of_llvm_parents g R x a : represents g R -> a ∈ llvm_parents g x <-> (exists y, a = LV y) /\ R a (SV x).
Proof.
  intros H. unfold llvm_parents. rewrite list_elem_of_fmap. setoid_rewrite elem_of_elements. split.
  - intros (y & -> & Hy). split; [eauto|]. by apply (proj2 (H (LV y) (SV x))).
  - intros [[y ->] Hy]. exists y. split; [done|]. by apply (proj2 (H (LV y) (SV x))) in Hy.
Qed.

Lemma NoDup_nodes (f : N -> Node) X : Inj (=) (=) f -> NoDup (f <$> elements (X : gset N)).
Proof. intros. apply NoDup_fmap_2; [done|apply NoDup_elements]. Qed.

Instance SV_inj : Inj (=) (=) SV.
Proof. by intros ? ? [=]. Qed.
Instance LV_inj : Inj (=) (=) LV.
Proof. by intros ? ? [=]. Qed.

Lemma redirect_represents Phi Op cs g R :
  Phi <> Op -> represents g R -> NoDup cs -> (forall c, c ∈ cs -> R (SV Phi) c) ->
  exists g', redirect Phi Op cs g = Ok g' /\
    represents g' (fun a b => (R a b \/ (a = SV Op /\ b ∈ cs)) /\ ~ (a = SV Phi /\ b ∈ cs)).
Proof.
  intros Hne H Hn HR. unfold redirect.
  assert (forall g0, fold_left (fun g c => addEdge (SV Op) c g) cs g0 =
    fold_left (fun g e => addEdge e.1 e.2 g) ((fun c => (SV Op, c)) <$> cs) g0) as ->.
  { clear. induction cs as [|c cs IH]; intros g0; [done|]. cbn [fold_left fmap list_fmap fst snd]. apply IH. }
  destruct (removeEdges_represents ((fun c => (SV Phi, c)) <$> cs) _ _
    (addEdges_represents ((fun c => (SV Op, c)) <$> cs) g R H)) as (g' & E & H').
  - apply NoDup_fmap_2; [by intros ? ? [=]|done].
  - intros a b (c & [= -> ->] & Hc)%list_elem_of_fmap. right. by apply HR.
  - exists g'. split; [exact E|]. eapply represents_ext; [|exact H']. intros a b. cbv beta.
    rewrite !list_elem_of_fmap. split.
    + intros [Hab Hno]. split.
      * destruct Hab as [(c & [= -> ->] & Hc)|]; auto.
      * intros [-> Hb]. apply Hno. eauto.
    + intros [Hab Hno]. split.
      * destruct Hab as [|[-> Hb]]; [by right|left; eauto].
      * intros (c & [= -> ->] & Hc). by apply Hno.
Qed.

Definition removed (PhiVar : VarId) (Others : list VarId) (n : Node) : Prop :=
  n = SV PhiVar \/ exists x, n = SV x /\ x ∈ Others.

Lemma elem_of_edges_bind (f : VarId -> list (Node * Node)) l e : e ∈ l ≫= f <-> exists x, e ∈ f x /\ x ∈ l.
Proof. apply list_elem_of_bind. Qed.

(** The edges at a list of operands that have none among them. *)
Section Operands.
Context (g : Graph) (R : Node -> Node -> Prop) (Others : list VarId).
Hypothesis Hg : represents g R.
Hypothesis Hno : forall x y, x ∈ Others -> y ∈ Others -> ~ R (SV x) (SV y).
Hypothesis Hnd : NoDup Others.

Lemma elem_of_edges_ssa a b :
  (a, b) ∈ Others ≫= edges_ssa g <->
  R a b /\ (exists y, a = SV y) /\ (exists y, b = SV y) /\ exists x, x ∈ Others /\ (a = SV x \/ b = SV x).
Proof.
  rewrite elem_of_edges_bind. unfold edges_ssa. setoid_rewrite elem_of_app. setoid_rewrite list_elem_of_fmap.
  setoid_rewrite (elem_of_ssa_parents g R _ _ Hg). setoid_rewrite (elem_of_ssa_children g R _ _ Hg). naive_solver.
Qed.

Lemma elem_of_edges_to_llvm a b :
  (a, b) ∈ Others ≫= edges_to_llvm g <-> R a b /\ (exists y, b = LV y) /\ exists x, x ∈ Others /\ a = SV x.
Proof.
  rewrite elem_of_edges_bind. unfold edges_to_llvm. setoid_rewrite list_elem_of_fmap.
  setoid_rewrite (elem_of_llvm_children g R _ _ Hg). naive_solver.
Qed.

Lemma elem_of_edges_from_llvm a b :
  (a, b) ∈ Others ≫= edges_from_llvm g <-> R a b /\ (exists y, a = LV y) /\ exists x, x ∈ Others /\ b = SV x.
Proof.
  rewrite elem_of_edges_bind. unfold edges_from_llvm. setoid_rewrite list_elem_of_fmap.
  setoid_rewrite (elem_of_llvm_parents g R _ _ Hg). naive_solver.
Qed.

Lemma NoDup_bind_edges (f : VarId -> list (Node * Node)) :
  (forall x, x ∈ Others -> NoDup (f x)) ->
  (forall x y e, x ∈ Others -> y ∈ Others -> e ∈ f x -> e ∈ f y -> x = y) -> NoDup (Others ≫= f).
Proof.
  clear Hg Hno. induction Hnd as [|x l Hx Hl IH]; intros Hf Hd; [constructor|]. cbn [mbind list_bind].
  apply NoDup_app. split; [apply Hf, list_elem_of_here|]. split.
  - intros e He (y & Hey & Hy)%elem_of_edges_bind. destruct Hx.
    by rewrite (Hd x y e (list_elem_of_here _ _) (list_elem_of_further _ _ _ Hy) He Hey).
  - apply IH; [done|..].
    + intros y Hy. apply Hf. by apply list_elem_of_further.
    + intros y z e Hy Hz. apply Hd; by apply list_elem_of_further.
Qed.

Lemma NoDup_edges_ssa : NoDup (Others ≫= edges_ssa g).
Proof.
  apply NoDup_bind_edges.
  - intros x Hx. unfold edges_ssa. apply NoDup_app. split; [|split].
    + apply NoDup_fmap_2; [by intros ? ? [=]|apply NoDup_nodes, _].
    + intros [a b] (y & [= -> ->] & Hy)%list_elem_of_fmap (z & [= -> <-] & Hz)%list_elem_of_fmap.
      apply (elem_of_ssa_parents g R _ _ Hg) in Hy as [_ Hy]. by apply (Hno x x Hx Hx).
    + apply NoDup_fmap_2; [by intros ? ? [=]|apply NoDup_nodes, _].
  - intros x y [a b] Hx Hy. unfold edges_ssa. rewrite !elem_of_app, !list_elem_of_fmap.
    setoid_rewrite (elem_of_ssa_parents g R _ _ Hg). setoid_rewrite (elem_of_ssa_children g R _ _ Hg).
    intros [(u & [= -> ->] & _ & Hu)|(u & [= -> ->] & _ & Hu)] [(w & [= ?] & _)|(w & [= ?] & _)]; subst; try done;
      exfalso; [apply (Hno y x)|apply (Hno x y)]; done.
Qed.

Lemma NoDup_edges_llvm : NoDup (Others ≫= edges_to_llvm g) /\ NoDup (Others ≫= edges_from_llvm g).
Proof.
  split; apply NoDup_bind_edges.
  - intros x _. apply NoDup_fmap_2; [by intros ? ? [=]|apply NoDup_nodes, _].
  - intros x y [a b] _ _ (u & [= -> ->] & _)%list_elem_of_fmap (w & [= ?] & _)%list_elem_of_fmap. congruence.
  - intros x _. apply NoDup_fmap_2; [by intros ? ? [=]|apply NoDup_nodes, _].
  - intros x y [a b] _ _ (u & [= -> ->] & _)%list_elem_of_fmap (w & [= ?] & _)%list_elem_of_fmap. congruence.
Qed.

(** The three removals. *)
Lemma remove_operands :
  exists g5 g6 g7, removeEdges (Others ≫= edges_ssa g) g = Ok g5 /\ removeEdges (Others ≫= edges_to_llvm g) g5 = Ok g6 /\
    removeEdges (Others ≫= edges_from_llvm g) g6 = Ok g7 /\
    represents g7 (fun a b => R a b /\ forall x, x ∈ Others -> a <> SV x /\ b <> SV x).
Proof.
  destruct NoDup_edges_llvm as [N2 N3].
  destruct (removeEdges_represents _ g R Hg NoDup_edges_ssa) as (g5 & E5 & H5).
  { intros a b. rewrite elem_of_edges_ssa. tauto. }
  destruct (removeEdges_represents _ g5 _ H5 N2) as (g6 & E6 & H6).
  { intros a b. rewrite elem_of_edges_to_llvm, elem_of_edges_ssa. naive_solver. }
  destruct (removeEdges_represents _ g6 _ H6 N3) as (g7 & E7 & H7).
  { intros a b. rewrite elem_of_edges_from_llvm, elem_of_edges_to_llvm, elem_of_edges_ssa. naive_solver. }
  exists g5, g6, g7. split; [done|]. split; [done|]. split; [done|]. eapply represents_ext; [|exact H7].
  intros a b. cbv beta. rewrite elem_of_edges_from_llvm, elem_of_edges_to_llvm, elem_of_edges_ssa. split.
  - intros [[[HR H1] H2] H3]. split; [done|]. intros x Hx. destruct a, b; naive_solver.
  - intros [HR H]. repeat split; [done|..]; naive_solver.
Qed.
End Operands.

(** * The elimination of one phi *)

Section Eliminate.
Context (st : PhiState) (PhiVar : VarId) (Phi : MSSAPhi) (Ops0 : list VarId) (R : Node -> Node -> Prop).

Local Abbreviation Ops := (in_order (list_to_set Ops0)).
Local Abbreviation F := (phiFunction Phi).

(** The state the elimination is called in. *)
Record eliminable : Prop := {
  el_graph : represents (graph st) R;
  el_in : forall a, R a (SV PhiVar) <-> (exists v, a = LV v /\ v ∈ phiPreds Phi) \/ (exists o, a = SV o /\ o ∈ Ops0);
  el_self : PhiVar ∉ Ops0;
  el_some : Ops0 <> [];
  el_apart : forall x y, x ∈ Ops0 -> y ∈ Ops0 -> ~ R (SV x) (SV y);
  el_nodes : PhiVar ∈ at_key (funcToSSANodesMap st) F /\ forall x, x ∈ Ops0 -> x ∈ at_key (funcToSSANodesMap st) F
}.

(** The edges that remain: those of the nodes that do, and those of the phi, which
    leave the first operand. *)
Definition eliminated (Op0 : VarId) (Others : list VarId) (a b : Node) : Prop :=
  ~ removed PhiVar Others a /\ ~ removed PhiVar Others b /\ (R a b \/ (a = SV Op0 /\ R (SV PhiVar) b)).

Hypothesis HE : eliminable.

Lemma elem_of_ops x : x ∈ Ops <-> x ∈ Ops0.
Proof. by rewrite elem_of_in_order, elem_of_list_to_set. Qed.

(** The edges into the phi go. *)
Lemma remove_incoming :
  exists g1 g2, removeEdges ((fun v => (LV v, SV PhiVar)) <$> elements (phiPreds Phi)) (graph st) = Ok g1 /\
    removeEdges ((fun o => (SV o, SV PhiVar)) <$> Ops) g1 = Ok g2 /\
    represents g2 (fun a b => R a b /\ b <> SV PhiVar).
Proof.
  destruct (removeEdges_represents ((fun v => (LV v, SV PhiVar)) <$> elements (phiPreds Phi)) _ _ (el_graph HE)) as (g1 & E1 & H1).
  - apply NoDup_fmap_2; [by intros ? ? [=]|apply NoDup_elements].
  - intros a b (v & [= -> ->] & Hv%elem_of_elements)%list_elem_of_fmap. apply (el_in HE). eauto.
  - destruct (removeEdges_represents ((fun o => (SV o, SV PhiVar)) <$> Ops) _ _ H1) as (g2 & E2 & H2).
    + apply NoDup_fmap_2; [by intros ? ? [=]|apply NoDup_in_order].
    + intros a b (o & [= -> ->] & Ho%elem_of_ops)%list_elem_of_fmap. split; [apply (el_in HE); eauto|].
      by intros (v & [=] & _)%list_elem_of_fmap.
    + exists g1, g2. split; [done|]. split; [done|]. eapply represents_ext; [|exact H2]. intros a b. cbv beta.
      rewrite !list_elem_of_fmap. setoid_rewrite elem_of_elements. setoid_rewrite elem_of_ops. split.
      * intros [[HR Hn1] Hn2]. split; [done|]. intros ->. apply (el_in HE) in HR as [(v & -> & Hv)|(o & -> & Ho)]; eauto.
      * intros [HR Hb]. split; [split; [done|]|]; intros (? & [= ? ?] & _); done.
Qed.

(** The edges out of the phi move to the first operand. *)
Lemma move_outgoing g2 Op0 : PhiVar <> Op0 ->
  represents g2 (fun a b => R a b /\ b <> SV PhiVar) ->
  exists g3 g4, redirect PhiVar Op0 (ssa_children g2 PhiVar) g2 = Ok g3 /\
    redirect PhiVar Op0 (llvm_children g3 PhiVar) g3 = Ok g4 /\
    represents g4 (fun a b => a <> SV PhiVar /\ b <> SV PhiVar /\ (R a b \/ (a = SV Op0 /\ R (SV PhiVar) b))).
Proof.
  intros Hne H2. pose proof (fun b => elem_of_ssa_children g2 _ PhiVar b H2) as Hs. cbv beta in Hs.
  destruct (redirect_represents PhiVar Op0 (ssa_children g2 PhiVar) g2 _ Hne H2) as (g3 & E3 & H3).
  { apply NoDup_nodes, _. }
  { intros c Hc. by apply Hs in Hc as [_ ?]. }
  pose proof (fun b => elem_of_llvm_children g3 _ PhiVar b H3) as Hl. cbv beta in Hl.
  destruct (redirect_represents PhiVar Op0 (llvm_children g3 PhiVar) g3 _ Hne H3) as (g4 & E4 & H4).
  { apply NoDup_nodes, _. }
  { intros c Hc. by apply Hl in Hc as [_ ?]. }
  exists g3, g4. split; [done|]. split; [done|]. eapply represents_ext; [|exact H4].
  intros a b. cbv beta. rewrite !Hl, !Hs. clear -Hne. split.
  - intros [[[[[HR Hb]|[-> [_ [HR Hb]]]] H1]|[-> [_ [[[HR Hb]|[[= ->] _]] H1]]]] H2].
    + split; [intros ->; destruct b; naive_solver|]. split; [done|by left].
    + split; [by intros [= ->]|]. split; [done|by right].
    + split; [by intros [= ->]|]. split; [done|by right].
    + done.
  - intros (Ha & Hb & [HR|[-> HR]]).
    + repeat split; [by left; split; [left|]; naive_solver|naive_solver].
    + destruct b as [b|b].
      * split; [right; split; [done|]; split; [eauto|]; split; [left; done|naive_solver]|naive_solver].
      * split; [left; split; [right; split; [done|]; split; [eauto|done]|naive_solver]|naive_solver].
Qed.

Lemma erase_nodes F l : forall st1, NoDup l -> (forall x, x ∈ l -> x ∈ at_key (funcToSSANodesMap st1) F) ->
  exists st', rfold (fun st x => erase_node F x st) l st1 = Ok st' /\ graph st' = graph st1 /\ phis st' = phis st1 /\
    forall F' x, x ∈ at_key (funcToSSANodesMap st') F' <-> x ∈ at_key (funcToSSANodesMap st1) F' /\ ~ (F' = F /\ x ∈ l).
Proof.
  clear HE. induction l as [|y l IH]; intros st1 Hn Hl.
  - exists st1. repeat split; try done; [by intros [_ ?%not_elem_of_nil]|tauto].
  - apply NoDup_cons in Hn as [Hy Hn].
    destruct (erase_at_ok F y (funcToSSANodesMap st1)) as (m & E & Hm); [apply Hl, list_elem_of_here|].
    destruct (IH (with_nodes m st1) Hn) as (st' & E' & Hg & Hp & H').
    { intros x Hx. apply Hm. split; [apply Hl; by apply list_elem_of_further|]. intros [_ ->]. done. }
    exists st'. cbn [rfold]. unfold erase_node at 1. rewrite E. cbn [rbind]. split; [exact E'|]. split; [done|]. split; [done|].
    intros F' x. rewrite H', Hm, elem_of_cons. naive_solver.
Qed.

Lemma eliminatePhi_edges :
  exists Op0 Others st', Ops = Op0 :: Others /\ eliminatePhi PhiVar Phi Ops0 st = Ok st' /\
    represents (graph st') (eliminated Op0 Others) /\
    forall F' x, x ∈ at_key (funcToSSANodesMap st') F' <->
      x ∈ at_key (funcToSSANodesMap st) F' /\ ~ (F' = F /\ (x = PhiVar \/ x ∈ Others)).
Proof.
  destruct Ops as [|Op0 Others] eqn:EO.
  { exfalso. apply (el_some HE). apply elem_of_nil_inv. intros x Hx. rewrite <- elem_of_ops, EO in Hx. by apply not_elem_of_nil in Hx. }
  assert (forall x, x ∈ Op0 :: Others -> x ∈ Ops0) as Hops by (intros x; by rewrite <- EO, elem_of_ops).
  assert (PhiVar <> Op0) as Hne by (intros Ep; apply (el_self HE); rewrite Ep; apply Hops, list_elem_of_here).
  pose proof (NoDup_in_order (list_to_set Ops0)) as Hnd. rewrite EO in Hnd. apply NoDup_cons in Hnd as [H0 Hnd].
  destruct remove_incoming as (g1 & g2 & E1 & E2 & H2). destruct (move_outgoing g2 Op0 Hne H2) as (g3 & g4 & E3 & E4 & H4).
  destruct (remove_operands g4 _ Others H4) as (g5 & g6 & g7 & E5 & E6 & E7 & H7); [|done|].
  { intros x y Hx Hy (_ & _ & [HR|[[= ->] HR]]); [|done]. apply (el_apart HE x y) in HR; [done|..]; apply Hops; by right. }
  destruct (erase_at_ok F PhiVar (funcToSSANodesMap st)) as (m & Em & Hm); [apply (proj1 (el_nodes HE))|].
  destruct (erase_nodes F Others (with_graph g7 (with_nodes m
    (with_phis (fold_left (fun p V => replace_operand PhiVar Op0 V p) (elements (at_key (ssaToSSAChildren g2) PhiVar)) (phis st)) st))) Hnd)
    as (st' & E' & Hg' & _ & H').
  { intros x Hx. apply Hm. split; [apply (el_nodes HE), Hops; by right|]. intros [_ ->]. apply (el_self HE), Hops. by right. }
  exists Op0, Others, st'. split; [done|]. split; [|split].
  - unfold eliminatePhi. cbv zeta. rewrite E1. cbn [rbind]. rewrite E2. cbn [rbind]. rewrite EO, E3. cbn [rbind].
    rewrite E4. cbn [rbind]. unfold erase_node at 1. cbn [with_phis funcToSSANodesMap]. rewrite Em. cbn [rbind].
    rewrite E5. cbn [rbind]. rewrite E6. cbn [rbind]. rewrite E7. exact E'.
  - rewrite Hg'. eapply represents_ext; [|exact H7]. intros a b. cbv beta. unfold eliminated, removed. split.
    + intros [(Ha & Hb & HR) Hx]. split; [|split]; [intros [?|(x & -> & Hin)]; [done|by destruct (Hx x Hin)]..|done].
    + intros (Ha & Hb & HR). split; [split; [|split]; [intros ->; by apply Ha; left|intros ->; by apply Hb; left|done]|].
      intros x Hx. split; intros ->; [apply Ha|apply Hb]; right; eauto.
  - intros F' x. rewrite H'. cbn [with_graph with_nodes funcToSSANodesMap]. rewrite Hm. naive_solver.
Qed.
End Eliminate.

(** * Taint *)

(** What the sources taint, nothing flowing out of the reset nodes. *)
Inductive tainted (R : Node -> Node -> Prop) (reset source : Node -> Prop) : Node -> Prop :=
| taint_source n : source n -> tainted R reset source n
| taint_flow a b : tainted R reset source a -> ~ reset a -> R a b -> tainted R reset source b.

Lemma tainted_ext R R' reset source :
  (forall a b, R a b <-> R' a b) -> forall n, tainted R reset source n <-> tainted R' reset source n.
Proof.
  intros H n. split; (induction 1 as [n Hn|a b _ IH Hr HR]; [by apply taint_source|]);
    (eapply taint_flow; [exact IH|done|by apply H]).
Qed.

(** The edges without those from the predicates to the phi. *)
Definition without_predicates (PhiVar : VarId) (R : Node -> Node -> Prop) (a b : Node) : Prop :=
  R a b /\ ~ ((exists v, a = LV v) /\ b = SV PhiVar).

Section PhiTaint.
Context (st : PhiState) (PhiVar : VarId) (Phi : MSSAPhi) (Ops0 : list VarId) (R : Node -> Node -> Prop).
Context (reset source : Node -> Prop).
Hypothesis HE : eliminable st PhiVar Phi Ops0 R.

(** The operands have the same edges, and are alike otherwise. *)
Hypothesis Heq : forall x y, x ∈ Ops0 -> y ∈ Ops0 -> forall n, (R (SV x) n -> R (SV y) n) /\ (R n (SV x) -> R n (SV y)).
Hypothesis Hreset : ~ reset (SV PhiVar) /\ forall x y, x ∈ Ops0 -> y ∈ Ops0 -> reset (SV x) -> reset (SV y).
Hypothesis Hsource : ~ source (SV PhiVar) /\ forall x y, x ∈ Ops0 -> y ∈ Ops0 -> source (SV x) -> source (SV y).

Context (Op0 : VarId) (Others : list VarId).
Hypothesis HOps : forall x, x ∈ Op0 :: Others <-> x ∈ Ops0.
Hypothesis H0 : Op0 ∉ Others.

Local Abbreviation before := (tainted (without_predicates PhiVar R) reset source).
Local Abbreviation after := (tainted (eliminated PhiVar R Op0 Others) reset source).
Local Abbreviation gone := (removed PhiVar Others).

Lemma op0_in : Op0 ∈ Ops0.
Proof. apply HOps, list_elem_of_here. Qed.

Lemma op0_stays : ~ gone (SV Op0).
Proof.
  intros [[= Ep]|(x & [= Ex] & Hx)]; [|by rewrite <- Ex in Hx].
  apply (el_self _ _ _ _ _ HE). rewrite <- Ep. apply op0_in.
Qed.

Lemma after_before n : after n -> before n.
Proof.
  induction 1 as [n Hn|a b _ IH Hr (Ha & Hb & HR)]; [by apply taint_source|].
  assert (b <> SV PhiVar) as Hb' by (intros ->; apply Hb; by left).
  destruct HR as [HR|[-> HR]].
  - eapply taint_flow; [exact IH|done|]. split; [done|]. by intros [_ ?].
  - apply (taint_flow _ _ _ (SV PhiVar)); [|apply Hreset|split; [done|by intros [_ ?]]].
    eapply taint_flow; [exact IH|done|]. split; [|by intros [[v ?] _]].
    apply (el_in _ _ _ _ _ HE). right. exists Op0. split; [done|apply op0_in].
Qed.

Lemma gone_cases n : gone n -> n = SV PhiVar \/ exists x, n = SV x /\ x ∈ Ops0 /\ x ∈ Others.
Proof. intros [?|(x & ? & Hx)]; [by left|right]. exists x. repeat split; try done. apply HOps. by right. Qed.

Lemma gone_dec n : gone n \/ ~ gone n.
Proof.
  destruct n as [v|x]; [right; by intros [?|(? & ? & _)]|].
  destruct (decide (x = PhiVar)) as [->|H1]; [left; by left|].
  destruct (decide (x ∈ Others)) as [H2|H2]; [left; right; eauto|right].
  intros [[= ?]|(? & [= <-] & ?)]; done.
Qed.

Lemma before_after n : before n ->
  (~ gone n -> after n) /\ (forall x, n = SV x -> x ∈ Ops0 -> after (SV Op0)) /\
  (n = SV PhiVar -> after (SV Op0) /\ ~ reset (SV Op0)).
Proof.
  pose proof op0_stays as Hst. pose proof op0_in as H0in.
  induction 1 as [n Hn|a b _ (IH1 & IH2 & IH3) Hr [HR Hnp]].
  - split; [intros _; by apply taint_source|]. split.
    + intros x -> Hx. apply taint_source. by apply (proj2 Hsource x Op0).
    + intros ->. by apply Hsource in Hn.
  - (* what [a] hands on, the first operand does in its place *)
    assert (gone a -> after (SV Op0) /\ ~ reset (SV Op0)) as Hgone.
    { intros [-> |(x & -> & Hx & _)]%gone_cases; [auto|]. split; [by apply (IH2 x)|].
      intros Hr0. apply Hr. by apply (proj2 Hreset Op0 x). }
    assert (forall n, ~ gone n -> R a n -> a <> SV PhiVar -> n <> SV PhiVar -> after n) as Hstep.
    { intros n Hn Han Ha1 Hn1. destruct (gone_dec a) as [Ha|Ha].
      - destruct (Hgone Ha) as [Ht Hr0]. apply gone_cases in Ha as [->|(x & -> & Hx & _)]; [done|].
        eapply taint_flow; [exact Ht|done|]. split; [done|]. split; [done|]. left. by apply (proj1 (Heq x Op0 Hx H0in n)).
      - eapply taint_flow; [by apply IH1|done|]. split; [done|]. split; [done|]. by left. }
    assert (forall n, ~ gone n -> a = SV PhiVar -> R a n -> after n) as Hphi.
    { intros n Hn -> Han. destruct (IH3 eq_refl) as [Ht Hr0]. eapply taint_flow; [exact Ht|done|].
      split; [done|]. split; [done|]. by right. }
    assert (forall n, ~ gone n -> R a n -> after n) as Hany.
    { intros n Hn Han. destruct (decide (a = SV PhiVar)) as [Ea|Ea]; [by apply Hphi|].
      apply Hstep; [done..|]. intros ->. apply Hn. by left. }
    split; [intros Hb; by apply Hany|]. split.
    + intros x -> Hx. apply Hany; [done|]. by apply (proj2 (Heq x Op0 Hx H0in a)).
    + intros ->. apply (el_in _ _ _ _ _ HE) in HR as [(v & -> & _)|(o & -> & Ho)]; [by destruct Hnp; eauto|].
      split; [by apply (IH2 o)|]. intros Hr0. apply Hr. by apply (proj2 Hreset Op0 o).
Qed.
End PhiTaint.

(** A property of nodes, every operand taken for the one that is kept. *)
Definition as_kept (Op0 : VarId) (ops : list VarId) (P : Node -> Prop) (n : Node) : Prop :=
  match n with SV x => if decide (x ∈ ops) then P (SV Op0) else P n | LV _ => P n end.

Lemma as_kept_op Op0 ops P x : x ∈ ops -> as_kept Op0 ops P (SV x) <-> P (SV Op0).
Proof. intros H. unfold as_kept. by rewrite decide_True. Qed.

Lemma as_kept_other Op0 ops P x : x ∉ ops -> as_kept Op0 ops P (SV x) <-> P (SV x).
Proof. intros H. unfold as_kept. by rewrite decide_False. Qed.

(** On the nodes that stay it is the property itself. *)
Lemma as_kept_stays PhiVar Op0 Others ops P n :
  (forall x, x ∈ Op0 :: Others <-> x ∈ ops) -> ~ removed PhiVar Others n -> as_kept Op0 ops P n <-> P n.
Proof.
  intros Hops Hn. destruct n as [v|x]; [done|]. destruct (decide (x ∈ ops)) as [Hx|Hx]; [|by apply as_kept_other].
  rewrite as_kept_op by done. apply Hops in Hx as [->|Hx]%elem_of_cons; [done|]. exfalso. apply Hn. right. eauto.
Qed.

(** Where the operands are alike it is the property itself. *)
Lemma as_kept_alike Op0 ops P n :
  Op0 ∈ ops -> (forall x y, x ∈ ops -> y ∈ ops -> P (SV x) -> P (SV y)) -> as_kept Op0 ops P n <-> P n.
Proof.
  intros H0 Halike. destruct n as [v|x]; [done|]. destruct (decide (x ∈ ops)) as [Hx|Hx]; [|by apply as_kept_other].
  rewrite as_kept_op by done. split; by apply Halike.
Qed.

(** Taint depends on the sources and reset nodes where edges are. *)
Lemma tainted_sources R reset source reset' source' (Q : Node -> Prop) :
  (forall a b, R a b -> Q a /\ Q b) -> (forall n, Q n -> (reset n <-> reset' n) /\ (source n <-> source' n)) ->
  forall n, Q n -> tainted R reset source n -> tainted R reset' source' n.
Proof.
  intros HR Hs n Hn H. induction H as [n Hsrc|a b _ IH Hr HRab].
  - apply taint_source. by apply Hs.
  - destruct (HR a b HRab) as [Ha _]. eapply taint_flow; [by apply IH| |exact HRab]. intros H. apply Hr. by apply Hs.
Qed.

Lemma tainted_iff R reset source reset' source' :
  (forall n, (reset n <-> reset' n) /\ (source n <-> source' n)) ->
  forall n, tainted R reset source n <-> tainted R reset' source' n.
Proof.
  intros Hs n. split; (apply (tainted_sources R _ _ _ _ (fun _ => True)); [done| |done]); intros x _;
    destruct (Hs x) as [? ?]; split; tauto.
Qed.

(** * The test of equivalence *)

Lemma same_at_spec T x y : same_at T x y = true -> T !! x = T !! y.
Proof.
  unfold same_at. destruct (T !! x) as [X|], (T !! y) as [Y|]; try done.
  intros [Hs Hf]%andb_true_iff. apply Nat.eqb_eq in Hs. f_equal.
  assert (X ⊆ Y) as Hsub.
  { intros v Hv. apply elem_of_elements in Hv. rewrite forallb_forall in Hf.
    by apply list_elem_of_In, Hf, bool_decide_eq_true in Hv. }
  apply leibniz_equiv, set_subseteq_size_equiv; [done|lia].
Qed.

(** Equivalent nodes are no phis and have the same edges. *)
Lemma equivalent_spec st R x y :
  represents (graph st) R -> areSSANodesEquivalent st x y = true ->
  forall n, (R (SV x) n <-> R (SV y) n) /\ (R n (SV x) <-> R n (SV y)).
Proof.
  intros Hg H n. unfold areSSANodesEquivalent in H. destruct (is_phi st x || is_phi st y); [done|].
  apply andb_true_iff in H as [H H4]. apply andb_true_iff in H as [H H3]. apply andb_true_iff in H as [H1 H2].
  apply same_at_spec in H1, H2, H3, H4.
  split; [rewrite <- (proj1 (Hg (SV x) n)), <- (proj1 (Hg (SV y) n))|rewrite <- (proj2 (Hg n (SV x))), <- (proj2 (Hg n (SV y)))];
    destruct n as [v|v]; cbn [child parent]; unfold at_key; by rewrite ?H1, ?H2, ?H3, ?H4.
Qed.

Lemma all_equivalent_spec st R ops :
  represents (graph st) R -> all_equivalent st ops = true -> forall x y, x ∈ ops -> y ∈ ops ->
  forall n, (R (SV x) n <-> R (SV y) n) /\ (R n (SV x) <-> R n (SV y)).
Proof.
  intros Hg. induction ops as [|z ops IH]; intros H x y Hx Hy n; [by apply not_elem_of_nil in Hx|].
  destruct ops as [|w ops].
  { apply list_elem_of_singleton in Hx as ->. apply list_elem_of_singleton in Hy as ->. done. }
  apply andb_true_iff in H as [H1 H2]. specialize (IH H2).
  pose proof (equivalent_spec st R z w Hg H1 n) as [E1 E2].
  assert (forall u, u ∈ z :: w :: ops -> (R (SV u) n <-> R (SV w) n) /\ (R n (SV u) <-> R n (SV w))) as Hw.
  { intros u [->|Hu]%elem_of_cons; [done|]. apply IH; [done|apply list_elem_of_here]. }
  destruct (Hw x Hx), (Hw y Hy). split; etransitivity; eauto; by symmetry.
Qed.

(** The same with every operand taken for the one that is kept. *)
Lemma elimination_as_kept st PhiVar Phi R (reset source : Node -> Prop) Op0 Others :
  eliminable st PhiVar Phi (opsVar Phi) R -> all_equivalent st (opsVar Phi) = true ->
  ~ reset (SV PhiVar) -> ~ source (SV PhiVar) ->
  (forall x, x ∈ Op0 :: Others <-> x ∈ opsVar Phi) -> Op0 ∉ Others ->
  forall n, ~ removed PhiVar Others n ->
    (tainted (eliminated PhiVar R Op0 Others) reset source n <->
     tainted (without_predicates PhiVar R) (as_kept Op0 (opsVar Phi) reset) (as_kept Op0 (opsVar Phi) source) n).
Proof.
  intros HE Heq Hr Hs Hops H0 n Hn. set (reset' := as_kept Op0 (opsVar Phi) reset). set (source' := as_kept Op0 (opsVar Phi) source).
  assert (forall P : Node -> Prop, ~ P (SV PhiVar) -> ~ as_kept Op0 (opsVar Phi) P (SV PhiVar) /\
    forall x y, x ∈ opsVar Phi -> y ∈ opsVar Phi -> as_kept Op0 (opsVar Phi) P (SV x) -> as_kept Op0 (opsVar Phi) P (SV y)) as Hk.
  { intros P HP. split; [by rewrite as_kept_other by apply (el_self _ _ _ _ _ HE)|].
    intros x y Hx Hy. by rewrite !as_kept_op. }
  assert (forall x y, x ∈ opsVar Phi -> y ∈ opsVar Phi -> forall n, (R (SV x) n -> R (SV y) n) /\ (R n (SV x) -> R n (SV y))) as Hsame.
  { intros x y Hx Hy m. destruct (all_equivalent_spec st R _ (el_graph _ _ _ _ _ HE) Heq x y Hx Hy m). tauto. }
  assert (forall m, ~ removed PhiVar Others m -> (reset m <-> reset' m) /\ (source m <-> source' m)) as Hst
    by (intros m Hm; split; symmetry; by eapply as_kept_stays).
  assert (forall a b, eliminated PhiVar R Op0 Others a b -> ~ removed PhiVar Others a /\ ~ removed PhiVar Others b) as Hel
    by (intros a b (? & ? & _); done).
  transitivity (tainted (eliminated PhiVar R Op0 Others) reset' source' n).
  - split; (apply (tainted_sources _ _ _ _ _ (fun m => ~ removed PhiVar Others m)); [exact Hel| |exact Hn]);
      intros m Hm; destruct (Hst m Hm); split; tauto.
  - split; [apply (after_before st PhiVar Phi (opsVar Phi) R reset' source' HE (Hk reset Hr) Op0 Others Hops)|].
    intros Hb. by apply (before_after st PhiVar Phi (opsVar Phi) R reset' source' HE Hsame (Hk reset Hr) (Hk source Hs)
      Op0 Others Hops H0 n Hb).
Qed.

(** C18 (phi). When the test finds the operands of a phi equivalent, eliminating
    it succeeds, the phi and all operands but one leave the graph, and every node
    that stays is tainted exactly when it would be by the edges that do not come
    from the predicates of the phi if all the operands were sources, and reset
    nodes, as the one kept is; the test compares the edges only.  So the taint is
    kept where the operands are alike as sources and as reset nodes.  The phi is
    neither, its operands have no edge among them and do not contain it, and its
    predicates have their edges to it. *)
Theorem phi_elimination_taint st PhiVar Phi R (reset source : Node -> Prop) :
  eliminable st PhiVar Phi (opsVar Phi) R -> all_equivalent st (opsVar Phi) = true ->
  ~ reset (SV PhiVar) -> ~ source (SV PhiVar) ->
  exists Op0 Others st', eliminatePhi PhiVar Phi (opsVar Phi) st = Ok st' /\
    (forall x, x ∈ Op0 :: Others <-> x ∈ opsVar Phi) /\
    (forall a b, child (graph st') a b \/ parent (graph st') a b -> ~ removed PhiVar Others a /\ ~ removed PhiVar Others b) /\
    (forall n, ~ removed PhiVar Others n ->
      (tainted (child (graph st')) reset source n <->
       tainted (without_predicates PhiVar (child (graph st)))
         (as_kept Op0 (opsVar Phi) reset) (as_kept Op0 (opsVar Phi) source) n)) /\
    ((forall x y, x ∈ opsVar Phi -> y ∈ opsVar Phi -> (reset (SV x) -> reset (SV y)) /\ (source (SV x) -> source (SV y))) ->
     forall n, ~ removed PhiVar Others n ->
      (tainted (child (graph st')) reset source n <->
       tainted (without_predicates PhiVar (child (graph st))) reset source n)).
Proof.
  intros HE Heq Hr Hs. destruct (eliminatePhi_edges st PhiVar Phi (opsVar Phi) R HE) as (Op0 & Others & st' & EO & E & Hg & _).
  assert (forall x, x ∈ Op0 :: Others <-> x ∈ opsVar Phi) as Hops.
  { intros x. rewrite <- EO, elem_of_in_order. apply elem_of_list_to_set. }
  assert (Op0 ∉ Others) as H0 by (pose proof (NoDup_in_order (list_to_set (opsVar Phi))) as Hn; rewrite EO in Hn; by apply NoDup_cons in Hn as [? _]).
  exists Op0, Others, st'. split; [exact E|]. split; [exact Hops|]. split.
  { intros a b Hab. assert (eliminated PhiVar R Op0 Others a b) as (? & ? & _); [|done]. destruct (Hg a b) as [Hc Hp], Hab; [by apply Hc|by apply Hp]. }
  assert (forall n, ~ removed PhiVar Others n ->
    (tainted (child (graph st')) reset source n <->
     tainted (without_predicates PhiVar (child (graph st)))
       (as_kept Op0 (opsVar Phi) reset) (as_kept Op0 (opsVar Phi) source) n)) as Hk.
  { intros n Hn. rewrite (tainted_ext _ (eliminated PhiVar R Op0 Others)) by (intros a b; apply Hg).
    rewrite (tainted_ext (without_predicates PhiVar (child (graph st))) (without_predicates PhiVar R)).
    - by eapply elimination_as_kept.
    - intros a b. unfold without_predicates. by rewrite (proj1 (el_graph _ _ _ _ _ HE a b)). }
  split; [exact Hk|]. intros Halike n Hn. rewrite Hk by done. apply tainted_iff.
  assert (Op0 ∈ opsVar Phi) as Hin by apply Hops, list_elem_of_here.
  intros m. split; (apply as_kept_alike; [done|]); intros x y Hx Hy; by apply Halike.
Qed.

(** * Example: [if (rank) a = v; else a = v;] followed by a use of [a]. *)

#[local] Open Scope N_scope.

Definition diamond_edges : list (Node * Node) :=
  [(LV 1, SV 1); (LV 1, SV 2); (SV 1, SV 3); (SV 2, SV 3); (LV 0, SV 3); (SV 3, LV 9)].

Definition diamond_phi : MSSAPhi := {| opsVar := [1; 2]; phiPreds := {[ 0 ]}; phiFunction := 7 |}.

Definition diamond_state : PhiState := {|
  graph := fold_left (fun g e => addEdge e.1 e.2 g) diamond_edges empty_graph;
  funcToSSANodesMap := {[ 7 := {[ 1; 2; 3 ]} ]};
  phis := {[ 3 := diamond_phi ]} |}.

Lemma into_phi a y : (a, SV y) ∈ diamond_edges -> a = LV 1 \/ (y = 3 /\ (a = SV 1 \/ a = SV 2 \/ a = LV 0)).
Proof.
  intros H%list_elem_of_In. simpl in H.
  destruct H as [H|[H|[H|[H|[H|[H|[]]]]]]]; try discriminate H; injection H as <- <-; tauto.
Qed.

Lemma diamond_eliminable : eliminable diamond_state 3 diamond_phi [1; 2] (fun a b => (a, b) ∈ diamond_edges).
Proof.
  split.
  - eapply represents_ext; [|apply (addEdges_represents diamond_edges empty_graph (fun _ _ => False) represents_empty)].
    intros a b. tauto.
  - intros a. split.
    + intros H. pose proof H as [->|(_ & [->|[->| ->]])]%into_phi.
      * apply list_elem_of_In in H. simpl in H. by destruct H as [H|[H|[H|[H|[H|[H|[]]]]]]].
      * right. exists 1. split; [done|]. set_solver.
      * right. exists 2. split; [done|]. set_solver.
      * left. exists 0. split; [done|]. by apply (bool_decide_unpack _); vm_compute.
    + intros [(v & -> & Hv)|(o & -> & Ho)].
      * change (v ∈ ({[ 0 ]} : gset N)) in Hv. apply elem_of_singleton in Hv as ->. unfold diamond_edges. set_solver.
      * unfold diamond_edges. set_solver.
  - by apply (bool_decide_unpack _); vm_compute.
  - done.
  - intros x y _ Hy [[=]|[-> _]]%into_phi. set_solver.
  - split; [apply (bool_decide_unpack _); by vm_compute|].
    intros x Hx. enum Hx; apply (bool_decide_unpack _); by vm_compute.
Qed.

Lemma diamond_child i a b : diamond_edges !! i = Some (a, b) -> child (graph diamond_state) a b.
Proof.
  intros H. apply (proj1 (el_graph _ _ _ _ _ diamond_eliminable a b)).
  by eapply list_elem_of_lookup_2.
Qed.

(** The condition does not taint the use any more. *)
Lemma phi_elimination_witness : exists st',
  eliminatePhi 3 diamond_phi [1; 2] diamond_state = Ok st' /\
  ~ tainted (child (graph st')) (fun _ => False) (fun n => n = LV 0) (LV 9) /\
  tainted (child (graph diamond_state)) (fun _ => False) (fun n => n = LV 0) (LV 9).
Proof.
  destruct (phi_elimination_taint diamond_state 3 diamond_phi _ (fun _ => False) (fun n => n = LV 0) diamond_eliminable)
    as (Op0 & Others & st' & E & Hops & _ & _ & Ht).
  - vm_compute. reflexivity.
  - tauto.
  - discriminate.
  - exists st'. split; [exact E|]. split.
    + intros H. apply Ht in H.
      * assert (forall n, tainted (without_predicates 3 (child (graph diamond_state))) (fun _ => False) (fun n => n = LV 0) n ->
          n = LV 0) as Hall.
        { induction 1 as [n Hn|a b _ IH _ [HR Hno]]; [done|]. subst a. exfalso.
          apply (el_graph _ _ _ _ _ diamond_eliminable) in HR. apply list_elem_of_In in HR. simpl in HR.
          destruct HR as [HR|[HR|[HR|[HR|[HR|[HR|[]]]]]]]; try discriminate HR. injection HR as <-. apply Hno. eauto. }
        by apply Hall in H.
      * intros x y _ _. split; [tauto|discriminate].
      * intros [[=]|(x & [=] & _)].
    + apply (taint_flow _ _ _ (SV 3)); [|tauto|by apply (diamond_child 5)].
      apply (taint_flow _ _ _ (LV 0)); [by apply taint_source|tauto|by apply (diamond_child 4)].
Defined.
