(* ===== verification/DepGraphTaint.v ===== *)
(** The taint of the dependency graph (DepGraphDCF.cpp): the flooding of the
    graph from its sources, without contexts, and of one function. *)
From S2P Require Import Prelude IR DepGraph DepGraphPhi.

(** * The tables the flooding reads *)

Record DGraph := {
  dg_graph : Graph;
  funcToLLVMNodes : gmap FuncId (gset ValueId);
  funcToSSANodes : gmap FuncId (gset VarId);
  taintResetSSANodes : gset VarId;
  ssaSources : gset VarId;
  valueSources : gset ValueId;
  callsiteToConds : gmap InstId (gset ValueId)
}.

(** And the sets it fills. *)
Record Taint := {
  taintedLLVMNodes : gset ValueId;
  taintedSSANodes : gset VarId;
  taintedConditions : gset ValueId
}.

Definition no_taint : Taint := {| taintedLLVMNodes := ∅; taintedSSANodes := ∅; taintedConditions := ∅ |}.

Definition set_tainted (L : gset ValueId) (X : gset VarId) (t : Taint) : Taint :=
  {| taintedLLVMNodes := L; taintedSSANodes := X; taintedConditions := taintedConditions t |}.

(** * The loop over the two queues *)

Record Queues := {
  VarToVisit : list VarId;
  ValueToVisit : list ValueId;
  varsTainted : gset VarId;
  valuesTainted : gset ValueId
}.

Section Flood.
Context (g : Graph) (reset : gset VarId) (in_vars in_values : N -> bool).

(** One child: not one the loop leaves out, not one tainted already. *)
Definition taint_child (allowed : N -> bool) (acc : list N * gset N) (D : N) : list N * gset N :=
  if allowed D && negb (bool_decide (D ∈ acc.2)) then (acc.1 ++ [D], {[ D ]} ∪ acc.2) else acc.

Definition taint_vars (ds : gset VarId) (st : Queues) : Queues :=
  let acc := fold_left (taint_child in_vars) (in_order ds) (VarToVisit st, varsTainted st) in
  {| VarToVisit := acc.1; ValueToVisit := ValueToVisit st; varsTainted := acc.2; valuesTainted := valuesTainted st |}.
Definition taint_values (ds : gset ValueId) (st : Queues) : Queues :=
  let acc := fold_left (taint_child in_values) (in_order ds) (ValueToVisit st, valuesTainted st) in
  {| VarToVisit := VarToVisit st; ValueToVisit := acc.1; varsTainted := varsTainted st; valuesTainted := acc.2 |}.

(** The turn of the variables; the flag says that the loop continues at once. *)
Definition visit_var (st : Queues) : bool * Queues :=
  match VarToVisit st with
  | [] => (false, st)
  | x :: q =>
      let st1 := {| VarToVisit := q; ValueToVisit := ValueToVisit st; varsTainted := varsTainted st;
                    valuesTainted := valuesTainted st |} in
      if bool_decide (x ∈ reset) then (true, st1)
      else (false, taint_values (at_key (ssaToLLVMChildren g) x) (taint_vars (at_key (ssaToSSAChildren g) x) st1))
  end.

Definition visit_value (st : Queues) : Queues :=
  match ValueToVisit st with
  | [] => st
  | x :: q =>
      let st1 := {| VarToVisit := VarToVisit st; ValueToVisit := q; varsTainted := varsTainted st;
                    valuesTainted := valuesTainted st |} in
      taint_vars (at_key (llvmToSSAChildren g) x) (taint_values (at_key (llvmToLLVMChildren g) x) st1)
  end.

Fixpoint flood (fuel : nat) (st : Queues) : res Queues :=
  match VarToVisit st, ValueToVisit st with
  | [], [] => Ok st
  | _, _ =>
      match fuel with
      | O => OutOfFuel
      | Datatypes.S fuel' => let '(skip, st1) := visit_var st in flood fuel' (if skip then st1 else visit_value st1)
      end
  end.
End Flood.

(** [computeTaintedValuesContextInsensitive]. *)
Definition computeTaintedValuesContextInsensitive (fuel : nat) (G : DGraph) (t : Taint) : res Taint :=
  let st := {| VarToVisit := in_order (ssaSources G); ValueToVisit := in_order (valueSources G);
               varsTainted := ssaSources G ∪ taintedSSANodes t;
               valuesTainted := valueSources G ∪ taintedLLVMNodes t |} in
  let* r := flood (dg_graph G) (taintResetSSANodes G) (fun _ => true) (fun _ => true) fuel st in
  Ok {| taintedLLVMNodes := valuesTainted r; taintedSSANodes := varsTainted r;
        taintedConditions := taintedConditions t ∪ valuesTainted r |}.

Definition isTaintedValue (t : Taint) (V : ValueId) : bool := bool_decide (V ∈ taintedConditions t).

(** * One function *)

Section Function_.
Context (fuel : nat) (G : DGraph) (inst_function : ValueId -> option FuncId).

Definition llvm_nodes (F : FuncId) : gset ValueId := at_key (funcToLLVMNodes G) F.
Definition ssa_nodes (F : FuncId) : gset VarId := at_key (funcToSSANodes G) F.

(** [floodFunction]; [inst_function] gives the function of an instruction. *)
Definition floodFunction (F : FuncId) (t : Taint) : res Taint :=
  let X := taintedSSANodes t ∪ filter (fun S => S ∈ ssa_nodes F) (ssaSources G) in
  let L := taintedLLVMNodes t ∪ filter (fun S => inst_function S = Some F) (valueSources G) in
  let st := {| VarToVisit := in_order (ssa_nodes F ∩ X); ValueToVisit := in_order (llvm_nodes F ∩ L);
               varsTainted := X; valuesTainted := L |} in
  let* r := flood (dg_graph G) (taintResetSSANodes G) (fun D => bool_decide (D ∈ ssa_nodes F))
    (fun D => bool_decide (D ∈ llvm_nodes F)) fuel st in
  Ok (set_tainted (valuesTainted r) (varsTainted r) t).

(** One variable of the function flooded from: what its children in [To] get. *)
Definition flood_from_var (To : FuncId) (t : Taint) (S : VarId) : Taint :=
  if negb (bool_decide (S ∈ taintedSSANodes t)) then t
  else
    let X := at_key (ssaToSSAChildren (dg_graph G)) S ∩ ssa_nodes To in
    let L := at_key (ssaToLLVMChildren (dg_graph G)) S ∩ llvm_nodes To in
    if bool_decide (S ∈ taintResetSSANodes G) then
      set_tainted (taintedLLVMNodes t ∖ L) (taintedSSANodes t ∖ X) t
    else set_tainted (taintedLLVMNodes t ∪ L) (taintedSSANodes t ∪ X) t.

Definition flood_from_value (To : FuncId) (t : Taint) (S : ValueId) : Taint :=
  if negb (bool_decide (S ∈ taintedLLVMNodes t)) then t
  else
    let X := at_key (llvmToSSAChildren (dg_graph G)) S ∩ ssa_nodes To in
    let L := at_key (llvmToLLVMChildren (dg_graph G)) S ∩ llvm_nodes To in
    set_tainted (taintedLLVMNodes t ∪ L) (taintedSSANodes t ∪ X) t.

Definition floodFunctionFromFunction (To From : FuncId) (t : Taint) : Taint :=
  fold_left (flood_from_value To) (in_order (llvm_nodes From))
    (fold_left (flood_from_var To) (in_order (ssa_nodes From)) t).

(** [resetFunctionTaint], after its assertion. *)
Definition resetFunctionTaint (F : FuncId) (t : Taint) : Taint :=
  set_tainted (taintedLLVMNodes t ∖ llvm_nodes F) (taintedSSANodes t ∖ ssa_nodes F) t.

(** [computeFunctionCSTaintedConds]. *)
Definition call_conds (t : Taint) (I : Instruction) : gset ValueId :=
  match I with CallInst id _ _ _ => at_key (callsiteToConds G) id ∩ taintedLLVMNodes t | _ => ∅ end.

Definition computeFunctionCSTaintedConds (M : Module_) (F : FuncId) (t : Taint) : Taint :=
  {| taintedLLVMNodes := taintedLLVMNodes t; taintedSSANodes := taintedSSANodes t;
     taintedConditions := taintedConditions t ∪ ⋃ (call_conds t <$> instructions M F) |}.
End Function_.

#[local] Open Scope nat_scope.

(** * What the loop computes *)

(** The nodes that are targets of edges, per kind. *)
Definition range (T : Table) : gset N := ⋃ (map_to_list T).*2.
Definition var_targets (g : Graph) : gset VarId := range (ssaToSSAChildren g) ∪ range (llvmToSSAChildren g).
Definition value_targets (g : Graph) : gset ValueId := range (ssaToLLVMChildren g) ∪ range (llvmToLLVMChildren g).
Definition flood_bound (g : Graph) : nat := size (var_targets g) + size (value_targets g).

Lemma at_key_range T k : at_key T k ⊆ range T.
Proof.
  intros x Hx. unfold at_key in Hx. destruct (T !! k) as [X|] eqn:E; [|simpl in Hx; set_solver].
  apply elem_of_union_list. exists X. split; [|done]. apply list_elem_of_fmap. exists (k, X). split; [done|].
  by apply elem_of_map_to_list.
Qed.

Lemma targets g x :
  (at_key (ssaToSSAChildren g) x ⊆ var_targets g) /\ (at_key (llvmToSSAChildren g) x ⊆ var_targets g) /\
  (at_key (ssaToLLVMChildren g) x ⊆ value_targets g) /\ (at_key (llvmToLLVMChildren g) x ⊆ value_targets g).
Proof.
  unfold var_targets, value_targets. pose proof (at_key_range (ssaToSSAChildren g) x).
  pose proof (at_key_range (llvmToSSAChildren g) x). pose proof (at_key_range (ssaToLLVMChildren g) x).
  pose proof (at_key_range (llvmToLLVMChildren g) x). set_solver.
Qed.

Section FloodSpec.
Context (g : Graph) (reset : gset VarId) (in_vars in_values : N -> bool).

Definition allowed (n : Node) : Prop := match n with SV x => in_vars x = true | LV v => in_values v = true end.
Definition resets (n : Node) : Prop := match n with SV x => x ∈ reset | LV _ => False end.
Definition flows (a b : Node) : Prop := child g a b /\ allowed b.

Definition is_tainted (st : Queues) (n : Node) : Prop :=
  match n with SV x => x ∈ varsTainted st | LV v => v ∈ valuesTainted st end.
Definition queued (st : Queues) (n : Node) : Prop :=
  match n with SV x => x ∈ VarToVisit st | LV v => v ∈ ValueToVisit st end.

#[export] Instance is_tainted_dec st n : Decision (is_tainted st n).
Proof. destruct n; unfold is_tainted; apply _. Defined.

(** What still may be pushed, and is to be popped. *)
Definition left_over (st : Queues) : nat :=
  length (VarToVisit st) + length (ValueToVisit st) +
  size (var_targets g ∖ varsTainted st) + size (value_targets g ∖ valuesTainted st).

Lemma taint_children al ds : forall q T U, (forall d, d ∈ ds -> d ∈ U) ->
  exists new, fold_left (taint_child al) ds (q, T) = (q ++ new, list_to_set new ∪ T) /\
    (forall x, x ∈ new <-> x ∈ ds /\ al x = true /\ x ∉ T) /\
    length new + size (U ∖ (list_to_set new ∪ T)) = size (U ∖ T).
Proof.
  induction ds as [|d ds IH]; intros q T U HU; cbn [fold_left].
  - exists []. rewrite app_nil_r, list_to_set_nil, (left_id_L ∅ (∪)). split; [done|]. split; [set_solver|done].
  - assert (forall e, e ∈ ds -> e ∈ U) as HU' by (intros e He; apply HU; by apply list_elem_of_further).
    unfold taint_child at 2. cbn [fst snd].
    destruct (al d && negb (bool_decide (d ∈ T))) eqn:E.
    + apply andb_true_iff in E as [Ea Ed%negb_true_iff%bool_decide_eq_false].
      destruct (IH (q ++ [d]) ({[ d ]} ∪ T) U HU') as (new & E1 & E2 & E3). exists (d :: new). split; [|split].
      * rewrite E1, <- app_assoc, list_to_set_cons. f_equal. set_solver.
      * intros x. rewrite !elem_of_cons, E2. destruct (decide (x = d)) as [->|]; set_solver.
      * replace (list_to_set (d :: new) ∪ T) with (list_to_set new ∪ ({[ d ]} ∪ T)) by set_solver.
        cbn [length]. rewrite Nat.add_succ_l, E3. assert (d ∈ U ∖ T) as Hd.
        { apply elem_of_difference. split; [apply HU, list_elem_of_here|done]. }
        assert (U ∖ T = {[ d ]} ∪ U ∖ ({[ d ]} ∪ T)) as ->.
        { apply set_eq. intros x. destruct (decide (x = d)) as [->|]; set_solver. }
        by rewrite (size_union ({[ d ]} : gset N)), size_singleton by set_solver.
    + destruct (IH q T U HU') as (new & E1 & E2 & E3). exists new. split; [done|]. split; [|done].
      intros x. rewrite E2, elem_of_cons. split; [tauto|]. intros ([->|] & Hx & Hn); [|done]. exfalso.
      rewrite Hx, bool_decide_false in E by done. done.
Qed.

(** One call of either loop over children: [ds] are the new nodes. *)
Record pushes (ds : Node -> Prop) (st st' : Queues) : Prop := {
  pu_tainted : forall n, is_tainted st' n <-> is_tainted st n \/ ds n /\ allowed n;
  pu_queued : forall n, queued st' n <-> queued st n \/ ds n /\ allowed n /\ ~ is_tainted st n;
  pu_left : left_over st' = left_over st
}.

Lemma taint_vars_pushes ds st : ds ⊆ var_targets g ->
  pushes (fun n => exists x, n = SV x /\ x ∈ ds) st (taint_vars in_vars ds st).
Proof.
  intros Hds. unfold taint_vars.
  destruct (taint_children in_vars (in_order ds) (VarToVisit st) (varsTainted st) (var_targets g)) as (new & -> & Hn & Hl).
  { intros d Hd%elem_of_in_order. by apply Hds. }
  setoid_rewrite elem_of_in_order in Hn. split.
  - intros [v|x]; simpl; [naive_solver|]. rewrite elem_of_union, elem_of_list_to_set, Hn.
    split; [naive_solver|]. intros [H|[(y & [= <-] & Hy) Ha]]; [by right|].
    destruct (decide (x ∈ varsTainted st)); tauto.
  - intros [v|x]; simpl; [naive_solver|]. rewrite elem_of_app, Hn. naive_solver.
  - unfold left_over. cbn. rewrite length_app. lia.
Qed.

Lemma taint_values_pushes ds st : ds ⊆ value_targets g ->
  pushes (fun n => exists x, n = LV x /\ x ∈ ds) st (taint_values in_values ds st).
Proof.
  intros Hds. unfold taint_values.
  destruct (taint_children in_values (in_order ds) (ValueToVisit st) (valuesTainted st) (value_targets g)) as (new & -> & Hn & Hl).
  { intros d Hd%elem_of_in_order. by apply Hds. }
  setoid_rewrite elem_of_in_order in Hn. split.
  - intros [x|v]; simpl; [|naive_solver]. rewrite elem_of_union, elem_of_list_to_set, Hn.
    split; [naive_solver|]. intros [H|[(y & [= <-] & Hy) Ha]]; [by right|].
    destruct (decide (x ∈ valuesTainted st)); tauto.
  - intros [x|v]; simpl; [|naive_solver]. rewrite elem_of_app, Hn. naive_solver.
  - unfold left_over. cbn. rewrite length_app. lia.
Qed.

Lemma pushes_trans ds ds' st st1 st2 :
  (forall n, ds n -> ds' n -> False) ->
  pushes ds st st1 -> pushes ds' st1 st2 -> pushes (fun n => ds n \/ ds' n) st st2.
Proof.
  intros Hd [T1 Q1 L1] [T2 Q2 L2]. split; [intros n; rewrite T2, T1; tauto| |congruence].
  intros n. rewrite Q2, Q1, T1. specialize (Hd n). tauto.
Qed.

Lemma pushes_ext ds ds' st st' : (forall n, ds n <-> ds' n) -> pushes ds st st' -> pushes ds' st st'.
Proof. intros Hd [T Q L]. split; [intros n; rewrite T, Hd; tauto|intros n; rewrite Q, Hd; tauto|done]. Qed.

(** The children of a variable, and of a value. *)
Lemma var_children x st :
  pushes (child g (SV x)) st
    (taint_values in_values (at_key (ssaToLLVMChildren g) x) (taint_vars in_vars (at_key (ssaToSSAChildren g) x) st)).
Proof.
  destruct (targets g x) as (H1 & _ & H2 & _).
  eapply pushes_ext; [|eapply pushes_trans; [|by apply taint_vars_pushes|by apply taint_values_pushes]].
  - intros [v|y]; simpl; naive_solver.
  - naive_solver.
Qed.

Lemma value_children v st :
  pushes (child g (LV v)) st
    (taint_vars in_vars (at_key (llvmToSSAChildren g) v) (taint_values in_values (at_key (llvmToLLVMChildren g) v) st)).
Proof.
  destruct (targets g v) as (_ & H1 & _ & H2).
  eapply pushes_ext; [|eapply pushes_trans; [|by apply taint_values_pushes|by apply taint_vars_pushes]].
  - intros [w|y]; simpl; naive_solver.
  - naive_solver.
Qed.

(** The node [p] is taken from its queue. *)
Record popped (p : Node) (st st1 : Queues) : Prop := {
  po_in : queued st p;
  po_tainted : forall n, is_tainted st1 n <-> is_tainted st n;
  po_queued : forall n, queued st n <-> queued st1 n \/ n = p;
  po_left : S (left_over st1) = left_over st
}.

Definition visited (p : Node) (st st' : Queues) : Prop :=
  exists st1, popped p st st1 /\ (resets p /\ st' = st1 \/ ~ resets p /\ pushes (child g p) st1 st').

Lemma visit_var_visited x q st : VarToVisit st = x :: q ->
  visited (SV x) st (visit_var g reset in_vars in_values st).2.
Proof.
  intros E. unfold visit_var. rewrite E.
  exists {| VarToVisit := q; ValueToVisit := ValueToVisit st; varsTainted := varsTainted st; valuesTainted := valuesTainted st |}.
  split.
  - split; simpl; [rewrite E; apply list_elem_of_here|by intros []| |unfold left_over; cbn; rewrite E; cbn; lia].
    intros [v|y]; simpl; [naive_solver|]. rewrite E, elem_of_cons. naive_solver.
  - case_bool_decide; [by left|]. right. split; [done|]. apply var_children.
Qed.

Lemma visit_value_visited v q st : ValueToVisit st = v :: q -> visited (LV v) st (visit_value g in_vars in_values st).
Proof.
  intros E. unfold visit_value. rewrite E.
  exists {| VarToVisit := VarToVisit st; ValueToVisit := q; varsTainted := varsTainted st; valuesTainted := valuesTainted st |}.
  split.
  - split; simpl; [rewrite E; apply list_elem_of_here|by intros []| |unfold left_over; cbn; rewrite E; cbn; lia].
    intros [w|y]; simpl; [|naive_solver]. rewrite E, elem_of_cons. naive_solver.
  - right. split; [intros []|]. apply value_children.
Qed.

Lemma visited_left p st st' : visited p st st' -> S (left_over st') = left_over st.
Proof. intros (st1 & [_ _ _ L] & [[_ ->]|[_ [_ _ L']]]); congruence. Qed.

(** * The invariant *)

Section Invariant.
Context (T0 start : Node -> Prop).

Local Abbreviation reached := (tainted flows resets start).

Record flooding (st : Queues) : Prop := {
  fl_start : forall n, T0 n -> is_tainted st n;
  fl_queue : forall n, queued st n -> is_tainted st n /\ reached n;
  fl_sound : forall n, is_tainted st n -> T0 n \/ reached n;
  fl_done : forall n, is_tainted st n -> start n \/ allowed n ->
    queued st n \/ resets n \/ forall m, flows n m -> is_tainted st m
}.

Lemma visited_flooding p st st' : visited p st st' -> flooding st -> flooding st'.
Proof.
  intros (st1 & [Pin PT PQ _] & Hcase) [H1 H2 H3 H4]. destruct Hcase as [[Hr ->]|[Hr [QT QQ _]]].
  - split; [intros n Hn; by apply PT, H1| |intros n Hn; by apply H3, PT|].
    + intros n Hn. rewrite PT. apply H2, PQ. by left.
    + intros n Hn%PT Ha. setoid_rewrite PT. destruct (H4 n Hn Ha) as [[Hq|Hq]%PQ|Hc]; [by left| |by right].
      right. left. by rewrite Hq.
  - assert (forall n, child g p n -> allowed n -> reached n) as Hnew.
    { intros n Hc Ha. apply (taint_flow _ _ _ p); [by apply H2|done|by split]. }
    split.
    + intros n Hn. apply QT. left. by apply PT, H1.
    + intros n [Hq|(Hc & Ha & _)]%QQ.
      * rewrite QT, PT. destruct (H2 n) as [? ?]; [apply PQ; by left|]. tauto.
      * split; [apply QT; by right|by apply Hnew].
    + intros n [Hn|[Hc Ha]]%QT; [by apply H3, PT|right; by apply Hnew].
    + intros n Hn Ha. setoid_rewrite QQ. setoid_rewrite QT. destruct (decide (n = p)) as [->|Hnp].
      * right. right. intros m [Hc Hm]. by right.
      * destruct (decide (is_tainted st1 n)) as [Ht|Ht]; [|left; apply QT in Hn as [?|?]; tauto].
        destruct (H4 n (proj1 (PT n) Ht) Ha) as [[Hq|Hq]%PQ|[Hc|Hc]]; [by do 2 left|done|by (right; left)|].
        right. right. intros m Hm. left. apply PT. by apply Hc.
Qed.

Lemma flooding_end st : VarToVisit st = [] -> ValueToVisit st = [] -> (forall n, start n -> T0 n) -> flooding st ->
  forall n, is_tainted st n <-> T0 n \/ reached n.
Proof.
  intros Ex Ev Hs [H1 _ H3 H4] n. split; [apply H3|]. intros [Hn|Hn]; [by apply H1|].
  assert (forall n, ~ queued st n) as Hq by (intros []; simpl; rewrite ?Ex, ?Ev; apply not_elem_of_nil).
  assert (is_tainted st n /\ (start n \/ allowed n)) as [? _]; [|done].
  induction Hn as [n Hn|a b _ [IH1 IH2] Hr Hab]; [by eauto|].
  destruct (H4 a IH1 IH2) as [?|[?|Hc]]; [by destruct (Hq a)|done|].
  split; [by apply Hc|right; apply Hab].
Qed.

(** One turn of the loop. *)
Lemma turn st : VarToVisit st <> [] \/ ValueToVisit st <> [] -> flooding st ->
  let '(skip, st1) := visit_var g reset in_vars in_values st in
  let st' := if skip then st1 else visit_value g in_vars in_values st1 in
  flooding st' /\ left_over st' < left_over st.
Proof.
  intros Hne Hst. destruct (visit_var g reset in_vars in_values st) as [skip st1] eqn:E.
  assert (flooding st1 /\ left_over st1 <= left_over st /\ (VarToVisit st <> [] -> left_over st1 < left_over st) /\
    (VarToVisit st = [] -> skip = false /\ st1 = st)) as (F1 & L1 & L1' & Es).
  { destruct (VarToVisit st) as [|x q] eqn:Ex.
    - unfold visit_var in E. rewrite Ex in E. injection E as <- <-. split; [done|]. split; [lia|]. by split.
    - pose proof (visit_var_visited x q st Ex) as Hv. rewrite E in Hv. simpl in Hv.
      pose proof (visited_left _ _ _ Hv). split; [by eapply visited_flooding|]. repeat split; try lia; done. }
  destruct skip.
  - split; [done|]. apply L1'. intros Ex. by destruct (Es Ex).
  - destruct (ValueToVisit st1) as [|v r] eqn:Ev.
    + unfold visit_value. rewrite Ev. split; [done|]. apply L1'. intros Ex. destruct (Es Ex) as [_ ->]. tauto.
    + pose proof (visit_value_visited v r st1 Ev) as Hv. pose proof (visited_left _ _ _ Hv).
      split; [by eapply visited_flooding|lia].
Qed.

Lemma flood_spec fuel : forall st, (forall n, start n -> T0 n) -> left_over st <= fuel -> flooding st ->
  exists st', flood g reset in_vars in_values fuel st = Ok st' /\
    forall n, is_tainted st' n <-> T0 n \/ reached n.
Proof.
  induction fuel as [|fuel IH]; intros st Hs Hf Hst.
  - exists st. unfold left_over in Hf.
    destruct (VarToVisit st) eqn:Ex, (ValueToVisit st) eqn:Ev; simpl in Hf; try lia.
    unfold flood. rewrite Ex, Ev. split; [done|]. by apply flooding_end.
  - assert (VarToVisit st = [] /\ ValueToVisit st = [] \/ VarToVisit st <> [] \/ ValueToVisit st <> []) as [[Ex Ev]|Hne].
    { destruct (VarToVisit st), (ValueToVisit st); [by left|by right; right|by right; left..]. }
    + exists st. simpl. rewrite Ex, Ev. split; [done|]. by apply flooding_end.
    + pose proof (turn st Hne Hst) as Ht. assert (flood g reset in_vars in_values (S fuel) st =
        let '(skip, st1) := visit_var g reset in_vars in_values st in
        flood g reset in_vars in_values fuel (if skip then st1 else visit_value g in_vars in_values st1)) as ->.
      { cbn [flood]. destruct (VarToVisit st), (ValueToVisit st); try done. destruct Hne as [Hn|Hn]; by destruct Hn. }
      destruct (visit_var g reset in_vars in_values st) as [skip st1]. cbv zeta in Ht. destruct Ht. apply IH; [done|lia|done].
Qed.
End Invariant.
End FloodSpec.

(** * The whole graph *)

Definition is_source (G : DGraph) (n : Node) : Prop :=
  match n with SV x => x ∈ ssaSources G | LV v => v ∈ valueSources G end.

(** The taint the analysis is about: what flows from a source along the edges,
    not out of a reset node. *)
Definition source_taint (G : DGraph) : Node -> Prop :=
  tainted (child (dg_graph G)) (resets (taintResetSSANodes G)) (is_source G).

Definition has_taint (t : Taint) (n : Node) : Prop :=
  match n with SV x => x ∈ taintedSSANodes t | LV v => v ∈ taintedLLVMNodes t end.

Lemma left_over_bound g st X L :
  VarToVisit st = in_order X -> ValueToVisit st = in_order L -> left_over g st <= size X + size L + flood_bound g.
Proof.
  intros Ex El. unfold left_over, flood_bound. rewrite Ex, El, !length_in_order.
  assert (size (var_targets g ∖ varsTainted st) <= size (var_targets g)) by (apply subseteq_size; set_solver).
  assert (size (value_targets g ∖ valuesTainted st) <= size (value_targets g)) by (apply subseteq_size; set_solver).
  lia.
Qed.

(** Without contexts: what the flooding taints. *)
Lemma flooding_taint fuel G :
  size (ssaSources G) + size (valueSources G) + flood_bound (dg_graph G) <= fuel ->
  exists t, computeTaintedValuesContextInsensitive fuel G no_taint = Ok t /\
    (forall n, has_taint t n <-> source_taint G n) /\
    (forall v, isTaintedValue t v = true <-> source_taint G (LV v)).
Proof.
  intros Hf. unfold computeTaintedValuesContextInsensitive.
  set (st := {| VarToVisit := in_order (ssaSources G); ValueToVisit := _; varsTainted := _; valuesTainted := _ |}).
  destruct (flood_spec (dg_graph G) (taintResetSSANodes G) (fun _ => true) (fun _ => true) (is_source G) (is_source G) fuel st)
    as (r & E & Hr).
  - done.
  - etrans; [by apply left_over_bound|done].
  - assert (forall n, is_tainted st n <-> is_source G n) as Ht by (intros []; simpl; set_solver).
    assert (forall n, queued st n <-> is_source G n) as Hq by (intros []; apply elem_of_in_order).
    split; intros n; rewrite ?Ht, ?Hq; auto using taint_source.
  - rewrite E. eexists. split; [reflexivity|].
    assert (forall n, is_tainted r n <-> source_taint G n) as Hn.
    { intros n. rewrite Hr. unfold source_taint.
      rewrite (tainted_ext (flows (dg_graph G) (fun _ => true) (fun _ => true)) (child (dg_graph G))).
      - split; [intros [?|?]; [by apply taint_source|done]|by right].
      - intros a b. unfold flows. destruct b; simpl; tauto. }
    split; [intros n; rewrite <- Hn; by destruct n|]. intros v. unfold isTaintedValue. rewrite bool_decide_eq_true, <- Hn. simpl. set_solver.
Qed.

(** More fuel does not change the result. *)
Lemma flood_more g reset iv il fuel : forall fuel' st r, fuel <= fuel' -> flood g reset iv il fuel st = Ok r -> flood g reset iv il fuel' st = Ok r.
Proof.
  induction fuel as [|fuel IH]; intros fuel' st r Hle.
  - destruct fuel'; simpl; destruct (VarToVisit st), (ValueToVisit st); done.
  - destruct fuel' as [|fuel']; [lia|]. simpl.
    destruct (VarToVisit st), (ValueToVisit st); try done;
      destruct (visit_var g reset iv il st) as [skip st1]; intros H; apply (IH fuel'); try lia; exact H.
Qed.

Lemma insensitive_more fuel fuel' G t t' : fuel <= fuel' -> computeTaintedValuesContextInsensitive fuel G t = Ok t' ->
  computeTaintedValuesContextInsensitive fuel' G t = Ok t'.
Proof.
  intros Hle. unfold computeTaintedValuesContextInsensitive. intros (r & E & H)%rbind_ok. by rewrite (flood_more _ _ _ _ _ _ _ _ Hle E).
Qed.

(** C14 (taint). Without contexts the flooding returns, and the tainted nodes --
    the tainted conditions among them -- are those a source reaches without
    going through a reset node. *)
Theorem context_insensitive_taint fuel G :
  size (ssaSources G) + size (valueSources G) + flood_bound (dg_graph G) <= fuel ->
  exists t, computeTaintedValuesContextInsensitive fuel G no_taint = Ok t /\
    (forall n, has_taint t n <-> source_taint G n) /\
    (forall v, isTaintedValue t v = true <-> source_taint G (LV v)).
Proof. apply flooding_taint. Qed.

(** * One function *)

Section FunctionSpec.
Context (G : DGraph) (inst_function : ValueId -> option FuncId).

Definition in_function (F : FuncId) (n : Node) : Prop :=
  match n with SV x => x ∈ ssa_nodes G F | LV v => v ∈ llvm_nodes G F end.

(** A source [floodFunction] takes for a source of [F]. *)
Definition source_of (F : FuncId) (n : Node) : Prop :=
  is_source G n /\ match n with SV x => x ∈ ssa_nodes G F | LV v => inst_function v = Some F end.

Lemma floodFunction_spec fuel F t :
  size (ssa_nodes G F) + size (llvm_nodes G F) + flood_bound (dg_graph G) <= fuel ->
  exists t', floodFunction fuel G inst_function F t = Ok t' /\ taintedConditions t' = taintedConditions t /\
    forall n, has_taint t' n <-> has_taint t n \/ source_of F n \/
      tainted (fun a b => child (dg_graph G) a b /\ in_function F b) (resets (taintResetSSANodes G))
        (fun n => in_function F n /\ (has_taint t n \/ source_of F n)) n.
Proof.
  intros Hf. unfold floodFunction.
  set (st := {| VarToVisit := _; ValueToVisit := _; varsTainted := _; valuesTainted := _ |}).
  set (T0 := fun n => has_taint t n \/ source_of F n).
  destruct (flood_spec (dg_graph G) (taintResetSSANodes G) (fun D => bool_decide (D ∈ ssa_nodes G F))
    (fun D => bool_decide (D ∈ llvm_nodes G F)) T0 (fun n => in_function F n /\ T0 n) fuel st) as (r & E & Hr).
  - tauto.
  - etrans; [by apply left_over_bound|]. etrans; [|exact Hf].
    assert (size (ssa_nodes G F ∩ varsTainted st) <= size (ssa_nodes G F)) by (apply subseteq_size; set_solver).
    assert (size (llvm_nodes G F ∩ valuesTainted st) <= size (llvm_nodes G F)) by (apply subseteq_size; set_solver).
    simpl in *. lia.
  - assert (forall n, is_tainted st n <-> T0 n) as Ht.
    { intros []; unfold T0, source_of; simpl; rewrite elem_of_union, elem_of_filter; tauto. }
    assert (forall n, queued st n <-> in_function F n /\ T0 n) as Hq.
    { intros n. rewrite <- Ht. destruct n; simpl; rewrite elem_of_in_order; apply elem_of_intersection. }
    assert (forall n, allowed (fun D => bool_decide (D ∈ ssa_nodes G F)) (fun D => bool_decide (D ∈ llvm_nodes G F)) n <->
      in_function F n) as Ha by (intros []; apply bool_decide_eq_true).
    split; intros n; rewrite ?Ht, ?Hq, ?Ha; [done|..|by left|].
    + intros [? ?]. split; [done|]. by apply taint_source.
    + tauto.
  - rewrite E. eexists. split; [reflexivity|]. split; [done|]. intros n.
    transitivity (is_tainted r n); [by destruct n|]. rewrite Hr.
    rewrite (tainted_ext _ (fun a b => child (dg_graph G) a b /\ in_function F b)); [unfold T0; tauto|].
    intros a b. unfold flows. destruct b; simpl; rewrite bool_decide_eq_true; tauto.
Qed.
End FunctionSpec.

(** In the diamond, before the elimination of its phi, the condition taints the
    use. *)
Lemma context_insensitive_witness : exists t,
  computeTaintedValuesContextInsensitive 20 {| dg_graph := graph diamond_state; funcToLLVMNodes := ∅; funcToSSANodes := ∅;
    taintResetSSANodes := ∅; ssaSources := ∅; valueSources := {[ 0%N ]}; callsiteToConds := ∅ |} no_taint = Ok t /\
  isTaintedValue t 9 = true /\ isTaintedValue t 1 = false.
Proof.
  destruct (context_insensitive_taint 20 {| dg_graph := graph diamond_state; funcToLLVMNodes := ∅; funcToSSANodes := ∅;
    taintResetSSANodes := ∅; ssaSources := ∅; valueSources := {[ 0%N ]}; callsiteToConds := ∅ |}) as (t & E & Hn & Hc).
  - vm_compute. lia.
  - exists t. split; [exact E|]. split.
    + apply Hc. apply (taint_flow _ _ _ (SV 3)); [|intros H; simpl in H; set_solver|by apply (diamond_child 5)].
      apply (taint_flow _ _ _ (LV 0)); [apply taint_source; simpl; set_solver|intros []|by apply (diamond_child 4)].
    + vm_compute in E. injection E as <-. reflexivity.
Defined.
