(* ===== verification/DepGraphContext.v ===== *)
(** The taint of the dependency graph computed with contexts: the traversal of
    the call graph with a stack, which floods a function from the one it comes
    from and forgets the taint of a function it leaves. *)
From S2P Require Import Prelude IR Samples PTACallGraph DepGraph DepGraphPhi DepGraphTaint.

(** The children of a node of the call graph it has visited. *)
Abbreviation Visited := (gmap CGNode (gset CGNode)).

(** The local variables of [computeTaintedValuesCSForEntry]; the top of the
    stack first. *)
Record CSState := {
  stack : list CGNode;
  Node2VisitedChildrenMap : Visited;
  GoingDown : bool;
  Prev : option FuncId;
  csTaint : Taint
}.

Section Context_.
Context (fuel : nat) (M : Module_) (CG : PTACallGraph) (G : DGraph) (inst_function : ValueId -> option FuncId).

(** The loop over the callees: whether one was not visited, and the one pushed. *)
Fixpoint first_unvisited (cs : list CGNode) (vis : gset CGNode) : bool * option CGNode * gset CGNode :=
  match cs with
  | [] => (false, None, vis)
  | CalleeNode :: r =>
      if bool_decide (CalleeNode ∈ vis) then first_unvisited r vis
      else
        let vis' := {[ CalleeNode ]} ∪ vis in
        match getFunction CalleeNode with
        | Some _ => (true, Some CalleeNode, vis')
        | None => let '(_, p, v) := first_unvisited r vis' in (true, p, v)
        end
  end.

(** What the loop does to the taint when it comes to [F]. *)
Definition enter (F : FuncId) (st : CSState) : res Taint :=
  let t := match Prev st with Some P => floodFunctionFromFunction G F P (csTaint st) | None => csTaint st end in
  let* t1 := floodFunction fuel G inst_function F t in
  let t2 := computeFunctionCSTaintedConds G M F t1 in
  match Prev st with
  | Some P =>
      if GoingDown st then Ok t2
      else let* _ := guard (isReachableFromEntry CG P) in Ok (resetFunctionTaint G P t2)
  | None => Ok t2
  end.

(** One turn, at the node [N] on top of [rest]. *)
Definition cs_step (N : CGNode) (rest : list CGNode) (st : CSState) : res CSState :=
  let* F := of_option (getFunction N) in
  let* t := enter F st in
  let '(FoundChildren, pushed, vis) :=
    first_unvisited (callees CG N) (default ∅ (Node2VisitedChildrenMap st !! N)) in
  Ok {| stack := if FoundChildren then option_list pushed ++ N :: rest else rest;
        Node2VisitedChildrenMap := <[N := vis]> (Node2VisitedChildrenMap st);
        GoingDown := FoundChildren;
        Prev := Some F;
        csTaint := t |}.

Fixpoint cs_loop (turns : nat) (st : CSState) : res Taint :=
  match stack st with
  | [] => Ok (csTaint st)
  | N :: rest =>
      match turns with
      | O => OutOfFuel
      | S turns' => let* st' := cs_step N rest st in cs_loop turns' st'
      end
  end.

Definition computeTaintedValuesCSForEntry (turns : nat) (Entry : CGNode) (t : Taint) : res Taint :=
  cs_loop turns {| stack := [Entry]; Node2VisitedChildrenMap := ∅; GoingDown := true; Prev := None; csTaint := t |}.

Definition computeTaintedValuesContextSensitive (turns : nat) (t : Taint) : res Taint :=
  let* Entry := of_option (Root CG) in
  match Entry with
  | Some F => computeTaintedValuesCSForEntry turns (FnNode (Some F)) t
  | None => rfold (fun t N => computeTaintedValuesCSForEntry turns N t) (callees CG (FnNode None)) t
  end.
End Context_.

#[local] Open Scope nat_scope.

(** The call records, as pairs of nodes. *)
Definition call_edges (CG : PTACallGraph) : list (CGNode * CGNode) :=
  map_to_list (FunctionMap CG) ≫= (fun p => (fun r : CallRecord => (FnNode p.1, r.2)) <$> p.2).

Lemma elem_of_call_edges CG n c : c ∈ callees CG n -> (n, c) ∈ call_edges CG.
Proof.
  intros Hc. destruct n as [F|]; [|by apply not_elem_of_nil in Hc]. simpl in Hc.
  destruct (FunctionMap CG !! F) as [rs|] eqn:E; [|by apply not_elem_of_nil in Hc]. simpl in Hc.
  apply list_elem_of_fmap in Hc as (r & -> & Hr). unfold call_edges. apply list_elem_of_bind. exists (F, rs).
  split; [|by apply elem_of_map_to_list]. apply list_elem_of_fmap. exists r. done.
Qed.

(** * The callees *)

Lemma first_unvisited_spec cs : forall vis,
  let '(found, pushed, vis') := first_unvisited cs vis in
  vis ⊆ vis' /\ (found = false -> vis' = vis) /\ (found = true -> exists c, c ∈ cs /\ (c ∉ vis) /\ c ∈ vis') /\
  (forall c, pushed = Some c -> c ∈ cs /\ is_Some (getFunction c)).
Proof.
  induction cs as [|c cs IH]; intros vis; cbn [first_unvisited]; [done|].
  assert (forall e, e ∈ cs -> e ∈ c :: cs) as Hcs by (intros; by apply list_elem_of_further).
  case_bool_decide as Hc.
  - specialize (IH vis). destruct (first_unvisited cs vis) as [[found pushed] vis'].
    destruct IH as (H1 & H2 & H3 & H4). split; [done|]. split; [done|]. split.
    + intros Hf. destruct (H3 Hf) as (e & ? & ? & ?). eauto.
    + intros e He. destruct (H4 e He). eauto.
  - destruct (getFunction c) eqn:EF.
    + split; [set_solver|]. split; [done|]. split; [|intros e [= <-]; split; [apply list_elem_of_here|by rewrite EF]].
      exists c. split; [apply list_elem_of_here|]. split; [done|set_solver].
    + specialize (IH ({[ c ]} ∪ vis)). destruct (first_unvisited cs ({[ c ]} ∪ vis)) as [[found pushed] vis'].
      destruct IH as (H1 & _ & _ & H4). split; [set_solver|]. split; [done|]. split.
      * exists c. split; [apply list_elem_of_here|]. split; [done|set_solver].
      * intros e He. destruct (H4 e He). eauto.
Qed.

(** * Taint with contexts is taint without *)

Section Sound.
Context (fuel : nat) (M : Module_) (CG : PTACallGraph) (G : DGraph) (inst_function : ValueId -> option FuncId).

Definition sound (t : Taint) : Prop :=
  (forall n, has_taint t n -> source_taint G n) /\ (forall v, v ∈ taintedConditions t -> source_taint G (LV v)).

Lemma sound_flow a b t : sound t -> has_taint t a -> ~ resets (taintResetSSANodes G) a -> child (dg_graph G) a b ->
  source_taint G b.
Proof. intros [Ht _] Ha Hr Hc. eapply taint_flow; [by apply Ht|done|done]. Qed.

Lemma flood_from_var_sound To t x : sound t -> sound (flood_from_var G To t x).
Proof.
  intros Ht. pose proof Ht as [H1 H2]. unfold flood_from_var. case_bool_decide as Hx; [|done]. simpl.
  case_bool_decide as Hr.
  - split; [|done]. intros [v|y] Hn; simpl in Hn; apply H1; simpl; set_solver.
  - split; [|done]. intros [v|y] Hn; simpl in Hn; apply elem_of_union in Hn as [Hn|[Hn _]%elem_of_intersection].
    + by apply H1.
    + by apply (sound_flow (SV x) (LV v) t Ht).
    + by apply H1.
    + by apply (sound_flow (SV x) (SV y) t Ht).
Qed.

Lemma flood_from_value_sound To t v : sound t -> sound (flood_from_value G To t v).
Proof.
  intros Ht. pose proof Ht as [H1 H2]. unfold flood_from_value. case_bool_decide as Hx; [|done]. simpl.
  split; [|done]. intros [w|y] Hn; simpl in Hn; apply elem_of_union in Hn as [Hn|[Hn _]%elem_of_intersection].
  - by apply H1.
  - by apply (sound_flow (LV v) (LV w) t Ht); [|intros []|].
  - by apply H1.
  - by apply (sound_flow (LV v) (SV y) t Ht); [|intros []|].
Qed.

Lemma fold_sound (f : Taint -> N -> Taint) l : (forall t x, sound t -> sound (f t x)) ->
  forall t, sound t -> sound (fold_left f l t).
Proof. intros Hf. induction l as [|x l IH]; simpl; [done|]. intros t Ht. by apply IH, Hf. Qed.

Lemma floodFunctionFromFunction_sound To From t : sound t -> sound (floodFunctionFromFunction G To From t).
Proof. intros Ht. apply fold_sound; [apply flood_from_value_sound|]. apply fold_sound; [apply flood_from_var_sound|done]. Qed.

Lemma reset_sound F t : sound t -> sound (resetFunctionTaint G F t).
Proof. intros [H1 H2]. split; [|done]. intros [v|x] Hn; simpl in Hn; apply H1; simpl; set_solver. Qed.

Lemma conds_sound F t : sound t -> sound (computeFunctionCSTaintedConds G M F t).
Proof.
  intros [H1 H2]. split; [intros [v|x] Hn; by apply H1|]. intros v Hv. simpl in Hv.
  apply elem_of_union in Hv as [Hv|(X & HX & Hv)%elem_of_union_list]; [by apply H2|].
  apply list_elem_of_fmap in HX as (I & -> & _). specialize (H1 (LV v)). destruct I; simpl in *; set_solver.
Qed.

Hypothesis Hfuel : forall F, size (ssa_nodes G F) + size (llvm_nodes G F) + flood_bound (dg_graph G) <= fuel.

Lemma floodFunction_sound F t : sound t -> exists t', floodFunction fuel G inst_function F t = Ok t' /\ sound t'.
Proof.
  intros [H1 H2]. destruct (floodFunction_spec G inst_function fuel F t (Hfuel F)) as (t' & E & Ec & Ht).
  exists t'. split; [done|]. split; [|by rewrite Ec].
  assert (forall n, source_of G inst_function F n -> source_taint G n) as Hs by (intros n [Hn _]; by apply taint_source).
  intros n [Hn|[Hn|Hn]]%Ht; [by apply H1|by apply Hs|].
  induction Hn as [n [_ [Hn|Hn]]|a b _ IH Hr [Hab _]]; [by apply H1|by apply Hs|]. by eapply taint_flow.
Qed.

(** * The traversal *)

Hypothesis Hclosed : forall N c, reachable_node CG N -> c ∈ callees CG N -> is_Some (getFunction c) -> reachable_node CG c.

Lemma enter_sound F st : sound (csTaint st) -> (forall P, Prev st = Some P -> isReachableFromEntry CG P = true) ->
  exists t, enter fuel M CG G inst_function F st = Ok t /\ sound t.
Proof.
  intros Ht HP. unfold enter.
  set (t0 := match Prev st with Some P => _ | None => _ end).
  assert (sound t0) as H0 by (unfold t0; destruct (Prev st); [by apply floodFunctionFromFunction_sound|done]).
  destruct (floodFunction_sound F t0 H0) as (t1 & -> & H1). simpl. apply (conds_sound F) in H1.
  destruct (Prev st) as [P|]; [|eauto]. destruct (GoingDown st); [eauto|].
  rewrite (HP P eq_refl). simpl. eexists. split; [reflexivity|]. by apply reset_sound.
Qed.

(** The call records not followed yet. *)
Definition unvisited (vis : Visited) : nat :=
  length (List.filter (fun e => negb (bool_decide (e.2 ∈ default ∅ (vis !! e.1)))) (call_edges CG)).

Definition turns_left (st : CSState) : nat := 2 * unvisited (Node2VisitedChildrenMap st) + length (stack st).

Record traversing (st : CSState) : Prop := {
  tr_sound : sound (csTaint st);
  tr_stack : forall N, N ∈ stack st -> reachable_node CG N;
  tr_prev : forall P, Prev st = Some P -> isReachableFromEntry CG P = true
}.

Lemma unvisited_insert (vis : Visited) N X : default ∅ (vis !! N) ⊆ X ->
  unvisited (<[N := X]> vis) <= unvisited vis /\
  ((exists c, c ∈ callees CG N /\ (c ∉ default ∅ (vis !! N)) /\ c ∈ X) -> unvisited (<[N := X]> vis) < unvisited vis).
Proof.
  intros HX. assert (forall e, negb (bool_decide (e.2 ∈ default ∅ (<[N := X]> vis !! e.1))) = true ->
    negb (bool_decide (e.2 ∈ default ∅ (vis !! e.1))) = true) as Himp.
  { intros [n c]. rewrite !negb_true_iff, !bool_decide_eq_false. simpl. destruct (decide (n = N)) as [->|].
    - rewrite lookup_insert_eq. simpl. set_solver.
    - by rewrite lookup_insert_ne. }
  split; [apply filter_length_mono; intros; by apply Himp|].
  intros (c & Hc & Hn & Hin). apply (filter_length_lt _ _ _ (N, c)).
  - intros; by apply Himp.
  - by apply list_elem_of_In, elem_of_call_edges.
  - rewrite lookup_insert_eq. simpl. by rewrite bool_decide_true.
  - simpl. by rewrite bool_decide_false.
Qed.

Lemma cs_step_traversing N rest st : stack st = N :: rest -> traversing st ->
  exists st', cs_step fuel M CG G inst_function N rest st = Ok st' /\ traversing st' /\ turns_left st' < turns_left st.
Proof.
  intros Es [Ht Hs HP]. destruct (Hs N) as (F & EF & HF); [rewrite Es; apply list_elem_of_here|].
  destruct (enter_sound F st Ht HP) as (t & Et & Hst). unfold cs_step. rewrite EF. simpl. rewrite Et. simpl.
  set (vis := default ∅ (Node2VisitedChildrenMap st !! N)).
  pose proof (first_unvisited_spec (callees CG N) vis) as Hf.
  destruct (first_unvisited (callees CG N) vis) as [[found pushed] vis']. destruct Hf as (H1 & H2 & H3 & H4).
  eexists. split; [reflexivity|].
  assert (forall K, K ∈ rest -> reachable_node CG K) as Hrest.
  { intros K HK. apply Hs. rewrite Es. by apply list_elem_of_further. }
  destruct (unvisited_insert (Node2VisitedChildrenMap st) N vis' H1) as [U1 U2]. split; [split|].
  - done.
  - simpl. intros K HK. destruct found; [|by apply Hrest].
    apply elem_of_app in HK as [HK|[->|HK]%elem_of_cons]; [|by exists F|by apply Hrest].
    destruct pushed as [c|]; [|by apply not_elem_of_nil in HK]. apply list_elem_of_singleton in HK as ->.
    destruct (H4 c eq_refl). apply (Hclosed N); [by exists F|done|done].
  - by intros P [= <-].
  - unfold turns_left. cbn [stack Node2VisitedChildrenMap]. rewrite Es. destruct found.
    + specialize (U2 (H3 eq_refl)). destruct pushed; simpl; lia.
    + simpl. lia.
Qed.

Lemma cs_loop_traversing turns : forall st, traversing st -> turns_left st <= turns ->
  exists t, cs_loop fuel M CG G inst_function turns st = Ok t /\ sound t.
Proof.
  induction turns as [|turns IH]; intros st Hst Hl.
  - unfold turns_left in Hl. simpl. destruct (stack st) eqn:Es; simpl in Hl; [|lia].
    eexists. split; [reflexivity|]. apply Hst.
  - simpl. destruct (stack st) as [|N rest] eqn:Es; [eexists; split; [reflexivity|apply Hst]|].
    destruct (cs_step_traversing N rest st Es Hst) as (st' & -> & Hst' & Hlt). simpl. apply IH; [done|lia].
Qed.

Lemma entry_sound turns N t : 2 * length (call_edges CG) < turns -> reachable_node CG N -> sound t ->
  exists t', computeTaintedValuesCSForEntry fuel M CG G inst_function turns N t = Ok t' /\ sound t'.
Proof.
  intros Hturns HN Ht. apply cs_loop_traversing.
  - split; [done| |done]. intros K HK. by apply list_elem_of_singleton in HK as ->.
  - unfold turns_left, unvisited. cbn [stack Node2VisitedChildrenMap length].
    pose proof (List.filter_length_le (fun e : CGNode * CGNode => negb (bool_decide (e.2 ∈ default ∅ ((∅ : Visited) !! e.1)))) (call_edges CG)). lia.
Qed.
End Sound.

Lemma no_taint_sound G : sound G no_taint.
Proof. split; [intros [v|x] Hn; simpl in Hn; set_solver|]. intros v Hv. simpl in Hv. set_solver. Qed.

(** C19 (contexts). On the call graph of the module, the traversal with contexts
    ends within twice the call records plus one turns, breaks no assertion, and
    every condition it calls tainted is tainted without contexts. *)
Theorem context_sensitive_sound (M : Module_) {FI : FunctionInfo} {AA : PointsTo} graph_fuel fuel turns
    (G : DGraph) (inst_function : ValueId -> option FuncId) :
  calls_ok M -> length (functions M) + 2 <= graph_fuel ->
  (forall F, size (ssa_nodes G F) + size (llvm_nodes G F) + flood_bound (dg_graph G) <= fuel) ->
  exists CG, PTACallGraph_build M graph_fuel = Ok CG /\
    (2 * length (call_edges CG) < turns ->
     exists t, computeTaintedValuesContextSensitive fuel M CG G inst_function turns no_taint = Ok t /\
       forall v, isTaintedValue t v = true -> source_taint G (LV v)).
Proof.
  intros OK Hgf Hfuel. destruct (PTACallGraph_closed M graph_fuel OK Hgf) as (CG & E & Hcl & r & Er & Hentry).
  exists CG. split; [done|]. intros Ht.
  assert (exists t, computeTaintedValuesContextSensitive fuel M CG G inst_function turns no_taint = Ok t /\ sound G t)
    as (t & Ec & _ & Hs).
  { unfold computeTaintedValuesContextSensitive. rewrite Er. cbn [rbind of_option]. destruct r as [m|].
    - apply entry_sound; [done..|apply no_taint_sound].
    - pose proof (no_taint_sound G) as H0. revert H0. generalize no_taint.
      generalize (callees CG (FnNode None)) Hentry. intros cs Hcs.
      induction cs as [|c cs IH]; intros t Hst; [exists t; split; [reflexivity|exact Hst]|]. cbn [rfold].
      destruct (entry_sound fuel M CG G inst_function Hfuel Hcl turns c t Ht) as (t' & -> & Ht').
      + apply Hcs, list_elem_of_here.
      + done.
      + simpl. apply IH; [|done]. intros e He. apply Hcs. by apply list_elem_of_further. }
  exists t. split; [done|]. intros v Hv. apply Hs. by apply bool_decide_eq_true in Hv.
Qed.

(** * Example: [main] calls [a] and [b], both call [c], which calls [d], where a
      collective is under a condition; the argument [b] passes depends on the
      rank. *)
#[local] Open Scope N_scope.

Definition diamond_calls : Module_ := mk_module
  [(0, mk_func "main" [0]); (1, mk_func "a" [1]); (2, mk_func "b" [2]); (3, mk_func "c" [3]); (4, mk_func "d" [4]);
   (5, mk_func "MPI_Barrier" [])]
  [(0, mk_block "%entry" [call 10 1; call 11 2] [] []); (1, mk_block "%entry" [call 12 3] [] []);
   (2, mk_block "%entry" [call 13 3] [] []); (3, mk_block "%entry" [call 14 4] [] []);
   (4, mk_block "%entry" [call 15 5] [] [])].

Definition diamond_info : FunctionInfo :=
  {| hasLocalLinkage := fun F => negb (N.eqb F 0); hasAddressTaken := fun _ => false; isIntrinsic := fun _ => false;
     isLeaf := fun _ => true; arg_size := fun _ => 1%nat; isVarArg := fun _ => false |}.
Definition diamond_pts : PointsTo := {| getPointsToSet := fun _ => None |}.

Definition diamond_flow : DGraph := {|
  dg_graph := fold_left (fun g e => addEdge e.1 e.2 g) [(LV 20, LV 30); (LV 30, LV 40); (LV 40, LV 41)] empty_graph;
  funcToLLVMNodes := {[ 2 := {[ 20 ]}; 3 := {[ 30 ]}; 4 := {[ 40; 41 ]} ]};
  funcToSSANodes := ∅; taintResetSSANodes := ∅; ssaSources := ∅; valueSources := {[ 20 ]};
  callsiteToConds := {[ 15 := {[ 41 ]} ]} |}.

Definition inst_in (v : ValueId) : option FuncId := if N.eqb v 20 then Some 2 else None.

Definition with_contexts (M : Module_) (G : DGraph) (f : ValueId -> option FuncId) : res (list ValueId) :=
  let* CG := @PTACallGraph_build M diamond_info diamond_pts 20 in
  let* t := computeTaintedValuesContextSensitive 20 M CG G f 40 no_taint in Ok (elements (taintedConditions t)).

Definition without_contexts (G : DGraph) : res bool :=
  let* t := computeTaintedValuesContextInsensitive 20 G no_taint in Ok (isTaintedValue t 41).

(** The same without the function [a]. *)
Definition straight_calls : Module_ := mk_module
  [(0, mk_func "main" [0]); (2, mk_func "b" [2]); (3, mk_func "c" [3]); (4, mk_func "d" [4]);
   (5, mk_func "MPI_Barrier" [])]
  [(0, mk_block "%entry" [call 11 2] [] []); (2, mk_block "%entry" [call 13 3] [] []);
   (3, mk_block "%entry" [call 14 4] [] []); (4, mk_block "%entry" [call 15 5] [] [])].

(** The traversal with contexts misses tainted conditions that the
    flooding without contexts finds: it follows a call once, so a function two
    calls below the one with the taint is visited for the first path to its
    caller only. *)
Example contexts_lose_taint :
  without_contexts diamond_flow = Ok true /\
  with_contexts straight_calls diamond_flow inst_in = Ok [41] /\
  with_contexts diamond_calls diamond_flow inst_in = Ok [].
Proof. repeat split; vm_compute; reflexivity. Qed.

Lemma straight_ok : @calls_ok straight_calls diamond_info diamond_pts.
Proof.
  split.
  - apply (bool_decide_unpack _). vm_compute. exact I.
  - intros F CI H args loc HF HI. unfold instructions in HI. simpl in HF. enum HF; simpl in HI; unfold call in HI;
      rewrite ?elem_of_cons in HI; destruct_or?; simplify_eq; simpl; try set_solver.
  - intros F CI args loc HF HI. unfold instructions in HI. simpl in HF. enum HF; simpl in HI; unfold call in HI;
      rewrite ?elem_of_cons in HI; destruct_or?; simplify_eq; simpl; try set_solver.
  - intros F H HF HH. simpl in HF, HH. enum HF; enum HH; done.
Qed.

Lemma context_sensitive_witness : exists CG t,
  @PTACallGraph_build straight_calls diamond_info diamond_pts 20 = Ok CG /\
  computeTaintedValuesContextSensitive 20 straight_calls CG diamond_flow inst_in 40 no_taint = Ok t /\
  isTaintedValue t 41 = true /\ source_taint diamond_flow (LV 41).
Proof.
  destruct (@context_sensitive_sound straight_calls diamond_info diamond_pts 20 20 40 diamond_flow inst_in straight_ok)
    as (CG & E & H).
  - simpl. lia.
  - intros F. assert (size (llvm_nodes diamond_flow F) <= 2)%nat as HF.
    { change (llvm_nodes diamond_flow F) with (default ∅ (funcToLLVMNodes diamond_flow !! F)).
      unfold diamond_flow. cbn [funcToLLVMNodes]. destruct (decide (F = 2)) as [->|]; [vm_compute; lia|].
      destruct (decide (F = 3)) as [->|]; [vm_compute; lia|]. destruct (decide (F = 4)) as [->|]; [vm_compute; lia|].
      rewrite !(lookup_insert_ne (M := gmap N)), lookup_singleton_ne by congruence. vm_compute. lia. }
    change (size (ssa_nodes diamond_flow F)) with 0%nat.
    change (flood_bound (dg_graph diamond_flow)) with 3%nat. lia.
  - vm_compute in E. pose proof E as E'. injection E' as <-. destruct H as (t & Et & Hs); [apply Nat.ltb_lt; vm_compute; reflexivity|].
    eexists _, t. split; [exact E|]. split; [exact Et|].
    assert (isTaintedValue t 41 = true) as Ht by (vm_compute in Et; injection Et as <-; reflexivity).
    split; [exact Ht|]. by apply Hs.
Defined.
