(* ===== verification/DepGraphIpdf.v ===== *)
(** What the warnings ask of the dependency graph: the blocks of the
    interprocedural iterated postdominance frontier of a call (getCallInterIPDF),
    and the instance of the class [DepGraph] of Warnings.v. *)
From stdpp Require Import relations.
From S2P Require Import Prelude IR Utils Postdominance Samples Warnings DepGraph DepGraphPhi DepGraphTaint.

Section Interprocedural.
Context (rounds pdf_fuel : nat) (M : Module_) (PDT : PostDominatorTree).
Context (parent_block : InstId -> BlockId) (parent_function : InstId -> FuncId).
Context (funcToCallSites : gmap FuncId (gset InstId)).

(** The queue, the call sites visited, the blocks found, the two caches. The
    trees of the functions have no node in common: [PDT] is all of them. *)
Record IpdfState := {
  CallsitesToVisit : list InstId;
  VisitedCallSites : gset InstId;
  Ipdf : gset BlockId;
  pdfCaches : Cache * Cache
}.

(** The call sites of the function of [CS]. *)
Definition callers (CS : InstId) : gset InstId := at_key funcToCallSites (parent_function CS).

Definition visit_callsite (CS : InstId) (q : list InstId) (st : IpdfState) : res IpdfState :=
  let vis := {[ CS ]} ∪ VisitedCallSites st in
  let* r := iterated_postdominance_frontier rounds pdf_fuel M PDT (parent_block CS) (pdfCaches st).1 (pdfCaches st).2 in
  Ok {| CallsitesToVisit := q ++ List.filter (fun CS2 => negb (bool_decide (CS2 ∈ vis))) (in_order (callers CS));
        VisitedCallSites := vis; Ipdf := Ipdf st ∪ list_to_set r.1.1; pdfCaches := (r.1.2, r.2) |}.

Fixpoint ipdf_calls (fuel : nat) (st : IpdfState) : res IpdfState :=
  match CallsitesToVisit st with
  | [] => Ok st
  | CS :: q =>
      match fuel with
      | O => OutOfFuel
      | S fuel' => let* st' := visit_callsite CS q st in ipdf_calls fuel' st'
      end
  end.

Definition getCallInterIPDF (fuel : nat) (Call : InstId) (Ipdf0 : gset BlockId) (caches : Cache * Cache) : res IpdfState :=
  ipdf_calls fuel {| CallsitesToVisit := [Call]; VisitedCallSites := ∅; Ipdf := Ipdf0; pdfCaches := caches |}.

(** * The blocks it finds *)

Context (Bs : gset BlockId) (height : N -> nat).
Hypothesis OK : pdt_ok M PDT Bs height.
Hypothesis Hheight : forall b n, node_of PDT Bs b n -> (height n < pdf_fuel)%nat.
Hypothesis Hrounds : (size Bs < rounds)%nat.
Hypothesis Hblock : forall CS, parent_block CS ∈ Bs.

(** A call site of the function [CS] is in. *)
Definition called_from (CS CS2 : InstId) : Prop := CS2 ∈ callers CS.

Local Abbreviation frontier := (tc (frontier_step M PDT Bs)).

Definition caches_ok (c : Cache * Cache) : Prop := cache_ok M PDT Bs c.1 /\ ipdf_cache_ok M PDT Bs c.2.

Record climbing (Call : InstId) (Ipdf0 : gset BlockId) (st : IpdfState) : Prop := {
  cl_caches : caches_ok (pdfCaches st);
  cl_visited : forall CS, CS ∈ VisitedCallSites st \/ CS ∈ CallsitesToVisit st -> rtc called_from Call CS;
  cl_start : Call ∈ VisitedCallSites st \/ Call ∈ CallsitesToVisit st;
  cl_closed : forall CS CS2, CS ∈ VisitedCallSites st -> called_from CS CS2 ->
    CS2 ∈ VisitedCallSites st \/ CS2 ∈ CallsitesToVisit st;
  cl_found : forall b, b ∈ Ipdf st <-> b ∈ Ipdf0 \/ exists CS, CS ∈ VisitedCallSites st /\ frontier (parent_block CS) b
}.

Lemma visit_callsite_climbing Call Ipdf0 CS q st : CallsitesToVisit st = CS :: q -> climbing Call Ipdf0 st ->
  exists st', visit_callsite CS q st = Ok st' /\ climbing Call Ipdf0 st' /\
    VisitedCallSites st' = {[ CS ]} ∪ VisitedCallSites st /\
    exists new, CallsitesToVisit st' = q ++ new /\ forall x, x ∈ new -> x ∉ VisitedCallSites st'.
Proof.
  intros Eq [[H1 H2] Hv Hs Hc Hf]. unfold visit_callsite.
  destruct (iterated_frontier_closure M PDT Bs height OK pdf_fuel Hheight (parent_block CS) rounds
    (pdfCaches st).1 (pdfCaches st).2 (Hblock CS) H1 H2 Hrounds) as (l & c1 & c2 & -> & Hl & H1' & H2').
  cbn [rbind fst snd]. eexists. split; [reflexivity|].
  assert (forall x, x ∈ List.filter (fun CS2 => negb (bool_decide (CS2 ∈ {[ CS ]} ∪ VisitedCallSites st))) (in_order (callers CS)) <->
    called_from CS x /\ x ∉ {[ CS ]} ∪ VisitedCallSites st) as Hnew.
  { intros x. by rewrite elem_of_filterb, elem_of_in_order, negb_true_iff, bool_decide_eq_false. }
  assert (CS ∈ CallsitesToVisit st) as HCS by (rewrite Eq; apply list_elem_of_here).
  assert (forall x, x ∈ CallsitesToVisit st <-> x = CS \/ x ∈ q) as Hq by (intros x; rewrite Eq; apply elem_of_cons).
  split; [split; cbn [CallsitesToVisit VisitedCallSites Ipdf pdfCaches fst snd]|split; [done|]].
  - by split.
  - intros x. rewrite elem_of_app, Hnew, elem_of_union, elem_of_singleton. intros [[->|Hx]|[Hx|[Hx _]]].
    + apply Hv. by right.
    + apply Hv. by left.
    + apply Hv. right. apply Hq. by right.
    + eapply rtc_r; [apply Hv; by right|exact Hx].
  - rewrite elem_of_app, elem_of_union, elem_of_singleton. rewrite Hq in Hs. tauto.
  - intros x y. rewrite elem_of_app, Hnew. intros [->%elem_of_singleton|Hx]%elem_of_union Hxy.
    + destruct (decide (y ∈ {[ CS ]} ∪ VisitedCallSites st)); [by left|]. right. by right.
    + destruct (Hc x y Hx Hxy) as [?|[->|?]%Hq]; [left; set_solver|left; set_solver|right; by left].
  - intros b. rewrite elem_of_union, elem_of_list_to_set, Hl, Hf. setoid_rewrite elem_of_union.
    setoid_rewrite elem_of_singleton. split.
    + intros [[?|(x & ? & ?)]|?]; [by left|right; exists x; auto|right; exists CS; auto].
    + intros [?|(x & [->|?] & ?)]; [by do 2 left|by right|left; right; eauto].
  - eexists. split; [reflexivity|]. intros x Hx. by apply Hnew in Hx as [_ ?].
Qed.

(** The call sites there are. *)
Definition all_callsites (Call : InstId) : gset InstId := {[ Call ]} ∪ range funcToCallSites.

Lemma called_from_all Call CS : rtc called_from Call CS -> CS ∈ all_callsites Call.
Proof.
  intros H. unfold all_callsites. apply rtc_inv_r in H as [->|(x & _ & Hx)]; [set_solver|].
  apply elem_of_union. right. by apply (at_key_range funcToCallSites (parent_function x)).
Qed.

(** A visit takes a call site not visited, or removes a visited one from the
    queue and adds none. *)
Lemma ipdf_calls_ends Call Ipdf0 n : forall m st,
  size (all_callsites Call ∖ VisitedCallSites st) = n ->
  length (List.filter (fun CS => bool_decide (CS ∈ VisitedCallSites st)) (CallsitesToVisit st)) = m ->
  climbing Call Ipdf0 st ->
  exists k st', climbing Call Ipdf0 st' /\ CallsitesToVisit st' = [] /\ forall fuel, (k <= fuel)%nat -> ipdf_calls fuel st = Ok st'.
Proof.
  induction (lt_wf n) as [n _ IHn]. intros m. induction m as [m IHm] using lt_wf_ind. intros st En Em Hst.
  destruct (CallsitesToVisit st) as [|CS q] eqn:Eq.
  { exists O, st. split; [done|]. split; [done|]. intros fuel _. destruct fuel; simpl; by rewrite Eq. }
  destruct (visit_callsite_climbing Call Ipdf0 CS q st Eq Hst) as (st1 & E1 & H1 & Ev & new & Eq1 & Hnew).
  assert (exists k st', climbing Call Ipdf0 st' /\ CallsitesToVisit st' = [] /\
    forall fuel, (k <= fuel)%nat -> ipdf_calls fuel st1 = Ok st') as (k & st' & Hst' & Es' & Hk).
  { destruct (decide (CS ∈ VisitedCallSites st)) as [HCS|HCS].
    - assert (VisitedCallSites st1 = VisitedCallSites st) as Ev' by (rewrite Ev; set_solver).
      apply (IHm (length (List.filter (fun CS => bool_decide (CS ∈ VisitedCallSites st1)) (CallsitesToVisit st1)))); [|by rewrite Ev'|done|done].
      rewrite <- Em, Eq1, Ev', List.filter_app, length_app. cbn [List.filter]. rewrite bool_decide_true by done.
      rewrite (filter_all_false _ new); [simpl; lia|]. intros x Hx. apply bool_decide_eq_false. rewrite <- Ev'. by apply Hnew.
    - eapply IHn; [|reflexivity|reflexivity|done]. rewrite <- En, Ev. apply subset_size. split; [set_solver|].
      intros Hsub. assert (CS ∈ all_callsites Call ∖ ({[ CS ]} ∪ VisitedCallSites st)) as Hx; [|set_solver].
      apply Hsub, elem_of_difference. split; [|done]. apply called_from_all, (cl_visited _ _ _ Hst). right. rewrite Eq.
      apply list_elem_of_here. }
  exists (S k), st'. split; [done|]. split; [done|]. intros fuel Hf. destruct fuel as [|fuel]; [lia|].
  simpl. rewrite Eq, E1. simpl. apply Hk. lia.
Qed.

(** C20 (interipdf). The search ends, and what it adds is PDF+ of the blocks of
    the call and of the calls that lead to its function, directly or not. *)
Theorem getCallInterIPDF_spec Call Ipdf0 caches :
  caches_ok caches ->
  exists k st, (forall fuel, (k <= fuel)%nat -> getCallInterIPDF fuel Call Ipdf0 caches = Ok st) /\
    caches_ok (pdfCaches st) /\
    forall b, b ∈ Ipdf st <-> b ∈ Ipdf0 \/ exists CS, rtc called_from Call CS /\ frontier (parent_block CS) b.
Proof.
  intros Hc. unfold getCallInterIPDF.
  set (st0 := {| CallsitesToVisit := [Call]; VisitedCallSites := ∅; Ipdf := Ipdf0; pdfCaches := caches |}).
  destruct (ipdf_calls_ends Call Ipdf0 _ _ st0 eq_refl eq_refl) as (k & st & Hst & Es & Hk).
  { split; simpl; [done|..].
    - intros CS [Hx|Hx%list_elem_of_singleton]; [set_solver|subst; constructor].
    - right. apply list_elem_of_here.
    - set_solver.
    - set_solver. }
  exists k, st. split; [done|]. split; [apply Hst|]. intros b. rewrite (cl_found _ _ _ Hst). apply or_iff_compat_l.
  assert (forall CS, rtc called_from Call CS -> CS ∈ VisitedCallSites st) as Hall.
  { assert (forall x y, rtc called_from x y -> x ∈ VisitedCallSites st -> y ∈ VisitedCallSites st) as Hr.
    { induction 1 as [|x y z Hxy _ IH]; intros Hx; [done|]. apply IH.
      destruct (cl_closed _ _ _ Hst x y Hx Hxy) as [?|Hy]; [done|]. rewrite Es in Hy. by apply not_elem_of_nil in Hy. }
    intros CS H. apply (Hr Call CS H). pose proof (cl_start _ _ _ Hst) as Hs. rewrite Es in Hs.
    by destruct Hs as [Hs|?%not_elem_of_nil]. }
  split; intros (CS & H1 & H2); exists CS; (split; [|done]); [apply (cl_visited _ _ _ Hst); by left|by apply Hall].
Qed.
End Interprocedural.

(** * The interface of the warnings *)

(** What the dependency graph answers once the taint is computed. *)
Definition dep_graph_of (fuel rounds pdf_fuel : nat) (M : Module_) (PDT : PostDominatorTree)
    (parent_block : InstId -> BlockId) (parent_function : InstId -> FuncId)
    (funcToCallSites : gmap FuncId (gset InstId)) (caches : Cache * Cache) (t : Taint) : Warnings.DepGraph := {|
  Warnings.getCallInterIPDF := fun Call =>
    match getCallInterIPDF rounds pdf_fuel M PDT parent_block parent_function funcToCallSites fuel Call ∅ caches with
    | Ok st => in_order (Ipdf st)
    | _ => []
    end;
  Warnings.isTaintedValue := isTaintedValue t |}.

(** * Example: the call 20 is in a function that the call 10 calls, under the
      condition of block 0. *)
Definition sites : gmap FuncId (gset InstId) := {[ 8%N := {[ 10%N ]} ]}.
Definition site_block (CS : InstId) : BlockId := if N.eqb CS 10 then 1%N else 2%N.
Definition site_function (CS : InstId) : FuncId := if N.eqb CS 10 then 0%N else 8%N.

Lemma not_up_0_1 : ~ tc (up diamond_PDT) 0%N 1%N.
Proof.
  assert (forall n, tc (up diamond_PDT) n 1%N -> False) as H; [|exact (H 0%N)].
  intros n H. remember 1%N as m. induction H as [n m Hn|n k m _ _ IH]; [|by apply IH].
  subst. apply diamond_up in Hn. destruct Hn as [[_ Hm]|[[_ Hm]|[_ Hm]]]; discriminate Hm.
Qed.

Lemma getCallInterIPDF_witness : exists st,
  getCallInterIPDF 4 3 diamond diamond_PDT site_block site_function sites 9 20 ∅ (∅, ∅) = Ok st /\ Ipdf st = {[ 0%N ]} /\
  exists k st', forall fuel, (k <= fuel)%nat ->
    getCallInterIPDF 4 3 diamond diamond_PDT site_block site_function sites fuel 20 ∅ (∅, ∅) = Ok st' /\ 0%N ∈ Ipdf st'.
Proof.
  destruct (getCallInterIPDF_spec 4 3 diamond diamond_PDT site_block site_function sites {[ 0; 1; 2 ]}%N diamond_height
    diamond_pdt_ok) with (Call := 20%N) (Ipdf0 := ∅ : gset N) (caches := (∅, ∅) : Cache * Cache) as (k & st' & Hk & _ & Hb).
  - intros b n [-> Hb]%diamond_node. enum Hb; apply Nat.ltb_lt; reflexivity.
  - apply Nat.ltb_lt. reflexivity.
  - intros CS. unfold site_block. destruct (N.eqb CS 10); set_solver.
  - split; intros b S0 H; simpl in H; by rewrite lookup_empty in H.
  - eexists. split; [vm_compute; reflexivity|]. split; [apply (bool_decide_unpack _); vm_compute; exact I|].
    exists k, st'. intros fuel Hf. split; [by apply Hk|]. apply Hb. right. exists 10%N. split.
    + apply rtc_once. unfold called_from, callers. change (site_function 20) with 8%N.
      unfold sites, at_key. rewrite lookup_singleton_eq. simpl. set_solver.
    + apply tc_once. split; [|done]. exists 1%N, 1%N, 1%N, 0%N. unfold node_of. simpl.
      repeat split; try set_solver; try done; try constructor. apply not_up_0_1.
Defined.
