(* ===== verification/MemSSA.v ===== *)
(** The memory SSA (MemorySSA.cpp, MemorySSA.h, MSSAMuChi.h): the mus and chis of
    the instructions, the placement of the phis, the renaming, and the conditions
    the phis depend on. *)
From S2P Require Import Prelude IR Utils Collectives ExtInfo PTACallGraph MemRegions ModRef DepGraph.

(** * Mus, chis and phis *)

(** Pointers to definitions and to mus. A definition owns at most one variable,
    which the pointer to the definition stands for. *)
Abbreviation DefId := N.
Abbreviation MuId := N.

(** The classes of definitions, with what the members of each add; no object has
    the type [CHI] of the enumeration. *)
Inductive DefType :=
| PHI
| CALL (called : FuncId) (inst : InstId)
| STORE (inst : InstId)
| SYNC (inst : InstId)
| ENTRY (func : FuncId)
| EXTVARARG (func : FuncId)
| EXTARG (func : FuncId) (argNo : nat)
| EXTRET (func : FuncId)
| EXTCALL (called : FuncId) (argNo : nat) (inst : InstId)
| EXTRETCALL (called : FuncId).

(** [MSSAVar]; the artificial variables have no block. *)
Record MSSAVar := { def : DefId; version : Z; bb : option BlockId }.

(** [MSSADef] with the fields of [MSSAChi] and [MSSAPhi]; the artificial chis have
    no region. *)
Record MSSADef := {
  region : option RegId;
  type : DefType;
  var : option MSSAVar;
  opVar : option DefId;
  phiOps : gmap nat DefId;      (** [MSSAPhi::opsVar] *)
  phiConds : gset ValueId       (** [MSSAPhi::preds] *)
}.

Inductive MuType :=
| LOAD (inst : InstId)
| MuCALL (called : FuncId)
| RET (func : FuncId)
| MuEXTCALL (called : FuncId) (argNo : nat).

Record MSSAMu := { mu_region : RegId; mu_type : MuType; mu_var : option DefId }.

Definition new_def (R : option RegId) (t : DefType) : MSSADef :=
  {| region := R; type := t; var := None; opVar := None; phiOps := ∅; phiConds := ∅ |}.
Definition set_var (v : MSSAVar) (d : MSSADef) : MSSADef :=
  {| region := region d; type := type d; var := Some v; opVar := opVar d; phiOps := phiOps d; phiConds := phiConds d |}.
Definition set_opVar (o : DefId) (d : MSSADef) : MSSADef :=
  {| region := region d; type := type d; var := var d; opVar := Some o; phiOps := phiOps d; phiConds := phiConds d |}.
Definition set_phiOp (i : nat) (o : DefId) (d : MSSADef) : MSSADef :=
  {| region := region d; type := type d; var := var d; opVar := opVar d; phiOps := <[i := o]> (phiOps d); phiConds := phiConds d |}.
Definition add_conds (X : gset ValueId) (d : MSSADef) : MSSADef :=
  {| region := region d; type := type d; var := var d; opVar := opVar d; phiOps := phiOps d; phiConds := X ∪ phiConds d |}.

(** * The tables *)

(** The maps from an instruction, a block or a function to a vector of owned mus,
    chis or phis. *)
Inductive OwnerMap :=
| loadToMuMap | storeToChiMap | callSiteToMuMap | callSiteToChiMap | callSiteToSyncChiMap
| bbToPhiMap | funToEntryChiMap | funToReturnMuMap | extCallSiteToCallerRetChi.

#[export] Instance OwnerMap_eq_dec : EqDecision OwnerMap.
Proof. solve_decision. Defined.

#[export] Instance OwnerMap_countable : Countable OwnerMap.
Proof.
  set (l := [loadToMuMap; storeToChiMap; callSiteToMuMap; callSiteToChiMap; callSiteToSyncChiMap;
             bbToPhiMap; funToEntryChiMap; funToReturnMuMap; extCallSiteToCallerRetChi]).
  refine (inj_countable (fun o => fst <$> list_find (eq o) l) (fun i => i ≫= fun n => l !! n) _).
  by intros [].
Defined.

(** The maps from an external function and a call to an artificial chi; those of
    the arguments have the index of the argument too. *)
Inductive ExtMap :=
| extCallSiteToCalleeRetChi
| extCallSiteToVarArgEntryChi
| extCallSiteToVarArgExitChi
| extCallSiteToArgEntryChi (argNo : nat)
| extCallSiteToArgExitChi (argNo : nat).

#[export] Instance ExtMap_eq_dec : EqDecision ExtMap.
Proof. solve_decision. Defined.

#[export] Instance ExtMap_countable : Countable ExtMap.
Proof.
  refine (inj_countable (fun m => match m with
    | extCallSiteToCalleeRetChi => (0, 0) | extCallSiteToVarArgEntryChi => (1, 0) | extCallSiteToVarArgExitChi => (2, 0)
    | extCallSiteToArgEntryChi i => (3, i) | extCallSiteToArgExitChi i => (4, i) end)%nat
    (fun p => match p.1 with
    | 0 => Some extCallSiteToCalleeRetChi | 1 => Some extCallSiteToVarArgEntryChi | 2 => Some extCallSiteToVarArgExitChi
    | 3 => Some (extCallSiteToArgEntryChi p.2) | _ => Some (extCallSiteToArgExitChi p.2) end)%nat _).
  by intros [].
Defined.

(** The members; [defs] and [mus] hold the objects, [fresh] the next address. *)
Record MemorySSA := {
  defs : gmap DefId MSSADef;
  mus : gmap MuId MSSAMu;
  fresh : N;
  usedRegs : gset RegId;
  regDefToBBMap : gmap RegId (gset BlockId);
  owned : gmap (OwnerMap * N) (list N);
  extChis : gmap (ExtMap * FuncId * InstId) DefId;
  llvmPhiToPredMap : gmap InstId (gset ValueId);
  funRegToEntryChiMap : gmap (FuncId * RegId) DefId;
  funRegToReturnMuMap : gmap (FuncId * RegId) MuId;
  extFuncToCSMap : gmap FuncId (gset InstId)
}.

Definition with_defs (D : gmap DefId MSSADef) (s : MemorySSA) : MemorySSA :=
  {| defs := D; mus := mus s; fresh := fresh s; usedRegs := usedRegs s; regDefToBBMap := regDefToBBMap s; owned := owned s;
     extChis := extChis s; llvmPhiToPredMap := llvmPhiToPredMap s; funRegToEntryChiMap := funRegToEntryChiMap s;
     funRegToReturnMuMap := funRegToReturnMuMap s; extFuncToCSMap := extFuncToCSMap s |}.
Definition with_mus (D : gmap MuId MSSAMu) (s : MemorySSA) : MemorySSA :=
  {| defs := defs s; mus := D; fresh := fresh s; usedRegs := usedRegs s; regDefToBBMap := regDefToBBMap s; owned := owned s;
     extChis := extChis s; llvmPhiToPredMap := llvmPhiToPredMap s; funRegToEntryChiMap := funRegToEntryChiMap s;
     funRegToReturnMuMap := funRegToReturnMuMap s; extFuncToCSMap := extFuncToCSMap s |}.
(** A new object for the vector of [k] in the map [o]. *)
Definition own (o : OwnerMap) (k : N) (s : MemorySSA) : MemorySSA :=
  {| defs := defs s; mus := mus s; fresh := N.succ (fresh s); usedRegs := usedRegs s; regDefToBBMap := regDefToBBMap s;
     owned := <[(o, k) := default [] (owned s !! (o, k)) ++ [fresh s]]> (owned s);
     extChis := extChis s; llvmPhiToPredMap := llvmPhiToPredMap s; funRegToEntryChiMap := funRegToEntryChiMap s;
     funRegToReturnMuMap := funRegToReturnMuMap s; extFuncToCSMap := extFuncToCSMap s |}.
Definition with_regs (U : gset RegId) (D : gmap RegId (gset BlockId)) (s : MemorySSA) : MemorySSA :=
  {| defs := defs s; mus := mus s; fresh := fresh s; usedRegs := U; regDefToBBMap := D; owned := owned s;
     extChis := extChis s; llvmPhiToPredMap := llvmPhiToPredMap s; funRegToEntryChiMap := funRegToEntryChiMap s;
     funRegToReturnMuMap := funRegToReturnMuMap s; extFuncToCSMap := extFuncToCSMap s |}.
(** A new artificial chi. *)
Definition own_ext (k : ExtMap * FuncId * InstId) (s : MemorySSA) : MemorySSA :=
  {| defs := defs s; mus := mus s; fresh := N.succ (fresh s); usedRegs := usedRegs s; regDefToBBMap := regDefToBBMap s;
     owned := owned s; extChis := <[k := fresh s]> (extChis s); llvmPhiToPredMap := llvmPhiToPredMap s;
     funRegToEntryChiMap := funRegToEntryChiMap s; funRegToReturnMuMap := funRegToReturnMuMap s;
     extFuncToCSMap := extFuncToCSMap s |}.
Definition with_preds (P : gmap InstId (gset ValueId)) (s : MemorySSA) : MemorySSA :=
  {| defs := defs s; mus := mus s; fresh := fresh s; usedRegs := usedRegs s; regDefToBBMap := regDefToBBMap s; owned := owned s;
     extChis := extChis s; llvmPhiToPredMap := P; funRegToEntryChiMap := funRegToEntryChiMap s;
     funRegToReturnMuMap := funRegToReturnMuMap s; extFuncToCSMap := extFuncToCSMap s |}.
Definition with_funs (E : gmap (FuncId * RegId) DefId) (R : gmap (FuncId * RegId) MuId) (s : MemorySSA) : MemorySSA :=
  {| defs := defs s; mus := mus s; fresh := fresh s; usedRegs := usedRegs s; regDefToBBMap := regDefToBBMap s; owned := owned s;
     extChis := extChis s; llvmPhiToPredMap := llvmPhiToPredMap s; funRegToEntryChiMap := E;
     funRegToReturnMuMap := R; extFuncToCSMap := extFuncToCSMap s |}.
Definition with_callsites (C : gmap FuncId (gset InstId)) (s : MemorySSA) : MemorySSA :=
  {| defs := defs s; mus := mus s; fresh := fresh s; usedRegs := usedRegs s; regDefToBBMap := regDefToBBMap s; owned := owned s;
     extChis := extChis s; llvmPhiToPredMap := llvmPhiToPredMap s; funRegToEntryChiMap := funRegToEntryChiMap s;
     funRegToReturnMuMap := funRegToReturnMuMap s; extFuncToCSMap := C |}.

(** [map[k]]. *)
Definition at_owner (s : MemorySSA) (o : OwnerMap) (k : N) : list N := default [] (owned s !! (o, k)).

(** [map[k].emplace_back(std::make_unique<...>(...))]. *)
Definition new_mu (o : OwnerMap) (k : N) (t : MuType) (R : RegId) (s : MemorySSA) : MemorySSA :=
  with_mus (<[fresh s := {| mu_region := R; mu_type := t; mu_var := None |}]> (mus s)) (own o k s).
Definition new_chi (o : OwnerMap) (k : N) (t : DefType) (R : RegId) (s : MemorySSA) : MemorySSA :=
  with_defs (<[fresh s := new_def (Some R) t]> (defs s)) (own o k s).

(** [usedRegs.insert(R)], [regDefToBBMap[R].insert(b)]. *)
Definition use_reg (R : RegId) (s : MemorySSA) : MemorySSA := with_regs ({[ R ]} ∪ usedRegs s) (regDefToBBMap s) s.
Definition def_in (b : BlockId) (R : RegId) (s : MemorySSA) : MemorySSA :=
  with_regs (usedRegs s) (<[R := {[ b ]} ∪ default ∅ (regDefToBBMap s !! R)]> (regDefToBBMap s)) s.

Section Build.
Context (cfg : BuildConfig) (opts : Options) (M : MModule) (CG : PTACallGraph) (Regions : MemReg).
Context (MRA : ModRefAnalysisResult) {PA : PointerAnalysis}.

(** The loops over regions that skip the global kill set. *)
Definition live (Regs : list RegId) : list RegId := List.filter (fun R => negb (inGlobalKillSet MRA R)) Regs.

(** * Mus and chis of the instructions *)

(** The bodies of these loops. *)
Definition add_mu (o : OwnerMap) (k : InstId) (t : MuType) (s : MemorySSA) (R : RegId) : MemorySSA :=
  use_reg R (new_mu o k t R s).
Definition add_chi (o : OwnerMap) (k : InstId) (t : DefType) (b : BlockId) (s : MemorySSA) (R : RegId) : MemorySSA :=
  use_reg R (def_in b R (new_chi o k t R s)).
(** Without [usedRegs.insert]. *)
Definition add_arg_chi (o : OwnerMap) (k : InstId) (t : DefType) (b : BlockId) (s : MemorySSA) (R : RegId) : MemorySSA :=
  def_in b R (new_chi o k t R s).

(** The chis of a synchronization, in the build with CUDA and in that with
    OpenMP. *)
Definition sync_chis (F : FuncId) (b : BlockId) (CI : InstId) (Callee : FuncId) (s : MemorySSA) : MemorySSA :=
  match Collectives.find cfg opts (fname M Callee) with
  | None => s
  | Some Coll =>
      let s1 := if enable_cuda cfg && bool_decide (P_ Coll = CUDA) && bool_decide (Name Coll = "llvm.nvvm.barrier0"%string)
                then fold_left (add_chi callSiteToSyncChiMap CI (SYNC CI) b) (in_order (sharedCudaRegions Regions)) s else s in
      if enable_openmp cfg && bool_decide (P_ Coll = OMP) && bool_decide (Name Coll = "__kmpc_barrier"%string)
      then fold_left (add_chi callSiteToSyncChiMap CI (SYNC CI) b) (in_order (default ∅ (func2SharedOmpRegs Regions !! F))) s1
      else s1
  end.

(** One argument of a call of an external function. *)
Definition ext_arg (b : BlockId) (CI : InstId) (Callee : FuncId) (s : MemorySSA) (a : nat * Operand) : res MemorySSA :=
  let '(argNo, Arg) := a in
  if negb (opIsPointer Arg) || opIsIntToPtr Arg then Ok s
  else
    let* Regs := regions_of Regions (opId Arg) in
    let s1 := fold_left (add_mu callSiteToMuMap CI (MuEXTCALL Callee argNo)) (live Regs) s in
    match getExtModInfo (fname M Callee) with
    | None => Ok s1
    | Some Info =>
        let* modified := arg_is_mod Info argNo (varArg M Callee) in
        Ok (if modified then fold_left (add_arg_chi callSiteToChiMap CI (EXTCALL Callee argNo CI) b) (live Regs) s1 else s1)
    end.

(** Its return value. *)
Definition ext_ret (b : BlockId) (CI : InstId) (Callee : FuncId) (retPointer : bool) (s : MemorySSA) : res MemorySSA :=
  match getExtModInfo (fname M Callee) with
  | None => Ok s
  | Some Info =>
      if RetIsMod Info && retPointer then
        let* Regs := regions_of Regions CI in
        Ok (fold_left (add_chi extCallSiteToCallerRetChi CI (EXTRETCALL Callee) b) (live Regs) s)
      else Ok s
  end.

(** The regions a call of a defined function reads and writes. *)
Definition call_mus (F : FuncId) (CI : InstId) (Callee : FuncId) (s : MemorySSA) : MemorySSA :=
  fold_left (add_mu callSiteToMuMap CI (MuCALL Callee)) (in_order (getFuncRef MRA Callee ∖ getFuncKill MRA F)) s.
Definition call_chis (F : FuncId) (b : BlockId) (CI : InstId) (Callee : FuncId) (s : MemorySSA) : MemorySSA :=
  fold_left (add_chi callSiteToChiMap CI (CALL Callee CI) b) (in_order (getFuncMod MRA Callee ∖ getFuncKill MRA F)) s.

(** [computeMuChiForCalledFunction]. *)
Definition computeMuChiForCalledFunction (F : FuncId) (b : BlockId) (CI : InstId) (args : list Operand) (retPointer : bool)
    (Callee : FuncId) (s : MemorySSA) : res MemorySSA :=
  let s0 := sync_chis F b CI Callee s in
  if isDecl M Callee then
    let s1 := with_callsites (<[Callee := {[ CI ]} ∪ default ∅ (extFuncToCSMap s0 !! Callee)]> (extFuncToCSMap s0)) s0 in
    let* s2 := rfold (ext_arg b CI Callee) (imap pair args) s1 in
    ext_ret b CI Callee retPointer s2
  else Ok (call_chis F b CI Callee (call_mus F CI Callee s0)).

(** An artificial chi, made when the entry of its map is new; then its variable is
    set. *)
Definition ext_chi (k : ExtMap * FuncId * InstId) (t : DefType) (s : MemorySSA) : DefId * MemorySSA :=
  match extChis s !! k with
  | Some d => (d, s)
  | None => (fresh s, with_defs (<[fresh s := new_def None t]> (defs s)) (own_ext k s))
  end.
Definition set_ext_var (d : DefId) (v : MSSAVar) (o : option DefId) (s : MemorySSA) : MemorySSA :=
  with_defs (alter (fun x => match o with Some o => set_opVar o (set_var v x) | None => set_var v x end) d (defs s)) s.

(** The entry and the exit chi of an argument; [exit_def] is the definition the
    variable of the exit chi names. *)
Definition ext_chi_pair (exit_def : DefId -> DefId -> DefId) (t : DefType) (entry exit : ExtMap) (Callee : FuncId) (CB : InstId)
    (s : MemorySSA) : MemorySSA :=
  let '(e, s1) := ext_chi (entry, Callee, CB) t s in
  let s2 := set_ext_var e {| def := e; version := 0; bb := None |} None s1 in
  let '(x, s3) := ext_chi (exit, Callee, CB) t s2 in
  set_ext_var x {| def := exit_def e x; version := 1; bb := None |} (Some e) s3.

(** The variable of the exit chi of the variable arguments names the entry chi. *)
Definition var_arg_chis (CB : InstId) (Callee : FuncId) (s : MemorySSA) : MemorySSA :=
  ext_chi_pair (fun entry _ => entry) (EXTVARARG Callee) extCallSiteToVarArgEntryChi extCallSiteToVarArgExitChi Callee CB s.
Definition arg_chis (CB : InstId) (Callee : FuncId) (s : MemorySSA) (a : nat * (ValueId * bool)) : MemorySSA :=
  let '(argNo, (_, isPointer)) := a in
  if isPointer then
    ext_chi_pair (fun _ exit => exit) (EXTARG Callee argNo) (extCallSiteToArgEntryChi argNo) (extCallSiteToArgExitChi argNo) Callee CB s
  else s.
Definition ret_chi (CB : InstId) (Callee : FuncId) (s : MemorySSA) : MemorySSA :=
  let '(r, s1) := ext_chi (extCallSiteToCalleeRetChi, Callee, CB) (EXTRET Callee) s in
  set_ext_var r {| def := r; version := 0; bb := None |} None s1.

(** [createArtificalChiForCalledFunction]. *)
Definition createArtificalChiForCalledFunction (CB : InstId) (Callee : FuncId) (s : MemorySSA) : MemorySSA :=
  let s1 := if varArg M Callee then var_arg_chis CB Callee s else s in
  let s2 := fold_left (arg_chis CB Callee) (imap pair (formals M Callee)) s1 in
  if returnsPointer M Callee then ret_chi CB Callee s2 else s2.

(** A callee of a call. *)
Definition visit_callee (F : FuncId) (b : BlockId) (CI : InstId) (args : list Operand) (retPointer : bool)
    (s : MemorySSA) (Callee : FuncId) : res MemorySSA :=
  if isIntrinsicDbgFunction (base M) Callee then Ok s
  else
    let* s1 := computeMuChiForCalledFunction F b CI args retPointer Callee s in
    Ok (if isDecl M Callee then createArtificalChiForCalledFunction CI Callee s1 else s1).

Definition call_targets (CI : InstId) (Callee : option FuncId) : list FuncId :=
  match Callee with Some C => [C] | None => indirect_callees CG CI end.

(** One instruction. *)
Definition mu_chi_inst (F : FuncId) (s : MemorySSA) (p : BlockId * MInst) : res MemorySSA :=
  let '(b, Inst) := p in
  match Inst with
  | CallI CI Callee args isDbg retPointer =>
      if isDbg then Ok s else rfold (visit_callee F b CI args retPointer) (call_targets CI Callee) s
  | LoadI LI ptr => let* Regs := regions_of Regions ptr in Ok (fold_left (add_mu loadToMuMap LI (LOAD LI)) (live Regs) s)
  | StoreI SI _ ptr => let* Regs := regions_of Regions ptr in Ok (fold_left (add_chi storeToChiMap SI (STORE SI) b) (live Regs) s)
  | _ => Ok s
  end.

(** The entry chi and the return mu of a region. *)
Definition entry_chi (F : FuncId) (entry : BlockId) (s : MemorySSA) (R : RegId) : MemorySSA :=
  def_in entry R (with_funs (<[(F, R) := fresh s]> (funRegToEntryChiMap s)) (funRegToReturnMuMap s)
    (new_chi funToEntryChiMap F (ENTRY F) R s)).
Definition return_mu (F : FuncId) (s : MemorySSA) (R : RegId) : MemorySSA :=
  with_funs (funRegToEntryChiMap s) (<[(F, R) := fresh s]> (funRegToReturnMuMap s)) (new_mu funToReturnMuMap F (RET F) R s).

(** [computeMuChi]. *)
Definition computeMuChi (fuel : nat) (F : FuncId) (s : MemorySSA) : res MemorySSA :=
  let* s1 := rfold (mu_chi_inst F) (minsts M F) s in
  let* entry := of_option (getEntryBlock (base M) F) in
  let s2 := fold_left (entry_chi F entry) (in_order (usedRegs s1)) s1 in
  let* noRet := functionDoesNotRet fuel (base M) F in
  Ok (if noRet then s2 else fold_left (return_mu F) (in_order (usedRegs s2)) s2).

(** * Phis *)

(** The loop over the frontier of a block. *)
Definition place_phi (R : RegId) (acc : list BlockId * gset BlockId * gset BlockId * MemorySSA) (Y : BlockId) :
    list BlockId * gset BlockId * gset BlockId * MemorySSA :=
  let '(Worklist, DomFronPlus, Work, s) := acc in
  if bool_decide (Y ∈ DomFronPlus) then acc
  else
    let s1 := new_chi bbToPhiMap Y PHI R s in
    if bool_decide (Y ∈ Work) then (Worklist, {[ Y ]} ∪ DomFronPlus, Work, s1)
    else (Y :: Worklist, {[ Y ]} ∪ DomFronPlus, {[ Y ]} ∪ Work, s1).

(** The blocks to do, the last first. A block without frontier ends the program. *)
Fixpoint phi_worklist (fuel : nat) (DF : BlockId -> option (list BlockId)) (R : RegId)
    (acc : list BlockId * gset BlockId * gset BlockId * MemorySSA) : res MemorySSA :=
  let '(Worklist, DomFronPlus, Work, s) := acc in
  match Worklist with
  | [] => Ok s
  | X :: Worklist' =>
      match fuel with
      | O => OutOfFuel
      | S fuel' =>
          let* DomSet := of_option (DF X) in
          phi_worklist fuel' DF R (fold_left (place_phi R) DomSet (Worklist', DomFronPlus, Work, s))
      end
  end.

Definition phis_of_region (fuel : nat) (DF : BlockId -> option (list BlockId)) (s : MemorySSA) (R : RegId) : res MemorySSA :=
  let Defs := default ∅ (regDefToBBMap s !! R) in
  phi_worklist fuel DF R (rev (in_order Defs), ∅, Defs, s).

(** [computePhi]. *)
Definition computePhi (fuel : nat) (DF : BlockId -> option (list BlockId)) (s : MemorySSA) : res MemorySSA :=
  rfold (phis_of_region fuel DF) (in_order (usedRegs s)) s.
End Build.

(** * Renaming *)

(** The counters [C], the stacks [S] -- the top first -- and the memory SSA. *)
Record RenameState := {
  counters : gmap (option RegId) Z;
  stacks : gmap (option RegId) (list DefId);
  ssa : MemorySSA
}.

(** [S[V]], [S[V].back()], [S[V].pop_back()]; on an empty vector both are
    undefined. *)
Definition stack (r : RenameState) (V : option RegId) : list DefId := default [] (stacks r !! V).
Definition top (r : RenameState) (V : option RegId) : res DefId := of_option (head (stack r V)).
Definition pop (r : RenameState) (V : option RegId) : res RenameState :=
  match stack r V with
  | [] => Broken
  | _ :: l => Ok {| counters := counters r; stacks := <[V := l]> (stacks r); ssa := ssa r |}
  end.

Definition with_ssa (s : MemorySSA) (r : RenameState) : RenameState :=
  {| counters := counters r; stacks := stacks r; ssa := s |}.

(** A new version of the region of [d], on top of its stack: the object becomes
    [d'] with its variable. *)
Definition new_version (X : BlockId) (id : DefId) (d' : MSSADef) (r : RenameState) : RenameState :=
  let V := region d' in
  let i := default 0 (counters r !! V) in
  {| counters := <[V := u32 (i + 1)]> (counters r);
     stacks := <[V := id :: stack r V]> (stacks r);
     ssa := with_defs (<[id := set_var {| def := id; version := i; bb := Some X |} d']> (defs (ssa r))) (ssa r) |}.

Definition rename_phi (X : BlockId) (r : RenameState) (id : DefId) : res RenameState :=
  let* Phi := of_option (defs (ssa r) !! id) in Ok (new_version X id Phi r).

Definition rename_chi (X : BlockId) (r : RenameState) (id : DefId) : res RenameState :=
  let* Chi := of_option (defs (ssa r) !! id) in
  let* o := top r (region Chi) in
  Ok (new_version X id (set_opVar o Chi) r).

Definition rename_mu (r : RenameState) (id : MuId) : res RenameState :=
  let* Mu := of_option (mus (ssa r) !! id) in
  let* o := top r (Some (mu_region Mu)) in
  Ok (with_ssa (with_mus (<[id := {| mu_region := mu_region Mu; mu_type := mu_type Mu; mu_var := Some o |}]> (mus (ssa r))) (ssa r)) r).

(** What an instruction uses, then what it defines. *)
Definition inst_mus (s : MemorySSA) (F : FuncId) (Inst : MInst) : list MuId :=
  match Inst with
  | CallI CI _ _ _ _ => at_owner s callSiteToMuMap CI
  | LoadI LI _ => at_owner s loadToMuMap LI
  | ReturnI _ => at_owner s funToReturnMuMap F
  | _ => []
  end.
Definition inst_chis (s : MemorySSA) (Inst : MInst) : list DefId :=
  match Inst with
  | CallI CI _ _ _ _ => at_owner s callSiteToSyncChiMap CI ++ at_owner s callSiteToChiMap CI ++ at_owner s extCallSiteToCallerRetChi CI
  | StoreI SI _ _ => at_owner s storeToChiMap SI
  | _ => []
  end.

Definition rename_inst (F : FuncId) (X : BlockId) (r : RenameState) (Inst : MInst) : res RenameState :=
  let* r1 := rfold rename_mu (inst_mus (ssa r) F Inst) r in
  rfold (rename_chi X) (inst_chis (ssa r) Inst) r1.

(** [whichPred]: the position of the first occurrence, the number of
    predecessors if there is none. *)
Fixpoint position (P : BlockId) (l : list BlockId) : nat :=
  match l with
  | [] => O
  | x :: r => if bool_decide (P = x) then O else S (position P r)
  end.
Definition whichPred (M : MModule) (Pred Succ : BlockId) : nat := position Pred (predecessors (base M) Succ).

(** The operand of a phi of the successor [Y] for the edge from [X]. *)
Definition rename_op (M : MModule) (X Y : BlockId) (r : RenameState) (id : DefId) : res RenameState :=
  let* Phi := of_option (defs (ssa r) !! id) in
  let* o := top r (region Phi) in
  Ok (with_ssa (with_defs (<[id := set_phiOp (whichPred M X Y) o Phi]> (defs (ssa r))) (ssa r)) r).

Definition rename_succ (M : MModule) (X : BlockId) (r : RenameState) (Y : BlockId) : res RenameState :=
  rfold (rename_op M X Y) (at_owner (ssa r) bbToPhiMap Y) r.

(** The pops at the end of a block. *)
Definition pop_def (r : RenameState) (id : DefId) : res RenameState :=
  let* d := of_option (defs (ssa r) !! id) in pop r (region d).
Definition pop_inst (r : RenameState) (Inst : MInst) : res RenameState := rfold pop_def (inst_chis (ssa r) Inst) r.

(** [renameBB]; [Children] gives the children in the dominator tree. *)
Fixpoint renameBB (fuel : nat) (M : MModule) (Children : BlockId -> list BlockId) (F : FuncId) (X : BlockId) (r : RenameState) :
    res RenameState :=
  match fuel with
  | O => OutOfFuel
  | S fuel' =>
      let* r1 := rfold (rename_phi X) (at_owner (ssa r) bbToPhiMap X) r in
      let* r2 := rfold (rename_inst F X) (code M X) r1 in
      let* r3 := rfold (rename_succ M X) (successors (base M) X) r2 in
      let* r4 := rfold (fun r Y => renameBB fuel' M Children F Y r) (Children X) r3 in
      let* r5 := rfold pop_def (at_owner (ssa r4) bbToPhiMap X) r4 in
      rfold pop_inst (code M X) r5
  end.

(** The entry chis: version 0, then the counter. *)
Definition rename_entry (entry : BlockId) (r : RenameState) (id : DefId) : res RenameState :=
  let* Chi := of_option (defs (ssa r) !! id) in
  let V := region Chi in
  Ok {| counters := <[V := u32 (default 0 (counters r !! V) + 1)]> (counters r);
        stacks := <[V := id :: stack r V]> (stacks r);
        ssa := with_defs (<[id := set_var {| def := id; version := 0; bb := Some entry |} Chi]> (defs (ssa r))) (ssa r) |}.

(** [rename]. *)
Definition rename (fuel : nat) (M : MModule) (Children : BlockId -> list BlockId) (F : FuncId) (s : MemorySSA) : res MemorySSA :=
  let* entry := of_option (getEntryBlock (base M) F) in
  let* r := rfold (rename_entry entry) (at_owner s funToEntryChiMap F) {| counters := ∅; stacks := ∅; ssa := s |} in
  let* r' := renameBB fuel M Children F entry r in
  Ok (ssa r').

(** * The conditions of phis *)

Section Predicates.
Context (rounds fuel : nat) (M : MModule) (PDT : PostDominatorTree).

(** What the caches of Utils.cpp add to the state. *)
Abbreviation CState := (MemorySSA * Cache * Cache)%type.

(** The conditions of the blocks the frontier of [b] has. *)
Definition frontier_conds (b : BlockId) (c1 c2 : Cache) : res (gset ValueId * Cache * Cache) :=
  let* r := iterated_postdominance_frontier rounds fuel (base M) PDT b c1 c2 in
  let* Preds := rfold (fun Preds B =>
    let* cond := getBasicBlockCond (base M) B in
    Ok match cond with Some Cond => {[ Cond ]} ∪ Preds | None => Preds end) r.1.1 ∅ in
  Ok (Preds, r.1.2, r.2).

(** One operand of a phi of the memory SSA: [Op->bb] is the block of its
    variable. *)
Definition mssa_phi_op (id : DefId) (st : CState) (op : nat * DefId) : res CState :=
  let '(s, c1, c2) := st in
  let* Op := of_option (defs s !! op.2) in
  let* v := of_option (var Op) in
  let* b := of_option (bb v) in
  let* r := frontier_conds b c1 c2 in
  Ok (with_defs (alter (add_conds r.1.1) id (defs s)) s, r.1.2, r.2).

(** [computeMSSAPhiPredicates]. *)
Definition computeMSSAPhiPredicates (st : CState) (id : DefId) : res CState :=
  let* Phi := of_option (defs st.1.1 !! id) in
  rfold (mssa_phi_op id) (map_to_list (phiOps Phi)) st.

(** One incoming block of a phi node. *)
Definition llvm_phi_op (id : InstId) (st : CState) (inc : ValueId * BlockId) : res CState :=
  let '(s, c1, c2) := st in
  let* r := frontier_conds inc.2 c1 c2 in
  let P := llvmPhiToPredMap s in
  Ok (with_preds (if bool_decide (r.1.1 = ∅) then P else <[id := r.1.1 ∪ default ∅ (P !! id)]> P) s, r.1.2, r.2).

(** [computeLLVMPhiPredicates]. *)
Definition computeLLVMPhiPredicates (st : CState) (Inst : MInst) : res CState :=
  match Inst with PhiI id incoming => rfold (llvm_phi_op id) incoming st | _ => Ok st end.

Definition block_predicates (st : CState) (b : BlockId) : res CState :=
  let* st1 := rfold computeMSSAPhiPredicates (at_owner st.1.1 bbToPhiMap b) st in
  rfold computeLLVMPhiPredicates (code M b) st1.

(** [computePhiPredicates]. *)
Definition computePhiPredicates (F : FuncId) (st : CState) : res CState := rfold block_predicates (mblocks M F) st.
End Predicates.

(** * The whole *)

(** What LLVM computes for a function: the children in the dominator tree, the
    dominance frontier of a block, the postdominator tree. *)
Record FunctionAnalyses := {
  domChildren : BlockId -> list BlockId;
  domFrontier : BlockId -> option (list BlockId);
  postDominators : PostDominatorTree
}.

Section BuildSSA.
Context (cfg : BuildConfig) (opts : Options) (M : MModule) (CG : PTACallGraph) (Regions : MemReg).
Context (MRA : ModRefAnalysisResult) {PA : PointerAnalysis} (FAM : FuncId -> FunctionAnalyses) (fuel rounds : nat).

(** [buildSSA] of a function. *)
Definition buildSSA_function (F : FuncId) (st : MemorySSA * Cache * Cache) : res (MemorySSA * Cache * Cache) :=
  let '(s, c1, c2) := st in
  let s0 := with_regs ∅ ∅ s in
  let* s1 := computeMuChi cfg opts M CG Regions MRA fuel F s0 in
  let* s2 := computePhi fuel (domFrontier (FAM F)) s1 in
  let* s3 := rename fuel M (domChildren (FAM F)) F s2 in
  computePhiPredicates rounds fuel M (postDominators (FAM F)) F (s3, c1, c2).

(** [buildSSA] of the module. *)
Definition build_if_reachable (st : MemorySSA * Cache * Cache) (F : FuncId) : res (MemorySSA * Cache * Cache) :=
  if negb (isReachableFromEntry CG F) || isIntrinsicDbgFunction (base M) F || isDecl M F then Ok st
  else buildSSA_function F st.

Definition empty_ssa : MemorySSA :=
  {| defs := ∅; mus := ∅; fresh := 0; usedRegs := ∅; regDefToBBMap := ∅; owned := ∅; extChis := ∅;
     llvmPhiToPredMap := ∅; funRegToEntryChiMap := ∅; funRegToReturnMuMap := ∅; extFuncToCSMap := ∅ |}.

Definition buildSSA (c1 c2 : Cache) : res (MemorySSA * Cache * Cache) :=
  rfold build_if_reachable (functions (base M)) (empty_ssa, c1, c2).
End BuildSSA.
