(* ===== verification/MemSSARename.v ===== *)
(** The renaming of the memory SSA: every use and every chi gets the definition on
    top of the stacks, the operand of a phi that of the end of the block its edge
    leaves; on every path this is the definition that reaches. *)
From stdpp Require Import relations.
From S2P Require Import Prelude IR MemRegions ModRef MemSSA.
#[local] Open Scope nat_scope.

(** * Events

    What a block does to the regions, in order: its phis, then the uses and
    definitions of its instructions. *)
Inductive Event := Use (m : MuId) | Def (d : DefId).

(** The current definition of each region. *)
Abbreviation Env := (gmap (option RegId) DefId).

Section Events.
Context (M : MModule) (F : FuncId) (s0 : MemorySSA).

Definition region_of (d : DefId) : option RegId := match defs s0 !! d with Some x => region x | None => None end.
Definition mu_region_of (m : MuId) : option RegId := mu_region <$> mus s0 !! m.

Definition inst_events (Inst : MInst) : list Event := (Use <$> inst_mus s0 F Inst) ++ (Def <$> inst_chis s0 Inst).
Definition phis (X : BlockId) : list DefId := at_owner s0 bbToPhiMap X.
Definition code_events (X : BlockId) : list Event := code M X ≫= inst_events.
Definition events (X : BlockId) : list Event := (Def <$> phis X) ++ code_events X.

Definition step (cur : Env) (e : Event) : Env := match e with Use _ => cur | Def d => <[region_of d := d]> cur end.
Definition env_at (X : BlockId) (cur : Env) (k : nat) : Env := fold_left step (take k (events X)) cur.
Definition block_out (X : BlockId) (cur : Env) : Env := fold_left step (events X) cur.

Definition event_region (e : Event) : option RegId := match e with Use m => mu_region_of m | Def d => region_of d end.

Lemma env_at_out X cur : env_at X cur (length (events X)) = block_out X cur.
Proof. unfold env_at, block_out. by rewrite firstn_all. Qed.

Lemma steps_some es : forall cur V, is_Some (cur !! V) -> is_Some (fold_left step es cur !! V).
Proof.
  induction es as [|e es IH]; intros cur V HV; [done|]. apply IH. destruct e as [m|d]; [done|].
  simpl. destruct (decide (region_of d = V)) as [->|]; [by rewrite lookup_insert_eq|by rewrite lookup_insert_ne].
Qed.

(** A region that no event defines keeps its definition. *)
Lemma steps_same es V : (forall d, Def d ∈ es -> region_of d <> V) -> forall cur, fold_left step es cur !! V = cur !! V.
Proof.
  induction es as [|e es IH]; intros Hes cur; [done|]. simpl. rewrite IH; [|intros d Hd; apply Hes; by apply list_elem_of_further].
  destruct e as [m|d]; [done|]. simpl. rewrite lookup_insert_ne; [done|]. apply Hes, list_elem_of_here.
Qed.

(** Two environments agree on a region after the events when they do before, or
    when an event defines it. *)
Lemma steps_agree es V : forall cur cur', (cur !! V = cur' !! V \/ exists d, Def d ∈ es /\ region_of d = V) ->
  fold_left step es cur !! V = fold_left step es cur' !! V.
Proof.
  induction es as [|e es IH]; intros cur cur' H; simpl; [by destruct H as [?|(d & ?%not_elem_of_nil & _)]|]. apply IH.
  assert (cur !! V = cur' !! V -> step cur e !! V = step cur' e !! V) as Hs.
  { intros E. destruct e as [m|d]; [done|]. simpl. destruct (decide (region_of d = V)) as [->|]; [by rewrite !lookup_insert_eq|].
    by rewrite !lookup_insert_ne. }
  destruct H as [E|(d & [<-|Hd]%elem_of_cons & HV)]; [left; by apply Hs| |right; eauto].
  left. simpl. rewrite HV. by rewrite !lookup_insert_eq.
Qed.
End Events.

(** * The dominator tree and what the stacks hold *)

(** The fields of the objects, where there is an object. *)
Definition muVar (s : MemorySSA) (m : MuId) : option DefId := mus s !! m ≫= mu_var.
Definition varOf (s : MemorySSA) (d : DefId) : option MSSAVar := defs s !! d ≫= var.
Definition opOf (s : MemorySSA) (d : DefId) : option DefId := defs s !! d ≫= opVar.
Definition phiOp (s : MemorySSA) (d : DefId) (i : nat) : option DefId := defs s !! d ≫= fun x => phiOps x !! i.

Definition conds (s : MemorySSA) (p : DefId) : gset ValueId := match defs s !! p with Some x => phiConds x | None => ∅ end.

Section Rename.
Context (M : MModule) (F : FuncId) (s0 : MemorySSA) (Children : BlockId -> list BlockId) (entry : BlockId) (cur0 : Env).

Local Abbreviation evs := (events M F s0).
Local Abbreviation out := (block_out M F s0).
Local Abbreviation env := (env_at M F s0).
Local Abbreviation reg := (region_of s0).
Local Abbreviation mreg := (mu_region_of s0).

Definition child (X Y : BlockId) : Prop := Y ∈ Children X.
Definition in_tree (X : BlockId) : Prop := rtc child entry X.

(** The definitions the renaming of a block starts with. *)
Inductive enters : BlockId -> Env -> Prop :=
| enters_entry : enters entry cur0
| enters_child X cur Y : enters X cur -> child X Y -> enters Y (out X cur).

(** The tables: the objects exist, their regions have an entry chi, a definition
    occurs once, and nothing is set. *)
Record tables_ok : Prop := {
  to_def : forall X d, in_tree X -> Def d ∈ evs X -> is_Some (defs s0 !! d);
  to_mu : forall X m, in_tree X -> Use m ∈ evs X -> is_Some (mus s0 !! m);
  to_entry : forall X e, in_tree X -> e ∈ evs X -> is_Some (cur0 !! event_region s0 e);
  to_once : forall X Y i j d, in_tree X -> in_tree Y -> evs X !! i = Some (Def d) -> evs Y !! j = Some (Def d) -> X = Y /\ i = j;
  to_new_mu : forall X m, in_tree X -> Use m ∈ evs X -> muVar s0 m = None;
  to_new_def : forall X d, in_tree X -> Def d ∈ evs X ->
    varOf s0 d = None /\ opOf s0 d = None /\ forall i, phiOp s0 d i = None
}.

(** The dominator tree: a tree whose root has no parent; successors of its blocks
    are in it. *)
Record tree_ok (height : BlockId -> nat) : Prop := {
  tr_height : forall X Y, child X Y -> height Y < height X;
  tr_parent : forall X X' Y, in_tree X -> in_tree X' -> child X Y -> child X' Y -> X = X';
  tr_root : forall X, in_tree X -> ~ child X entry;
  tr_succ : forall X Y, in_tree X -> Y ∈ successors (base M) X -> in_tree Y /\ X ∈ predecessors (base M) Y
}.

Lemma enters_in_tree X cur : enters X cur -> in_tree X.
Proof. induction 1 as [|X cur Y _ IH HC]; [constructor|by eapply rtc_r]. Qed.

Lemma in_tree_enters X : in_tree X -> exists cur, enters X cur.
Proof.
  apply (rtc_ind_r (fun X => exists cur, enters X cur)); [exists cur0; constructor|].
  intros Y Z _ HC [cur HY]. eauto using enters.
Qed.

(** There is one. *)
Lemma enters_fun height X cur cur' : tree_ok height -> enters X cur -> enters X cur' -> cur = cur'.
Proof.
  intros HT H. revert cur'. induction H as [|X cur Y HX IH HC]; intros cur' H'.
  - inversion H' as [|Z ? ? HZ HZC]; subst; [done|]. by destruct (tr_root _ HT Z (enters_in_tree _ _ HZ)).
  - inversion H' as [E|Z curZ ? HZ HZC]; subst; [by destruct (tr_root _ HT X (enters_in_tree _ _ HX))|].
    assert (Z = X) as -> by (eapply (tr_parent _ HT); eauto using enters_in_tree). by rewrite (IH curZ HZ).
Qed.

(** The definitions in an environment come from before, or from a block. *)
Lemma env_origin (E : DefId -> Prop) : (forall V o, cur0 !! V = Some o -> E o) -> forall X cur V o, enters X cur ->
  out X cur !! V = Some o -> E o \/ exists Z, in_tree Z /\ Def o ∈ evs Z.
Proof.
  intros H0. assert (forall es cur V o, fold_left (step s0) es cur !! V = Some o -> Def o ∈ es \/ cur !! V = Some o) as Hes.
  { induction es as [|e es IH]; intros cur V o; simpl; [by right|]. intros [?|H]%IH; [left; by apply list_elem_of_further|].
    destruct e as [m|d]; simpl in H; [by right|]. destruct (decide (reg d = V)) as [Er|Hne].
    - rewrite Er, lookup_insert_eq in H. injection H as ->. left. apply list_elem_of_here.
    - rewrite lookup_insert_ne in H by done. by right. }
  intros X cur V o HE. revert V o.
  assert (forall V o, cur !! V = Some o -> E o \/ exists Z, in_tree Z /\ Def o ∈ evs Z) as Hcur.
  { induction HE as [|X cur Y HX IH HC]; intros V o Ho; [left; by eapply H0|]. apply Hes in Ho as [Ho|Ho]; [|by eapply IH].
    right. exists X. split; [by eapply enters_in_tree|done]. }
  intros V o Ho. apply Hes in Ho as [Ho|Ho]; [|by eapply Hcur]. right. exists X. split; [by eapply enters_in_tree|done].
Qed.

(** * What may be written *)

Definition good_mu (m : MuId) (o : DefId) : Prop :=
  exists X cur k, enters X cur /\ evs X !! k = Some (Use m) /\ env X cur k !! mreg m = Some o.
Definition good_op (d : DefId) (o : DefId) : Prop :=
  exists X cur k, enters X cur /\ evs X !! k = Some (Def d) /\ env X cur k !! reg d = Some o.
Definition good_phi (d : DefId) (i : nat) (o : DefId) : Prop :=
  exists X Y cur, enters X cur /\ Y ∈ successors (base M) X /\ d ∈ phis s0 Y /\ i = whichPred M X Y /\ out X cur !! reg d = Some o.
Definition good_var (d : DefId) (v : MSSAVar) : Prop :=
  def v = d /\ exists X, in_tree X /\ Def d ∈ evs X /\ bb v = Some X.

Record good (s : MemorySSA) : Prop := {
  gd_mu : forall X m o, in_tree X -> Use m ∈ evs X -> muVar s m = Some o -> good_mu m o;
  gd_op : forall X d o, in_tree X -> Def d ∈ evs X -> opOf s d = Some o -> good_op d o;
  gd_phi : forall X d i o, in_tree X -> Def d ∈ evs X -> phiOp s d i = Some o -> good_phi d i o;
  gd_var : forall X d v, in_tree X -> Def d ∈ evs X -> varOf s d = Some v -> good_var d v
}.

(** The renaming keeps tables and regions, writes only what is good and unwrites
    nothing. *)
Record renames (s s' : MemorySSA) : Prop := {
  rn_owned : owned s' = owned s;
  rn_region : forall d, region <$> defs s' !! d = region <$> defs s !! d;
  rn_mu_region : forall m, mu_region <$> mus s' !! m = mu_region <$> mus s !! m;
  rn_mu : forall m, is_Some (muVar s m) -> is_Some (muVar s' m);
  rn_op : forall d, is_Some (opOf s d) -> is_Some (opOf s' d);
  rn_phi : forall d i, is_Some (phiOp s d i) -> is_Some (phiOp s' d i);
  rn_var : forall d, is_Some (varOf s d) -> is_Some (varOf s' d);
  rn_good : good s -> good s';
  rn_other : forall d, (forall X, in_tree X -> Def d ∉ evs X) -> defs s' !! d = defs s !! d;
  rn_used : usedRegs s' = usedRegs s;
  rn_blocks : regDefToBBMap s' = regDefToBBMap s;
  rn_conds : forall d, conds s' d = conds s d
}.

Lemma renames_refl s : renames s s.
Proof. by split. Qed.

Lemma renames_trans s1 s2 s3 : renames s1 s2 -> renames s2 s3 -> renames s1 s3.
Proof.
  intros H1 H2. pose proof (rn_other _ _ H1) as O1. pose proof (rn_other _ _ H2) as O2. destruct H1, H2.
  split; [congruence|intros; etrans; eauto|intros; etrans; eauto|eauto..| |congruence|congruence|intros; etrans; eauto].
  intros d Hd. by rewrite O2, O1.
Qed.

(** One definition, or one mu, is written. *)
Lemma renames_def X0 s d x x' : in_tree X0 -> Def d ∈ evs X0 -> defs s !! d = Some x -> region x' = region x -> phiConds x' = phiConds x ->
  (is_Some (opVar x) -> is_Some (opVar x')) -> (is_Some (var x) -> is_Some (var x')) ->
  (forall i, is_Some (phiOps x !! i) -> is_Some (phiOps x' !! i)) ->
  (forall o, opVar x' = Some o -> opVar x = Some o \/ good_op d o) ->
  (forall v, var x' = Some v -> var x = Some v \/ good_var d v) ->
  (forall i o, phiOps x' !! i = Some o -> phiOps x !! i = Some o \/ good_phi d i o) ->
  renames s (with_defs (<[d := x']> (defs s)) s).
Proof.
  intros HX0 Hd0 E Er Ec So Sv Sp Go Gv Gp.
  assert (forall B (f : MSSADef -> option B) d', defs (with_defs (<[d := x']> (defs s)) s) !! d' ≫= f =
    if decide (d' = d) then f x' else defs s !! d' ≫= f) as L.
  { intros B f d'. simpl. destruct (decide (d' = d)) as [->|]; [by rewrite lookup_insert_eq|by rewrite lookup_insert_ne]. }
  split; [done| |done|done| | | | | |done|done|].
  - intros d'. simpl. destruct (decide (d' = d)) as [->|]; [rewrite lookup_insert_eq, E; simpl; by rewrite Er|by rewrite lookup_insert_ne].
  - intros d'. unfold opOf. rewrite L. destruct (decide (d' = d)) as [->|]; [by rewrite E|done].
  - intros d' i. unfold phiOp. rewrite L. destruct (decide (d' = d)) as [->|]; [rewrite E; apply Sp|done].
  - intros d'. unfold varOf. rewrite L. destruct (decide (d' = d)) as [->|]; [by rewrite E|done].
  - intros [G1 G2 G3 G4]. split; [exact G1| | |].
    + intros X d' o HX Hd. unfold opOf. rewrite L. destruct (decide (d' = d)) as [->|]; [|by apply (G2 X)].
      intros [Ho|]%Go; [|done]. apply (G2 X d o HX Hd). unfold opOf. by rewrite E.
    + intros X d' i o HX Hd. unfold phiOp. rewrite L. destruct (decide (d' = d)) as [->|]; [|by apply (G3 X)].
      intros [Ho|]%Gp; [|done]. apply (G3 X d i o HX Hd). unfold phiOp. by rewrite E.
    + intros X d' v HX Hd. unfold varOf. rewrite L. destruct (decide (d' = d)) as [->|]; [|by apply (G4 X)].
      intros [Ho|]%Gv; [|done]. apply (G4 X d v HX Hd). unfold varOf. by rewrite E.
  - intros d' Hno. simpl. rewrite lookup_insert_ne; [done|]. intros ->. by apply (Hno X0).
  - intros d'. unfold conds. simpl. destruct (decide (d' = d)) as [->|]; [by rewrite lookup_insert_eq, E|by rewrite lookup_insert_ne].
Qed.

Lemma renames_mu s m mu o : mus s !! m = Some mu -> good_mu m o ->
  renames s (with_mus (<[m := {| mu_region := mu_region mu; mu_type := mu_type mu; mu_var := Some o |}]> (mus s)) s).
Proof.
  intros E Hg. split; try done.
  - intros m'. simpl. destruct (decide (m' = m)) as [->|]; [by rewrite lookup_insert_eq, E|by rewrite lookup_insert_ne].
  - intros m'. unfold muVar. simpl. destruct (decide (m' = m)) as [->|]; [rewrite lookup_insert_eq; eauto|by rewrite lookup_insert_ne].
  - intros [G1 G2 G3 G4]. split; [|done..]. intros X m' o' HX Hm. unfold muVar. simpl.
    destruct (decide (m' = m)) as [->|]; [rewrite lookup_insert_eq; by intros [= <-]|rewrite lookup_insert_ne by done; by apply (G1 X)].
Qed.

(** * One event *)

Definition tops (r : RenameState) (cur : Env) : Prop := forall V, head (stack r V) = cur !! V.

(** What the events put on the stack of [V], the top first. *)
Fixpoint pushed (es : list Event) (V : option RegId) : list DefId :=
  match es with
  | [] => []
  | Use _ :: es => pushed es V
  | Def d :: es => pushed es V ++ (if decide (reg d = V) then [d] else [])
  end.

Definition written (s : MemorySSA) (e : Event) : Prop :=
  match e with Use m => is_Some (muVar s m) | Def d => is_Some (opOf s d) /\ is_Some (varOf s d) end.

Definition rename_event (X : BlockId) (r : RenameState) (e : Event) : res RenameState :=
  match e with Use m => rename_mu r m | Def d => rename_chi X r d end.

Lemma written_mono s s' e : renames s s' -> written s e -> written s' e.
Proof. intros R. destruct e as [m|d]; simpl; [apply (rn_mu _ _ R)|intros [? ?]; split; [by apply (rn_op _ _ R)|by apply (rn_var _ _ R)]]. Qed.

Lemma object_of s d : renames s0 s -> is_Some (defs s0 !! d) -> exists x, defs s !! d = Some x /\ region x = reg d.
Proof.
  intros R [x0 E0]. pose proof (rn_region _ _ R d) as E. unfold region_of. rewrite E0 in E |- *.
  destruct (defs s !! d) as [x|]; [|done]. simpl in E. exists x. by injection E.
Qed.

Lemma mu_of s m : renames s0 s -> is_Some (mus s0 !! m) -> exists mu, mus s !! m = Some mu /\ Some (mu_region mu) = mreg m.
Proof.
  intros R [x0 E0]. pose proof (rn_mu_region _ _ R m) as E. unfold mu_region_of. rewrite E0 in E |- *.
  destruct (mus s !! m) as [x|]; [|done]. by exists x.
Qed.

Context (HT : tables_ok).

Lemma env_covers X cur k e : enters X cur -> e ∈ evs X -> is_Some (env X cur k !! event_region s0 e).
Proof.
  intros HE He. assert (forall V, is_Some (cur0 !! V) -> is_Some (cur !! V)) as Hc.
  { clear He. induction HE as [|X cur Y HX IH HC]; [done|]. intros V HV. by apply steps_some, IH. }
  apply steps_some, Hc, (to_entry HT X); [by eapply enters_in_tree|done].
Qed.

Lemma elem_of_evs X k e : evs X !! k = Some e -> e ∈ evs X.
Proof. apply list_elem_of_lookup_2. Qed.

Lemma use_do X cur k r m : enters X cur -> evs X !! k = Some (Use m) -> tops r (env X cur k) -> renames s0 (ssa r) ->
  exists r', rename_mu r m = Ok r' /\ renames (ssa r) (ssa r') /\ is_Some (muVar (ssa r') m) /\ stacks r' = stacks r.
Proof.
  intros HE Hk Ht HR. pose proof (enters_in_tree _ _ HE) as HX. pose proof (elem_of_evs _ _ _ Hk) as Hin.
  destruct (mu_of _ m HR (to_mu HT X m HX Hin)) as (mu & Em & Er). unfold rename_mu, top. rewrite Em. cbn [of_option rbind].
  destruct (env_covers X cur k (Use m) HE Hin) as [o Ho]. simpl in Ho. rewrite Ht, Er, Ho. cbn [of_option rbind].
  eexists. split; [reflexivity|]. simpl. split; [|split; [|done]].
  - apply renames_mu; [done|]. exists X, cur, k. done.
  - unfold muVar. simpl. rewrite lookup_insert_eq. eauto.
Qed.

(** The new version of a definition of a block of the tree. *)
Lemma new_version_do X d x x' r : in_tree X -> Def d ∈ evs X -> defs (ssa r) !! d = Some x ->
  region x' = region x -> phiConds x' = phiConds x -> region x = reg d -> var x' = var x -> phiOps x' = phiOps x ->
  (is_Some (opVar x) -> is_Some (opVar x')) -> (forall o, opVar x' = Some o -> opVar x = Some o \/ good_op d o) ->
  let r' := new_version X d x' r in
  renames (ssa r) (ssa r') /\ is_Some (varOf (ssa r') d) /\ opOf (ssa r') d = opVar x' /\
  forall V, stack r' V = (if decide (reg d = V) then [d] else []) ++ stack r V.
Proof.
  intros HX Hd E Er Ec Ed Ev Ep So Go r'. unfold r', new_version. cbn [ssa]. split; [|split; [|split]].
  - eapply renames_def; [exact HX|exact Hd|exact E|done|done|done|simpl; eauto| |done| |].
    + simpl. by rewrite Ep.
    + simpl. intros v [= <-]. right. split; [done|]. exists X. done.
    + simpl. rewrite Ep. auto.
  - unfold varOf. simpl. rewrite lookup_insert_eq. simpl. eauto.
  - unfold opOf. simpl. by rewrite lookup_insert_eq.
  - intros V. unfold stack at 1. simpl. rewrite Er, Ed. destruct (decide (reg d = V)) as [->|Hne].
    + by rewrite lookup_insert_eq.
    + by rewrite lookup_insert_ne.
Qed.

Lemma chi_do X cur k r d : enters X cur -> evs X !! k = Some (Def d) -> tops r (env X cur k) -> renames s0 (ssa r) ->
  exists r', rename_chi X r d = Ok r' /\ renames (ssa r) (ssa r') /\ written (ssa r') (Def d) /\
    forall V, stack r' V = (if decide (reg d = V) then [d] else []) ++ stack r V.
Proof.
  intros HE Hk Ht HR. pose proof (enters_in_tree _ _ HE) as HX. pose proof (elem_of_evs _ _ _ Hk) as Hin.
  destruct (object_of _ d HR (to_def HT X d HX Hin)) as (x & Ex & Er). unfold rename_chi, top. rewrite Ex. cbn [of_option rbind].
  destruct (env_covers X cur k (Def d) HE Hin) as [o Ho]. simpl in Ho. rewrite Ht, Er, Ho. cbn [of_option rbind].
  destruct (new_version_do X d x (set_opVar o x) r HX Hin Ex eq_refl eq_refl Er eq_refl eq_refl) as (H1 & H2 & H3 & H4).
  - simpl. eauto.
  - simpl. intros o' [= <-]. right. exists X, cur, k. done.
  - eexists. split; [reflexivity|]. split; [done|]. split; [|done]. split; [|done]. rewrite H3. simpl. eauto.
Qed.

Lemma phi_do X r d : in_tree X -> Def d ∈ evs X -> renames s0 (ssa r) ->
  exists r', rename_phi X r d = Ok r' /\ renames (ssa r) (ssa r') /\ is_Some (varOf (ssa r') d) /\
    forall V, stack r' V = (if decide (reg d = V) then [d] else []) ++ stack r V.
Proof.
  intros HX Hin HR. destruct (object_of _ d HR (to_def HT X d HX Hin)) as (x & Ex & Er). unfold rename_phi. rewrite Ex. cbn [of_option rbind].
  destruct (new_version_do X d x x r HX Hin Ex eq_refl eq_refl Er eq_refl eq_refl) as (H1 & H2 & H3 & H4); [done|auto|].
  eexists. split; [reflexivity|]. done.
Qed.

(** * Sequences of events *)

Lemma pushed_app es es' V : pushed (es ++ es') V = pushed es' V ++ pushed es V.
Proof.
  induction es as [|[m|d] es IH]; simpl; [by rewrite app_nil_r|done|]. by rewrite IH, app_assoc.
Qed.

(** The tops after the events. *)
Lemma pushed_tops es V : forall cur l, head l = cur !! V -> head (pushed es V ++ l) = fold_left (step s0) es cur !! V.
Proof.
  induction es as [|[m|d] es IH]; intros cur l Hl; simpl; [done|by apply IH|]. rewrite <- app_assoc. apply IH.
  destruct (decide (reg d = V)) as [<-|Hne]; simpl; [by rewrite lookup_insert_eq|by rewrite lookup_insert_ne].
Qed.

(** The phis of a block. *)
Lemma phis_do X ds : forall r, in_tree X -> (forall d, d ∈ ds -> Def d ∈ evs X) -> renames s0 (ssa r) ->
  exists r', rfold (rename_phi X) ds r = Ok r' /\ renames (ssa r) (ssa r') /\ (forall d, d ∈ ds -> is_Some (varOf (ssa r') d)) /\
    forall V, stack r' V = pushed (Def <$> ds) V ++ stack r V.
Proof.
  induction ds as [|d ds IH]; intros r HX Hd HR.
  { exists r. split; [done|]. split; [apply renames_refl|]. split; [|done]. by intros ? ?%not_elem_of_nil. }
  destruct (phi_do X r d HX) as (r1 & E1 & R1 & V1 & S1); [apply Hd, list_elem_of_here|done|].
  destruct (IH r1 HX) as (r' & E' & R' & V' & S'); [intros d' Hd'; apply Hd; by apply list_elem_of_further|by eapply renames_trans|].
  exists r'. cbn [rfold]. rewrite E1. split; [exact E'|]. split; [by eapply renames_trans|]. split.
  - intros d' [->|Hd']%elem_of_cons; [by apply (rn_var _ _ R')|by apply V'].
  - intros V. rewrite S', S1. simpl. by rewrite app_assoc.
Qed.

(** The tops after the first events. *)
Lemma tops_after X cur pre es post r r' : evs X = pre ++ es ++ post -> tops r (env X cur (length pre)) ->
  (forall V, stack r' V = pushed es V ++ stack r V) -> tops r' (env X cur (length (pre ++ es))).
Proof.
  intros Hes Ht S V. rewrite S, (pushed_tops es V (env X cur (length pre)) (stack r V) (Ht V)). unfold env_at.
  assert (take (length (pre ++ es)) (evs X) = pre ++ es) as -> by (rewrite Hes, app_assoc; apply take_app_length).
  assert (take (length pre) (evs X) = pre) as -> by (rewrite Hes; apply take_app_length). by rewrite fold_left_app.
Qed.

(** Some events of a block. *)
Lemma events_do X cur post es : forall pre r, enters X cur -> evs X = pre ++ es ++ post -> tops r (env X cur (length pre)) -> renames s0 (ssa r) ->
  exists r', rfold (rename_event X) es r = Ok r' /\ renames (ssa r) (ssa r') /\ (forall e, e ∈ es -> written (ssa r') e) /\
    forall V, stack r' V = pushed es V ++ stack r V.
Proof.
  induction es as [|e es IH]; intros pre r HE Hes Ht HR.
  { exists r. split; [done|]. split; [apply renames_refl|]. split; [|done]. by intros ? ?%not_elem_of_nil. }
  assert (evs X !! length pre = Some e) as Hk by (rewrite Hes; by apply list_lookup_middle).
  assert (exists r1, rename_event X r e = Ok r1 /\ renames (ssa r) (ssa r1) /\ written (ssa r1) e /\
    forall V, stack r1 V = pushed [e] V ++ stack r V) as (r1 & E1 & R1 & W1 & S1).
  { destruct e as [m|d]; simpl.
    - destruct (use_do X cur _ r m HE Hk Ht HR) as (r1 & ? & ? & ? & E). exists r1. unfold stack. by rewrite E.
    - by apply (chi_do X cur (length pre) r d). }
  destruct (IH (pre ++ [e]) r1 HE) as (r' & E' & R' & W' & S').
  - by rewrite <- app_assoc.
  - by eapply (tops_after X cur pre [e] (es ++ post)).
  - by eapply renames_trans.
  - exists r'. cbn [rfold]. rewrite E1. split; [exact E'|]. split; [by eapply renames_trans|]. split.
    + intros e' [->|He]%elem_of_cons; [by eapply written_mono|by apply W'].
    + intros V. rewrite S', S1. change (e :: es) with ([e] ++ es). by rewrite pushed_app, app_assoc.
Qed.

(** * One block *)

Lemma owned_same s o k : renames s0 s -> at_owner s o k = at_owner s0 o k.
Proof. intros R. unfold at_owner. by rewrite (rn_owned _ _ R). Qed.

Lemma inst_mus_same s I : renames s0 s -> inst_mus s F I = inst_mus s0 F I.
Proof. intros R. destruct I; simpl; try done; by apply owned_same. Qed.

Lemma inst_chis_same s I : renames s0 s -> inst_chis s I = inst_chis s0 I.
Proof. intros R. destruct I; simpl; try done; by rewrite !(owned_same s _ _ R). Qed.

Lemma rfold_fmap {A B C} (f : A -> C -> res A) (g : B -> C) l a : rfold f (g <$> l) a = rfold (fun a b => f a (g b)) l a.
Proof. revert a. induction l as [|b l IH]; intros a; simpl; [done|]. by destruct (f a (g b)); simpl. Qed.

Lemma rename_inst_events X r I : renames s0 (ssa r) -> rename_inst F X r I = rfold (rename_event X) (inst_events F s0 I) r.
Proof.
  intros R. unfold rename_inst, inst_events. rewrite inst_mus_same, inst_chis_same by done. rewrite rfold_app, rfold_fmap.
  change (fun a b => rename_event X a (Use b)) with rename_mu.
  destruct (rfold rename_mu (inst_mus s0 F I) r) as [r1| |]; [|done..]. simpl. by rewrite rfold_fmap.
Qed.

(** The instructions of a block. *)
Lemma code_do X cur (Is : list MInst) : forall (pre : list Event) r, enters X cur -> evs X = pre ++ (Is ≫= inst_events F s0) ->
  tops r (env X cur (length pre)) -> renames s0 (ssa r) ->
  exists r', rfold (rename_inst F X) Is r = Ok r' /\ renames (ssa r) (ssa r') /\
    (forall e, e ∈ Is ≫= inst_events F s0 -> written (ssa r') e) /\
    forall V, stack r' V = pushed (Is ≫= inst_events F s0) V ++ stack r V.
Proof.
  induction Is as [|I Is IH]; intros pre r HE Hes Ht HR.
  { exists r. split; [done|]. split; [apply renames_refl|]. split; [|done]. by intros ? ?%not_elem_of_nil. }
  rewrite bind_cons in *. cbn [rfold]. rewrite rename_inst_events by done.
  destruct (events_do X cur _ _ pre r HE Hes Ht HR) as (r1 & -> & R1 & W1 & S1). cbn [rbind].
  destruct (IH (pre ++ inst_events F s0 I) r1 HE) as (r' & E' & R' & W' & S').
  - by rewrite <- app_assoc.
  - by eapply tops_after.
  - by eapply renames_trans.
  - exists r'. split; [exact E'|]. split; [by eapply renames_trans|]. split.
    + intros e [He|He]%elem_of_app; [by eapply written_mono, W1|by apply W'].
    + intros V. by rewrite S', S1, pushed_app, app_assoc.
Qed.

(** The operands of the phis of a successor. *)
Lemma ops_do X cur Y ds : forall r, enters X cur -> Y ∈ successors (base M) X -> in_tree Y ->
  (forall d, d ∈ ds -> d ∈ phis s0 Y) -> tops r (out X cur) -> renames s0 (ssa r) ->
  exists r', rfold (rename_op M X Y) ds r = Ok r' /\ renames (ssa r) (ssa r') /\
    (forall d, d ∈ ds -> is_Some (phiOp (ssa r') d (whichPred M X Y))) /\ stacks r' = stacks r.
Proof.
  induction ds as [|d ds IH]; intros r HE HY HYt Hd Ht HR.
  { exists r. split; [done|]. split; [apply renames_refl|]. split; [|done]. by intros ? ?%not_elem_of_nil. }
  assert (d ∈ phis s0 Y) as Hdp by (apply Hd, list_elem_of_here).
  assert (Def d ∈ evs Y) as Hin by (apply elem_of_app; left; by apply list_elem_of_fmap_2).
  destruct (object_of _ d HR (to_def HT Y d HYt Hin)) as (x & Ex & Er).
  assert (is_Some (out X cur !! reg d)) as [o Ho].
  { rewrite <- env_at_out. apply steps_some. pose proof (to_entry HT Y (Def d) HYt Hin) as H0. simpl in H0.
    clear -HE H0. induction HE as [|X cur Z HX IH HC]; [done|]. by apply steps_some. }
  cbn [rfold]. unfold rename_op at 1, top. rewrite Ex. cbn [of_option rbind]. rewrite Ht, Er, Ho. cbn [of_option rbind].
  set (r1 := with_ssa _ r).
  assert (renames (ssa r) (ssa r1)) as R1.
  { apply (renames_def Y (ssa r) d x); simpl; auto.
    - intros i Hi. destruct (decide (i = whichPred M X Y)) as [->|]; [rewrite lookup_insert_eq; eauto|by rewrite lookup_insert_ne].
    - intros i o'. destruct (decide (i = whichPred M X Y)) as [->|]; [|rewrite lookup_insert_ne by done; by left].
      rewrite lookup_insert_eq. intros [= <-]. right. exists X, Y, cur. done. }
  destruct (IH r1 HE HY HYt) as (r' & E' & R' & W' & S'); [intros d' Hd'; apply Hd; by apply list_elem_of_further|done|by eapply renames_trans|].
  exists r'. split; [exact E'|]. split; [by eapply renames_trans|]. split; [|done].
  intros d' [->|Hd']%elem_of_cons; [|by apply W']. apply (rn_phi _ _ R'). unfold phiOp. simpl.
  rewrite lookup_insert_eq. simpl. rewrite lookup_insert_eq. eauto.
Qed.

Lemma succs_do height X cur Ys : forall r, tree_ok height -> enters X cur -> (forall Y, Y ∈ Ys -> Y ∈ successors (base M) X) ->
  tops r (out X cur) -> renames s0 (ssa r) ->
  exists r', rfold (rename_succ M X) Ys r = Ok r' /\ renames (ssa r) (ssa r') /\
    (forall Y d, Y ∈ Ys -> d ∈ phis s0 Y -> is_Some (phiOp (ssa r') d (whichPred M X Y))) /\ stacks r' = stacks r.
Proof.
  intros r HTr HE. revert r. induction Ys as [|Y Ys IH]; intros r HYs Ht HR.
  { exists r. split; [done|]. split; [apply renames_refl|]. split; [|done]. by intros ? ? ?%not_elem_of_nil. }
  assert (Y ∈ successors (base M) X) as HY by (apply HYs, list_elem_of_here).
  cbn [rfold]. unfold rename_succ at 1. rewrite (owned_same (ssa r)) by done.
  destruct (ops_do X cur Y (phis s0 Y) r HE HY) as (r1 & E1 & R1 & W1 & S1);
    [by apply (tr_succ _ HTr X Y (enters_in_tree _ _ HE))|done|done|done|].
  unfold phis in E1. rewrite E1. cbn [rbind].
  destruct (IH r1) as (r' & E' & R' & W' & S'); [intros Z HZ; apply HYs; by apply list_elem_of_further| |by eapply renames_trans|].
  { intros V. unfold stack. rewrite S1. apply Ht. }
  exists r'. split; [exact E'|]. split; [by eapply renames_trans|]. split; [|congruence].
  intros Z d [->|HZ]%elem_of_cons Hd; [by apply (rn_phi _ _ R'), W1|by apply W'].
Qed.

(** The pops take from each stack as many as there are definitions. *)
Lemma pops_do ds (A : option RegId -> list DefId) (B : option RegId -> list DefId) : forall r, renames s0 (ssa r) ->
  (forall d, d ∈ ds -> is_Some (defs s0 !! d)) -> (forall V, stack r V = A V ++ B V) ->
  (forall V, length (A V) = length (pushed (Def <$> ds) V)) ->
  exists r', rfold pop_def ds r = Ok r' /\ ssa r' = ssa r /\ forall V, stack r' V = B V.
Proof.
  revert A. induction ds as [|d ds IH]; intros A r HR Hd HS HL.
  { exists r. split; [done|]. split; [done|]. intros V. rewrite HS. specialize (HL V). simpl in HL. by destruct (A V). }
  destruct (object_of _ d HR (Hd d (list_elem_of_here _ _))) as (x & Ex & Er). cbn [rfold]. unfold pop_def at 1, pop.
  rewrite Ex. cbn [of_option rbind]. rewrite Er, HS. pose proof (HL (reg d)) as HLd. cbn [fmap list_fmap pushed] in HLd.
  rewrite decide_True, length_app in HLd by done. cbn [length] in HLd.
  destruct (A (reg d)) as [|a l] eqn:EA; [simpl in HLd; lia|]. cbn [app rbind].
  set (r1 := {| counters := counters r; stacks := <[reg d := l ++ B (reg d)]> (stacks r); ssa := ssa r |}).
  destruct (IH (fun V => if decide (V = reg d) then l else A V) r1) as (r' & E' & Es & S').
  - done.
  - intros d' Hd'. apply Hd. by apply list_elem_of_further.
  - intros V. unfold stack, r1. simpl. destruct (decide (V = reg d)) as [->|]; [by rewrite lookup_insert_eq|].
    rewrite lookup_insert_ne by done. apply HS.
  - intros V. destruct (decide (V = reg d)) as [->|Hne]; [simpl in HLd; lia|].
    rewrite HL. cbn [fmap list_fmap pushed]. rewrite decide_False by done. by rewrite app_nil_r.
  - exists r'. split; [exact E'|]. split; [by rewrite Es|done].
Qed.

Lemma pop_def_ssa r d r' : pop_def r d = Ok r' -> ssa r' = ssa r.
Proof.
  unfold pop_def, pop. intros (x & _ & E)%rbind_ok. destruct (stack r (region x)); [discriminate|]. by injection E as <-.
Qed.

Lemma pop_defs_ssa ds : forall r r', rfold pop_def ds r = Ok r' -> ssa r' = ssa r.
Proof.
  induction ds as [|d ds IH]; intros r r'; simpl; [by intros [= <-]|]. intros (r1 & E1 & E)%rbind_ok.
  rewrite (IH _ _ E). by eapply pop_def_ssa.
Qed.

Lemma pop_insts Is : forall r, renames s0 (ssa r) -> rfold pop_inst Is r = rfold pop_def (Is ≫= inst_chis s0) r.
Proof.
  induction Is as [|I Is IH]; intros r HR; [done|]. rewrite bind_cons, rfold_app. cbn [rfold]. unfold pop_inst at 1.
  rewrite inst_chis_same by done. destruct (rfold pop_def (inst_chis s0 I) r) as [r1| |] eqn:E; [|done..].
  cbn [rbind]. apply IH. by rewrite (pop_defs_ssa _ _ _ E).
Qed.

Definition event_def (e : Event) : option DefId := match e with Def d => Some d | Use _ => None end.

Lemma pushed_defs es V : pushed es V = pushed (Def <$> omap event_def es) V.
Proof. induction es as [|[m|d] es IH]; simpl; [done|done|]. by rewrite IH. Qed.

Lemma event_defs X : omap event_def (evs X) = phis s0 X ++ (code M X ≫= inst_chis s0).
Proof.
  assert (forall ds : list DefId, omap event_def (Def <$> ds) = ds) as Hd by (induction ds as [|d ds IH]; [done|exact (f_equal (cons d) IH)]).
  assert (forall ms : list MuId, omap event_def (Use <$> ms) = []) as Hm by (induction ms as [|m ms IH]; [done|exact IH]).
  unfold events. rewrite omap_app, Hd. f_equal. unfold code_events. induction (code M X) as [|I Is IH]; [done|].
  rewrite !bind_cons, omap_app, IH. f_equal. unfold inst_events. by rewrite omap_app, Hm, Hd.
Qed.

(** * The tree *)

(** All that the renaming of a block writes is written. *)
Definition block_done (s : MemorySSA) (X : BlockId) : Prop :=
  (forall d, d ∈ phis s0 X -> is_Some (varOf s d)) /\ (forall e, e ∈ code_events M F s0 X -> written s e) /\
  forall Y d, Y ∈ successors (base M) X -> d ∈ phis s0 Y -> is_Some (phiOp s d (whichPred M X Y)).

Lemma block_done_mono s s' X : renames s s' -> block_done s X -> block_done s' X.
Proof.
  intros R (H1 & H2 & H3). split; [|split].
  - intros d Hd. by apply (rn_var _ _ R), H1.
  - intros e He. by eapply written_mono, H2.
  - intros Y d HY Hd. by apply (rn_phi _ _ R), H3.
Qed.

Section Tree.
Context (height : BlockId -> nat) (HTr : tree_ok height).

(** What [renameBB] does to a block and those below it. *)
Definition renames_block (fuel : nat) (Y : BlockId) (r : RenameState) : Prop :=
  exists r', renameBB fuel M Children F Y r = Ok r' /\ renames (ssa r) (ssa r') /\
    (forall Z, rtc child Y Z -> block_done (ssa r') Z) /\ forall V, stack r' V = stack r V.

(** The children, in any order. *)
Lemma children_do fuel X cur :
  (forall Y cur r, height Y < fuel -> enters Y cur -> tops r cur -> renames s0 (ssa r) -> renames_block fuel Y r) ->
  height X < S fuel -> enters X cur -> forall Ys ra, (forall Y, Y ∈ Ys -> child X Y) -> renames s0 (ssa ra) -> tops ra (out X cur) ->
  exists rb, rfold (fun r Y => renameBB fuel M Children F Y r) Ys ra = Ok rb /\ renames (ssa ra) (ssa rb) /\
    (forall Y Z, Y ∈ Ys -> rtc child Y Z -> block_done (ssa rb) Z) /\ forall V, stack rb V = stack ra V.
Proof.
  intros IH Hf HE.
  induction Ys as [|Y Ys IHY]; intros ra HYs HRa Hta.
  { exists ra. split; [done|]. split; [apply renames_refl|]. split; [|done]. by intros ? ? ?%not_elem_of_nil. }
  assert (child X Y) as HC by (apply HYs, list_elem_of_here).
  destruct (IH Y (out X cur) ra) as (rb & Eb & Rb & Db & Sb); [|by constructor|done|done|].
  { pose proof (tr_height _ HTr X Y HC). lia. }
  destruct (IHY rb) as (rc & Ec & Rc & Dc & Sc).
  { intros Z HZ. apply HYs. by apply list_elem_of_further. }
  { by eapply renames_trans. }
  { intros V. by rewrite Sb. }
  exists rc. cbn [rfold]. rewrite Eb. split; [exact Ec|]. split; [by eapply renames_trans|]. split.
  - intros Z W [->|HZ]%elem_of_cons HW; [by eapply block_done_mono, Db|by eapply Dc].
  - intros V. by rewrite Sc.
Qed.

Lemma renameBB_do fuel : forall X cur r, height X < fuel -> enters X cur -> tops r cur -> renames s0 (ssa r) -> renames_block fuel X r.
Proof.
  induction fuel as [|fuel IH]; intros X cur r Hf HE Ht HR; [lia|]. unfold renames_block. cbn [renameBB].
  pose proof (enters_in_tree _ _ HE) as HX.
  rewrite (owned_same (ssa r)) by done.
  destruct (phis_do X (phis s0 X) r HX) as (r1 & E1 & R1 & V1 & S1).
  { intros d Hd. apply elem_of_app. left. by apply list_elem_of_fmap_2. }
  { done. }
  unfold phis in E1 at 1. rewrite E1. cbn [rbind].
  assert (renames s0 (ssa r1)) as HR1 by (by eapply renames_trans).
  destruct (code_do X cur (code M X) (Def <$> phis s0 X) r1 HE) as (r2 & E2 & R2 & W2 & S2); [done| |done|].
  { pose proof (tops_after X cur [] (Def <$> phis s0 X) (code_events M F s0 X) r r1 eq_refl Ht S1) as Ht1. exact Ht1. }
  rewrite E2. cbn [rbind]. assert (renames s0 (ssa r2)) as HR2 by (by eapply renames_trans).
  assert (tops r2 (out X cur)) as Ht2.
  { intros V. rewrite S2, S1, app_assoc, <- pushed_app. apply (pushed_tops (evs X) V cur), Ht. }
  destruct (succs_do height X cur (successors (base M) X) r2 HTr HE (fun _ H => H) Ht2 HR2) as (r3 & E3 & R3 & W3 & S3).
  rewrite E3. cbn [rbind]. assert (renames s0 (ssa r3)) as HR3 by (by eapply renames_trans).
  pose proof (children_do fuel X cur IH Hf HE) as Hkids.
  destruct (Hkids (Children X) r3) as (r4 & E4 & R4 & D4 & S4); [done|done| |].
  { intros V. unfold stack. rewrite S3. apply Ht2. }
  rewrite E4. cbn [rbind]. assert (renames s0 (ssa r4)) as HR4 by (by eapply renames_trans).
  rewrite (owned_same (ssa r4)) by done.
  destruct (pops_do (phis s0 X ++ (code M X ≫= inst_chis s0)) (pushed (evs X)) (stack r) r4) as (r' & E' & Es & S').
  - done.
  - intros d Hd. rewrite <- event_defs in Hd. apply list_elem_of_omap in Hd as ([m|d'] & Hin & [= <-]). by apply (to_def HT X).
  - intros V. rewrite S4. unfold stack at 1. rewrite S3. change (default [] (stacks r2 !! V)) with (stack r2 V).
    rewrite S2, S1, app_assoc, <- pushed_app. done.
  - intros V. by rewrite (pushed_defs (evs X)), event_defs.
  - exists r'. rewrite rfold_app in E'. unfold phis in E' at 1. destruct (rfold pop_def (at_owner s0 bbToPhiMap X) r4) as [r5| |] eqn:E5; [|done..].
    cbn [rbind] in *. rewrite pop_insts by (by rewrite (pop_defs_ssa _ _ _ E5)). split; [exact E'|]. rewrite Es.
    split; [by do 3 (eapply renames_trans; [eassumption|])|]. split; [|done].
    intros Y HY. inversion HY as [|? Z ? HZ HZY]; subst; [|by eapply D4].
    split; [|split].
    + intros d Hd. by apply (rn_var _ _ R4), (rn_var _ _ R3), (rn_var _ _ R2), V1.
    + intros e He. eapply written_mono; [exact R4|]. eapply written_mono; [exact R3|]. by apply W2.
    + intros Z d HZs Hd. by apply (rn_phi _ _ R4), W3.
Qed.
End Tree.

(** * What the objects hold in the end *)

Definition used_once (m : MuId) : Prop := forall X Y i j, in_tree X -> in_tree Y ->
  evs X !! i = Some (Use m) -> evs Y !! j = Some (Use m) -> X = Y /\ i = j.

(** [cur] being current at the beginning of [X]. *)
Record block_right (s : MemorySSA) (X : BlockId) (cur : Env) : Prop := {
  br_use : forall k m, evs X !! k = Some (Use m) -> used_once m -> muVar s m = env X cur k !! mreg m;
  br_chi : forall k d, length (phis s0 X) <= k -> evs X !! k = Some (Def d) -> opOf s d = env X cur k !! reg d;
  br_phi : forall Y d, Y ∈ successors (base M) X -> d ∈ phis s0 Y -> phiOp s d (whichPred M X Y) = out X cur !! reg d;
  br_var : forall d, Def d ∈ evs X -> exists v, varOf s d = Some v /\ def v = d /\ bb v = Some X
}.

Lemma position_inj (l : list BlockId) x y : x ∈ l -> position x l = position y l -> x = y.
Proof.
  induction l as [|z l IH]; [by intros ?%not_elem_of_nil|]. intros Hx. simpl.
  repeat case_bool_decide; subst; try done. intros [= E]. apply IH; [|done]. by apply elem_of_cons in Hx as [?|?].
Qed.

Lemma evs_split X k e : evs X !! k = Some e -> length (phis s0 X) <= k -> e ∈ code_events M F s0 X.
Proof.
  intros Hk Hl. unfold events in Hk. rewrite lookup_app_r in Hk by (by rewrite length_fmap). by eapply list_elem_of_lookup_2.
Qed.

Section Final.
Context (height : BlockId -> nat) (HTr : tree_ok height).

Lemma def_once X Y d : in_tree X -> in_tree Y -> Def d ∈ evs X -> Def d ∈ evs Y -> X = Y.
Proof.
  intros HX HY [i Hi]%list_elem_of_lookup [j Hj]%list_elem_of_lookup. by apply (to_once HT X Y i j d).
Qed.

Lemma phi_in_evs X d : d ∈ phis s0 X -> Def d ∈ evs X.
Proof. intros Hd. apply elem_of_app. left. by apply list_elem_of_fmap_2. Qed.

Lemma done_right s X cur : good s -> block_done s X -> enters X cur -> block_right s X cur.
Proof.
  intros [G1 G2 G3 G4] (D1 & D2 & D3) HE. pose proof (enters_in_tree _ _ HE) as HX. split.
  - intros k m Hk Ho. assert (written s (Use m)) as [o Eo].
    { apply D2. apply elem_of_evs, elem_of_app in Hk as [(d & [=] & _)%list_elem_of_fmap|Hk]. exact Hk. }
    rewrite Eo. destruct (G1 X m o HX (elem_of_evs _ _ _ Hk) Eo) as (Y & curY & j & HY & Hj & EY).
    destruct (Ho X Y k j HX (enters_in_tree _ _ HY) Hk Hj) as [<- <-]. by rewrite (enters_fun height X cur curY HTr HE HY).
  - intros k d Hl Hk. destruct (D2 (Def d) (evs_split X k _ Hk Hl)) as [[o Eo] _]. rewrite Eo.
    destruct (G2 X d o HX (elem_of_evs _ _ _ Hk) Eo) as (Y & curY & j & HY & Hj & EY).
    destruct (to_once HT X Y k j d HX (enters_in_tree _ _ HY) Hk Hj) as [<- <-]. by rewrite (enters_fun height X cur curY HTr HE HY).
  - intros Y d HYs Hd. destruct (D3 Y d HYs Hd) as [o Eo]. rewrite Eo.
    destruct (tr_succ _ HTr X Y HX HYs) as [HY HXp].
    destruct (G3 Y d _ o HY (phi_in_evs _ _ Hd) Eo) as (X' & Y' & cur' & HX' & HYs' & Hd' & Ei & EX).
    destruct (tr_succ _ HTr X' Y' (enters_in_tree _ _ HX') HYs') as [HY' HXp'].
    assert (Y = Y') as <- by (eapply def_once; eauto using phi_in_evs).
    assert (X = X') as <- by (by apply (position_inj _ _ _ HXp)). by rewrite (enters_fun height X cur cur' HTr HE HX').
  - intros d Hd. assert (is_Some (varOf s d)) as [v Ev].
    { apply elem_of_app in Hd as [(d' & [= <-] & Hd)%list_elem_of_fmap|Hd]; [by apply D1|]. by apply (D2 _ Hd). }
    exists v. split; [done|]. destruct (G4 X d v HX Hd Ev) as (Ed & Y & HY & HdY & Eb). split; [done|].
    by rewrite (def_once X Y d HX HY Hd HdY).
Qed.

(** * Paths *)

(** The definitions current at the beginning of a block on a path from the entry. *)
Inductive reaches : BlockId -> Env -> Prop :=
| reaches_entry : reaches entry cur0
| reaches_step X cur Y : reaches X cur -> Y ∈ successors (base M) X -> reaches Y (out X cur).

(** The immediate dominator of a block dominates its predecessors. *)
Definition idom_dominates : Prop := forall X Y, in_tree X -> Y ∈ successors (base M) X ->
  exists P, in_tree P /\ child P Y /\ rtc child P X.

(** A definition of [Z] meets others where [Z] stops dominating: there is a phi. *)
Definition phis_placed : Prop := forall Z X Y d, in_tree Z -> Def d ∈ evs Z -> rtc child Z X -> Y ∈ successors (base M) X ->
  ~ tc child Z Y -> exists p, p ∈ phis s0 Y /\ reg p = reg d.

Lemma rtc_height X Y : rtc child X Y -> height Y <= height X.
Proof. induction 1 as [|X Y Z HC _ IH]; [lia|]. apply (tr_height _ HTr) in HC. lia. Qed.

Lemma tc_height X Y : tc child X Y -> height Y < height X.
Proof. induction 1 as [X Y HC|X Y Z HC _ IH]; apply (tr_height _ HTr) in HC; lia. Qed.

(** Nothing defines [V] between [P] and [X]. *)
Lemma chain_same P X V curP : rtc child P X -> enters P curP ->
  (forall Z d, tc child P Z -> rtc child Z X -> Def d ∈ evs Z -> reg d <> V) ->
  forall curX, enters X curX -> out X curX !! V = out P curP !! V.
Proof.
  intros HPX HP. revert X HPX. refine (rtc_ind_r _ P _ _).
  - intros _ curX HX. by rewrite (enters_fun height P curX curP HTr HX HP).
  - intros X Y HPX HC IH Hno curY HY. destruct (in_tree_enters X) as [curX HX].
    { by apply (rtc_trans _ P); [eapply enters_in_tree|]. }
    rewrite (enters_fun height Y curY (out X curX) HTr HY); [|by constructor].
    assert (tc child P Y) as HPY by (by eapply tc_rtc_l; [|apply tc_once]).
    unfold block_out at 1. rewrite steps_same; [apply IH; [|done]|].
    + intros Z d HZ HZX. apply Hno; [done|]. by eapply rtc_r.
    + intros d Hd. by apply (Hno Y d HPY).
Qed.

(** A path and the tree agree, but on regions that get a phi. *)
Lemma path_enters X cur : idom_dominates -> phis_placed -> reaches X cur ->
  exists cur', enters X cur' /\ forall V, cur' !! V = cur !! V \/ exists p, p ∈ phis s0 X /\ reg p = V.
Proof.
  intros HID HP. induction 1 as [|X cur Y HX IH HY]; [exists cur0; split; [constructor|by left]|].
  destruct IH as (curX & HE & HV). pose proof (enters_in_tree _ _ HE) as HXt.
  destruct (HID X Y HXt HY) as (P & HPt & HPY & HPX). destruct (in_tree_enters P HPt) as [curP HEP].
  exists (out P curP). split; [by constructor|]. intros V.
  destruct (decide (Exists (fun p => reg p = V) (phis s0 Y))) as [Hex|Hno].
  { right. by apply Exists_exists in Hex. }
  left. rewrite <- (chain_same P X V curP HPX HEP) with (curX := curX); [| |done].
  - apply steps_agree. destruct (HV V) as [?|(p & Hp & EV)]; [by left|]. right. exists p. split; [by apply phi_in_evs|done].
  - intros Z d HPZ HZX Hd EV. apply Hno, Exists_exists. rewrite <- EV.
    assert (in_tree Z) as HZt by (eapply rtc_trans; [exact HPt|by apply tc_rtc]).
    apply (HP Z X Y d); [done..|]. intros HZY. pose proof (tc_height _ _ HZY) as HhZ.
    apply tc_rtc, rtc_inv_r in HZY as [->|(W & HZW & HWY)]; [lia|].
    assert (W = P) as -> by (apply (tr_parent _ HTr W P Y); [by eapply rtc_trans|done..]).
    apply rtc_height in HZW. apply tc_height in HPZ. lia.
Qed.

(** Every use, chi and phi holds the definition current on every path. *)
Lemma paths_right s X cur : idom_dominates -> phis_placed -> good s -> (forall Y, in_tree Y -> block_done s Y) ->
  reaches X cur -> block_right s X cur.
Proof.
  intros HID HP HG HD HX. destruct (path_enters X cur HID HP HX) as (cur' & HE & HV).
  assert (forall k V, length (phis s0 X) <= k -> env X cur' k !! V = env X cur k !! V) as Hk.
  { intros k V Hl. apply steps_agree. destruct (HV V) as [?|(p & Hp & E)]; [by left|right]. exists p. split; [|done].
    unfold events. rewrite firstn_app, firstn_all2 by (by rewrite length_fmap). apply elem_of_app. left. by apply list_elem_of_fmap_2. }
  destruct (done_right s X cur' HG (HD X (enters_in_tree _ _ HE)) HE) as [B1 B2 B3 B4]. split; [|..|exact B4].
  - intros k m Em Ho. rewrite <- Hk; [by apply B1|]. destruct (Nat.lt_ge_cases k (length (phis s0 X))) as [Hl|]; [|done].
    unfold events in Em. rewrite lookup_app_l in Em by (by rewrite length_fmap). by apply list_lookup_fmap_Some in Em as (d & [=] & _).
  - intros k d Hl Ed. rewrite <- Hk by done. by apply B2.
  - intros Y d HY Hd. rewrite <- env_at_out, <- Hk, env_at_out; [by apply B3|].
    unfold events. rewrite length_app, length_fmap. lia.
Qed.
End Final.
End Rename.

Arguments child Children X Y /.

(** * [rename] *)

(** Two states that differ at most in fields of definitions. *)
Record same_objects (s s' : MemorySSA) : Prop := {
  so_owned : owned s' = owned s;
  so_region : forall d, region_of s' d = region_of s d;
  so_mu_region : forall m, mu_region_of s' m = mu_region_of s m;
  so_used : usedRegs s' = usedRegs s;
  so_blocks : regDefToBBMap s' = regDefToBBMap s
}.

Section Same.
Context (M : MModule) (F : FuncId) (s s' : MemorySSA) (HS : same_objects s s').

Lemma same_at_owner o k : at_owner s' o k = at_owner s o k.
Proof. unfold at_owner. by rewrite (so_owned _ _ HS). Qed.

Lemma same_events X : events M F s' X = events M F s X.
Proof.
  assert (forall I, inst_events F s' I = inst_events F s I) as HI.
  { intros I. unfold inst_events. f_equal; destruct I; simpl; try done; by rewrite ?same_at_owner. }
  unfold events, phis, code_events. rewrite same_at_owner. f_equal.
  induction (code M X) as [|I Is IH]; [done|]. rewrite !bind_cons, HI. by rewrite IH.
Qed.

Lemma same_step cur e : step s' cur e = step s cur e.
Proof. destruct e; simpl; [done|]. by rewrite (so_region _ _ HS). Qed.

Lemma same_steps es : forall cur, fold_left (step s') es cur = fold_left (step s) es cur.
Proof. induction es as [|e es IH]; intros cur; simpl; [done|]. by rewrite same_step, IH. Qed.

Lemma same_env_at X cur k : env_at M F s' X cur k = env_at M F s X cur k.
Proof. unfold env_at. by rewrite same_events, same_steps. Qed.

Lemma same_out X cur : block_out M F s' X cur = block_out M F s X cur.
Proof. unfold block_out. by rewrite same_events, same_steps. Qed.

Lemma same_event_region e : event_region s' e = event_region s e.
Proof. destruct e; simpl; [apply (so_mu_region _ _ HS)|apply (so_region _ _ HS)]. Qed.

Lemma same_reaches entry cur0 X cur : reaches M F s' entry cur0 X cur <-> reaches M F s entry cur0 X cur.
Proof.
  split; (induction 1 as [|X cur Y _ IH HY]; [constructor|]).
  - rewrite same_out. by constructor.
  - rewrite <- same_out. by constructor.
Qed.

Lemma same_used_once Children entry m : used_once M F s' Children entry m <-> used_once M F s Children entry m.
Proof. unfold used_once. by setoid_rewrite same_events. Qed.
End Same.

(** The definitions current at the beginning of a function. *)
Definition entry_env (F : FuncId) (s : MemorySSA) : Env := fold_left (step s) (Def <$> at_owner s funToEntryChiMap F) ∅.

Lemma same_entry_env F s s' : same_objects s s' -> entry_env F s' = entry_env F s.
Proof. intros HS. unfold entry_env. by rewrite (same_at_owner s s' HS), (same_steps s s' HS). Qed.

Lemma rename_entries_do s entry E : forall r, (forall d, d ∈ E -> is_Some (defs s !! d)) -> same_objects s (ssa r) ->
  (forall d, is_Some (defs (ssa r) !! d) <-> is_Some (defs s !! d)) ->
  exists r', rfold (rename_entry entry) E r = Ok r' /\ same_objects s (ssa r') /\ mus (ssa r') = mus (ssa r) /\
    (forall d, is_Some (defs (ssa r') !! d) <-> is_Some (defs s !! d)) /\
    (forall d, d ∉ E -> defs (ssa r') !! d = defs (ssa r) !! d) /\
    (forall d, d ∈ E -> exists v, varOf (ssa r') d = Some v /\ bb v = Some entry) /\
    (forall d, conds (ssa r') d = conds (ssa r) d) /\
    forall V, stack r' V = pushed s (Def <$> E) V ++ stack r V.
Proof.
  induction E as [|d E IH]; intros r Hd HS Hdom.
  { exists r. split; [done|]. split; [done|]. split; [done|]. split; [done|]. split; [done|]. split; [|done]. by intros ? ?%not_elem_of_nil. }
  destruct (proj2 (Hdom d) (Hd d (list_elem_of_here _ _))) as [x Ex]. cbn [rfold]. unfold rename_entry at 1.
  rewrite Ex. cbn [of_option rbind]. set (r1 := {| counters := _ |}).
  assert (region x = region_of s d) as Er by (rewrite <- (so_region _ _ HS); unfold region_of; by rewrite Ex).
  destruct (IH r1) as (r' & E' & HS' & EM & Hdom' & Hout & Hv & Hcd & S').
  - intros d' Hd'. apply Hd. by apply list_elem_of_further.
  - split; [exact (so_owned _ _ HS)| |exact (so_mu_region _ _ HS)|exact (so_used _ _ HS)|exact (so_blocks _ _ HS)]. intros d'. rewrite <- (so_region _ _ HS). unfold region_of. simpl.
    destruct (decide (d' = d)) as [->|]; [by rewrite lookup_insert_eq, Ex|by rewrite lookup_insert_ne].
  - intros d'. rewrite <- Hdom. simpl. destruct (decide (d' = d)) as [->|]; [rewrite lookup_insert_eq, Ex; by split; eauto|by rewrite lookup_insert_ne].
  - exists r'. split; [exact E'|]. split; [done|]. split; [exact EM|]. split; [done|]. split.
    + intros d' [Hne HdE]%not_elem_of_cons. rewrite Hout by done. simpl. by rewrite lookup_insert_ne.
    + split. { intros d' Hd'. destruct (decide (d' ∈ E)) as [HdE|HdE]; [by apply Hv|]. apply elem_of_cons in Hd' as [->|]; [|done].
        unfold varOf. rewrite Hout by done. simpl. rewrite lookup_insert_eq. by eexists. }
      split. { intros d'. rewrite Hcd. unfold conds. simpl. destruct (decide (d' = d)) as [->|]; [by rewrite lookup_insert_eq, Ex|by rewrite lookup_insert_ne]. }
      intros V. rewrite S'. unfold stack at 1. simpl. rewrite Er, <- app_assoc. f_equal.
      destruct (decide (region_of s d = V)) as [<-|Hne]; [by rewrite lookup_insert_eq|by rewrite lookup_insert_ne].
Qed.

Lemma renames_same M F s0 Children entry cur0 s : renames M F s0 Children entry cur0 s0 s -> same_objects s0 s.
Proof.
  intros R. split; [exact (rn_owned _ _ _ _ _ _ _ _ R)| | |exact (rn_used _ _ _ _ _ _ _ _ R)|exact (rn_blocks _ _ _ _ _ _ _ _ R)].
  - intros d. pose proof (rn_region _ _ _ _ _ _ _ _ R d) as E. unfold region_of.
    destruct (defs s !! d), (defs s0 !! d); simpl in E; by simplify_eq.
  - intros m. apply (rn_mu_region _ _ _ _ _ _ _ _ R).
Qed.

Lemma block_right_same M F s0 s1 Children entry s X cur : same_objects s0 s1 ->
  block_right M F s0 Children entry s X cur -> block_right M F s1 Children entry s X cur.
Proof.
  intros HS [B1 B2 B3 B4].
  assert (forall Y, phis s1 Y = phis s0 Y) as Hp by (intros Y; unfold phis; apply (same_at_owner s0 s1 HS)). split.
  - intros k m. rewrite (same_events M F s0 s1 HS), (same_used_once M F s0 s1 HS), (same_env_at M F s0 s1 HS), (so_mu_region _ _ HS). apply B1.
  - intros k d. rewrite Hp, (same_events M F s0 s1 HS), (same_env_at M F s0 s1 HS), (so_region _ _ HS). apply B2.
  - intros Y d. rewrite Hp, (same_out M F s0 s1 HS), (so_region _ _ HS). apply B3.
  - intros d. rewrite (same_events M F s0 s1 HS). apply B4.
Qed.

Lemma same_objects_sym s s' : same_objects s s' -> same_objects s' s.
Proof. intros []. by split. Qed.

Lemma same_objects_trans s s' s'' : same_objects s s' -> same_objects s' s'' -> same_objects s s''.
Proof. intros [] []. split; [congruence|intros; etrans; eauto|intros; etrans; eauto|congruence|congruence]. Qed.

Lemma entry_env_origin F s V o : entry_env F s !! V = Some o -> o ∈ at_owner s funToEntryChiMap F.
Proof.
  unfold entry_env. generalize (at_owner s funToEntryChiMap F) as l.
  assert (forall l cur, fold_left (step s) (Def <$> l) cur !! V = Some o -> o ∈ l \/ cur !! V = Some o) as H.
  { induction l as [|d l IH]; intros cur; simpl; [by right|]. intros [?|E]%IH; [left; by apply list_elem_of_further|].
    destruct (decide (region_of s d = V)) as [Er|Hne]; [rewrite Er, lookup_insert_eq in E; injection E as ->; left; apply list_elem_of_here|].
    rewrite lookup_insert_ne in E by done. by right. }
  intros l [?|E]%H; [done|by rewrite lookup_empty in E].
Qed.

Section RenameSpec.
Context (M : MModule) (F : FuncId) (Children : BlockId -> list BlockId) (entry : BlockId) (height : BlockId -> nat) (s : MemorySSA).

(** What the entry chis change does not matter to the tables. *)
Lemma tables_same s1 cur0 : tables_ok M F s Children entry cur0 -> same_objects s s1 -> mus s1 = mus s ->
  (forall d, is_Some (defs s1 !! d) <-> is_Some (defs s !! d)) ->
  (forall X d, in_tree Children entry X -> Def d ∈ events M F s X -> defs s1 !! d = defs s !! d) ->
  tables_ok M F s1 Children entry cur0.
Proof.
  intros [T1 T2 T3 T4 T5 T6] HS EM Hdom Hd. split; setoid_rewrite (same_events M F s s1 HS).
  - intros X d HX HD. apply Hdom. by eapply T1.
  - intros X m. rewrite EM. apply T2.
  - intros X e. rewrite (same_event_region s s1 HS). apply T3.
  - apply T4.
  - intros X m. unfold muVar. rewrite EM. apply T5.
  - intros X d HX HD. unfold varOf, opOf, phiOp. rewrite (Hd X d HX HD). by apply (T6 X).
Qed.

(** [rename] returns, and then every use, chi and phi holds the definition that
    reaches it on every path. *)
Lemma rename_right fuel :
  getEntryBlock (base M) F = Some entry -> tables_ok M F s Children entry (entry_env F s) -> tree_ok M Children entry height ->
  idom_dominates M Children entry -> phis_placed M F s Children entry -> height entry < fuel ->
  (forall d, d ∈ at_owner s funToEntryChiMap F -> is_Some (defs s !! d) /\
    forall X, in_tree Children entry X -> Def d ∉ events M F s X) ->
  exists s', rename fuel M Children F s = Ok s' /\ same_objects s s' /\ (forall d, conds s' d = conds s d) /\
    (forall d, is_Some (defs s !! d) -> is_Some (defs s' !! d)) /\
    (forall X cur, reaches M F s' entry (entry_env F s') X cur -> block_right M F s' Children entry s' X cur) /\
    forall Y d i o, in_tree Children entry Y -> d ∈ at_owner s' bbToPhiMap Y -> phiOp s' d i = Some o ->
      exists v b, varOf s' o = Some v /\ bb v = Some b /\ in_tree Children entry b.
Proof.
  intros Hen HTb HTr HID HP Hf HE. unfold rename. rewrite Hen. cbn [of_option rbind].
  destruct (rename_entries_do s entry (at_owner s funToEntryChiMap F) {| counters := ∅; stacks := ∅; ssa := s |})
    as (r & Er & HS & EM & Hdom & Hout & HvE & Hcd & S); [intros d Hd; by apply HE|by split|done|].
  rewrite Er. cbn [rbind]. simpl in Hout, EM.
  assert (tables_ok M F (ssa r) Children entry (entry_env F s)) as HT1.
  { apply tables_same; [done..|]. intros X d HX Hd. apply Hout. intros HdE. by apply (proj2 (HE d HdE) X HX). }
  assert (tops r (entry_env F s)) as Ht.
  { intros V. rewrite S. apply pushed_tops. unfold stack. simpl. by rewrite lookup_empty. }
  destruct (renameBB_do M F (ssa r) Children entry (entry_env F s) HT1 height HTr fuel entry (entry_env F s) r Hf)
    as (r' & Er' & R & HD & _); [constructor|done|apply renames_refl|].
  rewrite Er'. cbn [rbind]. pose proof (renames_same _ _ _ _ _ _ _ R) as HS'.
  assert (same_objects s (ssa r')) as HSS by (by eapply same_objects_trans).
  assert (good M F (ssa r) Children entry (entry_env F s) (ssa r')) as HG.
  { apply (rn_good _ _ _ _ _ _ _ _ R). split.
    - intros X' m o HX' Hm E. by rewrite (to_new_mu _ _ _ _ _ _ HT1 X' m HX' Hm) in E.
    - intros X' d o HX' Hd E. destruct (to_new_def _ _ _ _ _ _ HT1 X' d HX' Hd) as (_ & Ho & _). by rewrite Ho in E.
    - intros X' d i o HX' Hd E. destruct (to_new_def _ _ _ _ _ _ HT1 X' d HX' Hd) as (_ & _ & Ho). by rewrite Ho in E.
    - intros X' d v HX' Hd E. destruct (to_new_def _ _ _ _ _ _ HT1 X' d HX' Hd) as (Ho & _). by rewrite Ho in E. }
  exists (ssa r'). split; [done|]. split; [done|]. split; [intros d; by rewrite (rn_conds _ _ _ _ _ _ _ _ R), Hcd|].
  split; [|split].
  - intros d Hd%Hdom. pose proof (rn_region _ _ _ _ _ _ _ _ R d) as E. destruct Hd as [x Ex]. rewrite Ex in E.
    destruct (defs (ssa r') !! d); [eauto|done].
  - intros X cur HX. apply (block_right_same M F (ssa r) (ssa r')); [done|].
    apply (paths_right M F (ssa r) Children entry (entry_env F s) HT1 height HTr); [done| |done|intros Y HY; by apply HD|].
    + intros Z X' Y d HZ. rewrite (same_events M F s (ssa r) HS). intros Hd HZX HY HnZ.
      destruct (HP Z X' Y d HZ Hd HZX HY HnZ) as (p & Hp & Ep). exists p. rewrite !(so_region _ _ HS). split; [|done].
      unfold phis. by rewrite (same_at_owner s (ssa r) HS).
    + apply (same_reaches M F (ssa r) (ssa r') HS'). by rewrite (same_entry_env F s (ssa r')) in HX.
  - intros Y d i o HY Hd Ho. rewrite (same_at_owner (ssa r) (ssa r') HS') in Hd.
    destruct (gd_phi _ _ _ _ _ _ _ HG Y d i o HY (phi_in_evs _ _ _ _ _ Hd) Ho) as (X & Z & cur & HX & _ & _ & _ & Eo).
    destruct (env_origin M F (ssa r) Children entry (entry_env F s) (fun o => o ∈ at_owner s funToEntryChiMap F)) with (X := X) (cur := cur)
      (V := region_of (ssa r) d) (o := o) as [HoE|(Z' & HZ' & HoZ)].
    + intros V o' HV. by eapply entry_env_origin.
    + done.
    + done.
    + destruct (HvE o HoE) as (v & Ev & Eb). exists v, entry. split; [|split; [done|constructor]].
      unfold varOf. rewrite (rn_other _ _ _ _ _ _ _ _ R); [exact Ev|]. intros X' HX'. rewrite (same_events M F s (ssa r) HS).
      by apply (proj2 (HE o HoE)).
    + destruct (HD Z' HZ') as (D1 & D2 & _). assert (is_Some (varOf (ssa r') o)) as [v Ev].
      { apply elem_of_app in HoZ as [(d' & [= <-] & Hd')%list_elem_of_fmap|HoZ]; [by apply D1|]. by apply (D2 _ HoZ). }
      destruct (gd_var _ _ _ _ _ _ _ HG Z' o v HZ' HoZ Ev) as (_ & b & Hb & _ & Eb). exists v, b. done.
Qed.
End RenameSpec.
