(* ===== verification/MemSSAPlace.v ===== *)
(** The mus, chis and phis of a function: what the tables satisfy while they are
    filled, and the blocks that get a phi -- the iterated dominance frontier of
    those that define the region. *)
From stdpp Require Import relations.
From S2P Require Import Prelude IR Utils Collectives ExtInfo PTACallGraph MemRegions ModRef MemSSA.
#[local] Open Scope nat_scope.
#[local] Opaque getExtModInfo ExtModInfoMap.

Definition is_mu_map (o : OwnerMap) : bool :=
  match o with loadToMuMap | callSiteToMuMap | funToReturnMuMap => true | _ => false end.

(** The instructions that own mus or chis. *)
Definition inst_id (Inst : MInst) : option InstId :=
  match Inst with LoadI id _ | StoreI id _ _ | CallI id _ _ _ _ => Some id | _ => None end.

Definition def_blocks (s : MemorySSA) (R : RegId) : gset BlockId := default ∅ (regDefToBBMap s !! R).

Lemma at_owner_app s o k x o' k' :
  default [] (<[(o, k) := at_owner s o k ++ [x]]> (owned s) !! (o', k')) =
  at_owner s o' k' ++ (if decide ((o', k') = (o, k)) then [x] else []).
Proof.
  destruct (decide ((o', k') = (o, k))) as [E|Hne]; [injection E as -> ->; by rewrite lookup_insert_eq|].
  rewrite lookup_insert_ne by congruence. by rewrite app_nil_r.
Qed.

(** * The objects of the tables *)

(** An object is in one place; addresses from [fresh] on are free; the artificial
    chis are in no vector. *)
Record wf (s : MemorySSA) : Prop := {
  wf_once : forall o k i o' k' i' x, at_owner s o k !! i = Some x -> at_owner s o' k' !! i' = Some x -> o = o' /\ k = k' /\ i = i';
  wf_fresh : forall o k x, x ∈ at_owner s o k -> (x < fresh s)%N;
  wf_ext : forall q d, extChis s !! q = Some d -> (d < fresh s)%N /\ forall o k, d ∉ at_owner s o k
}.

Section Function.
Context (M : MModule) (F : FuncId) (sb : MemorySSA) (ph : bool).

(** The chis of instructions are filed under a block of the instruction. *)
Definition placed (s : MemorySSA) (o : OwnerMap) (k : N) (R : RegId) : Prop :=
  match o with
  | bbToPhiMap | funToEntryChiMap => True
  | _ => exists b Inst, (b, Inst) ∈ minsts M F /\ inst_id Inst = Some k /\ b ∈ def_blocks s R
  end.

(** The tables while those of [F] are filled, from [sb] on: the new objects are
    not set, and have a region of [usedRegs]; [ph] tells whether there may be new
    phis. *)
Record building (s : MemorySSA) : Prop := {
  bl_wf : wf s;
  bl_start : (fresh sb <= fresh s)%N;
  bl_old : forall o k x, x ∈ at_owner s o k -> x ∈ at_owner sb o k \/ (fresh sb <= x)%N;
  bl_mu : forall o k m, is_mu_map o = true -> m ∈ at_owner s o k -> (fresh sb <= m)%N ->
    exists mu, mus s !! m = Some mu /\ mu_var mu = None /\ mu_region mu ∈ usedRegs s;
  bl_def : forall o k d, is_mu_map o = false -> d ∈ at_owner s o k -> (fresh sb <= d)%N ->
    exists R t, defs s !! d = Some (new_def (Some R) t) /\ R ∈ usedRegs s /\ placed s o k R;
  bl_blocks : forall R X, X ∈ def_blocks s R -> X ∈ mblocks M F;
  bl_phis : ph = false -> forall Y p, p ∈ at_owner s bbToPhiMap Y -> p ∈ at_owner sb bbToPhiMap Y
}.

Lemma placed_mono s s' o k R : (forall R, def_blocks s R ⊆ def_blocks s' R) -> placed s o k R -> placed s' o k R.
Proof. intros H. destruct o; simpl; try done; intros (b & I & ? & ? & ?); exists b, I; (split; [done|]; split; [done|]; by apply H). Qed.

(** The vectors after one more object. *)
Lemma wf_own s s' o k : wf s -> fresh s' = N.succ (fresh s) -> extChis s' = extChis s ->
  owned s' = <[(o, k) := at_owner s o k ++ [fresh s]]> (owned s) -> wf s'.
Proof.
  intros [W1 W2 W3] Ef Ex Eo.
  assert (forall o' k', at_owner s' o' k' = at_owner s o' k' ++ (if decide ((o', k') = (o, k)) then [fresh s] else [])) as L.
  { intros o' k'. unfold at_owner at 1. rewrite Eo. apply at_owner_app. }
  assert (forall o' k' i x, at_owner s' o' k' !! i = Some x ->
    at_owner s o' k' !! i = Some x \/ x = fresh s /\ (o', k') = (o, k) /\ i = length (at_owner s o k)) as Hl.
  { intros o' k' i x. rewrite L. intros [H|[Hle H]]%lookup_app_Some; [by left|right].
    destruct (decide ((o', k') = (o, k))) as [E|]; [|done]. injection E as -> ->. apply list_lookup_singleton_Some in H as [Hi <-].
    split; [done|]. split; [done|]. lia. }
  split.
  - intros o1 k1 i1 o2 k2 i2 x H1%Hl H2%Hl.
    destruct H1 as [H1|(-> & E1 & ->)], H2 as [H2|(E2' & E2 & ->)]; [by eapply W1| | |].
    + subst x. apply list_elem_of_lookup_2, W2 in H1. lia.
    + apply list_elem_of_lookup_2, W2 in H2. lia.
    + injection E1 as -> ->. injection E2 as -> ->. done.
  - intros o' k' x. rewrite L, Ef. intros [H%W2|H]%elem_of_app; [lia|]. destruct (decide _); [|by apply not_elem_of_nil in H].
    apply list_elem_of_singleton in H as ->. lia.
  - intros q d. rewrite Ex, Ef. intros Hq. destruct (W3 q d Hq) as [Hd Hno]. split; [lia|]. intros o' k'. rewrite L.
    intros [H|H]%elem_of_app; [by apply (Hno o' k')|]. destruct (decide _); [|by apply not_elem_of_nil in H].
    apply list_elem_of_singleton in H as ->. lia.
Qed.

Lemma own_cases s s' o k o' k' x : owned s' = <[(o, k) := at_owner s o k ++ [fresh s]]> (owned s) ->
  x ∈ at_owner s' o' k' -> x ∈ at_owner s o' k' \/ x = fresh s /\ o' = o /\ k' = k.
Proof.
  intros Eo. unfold at_owner at 1. rewrite Eo, at_owner_app. intros [H|H]%elem_of_app; [by left|right].
  destruct (decide ((o', k') = (o, k))) as [E|]; [|by apply not_elem_of_nil in H]. injection E as -> ->.
  by apply list_elem_of_singleton in H as ->.
Qed.

Lemma own_old s s' o k o' k' x : owned s' = <[(o, k) := at_owner s o k ++ [fresh s]]> (owned s) ->
  x ∈ at_owner s o' k' -> x ∈ at_owner s' o' k'.
Proof. intros Eo H. unfold at_owner. rewrite Eo, at_owner_app. apply elem_of_app. by left. Qed.

Record grows (s s' : MemorySSA) : Prop := {
  gw_used : usedRegs s ⊆ usedRegs s';
  gw_blocks : forall R, def_blocks s R ⊆ def_blocks s' R
}.

(** A new chi or phi. *)
Lemma building_chi s s' o k R t : building s -> is_mu_map o = false -> (o = bbToPhiMap -> ph = true) ->
  owned s' = <[(o, k) := at_owner s o k ++ [fresh s]]> (owned s) -> fresh s' = N.succ (fresh s) ->
  defs s' = <[fresh s := new_def (Some R) t]> (defs s) -> mus s' = mus s -> extChis s' = extChis s ->
  grows s s' -> R ∈ usedRegs s' -> placed s' o k R ->
  (forall R X, X ∈ def_blocks s' R -> X ∈ def_blocks s R \/ X ∈ mblocks M F) -> building s'.
Proof.
  intros [B1 B2 B3 B4 B5 B6 B7] Ho Hoph Eo Ef Ed Em Ex [Gu Gb] HR HP HB.
  split; [by eapply wf_own|lia| | | |by intros R' X [H%B6|H]%HB|].
  - intros o' k' x [H|(-> & _)]%(own_cases s s' o k _ _ _ Eo); [by apply B3|right; lia].
  - intros o' k' m Ho' [H|(-> & -> & _)]%(own_cases s s' o k _ _ _ Eo) Hm; [|congruence].
    destruct (B4 o' k' m Ho' H Hm) as (mu & E & En & Er). exists mu. rewrite Em. auto.
  - intros o' k' d Ho' [H|(-> & -> & ->)]%(own_cases s s' o k _ _ _ Eo) Hd; rewrite Ed.
    + pose proof (wf_fresh _ B1 _ _ _ H). destruct (B5 o' k' d Ho' H Hd) as (R' & t' & E & Hu & Hp). exists R', t'.
      rewrite lookup_insert_ne by lia. split; [done|]. split; [by apply Gu|]. by eapply placed_mono.
    + exists R, t. by rewrite lookup_insert_eq.
  - intros Hph Y p [H|(_ & Ho' & _)]%(own_cases s s' o k _ _ _ Eo); [by apply B7|]. rewrite Hoph in Hph by done. done.
Qed.

(** A new mu. *)
Lemma building_mu s s' o k mu : building s -> is_mu_map o = true -> mu_var mu = None ->
  owned s' = <[(o, k) := at_owner s o k ++ [fresh s]]> (owned s) -> fresh s' = N.succ (fresh s) ->
  mus s' = <[fresh s := mu]> (mus s) -> defs s' = defs s -> extChis s' = extChis s ->
  grows s s' -> mu_region mu ∈ usedRegs s' -> regDefToBBMap s' = regDefToBBMap s -> building s'.
Proof.
  intros [B1 B2 B3 B4 B5 B6 B7] Ho Hv Eo Ef Em Ed Ex [Gu Gb] HR HB.
  split; [by eapply wf_own|lia| | | |by intros R' X; unfold def_blocks; rewrite HB; apply B6|].
  - intros o' k' x [H|(-> & _)]%(own_cases s s' o k _ _ _ Eo); [by apply B3|right; lia].
  - intros o' k' m Ho' [H|(-> & -> & _)]%(own_cases s s' o k _ _ _ Eo) Hm; rewrite Em.
    + pose proof (wf_fresh _ B1 _ _ _ H). destruct (B4 o' k' m Ho' H Hm) as (mu' & E & En & Er). exists mu'.
      rewrite lookup_insert_ne by lia. auto.
    + exists mu. by rewrite lookup_insert_eq.
  - intros o' k' d Ho' [H|(-> & -> & ->)]%(own_cases s s' o k _ _ _ Eo) Hd; [|congruence]. rewrite Ed.
    destruct (B5 o' k' d Ho' H Hd) as (R' & t' & E & Hu & Hp). exists R', t'. split; [done|]. split; [by apply Gu|]. by eapply placed_mono.
  - intros Hph Y p [H|(_ & <- & _)]%(own_cases s s' o k _ _ _ Eo); [by apply B7|done].
Qed.

(** Steps that change no vector: new artificial chis and their fields. *)
Lemma building_ext s s' : building s -> owned s' = owned s -> (fresh s <= fresh s')%N -> mus s' = mus s -> grows s s' ->
  (forall d, (forall o k, d ∉ at_owner s o k) \/ defs s' !! d = defs s !! d) ->
  (forall q d, extChis s' !! q = Some d -> extChis s !! q = Some d \/ (d = fresh s /\ (d < fresh s')%N)) ->
  regDefToBBMap s' = regDefToBBMap s -> building s'.
Proof.
  intros [[W1 W2 W3] B2 B3 B4 B5 B6 B7] Eo Ef Em [Gu Gb] Ed Ex HB.
  assert (forall o k, at_owner s' o k = at_owner s o k) as L by (intros; unfold at_owner; by rewrite Eo).
  split; [split| | | | |by intros R' X; unfold def_blocks; rewrite HB; apply B6|intros Hph Y p; rewrite L; by apply B7].
  - intros o k i o' k' i' x. rewrite !L. apply W1.
  - intros o k x. rewrite L. intros H%W2. lia.
  - intros q d Hq. setoid_rewrite L. destruct (Ex q d Hq) as [H|[-> H]].
    + destruct (W3 q d H) as [? ?]. split; [lia|done].
    + split; [done|]. intros o k Hin%W2. lia.
  - lia.
  - intros o k x. rewrite L. apply B3.
  - intros o k m Ho. rewrite L. intros H Hm. destruct (B4 o k m Ho H Hm) as (mu & E & En & Er). exists mu. rewrite Em. auto.
  - intros o k d Ho. rewrite L. intros H Hd. destruct (B5 o k d Ho H Hd) as (R' & t' & E & Hu & Hp). exists R', t'.
    split; [|split; [by apply Gu|by eapply placed_mono]]. destruct (Ed d) as [Hno|Hno]; [by destruct (Hno o k)|by rewrite Hno].
Qed.

Lemma grows_refl s : grows s s.
Proof. by split. Qed.
Lemma tables_grow_trans s1 s2 s3 : grows s1 s2 -> grows s2 s3 -> grows s1 s3.
Proof. intros [] []. split; [set_solver|]. intros R. etrans; eauto. Qed.
End Function.

Lemma building_phis M F sb s : building M F sb false s -> building M F sb true s.
Proof. intros []. by split. Qed.

(** * The annotation of the instructions *)

Section Annotate.
Context (cfg : BuildConfig) (opts : Options) (M : MModule) (CG : PTACallGraph) (Regions : MemReg).
Context (MRA : ModRefAnalysisResult) {PA : PointerAnalysis} (F : FuncId) (sb : MemorySSA).

Local Abbreviation building := (building M F sb false).

(** A step from a state of the annotation to another. *)
Definition advances (s s' : MemorySSA) : Prop := grows s s' /\ building s'.

Lemma advances_trans s1 s2 s3 : advances s1 s2 -> advances s2 s3 -> advances s1 s3.
Proof. intros [G1 _] [G2 B]. split; [by eapply tables_grow_trans|done]. Qed.

Lemma advances_refl s : building s -> advances s s.
Proof. split; [apply grows_refl|done]. Qed.

(** A loop of steps. *)
Lemma fold_advances {B} (f : MemorySSA -> B -> MemorySSA) l : forall s, building s ->
  (forall x s', x ∈ l -> building s' -> grows s s' -> advances s' (f s' x)) -> advances s (fold_left f l s).
Proof.
  induction l as [|x l IH]; intros s Hs Hf; simpl; [by apply advances_refl|].
  destruct (Hf x s (list_elem_of_here _ _) Hs (grows_refl s)) as [G1 B1].
  assert (advances (f s x) (fold_left f l (f s x))) as HA.
  { apply IH; [done|]. intros y s' Hy Hs' G'. apply Hf; [by apply list_elem_of_further|done|by eapply tables_grow_trans]. }
  by eapply advances_trans.
Qed.

Lemma grows_regs s s' : usedRegs s ⊆ usedRegs s' -> (forall R, def_blocks s R ⊆ def_blocks s' R) -> grows s s'.
Proof. by split. Qed.

Lemma def_blocks_insert s s' R b R' : regDefToBBMap s' = <[R := {[ b ]} ∪ default ∅ (regDefToBBMap s !! R)]> (regDefToBBMap s) ->
  def_blocks s' R' = if decide (R' = R) then {[ b ]} ∪ def_blocks s R else def_blocks s R'.
Proof.
  unfold def_blocks. intros ->. destruct (decide (R' = R)) as [->|]; [by rewrite lookup_insert_eq|by rewrite lookup_insert_ne].
Qed.

Lemma add_mu_advances o k t s R : is_mu_map o = true -> building s -> advances s (add_mu o k t s R) /\ R ∈ usedRegs (add_mu o k t s R).
Proof.
  intros Ho Hs. assert (R ∈ usedRegs (add_mu o k t s R)) as HR by (simpl; set_solver).
  assert (grows s (add_mu o k t s R)) as G by (split; [simpl; set_solver|done]).
  split; [|done]. split; [done|]. eapply (building_mu M F sb false s _ o k {| mu_region := R; mu_type := t; mu_var := None |}); try done.
Qed.

(** A chi of an instruction of [F]. *)
Definition at_inst (o : OwnerMap) (k : InstId) (b : BlockId) : Prop :=
  is_mu_map o = false /\ o <> bbToPhiMap /\ o <> funToEntryChiMap /\
  exists Inst, (b, Inst) ∈ minsts M F /\ inst_id Inst = Some k.

Lemma placed_at_inst s o k b R : at_inst o k b -> b ∈ def_blocks s R -> placed M F s o k R.
Proof. intros (_ & H1 & H2 & I & H & E) Hb. destruct o; try done; exists b, I; done. Qed.

Lemma at_inst_block o k b : at_inst o k b -> b ∈ mblocks M F.
Proof.
  intros (_ & _ & _ & I & H & _). unfold minsts in H. apply list_elem_of_bind in H as (b' & H & Hb).
  by apply list_elem_of_fmap in H as (I' & [= -> _] & _).
Qed.

Lemma add_arg_chi_advances o k t b s R : at_inst o k b -> building s -> R ∈ usedRegs s -> advances s (add_arg_chi o k t b s R).
Proof.
  intros Hk Hs HR. assert (forall R', def_blocks (add_arg_chi o k t b s R) R' = if decide (R' = R) then {[ b ]} ∪ def_blocks s R else def_blocks s R') as HD.
  { intros R'. by apply def_blocks_insert. }
  assert (grows s (add_arg_chi o k t b s R)) as G.
  { split; [done|]. intros R'. rewrite HD. destruct (decide (R' = R)) as [->|]; set_solver. }
  split; [done|]. eapply (building_chi M F sb false s _ o k R t Hs (proj1 Hk)); [by intros ->; destruct Hk as (_ & [] & _)|..]; try done.
  - apply (placed_at_inst _ o k b R Hk). rewrite HD, decide_True by done. set_solver.
  - intros R' X. rewrite HD. destruct (decide (R' = R)) as [->|]; [|by left].
    intros [->%elem_of_singleton|HX]%elem_of_union; [right; by eapply at_inst_block|by left].
Qed.

Lemma add_chi_advances o k t b s R : at_inst o k b -> building s -> advances s (add_chi o k t b s R).
Proof.
  intros Hk Hs. assert (forall R', def_blocks (add_chi o k t b s R) R' = if decide (R' = R) then {[ b ]} ∪ def_blocks s R else def_blocks s R') as HD.
  { intros R'. by apply def_blocks_insert. }
  assert (grows s (add_chi o k t b s R)) as G.
  { split; [simpl; set_solver|]. intros R'. rewrite HD. destruct (decide (R' = R)) as [->|]; set_solver. }
  split; [done|]. eapply (building_chi M F sb false s _ o k R t Hs (proj1 Hk)); [by intros ->; destruct Hk as (_ & [] & _)|..]; try done; [simpl; set_solver|..].
  - apply (placed_at_inst _ o k b R Hk). rewrite HD, decide_True by done. set_solver.
  - intros R' X. rewrite HD. destruct (decide (R' = R)) as [->|]; [|by left].
    intros [->%elem_of_singleton|HX]%elem_of_union; [right; by eapply at_inst_block|by left].
Qed.

Lemma add_mus_advance o k t Rs s : is_mu_map o = true -> building s ->
  advances s (fold_left (add_mu o k t) Rs s) /\ forall R, R ∈ Rs -> R ∈ usedRegs (fold_left (add_mu o k t) Rs s).
Proof.
  intros Ho. revert s. induction Rs as [|R Rs IH]; intros s Hs; simpl.
  { split; [by apply advances_refl|]. by intros ? ?%not_elem_of_nil. }
  destruct (add_mu_advances o k t s R Ho Hs) as [A1 U1]. destruct (IH _ (proj2 A1)) as [A2 U2].
  split; [by eapply advances_trans|]. intros R' [->|HR']%elem_of_cons; [by apply (gw_used _ _ (proj1 A2))|by apply U2].
Qed.

Lemma add_chis_advance o k t b Rs s : at_inst o k b -> building s -> advances s (fold_left (add_chi o k t b) Rs s).
Proof. intros Hk Hs. apply fold_advances; [done|]. intros R s' _ Hs' _. by apply add_chi_advances. Qed.

Lemma sync_chis_advances b CI Callee s : at_inst callSiteToSyncChiMap CI b -> building s ->
  advances s (sync_chis cfg opts M Regions F b CI Callee s).
Proof.
  intros Hk Hs. assert (forall (P1 P2 : bool) L1 L2, advances s
    (let s1 := if P1 then fold_left (add_chi callSiteToSyncChiMap CI (SYNC CI) b) L1 s else s in
     if P2 then fold_left (add_chi callSiteToSyncChiMap CI (SYNC CI) b) L2 s1 else s1)) as H.
  { intros P1 P2 L1 L2. set (s1 := if P1 then _ else s).
    assert (advances s s1) as A1 by (unfold s1; destruct P1; [by apply add_chis_advance|by apply advances_refl]).
    cbv zeta. destruct P2; [|exact A1]. eapply advances_trans; [exact A1|]. apply add_chis_advance; [done|apply A1]. }
  unfold sync_chis. destruct (Collectives.find cfg opts (fname M Callee)) as [Coll|]; [apply H|by apply advances_refl].
Qed.

(** What the code asserts of the arguments of a call of an external function. *)
Definition args_known (Callee : FuncId) (args : list Operand) : Prop := forall i a, args !! i = Some a -> passes a ->
  is_Some (pointees (opId a)) /\
  forall Info, getExtModInfo (fname M Callee) = Some Info -> exists m, arg_is_mod Info i (varArg M Callee) = Ok m.

Lemma regions_known v : is_Some (pointees v) -> exists Regs, regions_of Regions v = Ok Regs.
Proof. intros [P HP]. unfold regions_of. rewrite HP. simpl. eauto. Qed.

Lemma ext_arg_advances b CI Callee args p s : at_inst callSiteToChiMap CI b -> args_known Callee args ->
  p ∈ imap pair args -> building s -> exists s', ext_arg M Regions MRA b CI Callee s p = Ok s' /\ advances s s'.
Proof.
  intros Hk Ha Hp Hs. destruct p as [i a]. apply elem_of_lookup_imap in Hp as (j & y & [= <- <-] & Hy). unfold ext_arg.
  destruct (negb (opIsPointer a) || opIsIntToPtr a) eqn:E; [exists s; split; [done|by apply advances_refl]|].
  apply orb_false_iff in E as [E1%negb_false_iff E2]. destruct (Ha i a Hy) as [Hpt Hm]; [done|].
  destruct (regions_known _ Hpt) as [Regs ->]. cbn [rbind].
  destruct (add_mus_advance callSiteToMuMap CI (MuEXTCALL Callee i) (live MRA Regs) s eq_refl Hs) as [A1 U1].
  set (s1 := fold_left _ (live MRA Regs) s) in *. revert Hm. destruct (getExtModInfo (fname M Callee)) as [Info|]; intros Hm; [|eauto].
  destruct (Hm Info eq_refl) as [m ->]. cbn [rbind]. destruct m; [|eauto]. eexists. split; [reflexivity|].
  eapply advances_trans; [exact A1|]. apply fold_advances; [apply A1|]. intros R s' HR Hs' G.
  apply add_arg_chi_advances; [done|done|]. by apply (gw_used _ _ G), U1.
Qed.

(** A loop of steps that may fail. *)
Lemma rfold_advances {B} (f : MemorySSA -> B -> res MemorySSA) l : forall s, building s ->
  (forall x s', x ∈ l -> building s' -> exists s'', f s' x = Ok s'' /\ advances s' s'') ->
  exists s', rfold f l s = Ok s' /\ advances s s'.
Proof.
  induction l as [|x l IH]; intros s Hs Hf; [exists s; split; [done|by apply advances_refl]|]. cbn [rfold].
  destruct (Hf x s (list_elem_of_here _ _) Hs) as (s1 & -> & A1). cbn [rbind].
  destruct (IH s1 (proj2 A1)) as (s' & E & A); [intros y s' Hy; apply Hf; by apply list_elem_of_further|].
  exists s'. split; [done|]. by eapply advances_trans.
Qed.

Definition ret_known (CI : InstId) (Callee : FuncId) (retPointer : bool) : Prop := retPointer = true ->
  forall Info, getExtModInfo (fname M Callee) = Some Info -> RetIsMod Info = true -> is_Some (pointees CI).

Lemma ext_ret_advances b CI Callee rp s : at_inst extCallSiteToCallerRetChi CI b -> ret_known CI Callee rp -> building s ->
  exists s', ext_ret M Regions MRA b CI Callee rp s = Ok s' /\ advances s s'.
Proof.
  intros Hk Hr Hs. unfold ext_ret. revert Hr. unfold ret_known. destruct (getExtModInfo (fname M Callee)) as [Info|]; intros Hr.
  2: { exists s. split; [done|by apply advances_refl]. }
  destruct (RetIsMod Info) eqn:ER; simpl; [|exists s; split; [done|by apply advances_refl]].
  destruct rp; [|exists s; split; [done|by apply advances_refl]].
  destruct (regions_known CI (Hr eq_refl Info eq_refl ER)) as [Regs ->]. cbn [rbind]. eexists. split; [reflexivity|].
  by apply add_chis_advance.
Qed.

(** The artificial chis are in no vector. *)
Definition artificial (s : MemorySSA) (d : DefId) : Prop := forall o k, d ∉ at_owner s o k.

Lemma ext_chi_advances q t s : building s ->
  advances s (ext_chi q t s).2 /\ artificial (ext_chi q t s).2 (ext_chi q t s).1 /\ owned (ext_chi q t s).2 = owned s.
Proof.
  intros Hs. unfold ext_chi. destruct (extChis s !! q) as [d|] eqn:E; simpl.
  { split; [by apply advances_refl|]. split; [|done]. intros o k. by apply (wf_ext _ (bl_wf _ _ _ _ _ Hs) q d). }
  assert (forall o k, fresh s ∉ at_owner s o k) as Hf.
  { intros o k H%(wf_fresh _ (bl_wf _ _ _ _ _ Hs)). lia. }
  split; [|split; [exact Hf|done]]. split; [by split|]. apply (building_ext M F sb false s); try done.
  - simpl. lia.
  - intros d. destruct (decide (d = fresh s)) as [->|Hne]; [left; exact Hf|right; simpl; by rewrite lookup_insert_ne].
  - intros q' d. simpl. destruct (decide (q' = q)) as [->|]; [rewrite lookup_insert_eq; intros [= <-]; right; split; [done|lia]|].
    rewrite lookup_insert_ne by done. by left.
Qed.

Lemma set_ext_var_advances d v o s : artificial s d -> building s ->
  advances s (set_ext_var d v o s) /\ owned (set_ext_var d v o s) = owned s.
Proof.
  intros Hd Hs. split; [|done]. split; [by split|]. apply (building_ext M F sb false s); try done; [|by left].
  intros d'. destruct (decide (d' = d)) as [->|]; [left; exact Hd|right; simpl; by rewrite lookup_alter_ne].
Qed.

Lemma artificial_same s s' d : owned s' = owned s -> artificial s d -> artificial s' d.
Proof. intros E H o k. unfold at_owner. rewrite E. apply H. Qed.

Lemma ext_chi_pair_advances ed t en ex Callee CB s : building s -> advances s (ext_chi_pair ed t en ex Callee CB s).
Proof.
  intros Hs. unfold ext_chi_pair. pose proof (ext_chi_advances (en, Callee, CB) t s Hs) as (A1 & N1 & E1).
  destruct (ext_chi (en, Callee, CB) t s) as [e s1]. simpl in *.
  destruct (set_ext_var_advances e {| def := e; version := 0; bb := None |} None s1 N1 (proj2 A1)) as [A2 E2].
  pose proof (ext_chi_advances (ex, Callee, CB) t _ (proj2 A2)) as (A3 & N3 & E3).
  destruct (ext_chi (ex, Callee, CB) t _) as [x s3]. simpl in *.
  destruct (set_ext_var_advances x {| def := ed e x; version := 1; bb := None |} (Some e) s3 N3 (proj2 A3)) as [A4 E4].
  eapply advances_trans; [exact A1|]. eapply advances_trans; [exact A2|]. by eapply advances_trans.
Qed.

Lemma createArtificalChi_advances CB Callee s : building s -> advances s (createArtificalChiForCalledFunction M CB Callee s).
Proof.
  intros Hs. unfold createArtificalChiForCalledFunction.
  set (s1 := if varArg M Callee then _ else s).
  assert (advances s s1) as A1.
  { unfold s1. destruct (varArg M Callee); [exact (ext_chi_pair_advances _ _ _ _ Callee CB s Hs)|exact (advances_refl s Hs)]. }
  set (s2 := fold_left _ _ s1). assert (advances s1 s2) as A2.
  { apply fold_advances; [apply A1|]. intros [i [v p]] s' _ Hs' _. unfold arg_chis. destruct p; [by apply ext_chi_pair_advances|by apply advances_refl]. }
  eapply advances_trans; [exact A1|]. eapply advances_trans; [exact A2|].
  destruct (returnsPointer M Callee); [|apply advances_refl, A2]. unfold ret_chi.
  pose proof (ext_chi_advances (extCallSiteToCalleeRetChi, Callee, CB) (EXTRET Callee) s2 (proj2 A2)) as (A3 & N3 & E3).
  destruct (ext_chi _ _ s2) as [x s3]. simpl in *. eapply advances_trans; [exact A3|]. by apply set_ext_var_advances, A3.
Qed.

(** * One call, one instruction *)

Lemma callsites_advances C s : building s -> advances s (with_callsites C s).
Proof. intros Hs. split; [by split|]. apply (building_ext M F sb false s); try done; [by right|by left]. Qed.

Lemma computeMuChiForCalledFunction_advances b CI args rp Callee s Inst :
  (b, Inst) ∈ minsts M F -> inst_id Inst = Some CI ->
  (isDecl M Callee = true -> args_known Callee args /\ ret_known CI Callee rp) -> building s ->
  exists s', computeMuChiForCalledFunction cfg opts M Regions MRA F b CI args rp Callee s = Ok s' /\ advances s s'.
Proof.
  intros HI Eid Hk Hs. assert (forall o, is_mu_map o = false -> o <> bbToPhiMap -> o <> funToEntryChiMap -> at_inst o CI b) as Hat
    by (intros o ? ? ?; split; [done|]; split; [done|]; split; [done|]; eauto).
  unfold computeMuChiForCalledFunction.
  assert (advances s (sync_chis cfg opts M Regions F b CI Callee s)) as A0 by (apply sync_chis_advances; [by apply Hat|done]).
  set (s0 := sync_chis cfg opts M Regions F b CI Callee s) in *. cbv zeta. destruct (isDecl M Callee).
  - destruct (Hk eq_refl) as [Ha Hr]. set (s1 := with_callsites _ s0). assert (advances s0 s1) as A1 by (by apply callsites_advances, A0).
    destruct (rfold_advances (ext_arg M Regions MRA b CI Callee) (imap pair args) s1 (proj2 A1)) as (s2 & -> & A2).
    { intros p s' Hp Hs'. by apply (ext_arg_advances b CI Callee args); [apply Hat| | |]. }
    cbn [rbind]. destruct (ext_ret_advances b CI Callee rp s2) as (s3 & E3 & A3); [by apply Hat|done|apply A2|].
    exists s3. split; [done|]. eapply advances_trans; [exact A0|]. eapply advances_trans; [exact A1|]. by eapply advances_trans.
  - eexists. split; [reflexivity|]. destruct (add_mus_advance callSiteToMuMap CI (MuCALL Callee)
      (in_order (getFuncRef MRA Callee ∖ getFuncKill MRA F)) s0 eq_refl (proj2 A0)) as [A1 _].
    eapply advances_trans; [exact A0|]. eapply advances_trans; [exact A1|]. apply add_chis_advance; [by apply Hat|apply A1].
Qed.

(** What the code asserts of an instruction. *)
Definition annotation_known (Inst : MInst) : Prop :=
  match Inst with
  | LoadI _ ptr | StoreI _ _ ptr => is_Some (pointees ptr)
  | CallI CI Callee args isDbg rp => isDbg = false -> forall C, C ∈ call_targets CG CI Callee -> isDecl M C = true ->
      args_known C args /\ ret_known CI C rp
  | _ => True
  end.

Lemma mu_chi_inst_advances p s : p ∈ minsts M F -> annotation_known p.2 -> building s ->
  exists s', mu_chi_inst cfg opts M CG Regions MRA F s p = Ok s' /\ advances s s'.
Proof.
  destruct p as [b Inst]. intros HI Hk Hs. simpl in Hk. destruct Inst as [id|id ptr|id v ptr|id Callee args dbg rp|id l|id l|id| |]; simpl;
    try (exists s; split; [done|by apply advances_refl]).
  - destruct (regions_known ptr Hk) as [Regs ->]. cbn [rbind]. eexists. split; [reflexivity|]. by apply add_mus_advance.
  - destruct (regions_known ptr Hk) as [Regs ->]. cbn [rbind]. eexists. split; [reflexivity|]. apply add_chis_advance; [|done].
    split; [done|]. split; [done|]. split; [done|]. by exists (StoreI id v ptr).
  - destruct dbg; [exists s; split; [done|by apply advances_refl]|]. apply rfold_advances; [done|].
    intros C s' HC Hs'. unfold visit_callee. destruct (isIntrinsicDbgFunction (base M) C); [exists s'; split; [done|by apply advances_refl]|].
    destruct (computeMuChiForCalledFunction_advances b id args rp C s' (CallI id Callee args false rp) HI eq_refl (Hk eq_refl C HC) Hs')
      as (s1 & -> & A1). cbn [rbind]. eexists. split; [reflexivity|]. destruct (isDecl M C); [|done].
    eapply advances_trans; [exact A1|]. by apply createArtificalChi_advances, A1.
Qed.

(** * Entry chis and return mus *)

(** [F] has an entry chi for [R]. *)
Definition covered (s : MemorySSA) (R : RegId) : Prop :=
  exists d x, d ∈ at_owner s funToEntryChiMap F /\ defs s !! d = Some x /\ region x = Some R.

(** A new object hides no entry chi. *)
Lemma covered_new ph s s' o k R : MemSSAPlace.building M F sb ph s -> owned s' = <[(o, k) := at_owner s o k ++ [fresh s]]> (owned s) ->
  (forall d, d <> fresh s -> defs s' !! d = defs s !! d) -> covered s R -> covered s' R.
Proof.
  intros Hs Eo Ed (d & x & Hd & Ex & Er). exists d, x. split; [|split; [|done]].
  - by eapply own_old.
  - rewrite Ed; [done|]. intros ->. apply (wf_fresh _ (bl_wf _ _ _ _ _ Hs)) in Hd. lia.
Qed.

Lemma entry_chi_advances entry s R : entry ∈ mblocks M F -> building s -> R ∈ usedRegs s ->
  advances s (entry_chi F entry s R) /\ usedRegs (entry_chi F entry s R) = usedRegs s /\ covered (entry_chi F entry s R) R /\
  forall R', covered s R' -> covered (entry_chi F entry s R) R'.
Proof.
  intros Hen Hs HR. assert (grows s (entry_chi F entry s R)) as G.
  { split; [done|]. intros R'. rewrite (def_blocks_insert s (entry_chi F entry s R) R entry R' eq_refl). destruct (decide (R' = R)) as [->|]; set_solver. }
  split; [split; [done|]|split; [done|split]].
  - eapply (building_chi M F sb false s _ funToEntryChiMap F R (ENTRY F) Hs); try done. intros R' X.
    rewrite (def_blocks_insert s (entry_chi F entry s R) R entry R' eq_refl). destruct (decide (R' = R)) as [->|]; [|by left].
    intros [->%elem_of_singleton|HX]%elem_of_union; [by right|by left].
  - exists (fresh s), (new_def (Some R) (ENTRY F)). split; [|split; [|done]].
    + unfold at_owner. simpl. rewrite lookup_insert_eq. apply elem_of_app. right. apply list_elem_of_here.
    + simpl. by rewrite lookup_insert_eq.
  - intros R' HR'. eapply (covered_new false s _ funToEntryChiMap F); [done|done| |done]. intros d Hd. simpl. by rewrite lookup_insert_ne.
Qed.

Lemma entry_chis_advance entry Rs s : entry ∈ mblocks M F -> building s -> (forall R, R ∈ Rs -> R ∈ usedRegs s) ->
  let s' := fold_left (entry_chi F entry) Rs s in
  advances s s' /\ usedRegs s' = usedRegs s /\ (forall R, R ∈ Rs -> covered s' R) /\ forall R, covered s R -> covered s' R.
Proof.
  intros Hen. revert s. induction Rs as [|R Rs IH]; intros s Hs HR; simpl.
  { split; [by apply advances_refl|]. split; [done|]. split; [|done]. by intros ? ?%not_elem_of_nil. }
  destruct (entry_chi_advances entry s R Hen Hs (HR R (list_elem_of_here _ _))) as (A1 & U1 & C1 & P1).
  destruct (IH (entry_chi F entry s R) (proj2 A1)) as (A2 & U2 & C2 & P2).
  { intros R' HR'. rewrite U1. apply HR. by apply list_elem_of_further. }
  split; [by eapply advances_trans|]. split; [congruence|]. split; [|auto].
  intros R' [->|HR']%elem_of_cons; auto.
Qed.

Lemma return_mus_advance Rs s : building s -> (forall R, R ∈ Rs -> R ∈ usedRegs s) ->
  let s' := fold_left (return_mu F) Rs s in advances s s' /\ usedRegs s' = usedRegs s /\ forall R, covered s R -> covered s' R.
Proof.
  revert s. induction Rs as [|R Rs IH]; intros s Hs HR; simpl; [by split; [apply advances_refl|]|].
  assert (advances s (return_mu F s R)) as A1.
  { split; [by split|]. eapply (building_mu M F sb false s _ funToReturnMuMap F {| mu_region := R; mu_type := RET F; mu_var := None |} Hs); try done.
    apply HR, list_elem_of_here. }
  destruct (IH (return_mu F s R) (proj2 A1)) as (A2 & U2 & C2).
  { intros R' HR'. apply HR. by apply list_elem_of_further. }
  split; [by eapply advances_trans|]. split; [by rewrite U2|]. intros R' HR'. apply C2.
  by eapply (covered_new false s _ funToReturnMuMap F).
Qed.

(** [computeMuChi]. *)
Lemma computeMuChi_advances fuel entry noRet s : building s -> getEntryBlock (base M) F = Some entry ->
  functionDoesNotRet fuel (base M) F = Ok noRet -> (forall b Inst, (b, Inst) ∈ minsts M F -> annotation_known Inst) ->
  exists s', computeMuChi cfg opts M CG Regions MRA fuel F s = Ok s' /\ advances s s' /\ forall R, R ∈ usedRegs s' -> covered s' R.
Proof.
  intros Hs Hen Hnr Hk. unfold computeMuChi.
  destruct (rfold_advances (mu_chi_inst cfg opts M CG Regions MRA F) (minsts M F) s Hs) as (s1 & -> & A1).
  { intros [b Inst] s' Hp Hs'. apply mu_chi_inst_advances; [done|by apply (Hk b)|done]. }
  cbn [rbind]. rewrite Hen. cbn [of_option rbind].
  assert (entry ∈ mblocks M F) as Hin.
  { unfold getEntryBlock in Hen. unfold mblocks. destruct (blocks (function (base M) F)); [done|]. injection Hen as <-. apply list_elem_of_here. }
  destruct (entry_chis_advance entry (in_order (usedRegs s1)) s1 Hin (proj2 A1)) as (A2 & U2 & C2 & _); [by intros R; rewrite elem_of_in_order|].
  set (s2 := fold_left (entry_chi F entry) (in_order (usedRegs s1)) s1) in *. rewrite Hnr. cbn [rbind].
  assert (advances s s2) as A12 by (by eapply advances_trans).
  assert (forall R, R ∈ usedRegs s2 -> covered s2 R) as C by (intros R HR; apply C2; by rewrite elem_of_in_order, <- U2).
  eexists. split; [reflexivity|]. destruct noRet; [done|].
  destruct (return_mus_advance (in_order (usedRegs s2)) s2 (proj2 A2)) as (A3 & U3 & C3); [by intros R; rewrite elem_of_in_order|].
  split; [by eapply advances_trans|]. intros R. rewrite U3. auto.
Qed.
End Annotate.

(** * Phis *)

Section Phis.
Context (M : MModule) (F : FuncId) (sb : MemorySSA) (DF : BlockId -> option (list BlockId)) (U : gset BlockId).

Local Abbreviation building := (building M F sb true).

(** A phi of [R] in [Y], made for [F]. *)
Definition has_phi (s : MemorySSA) (R : RegId) (Y : BlockId) : Prop :=
  exists d x, d ∈ at_owner s bbToPhiMap Y /\ (fresh sb <= d)%N /\ defs s !! d = Some x /\ region x = Some R.

(** [Y] is in the dominance frontier of [X]. *)
Definition df (X Y : BlockId) : Prop := exists ds, DF X = Some ds /\ Y ∈ ds.

(** What placing phis leaves alone. *)
Record placing (s s' : MemorySSA) : Prop := {
  pl_building : building s';
  pl_used : usedRegs s' = usedRegs s;
  pl_blocks : regDefToBBMap s' = regDefToBBMap s;
  pl_covered : forall R, covered F s R -> covered F s' R
}.

Lemma placing_trans s1 s2 s3 : placing s1 s2 -> placing s2 s3 -> placing s1 s3.
Proof. intros [] []. split; [done|congruence|congruence|eauto]. Qed.

Lemma placing_refl s : building s -> placing s s.
Proof. by split. Qed.

(** One phi. *)
Lemma new_phi_placing s R Y : building s -> R ∈ usedRegs s ->
  placing s (new_chi bbToPhiMap Y PHI R s) /\
  forall R' Y', has_phi (new_chi bbToPhiMap Y PHI R s) R' Y' <-> has_phi s R' Y' \/ (R' = R /\ Y' = Y).
Proof.
  intros Hs HR. assert (building (new_chi bbToPhiMap Y PHI R s)) as HB.
  { eapply (building_chi M F sb true s _ bbToPhiMap Y R PHI Hs); try done. by left. }
  split; [split; [done..|]|].
  - intros R' HC. eapply (covered_new M F sb true s _ bbToPhiMap Y); [done|done| |done]. intros d Hd. simpl. by rewrite lookup_insert_ne.
  - intros R' Y'. split.
    + intros (d & x & Hd & Hf & Ex & Er). apply (own_cases s _ bbToPhiMap Y) in Hd as [Hd|(-> & _ & ->)]; [|..|done].
      * left. exists d, x. pose proof (wf_fresh _ (bl_wf _ _ _ _ _ Hs) _ _ _ Hd). simpl in Ex. rewrite lookup_insert_ne in Ex by lia. done.
      * right. simpl in Ex. rewrite lookup_insert_eq in Ex. injection Ex as <-. simpl in Er. by injection Er.
    + intros [(d & x & Hd & Hf & Ex & Er)|[-> ->]].
      * exists d, x. pose proof (wf_fresh _ (bl_wf _ _ _ _ _ Hs) _ _ _ Hd). split; [|split; [done|split; [|done]]].
        -- by apply (own_old s _ bbToPhiMap Y).
        -- simpl. rewrite lookup_insert_ne by lia. done.
      * exists (fresh s), (new_def (Some R) PHI). split; [|split; [apply (bl_start _ _ _ _ _ Hs)|split; [|done]]].
        -- unfold at_owner. simpl. rewrite lookup_insert_eq. apply elem_of_app. right. apply list_elem_of_here.
        -- simpl. by rewrite lookup_insert_eq.
Qed.

(** The frontier of one block: every block of it gets a phi, those not met are
    pushed. *)
Lemma place_phis R ds : forall WL DFP Work s, building s -> R ∈ usedRegs s -> DFP ⊆ Work ->
  (forall Y, has_phi s R Y <-> Y ∈ DFP) ->
  exists new s', fold_left (place_phi R) ds (WL, DFP, Work, s) = (new ++ WL, list_to_set ds ∪ DFP, list_to_set new ∪ Work, s') /\
    placing s s' /\ (forall Y, has_phi s' R Y <-> Y ∈ (list_to_set ds ∪ DFP : gset BlockId)) /\
    (forall R' Y, R' <> R -> has_phi s' R' Y <-> has_phi s R' Y) /\
    NoDup new /\ forall Y, Y ∈ new <-> Y ∈ ds /\ Y ∉ Work.
Proof.
  induction ds as [|Y ds IH]; intros WL DFP Work s Hs HR Hsub Hphi.
  { exists [], s. simpl. rewrite !union_empty_l_L.
    split; [done|]. split; [by apply placing_refl|]. split; [done|]. split; [done|]. split; [constructor|]. set_solver. }
  cbn [fold_left]. unfold place_phi at 2. case_bool_decide as HD.
  { destruct (IH WL DFP Work s Hs HR Hsub Hphi) as (new & s' & -> & P & H1 & H2 & H3 & H4). exists new, s'.
    assert (list_to_set (Y :: ds) ∪ DFP = list_to_set ds ∪ DFP) as -> by set_solver.
    split; [done|]. split; [done|]. split; [done|]. split; [done|]. split; [done|].
    intros Z. rewrite H4, elem_of_cons. split; [tauto|]. intros [[->|?] HW]; [by destruct HW; apply Hsub|done]. }
  destruct (new_phi_placing s R Y Hs HR) as [P1 Q1]. set (s1 := new_chi bbToPhiMap Y PHI R s) in *.
  assert (forall Z, has_phi s1 R Z <-> Z ∈ {[ Y ]} ∪ DFP) as Hphi1.
  { intros Z. rewrite Q1, Hphi. rewrite elem_of_union, elem_of_singleton. tauto. }
  assert (R ∈ usedRegs s1) as HR1 by done. pose proof (pl_building _ _ P1) as Hs1.
  assert (list_to_set (Y :: ds) ∪ DFP = list_to_set ds ∪ ({[ Y ]} ∪ DFP)) as -> by set_solver.
  case_bool_decide as HW.
  - destruct (IH WL ({[ Y ]} ∪ DFP) Work s1 Hs1 HR1) as (new & s' & -> & P & H1 & H2 & H3 & H4); [set_solver|done|].
    exists new, s'. split; [done|]. split; [by eapply placing_trans|]. split; [done|]. split; [|split; [done|]].
    + intros R' Z Hne. rewrite H2 by done. rewrite Q1. split; [by intros [?|[? _]]|by left].
    + intros Z. rewrite H4, elem_of_cons. split; [tauto|]. intros [[->|?] ?]; done.
  - destruct (IH (Y :: WL) ({[ Y ]} ∪ DFP) ({[ Y ]} ∪ Work) s1 Hs1 HR1) as (new & s' & -> & P & H1 & H2 & H3 & H4); [set_solver|done|].
    exists (new ++ [Y]), s'. rewrite <- app_assoc. split.
    { cbn [app]. f_equal. f_equal. rewrite list_to_set_app_L. cbn [list_to_set]. rewrite union_empty_r_L, assoc_L by apply _. done. }
    split; [by eapply placing_trans|]. split; [done|]. split; [|split].
    + intros R' Z Hne. rewrite H2 by done. rewrite Q1. split; [by intros [?|[? _]]|by left].
    + apply NoDup_app. split; [done|]. split; [|apply NoDup_singleton]. intros Z HZ ->%list_elem_of_singleton. apply H4 in HZ. set_solver.
    + intros Z. rewrite elem_of_app, H4, list_elem_of_singleton, elem_of_cons, elem_of_union, elem_of_singleton.
      destruct (decide (Z = Y)) as [->|]; tauto.
Qed.

Hypothesis HDF : forall X, X ∈ U -> exists ds, DF X = Some ds /\ forall Y, Y ∈ ds -> Y ∈ U.

Lemma frontier_closed (DFP Work : gset BlockId) : DFP ⊆ Work -> (forall A B, A ∈ Work -> df A B -> B ∈ DFP) ->
  forall X Y, tc df X Y -> X ∈ Work -> Y ∈ DFP.
Proof. intros Hsub Hcl. induction 1 as [X Y HXY|X Y Z HXY _ IH]; intros HX; eauto. Qed.

(** The worklist. *)
Lemma phi_worklist_spec R (Defs : gset BlockId) fuel : forall WL DFP Work s, building s -> R ∈ usedRegs s -> DFP ⊆ Work ->
  Work ⊆ U -> Defs ⊆ Work -> (forall X, X ∈ WL -> X ∈ Work) -> length WL + size (U ∖ Work) <= fuel ->
  (forall Y, has_phi s R Y <-> Y ∈ DFP) ->
  (forall X Y, X ∈ Work -> X ∈ WL \/ (df X Y -> Y ∈ DFP)) ->
  (forall X, X ∈ Work -> X ∈ Defs \/ X ∈ DFP) -> (forall Y, Y ∈ DFP -> exists X, X ∈ Defs /\ tc df X Y) ->
  exists s', phi_worklist fuel DF R (WL, DFP, Work, s) = Ok s' /\ placing s s' /\
    (forall Y, has_phi s' R Y <-> exists X, X ∈ Defs /\ tc df X Y) /\ forall R' Y, R' <> R -> has_phi s' R' Y <-> has_phi s R' Y.
Proof.
  induction fuel as [|fuel IH]; intros WL DFP Work s Hs HR HDW HWU HDefs HWL Hf Hphi Hcl Hw Hsound.
  all: destruct WL as [|X WL]; [|try (simpl in Hf; lia)].
  1, 2: exists s; split; [done|]; split; [by apply placing_refl|]; split; [|done]; intros Y; rewrite Hphi; split; [apply Hsound|];
    intros (X & HX & HXY); apply (frontier_closed DFP Work HDW) with (X := X); [|done|by apply HDefs];
    intros A B HA HAB; by destruct (Hcl A B HA) as [?%not_elem_of_nil|H]; [|apply H].
  cbn [phi_worklist]. assert (X ∈ Work) as HX by (apply HWL, list_elem_of_here).
  destruct (HDF X (HWU X HX)) as (ds & EX & HdsU). rewrite EX. cbn [of_option rbind].
  destruct (place_phis R ds WL DFP Work s Hs HR HDW Hphi) as (new & s1 & -> & P & H1 & H2 & H3 & H4).
  assert (forall Y, Y ∈ (list_to_set new ∪ Work : gset BlockId) -> Y ∈ ds \/ Y ∈ Work) as Hnew.
  { intros Y [HY%elem_of_list_to_set|HY]%elem_of_union; [left; by apply H4|by right]. }
  assert (forall Y, Y ∈ ds -> Y ∈ (list_to_set new ∪ Work : gset BlockId)) as Hds.
  { intros Y HY. destruct (decide (Y ∈ Work)); [set_solver|]. apply elem_of_union. left. apply elem_of_list_to_set, H4. done. }
  destruct (IH (new ++ WL) (list_to_set ds ∪ DFP) (list_to_set new ∪ Work) s1) as (s' & E & P' & H1' & H2').
  - apply P.
  - by rewrite (pl_used _ _ P).
  - intros Y [HY%elem_of_list_to_set|HY]%elem_of_union; [by apply Hds|]. apply elem_of_union. right. by apply HDW.
  - intros Y [HY|HY]%Hnew; [by apply HdsU|by apply HWU].
  - set_solver.
  - intros Y [HY|HY]%elem_of_app; [apply Hds, H4, HY|]. apply elem_of_union. right. apply HWL. by apply list_elem_of_further.
  - rewrite length_app. cbn [length] in Hf.
    assert (U ∖ (list_to_set new ∪ Work) = (U ∖ Work) ∖ list_to_set new) as -> by set_solver.
    assert (size (list_to_set new : gset BlockId) = length new) as Hl by (by apply size_list_to_set).
    assert (list_to_set new ⊆ U ∖ Work) as Hs2.
    { intros Y [HY HYW]%elem_of_list_to_set%H4. apply elem_of_difference. split; [by apply HdsU|done]. }
    pose proof (size_difference (U ∖ Work) _ Hs2). pose proof (subseteq_size _ _ Hs2). lia.
  - done.
  - intros A B HA. destruct (Hnew A HA) as [HAd|HAW].
    + destruct (decide (A ∈ Work)) as [HAW|HAW]; [|left; apply elem_of_app; left; by apply H4].
      destruct (Hcl A B HAW) as [[->|HAL]%elem_of_cons|HAB]; [|left; apply elem_of_app; by right|].
      * right. intros (ds' & E' & HB). rewrite EX in E'. injection E' as <-. apply elem_of_union. left. by apply elem_of_list_to_set.
      * right. intros HB. apply elem_of_union. right. auto.
    + destruct (Hcl A B HAW) as [[->|HAL]%elem_of_cons|HAB]; [|left; apply elem_of_app; by right|].
      * right. intros (ds' & E' & HB). rewrite EX in E'. injection E' as <-. apply elem_of_union. left. by apply elem_of_list_to_set.
      * right. intros HB. apply elem_of_union. right. auto.
  - intros Y [HY|HY]%Hnew; [right; apply elem_of_union; left; by apply elem_of_list_to_set|].
    destruct (Hw Y HY) as [?|?]; [by left|right; apply elem_of_union; by right].
  - intros Y [HY%elem_of_list_to_set|HY]%elem_of_union; [|by apply Hsound].
    assert (df X Y) as HXY by (by exists ds). destruct (Hw X HX) as [HXD|HXP]; [exists X; split; [done|by apply tc_once]|].
    destruct (Hsound X HXP) as (A & HA & HAX). exists A. split; [done|]. by eapply tc_r.
  - exists s'. split; [exact E|]. split; [by eapply placing_trans|]. split; [done|]. intros R' Y Hne. by rewrite H2', H2.
Qed.

Lemma phis_of_regions_spec fuel Rs : forall s, building s -> NoDup Rs -> (forall R, R ∈ Rs -> R ∈ usedRegs s) ->
  (forall R X, R ∈ Rs -> X ∈ def_blocks s R -> X ∈ U) -> size U <= fuel -> (forall R Y, R ∈ Rs -> ~ has_phi s R Y) ->
  exists s', rfold (phis_of_region fuel DF) Rs s = Ok s' /\ placing s s' /\
    (forall R Y, R ∈ Rs -> has_phi s' R Y <-> exists X, X ∈ def_blocks s R /\ tc df X Y) /\
    forall R Y, R ∉ Rs -> has_phi s' R Y <-> has_phi s R Y.
Proof.
  induction Rs as [|R Rs IH]; intros s Hs Hnd HR HX Hf Hno.
  { exists s. split; [done|]. split; [by apply placing_refl|]. split; [|done]. by intros ? ? ?%not_elem_of_nil. }
  apply NoDup_cons in Hnd as [HRn Hnd]. assert (R ∈ R :: Rs) as HRin by apply list_elem_of_here.
  assert (forall X, X ∈ def_blocks s R -> X ∈ U) as HXU by (intros X; by apply HX).
  destruct (phi_worklist_spec R (def_blocks s R) fuel (rev (in_order (def_blocks s R))) ∅ (def_blocks s R) s)
    as (s1 & E1 & P1 & H1 & O1); [done|by apply HR|set_solver|done|done| | | | | |done|].
  - intros X HXr. apply list_elem_of_In, in_rev, list_elem_of_In, elem_of_in_order in HXr. done.
  - rewrite length_rev, length_in_order. assert (def_blocks s R ⊆ U) as Hsub by done.
    pose proof (size_difference U _ Hsub). pose proof (subseteq_size _ _ Hsub). lia.
  - intros Y. split; [intros H; by destruct (Hno R Y HRin)|set_solver].
  - intros X Y HXd. left. apply list_elem_of_In. rewrite <- in_rev. by apply list_elem_of_In, elem_of_in_order.
  - by left.
  - cbn [rfold]. unfold phis_of_region at 1. change (default ∅ (regDefToBBMap s !! R)) with (def_blocks s R). rewrite E1. cbn [rbind].
    assert (forall R', def_blocks s1 R' = def_blocks s R') as HDB by (intros R'; unfold def_blocks; by rewrite (pl_blocks _ _ P1)).
    destruct (IH s1 (pl_building _ _ P1) Hnd) as (s' & E' & P' & H' & O').
    + intros R' HR'. rewrite (pl_used _ _ P1). apply HR. by apply list_elem_of_further.
    + intros R' X HR'. rewrite HDB. apply HX. by apply list_elem_of_further.
    + done.
    + intros R' Y HR'. rewrite O1 by (by intros ->). apply Hno. by apply list_elem_of_further.
    + exists s'. split; [exact E'|]. split; [by eapply placing_trans|]. split.
      * intros R' Y [->|HR']%elem_of_cons; [by rewrite O', H1|]. rewrite H' by done. by setoid_rewrite HDB.
      * intros R' Y [Hne HR']%not_elem_of_cons. by rewrite O', O1.
Qed.

(** [computePhi]: the phis of a region are those of its iterated dominance
    frontier. *)
Lemma computePhi_placing fuel s : building s -> (forall R X, R ∈ usedRegs s -> X ∈ def_blocks s R -> X ∈ U) -> size U <= fuel ->
  (forall R Y, ~ has_phi s R Y) ->
  exists s', computePhi fuel DF s = Ok s' /\ placing s s' /\
    forall R Y, has_phi s' R Y <-> R ∈ usedRegs s /\ exists X, X ∈ def_blocks s R /\ tc df X Y.
Proof.
  intros Hs HX Hf Hno. unfold computePhi.
  destruct (phis_of_regions_spec fuel (in_order (usedRegs s)) s Hs (NoDup_in_order _)) as (s' & E & P & H1 & O1).
  - intros R. by rewrite elem_of_in_order.
  - intros R X. rewrite elem_of_in_order. apply HX.
  - done.
  - intros R Y _. apply Hno.
  - exists s'. split; [done|]. split; [done|]. intros R Y. destruct (decide (R ∈ usedRegs s)) as [HR|HR].
    + rewrite H1 by (by rewrite elem_of_in_order). tauto.
    + rewrite O1 by (by rewrite elem_of_in_order). split; [by intros H%Hno|tauto].
Qed.
End Phis.
