(* ===== verification/MemSSABuild.v ===== *)
(** The memory SSA of a function: the conditions of its phis, and the whole of
    [buildSSA] -- annotation, phis, renaming, conditions. *)
From stdpp Require Import relations.
From S2P Require Import Prelude IR Samples Utils Postdominance Collectives ExtInfo PTACallGraph MemRegions ModRef MemSSA.
From S2P Require Import MemSSARename MemSSAPlace.
#[local] Open Scope nat_scope.
#[local] Opaque getExtModInfo ExtModInfoMap.

(** * The conditions of the phis *)

Section Conditions.
Context (rounds fuel : nat) (M : MModule) (PDT : PostDominatorTree) (Bs : gset BlockId) (height : N -> nat).
Hypothesis OK : pdt_ok (base M) PDT Bs height.
Hypothesis Hfuel : forall b n, node_of PDT Bs b n -> height n < fuel.
Hypothesis Hrounds : size Bs < rounds.
Hypothesis Hterm : forall b, b ∈ Bs -> exists c, getBasicBlockCond (base M) b = Ok c.

Local Abbreviation fstep := (frontier_step (base M) PDT Bs).

(** [c] is the condition of a block of the iterated frontier of [b]. *)
Definition cond_of (b : BlockId) (c : ValueId) : Prop := exists x, tc fstep b x /\ getBasicBlockCond (base M) x = Ok (Some c).

Definition caches_ok (c1 c2 : Cache) : Prop := cache_ok (base M) PDT Bs c1 /\ ipdf_cache_ok (base M) PDT Bs c2.

Lemma frontier_conds_spec b c1 c2 : b ∈ Bs -> caches_ok c1 c2 ->
  exists (P : gset ValueId) c1' c2', frontier_conds rounds fuel M PDT b c1 c2 = Ok (P, c1', c2') /\ caches_ok c1' c2' /\
    forall c, c ∈ P <-> cond_of b c.
Proof.
  intros Hb [H1 H2].
  destruct (iterated_frontier_closure _ _ _ _ OK fuel Hfuel b rounds c1 c2 Hb H1 H2 Hrounds) as (l & c1' & c2' & E & Hl & H1' & H2').
  unfold frontier_conds. rewrite E. cbn [rbind fst snd].
  assert (forall (l' : list BlockId) (P : gset ValueId), (forall x, x ∈ l' -> tc fstep b x) ->
    exists P' : gset ValueId, rfold (fun Preds B => let* cond := getBasicBlockCond (base M) B in
      Ok match cond with Some Cond => {[ Cond ]} ∪ Preds | None => Preds end) l' P = Ok P' /\
    forall c, c ∈ P' <-> c ∈ P \/ exists x, x ∈ l' /\ getBasicBlockCond (base M) x = Ok (Some c)) as Hfold.
  { induction l' as [|x l' IH]; intros P Hx.
    { exists P. split; [done|]. intros c. split; [by left|]. intros [?|(x & ?%not_elem_of_nil & _)]; done. }
    assert (x ∈ Bs) as HxB.
    { assert (forall u v, tc fstep u v -> v ∈ Bs) as Hin.
      { induction 1 as [u v H|]; [by eapply frontier_step_in|done]. }
      by eapply Hin, Hx, list_elem_of_here. }
    destruct (Hterm x HxB) as [cond Ec]. cbn [rfold]. rewrite Ec. cbn [rbind].
    destruct (IH (match cond with Some Cond => {[ Cond ]} ∪ P | None => P end)) as (P' & EP & HP);
      [intros y Hy; apply Hx; by apply list_elem_of_further|].
    exists P'. split; [exact EP|]. intros c. rewrite HP. split.
    - intros [H|(y & Hy & Ey)]; [|right; exists y; split; [by apply list_elem_of_further|done]].
      destruct cond as [c0|]; [|by left]. apply elem_of_union in H as [->%elem_of_singleton|H]; [|by left].
      right. exists x. split; [apply list_elem_of_here|done].
    - intros [H|(y & [->|Hy]%elem_of_cons & Ey)].
      + left. destruct cond; [apply elem_of_union; by right|done].
      + left. rewrite Ec in Ey. injection Ey as ->. apply elem_of_union. left. by apply elem_of_singleton.
      + right. exists y. done. }
  destruct (Hfold l ∅) as (P & -> & HP); [intros x; by apply Hl|]. cbn [rbind]. exists P, c1', c2'. split; [done|]. split; [done|].
  intros c. rewrite HP. unfold cond_of. split.
  - intros [H|(x & Hx & Ex)]; [set_solver|]. exists x. by rewrite <- Hl.
  - intros (x & Hx & Ex). right. exists x. by rewrite Hl.
Qed.

(** A definition less its conditions. *)
Definition strip (x : MSSADef) : MSSADef :=
  {| region := region x; type := type x; var := var x; opVar := opVar x; phiOps := phiOps x; phiConds := ∅ |}.

Definition llvm_conds (s : MemorySSA) (id : InstId) : gset ValueId := default ∅ (llvmPhiToPredMap s !! id).

(** Conditions are added, nothing else changes. *)
Record adds_conds (P Q : N -> ValueId -> Prop) (s s' : MemorySSA) : Prop := {
  ac_owned : owned s' = owned s;
  ac_mus : mus s' = mus s;
  ac_strip : forall d, strip <$> defs s' !! d = strip <$> defs s !! d;
  ac_conds : forall p c, c ∈ conds s' p <-> c ∈ conds s p \/ P p c;
  ac_llvm : forall id c, c ∈ llvm_conds s' id <-> c ∈ llvm_conds s id \/ Q id c;
  ac_used : usedRegs s' = usedRegs s;
  ac_blocks : regDefToBBMap s' = regDefToBBMap s
}.

Abbreviation none := (fun (_ : N) (_ : ValueId) => False).

Lemma adds_no_conds s : adds_conds none none s s.
Proof. split; try done; intros; tauto. Qed.

Lemma adds_conds_trans P P' Q Q' s s1 s2 : adds_conds P Q s s1 -> adds_conds P' Q' s1 s2 ->
  adds_conds (fun p c => P p c \/ P' p c) (fun p c => Q p c \/ Q' p c) s s2.
Proof.
  intros [O1 M1 S1 C1 L1 U1 B1] [O2 M2 S2 C2 L2 U2 B2]. split; [congruence|congruence|intros; by rewrite S2, S1| | |congruence|congruence].
  - intros p c. rewrite C2, C1. tauto.
  - intros p c. rewrite L2, L1. tauto.
Qed.

Lemma adds_conds_ext P P' Q Q' s s' : (forall p c, P p c <-> P' p c) -> (forall p c, Q p c <-> Q' p c) ->
  adds_conds P Q s s' -> adds_conds P' Q' s s'.
Proof. intros HP HQ [O1 M1 S1 C1 L1 U1 B1]. split; try done; intros; by rewrite <- ?HP, <- ?HQ. Qed.

(** The condition [c] comes from an operand of the phi. *)
Definition op_cond (s : MemorySSA) (p : DefId) (c : ValueId) : Prop :=
  exists i o v b, phiOp s p i = Some o /\ varOf s o = Some v /\ bb v = Some b /\ cond_of b c.

(** The operands of the phi have variables in blocks. *)
Definition ops_known (s : MemorySSA) (p : DefId) : Prop := is_Some (defs s !! p) /\
  forall i o, phiOp s p i = Some o -> exists v b, varOf s o = Some v /\ bb v = Some b /\ b ∈ Bs.

Lemma strip_fields P Q s s' : adds_conds P Q s s' ->
  (forall p i, phiOp s' p i = phiOp s p i) /\ (forall d, varOf s' d = varOf s d) /\ (forall d, opOf s' d = opOf s d) /\
  (forall d, region_of s' d = region_of s d) /\ forall d, is_Some (defs s' !! d) <-> is_Some (defs s !! d).
Proof.
  intros H. pose proof (ac_strip _ _ _ _ H) as Hs.
  assert (forall d B (f : MSSADef -> B), (forall x, f (strip x) = f x) -> f <$> defs s' !! d = f <$> defs s !! d) as Hf.
  { intros d B f Hf. specialize (Hs d). destruct (defs s' !! d) as [x|], (defs s !! d) as [y|]; simpl in *; try done.
    assert (strip x = strip y) as E by congruence. by rewrite <- (Hf x), E, Hf. }
  assert (forall t d B (f : MSSADef -> option B), defs t !! d ≫= f = (f <$> defs t !! d) ≫= id) as Hb
    by (intros t d B f; by destruct (defs t !! d)).
  split; [|split; [|split; [|split]]].
  - intros p i. unfold phiOp. by rewrite !Hb, Hf.
  - intros d. unfold varOf. by rewrite !Hb, Hf.
  - intros d. unfold opOf. by rewrite !Hb, Hf.
  - intros d. specialize (Hf d _ region (fun _ => eq_refl)). unfold region_of. destruct (defs s' !! d), (defs s !! d); simpl in Hf; congruence.
  - intros d. specialize (Hs d). destruct (defs s' !! d), (defs s !! d); simpl in Hs; try done; split; eauto.
Qed.

Lemma adds_same_objects P Q s s' : adds_conds P Q s s' -> same_objects s s'.
Proof.
  intros H. destruct (strip_fields _ _ _ _ H) as (_ & _ & _ & H4 & _).
  split; [exact (ac_owned _ _ _ _ H)|exact H4| |exact (ac_used _ _ _ _ H)|exact (ac_blocks _ _ _ _ H)].
  intros m. unfold mu_region_of. by rewrite (ac_mus _ _ _ _ H).
Qed.

Lemma op_cond_stable P Q s s' p c : adds_conds P Q s s' -> op_cond s' p c <-> op_cond s p c.
Proof.
  intros H. destruct (strip_fields _ _ _ _ H) as (H1 & H2 & _). unfold op_cond. by setoid_rewrite H1; setoid_rewrite H2.
Qed.

Lemma ops_known_stable P Q s s' p : adds_conds P Q s s' -> ops_known s p -> ops_known s' p.
Proof.
  intros H [Hp Ho]. destruct (strip_fields _ _ _ _ H) as (H1 & H2 & _ & _ & H5). split; [by apply H5|].
  intros i o. rewrite H1, H2. apply Ho.
Qed.

Abbreviation CState := (MemorySSA * Cache * Cache)%type.

(** The steps of the computation: caches stay right. *)
Definition cstep (P Q : N -> ValueId -> Prop) (st st' : CState) : Prop :=
  caches_ok st'.1.2 st'.2 /\ adds_conds P Q st.1.1 st'.1.1.

Lemma cstep_fold {B} (f : CState -> B -> res CState) (P Q : B -> N -> ValueId -> Prop) (I : MemorySSA -> Prop) l : forall st,
  caches_ok st.1.2 st.2 -> I st.1.1 -> (forall P Q s s', adds_conds P Q s s' -> I s -> I s') ->
  (forall x st, x ∈ l -> caches_ok st.1.2 st.2 -> I st.1.1 -> exists st', f st x = Ok st' /\ cstep (P x) (Q x) st st') ->
  exists st', rfold f l st = Ok st' /\
    cstep (fun p c => exists x, x ∈ l /\ P x p c) (fun p c => exists x, x ∈ l /\ Q x p c) st st'.
Proof.
  induction l as [|x l IH]; intros st Hc HI HIs Hf.
  { exists st. split; [done|]. split; [done|]. eapply adds_conds_ext; [..|apply adds_no_conds];
      intros p c; (split; [done|]); by intros (? & ?%not_elem_of_nil & _). }
  destruct (Hf x st (list_elem_of_here _ _) Hc HI) as (st1 & E1 & [Hc1 A1]).
  destruct (IH st1 Hc1 (HIs _ _ _ _ A1 HI) HIs) as (st' & E' & [Hc' A']); [intros y t Hy; apply Hf; by apply list_elem_of_further|].
  exists st'. cbn [rfold]. rewrite E1. split; [exact E'|]. split; [done|].
  eapply adds_conds_ext; [..|by eapply adds_conds_trans]; intros p c; cbv beta; setoid_rewrite elem_of_cons;
    (split; [intros [?|(y & ? & ?)]; eauto|intros (y & [->|?] & ?); eauto]).
Qed.

Lemma add_conds_adds s p x X : defs s !! p = Some x ->
  adds_conds (fun q c => q = p /\ c ∈ X) none s (with_defs (alter (add_conds X) p (defs s)) s).
Proof.
  intros Ex. split; [done|done| | | |done|done].
  - intros d. simpl. destruct (decide (d = p)) as [->|]; [by rewrite lookup_alter_eq, Ex|by rewrite lookup_alter_ne].
  - intros q c. unfold conds. simpl. destruct (decide (q = p)) as [->|Hne].
    + rewrite lookup_alter_eq, Ex. simpl. rewrite elem_of_union. tauto.
    + rewrite lookup_alter_ne by done. naive_solver.
  - intros id c. unfold llvm_conds. simpl. tauto.
Qed.

(** [computeMSSAPhiPredicates]. *)
Lemma mssa_phi_predicates p st : caches_ok st.1.2 st.2 -> ops_known st.1.1 p ->
  exists st', computeMSSAPhiPredicates rounds fuel M PDT st p = Ok st' /\
    cstep (fun q c => q = p /\ op_cond st.1.1 p c) none st st'.
Proof.
  intros Hc Hk. unfold computeMSSAPhiPredicates. destruct (proj1 Hk) as [x Ex]. rewrite Ex. cbn [of_option rbind].
  set (s0 := st.1.1) in *.
  assert (forall i o, (i, o) ∈ map_to_list (phiOps x) <-> phiOp s0 p i = Some o) as Hops.
  { intros i o. rewrite elem_of_map_to_list. unfold phiOp. by rewrite Ex. }
  destruct (cstep_fold (mssa_phi_op rounds fuel M PDT p)
    (fun op q c => q = p /\ exists v b, varOf s0 op.2 = Some v /\ bb v = Some b /\ cond_of b c) (fun _ => none)
    (fun s => exists P Q, adds_conds P Q s0 s) (map_to_list (phiOps x)) st Hc) as (st' & E & [Hc' A]).
  - exists none, none. apply adds_no_conds.
  - intros P Q s s' A (P0 & Q0 & A0). eexists _, _. by eapply adds_conds_trans.
  - intros [i o] [[s c1] c2] Hin Hcs (P & Q & A). apply Hops in Hin. destruct (proj2 Hk i o Hin) as (v & b & Ev & Eb & Hb).
    unfold mssa_phi_op. simpl in *. destruct (strip_fields _ _ _ _ A) as (_ & H2 & _ & _ & H5).
    assert (varOf s o = Some v) as Ev' by (by rewrite H2). unfold varOf in Ev'.
    destruct (defs s !! o) as [y|]; [|done]. simpl in Ev'. cbn [of_option rbind]. rewrite Ev'. cbn [of_option rbind]. rewrite Eb. cbn [of_option rbind].
    destruct (frontier_conds_spec b c1 c2 Hb Hcs) as (X & c1' & c2' & E & Hc' & HX). rewrite E. cbn [rbind fst snd].
    eexists. split; [reflexivity|]. split; [done|].
    destruct (proj2 (H5 p) (ex_intro _ x Ex)) as [z Ez].
    eapply adds_conds_ext; [..|by eapply add_conds_adds]; [|done]. intros q c. cbv beta. rewrite HX. split.
    + intros [-> H]. split; [done|]. exists v, b. done.
    + intros [-> (v' & b' & E1 & E2 & H)]. split; [done|]. congruence.
  - exists st'. split; [exact E|]. split; [done|]. eapply adds_conds_ext; [..|exact A].
    + intros q c. cbv beta. unfold op_cond. split.
      * intros ([i o] & Hin & -> & v & b & H). split; [done|]. exists i, o, v, b. apply Hops in Hin. done.
      * intros (-> & i & o & v & b & Ho & H). exists (i, o). split; [by apply Hops|]. split; [done|]. by exists v, b.
    + intros q c. cbv beta. split; [by intros (? & _ & [])|done].
Qed.

(** [computeLLVMPhiPredicates]. *)
Definition incoming_cond (Inst : MInst) (id : InstId) (c : ValueId) : Prop :=
  match Inst with PhiI id' inc => id = id' /\ exists v b, (v, b) ∈ inc /\ cond_of b c | _ => False end.

Definition incoming_known (Inst : MInst) : Prop := match Inst with PhiI _ inc => forall v b, (v, b) ∈ inc -> b ∈ Bs | _ => True end.

Lemma llvm_phi_predicates Inst st : caches_ok st.1.2 st.2 -> incoming_known Inst ->
  exists st', computeLLVMPhiPredicates rounds fuel M PDT st Inst = Ok st' /\ cstep none (incoming_cond Inst) st st'.
Proof.
  intros Hc Hk. assert (exists st', Ok st = Ok st' /\ cstep none none st st') as Hsame.
  { exists st. split; [done|]. split; [done|]. apply adds_no_conds. }
  destruct Inst as [| | | |id inc| | | |]; simpl; try exact Hsame. clear Hsame. simpl in Hk.
  destruct (cstep_fold (llvm_phi_op rounds fuel M PDT id) (fun _ => none) (fun vb id' c => id' = id /\ cond_of vb.2 c)
    (fun _ => True) inc st Hc I) as (st' & E & [Hc' A]).
  - done.
  - intros [v b] [[s c1] c2] Hin Hcs _. unfold llvm_phi_op. simpl in *.
    destruct (frontier_conds_spec b c1 c2 (Hk v b Hin) Hcs) as (X & c1' & c2' & E & Hc' & HX). rewrite E. cbn [rbind fst snd].
    eexists. split; [reflexivity|]. split; [done|]. split; try done; simpl; [tauto|].
    intros id' c. unfold llvm_conds. simpl. rewrite <- HX. case_bool_decide as HX0; [set_solver|].
    destruct (decide (id' = id)) as [->|Hne].
    + rewrite lookup_insert_eq. simpl. rewrite elem_of_union. tauto.
    + rewrite lookup_insert_ne by done. naive_solver.
  - exists st'. split; [exact E|]. split; [done|]. eapply adds_conds_ext; [..|exact A].
    + intros q c. cbv beta. split; [by intros (? & _ & [])|done].
    + intros q c. cbv beta. split.
      * intros ([v b] & Hin & -> & H). split; [done|]. by exists v, b.
      * intros (-> & v & b & Hin & H). by exists (v, b).
Qed.

(** [computePhiPredicates]: the conditions of a phi of the memory SSA are those of
    the iterated postdominance frontiers of the blocks of its operands, those of an
    LLVM phi those of its incoming blocks. *)
Lemma computePhiPredicates_adds F s c1 c2 : caches_ok c1 c2 ->
  (forall b p, b ∈ mblocks M F -> p ∈ at_owner s bbToPhiMap b -> ops_known s p) ->
  (forall b Inst, b ∈ mblocks M F -> Inst ∈ code M b -> incoming_known Inst) ->
  exists s' c1' c2', computePhiPredicates rounds fuel M PDT F (s, c1, c2) = Ok (s', c1', c2') /\ caches_ok c1' c2' /\
    adds_conds (fun p c => (exists b, b ∈ mblocks M F /\ p ∈ at_owner s bbToPhiMap b) /\ op_cond s p c)
      (fun id c => exists b Inst, b ∈ mblocks M F /\ Inst ∈ code M b /\ incoming_cond Inst id c) s s'.
Proof.
  intros Hc Hk Hinc. unfold computePhiPredicates.
  destruct (cstep_fold (block_predicates rounds fuel M PDT) (fun b p c => p ∈ at_owner s bbToPhiMap b /\ op_cond s p c)
    (fun b id c => exists Inst, Inst ∈ code M b /\ incoming_cond Inst id c) (fun t => exists P Q, adds_conds P Q s t)
    (mblocks M F) (s, c1, c2) Hc) as ([[s' c1'] c2'] & E & [Hc' A]).
  - exists none, none. apply adds_no_conds.
  - intros P Q t t' A (P0 & Q0 & A0). eexists _, _. by eapply adds_conds_trans.
  - intros b st Hb Hcs (P & Q & A). unfold block_predicates.
    assert (at_owner st.1.1 bbToPhiMap b = at_owner s bbToPhiMap b) as Eo by (unfold at_owner; by rewrite (ac_owned _ _ _ _ A)).
    rewrite Eo.
    destruct (cstep_fold (computeMSSAPhiPredicates rounds fuel M PDT) (fun p q c => q = p /\ op_cond s p c) (fun _ => none)
      (fun t => exists P Q, adds_conds P Q s t) (at_owner s bbToPhiMap b) st Hcs) as (st1 & E1 & [Hc1 A1]).
    + by exists P, Q.
    + intros P' Q' t t' A' (P0 & Q0 & A0). eexists _, _. by eapply adds_conds_trans.
    + intros p t Hp Hct (P' & Q' & A'). destruct (mssa_phi_predicates p t Hct) as (t' & Et & [Hct' At]).
      { eapply ops_known_stable; [exact A'|]. by apply (Hk b). }
      exists t'. split; [done|]. split; [done|]. eapply adds_conds_ext; [..|exact At]; [|done].
      intros q c. cbv beta. by rewrite (op_cond_stable _ _ _ _ p c A').
    + rewrite E1. cbn [rbind].
      destruct (cstep_fold (computeLLVMPhiPredicates rounds fuel M PDT) (fun _ => none) incoming_cond (fun _ => True) (code M b) st1 Hc1 I)
        as (st' & E' & [Hc' A']); [done|intros Inst t Hi Hct _; by apply llvm_phi_predicates, (Hinc b)|].
      exists st'. split; [exact E'|]. split; [done|]. eapply adds_conds_ext; [..|exact (adds_conds_trans _ _ _ _ _ _ _ A1 A')].
      * intros p c. cbv beta. split; [intros [(q & Hq & -> & H)|(? & _ & [])]; done|]. intros [Hp H]. left. exists p. done.
      * intros id c. cbv beta. split; [by intros [(? & _ & [])|H]|]. by right.
  - exists s', c1', c2'. split; [exact E|]. split; [done|]. eapply adds_conds_ext; [..|exact A]; intros p c; cbv beta.
    + split; [intros (b & Hb & Hp & H); eauto|intros ((b & Hb & Hp) & H); eauto].
    + split; [intros (b & Hb & Inst & H); eauto|intros (b & Inst & Hb & H); eauto].
Qed.
End Conditions.

(** * The tables of a function *)

Lemma NoDup_omap_inj {A B} (f : A -> option B) (l : list A) i j a b c : NoDup (omap f l) ->
  l !! i = Some a -> l !! j = Some b -> f a = Some c -> f b = Some c -> i = j.
Proof.
  revert i j. induction l as [|x l IH]; intros i j Hnd Hi Hj Ha Hb; [done|].
  assert (forall k y, l !! k = Some y -> f y = Some c -> c ∈ omap f l) as Hin.
  { intros k y Hk Hy. apply list_elem_of_omap. exists y. split; [by eapply list_elem_of_lookup_2|done]. }
  assert (NoDup (omap f l)) as Hnd' by (cbn in Hnd; destruct (f x); [by apply NoDup_cons in Hnd as [_ ?]|done]).
  assert (f x = Some c -> c ∉ omap f l) as Hx by (intros E; cbn in Hnd; rewrite E in Hnd; by apply NoDup_cons in Hnd as [? _]).
  destruct i as [|i], j as [|j]; simpl in Hi, Hj; [done| | |f_equal; by eapply IH].
  - injection Hi as ->. by destruct (Hx Ha (Hin j b Hj Hb)).
  - injection Hj as ->. by destruct (Hx Hb (Hin i a Hi Ha)).
Qed.

Section Tables.
Context (M : MModule) (F : FuncId) (s : MemorySSA).
Hypothesis Hwf : wf s.

Lemma NoDup_at_owner o k : NoDup (at_owner s o k).
Proof. apply NoDup_alt. intros i j x Hi Hj. by apply (wf_once _ Hwf o k i o k j x). Qed.

Lemma owner_once o k o' k' x : x ∈ at_owner s o k -> x ∈ at_owner s o' k' -> o = o' /\ k = k'.
Proof.
  intros [i Hi]%list_elem_of_lookup [j Hj]%list_elem_of_lookup. by destruct (wf_once _ Hwf o k i o' k' j x Hi Hj) as (-> & -> & _).
Qed.

(** The mus of an instruction but for those of returns. *)
Definition own_mus (Inst : MInst) : list MuId := match Inst with ReturnI _ => [] | _ => inst_mus s F Inst end.

(** The vectors of instructions. *)
Definition inst_map (o : OwnerMap) : bool := match o with bbToPhiMap | funToEntryChiMap | funToReturnMuMap => false | _ => true end.

Lemma chi_source Inst d : d ∈ inst_chis s Inst -> exists o k, inst_id Inst = Some k /\ inst_map o = true /\ is_mu_map o = false /\ d ∈ at_owner s o k.
Proof.
  destruct Inst as [| |id v p|id C args dbg rp| | | | |]; simpl; try by intros ?%not_elem_of_nil.
  - intros H. by exists storeToChiMap, id.
  - rewrite !elem_of_app. intros [H|[H|H]]; [exists callSiteToSyncChiMap, id|exists callSiteToChiMap, id|exists extCallSiteToCallerRetChi, id]; done.
Qed.

Lemma mu_source Inst m : m ∈ own_mus Inst -> exists o k, inst_id Inst = Some k /\ inst_map o = true /\ is_mu_map o = true /\ m ∈ at_owner s o k.
Proof.
  destruct Inst as [|id p| |id C args dbg rp| | | | |]; simpl; try by intros ?%not_elem_of_nil.
  - intros H. by exists loadToMuMap, id.
  - intros H. by exists callSiteToMuMap, id.
Qed.

Lemma NoDup_inst_chis Inst : NoDup (inst_chis s Inst).
Proof.
  destruct Inst as [| |id v p|id C args dbg rp| | | | |]; simpl; try constructor; [apply NoDup_at_owner|].
  apply NoDup_app. split; [apply NoDup_at_owner|]. split.
  - intros x Hx. rewrite elem_of_app. intros [H|H]; by destruct (owner_once _ _ _ _ _ Hx H).
  - apply NoDup_app. split; [apply NoDup_at_owner|]. split; [|apply NoDup_at_owner].
    intros x Hx H. by destruct (owner_once _ _ _ _ _ Hx H).
Qed.

Lemma NoDup_own_mus Inst : NoDup (own_mus Inst).
Proof. destruct Inst; simpl; try constructor; apply NoDup_at_owner. Qed.

(** What instructions with different identifiers own is different. *)
Lemma NoDup_code (g : MInst -> list N) Is : (forall Inst, NoDup (g Inst)) ->
  (forall Inst x, x ∈ g Inst -> exists o k, inst_id Inst = Some k /\ x ∈ at_owner s o k) ->
  NoDup (omap inst_id Is) -> NoDup (Is ≫= g).
Proof.
  intros Hg Hsrc. induction Is as [|I Is IH]; intros Hnd; [constructor|]. rewrite bind_cons.
  assert (NoDup (omap inst_id Is)) as Hnd' by (cbn in Hnd; destruct (inst_id I); [by apply NoDup_cons in Hnd as [_ ?]|done]).
  apply NoDup_app. split; [done|]. split; [|by apply IH]. intros x Hx Hin. apply list_elem_of_bind in Hin as (I' & Hx' & HI').
  destruct (Hsrc I x Hx) as (o & k & Ek & Ho), (Hsrc I' x Hx') as (o' & k' & Ek' & Ho').
  destruct (owner_once _ _ _ _ _ Ho Ho') as [_ <-]. cbn in Hnd. rewrite Ek in Hnd. apply NoDup_cons in Hnd as [Hno _].
  apply Hno, list_elem_of_omap. eauto.
Qed.

Hypothesis Hids : NoDup (omap (fun p => inst_id p.2) (minsts M F)).

Lemma elem_of_minsts b Inst : (b, Inst) ∈ minsts M F <-> b ∈ mblocks M F /\ Inst ∈ code M b.
Proof.
  unfold minsts. rewrite list_elem_of_bind. split.
  - intros (b' & H & Hb). apply list_elem_of_fmap in H as (I & [= -> ->] & HI). done.
  - intros [Hb HI]. exists b. split; [|done]. apply list_elem_of_fmap. by exists Inst.
Qed.

(** The block of an identifier. *)
Lemma inst_block b b' I I' k : (b, I) ∈ minsts M F -> (b', I') ∈ minsts M F -> inst_id I = Some k -> inst_id I' = Some k ->
  b = b' /\ I = I'.
Proof.
  intros [i Hi]%list_elem_of_lookup [j Hj]%list_elem_of_lookup E E'.
  assert (i = j) as -> by (by apply (NoDup_omap_inj _ _ i j _ _ k Hids Hi Hj)). rewrite Hi in Hj. by injection Hj.
Qed.

Lemma NoDup_block_ids X : X ∈ mblocks M F -> NoDup (omap inst_id (code M X)).
Proof.
  intros HX. unfold minsts in Hids. induction (mblocks M F) as [|Y l IH]; [by apply not_elem_of_nil in HX|].
  rewrite bind_cons, omap_app in Hids. apply NoDup_app in Hids as (H1 & _ & H2).
  apply elem_of_cons in HX as [->|HX]; [|by apply IH].
  assert (forall Is : list MInst, omap (fun p : BlockId * MInst => inst_id p.2) ((fun I => (Y, I)) <$> Is) = omap inst_id Is) as E.
  { induction Is as [|J Is IHIs]; [done|]. cbn in *. by rewrite IHIs. }
  by rewrite E in H1.
Qed.

Local Abbreviation evs := (events M F s).

Lemma def_cases X d : Def d ∈ evs X -> d ∈ at_owner s bbToPhiMap X \/ exists Inst, Inst ∈ code M X /\ d ∈ inst_chis s Inst.
Proof.
  intros [(d' & [= <-] & Hd)%list_elem_of_fmap|H]%elem_of_app; [by left|right].
  apply list_elem_of_bind in H as (I & [(m & [=] & _)%list_elem_of_fmap|(d' & [= <-] & Hd)%list_elem_of_fmap]%elem_of_app & HI). eauto.
Qed.

Lemma use_cases X m : Use m ∈ evs X -> m ∈ at_owner s funToReturnMuMap F \/ exists Inst, Inst ∈ code M X /\ m ∈ own_mus Inst.
Proof.
  intros [(d' & [=] & _)%list_elem_of_fmap|H]%elem_of_app.
  apply list_elem_of_bind in H as (I & [(m' & [= <-] & Hm)%list_elem_of_fmap|(d' & [=] & _)%list_elem_of_fmap]%elem_of_app & HI).
  destruct (decide (own_mus I = inst_mus s F I)) as [E|E]; [right; exists I; by rewrite E|].
  destruct I; try (by destruct E); by left.
Qed.

(** A definition is at one place. *)
Lemma def_place X Y i j d : X ∈ mblocks M F -> Y ∈ mblocks M F -> evs X !! i = Some (Def d) -> evs Y !! j = Some (Def d) -> X = Y /\ i = j.
Proof.
  intros HX HY Hi Hj. assert (X = Y) as <-.
  { destruct (def_cases X d) as [H|(I & HI & H)]; [by eapply list_elem_of_lookup_2|..];
      destruct (def_cases Y d) as [H'|(I' & HI' & H')]; try by eapply list_elem_of_lookup_2.
    - by destruct (owner_once _ _ _ _ _ H H').
    - destruct (chi_source I' d H') as (o & k & _ & Ho & _ & Hin). by destruct (owner_once _ _ _ _ _ H Hin) as [<- _].
    - destruct (chi_source I d H) as (o & k & _ & Ho & _ & Hin). by destruct (owner_once _ _ _ _ _ H' Hin) as [<- _].
    - destruct (chi_source I d H) as (o & k & E & _ & _ & Hin), (chi_source I' d H') as (o' & k' & E' & _ & _ & Hin').
      destruct (owner_once _ _ _ _ _ Hin Hin') as [_ <-]. by apply (inst_block X Y I I' k); [apply elem_of_minsts..| |]. }
  split; [done|]. eapply (NoDup_omap_inj event_def (evs X)); [|exact Hi|exact Hj|done|done].
  rewrite event_defs. apply NoDup_app. split; [apply NoDup_at_owner|]. split.
  - intros x Hx Hin. apply list_elem_of_bind in Hin as (I & Hd & HI).
    destruct (chi_source I x Hd) as (o & k & _ & Ho & _ & Hin). by destruct (owner_once _ _ _ _ _ Hx Hin) as [<- _].
  - apply NoDup_code; [apply NoDup_inst_chis| |by apply NoDup_block_ids].
    intros I x Hx. destruct (chi_source I x Hx) as (o & k & E & _ & _ & Hin). eauto.
Qed.

(** A use is at one place, but for those of returns. *)
Definition own_use (e : Event) : option MuId :=
  match e with Use m => if decide (m ∈ at_owner s funToReturnMuMap F) then None else Some m | Def _ => None end.

Lemma own_uses X : omap own_use (evs X) = code M X ≫= own_mus.
Proof.
  assert (forall ds : list DefId, omap own_use (Def <$> ds) = []) as Hd by (induction ds as [|d ds IH]; [done|exact IH]).
  assert (forall ms : list MuId, (forall m, m ∈ ms -> m ∉ at_owner s funToReturnMuMap F) -> omap own_use (Use <$> ms) = ms) as Hm.
  { induction ms as [|m ms IH]; intros Hno; [done|]. cbn. rewrite decide_False by (apply Hno, list_elem_of_here). f_equal.
    apply IH. intros x Hx. apply Hno. by apply list_elem_of_further. }
  assert (forall ms : list MuId, (forall m, m ∈ ms -> m ∈ at_owner s funToReturnMuMap F) -> omap own_use (Use <$> ms) = []) as Hr.
  { induction ms as [|m ms IH]; intros Hno; [done|]. cbn. rewrite decide_True by (apply Hno, list_elem_of_here).
    apply IH. intros x Hx. apply Hno. by apply list_elem_of_further. }
  unfold events. rewrite omap_app, Hd. simpl. unfold code_events. induction (code M X) as [|I Is IH]; [done|].
  rewrite !bind_cons, omap_app, IH. f_equal. unfold inst_events. rewrite omap_app, Hd, app_nil_r.
  assert (forall m, m ∈ own_mus I -> m ∉ at_owner s funToReturnMuMap F) as Hown.
  { intros m Hin Hret. destruct (mu_source I m Hin) as (o & k & _ & Ho & _ & Hin'). by destruct (owner_once _ _ _ _ _ Hret Hin') as [<- _]. }
  destruct I; simpl in *; try (by apply Hm); try done. by apply Hr.
Qed.

Lemma use_place X Y i j m : m ∉ at_owner s funToReturnMuMap F -> X ∈ mblocks M F -> Y ∈ mblocks M F ->
  evs X !! i = Some (Use m) -> evs Y !! j = Some (Use m) -> X = Y /\ i = j.
Proof.
  intros Hret HX HY Hi Hj. assert (X = Y) as <-.
  { destruct (use_cases X m) as [H|(I & HI & H)]; [by eapply list_elem_of_lookup_2|done|].
    destruct (use_cases Y m) as [H'|(I' & HI' & H')]; [by eapply list_elem_of_lookup_2|done|].
    destruct (mu_source I m H) as (o & k & E & _ & _ & Hin), (mu_source I' m H') as (o' & k' & E' & _ & _ & Hin').
    destruct (owner_once _ _ _ _ _ Hin Hin') as [_ <-]. by apply (inst_block X Y I I' k); [apply elem_of_minsts..| |]. }
  assert (own_use (Use m) = Some m) as Em by (simpl; by rewrite decide_False).
  split; [done|]. eapply (NoDup_omap_inj own_use (evs X)); [|exact Hi|exact Hj|exact Em|exact Em].
  rewrite own_uses. apply NoDup_code; [apply NoDup_own_mus| |by apply NoDup_block_ids].
  intros I x Hx. destruct (mu_source I x Hx) as (o & k & E & _ & _ & Hin). eauto.
Qed.

(** With one return -- the pass that unifies the exits of a function runs first --
    so are those of the return. *)
Definition one_return : Prop := forall X Y i j r r', X ∈ mblocks M F -> Y ∈ mblocks M F ->
  code M X !! i = Some (ReturnI r) -> code M Y !! j = Some (ReturnI r') -> X = Y /\ i = j.

Definition ret_use (e : Event) : option MuId :=
  match e with Use m => if decide (m ∈ at_owner s funToReturnMuMap F) then Some m else None | Def _ => None end.
Definition ret_mus (Inst : MInst) : list MuId := match Inst with ReturnI _ => at_owner s funToReturnMuMap F | _ => [] end.

Lemma own_not_ret Inst m : m ∈ own_mus Inst -> m ∉ at_owner s funToReturnMuMap F.
Proof.
  intros Hin Hret. destruct (mu_source Inst m Hin) as (o & k & _ & Ho & _ & Hin'). by destruct (owner_once _ _ _ _ _ Hret Hin') as [<- _].
Qed.

Lemma ret_uses X : omap ret_use (evs X) = code M X ≫= ret_mus.
Proof.
  assert (forall ds : list DefId, omap ret_use (Def <$> ds) = []) as Hd by (induction ds as [|d ds IH]; [done|exact IH]).
  assert (forall ms : list MuId, (forall m, m ∈ ms -> m ∉ at_owner s funToReturnMuMap F) -> omap ret_use (Use <$> ms) = []) as Hno.
  { induction ms as [|m ms IH]; intros Hms; [done|]. cbn. rewrite decide_False by (apply Hms, list_elem_of_here).
    apply IH. intros x Hx. apply Hms. by apply list_elem_of_further. }
  assert (forall ms : list MuId, (forall m, m ∈ ms -> m ∈ at_owner s funToReturnMuMap F) -> omap ret_use (Use <$> ms) = ms) as Hin.
  { induction ms as [|m ms IH]; intros Hms; [done|]. cbn. rewrite decide_True by (apply Hms, list_elem_of_here). f_equal.
    apply IH. intros x Hx. apply Hms. by apply list_elem_of_further. }
  unfold events. rewrite omap_app, Hd. simpl. unfold code_events. induction (code M X) as [|I Is IH]; [done|].
  rewrite !bind_cons, omap_app, IH. f_equal. unfold inst_events. rewrite omap_app, Hd, app_nil_r.
  pose proof (own_not_ret I) as Hown. destruct I; simpl in *; try (by apply Hno); try done. by apply Hin.
Qed.

Lemma NoDup_ret_mus Is : (forall i j r r', Is !! i = Some (ReturnI r) -> Is !! j = Some (ReturnI r') -> i = j) -> NoDup (Is ≫= ret_mus).
Proof.
  induction Is as [|I Is IH]; intros H; [constructor|]. rewrite bind_cons. apply NoDup_app. split; [destruct I; try constructor; apply NoDup_at_owner|].
  split; [|apply IH; intros i j r r' Hi Hj; by injection (H (S i) (S j) r r' Hi Hj)].
  intros x Hx Hin. apply list_elem_of_bind in Hin as (I' & Hx' & [j Hj]%list_elem_of_lookup).
  destruct I as [| | | | | |r| |]; try (by apply not_elem_of_nil in Hx). destruct I' as [| | | | | |r'| |]; try (by apply not_elem_of_nil in Hx').
  discriminate (H 0 (S j) r r' eq_refl Hj).
Qed.

Lemma return_block X m : Use m ∈ evs X -> m ∈ at_owner s funToReturnMuMap F -> exists i r, code M X !! i = Some (ReturnI r).
Proof.
  intros [(d' & [=] & _)%list_elem_of_fmap|H]%elem_of_app Hret.
  apply list_elem_of_bind in H as (I & [(m' & [= <-] & Hm)%list_elem_of_fmap|(d' & [=] & _)%list_elem_of_fmap]%elem_of_app & [i Hi]%list_elem_of_lookup).
  destruct (decide (own_mus I = inst_mus s F I)) as [E|E]; [rewrite <- E in Hm; by destruct (own_not_ret I m Hm)|].
  destruct I; try (by destruct E). eauto.
Qed.

Lemma return_place X Y i j m : one_return -> m ∈ at_owner s funToReturnMuMap F -> X ∈ mblocks M F -> Y ∈ mblocks M F ->
  evs X !! i = Some (Use m) -> evs Y !! j = Some (Use m) -> X = Y /\ i = j.
Proof.
  intros H1 Hret HX HY Hi Hj. destruct (return_block X m) as (a & r & Ha); [by eapply list_elem_of_lookup_2|done|].
  destruct (return_block Y m) as (b & r' & Hb); [by eapply list_elem_of_lookup_2|done|].
  destruct (H1 X Y a b r r' HX HY Ha Hb) as [<- _]. split; [done|].
  assert (ret_use (Use m) = Some m) as Em by (simpl; by rewrite decide_True).
  eapply (NoDup_omap_inj ret_use (evs X)); [|exact Hi|exact Hj|exact Em|exact Em].
  rewrite ret_uses. apply NoDup_ret_mus. intros u v r1 r2 Hu Hv. by destruct (H1 X X u v r1 r2 HX HX Hu Hv).
Qed.
End Tables.

(** * [buildSSA] of a function *)

(** Nothing is filed under the instructions and blocks of [F] yet. *)
Record unvisited (M : MModule) (F : FuncId) (s : MemorySSA) : Prop := {
  uv_inst : forall o b Inst k, inst_map o = true -> (b, Inst) ∈ minsts M F -> inst_id Inst = Some k -> at_owner s o k = [];
  uv_phi : forall b, b ∈ mblocks M F -> at_owner s bbToPhiMap b = [];
  uv_entry : at_owner s funToEntryChiMap F = [];
  uv_return : at_owner s funToReturnMuMap F = []
}.

Section Build.
Context (cfg : BuildConfig) (opts : Options) (M : MModule) (CG : PTACallGraph) (Regions : MemReg).
Context (MRA : ModRefAnalysisResult) {PA : PointerAnalysis} (FAM : FuncId -> FunctionAnalyses) (fuel rounds : nat).
Context (F : FuncId) (entry : BlockId) (height : BlockId -> nat) (pheight : N -> nat).

Abbreviation Children := (domChildren (FAM F)).
Abbreviation DF := (domFrontier (FAM F)).
Abbreviation PDT := (postDominators (FAM F)).
Abbreviation Bs := (list_to_set (mblocks M F) : gset BlockId).

(** The function: instructions have identifiers of their own, the pointer analysis
    knows the pointers, and blocks end with a terminator. *)
Record function_ok : Prop := {
  fo_entry : getEntryBlock (base M) F = Some entry;
  fo_ids : NoDup (omap (fun p => inst_id p.2) (minsts M F));
  fo_known : forall b Inst, (b, Inst) ∈ minsts M F -> annotation_known M CG Inst;
  fo_returns : exists noRet, functionDoesNotRet fuel (base M) F = Ok noRet;
  fo_incoming : forall b Inst, (b, Inst) ∈ minsts M F -> incoming_known Bs Inst;
  fo_terminator : forall b, b ∈ mblocks M F -> exists c, getBasicBlockCond (base M) b = Ok c
}.

(** What LLVM documents of its analyses, for a function whose blocks are all
    reachable: the children form the dominator tree, a block is in the frontier of
    those that dominate a predecessor but not the block strictly. *)
Record analyses_ok : Prop := {
  an_tree : tree_ok M Children entry height;
  an_blocks : forall X, in_tree Children entry X <-> X ∈ mblocks M F;
  an_idom : idom_dominates M Children entry;
  an_df : forall X, X ∈ mblocks M F -> exists ds, DF X = Some ds /\ forall Y, Y ∈ ds -> Y ∈ mblocks M F;
  an_frontier : forall Z X Y, Z ∈ mblocks M F -> rtc (child Children) Z X -> Y ∈ successors (base M) X ->
    ~ tc (child Children) Z Y -> df DF Z Y;
  an_pdt : pdt_ok (base M) PDT Bs pheight
}.

(** The fuel: the blocks, the height of the trees. *)
Record fuel_ok : Prop := {
  fu_blocks : size Bs <= fuel;
  fu_tree : height entry < fuel;
  fu_pdt : forall b n, node_of PDT Bs b n -> pheight n < fuel;
  fu_rounds : size Bs < rounds
}.

Hypothesis HF : function_ok.
Hypothesis HA : analyses_ok.
Hypothesis HFu : fuel_ok.

(** After the annotation and the phis, everything of [F] is new. *)
Lemma new_object sb s o k x : unvisited M F sb -> building M F sb true s -> x ∈ at_owner s o k ->
  (inst_map o = true /\ exists b Inst, (b, Inst) ∈ minsts M F /\ inst_id Inst = Some k) \/
  (o = bbToPhiMap /\ k ∈ mblocks M F) \/ (o = funToEntryChiMap /\ k = F) \/ (o = funToReturnMuMap /\ k = F) ->
  (fresh sb <= x)%N.
Proof.
  intros [U1 U2 U3 U4] HB Hx Hk. destruct (bl_old _ _ _ _ _ HB o k x Hx) as [Hold|]; [|done]. exfalso.
  destruct Hk as [(Ho & b & I & HI & E)|[[-> Hk]|[[-> ->]|[-> ->]]]].
  - rewrite (U1 o b I k Ho HI E) in Hold. by apply not_elem_of_nil in Hold.
  - rewrite (U2 k Hk) in Hold. by apply not_elem_of_nil in Hold.
  - rewrite U3 in Hold. by apply not_elem_of_nil in Hold.
  - rewrite U4 in Hold. by apply not_elem_of_nil in Hold.
Qed.

Section Filled.
Context (sb s : MemorySSA) (HU : unvisited M F sb) (HB : building M F sb true s).
Hypothesis Hcov : forall R, R ∈ usedRegs s -> covered F s R.

Local Abbreviation evs := (events M F s).

(** A definition of a block is new and not set. *)
Lemma def_new X d : X ∈ mblocks M F -> Def d ∈ evs X ->
  exists o k R t, d ∈ at_owner s o k /\ defs s !! d = Some (new_def (Some R) t) /\ R ∈ usedRegs s /\
    ((o = bbToPhiMap /\ k = X) \/ (inst_map o = true /\ X ∈ def_blocks s R)) /\ (fresh sb <= d)%N.
Proof.
  intros HX Hd. destruct (def_cases M F s X d Hd) as [H|(I & HI & H)].
  - assert (fresh sb <= d)%N as Hf by (eapply new_object; eauto).
    destruct (bl_def _ _ _ _ _ HB bbToPhiMap X d eq_refl H Hf) as (R & t & E & HR & _). exists bbToPhiMap, X, R, t. auto 10.
  - destruct (chi_source s I d H) as (o & k & Ek & Ho & Hm & Hin).
    assert ((X, I) ∈ minsts M F) as HXI by (by apply elem_of_minsts).
    assert (fresh sb <= d)%N as Hf by (eapply new_object; eauto 10).
    destruct (bl_def _ _ _ _ _ HB o k d Hm Hin Hf) as (R & t & E & HR & HP). exists o, k, R, t.
    split; [done|]. split; [done|]. split; [done|]. split; [|done]. right. split; [done|].
    assert (exists b J, (b, J) ∈ minsts M F /\ inst_id J = Some k /\ b ∈ def_blocks s R) as (b & J & HJ & EJ & Hb) by (by destruct o).
    by destruct (inst_block M F (fo_ids HF) b X J I k HJ HXI EJ Ek) as [<- _].
Qed.

Lemma use_new X m : X ∈ mblocks M F -> Use m ∈ evs X ->
  exists mu, mus s !! m = Some mu /\ mu_var mu = None /\ mu_region mu ∈ usedRegs s.
Proof.
  intros HX Hm. destruct (use_cases M F s X m Hm) as [H|(I & HI & H)].
  - apply (bl_mu _ _ _ _ _ HB funToReturnMuMap F m eq_refl H). eapply new_object; eauto 10.
  - destruct (mu_source F s I m H) as (o & k & Ek & Ho & Hmu & Hin). apply (bl_mu _ _ _ _ _ HB o k m Hmu Hin).
    eapply new_object; eauto. left. split; [done|]. exists X, I. split; [by apply elem_of_minsts|done].
Qed.

Lemma entry_env_covers R : R ∈ usedRegs s -> is_Some (entry_env F s !! Some R).
Proof.
  intros HR. destruct (Hcov R HR) as (d & x & Hd & Ex & Er). unfold entry_env.
  assert (forall l cur, d ∈ l -> is_Some (fold_left (step s) (Def <$> l) cur !! Some R)) as H; [|by apply H].
  assert (region_of s d = Some R) as Ed by (unfold region_of; by rewrite Ex).
  induction l as [|e l IH]; intros cur; [by intros ?%not_elem_of_nil|]. intros [<-|Hin]%elem_of_cons; [|by apply IH].
  simpl. apply steps_some. rewrite Ed, lookup_insert_eq. eauto.
Qed.

Lemma filled_tables : tables_ok M F s Children entry (entry_env F s).
Proof.
  pose proof (an_blocks HA) as Hb. split; setoid_rewrite Hb.
  - intros X d HX Hd. destruct (def_new X d HX Hd) as (o & k & R & t & _ & E & _). eauto.
  - intros X m HX Hm. destruct (use_new X m HX Hm) as (mu & E & _). eauto.
  - intros X [m|d] HX He; simpl.
    + destruct (use_new X m HX He) as (mu & E & _ & HR). unfold mu_region_of. rewrite E. simpl. by apply entry_env_covers.
    + destruct (def_new X d HX He) as (o & k & R & t & _ & E & HR & _). unfold region_of. rewrite E. by apply entry_env_covers.
  - intros X Y i j d HX HY. by apply (def_place M F s (bl_wf _ _ _ _ _ HB) (fo_ids HF)).
  - intros X m HX Hm. destruct (use_new X m HX Hm) as (mu & E & En & _). unfold muVar. by rewrite E.
  - intros X d HX Hd. destruct (def_new X d HX Hd) as (o & k & R & t & _ & E & _). unfold varOf, opOf, phiOp. rewrite E. simpl.
    split; [done|]. split; [done|]. intros i. apply lookup_empty.
Qed.

Lemma entry_chis_apart d : d ∈ at_owner s funToEntryChiMap F ->
  is_Some (defs s !! d) /\ forall X, in_tree Children entry X -> Def d ∉ evs X.
Proof.
  intros Hd. split.
  - destruct (bl_def _ _ _ _ _ HB funToEntryChiMap F d eq_refl Hd) as (R & t & E & _); [eapply new_object; eauto 10|eauto].
  - intros X HX%(an_blocks HA) Hin. destruct (def_new X d HX Hin) as (o & k & R & t & Hin' & _ & _ & Hk & _).
    destruct (owner_once s (bl_wf _ _ _ _ _ HB) _ _ _ _ _ Hd Hin') as [<- _]. by destruct Hk as [[? _]|[? _]].
Qed.

(** The phis are where definitions meet. *)
Lemma filled_placed : (forall R Y, has_phi sb s R Y <-> R ∈ usedRegs s /\ exists X, X ∈ def_blocks s R /\ tc (df DF) X Y) ->
  phis_placed M F s Children entry.
Proof.
  intros Hphi Z X Y d HZ Hd HZX HY HnZ. apply (an_blocks HA) in HZ as HZb.
  destruct (def_new Z d HZb Hd) as (o & k & R & t & Hin & E & HR & Hk & Hf).
  assert (region_of s d = Some R) as Er by (unfold region_of; by rewrite E).
  pose proof (an_frontier HA Z X Y HZb HZX HY HnZ) as HZY.
  assert (has_phi sb s R Y) as (p & x & Hp & _ & Ex & Erx).
  { apply Hphi. split; [done|]. destruct Hk as [[-> ->]|[_ Hk]].
    - assert (has_phi sb s R Z) as HZp by (exists d, (new_def (Some R) t); done).
      apply Hphi in HZp as (_ & X0 & HX0 & Ht). exists X0. split; [done|]. by eapply tc_r.
    - exists Z. split; [done|]. by apply tc_once. }
  exists p. split; [done|]. rewrite Er. unfold region_of. by rewrite Ex.
Qed.
End Filled.

(** Conditions do not matter to the renaming. *)
Lemma block_right_conds P Q s s' X cur : adds_conds P Q s s' ->
  block_right M F s Children entry s X cur -> block_right M F s' Children entry s' X cur.
Proof.
  intros A B. destruct (strip_fields _ _ _ _ A) as (H1 & H2 & H3 & H4 & _).
  assert (same_objects s s') as HS.
  { split; [exact (ac_owned _ _ _ _ A)|exact H4| |exact (ac_used _ _ _ _ A)|exact (ac_blocks _ _ _ _ A)].
    intros m. unfold mu_region_of. by rewrite (ac_mus _ _ _ _ A). }
  apply (block_right_same M F s s' Children entry s' X cur HS). destruct B as [B1 B2 B3 B4]. split.
  - intros k m. unfold muVar. rewrite (ac_mus _ _ _ _ A). apply B1.
  - intros k d. rewrite H3. apply B2.
  - intros Y d. rewrite H1. apply B3.
  - intros d. rewrite H2. apply B4.
Qed.

(** Before the function is visited. *)
Lemma building_start s : wf s -> unvisited M F s -> building M F (with_regs ∅ ∅ s) false (with_regs ∅ ∅ s).
Proof.
  intros Hwf HU. split; [destruct Hwf; by split|done|by left| | | |by auto].
  - intros o k m _ Hm Hf. apply (wf_fresh _ Hwf) in Hm. simpl in Hf. lia.
  - intros o k m _ Hm Hf. apply (wf_fresh _ Hwf) in Hm. simpl in Hf. lia.
  - intros R X. unfold def_blocks. simpl. by rewrite lookup_empty.
Qed.

(** [buildSSA] of a function not visited yet returns. In the end every use, chi and
    phi operand holds the definition of its region that reaches it, on every path
    of the control-flow graph; all uses are at one place -- those of the returns when
    there is one return --;
    the phis of a region are those of the iterated dominance frontier of the blocks
    that define it; the conditions of a phi are those of the iterated postdominance
    frontiers of the blocks of its operands. *)
Lemma buildSSA_function_right s c1 c2 : wf s -> unvisited M F s -> caches_ok M PDT Bs c1 c2 ->
  exists s' c1' c2', buildSSA_function cfg opts M CG Regions MRA FAM fuel rounds F (s, c1, c2) = Ok (s', c1', c2') /\
    (forall X cur, reaches M F s' entry (entry_env F s') X cur -> block_right M F s' Children entry s' X cur) /\
    (forall X m, X ∈ mblocks M F -> Use m ∈ events M F s' X -> m ∉ at_owner s' funToReturnMuMap F \/ one_return M F ->
       used_once M F s' Children entry m) /\
    (forall R Y, Y ∈ mblocks M F -> (exists p, p ∈ at_owner s' bbToPhiMap Y /\ region_of s' p = Some R) <->
       R ∈ usedRegs s' /\ exists X, X ∈ def_blocks s' R /\ tc (df DF) X Y) /\
    (forall Y p c, Y ∈ mblocks M F -> p ∈ at_owner s' bbToPhiMap Y -> c ∈ conds s' p <-> op_cond M PDT Bs s' p c) /\
    (forall o k o' k' x, x ∈ at_owner s' o k -> x ∈ at_owner s' o' k' -> o = o' /\ k = k').
Proof.
  intros Hwf HU Hc. unfold buildSSA_function. set (s0 := with_regs ∅ ∅ s).
  assert (unvisited M F s0) as HU0 by (destruct HU; by split). pose proof (building_start s Hwf HU) as HB0. fold s0 in HB0.
  destruct (fo_returns HF) as [noRet Hnr].
  destruct (computeMuChi_advances cfg opts M CG Regions MRA F s0 fuel entry noRet s0 HB0 (fo_entry HF) Hnr (fo_known HF))
    as (s1 & E1 & [_ HB1] & Hcov1). rewrite E1. cbn [rbind].
  destruct (computePhi_placing M F s0 DF Bs) with (fuel := fuel) (s := s1) as (s2 & E2 & P2 & Hphi).
  { intros X HX%elem_of_list_to_set. destruct (an_df HA X HX) as (ds & E & Hds). exists ds. split; [done|].
    intros Y HY. by apply elem_of_list_to_set, Hds. }
  { by apply building_phis. }
  { intros R X _ HX. by eapply elem_of_list_to_set, bl_blocks. }
  { apply HFu. }
  { intros R Y (p & x & Hp & Hf & _). apply (bl_phis _ _ _ _ _ HB1 eq_refl), (wf_fresh _ Hwf) in Hp. simpl in Hf. lia. }
  rewrite E2. cbn [rbind]. pose proof (pl_building _ _ _ _ _ P2) as HB2.
  assert (forall R, R ∈ usedRegs s2 -> covered F s2 R) as Hcov2.
  { intros R. rewrite (pl_used _ _ _ _ _ P2). intros HR%Hcov1. by apply (pl_covered _ _ _ _ _ P2). }
  assert (forall R Y, has_phi s0 s2 R Y <-> R ∈ usedRegs s2 /\ exists X, X ∈ def_blocks s2 R /\ tc (df DF) X Y) as Hphi2.
  { intros R Y. rewrite Hphi, (pl_used _ _ _ _ _ P2). unfold def_blocks. by rewrite (pl_blocks _ _ _ _ _ P2). }
  destruct (rename_right M F Children entry height s2 fuel) as (s3 & E3 & HS3 & Hcd3 & Hdom3 & Hright & Hops).
  { apply (fo_entry HF). } { by apply (filled_tables s0). } { apply (an_tree HA). } { apply (an_idom HA). }
  { by apply (filled_placed s0). } { apply HFu. } { intros d Hd. by apply (entry_chis_apart s0). }
  rewrite E3. cbn [rbind].
  assert (forall Y p, Y ∈ mblocks M F -> p ∈ at_owner s2 bbToPhiMap Y -> exists R t, defs s2 !! p = Some (new_def (Some R) t)) as Hp2.
  { intros Y p HY Hp. destruct (def_new s0 s2 HU0 HB2 Y p HY (phi_in_evs _ _ _ _ _ Hp)) as (o & k & R & t & _ & E & _). eauto. }
  destruct (computePhiPredicates_adds rounds fuel M PDT Bs pheight (an_pdt HA)) with (F := F) (s := s3) (c1 := c1) (c2 := c2)
    as (s' & c1' & c2' & E4 & _ & A4).
  { apply HFu. } { apply HFu. } { intros b Hb%elem_of_list_to_set. by apply (fo_terminator HF). } { done. }
  { intros b p Hb Hp. split.
    - rewrite (same_at_owner s2 s3 HS3) in Hp. apply Hdom3. destruct (Hp2 b p Hb Hp) as (R & t & ->). eauto.
    - intros i o Ho. destruct (Hops b p i o) as (v & b' & Ev & Eb & Hb'); [by apply (an_blocks HA)|done|done|].
      exists v, b'. split; [done|]. split; [done|]. apply elem_of_list_to_set. by apply (an_blocks HA). }
  { intros b Inst Hb HI. apply (fo_incoming HF b). by apply elem_of_minsts. }
  assert (same_objects s3 s') as HS' by (by eapply adds_same_objects).
  pose proof (same_objects_trans _ _ _ HS3 HS') as HS2. pose proof (same_at_owner s2 s' HS2) as Ho'. pose proof (so_region _ _ HS2) as Hr'.
  exists s', c1', c2'. split; [exact E4|]. split; [|split; [|split; [|split]]].
  - intros X cur HX. eapply block_right_conds; [exact A4|]. apply Hright.
    apply (same_reaches M F s3 s' HS'). by rewrite (same_entry_env F s3 s' HS') in HX.
  - intros X m HX Hm Hret. apply (same_used_once M F s2 s' HS2). rewrite Ho' in Hret.
    intros X' Y' i j HX'%(an_blocks HA) HY'%(an_blocks HA). destruct (decide (m ∈ at_owner s2 funToReturnMuMap F)) as [Hr|Hr].
    + destruct Hret as [?|H1]; [done|]. by apply (return_place M F s2 (bl_wf _ _ _ _ _ HB2)).
    + by apply (use_place M F s2 (bl_wf _ _ _ _ _ HB2) (fo_ids HF)).
  - intros R Y HY. setoid_rewrite Ho'. setoid_rewrite Hr'. rewrite (ac_used _ _ _ _ A4), (so_used _ _ HS3).
    unfold def_blocks. rewrite (ac_blocks _ _ _ _ A4), (so_blocks _ _ HS3). fold (def_blocks s2 R). rewrite <- Hphi2. split.
    + intros (p & Hp & Er). destruct (Hp2 Y p HY Hp) as (R' & t & E). exists p, (new_def (Some R') t).
      split; [done|]. split; [by eapply (new_object s0 s2 bbToPhiMap Y); eauto|]. split; [done|]. unfold region_of in Er. by rewrite E in Er.
    + intros (p & x & Hp & _ & Ex & Er). exists p. split; [done|]. unfold region_of. by rewrite Ex.
  - intros Y p c HY Hp. rewrite (ac_conds _ _ _ _ A4).
    assert (op_cond M PDT Bs s' p c <-> op_cond M PDT Bs s3 p c) as -> by (eapply op_cond_stable; exact A4). split.
    + intros [H|[_ H]]; [|done]. rewrite Hcd3 in H. unfold conds in H. rewrite Ho' in Hp. destruct (Hp2 Y p HY Hp) as (R & t & E).
      rewrite E in H. simpl in H. set_solver.
    + intros H. right. split; [|done]. exists Y. split; [done|]. by rewrite (same_at_owner s3 s' HS') in Hp.
  - intros o k o' k' x. rewrite !Ho'. by apply (owner_once s2 (bl_wf _ _ _ _ _ HB2)).
Qed.
End Build.

(** * An example: [x = a; if (c) x = b; use(x);] *)

Definition memory_diamond : MModule := {|
  base := diamond;
  code := fun b => if N.eqb b 0 then [AllocaI 20; StoreI 30 60 20; TerminatorI]
    else if N.eqb b 1 then [StoreI 31 61 20; TerminatorI]
    else if N.eqb b 2 then [LoadI 32 20; ReturnI 33] else [];
  formals := fun _ => []; varArg := fun _ => false; returnsPointer := fun _ => false; returnsVoid := fun _ => true;
  instFunction := fun _ => Some 0 |}%N.

Definition diamond_analyses : FunctionAnalyses := {|
  domChildren := fun b => if N.eqb b 0 then [1; 2] else [];
  domFrontier := fun b => if N.eqb b 1 then Some [2] else Some [];
  postDominators := diamond_PDT |}%N.

Definition diamond_regions : MemReg := @MemReg_init omp_build omp_options (fun _ => false) own_region 0 ∅.
Definition no_effects : ModRefAnalysisResult :=
  {| funcModMap := ∅; funcRefMap := ∅; funcLocalMap := ∅; funcKillMap := ∅; globalKillSet := ∅ |}.
Definition no_calls : PTACallGraph :=
  {| FunctionMap := ∅; Root := None; ProgEntry := None; reachableFunctions := ∅; indirectCallMap := ∅ |}.

Definition dom_height (b : BlockId) : nat := if N.eqb b 0 then 1 else 0.

Lemma memory_diamond_child X Y : child (domChildren diamond_analyses) X Y -> X = 0%N /\ (Y = 1%N \/ Y = 2%N).
Proof. simpl. destruct (N.eqb_spec X 0) as [->|]; [|by intros ?%not_elem_of_nil]. rewrite !elem_of_cons. intros [->|[->|[]%not_elem_of_nil]]; auto. Qed.

Lemma diamond_in_tree X : in_tree (domChildren diamond_analyses) 0%N X <-> X ∈ [0; 1; 2]%N.
Proof.
  split.
  - intros [<-|(Y & _ & HY)]%rtc_inv_r; [in_list|]. apply memory_diamond_child in HY as [_ [->| ->]]; in_list.
  - intros HX. enum HX; [constructor|apply rtc_once; simpl; in_list..].
Qed.

Lemma diamond_succ X Y : X ∈ [0; 1; 2]%N -> Y ∈ successors diamond X -> (X = 0%N /\ (Y = 1%N \/ Y = 2%N)) \/ (X = 1%N /\ Y = 2%N).
Proof. intros HX HY. enum HX; apply list_elem_of_In in HY; vm_compute in HY; destruct_or?; subst; try done; auto. Qed.

Lemma diamond_analyses_ok : analyses_ok memory_diamond (fun _ => diamond_analyses) 0%N 0%N dom_height diamond_height.
Proof.
  pose proof diamond_in_tree as Ht. split.
  - split.
    + intros X Y [-> [->| ->]]%memory_diamond_child; apply Nat.ltb_lt; reflexivity.
    + intros X X' Y _ _ [-> _]%memory_diamond_child [-> _]%memory_diamond_child. done.
    + intros X _ [_ [?|?]]%memory_diamond_child; discriminate.
    + intros X Y HX HY. apply Ht in HX. rewrite Ht.
      destruct (diamond_succ X Y HX HY) as [[-> [->| ->]]|[-> ->]]; split; in_list.
  - exact Ht.
  - intros X Y HX HY. apply Ht in HX. exists 0%N. split; [constructor|].
    destruct (diamond_succ X Y HX HY) as [[-> [->| ->]]|[-> ->]]; (split; [simpl; in_list|]); try constructor.
    apply rtc_once. simpl. in_list.
  - intros X HX. simpl. destruct (N.eqb X 1); [exists [2%N]|exists []]; (split; [done|]).
    + intros Y HY. enum HY. in_list.
    + by intros Y ?%not_elem_of_nil.
  - intros Z X Y HZ HZX HY HnZ. assert (X ∈ [0; 1; 2]%N) as HX.
    { apply rtc_inv_r in HZX as [<-|(W & _ & HW)]; [exact HZ|]. apply memory_diamond_child in HW as [_ [->| ->]]; in_list. }
    destruct (decide (Z = 0%N)) as [->|Hne].
    + exfalso. apply HnZ, tc_once. simpl. destruct (diamond_succ X Y HX HY) as [[_ [->| ->]]|[_ ->]]; in_list.
    + apply rtc_inv in HZX as [<-|(W & HW & _)]; [|by apply memory_diamond_child in HW as [? _]].
      destruct (diamond_succ Z Y HX HY) as [[? _]|[-> ->]]; [done|]. exists [2%N]. split; [done|in_list].
  - assert (list_to_set (mblocks memory_diamond 0) = {[ 0; 1; 2 ]}%N :> gset N) as -> by (apply (bool_decide_unpack _); vm_compute; exact Logic.I).
    exact diamond_pdt_ok.
Qed.

Lemma memory_diamond_ok : @function_ok memory_diamond no_calls own_region 9 0%N 0%N.
Proof.
  split.
  - reflexivity.
  - apply (bool_decide_unpack _). vm_compute. exact Logic.I.
  - intros b Inst HI. apply list_elem_of_In in HI. vm_compute in HI.
    repeat (destruct HI as [HI|HI]; [injection HI as <- <-; first [exact Logic.I | eexists; reflexivity]|]); destruct HI.
  - exists false. vm_compute. reflexivity.
  - intros b Inst HI. apply list_elem_of_In in HI. vm_compute in HI.
    repeat (destruct HI as [HI|HI]; [injection HI as <- <-; exact Logic.I|]); destruct HI.
  - intros b Hb. enum Hb; eexists; vm_compute; reflexivity.
Qed.

(** C13 (ssa). [buildSSA] of a function whose tables are empty returns. In the end
    every use, chi and phi operand holds the definition of its region that reaches
    it, on every path of the control-flow graph; all uses are at one place -- those
    of the returns when there is one return --; the phis of a region are those of the iterated dominance
    frontier of the blocks that define it; the conditions of a phi are those of the
    iterated postdominance frontiers of the blocks of its operands. *)
Theorem buildSSA_reaching_definitions cfg opts M CG Regions MRA (PA : PointerAnalysis) FAM fuel rounds F entry height pheight s c1 c2 :
  function_ok M CG fuel F entry -> analyses_ok M FAM F entry height pheight -> fuel_ok M FAM fuel rounds F entry height pheight ->
  wf s -> unvisited M F s -> caches_ok M (postDominators (FAM F)) (list_to_set (mblocks M F)) c1 c2 ->
  exists s' c1' c2', buildSSA_function cfg opts M CG Regions MRA FAM fuel rounds F (s, c1, c2) = Ok (s', c1', c2') /\
    (forall X cur, reaches M F s' entry (entry_env F s') X cur -> block_right M F s' (domChildren (FAM F)) entry s' X cur) /\
    (forall X m, X ∈ mblocks M F -> Use m ∈ events M F s' X -> m ∉ at_owner s' funToReturnMuMap F \/ one_return M F ->
       used_once M F s' (domChildren (FAM F)) entry m) /\
    (forall R Y, Y ∈ mblocks M F -> (exists p, p ∈ at_owner s' bbToPhiMap Y /\ region_of s' p = Some R) <->
       R ∈ usedRegs s' /\ exists X, X ∈ def_blocks s' R /\ tc (df (domFrontier (FAM F))) X Y) /\
    (forall Y p c, Y ∈ mblocks M F -> p ∈ at_owner s' bbToPhiMap Y ->
       c ∈ conds s' p <-> op_cond M (postDominators (FAM F)) (list_to_set (mblocks M F)) s' p c).
Proof.
  intros HF HA HFu Hwf HU Hc.
  destruct (buildSSA_function_right cfg opts M CG Regions MRA FAM fuel rounds F entry height pheight HF HA HFu s c1 c2 Hwf HU Hc)
    as (s' & c1' & c2' & E & H1 & H2 & H3 & H4 & _). by exists s', c1', c2'.
Qed.

Lemma empty_wf : wf empty_ssa.
Proof. split; [intros o k i o' k' i' x|intros o k x|intros q d]; cbn; [done|by intros ?%not_elem_of_nil|done]. Qed.

Lemma empty_unvisited M F : unvisited M F empty_ssa.
Proof. by split. Qed.

Definition diamond_result (r : res (MemorySSA * Cache * Cache)) : bool :=
  match r with
  | Ok (s', _, _) =>
      bool_decide (at_owner s' loadToMuMap 32 = [2%N]) && bool_decide (at_owner s' bbToPhiMap 2 = [5%N]) &&
      bool_decide (at_owner s' storeToChiMap 30 = [0%N]) && bool_decide (at_owner s' storeToChiMap 31 = [1%N]) &&
      bool_decide (muVar s' 2 = Some 5%N) && bool_decide (phiOp s' 5 0 = Some 0%N) && bool_decide (phiOp s' 5 1 = Some 1%N) &&
      bool_decide (5%N ∈ conds s' 5)
  | _ => false
  end.

(** The load after the branch reads the phi, whose operands are the two stores. *)
Lemma buildSSA_witness : exists s' c1' c2' m p d0 d1,
  @buildSSA_function omp_build omp_options memory_diamond no_calls diamond_regions no_effects own_region (fun _ => diamond_analyses)
    9 9 0%N (empty_ssa, ∅, ∅) = Ok (s', c1', c2') /\
  at_owner s' loadToMuMap 32 = [m] /\ at_owner s' bbToPhiMap 2 = [p] /\ at_owner s' storeToChiMap 30 = [d0] /\
  at_owner s' storeToChiMap 31 = [d1] /\ muVar s' m = Some p /\ phiOp s' p 0 = Some d0 /\ phiOp s' p 1 = Some d1 /\
  5%N ∈ conds s' p.
Proof.
  destruct (buildSSA_reaching_definitions omp_build omp_options memory_diamond no_calls diamond_regions no_effects own_region
    (fun _ => diamond_analyses) 9 9 0%N 0%N dom_height diamond_height empty_ssa ∅ ∅ memory_diamond_ok diamond_analyses_ok)
    as (s' & c1' & c2' & E & _).
  - split; try (apply Nat.leb_le; vm_compute; reflexivity).
    intros b n _. unfold diamond_height, find_in. cbn [List.find]. destruct (N.eqb 2 n); [lia|]. destruct (N.eqb 9 n); lia.
  - apply empty_wf.
  - apply empty_unvisited.
  - split; intros b S0 H; by rewrite lookup_empty in H.
  - assert (diamond_result (@buildSSA_function omp_build omp_options memory_diamond no_calls diamond_regions no_effects own_region
      (fun _ => diamond_analyses) 9 9 0%N (empty_ssa, ∅, ∅)) = true) as H by (vm_compute; reflexivity).
    rewrite E in H. unfold diamond_result in H. rewrite !andb_true_iff, !bool_decide_eq_true in H.
    exists s', c1', c2', 2%N, 5%N, 0%N, 1%N. split; [exact E|]. tauto.
Defined.

(** * Two returns: [x = a; if (c) { x = b; return; } return;] *)

Definition two_returns_base : Module_ := mk_module [(0, mk_func "f" [0; 1; 2])]%N
  [(0, mk_block "%entry" [br (Some 5)] [1; 2] []); (1, mk_block "%then" [ReturnInst 33 None] [] [0]);
   (2, mk_block "%end" [ReturnInst 34 None] [] [0])]%N.

Definition two_returns : MModule := {|
  base := two_returns_base;
  code := fun b => if N.eqb b 0 then [AllocaI 20; StoreI 30 60 20; TerminatorI]
    else if N.eqb b 1 then [StoreI 31 61 20; ReturnI 33]
    else if N.eqb b 2 then [ReturnI 34] else [];
  formals := fun _ => []; varArg := fun _ => false; returnsPointer := fun _ => false; returnsVoid := fun _ => true;
  instFunction := fun _ => Some 0 |}%N.

Definition two_returns_analyses : FunctionAnalyses := {|
  domChildren := fun b => if N.eqb b 0 then [1; 2] else [];
  domFrontier := fun _ => Some [];
  postDominators := {| getNode := fun b => Some b; getIDom := fun n => if N.eqb n 9 then None else Some 9;
                       Utils.children := fun n => if N.eqb n 9 then [0; 1; 2] else []; getBlock := fun n => n |} |}%N.

Definition two_returns_ssa : res (MemorySSA * Cache * Cache) :=
  @buildSSA_function omp_build omp_options two_returns no_calls diamond_regions no_effects own_region
    (fun _ => two_returns_analyses) 9 9 0%N (empty_ssa, ∅, ∅).

(** The use of the region by the return of the block 1 -- after its store -- is
    that of the return of the block 2, and keeps what the latter reads. *)
Definition returns_result (r : res (MemorySSA * Cache * Cache)) : bool :=
  match r with
  | Ok (s', _, _) =>
      bool_decide (at_owner s' funToReturnMuMap 0 = [3%N]) && bool_decide (at_owner s' storeToChiMap 31 = [1%N]) &&
      bool_decide (env_at two_returns 0 s' 1 (block_out two_returns 0 s' 0 (entry_env 0 s')) 1 !! Some 20%N = Some 1%N) &&
      bool_decide (muVar s' 3 = Some 0%N)
  | _ => false
  end.

(** Why the exits are unified first: the return of a block is reached by the store
    before it, but the one mu of the returns holds the definition that reaches the
    return visited last. *)
Lemma returns_share_mu : exists s' c1' c2' m,
  two_returns_ssa = Ok (s', c1', c2') /\ at_owner s' funToReturnMuMap 0 = [m] /\ at_owner s' storeToChiMap 31 = [1%N] /\
  (exists cur, reaches two_returns 0 s' 0 (entry_env 0 s') 1 cur /\ env_at two_returns 0 s' 1 cur 1 !! Some 20%N = Some 1%N) /\
  muVar s' m = Some 0%N.
Proof.
  assert (returns_result two_returns_ssa = true) as H by (vm_compute; reflexivity).
  unfold returns_result in H. destruct two_returns_ssa as [ [[s' c1'] c2'] | | ]; [|discriminate..].
  rewrite !andb_true_iff, !bool_decide_eq_true in H. destruct H as [[[H1 H2] H3] H4].
  exists s', c1', c2', 3%N. split_and!; [done..| |done].
  eexists. split; [eapply reaches_step; [constructor|apply list_elem_of_In; vm_compute; tauto]|exact H3].
Qed.
