(* ===== verification/DepGraphBuild.v ===== *)
(** The construction of the dependency graph from the memory SSA (DepGraphDCF.cpp):
    what the visit of each instruction, block and external function inserts in the
    tables, and the whole pass with the elimination of phis and the taint. *)
From S2P Require Import Prelude IR Utils Collectives PTACallGraph MemRegions ModRef DepGraph MemSSA DepGraphTaint DepGraphContext.

(** * Sources and resets *)

(** The functions of the paradigms, with an argument or -1 for the result. *)
Record Sources := {
  SsaSourceFunctions : list (string * Z);
  ValueSourceFunctions : list (string * Z);
  LoadValueSources : list string;
  ResetFunctions : list (string * Z)
}.

Definition no_sources : Sources :=
  {| SsaSourceFunctions := []; ValueSourceFunctions := []; LoadValueSources := []; ResetFunctions := [] |}.

Definition enableMPI (s : Sources) : Sources := {|
  SsaSourceFunctions := SsaSourceFunctions s ++ [("MPI_Comm_rank", 1); ("MPI_Group_rank", 1)]%string;
  ValueSourceFunctions := ValueSourceFunctions s;
  LoadValueSources := LoadValueSources s;
  ResetFunctions := ResetFunctions s ++
    [("MPI_Bcast", 0); ("MPI_Allgather", 3); ("MPI_Allgatherv", 3); ("MPI_Alltoall", 3); ("MPI_Alltoallv", 4);
     ("MPI_Alltoallw", 4); ("MPI_Allreduce", 1)]%string |}.

Definition with_value_sources (l : list string) (s : Sources) : Sources := {|
  SsaSourceFunctions := SsaSourceFunctions s;
  ValueSourceFunctions := ValueSourceFunctions s ++ ((fun n => (n, -1)) <$> l);
  LoadValueSources := LoadValueSources s;
  ResetFunctions := ResetFunctions s |}.

Definition enableOMP : Sources -> Sources :=
  with_value_sources ["__kmpc_global_thread_num"; "_omp_get_thread_num"; "omp_get_thread_num"]%string.

Definition enableUPC (s : Sources) : Sources := {|
  SsaSourceFunctions := SsaSourceFunctions s;
  ValueSourceFunctions := ValueSourceFunctions s;
  LoadValueSources := LoadValueSources s ++ ["gasneti_mynode"%string];
  ResetFunctions := ResetFunctions s |}.

Definition enableCUDA : Sources -> Sources :=
  with_value_sources ["llvm.nvvm.read.ptx.sreg.tid.x"; "llvm.nvvm.read.ptx.sreg.tid.y"; "llvm.nvvm.read.ptx.sreg.tid.z"]%string.

(** The constructor, on the tables of the sources. *)
Definition enable_sources (cfg : BuildConfig) (opts : Options) (s : Sources) : Sources :=
  let s1 := if isActivated cfg opts MPI then enableMPI s else s in
  let s2 := if enable_openmp cfg && isActivated cfg opts OMP then enableOMP s1 else s1 in
  let s3 := if enable_upc cfg && isActivated cfg opts UPC then enableUPC s2 else s2 in
  if enable_cuda cfg && isActivated cfg opts CUDA then enableCUDA s3 else s3.

(** * The tables *)

(** One insertion in the tables, which the construction never reads. *)
Inductive Insertion :=
| Edge (a b : Node)                          (** [addEdge] *)
| LLVMNode (F : FuncId) (v : ValueId)        (** [funcToLLVMNodesMap[F].insert] *)
| NullNode (v : ValueId)                     (** the same with a null function *)
| SSANode (F : FuncId) (x : VarId)           (** [funcToSSANodesMap[F].insert] *)
| CallNode (F : FuncId) (CI : InstId)        (** [funcToCallNodes[F].insert] *)
| CondToCall (c : ValueId) (CI : InstId)     (** [condToCallEdges[c].insert], [callsiteToConds[CI].insert] *)
| CallToFunc (CI : InstId) (C : FuncId)      (** [callToFuncEdges[CI] = C] *)
| CallSite (C : FuncId) (CI : InstId)        (** [funcToCallSites[C].insert] *)
| SsaSource (x : VarId)
| ValueSource (v : ValueId)
| TaintReset (x : VarId).

Record Tables := {
  edges : Graph;
  funcToLLVMNodesMap : gmap FuncId (gset ValueId);
  nullLLVMNodes : gset ValueId;
  ssaNodesMap : gmap FuncId (gset VarId);              (** [funcToSSANodesMap] *)
  funcToCallNodes : gmap FuncId (gset InstId);
  condToCallEdges : gmap ValueId (gset InstId);
  condsOfCallsite : gmap InstId (gset ValueId);        (** [callsiteToConds] *)
  callToFuncEdges : gmap InstId FuncId;
  funcToCallSites : gmap FuncId (gset InstId);
  ssaSourceNodes : gset VarId;                         (** [ssaSources] *)
  valueSourceNodes : gset ValueId;                     (** [valueSources] *)
  taintResetNodes : gset VarId                         (** [taintResetSSANodes] *)
}.

Definition empty_tables : Tables := {|
  edges := empty_graph; funcToLLVMNodesMap := ∅; nullLLVMNodes := ∅; ssaNodesMap := ∅; funcToCallNodes := ∅;
  condToCallEdges := ∅; condsOfCallsite := ∅; callToFuncEdges := ∅; funcToCallSites := ∅; ssaSourceNodes := ∅;
  valueSourceNodes := ∅; taintResetNodes := ∅ |}.

Definition with_edges (g : Graph) (t : Tables) : Tables := {|
  edges := g; funcToLLVMNodesMap := funcToLLVMNodesMap t; nullLLVMNodes := nullLLVMNodes t; ssaNodesMap := ssaNodesMap t;
  funcToCallNodes := funcToCallNodes t; condToCallEdges := condToCallEdges t; condsOfCallsite := condsOfCallsite t;
  callToFuncEdges := callToFuncEdges t; funcToCallSites := funcToCallSites t; ssaSourceNodes := ssaSourceNodes t;
  valueSourceNodes := valueSourceNodes t; taintResetNodes := taintResetNodes t |}.

Definition with_nodes (L : gmap FuncId (gset ValueId)) (N0 : gset ValueId) (X : gmap FuncId (gset VarId)) (t : Tables) : Tables := {|
  edges := edges t; funcToLLVMNodesMap := L; nullLLVMNodes := N0; ssaNodesMap := X;
  funcToCallNodes := funcToCallNodes t; condToCallEdges := condToCallEdges t; condsOfCallsite := condsOfCallsite t;
  callToFuncEdges := callToFuncEdges t; funcToCallSites := funcToCallSites t; ssaSourceNodes := ssaSourceNodes t;
  valueSourceNodes := valueSourceNodes t; taintResetNodes := taintResetNodes t |}.

Definition with_calls (N0 : gmap FuncId (gset InstId)) (E C : gmap N (gset N)) (K : gmap InstId FuncId)
    (S0 : gmap FuncId (gset InstId)) (t : Tables) : Tables := {|
  edges := edges t; funcToLLVMNodesMap := funcToLLVMNodesMap t; nullLLVMNodes := nullLLVMNodes t; ssaNodesMap := ssaNodesMap t;
  funcToCallNodes := N0; condToCallEdges := E; condsOfCallsite := C; callToFuncEdges := K; funcToCallSites := S0;
  ssaSourceNodes := ssaSourceNodes t; valueSourceNodes := valueSourceNodes t; taintResetNodes := taintResetNodes t |}.

Definition with_taints (X : gset VarId) (L : gset ValueId) (R : gset VarId) (t : Tables) : Tables := {|
  edges := edges t; funcToLLVMNodesMap := funcToLLVMNodesMap t; nullLLVMNodes := nullLLVMNodes t; ssaNodesMap := ssaNodesMap t;
  funcToCallNodes := funcToCallNodes t; condToCallEdges := condToCallEdges t; condsOfCallsite := condsOfCallsite t;
  callToFuncEdges := callToFuncEdges t; funcToCallSites := funcToCallSites t; ssaSourceNodes := X;
  valueSourceNodes := L; taintResetNodes := R |}.

Definition insert_one (t : Tables) (i : Insertion) : Tables :=
  match i with
  | Edge a b => with_edges (addEdge a b (edges t)) t
  | LLVMNode F v => with_nodes (insert_at F v (funcToLLVMNodesMap t)) (nullLLVMNodes t) (ssaNodesMap t) t
  | NullNode v => with_nodes (funcToLLVMNodesMap t) ({[ v ]} ∪ nullLLVMNodes t) (ssaNodesMap t) t
  | SSANode F x => with_nodes (funcToLLVMNodesMap t) (nullLLVMNodes t) (insert_at F x (ssaNodesMap t)) t
  | CallNode F CI => with_calls (insert_at F CI (funcToCallNodes t)) (condToCallEdges t) (condsOfCallsite t)
      (callToFuncEdges t) (funcToCallSites t) t
  | CondToCall c CI => with_calls (funcToCallNodes t) (insert_at c CI (condToCallEdges t)) (insert_at CI c (condsOfCallsite t))
      (callToFuncEdges t) (funcToCallSites t) t
  | CallToFunc CI C => with_calls (funcToCallNodes t) (condToCallEdges t) (condsOfCallsite t)
      (<[CI := C]> (callToFuncEdges t)) (funcToCallSites t) t
  | CallSite C CI => with_calls (funcToCallNodes t) (condToCallEdges t) (condsOfCallsite t)
      (callToFuncEdges t) (insert_at C CI (funcToCallSites t)) t
  | SsaSource x => with_taints ({[ x ]} ∪ ssaSourceNodes t) (valueSourceNodes t) (taintResetNodes t) t
  | ValueSource v => with_taints (ssaSourceNodes t) ({[ v ]} ∪ valueSourceNodes t) (taintResetNodes t) t
  | TaintReset x => with_taints (ssaSourceNodes t) (valueSourceNodes t) ({[ x ]} ∪ taintResetNodes t) t
  end.

Definition insert_all (l : list Insertion) (t : Tables) : Tables := fold_left insert_one l t.

(** The insertions of a loop, in the order of its turns. *)
Fixpoint for_each {A B} (f : A -> res (list B)) (l : list A) : res (list B) :=
  match l with
  | [] => Ok []
  | x :: r => let* y := f x in let* ys := for_each f r in Ok (y ++ ys)
  end.

(** [S.find(sub) != npos]. *)
Definition contains_str (sub S : string) : bool := match String.index 0 sub S with Some _ => true | None => false end.

(** The tables and the caches of Utils.cpp. *)
Record BuildState := { tables : Tables; pdf_caches : Cache * Cache }.

Definition insert_in (l : list Insertion) (st : BuildState) : BuildState :=
  {| tables := insert_all l (tables st); pdf_caches := pdf_caches st |}.

Section Build.
Context (M : MModule) (CG : PTACallGraph) (mssa : MemorySSA) (src : Sources) (weakUpdate noPtrDep noPred : bool).
Context (valueName : ValueId -> string).

(** ** Variables *)

(** [Chi->var], asserted; and [Chi->opVar]. *)
Definition chi_var (d : DefId) : res VarId :=
  let* x := of_option (defs mssa !! d) in let* _ := of_option (var x) in Ok d.
Definition chi_vars (d : DefId) : res (VarId * VarId) :=
  let* v := chi_var d in let* x := of_option (defs mssa !! d) in let* o := of_option (opVar x) in Ok (v, o).
Definition mu_variable (m : MuId) : res VarId :=
  let* Mu := of_option (mus mssa !! m) in of_option (mu_var Mu).

(** The artificial chi of the function [C] at the call [CS]. *)
Definition ext_var (m : ExtMap) (C : FuncId) (CS : InstId) : res VarId :=
  let* d := of_option (extChis mssa !! (m, C, CS)) in chi_var d.

(** The operands of a phi, by index. *)
Definition phi_operands (d : MSSADef) : list DefId :=
  omap (fun i => phiOps d !! N.to_nat i) (in_order (list_to_set (N.of_nat <$> elements (dom (phiOps d))))).

(** ** Blocks and simple instructions *)

(** A phi of the memory SSA. *)
Definition visit_mssa_phi (F : FuncId) (d : DefId) : res (list Insertion) :=
  let* v := chi_var d in
  let* Phi := of_option (defs mssa !! d) in
  Ok (SSANode F v :: (phi_operands Phi ≫= fun o => [SSANode F o; Edge (SV o) (SV v)]) ++
      if noPred then [] else in_order (phiConds Phi) ≫= fun Pred => [LLVMNode F Pred; Edge (LV Pred) (SV v)]).

Definition visitBasicBlock (F : FuncId) (b : BlockId) : res (list Insertion) :=
  for_each (visit_mssa_phi F) (at_owner mssa bbToPhiMap b).

(** The visits that connect an instruction to its operands. *)
Definition visit_operands (F : FuncId) (id : InstId) (operands : list ValueId) : list Insertion :=
  LLVMNode F id :: operands ≫= fun V => [Edge (LV V) (LV id); LLVMNode F V].

Definition visitLoadInst (F : FuncId) (LI : InstId) (ptr : ValueId) : res (list Insertion) :=
  let* vars := for_each (fun m => let* v := mu_variable m in Ok [v]) (at_owner mssa loadToMuMap LI) in
  Ok ([LLVMNode F LI; LLVMNode F ptr] ++ (vars ≫= fun v => [SSANode F v; Edge (SV v) (LV LI)]) ++
      (if existsb (String.eqb (valueName ptr)) (LoadValueSources src) then SsaSource <$> vars else []) ++
      if noPtrDep then [] else [Edge (LV ptr) (LV LI)]).

Definition store_chi (F : FuncId) (val ptr : ValueId) (d : DefId) : res (list Insertion) :=
  let* p := chi_vars d in
  Ok ([SSANode F p.1; SSANode F p.2; LLVMNode F ptr; LLVMNode F val; Edge (LV val) (SV p.1)] ++
      (if weakUpdate then [Edge (SV p.2) (SV p.1)] else []) ++
      if noPtrDep then [] else [Edge (LV ptr) (SV p.1)]).

Definition visitStoreInst (F : FuncId) (SI : InstId) (val ptr : ValueId) : res (list Insertion) :=
  for_each (store_chi F val ptr) (at_owner mssa storeToChiMap SI).

Definition visitPHINode (F : FuncId) (id : InstId) (incoming : list (ValueId * BlockId)) : list Insertion :=
  visit_operands F id incoming.*1 ++
  if noPred then []
  else in_order (default ∅ (llvmPhiToPredMap mssa !! id)) ≫= fun V => [Edge (LV V) (LV id); LLVMNode F V].

(** ** Calls *)

(** The functions that have an entry chi, or a return mu, of some region. *)
Definition has_region_entry {A} (T : gmap (FuncId * RegId) A) (C : FuncId) : bool :=
  existsb (fun p => bool_decide (p.1.1 = C)) (map_to_list T).

(** One mu of a call (rule 3). *)
Definition connect_mu (F : FuncId) (CI : InstId) (m : MuId) : res (list Insertion) :=
  let* v := mu_variable m in
  let* Mu := of_option (mus mssa !! m) in
  match mu_type Mu with
  | MuEXTCALL Called ArgNo =>
      if (arg_count M Called <=? ArgNo)%nat then
        let* _ := guard (varArg M Called) in
        let* Var := ext_var extCallSiteToVarArgEntryChi Called CI in
        Ok [SSANode F v; SSANode Called Var; Edge (SV v) (SV Var)]
      else
        let* Var := ext_var (extCallSiteToArgEntryChi ArgNo) Called CI in
        Ok [SSANode F v; Edge (SV v) (SV Var)]
  | MuCALL Called =>
      if has_region_entry (funRegToEntryChiMap mssa) Called then
        let* EntryChi := of_option (funRegToEntryChiMap mssa !! (Called, mu_region Mu)) in
        let* e := chi_var EntryChi in
        Ok [SSANode F v; SSANode Called e; Edge (SV v) (SV e)]
      else Ok [SSANode F v]
  | _ => Broken
  end.

Definition connectCSMus (F : FuncId) (CI : InstId) : res (list Insertion) :=
  for_each (connect_mu F CI) (at_owner mssa callSiteToMuMap CI).

Definition resets_arg (Called : FuncId) (ArgNo : nat) : bool :=
  existsb (fun p => String.eqb (fname M Called) p.1 && (Z.of_nat ArgNo =? p.2)) (ResetFunctions src).

(** One chi of a call (rules 4 and 5). With variable arguments the edge of rule 5
    goes from the artificial chi to itself: the name of the chi of the call is
    hidden there. *)
Definition connect_chi (F : FuncId) (CI : InstId) (d : DefId) : res (list Insertion) :=
  let* p := chi_vars d in
  let* Chi := of_option (defs mssa !! d) in
  let pre := [SSANode F p.2; SSANode F p.1] ++ if weakUpdate then [Edge (SV p.2) (SV p.1)] else [] in
  match type Chi with
  | EXTCALL Called ArgNo _ =>
      if (arg_count M Called <=? ArgNo)%nat then
        let* _ := guard (varArg M Called) in
        let* Var := ext_var extCallSiteToVarArgExitChi Called CI in
        Ok (pre ++ [SSANode Called Var; Edge (SV Var) (SV Var)])
      else
        let* x := ext_var (extCallSiteToArgExitChi ArgNo) Called CI in
        Ok (pre ++ Edge (SV x) (SV p.1) :: if resets_arg Called ArgNo then [TaintReset p.1] else [])
  | CALL Called _ =>
      if has_region_entry (funRegToReturnMuMap mssa) Called then
        let* R := of_option (region Chi) in
        let* ReturnMu := of_option (funRegToReturnMuMap mssa !! (Called, R)) in
        let* v := mu_variable ReturnMu in
        Ok (pre ++ [SSANode Called v; Edge (SV v) (SV p.1)])
      else Ok pre
  | _ => Broken
  end.

Definition connectCSChis (F : FuncId) (CI : InstId) : res (list Insertion) :=
  for_each (connect_chi F CI) (at_owner mssa callSiteToChiMap CI).

(** The formals of [C] (rule 1); [node] gives the set the formal is put in. *)
Definition connect_formals (F : FuncId) (args : list Operand) (C : FuncId) (node : ValueId -> Insertion) : res (list Insertion) :=
  for_each (fun p => let* a := of_option (args !! p.1) in
    Ok [LLVMNode F (opId a); node p.2.1; Edge (LV (opId a)) (LV p.2.1)]) (imap pair (formals M C)).

Definition connectCSEffectiveParametersExt (F : FuncId) (CI : InstId) (args : list Operand) (C : FuncId) : res (list Insertion) :=
  if contains_str "memset" (fname M C) then
    let* x := ext_var (extCallSiteToArgExitChi 0) C CI in
    let* CArg := of_option (args !! 1%nat) in
    Ok [LLVMNode F (opId CArg); Edge (LV (opId CArg)) (SV x)]
  else Ok [].

(** The candidates of an indirect call: the first external one ends the loop. The
    formals go to the set of the null function. *)
Fixpoint connect_candidates (F : FuncId) (CI : InstId) (args : list Operand) (l : list FuncId) : res (list Insertion) :=
  match l with
  | [] => Ok []
  | C :: r =>
      if isDecl M C then connectCSEffectiveParametersExt F CI args C
      else
        let* x := connect_formals F args C NullNode in
        let* y := connect_candidates F CI args r in Ok (x ++ y)
  end.

Definition connectCSEffectiveParameters (F : FuncId) (CI : InstId) (Callee : option FuncId) (args : list Operand) : res (list Insertion) :=
  match Callee with
  | Some C => if isDecl M C then connectCSEffectiveParametersExt F CI args C else connect_formals F args C (LLVMNode C)
  | None => connect_candidates F CI args (indirect_callees CG CI)
  end.

(** Rule 2. *)
Definition connect_return (F : FuncId) (CI : InstId) (C : FuncId) : res (list Insertion) :=
  if negb (isDecl M C) && negb (returnsVoid M C) then
    let* r := getReturnValue (base M) C in Ok [LLVMNode F CI; Edge (LV r) (LV CI)]
  else Ok [].
Definition connectCSCalledReturnValue (F : FuncId) (CI : InstId) (Callee : option FuncId) : res (list Insertion) :=
  for_each (connect_return F CI) (call_targets CG CI Callee).

(** The pointer an external function returns. *)
Definition connect_ret_chi (F : FuncId) (CI : InstId) (C : FuncId) (d : DefId) : res (list Insertion) :=
  let* p := chi_vars d in
  let* r := ext_var extCallSiteToCalleeRetChi C CI in
  Ok [SSANode F p.1; SSANode F p.2; Edge (SV p.2) (SV p.1); Edge (SV r) (SV p.1)].
Definition connectCSRetChi (F : FuncId) (CI : InstId) (Callee : option FuncId) : res (list Insertion) :=
  for_each (fun C => if isDecl M C && returnsPointer M C
                     then for_each (connect_ret_chi F CI C) (at_owner mssa extCallSiteToCallerRetChi CI) else Ok [])
    (call_targets CG CI Callee).

(** The edge to a target, and whether its result is a source. *)
Definition is_value_source (C : FuncId) : bool :=
  existsb (fun p => String.eqb (fname M C) p.1 && (p.2 =? -1)) (ValueSourceFunctions src).
Definition target_tables (CI : InstId) (C : FuncId) : list Insertion :=
  [CallToFunc CI C; CallSite C CI] ++ if is_value_source C then [ValueSource CI] else [].

Definition sync_chi (F : FuncId) (d : DefId) : res (list Insertion) :=
  let* p := chi_vars d in Ok [SSANode F p.1; SSANode F p.2; Edge (SV p.2) (SV p.1); TaintReset p.1].

(** The rules of [visitCallInst], then the tables of calls and the synchronization
    chis. *)
Definition connect_call (F : FuncId) (CI : InstId) (Callee : option FuncId) (args : list Operand) : res (list Insertion) :=
  let* mu := connectCSMus F CI in
  let* chi := connectCSChis F CI in
  let* params := connectCSEffectiveParameters F CI Callee args in
  let* rets := connectCSCalledReturnValue F CI Callee in
  let* retChis := connectCSRetChi F CI Callee in
  Ok (mu ++ chi ++ params ++ rets ++ retChis).
Definition call_tables (F : FuncId) (CI : InstId) (Callee : option FuncId) (Preds : gset ValueId) : res (list Insertion) :=
  let* sync := for_each (sync_chi F) (at_owner mssa callSiteToSyncChiMap CI) in
  Ok (CallNode F CI :: ((fun Pred => CondToCall Pred CI) <$> in_order Preds) ++
      (call_targets CG CI Callee ≫= target_tables CI) ++ sync).

Section Visit.
Context (rounds fuel : nat) (PDT : PostDominatorTree).

(** [visitCallInst]. *)
Definition visitCallInst (F : FuncId) (b : BlockId) (CI : InstId) (Callee : option FuncId) (args : list Operand) (isDbg : bool)
    (st : BuildState) : res BuildState :=
  if isDbg then Ok st
  else
    let* l1 := connect_call F CI Callee args in
    let* r := computeIPDFPredicates rounds fuel (base M) PDT b (pdf_caches st).1 (pdf_caches st).2 in
    let* l2 := call_tables F CI Callee r.1.1 in
    Ok {| tables := insert_all (l1 ++ l2) (tables st); pdf_caches := (r.1.2, r.2) |}.

(** The visit of an instruction; [alloca]s and terminators have none, the others
    print an error. *)
Definition visit_minst (F : FuncId) (b : BlockId) (st : BuildState) (Inst : MInst) : res BuildState :=
  match Inst with
  | LoadI LI ptr => let* l := visitLoadInst F LI ptr in Ok (insert_in l st)
  | StoreI SI val ptr => let* l := visitStoreInst F SI val ptr in Ok (insert_in l st)
  | CallI CI Callee args isDbg _ => visitCallInst F b CI Callee args isDbg st
  | PhiI id incoming => Ok (insert_in (visitPHINode F id incoming) st)
  | OperandsI id operands => Ok (insert_in (visit_operands F id operands) st)
  | AllocaI _ | ReturnI _ | TerminatorI | UnhandledI => Ok st
  end.

Definition visit_block (F : FuncId) (st : BuildState) (b : BlockId) : res BuildState :=
  let* l := visitBasicBlock F b in rfold (visit_minst F b) (code M b) (insert_in l st).

(** ** Functions *)

(** An entry chi. *)
Definition visit_entry_chi (F : FuncId) (d : DefId) : res (list Insertion) :=
  let* v := chi_var d in
  let* Chi := of_option (defs mssa !! d) in
  Ok (SSANode F v :: match opVar Chi with Some o => [SSANode F o; Edge (SV o) (SV v)] | None => [] end).

(** The call sites of one of the maps for [F], and the chis of the arguments at
    one call site. *)
Definition ext_sites (inMap : ExtMap -> bool) (F : FuncId) : list InstId :=
  in_order (list_to_set (omap (fun p : ExtMap * FuncId * InstId * DefId =>
    if inMap p.1.1.1 && bool_decide (p.1.1.2 = F) then Some p.1.2 else None) (map_to_list (extChis mssa)))).
Definition is_arg_entry (m : ExtMap) : bool := match m with extCallSiteToArgEntryChi _ => true | _ => false end.
Definition is_arg_exit (m : ExtMap) : bool := match m with extCallSiteToArgExitChi _ => true | _ => false end.
Definition is_map (m : ExtMap) (n : ExtMap) : bool := bool_decide (n = m).
Definition arg_chis_at (inMap : ExtMap -> bool) (F : FuncId) (CS : InstId) : list DefId :=
  omap (fun p : ExtMap * FuncId * InstId * DefId =>
    if inMap p.1.1.1 && bool_decide (p.1.1.2 = F) && bool_decide (p.1.2 = CS) then Some p.2 else None) (map_to_list (extChis mssa)).

(** The nodes of an entry chi and of an exit chi. *)
Definition entry_node (F : FuncId) (m : ExtMap) (CS : InstId) : res (list Insertion) :=
  let* v := ext_var m F CS in Ok [SSANode F v].
Definition exit_node (F : FuncId) (m : ExtMap) (CS : InstId) : res (list Insertion) :=
  let* d := of_option (extChis mssa !! (m, F, CS)) in
  let* p := chi_vars d in Ok [SSANode F p.1; Edge (SV p.2) (SV p.1)].

Definition ext_var_args (F : FuncId) : res (list Insertion) :=
  if varArg M F then
    let* es := for_each (entry_node F extCallSiteToVarArgEntryChi) (ext_sites (is_map extCallSiteToVarArgEntryChi) F) in
    let* xs := for_each (exit_node F extCallSiteToVarArgExitChi) (ext_sites (is_map extCallSiteToVarArgExitChi) F) in Ok (es ++ xs)
  else Ok [].
Definition ext_formal (F : FuncId) (a : nat * (ValueId * bool)) : res (list Insertion) :=
  let '(ArgNo, (_, isPointer)) := a in
  if isPointer then
    let* es := for_each (entry_node F (extCallSiteToArgEntryChi ArgNo)) (ext_sites is_arg_entry F) in
    let* xs := for_each (exit_node F (extCallSiteToArgExitChi ArgNo)) (ext_sites is_arg_exit F) in Ok (es ++ xs)
  else Ok [].
Definition ext_result (F : FuncId) : res (list Insertion) :=
  if returnsPointer M F then
    for_each (entry_node F extCallSiteToCalleeRetChi) (ext_sites (is_map extCallSiteToCalleeRetChi) F)
  else Ok [].

(** The pointer returned is the destination. *)
Definition returns_dest (F : FuncId) (CS : InstId) (dest : VarId) : res (list Insertion) :=
  if returnsPointer M F then
    let* r := ext_var extCallSiteToCalleeRetChi F CS in Ok [Edge (SV dest) (SV r)]
  else Ok [].
(** [memcpy] and [memmove]. *)
Definition copy_site (F : FuncId) (CS : InstId) : res (list Insertion) :=
  let* from := ext_var (extCallSiteToArgEntryChi 1) F CS in
  let* dest := ext_var (extCallSiteToArgExitChi 0) F CS in
  let* r := returns_dest F CS dest in Ok (Edge (SV from) (SV dest) :: r).
Definition memset_site (F : FuncId) (CS : InstId) : res (list Insertion) :=
  let* dest := ext_var (extCallSiteToArgExitChi 0) F CS in
  let* c := of_option (formals M F !! 1%nat) in
  let* r := returns_dest F CS dest in Ok (Edge (LV c.1) (SV dest) :: r).

(** A call site of an unknown function: its inputs are connected to its outputs. *)
Definition unknown_outputs (F : FuncId) (CS : InstId) : res (list VarId) :=
  let* args := for_each (fun d => let* v := chi_var d in Ok [v]) (arg_chis_at is_arg_exit F CS) in
  let* va := if varArg M F then let* v := ext_var extCallSiteToVarArgExitChi F CS in Ok [v] else Ok [] in
  let* r := if returnsPointer M F then let* v := ext_var extCallSiteToCalleeRetChi F CS in Ok [v] else Ok [] in
  Ok (in_order (list_to_set (args ++ va ++ r))).
Definition unknown_inputs (F : FuncId) (CS : InstId) : res (list VarId) :=
  let* args := for_each (fun d => let* v := chi_var d in Ok [v]) (arg_chis_at is_arg_entry F CS) in
  let* va := if varArg M F then let* v := ext_var extCallSiteToVarArgEntryChi F CS in Ok [v] else Ok [] in
  Ok (in_order (list_to_set (args ++ va))).
Definition unknown_site (F : FuncId) (CS : InstId) : res (list Insertion) :=
  let* outs := unknown_outputs F CS in
  let* ins := unknown_inputs F CS in
  Ok ((ins ≫= fun i => (fun o => Edge (SV i) (SV o)) <$> outs) ++
      ((formals M F).*1 ≫= fun a => (fun o => Edge (LV a) (SV o)) <$> outs)).

(** What the function does, by its name. *)
Definition ext_behaviour (F : FuncId) : res (list Insertion) :=
  if contains_str "memcpy" (fname M F) then for_each (copy_site F) (ext_sites is_arg_entry F)
  else if contains_str "memmove" (fname M F) then for_each (copy_site F) (ext_sites is_arg_entry F)
  else if contains_str "memset" (fname M F) then for_each (memset_site F) (ext_sites is_arg_exit F)
  else for_each (unknown_site F) (in_order (default ∅ (extFuncToCSMap mssa !! F))).

(** The sources among the arguments. *)
Definition ext_sources (F : FuncId) : res (list Insertion) :=
  for_each (fun p : string * Z =>
    if String.eqb (fname M F) p.1 then
      for_each (fun CS => let* v := ext_var (extCallSiteToArgExitChi (Z.to_nat (u32 p.2))) F CS in Ok [SsaSource v])
        (ext_sites is_arg_exit F)
    else Ok []) (SsaSourceFunctions src).

Definition external_function (F : FuncId) : res (list Insertion) :=
  let* va := ext_var_args F in
  let* args := for_each (ext_formal F) (imap pair (formals M F)) in
  let* r := ext_result F in
  let* behaviour := ext_behaviour F in
  let* sources := ext_sources F in
  Ok (va ++ args ++ r ++ behaviour ++ sources).

(** [buildFunction]. *)
Definition buildFunction (st : BuildState) (F : FuncId) : res BuildState :=
  let* st1 := rfold (visit_block F) (mblocks M F) st in
  let* entries := for_each (visit_entry_chi F) (at_owner mssa funToEntryChiMap F) in
  let* ext := if isDecl M F then external_function F else Ok [] in
  Ok (insert_in (entries ++ ext) st1).

(** The loop of [build]. *)
Definition build_if_called (st : BuildState) (F : FuncId) : res BuildState :=
  if negb (isReachableFromEntry CG F) || isIntrinsicDbgFunction (base M) F then Ok st else buildFunction st F.
Definition build_graph (caches : Cache * Cache) : res BuildState :=
  rfold build_if_called (functions (base M)) {| tables := empty_tables; pdf_caches := caches |}.
End Visit.

(** * The whole pass *)

(** The function of a block. *)
Definition block_function (b : BlockId) : option FuncId :=
  List.find (fun F => bool_decide (b ∈ mblocks M F)) (functions (base M)).

(** The phis as their elimination reads them. *)
Definition phi_of (d : MSSADef) : option DepGraph.MSSAPhi :=
  match type d with
  | PHI =>
      match (var d ≫= bb) ≫= block_function with
      | Some F => Some {| opsVar := phi_operands d; phiPreds := phiConds d; phiFunction := F |}
      | None => None
      end
  | _ => None
  end.
Definition phi_state (t : Tables) : PhiState :=
  {| graph := edges t; funcToSSANodesMap := ssaNodesMap t; phis := omap phi_of (defs mssa) |}.

Definition after_elimination (st : PhiState) (t : Tables) : Tables :=
  with_nodes (funcToLLVMNodesMap t) (nullLLVMNodes t) (funcToSSANodesMap st) (with_edges (graph st) t).

(** The tables as the flooding reads them. *)
Definition dgraph_of (t : Tables) : DGraph := {|
  dg_graph := edges t; funcToLLVMNodes := funcToLLVMNodesMap t; funcToSSANodes := ssaNodesMap t;
  taintResetSSANodes := taintResetNodes t; ssaSources := ssaSourceNodes t; valueSources := valueSourceNodes t;
  callsiteToConds := condsOfCallsite t |}.

Section Whole.
(** [rounds] and [fuel] are for the postdominance frontiers, [turns] for the loops
    over the graph. *)
Context (rounds fuel turns : nat) (PDT : PostDominatorTree) (ContextInsensitive disablePhiElim : bool).

(** [build]: the tables, the caches and the taint. *)
Definition build (caches : Cache * Cache) : res (BuildState * Taint) :=
  let* st := build_graph rounds fuel PDT caches in
  let* t := if disablePhiElim then Ok (tables st)
            else let* p := phiElimination turns (base M) (at_owner mssa bbToPhiMap) (phi_state (tables st)) in
                 Ok (after_elimination p (tables st)) in
  let G := dgraph_of t in
  let* taint := if ContextInsensitive then computeTaintedValuesContextInsensitive turns G no_taint
                else computeTaintedValuesContextSensitive turns (base M) CG G (instFunction M) turns no_taint in
  Ok ({| tables := t; pdf_caches := pdf_caches st |}, taint).
End Whole.
End Build.
