(* ===== verification/DepGraphRules.v ===== *)
(** The rules of the dependency graph, as a relation, and that the construction
    makes exactly the edges, sources and resets they derive. *)
From S2P Require Import Prelude IR Utils Postdominance Collectives PTACallGraph MemRegions ModRef DepGraph DepGraphPhi MemSSA MemSSARename MemSSABuild DepGraphTaint DepGraphBuild.
#[local] Open Scope nat_scope.

(** What an insertion says of the flow of values. *)
Inductive Fact :=
| Dep (a b : Node)
| Source (n : Node)
| Reset (x : VarId)
| Condition (c : ValueId) (CI : InstId)     (** the call is executed under the condition *)
| Calls (CI : InstId) (C : FuncId).

Definition fact_of (i : Insertion) : option Fact :=
  match i with
  | Edge a b => Some (Dep a b)
  | SsaSource x => Some (Source (SV x))
  | ValueSource v => Some (Source (LV v))
  | TaintReset x => Some (Reset x)
  | CondToCall c CI => Some (Condition c CI)
  | CallSite C CI => Some (Calls CI C)
  | _ => None
  end.
Definition facts (l : list Insertion) : list Fact := omap fact_of l.

(** * The rules *)

Section Rules.
Context (M : MModule) (CG : PTACallGraph) (s : MemorySSA) (src : Sources) (weakUpdate noPtrDep noPred : bool).
Context (valueName : ValueId -> string).

(** The candidates of an indirect call up to the first external one. *)
Fixpoint through_external (l : list FuncId) : list FuncId :=
  match l with [] => [] | C :: r => if isDecl M C then [C] else C :: through_external r end.
Definition connected_targets (CI : InstId) (Callee : option FuncId) : list FuncId :=
  match Callee with Some C => [C] | None => through_external (indirect_callees CG CI) end.

Local Abbreviation ext m C CS d := (extChis s !! (m, C, CS) = Some d).

(** The numbered rules are those of the comment of [visitCallInst]. *)
Inductive call_rule (CI : InstId) (Callee : option FuncId) (args : list Operand) : Fact -> Prop :=
| rule1 C i a f p : C ∈ connected_targets CI Callee -> isDecl M C = false -> args !! i = Some a -> formals M C !! i = Some (f, p) ->
    call_rule CI Callee args (Dep (LV (opId a)) (LV f))
| rule2 C r : C ∈ call_targets CG CI Callee -> isDecl M C = false -> returnsVoid M C = false -> getReturnValue (base M) C = Ok r ->
    call_rule CI Callee args (Dep (LV r) (LV CI))
| rule3 m Mu v C e : m ∈ at_owner s callSiteToMuMap CI -> mus s !! m = Some Mu -> mu_var Mu = Some v -> mu_type Mu = MuCALL C ->
    funRegToEntryChiMap s !! (C, mu_region Mu) = Some e -> call_rule CI Callee args (Dep (SV v) (SV e))
| rule3_arg m Mu v C i e : m ∈ at_owner s callSiteToMuMap CI -> mus s !! m = Some Mu -> mu_var Mu = Some v ->
    mu_type Mu = MuEXTCALL C i -> i < arg_count M C -> ext (extCallSiteToArgEntryChi i) C CI e ->
    call_rule CI Callee args (Dep (SV v) (SV e))
| rule3_vararg m Mu v C i e : m ∈ at_owner s callSiteToMuMap CI -> mus s !! m = Some Mu -> mu_var Mu = Some v ->
    mu_type Mu = MuEXTCALL C i -> arg_count M C <= i -> ext extCallSiteToVarArgEntryChi C CI e ->
    call_rule CI Callee args (Dep (SV v) (SV e))
| rule4 d o : weakUpdate = true -> d ∈ at_owner s callSiteToChiMap CI -> opOf s d = Some o -> call_rule CI Callee args (Dep (SV o) (SV d))
| rule5 d x C c R mu v : d ∈ at_owner s callSiteToChiMap CI -> defs s !! d = Some x -> type x = CALL C c -> region x = Some R ->
    funRegToReturnMuMap s !! (C, R) = Some mu -> muVar s mu = Some v -> call_rule CI Callee args (Dep (SV v) (SV d))
| rule5_arg d x C i c e : d ∈ at_owner s callSiteToChiMap CI -> defs s !! d = Some x -> type x = EXTCALL C i c -> i < arg_count M C ->
    ext (extCallSiteToArgExitChi i) C CI e -> call_rule CI Callee args (Dep (SV e) (SV d))
| rule5_vararg d x C i c e : d ∈ at_owner s callSiteToChiMap CI -> defs s !! d = Some x -> type x = EXTCALL C i c -> arg_count M C <= i ->
    ext extCallSiteToVarArgExitChi C CI e -> call_rule CI Callee args (Dep (SV e) (SV e))
| rule_reset d x C i c : d ∈ at_owner s callSiteToChiMap CI -> defs s !! d = Some x -> type x = EXTCALL C i c -> i < arg_count M C ->
    (fname M C, Z.of_nat i) ∈ ResetFunctions src -> call_rule CI Callee args (Reset d)
| rule_memset C a e : C ∈ connected_targets CI Callee -> isDecl M C = true -> contains_str "memset" (fname M C) = true ->
    args !! 1 = Some a -> ext (extCallSiteToArgExitChi 0) C CI e -> call_rule CI Callee args (Dep (LV (opId a)) (SV e))
| rule_result_old C d o : C ∈ call_targets CG CI Callee -> isDecl M C = true -> returnsPointer M C = true ->
    d ∈ at_owner s extCallSiteToCallerRetChi CI -> opOf s d = Some o -> call_rule CI Callee args (Dep (SV o) (SV d))
| rule_result C d r : C ∈ call_targets CG CI Callee -> isDecl M C = true -> returnsPointer M C = true ->
    d ∈ at_owner s extCallSiteToCallerRetChi CI -> ext extCallSiteToCalleeRetChi C CI r -> call_rule CI Callee args (Dep (SV r) (SV d))
| rule_sync_old d o : d ∈ at_owner s callSiteToSyncChiMap CI -> opOf s d = Some o -> call_rule CI Callee args (Dep (SV o) (SV d))
| rule_sync d : d ∈ at_owner s callSiteToSyncChiMap CI -> call_rule CI Callee args (Reset d)
| rule_source C : C ∈ call_targets CG CI Callee -> (fname M C, (-1)%Z) ∈ ValueSourceFunctions src ->
    call_rule CI Callee args (Source (LV CI))
| rule_calls C : C ∈ call_targets CG CI Callee -> call_rule CI Callee args (Calls CI C).

(** The instructions of a function. *)
Inductive inst_rule : MInst -> Fact -> Prop :=
| R_operand id ops v : v ∈ ops -> inst_rule (OperandsI id ops) (Dep (LV v) (LV id))
| R_phi id incoming v b : (v, b) ∈ incoming -> inst_rule (PhiI id incoming) (Dep (LV v) (LV id))
| R_phi_cond id incoming c : noPred = false -> c ∈ default ∅ (llvmPhiToPredMap s !! id) ->
    inst_rule (PhiI id incoming) (Dep (LV c) (LV id))
| R_load id ptr m v : m ∈ at_owner s loadToMuMap id -> muVar s m = Some v -> inst_rule (LoadI id ptr) (Dep (SV v) (LV id))
| R_load_ptr id ptr : noPtrDep = false -> inst_rule (LoadI id ptr) (Dep (LV ptr) (LV id))
| R_load_source id ptr m v : valueName ptr ∈ LoadValueSources src -> m ∈ at_owner s loadToMuMap id -> muVar s m = Some v ->
    inst_rule (LoadI id ptr) (Source (SV v))
| R_store id val ptr d : d ∈ at_owner s storeToChiMap id -> inst_rule (StoreI id val ptr) (Dep (LV val) (SV d))
| R_store_ptr id val ptr d : noPtrDep = false -> d ∈ at_owner s storeToChiMap id -> inst_rule (StoreI id val ptr) (Dep (LV ptr) (SV d))
| R_store_old id val ptr d o : weakUpdate = true -> d ∈ at_owner s storeToChiMap id -> opOf s d = Some o ->
    inst_rule (StoreI id val ptr) (Dep (SV o) (SV d))
| R_call CI Callee args p f : call_rule CI Callee args f -> inst_rule (CallI CI Callee args false p) f.

(** The external functions. *)
Definition is_copy (F : FuncId) : bool := contains_str "memcpy" (fname M F) || contains_str "memmove" (fname M F).
Definition is_set (F : FuncId) : bool := negb (is_copy F) && contains_str "memset" (fname M F).
Definition is_unknown (F : FuncId) : bool := negb (is_copy F) && negb (contains_str "memset" (fname M F)).

(** What an unknown function reads and writes at a call site. *)
Inductive unknown_input (F : FuncId) (CS : InstId) : Node -> Prop :=
| in_arg i e : ext (extCallSiteToArgEntryChi i) F CS e -> unknown_input F CS (SV e)
| in_vararg e : varArg M F = true -> ext extCallSiteToVarArgEntryChi F CS e -> unknown_input F CS (SV e)
| in_formal i a p : formals M F !! i = Some (a, p) -> unknown_input F CS (LV a).
Inductive unknown_output (F : FuncId) (CS : InstId) : Node -> Prop :=
| out_arg i e : ext (extCallSiteToArgExitChi i) F CS e -> unknown_output F CS (SV e)
| out_vararg e : varArg M F = true -> ext extCallSiteToVarArgExitChi F CS e -> unknown_output F CS (SV e)
| out_result e : returnsPointer M F = true -> ext extCallSiteToCalleeRetChi F CS e -> unknown_output F CS (SV e).

Inductive ext_rule (F : FuncId) : Fact -> Prop :=
| E_vararg CS e o : varArg M F = true -> ext extCallSiteToVarArgExitChi F CS e -> opOf s e = Some o -> ext_rule F (Dep (SV o) (SV e))
| E_arg i a CS e o : formals M F !! i = Some (a, true) -> ext (extCallSiteToArgExitChi i) F CS e -> opOf s e = Some o ->
    ext_rule F (Dep (SV o) (SV e))
| E_copy CS e x : is_copy F = true -> ext (extCallSiteToArgEntryChi 1) F CS e -> ext (extCallSiteToArgExitChi 0) F CS x ->
    ext_rule F (Dep (SV e) (SV x))
| E_set CS a p x : is_set F = true -> formals M F !! 1 = Some (a, p) -> ext (extCallSiteToArgExitChi 0) F CS x ->
    ext_rule F (Dep (LV a) (SV x))
| E_dest CS x r : is_copy F = true \/ is_set F = true -> returnsPointer M F = true -> ext (extCallSiteToArgExitChi 0) F CS x ->
    ext extCallSiteToCalleeRetChi F CS r -> ext_rule F (Dep (SV x) (SV r))
| E_unknown CS a b : is_unknown F = true -> CS ∈ default ∅ (extFuncToCSMap s !! F) -> unknown_input F CS a -> unknown_output F CS b ->
    ext_rule F (Dep a b)
| E_source n CS x : (fname M F, n) ∈ SsaSourceFunctions src -> ext (extCallSiteToArgExitChi (Z.to_nat (u32 n))) F CS x ->
    ext_rule F (Source (SV x)).

(** The functions of the graph, and all the rules. *)
Definition built (F : FuncId) : Prop :=
  F ∈ functions (base M) /\ isReachableFromEntry CG F = true /\ isIntrinsicDbgFunction (base M) F = false.

(** [under b c]: the blocks of the iterated frontier of [b] test [c]. *)
Context (under : BlockId -> ValueId -> Prop).

Inductive rule : Fact -> Prop :=
| R_mem_phi F b p i o : built F -> b ∈ mblocks M F -> p ∈ at_owner s bbToPhiMap b -> phiOp s p i = Some o -> rule (Dep (SV o) (SV p))
| R_mem_phi_cond F b p c : noPred = false -> built F -> b ∈ mblocks M F -> p ∈ at_owner s bbToPhiMap b -> c ∈ conds s p ->
    rule (Dep (LV c) (SV p))
| R_inst F b Inst f : built F -> (b, Inst) ∈ minsts M F -> inst_rule Inst f -> rule f
| R_cond F b CI Callee args p c : built F -> (b, CallI CI Callee args false p) ∈ minsts M F -> under b c -> rule (Condition c CI)
| R_entry F d o : built F -> d ∈ at_owner s funToEntryChiMap F -> opOf s d = Some o -> rule (Dep (SV o) (SV d))
| R_external F f : built F -> isDecl M F = true -> ext_rule F f -> rule f.

Definition depends (a b : Node) : Prop := rule (Dep a b).
End Rules.

(** * Loops and their facts *)

(** The computation returns insertions with exactly these facts. *)
Definition emits (r : res (list Insertion)) (P : Fact -> Prop) : Prop := exists l, r = Ok l /\ forall f, f ∈ facts l <-> P f.

Lemma elem_of_facts l f : f ∈ facts l <-> exists i, i ∈ l /\ fact_of i = Some f.
Proof. apply list_elem_of_omap. Qed.

Lemma facts_app l1 l2 : facts (l1 ++ l2) = facts l1 ++ facts l2.
Proof. apply omap_app. Qed.

Lemma facts_bind {A} (g : A -> list Insertion) l f : f ∈ facts (l ≫= g) <-> exists x, x ∈ l /\ f ∈ facts (g x).
Proof.
  rewrite elem_of_facts. setoid_rewrite list_elem_of_bind. setoid_rewrite elem_of_facts. naive_solver.
Qed.

Lemma emits_ext r P Q : emits r P -> (forall f, P f <-> Q f) -> emits r Q.
Proof. intros (l & E & H) HPQ. exists l. split; [done|]. intros f. by rewrite H. Qed.

Lemma emits_for_each {A} (g : A -> res (list Insertion)) (l : list A) (P : A -> Fact -> Prop) :
  (forall x, x ∈ l -> emits (g x) (P x)) -> emits (for_each g l) (fun f => exists x, x ∈ l /\ P x f).
Proof.
  induction l as [|x l IH]; intros Hg.
  - exists []. split; [done|]. intros f. split; [by intros ?%not_elem_of_nil|by intros (x & ?%not_elem_of_nil & _)].
  - destruct (Hg x (list_elem_of_here _ _)) as (y & E & Hy).
    destruct IH as (ys & E' & Hys); [intros z Hz; apply Hg; by apply list_elem_of_further|].
    exists (y ++ ys). cbn [for_each]. rewrite E. cbn [rbind]. rewrite E'. split; [done|]. intros f.
    rewrite facts_app, elem_of_app, Hy, Hys. split.
    + intros [Hf|(z & Hz & Hf)]; eexists; (split; [|exact Hf]); [apply list_elem_of_here|by apply list_elem_of_further].
    + intros (z & [->|Hz]%elem_of_cons & Hf); eauto.
Qed.

Lemma emits_app r1 r2 P1 P2 : emits r1 P1 -> emits r2 P2 ->
  emits (let* x := r1 in let* y := r2 in Ok (x ++ y)) (fun f => P1 f \/ P2 f).
Proof.
  intros (x & -> & H1) (y & -> & H2). exists (x ++ y). split; [done|]. intros f. by rewrite facts_app, elem_of_app, H1, H2.
Qed.

Lemma emits_nil (P : Fact -> Prop) : (forall f, ~ P f) -> emits (Ok []) P.
Proof. intros H. exists []. split; [done|]. intros f. split; [by intros ?%not_elem_of_nil|by intros ?%H]. Qed.

(** * What the construction asks of the memory SSA *)

Section Provided.
Context (M : MModule) (CG : PTACallGraph) (s : MemorySSA) (src : Sources) (weakUpdate noPtrDep noPred : bool).
Context (valueName : ValueId -> string).

Definition has_var (d : DefId) : Prop := is_Some (varOf s d).
Definition has_vars (d : DefId) : Prop := has_var d /\ is_Some (opOf s d).
Definition ext_provided (m : ExtMap) (C : FuncId) (CS : InstId) : Prop :=
  exists d, extChis s !! (m, C, CS) = Some d /\ has_var d.

(** The chis [createArtificalChiForCalledFunction] makes. *)
Record ext_complete (C : FuncId) (CS : InstId) : Prop := {
  xc_args : forall i a, formals M C !! i = Some (a, true) ->
    ext_provided (extCallSiteToArgEntryChi i) C CS /\ ext_provided (extCallSiteToArgExitChi i) C CS;
  xc_vararg : varArg M C = true -> ext_provided extCallSiteToVarArgEntryChi C CS /\ ext_provided extCallSiteToVarArgExitChi C CS;
  xc_result : returnsPointer M C = true -> ext_provided extCallSiteToCalleeRetChi C CS
}.

(** The argument [i] of the external function [C] is a formal that is a pointer, or
    one of the variable arguments. *)
Definition arg_fits (C : FuncId) (i : nat) : Prop :=
  (i < arg_count M C -> exists a, formals M C !! i = Some (a, true)) /\ (arg_count M C <= i -> varArg M C = true).

Record call_provided (CI : InstId) (Callee : option FuncId) (args : list Operand) : Prop := {
  cp_mu : forall m, m ∈ at_owner s callSiteToMuMap CI -> exists Mu v, mus s !! m = Some Mu /\ mu_var Mu = Some v /\
    match mu_type Mu with
    | MuCALL C => has_region_entry (funRegToEntryChiMap s) C = true ->
        exists e, funRegToEntryChiMap s !! (C, mu_region Mu) = Some e /\ has_var e
    | MuEXTCALL C i => arg_fits C i /\ ext_complete C CI
    | _ => False
    end;
  cp_chi : forall d, d ∈ at_owner s callSiteToChiMap CI -> has_vars d /\ exists x, defs s !! d = Some x /\
    match type x with
    | CALL C _ => has_region_entry (funRegToReturnMuMap s) C = true ->
        exists R mu v, region x = Some R /\ funRegToReturnMuMap s !! (C, R) = Some mu /\ muVar s mu = Some v
    | EXTCALL C i _ => arg_fits C i /\ ext_complete C CI
    | _ => False
    end;
  cp_args : forall C, C ∈ connected_targets M CG CI Callee -> isDecl M C = false -> arg_count M C <= length args;
  cp_memset : forall C, C ∈ connected_targets M CG CI Callee -> isDecl M C = true -> contains_str "memset" (fname M C) = true ->
    ext_provided (extCallSiteToArgExitChi 0) C CI /\ 1 < length args;
  cp_return : forall C, C ∈ call_targets CG CI Callee -> isDecl M C = false -> returnsVoid M C = false ->
    exists r, getReturnValue (base M) C = Ok r;
  cp_result : forall C d, C ∈ call_targets CG CI Callee -> isDecl M C = true -> returnsPointer M C = true ->
    d ∈ at_owner s extCallSiteToCallerRetChi CI -> has_vars d /\ ext_provided extCallSiteToCalleeRetChi C CI;
  cp_sync : forall d, d ∈ at_owner s callSiteToSyncChiMap CI -> has_vars d
}.

Definition is_exit (m : ExtMap) : bool :=
  match m with extCallSiteToVarArgExitChi | extCallSiteToArgExitChi _ => true | _ => false end.

Record ext_function_provided (F : FuncId) : Prop := {
  xf_chi : forall m CS d, extChis s !! (m, F, CS) = Some d -> has_var d /\ (is_exit m = true -> has_vars d);
  xf_site : forall m CS d, extChis s !! (m, F, CS) = Some d -> ext_complete F CS;
  xf_call : forall CS, CS ∈ default ∅ (extFuncToCSMap s !! F) -> ext_complete F CS;
  xf_formal : forall m i CS d, m = extCallSiteToArgEntryChi i \/ m = extCallSiteToArgExitChi i -> extChis s !! (m, F, CS) = Some d ->
    exists a, formals M F !! i = Some (a, true);
  xf_copy : is_copy M F = true -> (exists a, formals M F !! 0 = Some (a, true)) /\ (exists a, formals M F !! 1 = Some (a, true));
  xf_set : is_set M F = true -> (exists a, formals M F !! 0 = Some (a, true)) /\ 1 < arg_count M F;
  xf_source : forall n, (fname M F, n) ∈ SsaSourceFunctions src -> exists a, formals M F !! Z.to_nat (u32 n) = Some (a, true)
}.

Record ssa_provides : Prop := {
  sp_phi : forall F b p, built M CG F -> b ∈ mblocks M F -> p ∈ at_owner s bbToPhiMap b -> has_var p;
  sp_load : forall F b id ptr m, built M CG F -> (b, LoadI id ptr) ∈ minsts M F -> m ∈ at_owner s loadToMuMap id -> is_Some (muVar s m);
  sp_store : forall F b id val ptr d, built M CG F -> (b, StoreI id val ptr) ∈ minsts M F -> d ∈ at_owner s storeToChiMap id -> has_vars d;
  sp_call : forall F b CI Callee args p, built M CG F -> (b, CallI CI Callee args false p) ∈ minsts M F -> call_provided CI Callee args;
  sp_entry : forall F d, built M CG F -> d ∈ at_owner s funToEntryChiMap F -> has_var d;
  sp_external : forall F, built M CG F -> isDecl M F = true -> ext_function_provided F
}.

(** ** The questions about variables *)

Lemma chi_var_ok d : has_var d -> chi_var s d = Ok d.
Proof. intros [v Hv]. unfold varOf in Hv. unfold chi_var. destruct (defs s !! d) as [x|]; [|done]. simpl in *. by rewrite Hv. Qed.

Lemma chi_vars_ok d : has_vars d -> exists o, chi_vars s d = Ok (d, o) /\ opOf s d = Some o.
Proof.
  intros [Hv [o Ho]]. exists o. split; [|done]. unfold chi_vars. rewrite chi_var_ok by done. cbn [rbind].
  unfold opOf in Ho. destruct (defs s !! d) as [x|]; [|done]. simpl in *. by rewrite Ho.
Qed.

Lemma mu_variable_ok m v : muVar s m = Some v -> mu_variable s m = Ok v.
Proof. unfold muVar, mu_variable. destruct (mus s !! m) as [x|]; [|done]. simpl. by intros ->. Qed.

Lemma ext_var_ok m C CS : ext_provided m C CS -> exists d, ext_var s m C CS = Ok d /\ extChis s !! (m, C, CS) = Some d.
Proof. intros (d & E & Hd). exists d. unfold ext_var. rewrite E. cbn [of_option rbind]. by rewrite chi_var_ok. Qed.

Lemma elem_of_phi_operands d o : o ∈ phi_operands d <-> exists i, phiOps d !! i = Some o.
Proof.
  unfold phi_operands. rewrite list_elem_of_omap. split.
  - intros (i & _ & E). eauto.
  - intros (i & E). exists (N.of_nat i). split; [|by rewrite Nat2N.id]. apply elem_of_in_order, elem_of_list_to_set, list_elem_of_fmap.
    exists i. split; [done|]. by apply elem_of_elements, elem_of_dom.
Qed.

(** Membership in the facts of a list written out. *)
Lemma emits_ok l P : (forall f, f ∈ facts l <-> P f) -> emits (Ok l) P.
Proof. intros H. by exists l. Qed.

Lemma facts_cons i l f : f ∈ facts (i :: l) <-> fact_of i = Some f \/ f ∈ facts l.
Proof. rewrite !elem_of_facts. setoid_rewrite elem_of_cons. naive_solver. Qed.
Lemma facts_nil f : f ∈ facts [] <-> False.
Proof. split; [by intros ?%not_elem_of_nil|done]. Qed.
Lemma facts_if (b : bool) l f : f ∈ facts (if b then l else []) <-> b = true /\ f ∈ facts l.
Proof. destruct b; [naive_solver|]. rewrite facts_nil. naive_solver. Qed.
Lemma facts_unless (b : bool) l f : f ∈ facts (if b then [] else l) <-> b = false /\ f ∈ facts l.
Proof. destruct b; [rewrite facts_nil|]; naive_solver. Qed.
Lemma facts_map {A} (g : A -> Insertion) l f : f ∈ facts (g <$> l) <-> exists x, x ∈ l /\ fact_of (g x) = Some f.
Proof. rewrite elem_of_facts. setoid_rewrite list_elem_of_fmap. naive_solver. Qed.

Lemma has_region_entry_spec {A} (T : gmap (FuncId * RegId) A) C R x : T !! (C, R) = Some x -> has_region_entry T C = true.
Proof.
  intros E%elem_of_map_to_list. apply existsb_exists. exists (C, R, x). split; [by apply list_elem_of_In|]. by apply bool_decide_eq_true.
Qed.

Lemma existsb_pair (l : list (string * Z)) n z :
  existsb (fun p => String.eqb n p.1 && (z =? p.2)%Z) l = true <-> (n, z) ∈ l.
Proof.
  rewrite existsb_exists. split.
  - intros ([n' z'] & Hin%list_elem_of_In & [->%String.eqb_eq ->%Z.eqb_eq]%andb_prop). done.
  - intros Hin%list_elem_of_In. exists (n, z). split; [done|]. simpl. by rewrite String.eqb_refl, Z.eqb_refl.
Qed.

Local Ltac to_facts :=
  repeat (rewrite facts_app || rewrite elem_of_app || rewrite facts_cons || rewrite facts_nil || rewrite facts_if ||
    rewrite facts_unless || rewrite facts_bind || rewrite facts_map); cbn [fact_of].

(** ** Blocks and simple instructions *)

Lemma mssa_phi_emits F p : has_var p -> emits (visit_mssa_phi s noPred F p) (fun f =>
  (exists i o, phiOp s p i = Some o /\ f = Dep (SV o) (SV p)) \/ (noPred = false /\ exists c, c ∈ conds s p /\ f = Dep (LV c) (SV p))).
Proof.
  intros Hp. unfold visit_mssa_phi. rewrite chi_var_ok by done. destruct Hp as [v Hv]. unfold varOf in Hv. cbn [rbind].
  unfold phiOp, conds. destruct (defs s !! p) as [x|]; [|done]. cbn [of_option rbind]. apply emits_ok. intros f. to_facts.
  split.
  - intros [[=]|[(o & [i Ho]%elem_of_phi_operands & H)|(Hn & c & Hc%elem_of_in_order & H)]].
    + revert H. to_facts. intros [[=]|[[= <-]|[]]]. left. eauto.
    + revert H. to_facts. intros [[=]|[[= <-]|[]]]. right. eauto.
  - intros [(i & o & Ho & ->)|(Hn & c & Hc & ->)]; right; [left; exists o|right; split; [done|exists c]]; to_facts.
    + split; [apply elem_of_phi_operands; eauto|]. auto.
    + split; [by apply elem_of_in_order|]. auto.
Qed.

Lemma operands_facts F id ops f : f ∈ facts (visit_operands F id ops) <-> exists v, v ∈ ops /\ f = Dep (LV v) (LV id).
Proof.
  unfold visit_operands. to_facts. split.
  - intros [[=]|(v & Hv & H)]. revert H. to_facts. intros [[= <-]|[[=]|[]]]. eauto.
  - intros (v & Hv & ->). right. exists v. split; [done|]. to_facts. auto.
Qed.

Lemma load_emits F id ptr : (forall m, m ∈ at_owner s loadToMuMap id -> is_Some (muVar s m)) ->
  emits (visitLoadInst s src noPtrDep valueName F id ptr) (inst_rule M CG s src weakUpdate noPtrDep noPred valueName (LoadI id ptr)).
Proof.
  intros Hm. unfold visitLoadInst.
  assert (exists vars, for_each (fun m => let* v := mu_variable s m in Ok [v]) (at_owner s loadToMuMap id) = Ok vars /\
    forall v, v ∈ vars <-> exists m, m ∈ at_owner s loadToMuMap id /\ muVar s m = Some v) as (vars & -> & Hv).
  { induction (at_owner s loadToMuMap id) as [|m l IH]; [exists []; split; [done|]; intros v; split; [by intros ?%not_elem_of_nil|]|].
    { by intros (m & ?%not_elem_of_nil & _). }
    destruct IH as (vs & E & H); [intros m' Hm'; apply Hm; by apply list_elem_of_further|].
    destruct (Hm m (list_elem_of_here _ _)) as [v Ev]. exists (v :: vs). cbn [for_each]. rewrite (mu_variable_ok m v Ev), E.
    split; [done|]. intros w. rewrite elem_of_cons, H. setoid_rewrite elem_of_cons. naive_solver. }
  cbn [rbind]. apply emits_ok. intros f. to_facts. split.
  - intros [[[=]|[[=]|[]]]|[(v & [m [Hm' Ev]]%Hv & H)|[(Hs & v & [m [Hm' Ev]]%Hv & [= <-])|(Hp & [[= <-]|[]])]]].
    + revert H. to_facts. intros [[=]|[[= <-]|[]]]. by eapply R_load.
    + eapply R_load_source; [|done..]. apply existsb_exists in Hs as (n & Hn%list_elem_of_In & ->%String.eqb_eq). done.
    + by apply R_load_ptr.
  - intros H. inversion H as [| | |? ? m v Hm' Ev|? ? Hp|? ? m v Hs Hm' Ev| | | |]; subst.
    + right; left. exists v. split; [apply Hv; eauto|]. to_facts. auto.
    + right; right; right. auto.
    + right; right; left. split; [|exists v; split; [apply Hv; eauto|done]]. apply existsb_exists. exists (valueName ptr).
      split; [by apply list_elem_of_In|apply String.eqb_refl].
Qed.

Lemma store_emits F id val ptr : (forall d, d ∈ at_owner s storeToChiMap id -> has_vars d) ->
  emits (visitStoreInst s weakUpdate noPtrDep F id val ptr)
    (inst_rule M CG s src weakUpdate noPtrDep noPred valueName (StoreI id val ptr)).
Proof.
  intros Hd. eapply emits_ext.
  { apply (emits_for_each _ _ (fun d f => f = Dep (LV val) (SV d) \/ (weakUpdate = true /\ exists o, opOf s d = Some o /\ f = Dep (SV o) (SV d)) \/
      (noPtrDep = false /\ f = Dep (LV ptr) (SV d)))).
    intros d H. destruct (chi_vars_ok d (Hd d H)) as (o & E & Eo). unfold store_chi. rewrite E. cbn [rbind fst snd].
    apply emits_ok. intros f. rewrite Eo. to_facts. naive_solver. }
  intros f. split.
  - intros (d & Hin & [->|[(Hw & o & Ho & ->)|(Hp & ->)]]); [by apply R_store|by apply R_store_old|by apply R_store_ptr].
  - intros H. inversion H; subst; eexists; eauto 8.
Qed.

Lemma phi_node_facts F id incoming f : f ∈ facts (visitPHINode s noPred F id incoming) <->
  inst_rule M CG s src weakUpdate noPtrDep noPred valueName (PhiI id incoming) f.
Proof.
  unfold visitPHINode. rewrite facts_app, elem_of_app, operands_facts. to_facts. split.
  - intros [(v & ([v' b] & -> & Hv)%list_elem_of_fmap & ->)|(Hn & c & Hc%elem_of_in_order & H)]; [by eapply R_phi|].
    revert H. to_facts. intros [[= <-]|[[=]|[]]]. by apply R_phi_cond.
  - intros H. inversion H as [|? ? v b Hv|? ? c Hn Hc| | | | | | |]; subst.
    + left. exists v. split; [|done]. apply list_elem_of_fmap. by exists (v, b).
    + right. split; [done|]. exists c. split; [by apply elem_of_in_order|]. to_facts. auto.
Qed.

(** ** Calls *)

Section Call.
Context (F : FuncId) (CI : InstId) (Callee : option FuncId) (args : list Operand) (HC : call_provided CI Callee args).

Local Abbreviation crule := (call_rule M CG s src weakUpdate CI Callee args).
Local Abbreviation ext m C d := (extChis s !! (m, C, CI) = Some d).

Definition mu_facts (m : MuId) (f : Fact) : Prop := exists Mu v, mus s !! m = Some Mu /\ mu_var Mu = Some v /\
  match mu_type Mu with
  | MuCALL C => exists e, funRegToEntryChiMap s !! (C, mu_region Mu) = Some e /\ f = Dep (SV v) (SV e)
  | MuEXTCALL C i => exists e, f = Dep (SV v) (SV e) /\
      (i < arg_count M C /\ ext (extCallSiteToArgEntryChi i) C e \/ arg_count M C <= i /\ ext extCallSiteToVarArgEntryChi C e)
  | _ => False
  end.

Lemma connect_mu_emits m : m ∈ at_owner s callSiteToMuMap CI -> emits (connect_mu M s F CI m) (mu_facts m).
Proof.
  intros Hm. destruct (cp_mu _ _ _ HC m Hm) as (Mu & v & Em & Ev & H).
  unfold connect_mu. rewrite (mu_variable_ok m v) by (unfold muVar; by rewrite Em). rewrite Em. cbn [rbind of_option].
  unfold mu_facts. rewrite Em. destruct (mu_type Mu) as [|C| |C i] eqn:Et; [done| |done|].
  - destruct (has_region_entry (funRegToEntryChiMap s) C) eqn:Eh.
    + destruct (H eq_refl) as (e & Ee & He). rewrite Ee. cbn [of_option rbind]. rewrite chi_var_ok by done. cbn [rbind].
      apply emits_ok. intros f. to_facts. split.
      * intros [[=]|[[=]|[[= <-]|[]]]]. exists Mu, v. rewrite Et. eauto.
      * intros (Mu' & v' & [= <-] & Ev' & H'). rewrite Et in H'. destruct H' as (e' & Ee' & ->).
        assert (v' = v) as -> by congruence. assert (e' = e) as -> by congruence. auto.
    + apply emits_ok. intros f. to_facts. split; [by intros [[=]|[]]|]. intros (Mu' & v' & [= <-] & _ & H'). rewrite Et in H'.
      destruct H' as (e & Ee & _). apply has_region_entry_spec in Ee. congruence.
  - destruct H as [[Hf Hv] HX]. destruct (Nat.leb_spec (arg_count M C) i) as [Hi|Hi].
    + rewrite (Hv Hi). cbn [guard rbind]. destruct (xc_vararg _ _ HX (Hv Hi)) as [He _].
      destruct (ext_var_ok _ _ _ He) as (e & -> & Ee). cbn [rbind]. apply emits_ok. intros f. to_facts. split.
      * intros [[=]|[[=]|[[= <-]|[]]]]. exists Mu, v. rewrite Et. split; [done|]. split; [done|]. exists e. auto.
      * intros (Mu' & v' & [= <-] & Ev' & H'). rewrite Et in H'. destruct H' as (e' & -> & [[? _]|[_ Ee']]); [lia|].
        assert (v' = v) as -> by congruence. assert (e' = e) as -> by congruence. auto.
    + destruct (Hf Hi) as [a Ha]. destruct (xc_args _ _ HX i a Ha) as [He _].
      destruct (ext_var_ok _ _ _ He) as (e & -> & Ee). cbn [rbind]. apply emits_ok. intros f. to_facts. split.
      * intros [[=]|[[= <-]|[]]]. exists Mu, v. rewrite Et. split; [done|]. split; [done|]. exists e. auto.
      * intros (Mu' & v' & [= <-] & Ev' & H'). rewrite Et in H'. destruct H' as (e' & -> & [[_ Ee']|[? _]]); [|lia].
        assert (v' = v) as -> by congruence. assert (e' = e) as -> by congruence. auto.
Qed.

Lemma mus_emit : emits (connectCSMus M s F CI) (fun f => exists m, m ∈ at_owner s callSiteToMuMap CI /\ mu_facts m f).
Proof. apply emits_for_each, connect_mu_emits. Qed.

Definition chi_facts (d : DefId) (f : Fact) : Prop := (weakUpdate = true /\ exists o, opOf s d = Some o /\ f = Dep (SV o) (SV d)) \/
  exists x, defs s !! d = Some x /\
  match type x with
  | CALL C _ => exists R mu v, region x = Some R /\ funRegToReturnMuMap s !! (C, R) = Some mu /\ muVar s mu = Some v /\ f = Dep (SV v) (SV d)
  | EXTCALL C i _ =>
      i < arg_count M C /\ ((exists e, ext (extCallSiteToArgExitChi i) C e /\ f = Dep (SV e) (SV d)) \/
        (fname M C, Z.of_nat i) ∈ ResetFunctions src /\ f = Reset d) \/
      arg_count M C <= i /\ exists e, ext extCallSiteToVarArgExitChi C e /\ f = Dep (SV e) (SV e)
  | _ => False
  end.

Lemma connect_chi_emits d : d ∈ at_owner s callSiteToChiMap CI -> emits (connect_chi M s src weakUpdate F CI d) (chi_facts d).
Proof.
  intros Hd. destruct (cp_chi _ _ _ HC d Hd) as (Hv & x & Ex & H). destruct (chi_vars_ok d Hv) as (o & Eo & Ho).
  unfold connect_chi. rewrite Eo, Ex. cbn [rbind of_option fst snd]. unfold chi_facts. rewrite Ex, Ho.
  assert (forall Q : Fact -> Prop, forall l, (forall f, f ∈ facts l <-> Q f) ->
    emits (Ok (([SSANode F o; SSANode F d] ++ (if weakUpdate then [Edge (SV o) (SV d)] else [])) ++ l))
      (fun f => (weakUpdate = true /\ exists o', Some o = Some o' /\ f = Dep (SV o') (SV d)) \/ Q f)) as Hpre.
  { intros Q l Hl. apply emits_ok. intros f. rewrite facts_app, elem_of_app, Hl. to_facts. naive_solver. }
  destruct (type x) as [|C c|i|i|C|C|C i|C|C i c|C] eqn:Et; try done.
  - destruct (has_region_entry (funRegToReturnMuMap s) C) eqn:Eh.
    + destruct (H eq_refl) as (R & mu & v & ER & Emu & Ev). rewrite ER. cbn [of_option rbind]. rewrite Emu. cbn [of_option rbind]. rewrite (mu_variable_ok mu v Ev).
      cbn [rbind]. apply Hpre. intros f. to_facts. split.
      * intros [[=]|[[= <-]|[]]]. exists x. rewrite Et. split; [done|]. eauto 8.
      * intros (x' & [= <-] & H'). rewrite Et in H'. destruct H' as (R' & mu' & v' & ER' & Emu' & Ev' & ->). right; left. congruence.
    + rewrite <- (app_nil_r (_ ++ _)). apply Hpre. intros f. to_facts. split; [done|]. intros (x' & [= <-] & H'). rewrite Et in H'.
      destruct H' as (R & mu & v & _ & Emu & _). apply has_region_entry_spec in Emu. congruence.
  - destruct H as [[Hf Hva] HX]. destruct (Nat.leb_spec (arg_count M C) i) as [Hi|Hi].
    + rewrite (Hva Hi). cbn [guard rbind]. destruct (xc_vararg _ _ HX (Hva Hi)) as [_ He].
      destruct (ext_var_ok _ _ _ He) as (e & -> & Ee). cbn [rbind]. apply Hpre. intros f. to_facts. split.
      * intros [[=]|[[= <-]|[]]]. exists x. rewrite Et. split; [done|]. right. eauto.
      * intros (x' & [= <-] & H'). rewrite Et in H'. destruct H' as [[? _]|(_ & e' & Ee' & ->)]; [lia|].
        assert (e' = e) as -> by congruence. auto.
    + destruct (Hf Hi) as [a Ha]. destruct (xc_args _ _ HX i a Ha) as [_ He].
      destruct (ext_var_ok _ _ _ He) as (e & -> & Ee). cbn [rbind]. apply Hpre. intros f. to_facts. unfold resets_arg. rewrite existsb_pair. split.
      * intros [[= <-]|[Hr [[= <-]|[]]]]; exists x; rewrite Et; (split; [done|]); left; eauto.
      * intros (x' & [= <-] & H'). rewrite Et in H'. destruct H' as [[_ [(e' & Ee' & ->)|[Hr ->]]]|[? _]]; [|by auto|lia].
        assert (e' = e) as -> by congruence. auto.
Qed.

Lemma chis_emit : emits (connectCSChis M s src weakUpdate F CI) (fun f => exists d, d ∈ at_owner s callSiteToChiMap CI /\ chi_facts d f).
Proof. apply emits_for_each, connect_chi_emits. Qed.

Definition formal_facts (C : FuncId) (f : Fact) : Prop :=
  exists i a x p, args !! i = Some a /\ formals M C !! i = Some (x, p) /\ f = Dep (LV (opId a)) (LV x).

Lemma formals_emit C node : arg_count M C <= length args -> (forall v, fact_of (node v) = None) ->
  emits (connect_formals M F args C node) (formal_facts C).
Proof.
  intros Hn Hnode. unfold connect_formals. eapply emits_ext.
  { apply (emits_for_each _ _ (fun p f => exists a, args !! p.1 = Some a /\ f = Dep (LV (opId a)) (LV p.2.1))).
    intros [i [x p]] Hin. apply list_elem_of_lookup in Hin as [j Hj]. rewrite list_lookup_imap in Hj.
    destruct (formals M C !! j) as [y|] eqn:Ey; [|done]. injection Hj as -> ->. apply lookup_lt_Some in Ey.
    destruct (lookup_lt_is_Some_2 args i) as [a Ha]; [unfold arg_count in Hn; lia|]. cbn [fst snd]. rewrite Ha. cbn [of_option rbind].
    apply emits_ok. intros f. to_facts. rewrite Hnode. split.
    - intros [[=]|[[=]|[[= <-]|[]]]]. eauto.
    - intros (a' & [= <-] & ->). auto. }
  intros f. unfold formal_facts. split.
  - intros ([i [x p]] & Hin & a & Ha & ->). apply list_elem_of_lookup in Hin as [j Hj]. rewrite list_lookup_imap in Hj.
    destruct (formals M C !! j) as [y|] eqn:Ey; [|done]. injection Hj as -> ->. simpl in Ha. eauto 8.
  - intros (i & a & x & p & Ha & Hx & ->). exists (i, (x, p)). split; [|eauto]. apply list_elem_of_lookup. exists i.
    by rewrite list_lookup_imap, Hx.
Qed.

Definition param_facts (C : FuncId) (f : Fact) : Prop :=
  if isDecl M C then contains_str "memset" (fname M C) = true /\ exists a e, args !! 1 = Some a /\
    ext (extCallSiteToArgExitChi 0) C e /\ f = Dep (LV (opId a)) (SV e)
  else formal_facts C f.

Lemma params_ext_emit C : C ∈ connected_targets M CG CI Callee -> isDecl M C = true ->
  emits (connectCSEffectiveParametersExt M s F CI args C) (param_facts C).
Proof.
  intros HCt Hd. unfold connectCSEffectiveParametersExt, param_facts. rewrite Hd. destruct (contains_str "memset" (fname M C)) eqn:Es.
  - destruct (cp_memset _ _ _ HC C HCt Hd Es) as [He Hl]. destruct (ext_var_ok _ _ _ He) as (e & -> & Ee). cbn [rbind].
    destruct (lookup_lt_is_Some_2 args 1 Hl) as [a Ha]. rewrite Ha. cbn [of_option rbind]. apply emits_ok. intros f. to_facts. split.
    + intros [[=]|[[= <-]|[]]]. split; [done|]. eauto.
    + intros (_ & a' & e' & [= <-] & Ee' & ->). assert (e' = e) as -> by congruence. auto.
  - apply emits_nil. by intros f [? _].
Qed.

Lemma candidates_emit l : (forall C, C ∈ through_external M l -> C ∈ connected_targets M CG CI Callee) ->
  emits (connect_candidates M s F CI args l) (fun f => exists C, C ∈ through_external M l /\ param_facts C f).
Proof.
  induction l as [|C l IH]; intros Hl; cbn [connect_candidates through_external] in *.
  - apply emits_nil. by intros f (C & ?%not_elem_of_nil & _).
  - destruct (isDecl M C) eqn:Hd.
    + eapply emits_ext; [apply params_ext_emit; [apply Hl, list_elem_of_here|done]|]. intros f. split.
      * intros H. exists C. split; [apply list_elem_of_here|done].
      * by intros (C' & ->%list_elem_of_singleton & H).
    + eapply emits_ext.
      * apply emits_app; [|apply IH; intros C' HC'; apply Hl; by apply list_elem_of_further].
        apply formals_emit; [|done]. apply (cp_args _ _ _ HC); [apply Hl, list_elem_of_here|done].
      * intros f. cbn beta. unfold param_facts at 2. setoid_rewrite elem_of_cons. split.
        -- intros [H|(C' & HC' & H)]; [|eauto]. exists C. rewrite Hd. auto.
        -- intros (C' & [->|HC'] & H); [rewrite Hd in H; auto|right; eauto].
Qed.

Lemma params_emit : emits (connectCSEffectiveParameters M CG s F CI Callee args)
  (fun f => exists C, C ∈ connected_targets M CG CI Callee /\ param_facts C f).
Proof.
  pose proof (candidates_emit (indirect_callees CG CI)) as Hcand. pose proof params_ext_emit as Hext.
  assert (forall C, C ∈ connected_targets M CG CI Callee -> isDecl M C = false ->
    emits (connect_formals M F args C (LLVMNode C)) (formal_facts C)) as Hform.
  { intros C HCt Hd. apply formals_emit; [|done]. by apply (cp_args _ _ _ HC). }
  clear HC. unfold connectCSEffectiveParameters. destruct Callee as [C|]; [|by apply Hcand].
  specialize (Hext C (list_elem_of_here _ _)). specialize (Hform C (list_elem_of_here _ _)).
  apply (emits_ext _ (param_facts C)).
  - unfold param_facts in *. destruct (isDecl M C) eqn:Hd; [by apply Hext|by apply Hform].
  - intros f. simpl. split.
    + intros H. exists C. by split; [apply list_elem_of_here|].
    + by intros (C' & ->%list_elem_of_singleton & H).
Qed.

Lemma returns_emit : emits (connectCSCalledReturnValue M CG F CI Callee) (fun f => exists C, C ∈ call_targets CG CI Callee /\
  isDecl M C = false /\ returnsVoid M C = false /\ exists r, getReturnValue (base M) C = Ok r /\ f = Dep (LV r) (LV CI)).
Proof.
  apply emits_for_each. intros C HCt. unfold connect_return.
  destruct (isDecl M C) eqn:Hd; [apply emits_nil; by intros f [? _]|]. destruct (returnsVoid M C) eqn:Hv; [apply emits_nil; by intros f (_ & ? & _)|].
  cbn [negb andb]. destruct (cp_return _ _ _ HC C HCt Hd Hv) as [r Er]. rewrite Er. cbn [rbind]. apply emits_ok. intros f. to_facts. split.
  - intros [[=]|[[= <-]|[]]]. eauto.
  - intros (_ & _ & r' & [= <-] & ->). auto.
Qed.

Lemma ret_chis_emit : emits (connectCSRetChi M CG s F CI Callee) (fun f => exists C, C ∈ call_targets CG CI Callee /\
  isDecl M C = true /\ returnsPointer M C = true /\ exists d, d ∈ at_owner s extCallSiteToCallerRetChi CI /\
    ((exists o, opOf s d = Some o /\ f = Dep (SV o) (SV d)) \/ (exists r, ext extCallSiteToCalleeRetChi C r /\ f = Dep (SV r) (SV d)))).
Proof.
  apply emits_for_each. intros C HCt. destruct (isDecl M C) eqn:Hd; [|apply emits_nil; by intros f [? _]].
  destruct (returnsPointer M C) eqn:Hp; [|apply emits_nil; by intros f (_ & ? & _)]. cbn [andb]. eapply emits_ext.
  - apply emits_for_each. intros d Hin. destruct (cp_result _ _ _ HC C d HCt Hd Hp Hin) as [Hv He].
    instantiate (1 := fun d f => (exists o, opOf s d = Some o /\ f = Dep (SV o) (SV d)) \/ (exists r, ext extCallSiteToCalleeRetChi C r /\ f = Dep (SV r) (SV d))).
    destruct (chi_vars_ok d Hv) as (o & Eo & Ho). destruct (ext_var_ok _ _ _ He) as (r & Er & Hr).
    unfold connect_ret_chi. rewrite Eo, Er. cbn [rbind fst snd]. apply emits_ok. intros f. rewrite Ho, Hr. to_facts. split.
    + intros [[=]|[[=]|[[= <-]|[[= <-]|[]]]]]; eauto.
    + intros [(o' & [= <-] & ->)|(r' & [= <-] & ->)]; auto.
  - intros f. cbn beta. naive_solver.
Qed.

Lemma syncs_emit : emits (for_each (sync_chi s F) (at_owner s callSiteToSyncChiMap CI)) (fun f =>
  exists d, d ∈ at_owner s callSiteToSyncChiMap CI /\ ((exists o, opOf s d = Some o /\ f = Dep (SV o) (SV d)) \/ f = Reset d)).
Proof.
  apply emits_for_each. intros d Hin. destruct (chi_vars_ok d (cp_sync _ _ _ HC d Hin)) as (o & Eo & Ho).
  unfold sync_chi. rewrite Eo, Ho. cbn [rbind fst snd]. apply emits_ok. intros f. to_facts. split.
  - intros [[=]|[[=]|[[= <-]|[[= <-]|[]]]]]; eauto.
  - intros [(o' & [= <-] & ->)| ->]; auto.
Qed.

Lemma is_value_source_spec C : is_value_source M src C = true <-> (fname M C, (-1)%Z) ∈ ValueSourceFunctions src.
Proof.
  rewrite <- existsb_pair. unfold is_value_source. rewrite !existsb_exists. by setoid_rewrite (Z.eqb_sym (-1)).
Qed.

Lemma source_targets f : f ∈ facts (call_targets CG CI Callee ≫= target_tables M src CI) <->
  exists C, C ∈ call_targets CG CI Callee /\ (f = Calls CI C \/ (fname M C, (-1)%Z) ∈ ValueSourceFunctions src /\ f = Source (LV CI)).
Proof.
  rewrite facts_bind. apply exist_proper. intros C. apply and_iff_compat_l.
  rewrite <- is_value_source_spec. unfold target_tables. to_facts.
  split; [intros [[[=]|[[= <-]|[]]]|[? [[= <-]|[]]]]; auto|intros [->|[? ->]]; auto].
Qed.

(** The facts of the parts of a call are those of the rules. *)
Definition call_facts (f : Fact) : Prop :=
  (exists m, m ∈ at_owner s callSiteToMuMap CI /\ mu_facts m f) \/
  (exists d, d ∈ at_owner s callSiteToChiMap CI /\ chi_facts d f) \/
  (exists C, C ∈ connected_targets M CG CI Callee /\ param_facts C f) \/
  (exists C, C ∈ call_targets CG CI Callee /\ isDecl M C = false /\ returnsVoid M C = false /\
     exists r, getReturnValue (base M) C = Ok r /\ f = Dep (LV r) (LV CI)) \/
  (exists C, C ∈ call_targets CG CI Callee /\ isDecl M C = true /\ returnsPointer M C = true /\
     exists d, d ∈ at_owner s extCallSiteToCallerRetChi CI /\
       ((exists o, opOf s d = Some o /\ f = Dep (SV o) (SV d)) \/ (exists r, ext extCallSiteToCalleeRetChi C r /\ f = Dep (SV r) (SV d)))) \/
  (exists C, C ∈ call_targets CG CI Callee /\ (f = Calls CI C \/ (fname M C, (-1)%Z) ∈ ValueSourceFunctions src /\ f = Source (LV CI))) \/
  (exists d, d ∈ at_owner s callSiteToSyncChiMap CI /\ ((exists o, opOf s d = Some o /\ f = Dep (SV o) (SV d)) \/ f = Reset d)).

Lemma call_facts_rule f : call_facts f -> crule f.
Proof.
  clear HC. intros [H|[H|[H|[H|[H|[H|H]]]]]].
  - destruct H as (m & Hm & Mu & v & Em & Ev & H). destruct (mu_type Mu) as [|C| |C i] eqn:Et; [done| |done|].
    + destruct H as (e & Ee & ->). by eapply rule3.
    + destruct H as (e & -> & [[Hi Ee]|[Hi Ee]]); [by eapply rule3_arg|by eapply rule3_vararg].
  - destruct H as (d & Hd & [(Hw & o & Ho & ->)|(x & Ex & H)]); [by apply rule4|].
    destruct (type x) as [|C c|i|i|C|C|C i|C|C i c|C] eqn:Et; try done.
    + destruct H as (R & mu & v & ER & Emu & Ev & ->). by eapply rule5.
    + destruct H as [[Hi [(e & Ee & ->)|[Hr ->]]]|(Hi & e & Ee & ->)]; [by eapply rule5_arg|by eapply rule_reset|by eapply rule5_vararg].
  - destruct H as (C & HCt & H). unfold param_facts in H. destruct (isDecl M C) eqn:Hd.
    + destruct H as (Hm & a & e & Ha & Ee & ->). by eapply rule_memset.
    + destruct H as (i & a & x & p & Ha & Hx & ->). by eapply rule1.
  - destruct H as (C & HCt & Hd & Hv & r & Er & ->). by eapply rule2.
  - destruct H as (C & HCt & Hd & Hp & d & Hin & [(o & Ho & ->)|(r & Er & ->)]); [by eapply rule_result_old|by eapply rule_result].
  - destruct H as (C & HCt & [->|[Hs ->]]); [by eapply rule_calls|by eapply rule_source].
  - destruct H as (d & Hin & [(o & Ho & ->)| ->]); [by eapply rule_sync_old|by eapply rule_sync].
Qed.

Lemma call_rule_facts f : crule f -> call_facts f.
Proof.
  clear HC. unfold call_facts.
  destruct 1 as [C i a x p HCt Hd Ha Hx|C r HCt Hd Hv Er|m Mu v C e Hm Em Ev Et Ee|m Mu v C i e Hm Em Ev Et Hi Ee|
    m Mu v C i e Hm Em Ev Et Hi Ee|d o Hw Hin Ho|d x C c R mu v Hin Ex Et ER Emu Ev|d x C i c e Hin Ex Et Hi Ee|
    d x C i c e Hin Ex Et Hi Ee|d x C i c Hin Ex Et Hi Hr|C a e HCt Hd Hs Ha Ee|C d o HCt Hd Hp Hin Ho|
    C d r HCt Hd Hp Hin Er|d o Hin Ho|d Hin|C HCt Hs|C HCt].
  - right; right; left. exists C. split; [done|]. unfold param_facts. rewrite Hd. by exists i, a, x, p.
  - right; right; right; left. eauto 8.
  - left. exists m. split; [done|]. exists Mu, v. rewrite Et. eauto.
  - left. exists m. split; [done|]. exists Mu, v. rewrite Et. eauto 8.
  - left. exists m. split; [done|]. exists Mu, v. rewrite Et. eauto 8.
  - right; left. exists d. split; [done|]. left. eauto.
  - right; left. exists d. split; [done|]. right. exists x. rewrite Et. eauto 8.
  - right; left. exists d. split; [done|]. right. exists x. rewrite Et. split; [done|]. left. eauto.
  - right; left. exists d. split; [done|]. right. exists x. rewrite Et. split; [done|]. right. eauto.
  - right; left. exists d. split; [done|]. right. exists x. rewrite Et. split; [done|]. left. auto.
  - right; right; left. exists C. split; [done|]. unfold param_facts. rewrite Hd. eauto 8.
  - right; right; right; right; left. exists C. do 3 (split; [done|]). exists d. eauto 8.
  - right; right; right; right; left. exists C. do 3 (split; [done|]). exists d. eauto 8.
  - do 6 right. exists d. eauto 8.
  - do 6 right. exists d. auto.
  - do 5 right. left. eauto.
  - do 5 right. left. eauto.
Qed.

(** A call. *)
Lemma call_emits preds : exists l1 l2, connect_call M CG s src weakUpdate F CI Callee args = Ok l1 /\
  call_tables M CG s src F CI Callee preds = Ok l2 /\ 
    forall f, f ∈ facts (l1 ++ l2) <-> crule f \/ exists c, c ∈ preds /\ f = Condition c CI.
Proof.
  destruct mus_emit as (l1 & E1 & H1), chis_emit as (l2 & E2 & H2), params_emit as (l3 & E3 & H3), returns_emit as (l4 & E4 & H4),
    ret_chis_emit as (l5 & E5 & H5), syncs_emit as (l6 & E6 & H6).
  exists (l1 ++ l2 ++ l3 ++ l4 ++ l5). eexists. unfold connect_call, call_tables. rewrite E1, E2, E3, E4, E5, E6. cbn [rbind].
  split; [done|]. split; [done|]. intros f. rewrite !facts_app, !elem_of_app, H1, H2, H3, H4, H5, facts_cons.
  rewrite !facts_app, !elem_of_app, facts_map, source_targets, H6. split.
  - intros [H|[[=]|[(c & Hc%elem_of_in_order & [= <-])|H]]]; [|right; eauto|]; left; apply call_facts_rule; unfold call_facts; tauto.
  - intros [H%call_rule_facts|(c & Hc & ->)]; [unfold call_facts in H; tauto|]. do 2 right. left. exists c.
    split; [by apply elem_of_in_order|done].
Qed.
End Call.

(** ** External functions *)

Lemma emits_none {A} (g : A -> res (list Insertion)) l : (forall x, x ∈ l -> emits (g x) (fun _ => False)) ->
  emits (for_each g l) (fun _ => False).
Proof. intros H. eapply emits_ext; [apply (emits_for_each _ _ (fun _ _ => False)), H|]. intros f. split; [by intros (x & _ & [])|done]. Qed.

Section External.
Context (F : FuncId) (HX : ext_function_provided F).

Local Abbreviation ext m CS d := (extChis s !! (m, F, CS) = Some d).

Lemma elem_of_ext_sites inMap CS : CS ∈ ext_sites s inMap F <-> exists m d, inMap m = true /\ ext m CS d.
Proof.
  unfold ext_sites. rewrite elem_of_in_order, elem_of_list_to_set, list_elem_of_omap. split.
  - intros ([[[m G] CS'] d] & Hin%elem_of_map_to_list & H). cbn [fst snd] in H. destruct (inMap m) eqn:Em; [|done]. simpl in H.
    case_bool_decide; [|done]. simplify_eq. eauto.
  - intros (m & d & Em & Hd). exists (m, F, CS, d). split; [by apply elem_of_map_to_list|]. cbn [fst snd]. rewrite Em.
    by rewrite bool_decide_true.
Qed.

Lemma elem_of_arg_chis_at inMap CS d : d ∈ arg_chis_at s inMap F CS <-> exists m, inMap m = true /\ ext m CS d.
Proof.
  unfold arg_chis_at. rewrite list_elem_of_omap. split.
  - intros ([[[m G] CS'] d'] & Hin%elem_of_map_to_list & H). cbn [fst snd] in H. destruct (inMap m) eqn:Em; [|done]. simpl in H.
    repeat case_bool_decide; simplify_eq/=; eauto.
  - intros (m & Em & Hd). exists (m, F, CS, d). split; [by apply elem_of_map_to_list|]. cbn [fst snd]. rewrite Em.
    by rewrite !bool_decide_true.
Qed.

Lemma site_complete inMap CS : CS ∈ ext_sites s inMap F -> ext_complete F CS.
Proof. intros (m & d & _ & Hd)%elem_of_ext_sites. by eapply (xf_site _ HX). Qed.

Lemma entry_node_emits m CS : ext_provided m F CS -> emits (entry_node s F m CS) (fun _ => False).
Proof. intros H. destruct (ext_var_ok _ _ _ H) as (d & E & _). unfold entry_node. rewrite E. apply emits_ok. intros f. to_facts. split; [by intros [[=]|[]]|done]. Qed.

Lemma exit_node_emits m CS : is_exit m = true -> ext_provided m F CS ->
  emits (exit_node s F m CS) (fun f => exists e o, ext m CS e /\ opOf s e = Some o /\ f = Dep (SV o) (SV e)).
Proof.
  intros Hm (d & E & _). destruct (xf_chi _ HX m CS d E) as [_ Hv]. destruct (chi_vars_ok d (Hv Hm)) as (o & Eo & Ho).
  unfold exit_node. rewrite E. cbn [of_option rbind]. rewrite Eo. cbn [rbind fst snd]. apply emits_ok. intros f. to_facts. split.
  - intros [[=]|[[= <-]|[]]]. eauto.
  - intros (e & o' & [= <-] & Ho' & ->). assert (o' = o) as -> by congruence. auto.
Qed.

Lemma ext_var_args_emit : emits (ext_var_args M s F)
  (fun f => varArg M F = true /\ exists CS e o, ext extCallSiteToVarArgExitChi CS e /\ opOf s e = Some o /\ f = Dep (SV o) (SV e)).
Proof.
  unfold ext_var_args. destruct (varArg M F) eqn:Ev; [|apply emits_nil; by intros f [? _]]. eapply emits_ext.
  - apply emits_app.
    + apply emits_none. intros CS H. apply entry_node_emits. by apply (xc_vararg _ _ (site_complete _ CS H)).
    + apply emits_for_each. intros CS H. apply exit_node_emits; [done|]. by apply (xc_vararg _ _ (site_complete _ CS H)).
  - intros f. cbn beta. split.
    + intros [[]|(CS & _ & e & o & H)]. eauto.
    + intros (_ & CS & e & o & He & H). right. exists CS. split; [|eauto]. apply elem_of_ext_sites. exists extCallSiteToVarArgExitChi, e.
      split; [by apply bool_decide_eq_true|done].
Qed.

Lemma ext_formals_emit : emits (for_each (ext_formal s F) (imap pair (formals M F))) (fun f =>
  exists i a CS e o, formals M F !! i = Some (a, true) /\ ext (extCallSiteToArgExitChi i) CS e /\ opOf s e = Some o /\ f = Dep (SV o) (SV e)).
Proof.
  assert (forall i a p, (i, (a, p)) ∈ imap pair (formals M F) <-> formals M F !! i = Some (a, p)) as Hin.
  { intros i a p. rewrite list_elem_of_lookup. setoid_rewrite list_lookup_imap. split.
    - intros (j & H). destruct (formals M F !! j) eqn:E; [|done]. by simplify_eq/=.
    - intros H. exists i. by rewrite H. }
  eapply emits_ext.
  - apply (emits_for_each _ _ (fun x f => x.2.2 = true /\ exists CS e o, ext (extCallSiteToArgExitChi x.1) CS e /\ opOf s e = Some o /\ f = Dep (SV o) (SV e))).
    intros [i [a p]] Hx%Hin. unfold ext_formal. destruct p; [|apply emits_nil; by intros f [? _]]. cbn [fst snd]. eapply emits_ext.
    + apply emits_app.
      * apply emits_none. intros CS H. apply entry_node_emits. by apply (xc_args _ _ (site_complete _ CS H) i a).
      * apply emits_for_each. intros CS H. apply exit_node_emits; [done|]. by apply (xc_args _ _ (site_complete _ CS H) i a).
    + intros f. cbn beta. split.
      * intros [[]|(CS & _ & e & o & H)]. eauto.
      * intros (_ & CS & e & o & He & H). right. exists CS. split; [|eauto]. apply elem_of_ext_sites. by exists (extCallSiteToArgExitChi i), e.
  - intros f. split.
    + intros ([i [a p]] & Hx%Hin & Hp & CS & e & o & H). simpl in *. subst p. by exists i, a, CS, e, o.
    + intros (i & a & CS & e & o & Hf & H). exists (i, (a, true)). split; [by apply Hin|]. eauto.
Qed.

Lemma ext_result_emits : emits (ext_result M s F) (fun _ => False).
Proof.
  unfold ext_result. destruct (returnsPointer M F) eqn:Ep; [|apply emits_nil; by intros f []]. apply emits_none. intros CS H.
  apply entry_node_emits. by apply (xc_result _ _ (site_complete _ CS H)).
Qed.

Lemma returns_dest_emits CS dest : ext_complete F CS -> emits (returns_dest M s F CS dest)
  (fun f => returnsPointer M F = true /\ exists r, ext extCallSiteToCalleeRetChi CS r /\ f = Dep (SV dest) (SV r)).
Proof.
  intros HC. unfold returns_dest. destruct (returnsPointer M F) eqn:Ep; [|apply emits_nil; by intros f [? _]].
  destruct (ext_var_ok _ _ _ (xc_result _ _ HC Ep)) as (r & -> & Er). cbn [rbind]. apply emits_ok. intros f. rewrite Er. to_facts. split.
  - intros [[= <-]|[]]. eauto.
  - intros (_ & r' & [= <-] & ->). auto.
Qed.

Lemma copy_site_emits CS : is_copy M F = true -> ext_complete F CS -> emits (copy_site M s F CS) (fun f => exists e x,
  ext (extCallSiteToArgEntryChi 1) CS e /\ ext (extCallSiteToArgExitChi 0) CS x /\
  (f = Dep (SV e) (SV x) \/ returnsPointer M F = true /\ exists r, ext extCallSiteToCalleeRetChi CS r /\ f = Dep (SV x) (SV r))).
Proof.
  intros Hc HC. destruct (xf_copy _ HX Hc) as [[a0 H0] [a1 H1]].
  destruct (ext_var_ok _ _ _ (proj1 (xc_args _ _ HC 1 a1 H1))) as (e & Ee & He).
  destruct (ext_var_ok _ _ _ (proj2 (xc_args _ _ HC 0 a0 H0))) as (x & Ex & Hx).
  unfold copy_site. rewrite Ee, Ex. cbn [rbind]. destruct (returns_dest_emits CS x HC) as (l & -> & Hl). cbn [rbind].
  apply emits_ok. intros f. rewrite facts_cons, Hl. cbn [fact_of]. split.
  - intros [[= <-]|H]; exists e, x; auto.
  - intros (e' & x' & He' & Hx' & H). assert (e' = e) as -> by congruence. assert (x' = x) as -> by congruence.
    destruct H as [->|H]; auto.
Qed.

Lemma memset_site_emits CS : is_set M F = true -> ext_complete F CS -> emits (memset_site M s F CS) (fun f => exists c x,
  formals M F !! 1 = Some c /\ ext (extCallSiteToArgExitChi 0) CS x /\
  (f = Dep (LV c.1) (SV x) \/ returnsPointer M F = true /\ exists r, ext extCallSiteToCalleeRetChi CS r /\ f = Dep (SV x) (SV r))).
Proof.
  intros Hc HC. destruct (xf_set _ HX Hc) as [[a0 H0] Hl1]. destruct (lookup_lt_is_Some_2 (formals M F) 1 Hl1) as [c Ec].
  destruct (ext_var_ok _ _ _ (proj2 (xc_args _ _ HC 0 a0 H0))) as (x & Ex & Hx).
  unfold memset_site. rewrite Ex, Ec. cbn [rbind of_option]. destruct (returns_dest_emits CS x HC) as (l & -> & Hl). cbn [rbind].
  apply emits_ok. intros f. rewrite facts_cons, Hl. cbn [fact_of]. split.
  - intros [[= <-]|H]; exists c, x; auto.
  - intros (c' & x' & [= <-] & Hx' & H). assert (x' = x) as -> by congruence. destruct H as [->|H]; auto.
Qed.

Lemma chi_vars_list l : (forall d, d ∈ l -> has_var d) -> for_each (fun d => let* v := chi_var s d in Ok [v]) l = Ok l.
Proof.
  induction l as [|d l IH]; intros Hl; [done|]. cbn [for_each]. rewrite chi_var_ok by apply Hl, list_elem_of_here. cbn [rbind].
  rewrite IH; [done|]. intros e He. apply Hl. by apply list_elem_of_further.
Qed.

(** The optional chi of the variable arguments, or of the result. *)
Lemma optional_var (b : bool) m CS : (b = true -> ext_provided m F CS) ->
  exists l, (if b then let* v := ext_var s m F CS in Ok [v] else Ok []) = Ok l /\ forall v, v ∈ l <-> b = true /\ ext m CS v.
Proof.
  intros H. destruct b; [|exists []; split; [done|]; intros v; split; [by intros ?%not_elem_of_nil|by intros [? _]]].
  destruct (ext_var_ok _ _ _ (H eq_refl)) as (d & -> & Ed). exists [d]. split; [done|]. intros v. rewrite list_elem_of_singleton.
  rewrite Ed. split; [by intros ->|by intros [_ [= <-]]].
Qed.

Lemma unknown_outputs_spec CS : ext_complete F CS -> exists outs, unknown_outputs M s F CS = Ok outs /\
  forall v, v ∈ outs <-> unknown_output M s F CS (SV v).
Proof.
  intros HC. unfold unknown_outputs. rewrite chi_vars_list.
  2: { intros d (m & _ & Hd)%elem_of_arg_chis_at. exact (proj1 (xf_chi _ HX m CS d Hd)). }
  destruct (optional_var (varArg M F) extCallSiteToVarArgExitChi CS) as (l1 & -> & H1); [intros Hv; by apply (xc_vararg _ _ HC)|].
  destruct (optional_var (returnsPointer M F) extCallSiteToCalleeRetChi CS) as (l2 & -> & H2); [apply (xc_result _ _ HC)|].
  cbn [rbind]. eexists. split; [done|]. intros v. rewrite elem_of_in_order, elem_of_list_to_set, !elem_of_app, H1, H2, elem_of_arg_chis_at.
  split.
  - intros [(m & Hm & Ev)|[[Hv Ev]|[Hp Ev]]]; [|by apply out_vararg|by apply out_result]. destruct m; try done. by eapply out_arg.
  - intros H. inversion H as [i e Ee|e Hv Ee|e Hp Ee]; subst; [left|right; left|right; right]; [|done..].
    by exists (extCallSiteToArgExitChi i).
Qed.

Lemma unknown_inputs_spec CS : ext_complete F CS -> exists ins, unknown_inputs M s F CS = Ok ins /\
  forall v, v ∈ ins <-> unknown_input M s F CS (SV v).
Proof.
  intros HC. unfold unknown_inputs. rewrite chi_vars_list.
  2: { intros d (m & _ & Hd)%elem_of_arg_chis_at. exact (proj1 (xf_chi _ HX m CS d Hd)). }
  destruct (optional_var (varArg M F) extCallSiteToVarArgEntryChi CS) as (l1 & -> & H1); [intros Hv; by apply (xc_vararg _ _ HC)|].
  cbn [rbind]. eexists. split; [done|]. intros v. rewrite elem_of_in_order, elem_of_list_to_set, !elem_of_app, H1, elem_of_arg_chis_at.
  split.
  - intros [(m & Hm & Ev)|[Hv Ev]]; [|by apply in_vararg]. destruct m; try done. by eapply in_arg.
  - intros H. inversion H as [i e Ee|e Hv Ee|]; subst; [left|by right]. by exists (extCallSiteToArgEntryChi i).
Qed.

Lemma unknown_site_emits CS : ext_complete F CS -> emits (unknown_site M s F CS) (fun f =>
  exists a b, unknown_input M s F CS a /\ unknown_output M s F CS b /\ f = Dep a b).
Proof.
  intros HC. unfold unknown_site. destruct (unknown_outputs_spec CS HC) as (outs & -> & Ho), (unknown_inputs_spec CS HC) as (ins & -> & Hi).
  cbn [rbind]. apply emits_ok. intros f. rewrite facts_app, elem_of_app, !facts_bind. setoid_rewrite facts_map. cbn [fact_of]. split.
  - intros [(i & Hin & o & Hout & [= <-])|(a & ([x p] & -> & [k Hk]%list_elem_of_lookup)%list_elem_of_fmap & o & Hout & [= <-])].
    + exists (SV i), (SV o). split; [by apply Hi|]. split; [by apply Ho|done].
    + exists (LV x), (SV o). split; [by eapply in_formal|]. split; [by apply Ho|done].
  - intros (a & b & Ha & Hb & ->). assert (exists o, b = SV o /\ o ∈ outs) as (o & -> & Hout).
    { destruct b as [v|o]; [by inversion Hb|]. exists o. split; [done|]. by apply Ho. }
    destruct a as [x|i].
    + right. inversion Ha as [| |k y p Hk]; subst. exists x. split; [|eauto]. apply list_elem_of_fmap. exists (x, p).
      split; [done|]. by eapply list_elem_of_lookup_2.
    + left. exists i. split; [by apply Hi|]. eauto.
Qed.

(** The facts of the bodies, by the kind of the function. *)
Definition behaviour_facts (f : Fact) : Prop :=
  (is_copy M F = true /\ exists CS e x, ext (extCallSiteToArgEntryChi 1) CS e /\ ext (extCallSiteToArgExitChi 0) CS x /\
     (f = Dep (SV e) (SV x) \/ returnsPointer M F = true /\ exists r, ext extCallSiteToCalleeRetChi CS r /\ f = Dep (SV x) (SV r))) \/
  (is_set M F = true /\ exists CS c x, formals M F !! 1 = Some c /\ ext (extCallSiteToArgExitChi 0) CS x /\
     (f = Dep (LV c.1) (SV x) \/ returnsPointer M F = true /\ exists r, ext extCallSiteToCalleeRetChi CS r /\ f = Dep (SV x) (SV r))) \/
  (is_unknown M F = true /\ exists CS a b, CS ∈ default ∅ (extFuncToCSMap s !! F) /\
     unknown_input M s F CS a /\ unknown_output M s F CS b /\ f = Dep a b).

Lemma copy_sites_emit : is_copy M F = true -> emits (for_each (copy_site M s F) (ext_sites s is_arg_entry F)) behaviour_facts.
Proof.
  intros Hc. eapply emits_ext.
  { apply emits_for_each. intros CS H. by apply copy_site_emits, (site_complete is_arg_entry). }
  intros f. unfold behaviour_facts, is_set, is_unknown. rewrite Hc. cbn [negb andb]. split.
  - intros (CS & _ & e & x & H). left. eauto 6.
  - intros [(_ & CS & e & x & He & H)|[[[=] _]|[[=] _]]]. exists CS. split; [|eauto]. apply elem_of_ext_sites.
    by exists (extCallSiteToArgEntryChi 1), e.
Qed.

Lemma ext_behaviour_emits : emits (ext_behaviour M s F) behaviour_facts.
Proof.
  unfold ext_behaviour. destruct (contains_str "memcpy" (fname M F)) eqn:E1.
  { apply copy_sites_emit. unfold is_copy. by rewrite E1. }
  destruct (contains_str "memmove" (fname M F)) eqn:E2.
  { apply copy_sites_emit. unfold is_copy. by rewrite E1, E2. }
  assert (is_copy M F = false) as Hc by (unfold is_copy; by rewrite E1, E2).
  destruct (contains_str "memset" (fname M F)) eqn:E3.
  - assert (is_set M F = true) as Hs by (unfold is_set; by rewrite Hc, E3). eapply emits_ext.
    { apply emits_for_each. intros CS H. by apply memset_site_emits, (site_complete is_arg_exit). }
    intros f. unfold behaviour_facts, is_unknown. rewrite Hc, Hs, E3. cbn [negb andb]. split.
    + intros (CS & _ & c & x & H). right; left. eauto 6.
    + intros [[[=] _]|[(_ & CS & c & x & Ec & Hx & H)|[[=] _]]]. exists CS. split; [|eauto]. apply elem_of_ext_sites.
      by exists (extCallSiteToArgExitChi 0), x.
  - eapply emits_ext.
    { apply emits_for_each. intros CS H%elem_of_in_order. by apply unknown_site_emits, (xf_call _ HX). }
    intros f. unfold behaviour_facts, is_set, is_unknown. rewrite Hc, E3. cbn [negb andb]. split.
    + intros (CS & HCS%elem_of_in_order & a & b & H). right; right. split; [done|]. by exists CS, a, b.
    + intros [[[=] _]|[[[=] _]|(_ & CS & a & b & HCS & H)]]. exists CS. split; [by apply elem_of_in_order|]. by exists a, b.
Qed.

Lemma ext_sources_emit : emits (ext_sources M s src F) (fun f => exists n, (fname M F, n) ∈ SsaSourceFunctions src /\
  exists CS x, ext (extCallSiteToArgExitChi (Z.to_nat (u32 n))) CS x /\ f = Source (SV x)).
Proof.
  eapply emits_ext.
  { apply (emits_for_each _ _ (fun p f => fname M F = p.1 /\ exists CS x, ext (extCallSiteToArgExitChi (Z.to_nat (u32 p.2))) CS x /\ f = Source (SV x))).
    intros [n z] Hin. cbn [fst snd]. destruct (String.eqb_spec (fname M F) n) as [<-|Hn]; [|apply emits_nil; by intros f [? _]].
    destruct (xf_source _ HX z Hin) as [a Ha].
    assert (forall CS, CS ∈ ext_sites s is_arg_exit F -> ext_provided (extCallSiteToArgExitChi (Z.to_nat (u32 z))) F CS) as Hp.
    { intros CS H. by apply (xc_args _ _ (site_complete _ CS H) _ a). }
    eapply emits_ext.
    - apply (emits_for_each _ _ (fun CS f => exists x, ext (extCallSiteToArgExitChi (Z.to_nat (u32 z))) CS x /\ f = Source (SV x))).
      intros CS H. destruct (ext_var_ok _ _ _ (Hp CS H)) as (x & -> & Ex). cbn [rbind]. apply emits_ok. intros f. rewrite Ex. to_facts. split.
      + intros [[= <-]|[]]. eauto.
      + intros (x' & [= <-] & ->). auto.
    - intros f. split.
      + intros (CS & _ & x & H). eauto.
      + intros (_ & CS & x & Ex & H). exists CS. split; [|eauto]. apply elem_of_ext_sites. by exists (extCallSiteToArgExitChi (Z.to_nat (u32 z))), x. }
  intros f. split.
  - intros ([n z] & Hin & E & H). simpl in *. subst n. eauto.
  - intros (z & Hin & H). exists (fname M F, z). auto.
Qed.

Lemma external_function_emits : emits (external_function M s src F) (ext_rule M s src F).
Proof.
  destruct ext_var_args_emit as (l1 & E1 & H1), ext_formals_emit as (l2 & E2 & H2), ext_result_emits as (l3 & E3 & H3),
    ext_behaviour_emits as (l4 & E4 & H4), ext_sources_emit as (l5 & E5 & H5).
  unfold external_function. rewrite E1, E2, E3, E4, E5. cbn [rbind]. apply emits_ok. intros f.
  rewrite !facts_app, !elem_of_app, H1, H2, H3, H4, H5. unfold behaviour_facts. split.
  - intros [H|[H|[[]|[H|H]]]].
    + destruct H as (Hv & CS & e & o & He & Ho & ->). by eapply E_vararg.
    + destruct H as (i & a & CS & e & o & Ha & He & Ho & ->). by eapply E_arg.
    + destruct H as [H|[H|H]].
      * destruct H as (Hc & CS & e & x & He & Hx & [->|(Hp & r & Hr & ->)]); [by eapply E_copy|eapply E_dest; eauto].
      * destruct H as (Hc & CS & [c p] & x & Ec & Hx & [->|(Hp & r & Hr & ->)]); [by eapply E_set|eapply E_dest; eauto].
      * destruct H as (Hu & CS & a & b & HCS & Ha & Hb & ->). by eapply E_unknown.
    + destruct H as (n & Hn & CS & x & Hx & ->). by eapply E_source.
  - destruct 1 as [CS e o Hv He Ho|i a CS e o Ha He Ho|CS e x Hc He Hx|CS a p x Hs Ha Hx|CS x r Hcs Hp Hx Hr|CS a b Hu HCS Ha Hb|n CS x Hn Hx].
    + left. split; [done|]. by exists CS, e, o.
    + right; left. by exists i, a, CS, e, o.
    + right; right; right; left. left. split; [done|]. exists CS, e, x. auto.
    + right; right; right; left. right; left. split; [done|]. exists CS, (a, p), x. auto.
    + right; right; right; left. destruct Hcs as [Hc|Hs].
      * left. split; [done|]. destruct (xf_copy _ HX Hc) as [_ [a1 H1']].
        destruct (xc_args _ _ (xf_site _ HX _ CS x Hx) 1 a1 H1') as [(e & He & _) _]. exists CS, e, x. eauto 8.
      * right; left. split; [done|]. destruct (xf_set _ HX Hs) as [_ Hl]. destruct (lookup_lt_is_Some_2 (formals M F) 1 Hl) as [c Ec].
        exists CS, c, x. eauto 8.
    + right; right; right; left. right; right. split; [done|]. by exists CS, a, b.
    + right; right; right; right. exists n. split; [done|]. by exists CS, x.
Qed.
End External.

(** ** The tables *)

Definition source_fact (t : Tables) (n : Node) : Prop := match n with SV x => x ∈ ssaSourceNodes t | LV v => v ∈ valueSourceNodes t end.

(** What the tables hold. *)
Record holds (t : Tables) (P : Fact -> Prop) : Prop := {
  ho_edges : represents (edges t) (fun a b => P (Dep a b));
  ho_sources : forall n, source_fact t n <-> P (Source n);
  ho_resets : forall x, x ∈ taintResetNodes t <-> P (Reset x);
  ho_conds : forall c CI, c ∈ at_key (condsOfCallsite t) CI <-> P (Condition c CI);
  ho_calls : forall C CI, CI ∈ at_key (funcToCallSites t) C <-> P (Calls CI C)
}.

Lemma holds_ext t P Q : (forall f, P f <-> Q f) -> holds t P -> holds t Q.
Proof.
  intros H [H1 H2 H3 H4 H5]. split.
  - eapply represents_ext; [|exact H1]. intros a b. apply H.
  - intros n. by rewrite <- H.
  - intros x. by rewrite <- H.
  - intros c CI. by rewrite <- H.
  - intros C CI. by rewrite <- H.
Qed.

Lemma insert_one_edges t i : edges (insert_one t i) = match i with Edge a b => addEdge a b (edges t) | _ => edges t end.
Proof. by destruct i. Qed.

Lemma insert_one_source t i n : source_fact (insert_one t i) n <-> fact_of i = Some (Source n) \/ source_fact t n.
Proof.
  destruct i, n; simpl; rewrite ?elem_of_union, ?elem_of_singleton; (split; [intros [->|H]||intros H|intros [[= ->]|H]]); auto.
Qed.

Lemma insert_one_reset t i x : x ∈ taintResetNodes (insert_one t i) <-> fact_of i = Some (Reset x) \/ x ∈ taintResetNodes t.
Proof.
  destruct i; simpl; rewrite ?elem_of_union, ?elem_of_singleton; (split; [intros [->|H]||intros H|intros [[= ->]|H]]); auto.
Qed.

Lemma insert_one_cond t i c CI : c ∈ at_key (condsOfCallsite (insert_one t i)) CI <->
  fact_of i = Some (Condition c CI) \/ c ∈ at_key (condsOfCallsite t) CI.
Proof.
  destruct i; simpl; rewrite ?elem_insert_at; (split; [intros [[-> ->]|H]||intros H|intros [[= -> ->]|H]]); auto.
Qed.

Lemma insert_one_calls t i C CI : CI ∈ at_key (funcToCallSites (insert_one t i)) C <->
  fact_of i = Some (Calls CI C) \/ CI ∈ at_key (funcToCallSites t) C.
Proof.
  destruct i; simpl; rewrite ?elem_insert_at; (split; [intros [[-> ->]|H]||intros H|intros [[= -> ->]|H]]); auto.
Qed.

Lemma insert_one_holds t i P : holds t P -> holds (insert_one t i) (fun f => fact_of i = Some f \/ P f).
Proof.
  intros [H1 H2 H3 H4 H5]. split.
  - rewrite insert_one_edges. destruct i; (eapply represents_ext; [|first [exact (addEdge_represents _ _ _ _ H1)|exact H1]]);
      intros a0 b0; simpl; (split; [intros [[-> ->]|H]||intros H|intros [[= -> ->]|H]]); auto.
  - intros n. by rewrite insert_one_source, H2.
  - intros x. by rewrite insert_one_reset, H3.
  - intros c CI. by rewrite insert_one_cond, H4.
  - intros C CI. by rewrite insert_one_calls, H5.
Qed.

Lemma insert_all_holds l : forall t P, holds t P -> holds (insert_all l t) (fun f => f ∈ facts l \/ P f).
Proof.
  induction l as [|i l IH]; intros t P H; unfold insert_all in *; cbn [fold_left].
  - eapply holds_ext; [|exact H]. intros f. cbn beta. rewrite facts_nil. tauto.
  - eapply holds_ext; [|by apply IH, insert_one_holds]. intros f. cbn beta. rewrite facts_cons. tauto.
Qed.

Lemma empty_holds : holds empty_tables (fun _ => False).
Proof. split; [exact represents_empty|by intros [v|x]|done|..]; intros c CI; (split; [|done]); apply not_elem_of_empty. Qed.

(** ** The construction *)

Section Construction.
Context (rounds fuel : nat) (PDT : PostDominatorTree) (Bs : gset BlockId) (height : N -> nat).
Context (HS : ssa_provides) (OK : pdt_ok (base M) PDT Bs height).
Context (Hfuel : forall b n, node_of PDT Bs b n -> height n < fuel) (Hrounds : size Bs < rounds).
Context (Hterm : forall b, b ∈ Bs -> exists c, getBasicBlockCond (base M) b = Ok c).
Context (Hblocks : forall F b, built M CG F -> b ∈ mblocks M F -> b ∈ Bs).

Local Abbreviation under := (cond_of M PDT Bs).
Local Abbreviation irule := (inst_rule M CG s src weakUpdate noPtrDep noPred valueName).
Local Abbreviation rules := (rule M CG s src weakUpdate noPtrDep noPred valueName under).

Definition state_ok (st : BuildState) : Prop := caches_ok M PDT Bs (pdf_caches st).1 (pdf_caches st).2.

(** The step to [st'] leaves the caches right and adds the facts [Q]. *)
Definition adds (Q : Fact -> Prop) (st st' : BuildState) : Prop :=
  state_ok st' /\ forall P, holds (tables st) P -> holds (tables st') (fun f => Q f \/ P f).

Lemma step_adds_ext Q Q' st st' : (forall f, Q f <-> Q' f) -> adds Q st st' -> adds Q' st st'.
Proof. intros H [H1 H2]. split; [done|]. intros P HP. eapply holds_ext; [|by apply H2]. intros f. cbn beta. by rewrite H. Qed.

Lemma step_adds_none st : state_ok st -> adds (fun _ => False) st st.
Proof. intros H. split; [done|]. intros P. apply holds_ext. tauto. Qed.

Lemma adds_insert l st : state_ok st -> adds (fun f => f ∈ facts l) st (insert_in l st).
Proof. intros H. split; [done|]. intros P. apply insert_all_holds. Qed.

Lemma step_adds_trans Q Q' st st1 st2 : adds Q st st1 -> adds Q' st1 st2 -> adds (fun f => Q f \/ Q' f) st st2.
Proof.
  intros [_ H1] [H2 H3]. split; [done|]. intros P HP. eapply holds_ext; [|by apply H3, H1]. intros f. cbn beta. tauto.
Qed.

Lemma adds_fold {A} (g : BuildState -> A -> res BuildState) (Q : A -> Fact -> Prop) l : forall st, state_ok st ->
  (forall x st, x ∈ l -> state_ok st -> exists st', g st x = Ok st' /\ adds (Q x) st st') ->
  exists st', rfold g l st = Ok st' /\ adds (fun f => exists x, x ∈ l /\ Q x f) st st'.
Proof.
  induction l as [|x l IH]; intros st Hst Hg; cbn [rfold].
  - exists st. split; [done|]. eapply step_adds_ext; [|by apply step_adds_none]. intros f. split; [done|]. by intros (x & ?%not_elem_of_nil & _).
  - destruct (Hg x st (list_elem_of_here _ _) Hst) as (st1 & E1 & A1). rewrite E1. cbn [rbind].
    destruct (IH st1 (proj1 A1)) as (st' & E' & A'); [intros y st0 Hy; apply Hg; by apply list_elem_of_further|].
    exists st'. split; [done|]. eapply step_adds_ext; [|by eapply step_adds_trans]. intros f. cbn beta. setoid_rewrite elem_of_cons. split.
    + intros [H|(y & Hy & H)]; eauto.
    + intros (y & [->|Hy] & H); eauto.
Qed.

Lemma emits_adds r Q st : state_ok st -> emits r Q -> exists st', (let* l := r in Ok (insert_in l st)) = Ok st' /\ adds Q st st'.
Proof.
  intros Hst (l & -> & Hl). eexists. split; [done|]. eapply step_adds_ext; [exact Hl|by apply adds_insert].
Qed.

(** What an instruction of the block [b] adds. *)
Definition adds_inst (b : BlockId) (Inst : MInst) (f : Fact) : Prop := irule Inst f \/
  exists CI Callee args p c, Inst = CallI CI Callee args false p /\ under b c /\ f = Condition c CI.

Lemma visit_call_adds F b CI Callee args p st : built M CG F -> (b, CallI CI Callee args false p) ∈ minsts M F -> b ∈ Bs -> state_ok st ->
  exists st', visitCallInst M CG s src weakUpdate rounds fuel PDT F b CI Callee args false st = Ok st' /\
    adds (adds_inst b (CallI CI Callee args false p)) st st'.
Proof.
  intros HF HI Hb Hst. destruct (frontier_conds_spec rounds fuel M PDT Bs height OK Hfuel Hrounds Hterm b _ _ Hb Hst)
    as (P & c1 & c2 & E & Hc & HP).
  destruct (call_emits F CI Callee args (sp_call HS F b CI Callee args p HF HI) P) as (l1 & l2 & E1 & E2 & Hl).
  unfold visitCallInst. rewrite E1. cbn [rbind].
  change (computeIPDFPredicates rounds fuel (base M) PDT b (pdf_caches st).1 (pdf_caches st).2) with
    (frontier_conds rounds fuel M PDT b (pdf_caches st).1 (pdf_caches st).2). rewrite E. cbn [rbind fst snd]. rewrite E2. cbn [rbind].
  eexists. split; [done|]. split; [done|]. intros Q HQ. eapply holds_ext; [|by apply insert_all_holds]. intros f. cbn beta. rewrite Hl.
  unfold adds_inst. split.
  - intros [[H|(c & Hc' & ->)]|H]; [left; left; by constructor|left; right|by right]. exists CI, Callee, args, p, c. by rewrite <- HP.
  - intros [[H|(CI' & Callee' & args' & p' & c & [= <- <- <- <-] & Hc' & ->)]|H]; [left; left; by inversion H|left; right|by right].
    exists c. by rewrite HP.
Qed.

Lemma visit_minst_adds F b Inst st : built M CG F -> (b, Inst) ∈ minsts M F -> b ∈ Bs -> state_ok st ->
  exists st', visit_minst M CG s src weakUpdate noPtrDep noPred valueName rounds fuel PDT F b st Inst = Ok st' /\
    adds (adds_inst b Inst) st st'.
Proof.
  intros HF HI Hb Hst.
  assert (forall Q, (forall f, Q f <-> irule Inst f) -> (forall CI Callee args p, Inst <> CallI CI Callee args false p) ->
    forall st', adds Q st st' -> adds (adds_inst b Inst) st st') as Hk.
  { intros Q HQ Hn st'. apply step_adds_ext. intros f. unfold adds_inst. rewrite HQ. split; [by left|].
    intros [?|(CI & Callee & args & p & c & E & _)]; [done|]. by apply Hn in E. }
  destruct Inst as [id|LI ptr|SI val ptr|CI Callee args dbg p|id inc|id ops|id| |]; cbn [visit_minst];
    try (exists st; split; [done|]; eapply Hk; [|done|by apply step_adds_none]; intros f; split; [done|intros H; inversion H]).
  - destruct (emits_adds _ _ st Hst (load_emits F LI ptr (fun m => sp_load HS F b LI ptr m HF HI))) as (st' & -> & A).
    exists st'. split; [done|]. by eapply Hk.
  - destruct (emits_adds _ _ st Hst (store_emits F SI val ptr (fun d => sp_store HS F b SI val ptr d HF HI))) as (st' & -> & A).
    exists st'. split; [done|]. by eapply Hk.
  - destruct dbg; [|by apply visit_call_adds]. exists st. split; [done|]. eapply Hk; [|done|by apply step_adds_none].
    intros f. split; [done|intros H; inversion H].
  - eexists. split; [done|]. eapply Hk; [|done|by apply adds_insert]. intros f. apply phi_node_facts.
  - eexists. split; [done|]. eapply Hk; [|done|by apply adds_insert]. intros f. cbn beta. rewrite operands_facts. split.
    + intros (v & Hv & ->). by constructor.
    + intros H. inversion H; subst. eauto.
Qed.

Definition mem_phi_facts (p : DefId) (f : Fact) : Prop :=
  (exists i o, phiOp s p i = Some o /\ f = Dep (SV o) (SV p)) \/ (noPred = false /\ exists c, c ∈ conds s p /\ f = Dep (LV c) (SV p)).

Lemma visit_block_adds F b st : built M CG F -> b ∈ mblocks M F -> state_ok st ->
  exists st', visit_block M CG s src weakUpdate noPtrDep noPred valueName rounds fuel PDT F st b = Ok st' /\
    adds (fun f => (exists p, p ∈ at_owner s bbToPhiMap b /\ mem_phi_facts p f) \/ exists Inst, Inst ∈ code M b /\ adds_inst b Inst f) st st'.
Proof.
  intros HF Hb Hst. unfold visit_block, visitBasicBlock.
  destruct (emits_for_each (visit_mssa_phi s noPred F) (at_owner s bbToPhiMap b) mem_phi_facts) as (l & -> & Hl).
  { intros p Hp. apply mssa_phi_emits. by apply (sp_phi HS F b). }
  cbn [rbind]. pose proof (adds_insert l st Hst) as A1.
  destruct (adds_fold (visit_minst M CG s src weakUpdate noPtrDep noPred valueName rounds fuel PDT F b) (adds_inst b) (code M b)
    (insert_in l st) (proj1 A1)) as (st' & E & A2).
  { intros Inst st1 HI Hst1. apply visit_minst_adds; [done| |by eapply Hblocks|done]. apply elem_of_minsts. done. }
  exists st'. split; [done|]. eapply step_adds_ext; [|by eapply step_adds_trans]. intros f. cbn beta. by rewrite Hl.
Qed.

Definition entry_facts (d : DefId) (f : Fact) : Prop := exists o, opOf s d = Some o /\ f = Dep (SV o) (SV d).

Lemma entry_chi_emits F d : has_var d -> emits (visit_entry_chi s F d) (entry_facts d).
Proof.
  intros Hd. unfold visit_entry_chi. rewrite chi_var_ok by done. destruct Hd as [v Hv]. unfold varOf in Hv. unfold entry_facts, opOf.
  cbn [rbind]. destruct (defs s !! d) as [x|]; [|done]. cbn [of_option rbind mbind option_bind] in *. apply emits_ok. intros f. to_facts.
  destruct (opVar x) as [o|]; to_facts; split.
  - intros [[=]|[[=]|[[= <-]|[]]]]. eauto.
  - intros (o' & [= <-] & ->). auto.
  - by intros [[=]|[]].
  - by intros (o' & [=] & _).
Qed.

(** What a function adds. *)
Inductive function_rule (F : FuncId) : Fact -> Prop :=
| F_block b f : b ∈ mblocks M F -> (exists p, p ∈ at_owner s bbToPhiMap b /\ mem_phi_facts p f) -> function_rule F f
| F_inst b Inst f : (b, Inst) ∈ minsts M F -> adds_inst b Inst f -> function_rule F f
| F_entry d f : d ∈ at_owner s funToEntryChiMap F -> entry_facts d f -> function_rule F f
| F_external f : isDecl M F = true -> ext_rule M s src F f -> function_rule F f.

Lemma buildFunction_adds F st : built M CG F -> state_ok st ->
  exists st', buildFunction M CG s src weakUpdate noPtrDep noPred valueName rounds fuel PDT st F = Ok st' /\ adds (function_rule F) st st'.
Proof.
  intros HF Hst. unfold buildFunction.
  destruct (adds_fold (visit_block M CG s src weakUpdate noPtrDep noPred valueName rounds fuel PDT F)
    (fun b f => (exists p, p ∈ at_owner s bbToPhiMap b /\ mem_phi_facts p f) \/ exists Inst, Inst ∈ code M b /\ adds_inst b Inst f)
    (mblocks M F) st Hst) as (st1 & -> & A1); [intros b st1 Hb; by apply visit_block_adds|]. cbn [rbind].
  destruct (emits_for_each (visit_entry_chi s F) (at_owner s funToEntryChiMap F) entry_facts) as (l & -> & Hl).
  { intros d Hd. apply entry_chi_emits. by apply (sp_entry HS F). }
  cbn [rbind].
  assert (exists l2, (if isDecl M F then external_function M s src F else Ok []) = Ok l2 /\
    forall f, f ∈ facts l2 <-> isDecl M F = true /\ ext_rule M s src F f) as (l2 & -> & Hl2).
  { destruct (isDecl M F) eqn:Hd.
    - destruct (external_function_emits F (sp_external HS F HF Hd)) as (l2 & E & H2). exists l2. split; [done|]. intros f. rewrite H2. tauto.
    - exists []. split; [done|]. intros f. rewrite facts_nil. by split; [|intros [[=] _]]. }
  cbn [rbind]. eexists. split; [done|].
  eapply step_adds_ext; [|eapply step_adds_trans; [exact A1|by apply adds_insert; apply A1]]. intros f. cbn beta.
  rewrite facts_app, elem_of_app, Hl, Hl2. split.
  - intros [(b & Hb & [H|(Inst & HI & H)])|[(d & Hd & H)|[Hd H]]].
    + by eapply F_block.
    + eapply F_inst; [|exact H]. by apply elem_of_minsts.
    + by eapply F_entry.
    + by apply F_external.
  - destruct 1 as [b f Hb H|b Inst f HI%elem_of_minsts H|d f Hd H|f Hd H]; [left; eauto| |right; left; eauto|right; right; auto].
    destruct HI as [Hb HI]. left. exists b. eauto.
Qed.

Lemma function_rules F f : built M CG F -> function_rule F f -> rules f.
Proof.
  intros HF. destruct 1 as [b f Hb (p & Hp & [(i & o & Ho & ->)|(Hn & c & Hc & ->)])|b Inst f HI [H|(CI & Callee & args & p & c & -> & Hc & ->)]|
    d f Hd (o & Ho & ->)|f Hd H].
  - by eapply R_mem_phi.
  - by eapply R_mem_phi_cond.
  - by eapply R_inst.
  - by eapply R_cond.
  - by eapply R_entry.
  - by eapply R_external.
Qed.

Lemma rule_function f : rules f -> exists F, built M CG F /\ function_rule F f.
Proof.
  destruct 1 as [F b p i o HF Hb Hp Ho|F b p c Hn HF Hb Hp Hc|F b Inst f HF HI H|F b CI Callee args p c HF HI Hc|F d o HF Hd Ho|F f HF Hd H];
    exists F; (split; [done|]).
  - eapply F_block; [done|]. exists p. split; [done|]. left. eauto.
  - eapply F_block; [done|]. exists p. split; [done|]. right. eauto.
  - eapply F_inst; [done|]. by left.
  - eapply F_inst; [done|]. right. eauto 8.
  - eapply F_entry; [done|]. by exists o.
  - by apply F_external.
Qed.

(** The construction returns, and its tables hold what the rules derive. *)
Lemma build_graph_holds caches : caches_ok M PDT Bs caches.1 caches.2 ->
  exists st, build_graph M CG s src weakUpdate noPtrDep noPred valueName rounds fuel PDT caches = Ok st /\ state_ok st /\ holds (tables st) rules.
Proof.
  intros Hc. unfold build_graph.
  destruct (adds_fold (build_if_called M CG s src weakUpdate noPtrDep noPred valueName rounds fuel PDT)
    (fun F f => built M CG F /\ function_rule F f) (functions (base M)) {| tables := empty_tables; pdf_caches := caches |} Hc)
    as (st & E & Hst & H).
  - intros F st HF Hst. unfold build_if_called.
    assert (built M CG F \/ negb (isReachableFromEntry CG F) || isIntrinsicDbgFunction (base M) F = true) as [HB|Hn].
    { unfold built. destruct (isReachableFromEntry CG F), (isIntrinsicDbgFunction (base M) F); auto. }
    + destruct HB as (HF' & Hr & Hd). rewrite Hr, Hd. cbn [negb orb].
      destruct (buildFunction_adds F st) as (st' & E' & A'); [done|done|]. exists st'. split; [done|]. eapply step_adds_ext; [|exact A'].
      intros f. split; [done|by intros [_ ?]].
    + rewrite Hn. exists st. split; [done|]. eapply step_adds_ext; [|by apply step_adds_none]. intros f. split; [done|].
      intros [(_ & Hr & Hd) _]. by rewrite Hr, Hd in Hn.
  - exists st. split; [done|]. split; [done|]. eapply holds_ext; [|apply H, empty_holds]. intros f. cbn beta. split.
    + intros [(F & _ & HF & Hf)|[]]. by eapply function_rules.
    + intros (F & HF & Hf)%rule_function. left. exists F. split; [apply HF|done].
Qed.
End Construction.
End Provided.
