(* ===== verification/DepGraphPass.v ===== *)
(** The dependency graph end to end: the tables the construction fills are those of
    the rules, the taint is what the rules carry from the sources, and on every path
    what a store writes is carried to the loads that read it. *)
From stdpp Require Import relations.
From S2P Require Import Prelude IR Utils Postdominance Samples Collectives PTACallGraph MemRegions ModRef DepGraph DepGraphPhi.
From S2P Require Import MemSSA MemSSARename MemSSAPlace MemSSABuild DepGraphTaint DepGraphBuild DepGraphRules.
#[local] Open Scope nat_scope.

(** * The pass *)

Section Pass.
Context (M : MModule) (CG : PTACallGraph) (s : MemorySSA) (src : Sources) (weakUpdate noPtrDep noPred : bool).
Context (valueName : ValueId -> string) (PDT : PostDominatorTree) (Bs : gset BlockId) (height : N -> nat).

(** The postdominator trees of the functions, as one forest; the fuel exceeds its
    height and the number of blocks. *)
Record blocks_ok (rounds fuel : nat) : Prop := {
  bo_pdt : pdt_ok (base M) PDT Bs height;
  bo_fuel : forall b n, node_of PDT Bs b n -> height n < fuel;
  bo_rounds : size Bs < rounds;
  bo_terminator : forall b, b ∈ Bs -> exists c, getBasicBlockCond (base M) b = Ok c;
  bo_blocks : forall F b, built M CG F -> b ∈ mblocks M F -> b ∈ Bs
}.

Local Abbreviation rules := (rule M CG s src weakUpdate noPtrDep noPred valueName (cond_of M PDT Bs)).

(** The taint of the program: what the rules carry from a source, not out of a
    reset node. *)
Definition program_taint : Node -> Prop :=
  tainted (fun a b => rules (Dep a b)) (fun n => match n with SV x => rules (Reset x) | LV _ => False end) (fun n => rules (Source n)).

Lemma graph_taint t : holds t rules -> forall n, source_taint (dgraph_of t) n <-> program_taint n.
Proof.
  intros [H1 H2 H3 _ _] n.
  assert (forall m, resets (taintResetSSANodes (dgraph_of t)) m <-> match m with SV x => rules (Reset x) | LV _ => False end) as Hr.
  { intros [v|x]; simpl; [done|apply H3]. }
  assert (forall m, is_source (dgraph_of t) m <-> rules (Source m)) as Hs by (intros [v|x]; rewrite <- H2; done).
  unfold source_taint, program_taint. split; induction 1 as [m Hm|a b _ IH Hra Hab].
  - by apply taint_source, Hs.
  - eapply taint_flow; [exact IH|intros Ha; apply Hra, Hr, Ha|]. exact (proj1 (proj1 (H1 a b)) Hab).
  - by apply taint_source, Hs.
  - eapply taint_flow; [exact IH|intros Ha; apply Hra, Hr, Ha|]. exact (proj2 (proj1 (H1 a b)) Hab).
Qed.
End Pass.

(** C15 (rules). The construction of the dependency graph returns, and its tables hold
    exactly what the rules derive from the memory SSA: the edges -- as children and
    as parents --, the sources, the reset nodes, the conditions of the calls and the
    calls of each function. *)
Theorem build_graph_rules M CG s src weakUpdate noPtrDep noPred valueName PDT Bs height rounds fuel caches :
  ssa_provides M CG s src -> blocks_ok M CG PDT Bs height rounds fuel -> caches_ok M PDT Bs caches.1 caches.2 ->
  let rules := rule M CG s src weakUpdate noPtrDep noPred valueName (cond_of M PDT Bs) in
  exists st, build_graph M CG s src weakUpdate noPtrDep noPred valueName rounds fuel PDT caches = Ok st /\
    (forall a b, (DepGraphPhi.child (edges (tables st)) a b <-> rules (Dep a b)) /\ (parent (edges (tables st)) a b <-> rules (Dep a b))) /\
    (forall x, x ∈ ssaSourceNodes (tables st) <-> rules (Source (SV x))) /\
    (forall v, v ∈ valueSourceNodes (tables st) <-> rules (Source (LV v))) /\
    (forall x, x ∈ taintResetNodes (tables st) <-> rules (Reset x)) /\
    (forall c CI, c ∈ at_key (condsOfCallsite (tables st)) CI <-> rules (Condition c CI)) /\
    (forall C CI, CI ∈ at_key (funcToCallSites (tables st)) C <-> rules (Calls CI C)).
Proof.
  intros HS [OK Hf Hr Ht Hb] Hc rules.
  destruct (build_graph_holds M CG s src weakUpdate noPtrDep noPred valueName rounds fuel PDT Bs height HS OK Hf Hr Ht Hb caches Hc)
    as (st & E & _ & [H1 H2 H3 H4 H5]).
  exists st. split; [exact E|]. split; [exact H1|]. split; [intros x; exact (H2 (SV x))|]. split; [intros v; exact (H2 (LV v))|]. done.
Qed.

(** C16 (pass). The whole pass without contexts and without the elimination of phis
    returns with enough fuel, and calls a value tainted exactly when the rules carry
    it from a source, not out of a reset node. *)
Theorem build_taint M CG s src weakUpdate noPtrDep noPred valueName PDT Bs height rounds fuel caches :
  ssa_provides M CG s src -> blocks_ok M CG PDT Bs height rounds fuel -> caches_ok M PDT Bs caches.1 caches.2 ->
  exists st t k, (forall turns, k <= turns ->
    build M CG s src weakUpdate noPtrDep noPred valueName rounds fuel turns PDT true true caches = Ok (st, t)) /\
    forall v, isTaintedValue t v = true <->
      program_taint M CG s src weakUpdate noPtrDep noPred valueName PDT Bs (LV v).
Proof.
  intros HS [OK Hf Hr Ht Hb] Hc.
  destruct (build_graph_holds M CG s src weakUpdate noPtrDep noPred valueName rounds fuel PDT Bs height HS OK Hf Hr Ht Hb caches Hc)
    as (st & E & _ & H). set (G := dgraph_of (tables st)).
  set (k := size (ssaSources G) + size (valueSources G) + flood_bound (dg_graph G)).
  destruct (flooding_taint k G) as (t & Et & _ & Hv); [done|].
  exists {| tables := tables st; pdf_caches := pdf_caches st |}, t, k. split.
  - intros turns Hk. unfold build. rewrite E. cbn [rbind]. fold G.
    by rewrite (insensitive_more k turns G no_taint t Hk Et).
  - intros v. rewrite Hv. by apply graph_taint.
Qed.

(** * What a store writes reaches the loads *)

Section MemoryFlow.
Context (M : MModule) (F : FuncId) (s : MemorySSA) (entry : BlockId).

(** The definition of each region made last on a path from the entry, by an entry
    chi or an instruction -- not by a phi. *)
Inductive last_writes : BlockId -> Env -> Prop :=
| lw_entry : last_writes entry (entry_env F s)
| lw_step X real Y : last_writes X real -> Y ∈ successors (base M) X -> last_writes Y (fold_left (step s) (code_events M F s X) real).

(** From an operand to its phi. *)
Definition phi_edge (a b : DefId) : Prop := exists Y i, Y ∈ mblocks M F /\ b ∈ phis s Y /\ phiOp s b i = Some a.

(** What is current comes from what was written last through phis. *)
Definition from_writes (real cur : Env) : Prop :=
  forall R d, real !! Some R = Some d -> exists c, cur !! Some R = Some c /\ rtc phi_edge d c.

Lemma from_writes_steps es : forall real cur, from_writes real cur -> from_writes (fold_left (step s) es real) (fold_left (step s) es cur).
Proof.
  induction es as [|e es IH]; intros real cur H; [done|]. simpl. apply IH. destruct e as [m|d]; [done|]. intros R c. simpl.
  destruct (decide (region_of s d = Some R)) as [->|Hne].
  - rewrite !lookup_insert_eq. intros [= <-]. by exists d.
  - rewrite !lookup_insert_ne by done. apply H.
Qed.

(** The phis of a block change the current definitions of their regions only. *)
Lemma phis_current ps V : forall cur, fold_left (step s) (Def <$> ps) cur !! V = cur !! V \/
  exists p, p ∈ ps /\ region_of s p = V /\ fold_left (step s) (Def <$> ps) cur !! V = Some p.
Proof.
  induction ps as [|p ps IH]; intros cur; [by left|]. rewrite fmap_cons. cbn [fold_left].
  destruct (IH (step s cur (Def p))) as [E|(q & Hq & Er & E)].
  - rewrite E. simpl. destruct (decide (region_of s p = V)) as [Ep|Hne].
    + right. exists p. split; [apply list_elem_of_here|]. split; [done|]. rewrite <- Ep. by rewrite lookup_insert_eq.
    + left. by rewrite lookup_insert_ne.
  - right. exists q. split; [by apply list_elem_of_further|]. done.
Qed.

Section Path.
Context (Children : BlockId -> list BlockId) (HB : forall X cur, reaches M F s entry (entry_env F s) X cur -> block_right M F s Children entry s X cur).
Context (Hblocks : forall X Y, X ∈ mblocks M F -> Y ∈ successors (base M) X -> Y ∈ mblocks M F).
Context (Hentry : entry ∈ mblocks M F) (Hno : forall p R, p ∈ phis s entry -> region_of s p <> Some R).

Lemma after_phis X real cur : from_writes real cur -> X ∈ mblocks M F ->
  (forall p R, p ∈ phis s X -> region_of s p = Some R -> exists i, phiOp s p i = cur !! Some R) ->
  from_writes real (fold_left (step s) (Def <$> phis s X) cur).
Proof.
  intros H HX Hops R d Hd. destruct (H R d Hd) as (c & Hc & Hr).
  destruct (phis_current (phis s X) (Some R) cur) as [E|(p & Hp & Er & E)]; [exists c; by rewrite E|].
  exists p. split; [done|]. eapply rtc_r; [exact Hr|]. destruct (Hops p R Hp Er) as [i Ei]. exists X, i. rewrite Ei. done.
Qed.

(** On every path, with the definitions the SSA form takes for current. *)
Lemma path_writes X real : last_writes X real -> X ∈ mblocks M F /\ exists cur, reaches M F s entry (entry_env F s) X cur /\
  from_writes real (fold_left (step s) (Def <$> phis s X) cur).
Proof.
  induction 1 as [|X real Y _ (HX & cur & Hcur & H) HY].
  - split; [done|]. exists (entry_env F s). split; [constructor|]. apply after_phis; [|done|].
    + intros R d Hd. by exists d.
    + intros p R Hp Er. by destruct (Hno p R Hp).
  - pose proof (Hblocks X Y HX HY) as HYb. split; [done|]. exists (block_out M F s X cur). split; [by constructor|].
    apply after_phis; [|done|].
    + unfold block_out, events. rewrite fold_left_app. by apply from_writes_steps.
    + intros p R Hp Er. exists (whichPred M X Y). rewrite (br_phi _ _ _ _ _ _ _ _ (HB X cur Hcur) Y p HY Hp). by rewrite Er.
Qed.

(** A use reads, through phis, what was written last. *)
Lemma use_reads X real k m R d : last_writes X real -> code_events M F s X !! k = Some (Use m) ->
  used_once M F s Children entry m -> mu_region_of s m = Some R ->
  fold_left (step s) (take k (code_events M F s X)) real !! Some R = Some d ->
  exists v, muVar s m = Some v /\ rtc phi_edge d v.
Proof.
  intros HX Hk Ho Hm Hd. destruct (path_writes X real HX) as (_ & cur & Hcur & H).
  pose proof (from_writes_steps (take k (code_events M F s X)) _ _ H R d Hd) as (v & Hv & Hr). exists v. split; [|done].
  assert (events M F s X !! (length (phis s X) + k) = Some (Use m)) as Hk'.
  { unfold events. rewrite lookup_app_r by (rewrite length_fmap; lia). rewrite length_fmap. by replace (_ + k - _) with k by lia. }
  rewrite (br_use _ _ _ _ _ _ _ _ (HB X cur Hcur) _ m Hk' Ho), Hm, <- Hv. unfold env_at, events.
  rewrite take_app, take_ge by (rewrite length_fmap; lia). rewrite length_fmap, fold_left_app.
  by replace (_ + k - _) with k by lia.
Qed.
End Path.
End MemoryFlow.

(** C17 (flow). The memory SSA of a function and the rules of the dependency graph
    together: on every path from the entry, when a load reads a region whose last
    definition on the path -- phis left out -- is that of a store, the load depends
    on the value the store writes. *)
Theorem stored_values_reach_loads cfg opts M CG Regions MRA (PA : PointerAnalysis) FAM fuel rounds F entry height pheight s c1 c2
    src weakUpdate noPtrDep noPred valueName under :
  function_ok M CG fuel F entry -> analyses_ok M FAM F entry height pheight -> fuel_ok M FAM fuel rounds F entry height pheight ->
  wf s -> unvisited M F s -> caches_ok M (postDominators (FAM F)) (list_to_set (mblocks M F)) c1 c2 -> built M CG F ->
  (forall X ds, domFrontier (FAM F) X = Some ds -> entry ∉ ds) ->
  exists s' c1' c2', buildSSA_function cfg opts M CG Regions MRA FAM fuel rounds F (s, c1, c2) = Ok (s', c1', c2') /\
    forall X real k m R d LI ptr SI val sptr,
      last_writes M F s' entry X real -> code_events M F s' X !! k = Some (Use m) -> mu_region_of s' m = Some R ->
      fold_left (step s') (take k (code_events M F s' X)) real !! Some R = Some d ->
      LoadI LI ptr ∈ code M X -> m ∈ at_owner s' loadToMuMap LI ->
      (exists b, (b, StoreI SI val sptr) ∈ minsts M F) -> d ∈ at_owner s' storeToChiMap SI ->
      tc (depends M CG s' src weakUpdate noPtrDep noPred valueName under) (LV val) (LV LI).
Proof.
  intros HF HA HFu Hwf HU Hc HFb Hdf.
  destruct (buildSSA_function_right cfg opts M CG Regions MRA FAM fuel rounds F entry height pheight HF HA HFu s c1 c2 Hwf HU Hc)
    as (s' & c1' & c2' & E & Hright & Honce & Hphi & _ & Hown).
  exists s', c1', c2'. split; [exact E|].
  intros X real k m R d LI ptr SI val sptr HX Hk Hm Hd HL Hmu (b & HSt) Hchi.
  assert (forall X Y, X ∈ mblocks M F -> Y ∈ successors (base M) X -> Y ∈ mblocks M F) as Hblocks.
  { intros X0 Y H0 HY. apply (an_blocks _ _ _ _ _ _ HA) in H0. apply (an_blocks _ _ _ _ _ _ HA).
    by destruct (tr_succ _ _ _ _ (an_tree _ _ _ _ _ _ HA) X0 Y H0 HY). }
  assert (entry ∈ mblocks M F) as Hentry by (apply (an_blocks _ _ _ _ _ _ HA); constructor).
  assert (forall p R, p ∈ phis s' entry -> region_of s' p <> Some R) as Hno.
  { intros p R0 Hp Er. destruct (proj1 (Hphi R0 entry Hentry)) as (_ & Z & _ & HZ); [by exists p|].
    assert (forall U Y, tc (df (domFrontier (FAM F))) U Y -> Y <> entry) as Hlast.
    { induction 1 as [U Y (ds & Eds & HY)|]; [|done]. intros ->. by destruct (Hdf U ds Eds). }
    by destruct (Hlast Z entry HZ). }
  destruct (path_writes M F s' entry (domChildren (FAM F)) Hright Hblocks Hentry Hno X real HX) as [HXb _].
  assert (used_once M F s' (domChildren (FAM F)) entry m) as Hom.
  { apply Honce with X; [done|apply elem_of_app; right; by eapply list_elem_of_lookup_2|]. left. intros Hret.
    by destruct (Hown _ _ _ _ _ Hmu Hret) as [? _]. }
  destruct (use_reads M F s' entry (domChildren (FAM F)) Hright Hblocks Hentry Hno X real k m R d HX Hk Hom Hm Hd) as (v & Hv & Hr).
  apply (tc_rtc_l _ (SV v)); [|apply tc_once; eapply R_inst; [exact HFb|by apply elem_of_minsts|by eapply R_load]].
  apply (rtc_l _ _ (SV d)); [eapply R_inst; [exact HFb|exact HSt|by eapply R_store]|].
  clear Hd Hv Hchi. induction Hr as [|x y z (Y & i & HY & Hp & Ei) _ IH]; [constructor|].
  eapply rtc_l; [|exact IH]. by eapply R_mem_phi.
Qed.

(** * Examples *)

#[export] Instance Event_eq_dec : EqDecision Event.
Proof. solve_decision. Defined.

(** In the diamond, on the path through the second store, the load depends on the
    value of that store. *)
Definition flow_result (r : res (MemorySSA * Cache * Cache)) : bool :=
  match r with
  | Ok (s', _, _) =>
      let real1 := fold_left (step s') (code_events memory_diamond 0 s' 0) (entry_env 0 s') in
      let real2 := fold_left (step s') (code_events memory_diamond 0 s' 1) real1 in
      bool_decide (code_events memory_diamond 0 s' 2 !! 0%nat = Some (Use 2)) && bool_decide (mu_region_of s' 2 = Some 20%N) &&
      bool_decide (real2 !! Some 20%N = Some 1%N) && bool_decide (2%N ∈ at_owner s' loadToMuMap 32) &&
      bool_decide (1%N ∈ at_owner s' storeToChiMap 31)
  | _ => false
  end.

Lemma stored_values_witness : exists s' c1' c2',
  @buildSSA_function omp_build omp_options memory_diamond no_calls diamond_regions no_effects own_region (fun _ => diamond_analyses)
    9 9 0%N (empty_ssa, ∅, ∅) = Ok (s', c1', c2') /\
  tc (depends memory_diamond no_calls s' no_sources false true true (fun _ => ""%string) (fun _ _ => False)) (LV 61) (LV 32).
Proof.
  destruct (stored_values_reach_loads omp_build omp_options memory_diamond no_calls diamond_regions no_effects own_region
    (fun _ => diamond_analyses) 9 9 0%N 0%N dom_height diamond_height empty_ssa ∅ ∅ no_sources false true true (fun _ => ""%string)
    (fun _ _ => False) memory_diamond_ok diamond_analyses_ok) as (s' & c1' & c2' & E & Hflow).
  - split; try (apply Nat.leb_le; vm_compute; reflexivity).
    intros b n _. unfold diamond_height, find_in. cbn [List.find]. destruct (N.eqb 2 n); [lia|]. destruct (N.eqb 9 n); lia.
  - apply empty_wf.
  - apply empty_unvisited.
  - split; intros b S0 H; by rewrite lookup_empty in H.
  - split; [apply list_elem_of_here|by split].
  - intros X ds. simpl. destruct (N.eqb X 1); intros [= <-]; [|apply not_elem_of_nil]. by intros ?%list_elem_of_singleton.
  - exists s', c1', c2'. split; [exact E|].
    assert (flow_result (@buildSSA_function omp_build omp_options memory_diamond no_calls diamond_regions no_effects own_region
      (fun _ => diamond_analyses) 9 9 0%N (empty_ssa, ∅, ∅)) = true) as H by (vm_compute; reflexivity).
    rewrite E in H. unfold flow_result in H. rewrite !andb_true_iff, !bool_decide_eq_true in H.
    destruct H as [[[[H1 H2] H3] H4] H5].
    eapply (Hflow 2%N _ 0 2%N 20%N 1%N 32%N 20%N 31%N 61%N 20%N);
      [eapply lw_step; [eapply lw_step; [constructor|]|]|exact H1|exact H2|exact H3| |exact H4| |exact H5].
    + apply list_elem_of_In. vm_compute. tauto.
    + apply list_elem_of_In. vm_compute. tauto.
    + apply list_elem_of_In. vm_compute. tauto.
    + exists 1%N. apply list_elem_of_In. vm_compute. tauto.
Defined.

(** [MPI_Comm_rank(comm, &r); if (r != 0) ...]: function 1 is [MPI_Comm_rank], [r]
    is the allocation 20, the comparison 23. *)
Definition rank_base : Module_ := {|
  functions := [0; 1];
  function := find_in {| getName := ""; blocks := [] |} [(0, mk_func "main" [0; 1; 2]); (1, mk_func "MPI_Comm_rank" [])];
  block := fun b => mk_block "%" (if N.eqb b 0 then [br (Some 23)] else if N.eqb b 1 then [br None] else [ReturnInst 24 None])
    (succs (block diamond b)) (preds (block diamond b));
  loadPointer := fun _ => None; callUsers := fun _ => [] |}%N.

Definition rank_program : MModule := {|
  base := rank_base;
  code := fun b => if N.eqb b 0 then
      [AllocaI 20;
       CallI 21 (Some 1) [{| opId := 50; opIsPointer := false; opIsIntToPtr := false |}; {| opId := 20; opIsPointer := true; opIsIntToPtr := false |}]
         false false;
       LoadI 22 20; OperandsI 23 [22; 51]; TerminatorI]
    else if N.eqb b 1 then [TerminatorI] else if N.eqb b 2 then [ReturnI 24] else [];
  formals := fun F => if N.eqb F 1 then [(100, false); (101, true)] else [];
  varArg := fun _ => false; returnsPointer := fun _ => false; returnsVoid := fun _ => true;
  instFunction := fun _ => Some 0 |}%N.

Definition rank_result : res (MemorySSA * Cache * Cache) :=
  @buildSSA omp_build omp_options rank_program no_calls diamond_regions no_effects own_region (fun _ => diamond_analyses) 9 9 ∅ ∅.
Definition rank_ssa : MemorySSA := Eval vm_compute in match rank_result with Ok (s, _, _) => s | _ => empty_ssa end.

Lemma rank_ssa_built : exists c1 c2, rank_result = Ok (rank_ssa, c1, c2).
Proof. eexists _, _. vm_compute. reflexivity. Qed.

Definition rank_sources : Sources := enableMPI no_sources.

Local Ltac in_cases H := apply list_elem_of_In in H; vm_compute in H; repeat (destruct H as [H|H]; [simplify_eq|]); try done.
Local Ltac known := eexists; vm_compute; reflexivity.

Lemma rank_built F : built rank_program no_calls F -> F = 0%N \/ F = 1%N.
Proof. intros (HF & _). in_cases HF; [left|right]; reflexivity. Qed.

Lemma rank_ext m F CS d : extChis rank_ssa !! (m, F, CS) = Some d ->
  F = 1%N /\ CS = 21%N /\ (m = extCallSiteToArgEntryChi 1 /\ d = 2%N \/ m = extCallSiteToArgExitChi 1 /\ d = 3%N).
Proof.
  assert (map_to_list (extChis rank_ssa) = [(extCallSiteToArgExitChi 1, 1, 21, 3); (extCallSiteToArgEntryChi 1, 1, 21, 2)]%N) as E
    by (vm_compute; reflexivity).
  intros H%elem_of_map_to_list. rewrite E, !elem_of_cons in H. clear E.
  destruct H as [[= -> -> -> ->]|[[= -> -> -> ->]|[]%not_elem_of_nil]]; [do 2 (split; [done|]); by right|do 2 (split; [done|]); by left].
Qed.

Lemma rank_complete : ext_complete rank_program rank_ssa 1 21.
Proof.
  split; [|done..]. intros [|[|i]] a; simpl; [done| |done]. intros [= <-].
  split; (eexists; split; [vm_compute; reflexivity|known]).
Qed.

Lemma rank_external F : built rank_program no_calls F -> isDecl rank_program F = true ->
  ext_function_provided rank_program rank_ssa rank_sources F.
Proof.
  intros [->| ->]%rank_built; [done|]. intros _. split.
  - intros m CS d (_ & _ & [[-> ->]|[-> ->]])%rank_ext; (split; [known|]); [done|]. split; known.
  - intros m CS d (_ & -> & _)%rank_ext. apply rank_complete.
  - intros CS HCS. assert (CS ∈ elements (default ∅ (extFuncToCSMap rank_ssa !! 1%N))) as H by (by apply elem_of_elements).
    in_cases H. apply rank_complete.
  - intros m i CS d Hm (_ & _ & [[-> _]|[-> _]])%rank_ext; destruct Hm; simplify_eq; by exists 101%N.
  - done.
  - done.
  - intros n Hn. in_cases Hn. by exists 101%N.
Qed.

Lemma rank_call : call_provided rank_program no_calls rank_ssa 21 (Some 1%N)
  [{| opId := 50; opIsPointer := false; opIsIntToPtr := false |}; {| opId := 20; opIsPointer := true; opIsIntToPtr := false |}].
Proof.
  split.
  - intros m Hm. in_cases Hm. eexists _, _. split; [vm_compute; reflexivity|]. split; [reflexivity|]. split; [|apply rank_complete].
    split; [by exists 101%N|]. by vm_compute; lia.
  - intros d Hd. in_cases Hd. split; [split; known|]. eexists. split; [vm_compute; reflexivity|]. split; [|apply rank_complete].
    split; [by exists 101%N|]. by vm_compute; lia.
  - intros C HC. in_cases HC.
  - intros C HC. in_cases HC.
  - intros C HC. in_cases HC.
  - intros C d HC. in_cases HC.
  - intros d Hd. in_cases Hd.
Qed.

Lemma rank_provides : ssa_provides rank_program no_calls rank_ssa rank_sources.
Proof.
  split.
  - intros F b p [->| ->]%rank_built Hb; in_cases Hb; intros Hp; in_cases Hp.
  - intros F b id ptr m [->| ->]%rank_built HI; in_cases HI. intros Hm. in_cases Hm.
  - intros F b id val ptr d [->| ->]%rank_built HI; in_cases HI.
  - intros F b CI Callee args p [->| ->]%rank_built HI; in_cases HI. apply rank_call.
  - intros F d [->| ->]%rank_built Hd; in_cases Hd. known.
  - apply rank_external.
Qed.

Lemma rank_blocks : blocks_ok rank_program no_calls diamond_PDT {[ 0; 1; 2 ]}%N diamond_height 9 9.
Proof.
  split.
  - destruct diamond_pdt_ok. by split.
  - intros b n _. unfold diamond_height, find_in. cbn [List.find]. destruct (N.eqb 2 n); [lia|]. destruct (N.eqb 9 n); lia.
  - apply Nat.ltb_lt. vm_compute. reflexivity.
  - intros b Hb. assert (b ∈ [0; 1; 2]%N) as Hb' by set_solver. in_cases Hb'; eexists; reflexivity.
  - intros F b [->| ->]%rank_built Hb; in_cases Hb; set_solver.
Qed.

Lemma rank_caches : caches_ok rank_program diamond_PDT {[ 0; 1; 2 ]}%N ∅ ∅.
Proof. split; intros b S0 H; by rewrite lookup_empty in H. Qed.

(** The argument of the call that [MPI_Comm_rank] sets is a source. *)
Lemma build_graph_witness : exists st,
  build_graph rank_program no_calls rank_ssa rank_sources false true true (fun _ => ""%string) 9 9 diamond_PDT (∅, ∅) = Ok st /\
  DepGraphPhi.child (edges (tables st)) (LV 22) (LV 23) /\ 3%N ∈ ssaSourceNodes (tables st).
Proof.
  destruct (build_graph_rules rank_program no_calls rank_ssa rank_sources false true true (fun _ => ""%string) diamond_PDT {[ 0; 1; 2 ]}%N
    diamond_height 9 9 (∅, ∅) rank_provides rank_blocks rank_caches) as (st & E & Hedge & Hsrc & _).
  exists st. split; [exact E|]. split.
  - apply Hedge. apply (R_inst _ _ _ _ _ _ _ _ _ 0%N 0%N (OperandsI 23 [22; 51]%N)).
    + split; [apply list_elem_of_here|by split].
    + apply list_elem_of_In. vm_compute. tauto.
    + constructor. apply list_elem_of_here.
  - apply Hsrc. apply (R_external _ _ _ _ _ _ _ _ _ 1%N).
    + split; [apply list_elem_of_further, list_elem_of_here|by split].
    + reflexivity.
    + apply (E_source _ _ _ _ 1%Z 21%N); [apply list_elem_of_In; vm_compute; tauto|vm_compute; reflexivity].
Defined.

(** The comparison of the rank is tainted, the constant it is compared with is not. *)
Definition rank_graph : res BuildState :=
  build_graph rank_program no_calls rank_ssa rank_sources false true true (fun _ => ""%string) 9 9 diamond_PDT (∅, ∅).
Definition rank_check (r : res BuildState) : bool :=
  match r with
  | Ok st =>
      let G := dgraph_of (tables st) in
      (size (ssaSources G) + size (valueSources G) + flood_bound (dg_graph G) <=? 50) &&
      match computeTaintedValuesContextInsensitive 50 G no_taint with
      | Ok t => isTaintedValue t 23 && negb (isTaintedValue t 51)
      | _ => false
      end
  | _ => false
  end.

Lemma rank_taint :
  let taint := program_taint rank_program no_calls rank_ssa rank_sources false true true (fun _ => ""%string) diamond_PDT {[ 0; 1; 2 ]}%N in
  taint (LV 23) /\ ~ taint (LV 51).
Proof.
  intros taint. destruct rank_blocks as [OK Hf Hr Ht Hb].
  destruct (build_graph_holds rank_program no_calls rank_ssa rank_sources false true true (fun _ => ""%string) 9 9 diamond_PDT
    {[ 0; 1; 2 ]}%N diamond_height rank_provides OK Hf Hr Ht Hb (∅, ∅) rank_caches) as (st & E & _ & H).
  assert (rank_check rank_graph = true) as HC by (vm_compute; reflexivity). unfold rank_graph in HC. rewrite E in HC.
  cbn [rank_check] in HC. apply andb_prop in HC as [Hsize%Nat.leb_le HC].
  destruct (flooding_taint 50 _ Hsize) as (t & Et & _ & Hv). rewrite Et in HC. apply andb_prop in HC as [H23 H51%negb_true_iff].
  split.
  - eapply graph_taint; [exact H|]. by apply Hv.
  - intros Hn. apply (graph_taint _ _ _ _ _ _ _ _ _ _ _ H), Hv in Hn. congruence.
Qed.

Lemma build_taint_witness : exists st t k,
  (forall turns, k <= turns -> build rank_program no_calls rank_ssa rank_sources false true true (fun _ => ""%string) 9 9 turns
     diamond_PDT true true (∅, ∅) = Ok (st, t)) /\ isTaintedValue t 23 = true /\ isTaintedValue t 51 = false.
Proof.
  destruct (build_taint rank_program no_calls rank_ssa rank_sources false true true (fun _ => ""%string) diamond_PDT {[ 0; 1; 2 ]}%N
    diamond_height 9 9 (∅, ∅) rank_provides rank_blocks rank_caches) as (st & t & k & E & Ht).
  exists st, t, k. split; [exact E|]. split; [apply Ht, rank_taint|]. apply not_true_is_false. intros H%Ht. by apply rank_taint in H.
Defined.
