(* ===== verification/DepGraphPath.v ===== *)
(** The search for a path that explains a taint (DepGraphDCF.cpp, dotTaintPath):
    breadth first from the condition back to a source, then forth along the levels
    of the search. *)
From S2P Require Import Prelude IR DepGraph DepGraphPhi DepGraphTaint.
#[local] Open Scope nat_scope.

(** * The search *)

(** The nodes visited, and those found at each distance. *)
Record Levels := {
  VisitedLlvmNodes : gset ValueId;
  VisitedSsaNodes : gset VarId;
  VisitedLlvmNodesByDist : list (gset ValueId);
  VisitedSsaNodesByDist : list (gset VarId)
}.

Section Path.
Context (G : DGraph) (t : Taint).

Definition value_parents (n : Node) : gset ValueId :=
  match n with LV v => at_key (llvmToLLVMParents (dg_graph G)) v | SV x => at_key (ssaToLLVMParents (dg_graph G)) x end.
Definition var_parents (n : Node) : gset VarId :=
  match n with LV v => at_key (llvmToSSAParents (dg_graph G)) v | SV x => at_key (ssaToSSAParents (dg_graph G)) x end.

(** [ByDist[d].insert(P)] for each [P] of [ps]: writing past the end of the vector
    is undefined. *)
Definition insert_level (d : nat) (ps : gset N) (ByDist : list (gset N)) : res (list (gset N)) :=
  if bool_decide (ps = ∅) then Ok ByDist
  else let* X := of_option (ByDist !! d) in Ok (<[d := ps ∪ X]> ByDist).

(** The parents of [n] that are tainted and not visited, into the level [d]. *)
Definition push_parents (d : nat) (n : Node) (st : Levels) : res Levels :=
  let* L := insert_level d (value_parents n ∖ VisitedLlvmNodes st ∩ taintedLLVMNodes t) (VisitedLlvmNodesByDist st) in
  let* X := insert_level d (var_parents n ∖ VisitedSsaNodes st ∩ taintedSSANodes t) (VisitedSsaNodesByDist st) in
  Ok {| VisitedLlvmNodes := VisitedLlvmNodes st; VisitedSsaNodes := VisitedSsaNodes st;
        VisitedLlvmNodesByDist := L; VisitedSsaNodesByDist := X |}.

Definition mark_visited (n : Node) (st : Levels) : Levels :=
  {| VisitedLlvmNodes := match n with LV v => {[ v ]} ∪ VisitedLlvmNodes st | SV _ => VisitedLlvmNodes st end;
     VisitedSsaNodes := match n with SV x => {[ x ]} ∪ VisitedSsaNodes st | LV _ => VisitedSsaNodes st end;
     VisitedLlvmNodesByDist := VisitedLlvmNodesByDist st; VisitedSsaNodesByDist := VisitedSsaNodesByDist st |}.

Definition found_source (n : Node) : bool :=
  match n with LV v => bool_decide (v ∈ valueSources G) | SV x => bool_decide (x ∈ ssaSources G) end.

(** The nodes of a level, until one of them is a source. *)
Fixpoint visit_nodes (d : nat) (ns : list Node) (st : Levels) : res (option Node * Levels) :=
  match ns with
  | [] => Ok (None, st)
  | n :: r =>
      if found_source n then Ok (Some n, mark_visited n st)
      else let* st' := push_parents (S d) n (mark_visited n st) in visit_nodes d r st'
  end.

(** One distance: its values, then its variables. *)
Definition visit_dist (d : nat) (st : Levels) : res (option Node * Levels) :=
  let* L := of_option (VisitedLlvmNodesByDist st !! d) in
  let* r := visit_nodes d (LV <$> in_order L) st in
  match r.1 with
  | Some _ => Ok r
  | None => let* X := of_option (VisitedSsaNodesByDist r.2 !! d) in visit_nodes d (SV <$> in_order X) r.2
  end.

Definition resize_levels (size : nat) (st : Levels) : Levels :=
  {| VisitedLlvmNodes := VisitedLlvmNodes st; VisitedSsaNodes := VisitedSsaNodes st;
     VisitedLlvmNodesByDist := resize size ∅ (VisitedLlvmNodesByDist st);
     VisitedSsaNodesByDist := resize size ∅ (VisitedSsaNodesByDist st) |}.

(** The [while (true)] loop: the distance and the source it stops at. *)
Fixpoint search_source (fuel CurDist CurSize : nat) (st : Levels) : res (nat * Node * Levels) :=
  match fuel with
  | O => OutOfFuel
  | S fuel' =>
      let full := CurSize <=? CurDist in
      let CurSize' := if full then CurSize * 2 else CurSize in
      let* r := visit_dist CurDist (if full then resize_levels CurSize' st else st) in
      match r.1 with
      | Some root => Ok (CurDist, root, r.2)
      | None => search_source fuel' (S CurDist) CurSize' r.2
      end
  end.

(** The levels before the loop: the parents of the condition at distance 0. *)
Definition CurSize0 : nat := 128.
Definition start_levels (V : ValueId) : res Levels :=
  push_parents 0 (LV V) {| VisitedLlvmNodes := {[ V ]}; VisitedSsaNodes := ∅;
    VisitedLlvmNodesByDist := replicate CurSize0 ∅; VisitedSsaNodesByDist := replicate CurSize0 ∅ |}.

(** * The path *)

Definition is_parent (a b : Node) : bool :=
  match a with LV v => bool_decide (v ∈ value_parents b) | SV x => bool_decide (x ∈ var_parents b) end.

(** [ByDist[I]], [I] an unsigned integer. *)
Definition level_at (I : Z) (ByDist : list (gset N)) : res (gset N) :=
  of_option (if (I <? Z.of_nat (length ByDist))%Z then ByDist !! Z.to_nat I else None).

(** The next node of the path: a child of the last one at distance [I], a variable
    before a value; the source asserts that there is one. *)
Definition next_node (I : Z) (last : Node) (st : Levels) : res Node :=
  let* X := level_at I (VisitedSsaNodesByDist st) in
  match List.find (is_parent last) (SV <$> in_order X) with
  | Some n => Ok n
  | None => let* L := level_at I (VisitedLlvmNodesByDist st) in
            of_option (List.find (is_parent last) (LV <$> in_order L))
  end.

Fixpoint path_from (fuel : nat) (I : Z) (last : Node) (st : Levels) : res (list Node) :=
  if (I =? 0)%Z then Ok [] else
  match fuel with
  | O => OutOfFuel
  | S fuel' => let* n := next_node I last st in let* p := path_from fuel' (I - 1) n st in Ok (n :: p)
  end.

(** The nodes [dotTaintPath] draws, from the source on, each with an edge to the
    next; the first index is [CurDist - 1] on 32 bits. *)
Definition dotTaintPath (fuel : nat) (V : ValueId) : res (list Node) :=
  let* st := start_levels V in
  let* r := search_source fuel 0 CurSize0 st in
  let '(CurDist, root, st') := r in
  let* p := path_from (length (VisitedSsaNodesByDist st')) (u32 (Z.of_nat CurDist - 1)) root st' in
  Ok (root :: p).
End Path.

(** * What the search computes *)

Section Spec.
Context (G : DGraph) (t : Taint).

(** The tainted parents of a node, and the nodes [k] of them away. *)
Definition tainted_parents (n : Node) : gset Node :=
  set_map LV (value_parents G n ∩ taintedLLVMNodes t) ∪ set_map SV (var_parents G n ∩ taintedSSANodes t).

Fixpoint back (V : ValueId) (k : nat) : gset Node :=
  match k with O => {[ LV V ]} | S k' => ⋃ (tainted_parents <$> elements (back V k')) end.

Lemma elem_back V k n : n ∈ back V (S k) <-> exists m, m ∈ back V k /\ n ∈ tainted_parents m.
Proof.
  cbn [back]. rewrite elem_of_union_list. split.
  - intros (X & HX & Hn). apply list_elem_of_fmap in HX as (m & -> & Hm%elem_of_elements). eauto.
  - intros (m & Hm & Hn). exists (tainted_parents m). split; [|done]. apply list_elem_of_fmap. exists m. by rewrite elem_of_elements.
Qed.

(** At distance [k] and not nearer. *)
Definition distance (V : ValueId) (n : Node) (k : nat) : Prop := n ∈ back V k /\ forall j, j < k -> n ∉ back V j.

Lemma distance_parent V n k : distance V n (S k) -> exists m, distance V m k /\ n ∈ tainted_parents m.
Proof.
  intros [(m & Hm & Hn)%elem_back Hmin]. exists m. split; [|done]. split; [done|].
  intros j Hj Hmj. apply (Hmin (S j)); [lia|]. apply elem_back. eauto.
Qed.

Lemma distance_prefix V n k j : distance V n k -> j <= k -> exists m, distance V m j.
Proof.
  intros Hn Hj. revert n Hn. induction Hj as [|k Hj IH]; intros n Hn; [eauto|].
  destruct (distance_parent _ _ _ Hn) as (m & Hm & _). eauto.
Qed.

Definition is_visited (st : Levels) (n : Node) : Prop :=
  match n with LV v => v ∈ VisitedLlvmNodes st | SV x => x ∈ VisitedSsaNodes st end.
Definition in_level (st : Levels) (k : nat) (n : Node) : Prop :=
  match n with
  | LV v => v ∈ default ∅ (VisitedLlvmNodesByDist st !! k)
  | SV x => x ∈ default ∅ (VisitedSsaNodesByDist st !! k)
  end.
Definition has_size (n : nat) (st : Levels) : Prop :=
  length (VisitedLlvmNodesByDist st) = n /\ length (VisitedSsaNodesByDist st) = n.

Lemma elem_tainted_parents n m : m ∈ tainted_parents n <->
  match m with LV v => v ∈ value_parents G n /\ v ∈ taintedLLVMNodes t | SV x => x ∈ var_parents G n /\ x ∈ taintedSSANodes t end.
Proof. unfold tainted_parents. destruct m; set_solver. Qed.

Lemma visited_mark n st m : is_visited (mark_visited n st) m <-> is_visited st m \/ m = n.
Proof. destruct n, m; simpl; set_solver. Qed.

Lemma level_lt st size k n : has_size size st -> in_level st k n -> k < size.
Proof.
  intros [HL HX] Hn. destruct (decide (k < size)) as [|Hk]; [done|]. exfalso.
  destruct n; simpl in Hn; rewrite lookup_ge_None_2 in Hn by lia; simpl in Hn; set_solver.
Qed.

(** * One node *)

Lemma insert_level_spec d ps l l' : insert_level d ps l = Ok l' ->
  length l' = length l /\ forall k x, x ∈ default ∅ (l' !! k) <-> x ∈ default ∅ (l !! k) \/ k = d /\ x ∈ ps.
Proof.
  unfold insert_level. case_bool_decide as E; [intros [= <-]; split; [done|]; set_solver|].
  destruct (l !! d) as [X|] eqn:Hd; simpl; [|done]. intros [= <-]. split; [apply length_insert|]. intros k x.
  destruct (decide (k = d)) as [->|Hk].
  - rewrite list_lookup_insert_eq by (by eapply lookup_lt_Some). rewrite Hd. simpl. set_solver.
  - rewrite list_lookup_insert_ne by done. naive_solver.
Qed.

Lemma insert_level_ok d ps l : d < length l -> exists l', insert_level d ps l = Ok l'.
Proof. intros Hd. unfold insert_level. case_bool_decide; [eauto|]. destruct (lookup_lt_is_Some_2 l d Hd) as [X ->]. eauto. Qed.

Lemma push_parents_spec d n st st' : push_parents G t d n st = Ok st' ->
  (forall m, is_visited st' m <-> is_visited st m) /\ (forall size, has_size size st -> has_size size st') /\
  (forall k m, in_level st' k m <-> in_level st k m \/ k = d /\ m ∈ tainted_parents n /\ ~ is_visited st m).
Proof.
  unfold push_parents. intros (L & HL & (X & HX & [= <-])%rbind_ok)%rbind_ok.
  apply insert_level_spec in HL as [HL1 HL2]. apply insert_level_spec in HX as [HX1 HX2].
  split; [by intros []|]. split; [intros size [? ?]; split; simpl; congruence|].
  intros k [v|x]; simpl; rewrite ?HL2, ?HX2, elem_tainted_parents; set_solver.
Qed.

Lemma push_parents_ok d n st size : has_size size st -> d < size -> exists st', push_parents G t d n st = Ok st'.
Proof.
  intros [HL HX] Hd. unfold push_parents. destruct (insert_level_ok d (value_parents G n ∖ VisitedLlvmNodes st ∩ taintedLLVMNodes t)
    (VisitedLlvmNodesByDist st)) as [L ->]; [lia|]. simpl.
  destruct (insert_level_ok d (var_parents G n ∖ VisitedSsaNodes st ∩ taintedSSANodes t) (VisitedSsaNodesByDist st)) as [X ->]; [lia|].
  simpl. eauto.
Qed.

(** * One distance *)

(** What visiting the nodes [ns] of the distance [d] does. *)
Record visits (d : nat) (ns : list Node) (st st' : Levels) : Prop := {
  vs_visited : forall n, is_visited st' n <-> is_visited st n \/ n ∈ ns;
  vs_size : forall size, has_size size st -> has_size size st';
  vs_other : forall k n, k <> S d -> in_level st' k n <-> in_level st k n;
  vs_old : forall n, in_level st (S d) n -> in_level st' (S d) n;
  vs_new : forall n, in_level st' (S d) n -> in_level st (S d) n \/ exists m, m ∈ ns /\ n ∈ tainted_parents m /\ ~ is_visited st n;
  vs_all : forall m n, m ∈ ns -> n ∈ tainted_parents m -> ~ is_visited st n -> n ∉ ns -> in_level st' (S d) n
}.

Lemma visits_nil d st : visits d [] st st.
Proof. split; set_solver. Qed.

Lemma visits_push d n st st' : push_parents G t (S d) n (mark_visited n st) = Ok st' -> visits d [n] st st'.
Proof.
  intros (Hv & Hs & Hl)%push_parents_spec.
  assert (forall k m, in_level (mark_visited n st) k m <-> in_level st k m) as Hm by (by intros k []).
  split.
  - intros m. rewrite Hv, visited_mark, list_elem_of_singleton. done.
  - intros size H. by apply Hs.
  - intros k m Hk. rewrite Hl, Hm. naive_solver.
  - intros m H. apply Hl. left. by apply Hm.
  - intros m. rewrite Hl, Hm, visited_mark. setoid_rewrite list_elem_of_singleton. naive_solver.
  - intros m m' ->%list_elem_of_singleton Hp Hn Hne. apply Hl. right. rewrite visited_mark. set_solver.
Qed.

Lemma visits_app d ns ns' st st1 st2 : visits d ns st st1 -> visits d ns' st1 st2 -> visits d (ns ++ ns') st st2.
Proof.
  intros H1 H2. split.
  - intros n. rewrite (vs_visited _ _ _ _ H2), (vs_visited _ _ _ _ H1), elem_of_app. tauto.
  - intros size H. apply (vs_size _ _ _ _ H2), (vs_size _ _ _ _ H1), H.
  - intros k n Hk. rewrite (vs_other _ _ _ _ H2) by done. by apply (vs_other _ _ _ _ H1).
  - intros n H. by apply (vs_old _ _ _ _ H2), (vs_old _ _ _ _ H1).
  - intros n [H|(m & Hm & Hn & Hv)]%(vs_new _ _ _ _ H2).
    + apply (vs_new _ _ _ _ H1) in H as [H|(m & Hm & Hn & Hv)]; [by left|]. right. exists m. rewrite elem_of_app. auto.
    + rewrite (vs_visited _ _ _ _ H1) in Hv. right. exists m. rewrite elem_of_app. tauto.
  - intros m n [Hm|Hm]%elem_of_app Hn Hv Hne; rewrite elem_of_app in Hne.
    + apply (vs_old _ _ _ _ H2). apply (vs_all _ _ _ _ H1 m); tauto.
    + apply (vs_all _ _ _ _ H2 m); try tauto. rewrite (vs_visited _ _ _ _ H1). tauto.
Qed.
Lemma visit_nodes_spec d ns : forall st o st', visit_nodes G t d ns st = Ok (o, st') ->
  match o with
  | None => visits d ns st st' /\ forall n, n ∈ ns -> found_source G n = false
  | Some s => found_source G s = true /\ s ∈ ns /\ exists ns1 st1, visits d ns1 st st1 /\ st' = mark_visited s st1
  end.
Proof.
  induction ns as [|n ns IH]; intros st o st'; cbn [visit_nodes].
  - intros [= <- <-]. split; [apply visits_nil|set_solver].
  - destruct (found_source G n) eqn:En.
    + intros [= <- <-]. split; [done|]. split; [by apply list_elem_of_here|]. exists [], st. split; [apply visits_nil|done].
    + intros (st1 & Hp & H)%rbind_ok. apply visits_push in Hp. apply IH in H. destruct o as [s|].
      * destruct H as (Hs & Hin & ns1 & st2 & Hv & ->). split; [done|]. split; [by apply list_elem_of_further|].
        exists ([n] ++ ns1), st2. split; [by eapply visits_app|done].
      * destruct H as [Hv Hno]. split; [by apply (visits_app d [n] ns st st1)|].
        intros m [->|Hm]%elem_of_cons; [done|by apply Hno].
Qed.

Lemma visit_nodes_ok d size ns : S d < size -> forall st, has_size size st -> exists r, visit_nodes G t d ns st = Ok r.
Proof.
  intros Hd. induction ns as [|n ns IH]; intros st Hs; cbn [visit_nodes]; [eauto|]. destruct (found_source G n); [eauto|].
  assert (has_size size (mark_visited n st)) as Hm by done. destruct (push_parents_ok (S d) n _ _ Hm Hd) as [st' E].
  rewrite E. simpl. apply IH. apply push_parents_spec in E as (_ & H & _). by apply H.
Qed.

Lemma visits_levels d ns st st' k n : visits d ns st st' -> k <> S d -> in_level st' k n <-> in_level st k n.
Proof. intros H Hk. by apply (vs_other _ _ _ _ H). Qed.

Lemma visit_dist_spec d st o st' : visit_dist G t d st = Ok (o, st') ->
  match o with
  | None => exists ns, (forall n, n ∈ ns <-> in_level st d n) /\ visits d ns st st' /\ forall n, n ∈ ns -> found_source G n = false
  | Some s => found_source G s = true /\ in_level st d s /\ (forall size, has_size size st -> has_size size st') /\
              forall k n, k <> S d -> in_level st' k n <-> in_level st k n
  end.
Proof.
  unfold visit_dist. destruct (VisitedLlvmNodesByDist st !! d) as [L|] eqn:HL; [|done]. cbn [of_option rbind].
  intros ([o1 st1] & H1 & H)%rbind_ok. cbn [fst snd] in H. apply visit_nodes_spec in H1.
  assert (forall n, n ∈ LV <$> in_order L -> in_level st d n) as HinL.
  { intros n (v & -> & Hv%elem_of_in_order)%list_elem_of_fmap. simpl. by rewrite HL. }
  destruct o1 as [s|].
  - injection H as <- <-. destruct H1 as (Hs & Hin & ns1 & st2 & Hv & ->). split; [done|]. split; [by apply HinL|].
    split; [intros size Hsz; exact (vs_size _ _ _ _ Hv size Hsz)|].
    intros k n Hk. rewrite <- (visits_levels _ _ _ _ k n Hv Hk). by destruct n.
  - destruct H1 as [Hv1 Hno1]. destruct (VisitedSsaNodesByDist st1 !! d) as [X|] eqn:HX; [|done]. cbn [of_option rbind] in H.
    assert (forall n, n ∈ SV <$> in_order X -> in_level st d n) as HinX.
    { intros n (x & -> & Hx%elem_of_in_order)%list_elem_of_fmap. apply (visits_levels _ _ _ _ d (SV x) Hv1); [lia|]. simpl. by rewrite HX. }
    apply visit_nodes_spec in H. destruct o as [s|].
    + destruct H as (Hs & Hin & ns1 & st2 & Hv & ->). split; [done|]. split; [by apply HinX|].
      split; [intros size Hsz; exact (vs_size _ _ _ _ Hv size (vs_size _ _ _ _ Hv1 size Hsz))|].
      intros k n Hk. rewrite <- (visits_levels _ _ _ _ k n Hv1 Hk), <- (visits_levels _ _ _ _ k n Hv Hk). by destruct n.
    + destruct H as [Hv2 Hno2]. exists ((LV <$> in_order L) ++ (SV <$> in_order X)). split.
      * intros n. rewrite elem_of_app. split; [intros [?|?]; auto|]. destruct n as [v|x]; intros Hn.
        -- left. apply list_elem_of_fmap. exists v. split; [done|]. apply elem_of_in_order. simpl in Hn. by rewrite HL in Hn.
        -- right. apply (visits_levels _ _ _ _ d (SV x) Hv1) in Hn; [|lia]. apply list_elem_of_fmap. exists x. split; [done|].
           apply elem_of_in_order. simpl in Hn. by rewrite HX in Hn.
      * split; [by eapply visits_app|]. intros n [Hn|Hn]%elem_of_app; auto.
Qed.

Lemma visit_dist_ok d size st : has_size size st -> S d < size -> exists r, visit_dist G t d st = Ok r.
Proof.
  intros Hs Hd. unfold visit_dist. destruct (lookup_lt_is_Some_2 (VisitedLlvmNodesByDist st) d) as [L ->]; [destruct Hs; lia|].
  cbn [of_option rbind]. destruct (visit_nodes_ok d size (LV <$> in_order L) Hd st Hs) as [[o st1] E]. rewrite E. cbn [rbind fst snd].
  destruct o as [s|]; [eauto|]. apply visit_nodes_spec in E as [Hv _]. apply (vs_size _ _ _ _ Hv) in Hs.
  destruct (lookup_lt_is_Some_2 (VisitedSsaNodesByDist st1) d) as [X ->]; [destruct Hs; lia|]. cbn [of_option rbind].
  by apply (visit_nodes_ok d size).
Qed.

(** * The loop *)

(** What is known when the loop comes to the distance [d]. *)
Record searched (V : ValueId) (d : nat) (st : Levels) : Prop := {
  sd_visited : forall n, is_visited st n <-> n = LV V \/ exists k, k < d /\ in_level st k n;
  sd_back : forall k n, in_level st k n -> n ∈ back V (S k);
  sd_all : forall k n, k <= d -> distance V n (S k) -> in_level st k n;
  sd_from : forall k n, in_level st (S k) n -> exists m, in_level st k m /\ n ∈ tainted_parents m;
  sd_later : forall k n, d < k -> ~ in_level st k n;
  sd_sources : forall k n, k < d -> in_level st k n -> found_source G n = false;
  sd_condition : forall k, ~ in_level st k (LV V)
}.

Lemma distance_not_visited V d st n : searched V d st -> distance V n (S (S d)) ->
  ~ is_visited st n /\ forall k, k <= d -> ~ in_level st k n.
Proof.
  intros H [_ Hmin].
  assert (forall k, k <= d -> ~ in_level st k n) as Hl by (intros k Hk Hn%(sd_back _ _ _ H); apply (Hmin (S k)); [lia|done]).
  split; [|done]. intros [->|(k & Hk & Hn)]%(sd_visited _ _ _ H).
  - apply (Hmin 0); [lia|]. simpl. set_solver.
  - apply (Hl k); [lia|done].
Qed.

Lemma searched_visits V d ns st st' : searched V d st -> (forall n, n ∈ ns <-> in_level st d n) -> visits d ns st st' ->
  (forall n, n ∈ ns -> found_source G n = false) -> searched V (S d) st'.
Proof.
  intros H Hns Hv Hno.
  assert (forall k n, k <= d -> in_level st' k n <-> in_level st k n) as Hle
    by (intros k n Hk; apply (visits_levels _ _ _ _ k n Hv); lia).
  assert (forall n, in_level st' (S d) n -> exists m, in_level st d m /\ n ∈ tainted_parents m /\ ~ is_visited st n) as Hnew.
  { intros n [Hn|(m & Hm%Hns & ?)]%(vs_new _ _ _ _ Hv); [by apply (sd_later _ _ _ H) in Hn; [|lia]|eauto]. }
  assert (forall k n, S d < k -> ~ in_level st' k n) as Hgt.
  { intros k n Hk Hn. apply (visits_levels _ _ _ _ k n Hv) in Hn; [|lia]. apply (sd_later _ _ _ H) in Hn; [done|lia]. }
  split.
  - intros n. rewrite (vs_visited _ _ _ _ Hv), (sd_visited _ _ _ H), Hns. split.
    + intros [[->|(k & Hk & Hn)]|Hn]; [by left|right; exists k; rewrite Hle by lia; split; [lia|done]|right; exists d; rewrite Hle by lia; auto].
    + intros [->|(k & Hk & Hn)]; [by left; left|]. rewrite Hle in Hn by lia. destruct (decide (k = d)) as [->|]; [by right|].
      left. right. exists k. split; [lia|done].
  - intros k n Hn. destruct (decide (k <= d)) as [Hk|Hk]; [apply (sd_back _ _ _ H), Hle; done|].
    destruct (decide (k = S d)) as [->|]; [|exfalso; apply (Hgt k n); [lia|done]].
    apply Hnew in Hn as (m & Hm & Hp & _). apply elem_back. exists m. split; [by apply (sd_back _ _ _ H)|done].
  - intros k n Hk Hd. destruct (decide (k <= d)) as [Hk'|Hk']; [apply Hle; [done|]; by apply (sd_all _ _ _ H)|].
    assert (k = S d) as -> by lia. destruct (distance_parent _ _ _ Hd) as (m & Hm & Hp).
    apply (sd_all _ _ _ H) in Hm; [|lia]. destruct (distance_not_visited _ _ _ _ H Hd) as [Hnv Hnl].
    apply (vs_all _ _ _ _ Hv m); [by apply Hns|done|done|]. rewrite Hns. by apply Hnl.
  - intros k n Hn. destruct (decide (S k <= d)) as [Hk|Hk].
    + rewrite Hle in Hn by done. apply (sd_from _ _ _ H) in Hn as (m & Hm & Hp). exists m. rewrite Hle by lia. done.
    + destruct (decide (k = d)) as [->|]; [|exfalso; apply (Hgt (S k) n); [lia|done]].
      apply Hnew in Hn as (m & Hm & Hp & _). exists m. by rewrite Hle.
  - exact Hgt.
  - intros k n Hk Hn. rewrite Hle in Hn by lia. destruct (decide (k = d)) as [->|]; [by apply Hno, Hns|].
    apply (sd_sources _ _ _ H k); [lia|done].
  - intros k Hn. destruct (decide (k = S d)) as [->|].
    + apply Hnew in Hn as (_ & _ & _ & Hnv). apply Hnv, (sd_visited _ _ _ H). by left.
    + apply (visits_levels _ _ _ _ k _ Hv) in Hn; [|done]. by apply (sd_condition _ _ _ H k).
Qed.

Lemma resize_at size (l : list (gset N)) k : length l <= size -> default ∅ (resize size ∅ l !! k) = default ∅ (l !! k).
Proof.
  intros Hs. destruct (decide (k < length l)); [by rewrite lookup_resize by lia|].
  rewrite (lookup_ge_None_2 l) by lia. destruct (decide (k < size)); [by rewrite lookup_resize_new by lia|].
  by rewrite lookup_resize_old by lia.
Qed.

Lemma resize_levels_spec size size' st : size' <= size -> has_size size' st ->
  has_size size (resize_levels size st) /\ (forall n, is_visited (resize_levels size st) n <-> is_visited st n) /\
  forall k n, in_level (resize_levels size st) k n <-> in_level st k n.
Proof.
  intros Hle [HL HX]. split; [split; simpl; by rewrite length_resize|]. split; [by intros []|].
  intros k []; simpl; by rewrite resize_at by lia.
Qed.

Lemma searched_ext V d st st' : (forall n, is_visited st' n <-> is_visited st n) ->
  (forall k n, in_level st' k n <-> in_level st k n) -> searched V d st -> searched V d st'.
Proof.
  intros Hv Hl H. split; intros *; rewrite ?Hv, ?Hl.
  - setoid_rewrite Hl. apply (sd_visited _ _ _ H).
  - apply (sd_back _ _ _ H).
  - apply (sd_all _ _ _ H).
  - setoid_rewrite Hl. apply (sd_from _ _ _ H).
  - apply (sd_later _ _ _ H).
  - apply (sd_sources _ _ _ H).
  - apply (sd_condition _ _ _ H).
Qed.

(** The levels a turn of the loop works on. *)
Definition grown (CurDist CurSize : nat) (st : Levels) : Levels :=
  if CurSize <=? CurDist then resize_levels (CurSize * 2) st else st.
Definition grown_size (CurDist CurSize : nat) : nat := if CurSize <=? CurDist then CurSize * 2 else CurSize.

Lemma grown_spec V d size st : searched V d st -> has_size size st ->
  searched V d (grown d size st) /\ has_size (grown_size d size) (grown d size st).
Proof.
  intros H Hs. unfold grown, grown_size. destruct (size <=? d); [|done].
  destruct (resize_levels_spec (size * 2) size st) as (H1 & H2 & H3); [lia|done|]. split; [by eapply searched_ext|done].
Qed.

(** The nearest source other than the condition is at distance [d + 1]. *)
Definition nearest_source (V : ValueId) (d : nat) : Prop :=
  (exists s, s ∈ back V (S d) /\ found_source G s = true /\ s <> LV V) /\
  forall k s, k <= d -> s ∈ back V k -> found_source G s = true -> s = LV V.

Lemma nearest_distance V d s k : nearest_source V d -> s ∈ back V (S k) -> k <= d -> found_source G s = true -> s <> LV V ->
  k = d /\ distance V s (S d).
Proof.
  intros [_ Hmin] Hb Hk Hs Hne. assert (k = d) as ->.
  { destruct (decide (k = d)); [done|]. exfalso. apply Hne, (Hmin (S k)); [lia|done..]. }
  split; [done|]. split; [done|]. intros j Hj Hbj. apply Hne, (Hmin j); [lia|done..].
Qed.

(** What the loop leaves: the levels up to the distance of the source it found. *)
Record found_at (V : ValueId) (d : nat) (root : Node) (st : Levels) : Prop := {
  fa_source : found_source G root = true;
  fa_root : in_level st d root;
  fa_back : forall k n, k <= d -> in_level st k n -> n ∈ back V (S k);
  fa_from : forall k n, S k <= d -> in_level st (S k) n -> exists m, in_level st k m /\ n ∈ tainted_parents m;
  fa_size : has_size (length (VisitedSsaNodesByDist st)) st;
  fa_nearest : nearest_source V d
}.

(** A turn that finds a source. *)
Lemma turn_found V d size st root st' : searched V d st -> has_size size st -> visit_dist G t d st = Ok (Some root, st') ->
  found_at V d root st'.
Proof.
  intros H Hs (Hroot & Hl & Hsz & Hk)%visit_dist_spec. split.
  - done.
  - apply Hk; [lia|done].
  - intros k n Hkd. rewrite Hk by lia. apply (sd_back _ _ _ H).
  - intros k n Hkd. rewrite Hk by lia. setoid_rewrite Hk; [|lia]. apply (sd_from _ _ _ H).
  - destruct (Hsz size Hs) as [HL HX]. by split; [congruence|].
  - split; [exists root; split; [by apply (sd_back _ _ _ H)|split; [done|]]; intros ->; by apply (sd_condition _ _ _ H d)|].
    intros k s. revert s. induction k as [k IH] using lt_wf_ind. intros s Hkd Hb Hsrc.
    destruct k as [|k]; [cbn [back] in Hb; set_solver|].
    destruct (decide (s = LV V)) as [|Hne]; [done|]. exfalso.
    assert (distance V s (S k)) as Hdist.
    { split; [done|]. intros j Hj Hbj. apply Hne, (IH j); [lia|lia|done..]. }
    apply (sd_all _ _ _ H) in Hdist; [|lia]. apply (sd_sources _ _ _ H) in Hdist; [congruence|lia].
Qed.

(** A turn that finds none. *)
Lemma turn_none V d size st st' : searched V d st -> has_size size st -> visit_dist G t d st = Ok (None, st') ->
  searched V (S d) st' /\ has_size size st'.
Proof.
  intros H Hs (ns & Hns & Hv & Hno)%visit_dist_spec. split; [by eapply searched_visits|by apply (vs_size _ _ _ _ Hv)].
Qed.

Lemma search_step fuel d size st : search_source G t (S fuel) d size st =
  let* r := visit_dist G t d (grown d size st) in
  match r.1 with Some root => Ok (d, root, r.2) | None => search_source G t fuel (S d) (grown_size d size) r.2 end.
Proof. cbn [search_source]. unfold grown, grown_size. by destruct (size <=? d). Qed.

(** Whatever the fuel, what the loop returns is a nearest source. *)
Lemma search_sound fuel : forall V d size st d' root st', searched V d st -> has_size size st ->
  search_source G t fuel d size st = Ok (d', root, st') -> found_at V d' root st'.
Proof.
  induction fuel as [|fuel IH]; intros V d size st d' root st' H Hs; [done|]. rewrite search_step.
  destruct (grown_spec V d size st H Hs) as [Hg Hgs]. intros ([o st1] & E & Hr)%rbind_ok. cbn [fst snd] in Hr. destruct o as [s|].
  - injection Hr as <- <- <-. by apply (turn_found V d (grown_size d size) (grown d size st)).
  - destruct (turn_none V d (grown_size d size) (grown d size st) st1 Hg Hgs E) as [H1 Hs1]. by apply (IH V (S d) (grown_size d size) st1).
Qed.

Lemma nearest_node V d : nearest_source V d -> exists s, found_source G s = true /\ distance V s (S d).
Proof.
  intros [(s & Hb & Hsrc & Hns) Hmin]. exists s. split; [done|]. split; [done|]. intros j Hj Hbj. apply Hns, (Hmin j); [lia|done..].
Qed.

Lemma nearest_later V d d' st : searched V d st -> nearest_source V d' -> d <= d'.
Proof.
  intros H (s & Hsrc & Hdist)%nearest_node. destruct (decide (d <= d')) as [|Hlt]; [done|exfalso].
  apply (sd_all _ _ _ H) in Hdist; [|lia]. apply (sd_sources _ _ _ H) in Hdist; [congruence|lia].
Qed.

(** Below the first end of the vectors the loop comes to the nearest source. *)
Lemma search_complete fuel : forall V d D st, searched V d st -> has_size CurSize0 st -> nearest_source V D -> d <= D ->
  D < CurSize0 - 1 -> D - d < fuel -> exists root st', search_source G t fuel d CurSize0 st = Ok (D, root, st').
Proof.
  induction fuel as [|fuel IH]; intros V d D st H Hs HD Hd HD1 Hf; [lia|]. rewrite search_step.
  assert ((CurSize0 <=? d) = false) as E by (apply Nat.leb_gt; lia). unfold grown, grown_size. rewrite E.
  destruct (visit_dist_ok d CurSize0 st Hs) as [[o st1] E1]; [lia|]. rewrite E1. cbn [rbind fst snd]. destruct o as [root|].
  - pose proof (turn_found V d CurSize0 st root st1 H Hs E1) as Hf1.
    destruct (nearest_distance V D root d HD) as [-> _]; [apply (fa_back _ _ _ _ Hf1); [done|apply (fa_root _ _ _ _ Hf1)]|done|
      apply (fa_source _ _ _ _ Hf1)| |eauto].
    intros ->. apply visit_dist_spec in E1 as (_ & Hl & _). by apply (sd_condition _ _ _ H d).
  - destruct (turn_none V d CurSize0 st st1 H Hs E1) as [H1 Hs1].
    destruct (decide (d = D)) as [->|Hne]; [exfalso|apply (IH V); [done..|lia|lia|lia]].
    pose proof (nearest_later _ _ _ _ H1 HD). lia.
Qed.

(** Past it, never. *)
Lemma search_too_far fuel : forall V d st d' root st', searched V d st -> has_size CurSize0 st -> d <= CurSize0 - 1 ->
  search_source G t fuel d CurSize0 st = Ok (d', root, st') -> d' < CurSize0 /\ has_size CurSize0 st'.
Proof.
  induction fuel as [|fuel IH]; intros V d st d' root st' H Hs Hd; [done|]. rewrite search_step.
  assert ((CurSize0 <=? d) = false) as E by (apply Nat.leb_gt; unfold CurSize0 in *; lia). unfold grown, grown_size. rewrite E.
  intros ([o st1] & E1 & Hr)%rbind_ok. cbn [fst snd] in Hr. destruct o as [s|].
  { injection Hr as <- <- <-. apply visit_dist_spec in E1 as (_ & _ & Hsz & _). split; [unfold CurSize0 in *; lia|by apply Hsz]. }
  destruct (turn_none V d CurSize0 st st1 H Hs E1) as [H1 Hs1].
  destruct (decide (S d <= CurSize0 - 1)) as [|Hlast]; [by apply (IH V (S d) st1 d' root st')|].
  pose proof (search_sound fuel V (S d) CurSize0 st1 d' root st' H1 Hs1 Hr) as Hfa.
  exfalso. pose proof (nearest_later _ _ _ _ H1 (fa_nearest _ _ _ _ Hfa)) as Hfar.
  destruct (nearest_node _ _ (fa_nearest _ _ _ _ Hfa)) as (s & _ & Hdist).
  destruct (distance_prefix V s (S d') (S (S d)) Hdist) as [m Hm]; [unfold CurSize0 in *; lia|].
  apply (sd_all _ _ _ H1) in Hm; [|lia]. apply (level_lt _ _ _ _ Hs1) in Hm. unfold CurSize0 in *. lia.
Qed.

Lemma replicate_at n k : default ∅ (replicate n (∅ : gset N) !! k) = ∅.
Proof.
  destruct (decide (k < n)); [by rewrite lookup_replicate_2|]. rewrite lookup_ge_None_2; [done|]. rewrite length_replicate. lia.
Qed.

Lemma start_levels_spec V : exists st, start_levels G t V = Ok st /\ searched V 0 st /\ has_size CurSize0 st.
Proof.
  unfold start_levels. set (st0 := {| VisitedLlvmNodes := {[ V ]}; VisitedSsaNodes := ∅;
    VisitedLlvmNodesByDist := replicate CurSize0 ∅; VisitedSsaNodesByDist := replicate CurSize0 ∅ |}).
  assert (has_size CurSize0 st0) as Hs0 by (split; apply length_replicate).
  destruct (push_parents_ok 0 (LV V) st0 CurSize0 Hs0) as [st E]; [unfold CurSize0; lia|]. exists st. split; [done|].
  apply push_parents_spec in E as (Hv & Hs & Hl). split; [|by apply Hs].
  assert (forall n, is_visited st0 n <-> n = LV V) as Hv0 by (intros []; simpl; set_solver).
  assert (forall k n, ~ in_level st0 k n) as Hl0.
  { intros k n. destruct n; cbn [in_level st0 VisitedLlvmNodesByDist VisitedSsaNodesByDist]; rewrite replicate_at; apply not_elem_of_empty. }
  assert (forall k n, in_level st k n <-> k = 0 /\ n ∈ tainted_parents (LV V) /\ n <> LV V) as Hlv.
  { intros k n. rewrite Hl, Hv0. split; [intros [?%Hl0|?]; done|by right]. }
  split; intros *; rewrite ?Hlv.
  - rewrite Hv, Hv0. split; [by left|]. intros [?|(k & Hk & _)]; [done|lia].
  - intros (-> & Hn & _). apply elem_back. exists (LV V). split; [cbn [back]; set_solver|done].
  - intros Hk [(m & Hm & Hn)%elem_back Hmin]. assert (k = 0) as -> by lia. split; [done|]. split.
    + cbn [back] in Hm. by assert (m = LV V) as -> by set_solver.
    + intros ->. apply (Hmin 0); [lia|]. cbn [back]. set_solver.
  - lia.
  - lia.
  - lia.
  - naive_solver.
Qed.

(** * The path *)

Lemma is_parent_spec a b : is_parent G a b = true <-> parent (dg_graph G) a b.
Proof. destruct a, b; apply bool_decide_eq_true. Qed.

Lemma level_at_lt (I : nat) (l : list (gset N)) : I < length l -> exists X, level_at (Z.of_nat I) l = Ok X /\ l !! I = Some X.
Proof.
  intros HI. unfold level_at. rewrite (proj2 (Z.ltb_lt _ _)) by lia. rewrite Nat2Z.id.
  destruct (lookup_lt_is_Some_2 l I HI) as [X HX]. exists X. by rewrite HX.
Qed.

Lemma find_some_or (f : Node -> bool) l n : n ∈ l -> f n = true -> exists m, List.find f l = Some m.
Proof.
  intros Hn Hf. destruct (List.find f l) as [m|] eqn:E; [eauto|]. exfalso.
  rewrite (List.find_none f l E n) in Hf; [done|]. by apply list_elem_of_In.
Qed.

Lemma next_node_spec I st last m : has_size (length (VisitedSsaNodesByDist st)) st -> in_level st I m -> parent (dg_graph G) last m ->
  exists n, next_node G (Z.of_nat I) last st = Ok n /\ in_level st I n /\ parent (dg_graph G) last n.
Proof.
  intros Hs Hm Hp. pose proof (level_lt _ _ _ _ Hs Hm) as HI. destruct Hs as [HL HX]. apply is_parent_spec in Hp.
  unfold next_node. destruct (level_at_lt I (VisitedSsaNodesByDist st)) as (X & -> & EX); [lia|]. cbn [rbind].
  destruct (List.find _ (SV <$> in_order X)) as [n|] eqn:E.
  - apply List.find_some in E as [Hn%list_elem_of_In Hpn]. exists n. split; [done|]. split; [|by apply is_parent_spec].
    apply list_elem_of_fmap in Hn as (x & -> & Hx%elem_of_in_order). simpl. by rewrite EX.
  - destruct (level_at_lt I (VisitedLlvmNodesByDist st)) as (L & -> & EL); [lia|]. cbn [rbind].
    destruct m as [v|x]; simpl in Hm; [rewrite EL in Hm|rewrite EX in Hm]; cbn [default] in Hm; unfold id in Hm.
    + destruct (find_some_or (is_parent G last) (LV <$> in_order L) (LV v)) as [n En]; [|done|].
      { apply list_elem_of_fmap. exists v. by rewrite elem_of_in_order. }
      rewrite En. exists n. split; [done|]. apply List.find_some in En as [Hn%list_elem_of_In Hpn].
      split; [|by apply is_parent_spec]. apply list_elem_of_fmap in Hn as (y & -> & Hy%elem_of_in_order). simpl. by rewrite EL.
    + rewrite (List.find_none _ _ E (SV x)) in Hp; [done|]. apply list_elem_of_In, list_elem_of_fmap. exists x. by rewrite elem_of_in_order.
Qed.

(** The nodes of [p] are one nearer to the condition each, from distance [d + 1] on,
    and each depends on the one before. *)
Definition shortest_path (V : ValueId) (d : nat) (p : list Node) : Prop :=
  (forall j n, p !! j = Some n -> j <= d /\ n ∈ back V (S d - j)) /\
  forall j a b, p !! j = Some a -> p !! S j = Some b -> parent (dg_graph G) a b.

Lemma shortest_path_cons V d a b p : shortest_path V d (b :: p) -> a ∈ back V (S (S d)) -> parent (dg_graph G) a b ->
  shortest_path V (S d) (a :: b :: p).
Proof.
  intros [H1 H2] Ha Hab. split.
  - intros [|j] n Hj; simpl in Hj; [injection Hj as <-; split; [lia|done]|].
    destruct (H1 j n Hj) as [Hjd Hn]. split; [lia|done].
  - intros [|j] x y Hx Hy; simpl in Hx, Hy; [by injection Hx as <-; injection Hy as <-|]. by apply (H2 j).
Qed.

Lemma path_from_spec V D root st : found_at V D root st -> forall i fuel last, i <= fuel -> S i <= D -> in_level st (S i) last ->
  exists p, path_from G fuel (Z.of_nat i) last st = Ok p /\ length p = i /\ shortest_path V (S i) (last :: p).
Proof.
  intros Hfa. induction i as [|i IH]; intros fuel last Hf HD Hl.
  - exists []. split; [by destruct fuel|]. split; [done|]. split.
    + intros [|j] n Hj; [injection Hj as <-; split; [lia|]; by apply (fa_back _ _ _ _ Hfa)|done].
    + intros [|j] a b _ Hb; done.
  - destruct fuel as [|fuel]; [lia|]. cbn [path_from]. rewrite (proj2 (Z.eqb_neq _ _)) by lia.
    destruct (fa_from _ _ _ _ Hfa (S i) last) as (m & Hm & Hp); [done|done|].
    assert (parent (dg_graph G) last m) as Hpm by (apply elem_tainted_parents in Hp; destruct last, m; simpl in *; tauto).
    destruct (next_node_spec (S i) st last m (fa_size _ _ _ _ Hfa) Hm Hpm) as (n & -> & Hn & Hpn). cbn [rbind].
    replace (Z.of_nat (S i) - 1)%Z with (Z.of_nat i) by lia.
    destruct (IH fuel n) as (p & -> & Hlen & Hsp); [lia|lia|done|]. cbn [rbind]. exists (n :: p). split; [done|].
    split; [by rewrite <- Hlen|]. apply shortest_path_cons; [done| |done]. by apply (fa_back _ _ _ _ Hfa).
Qed.

Lemma path_back V D root st : found_at V (S D) root st -> S D < CurSize0 ->
  exists p, path_from G (length (VisitedSsaNodesByDist st)) (u32 (Z.of_nat (S D) - 1)) root st = Ok p /\
    length p = D /\ shortest_path V (S D) (root :: p).
Proof.
  intros Hfa Hlt. unfold u32. rewrite Z.mod_small by (unfold CurSize0 in Hlt; lia). replace (Z.of_nat (S D) - 1)%Z with (Z.of_nat D) by lia.
  apply (path_from_spec V (S D) root st Hfa); [|done|apply (fa_root _ _ _ _ Hfa)].
  pose proof (level_lt _ _ _ _ (fa_size _ _ _ _ Hfa) (fa_root _ _ _ _ Hfa)). lia.
Qed.

(** At distance 0 the first index wraps around: the vectors are read out of bounds. *)
Lemma path_wraps root st fuel : (Z.of_nat (length (VisitedSsaNodesByDist st)) < 2 ^ 32 - 1)%Z ->
  0 < fuel -> path_from G fuel (u32 (Z.of_nat 0 - 1)) root st = Broken.
Proof.
  intros Hs Hf. destruct fuel as [|fuel]; [lia|]. change (u32 (Z.of_nat 0 - 1))%Z with 4294967295%Z.
  cbn [path_from]. change (4294967295 =? 0)%Z with false. cbv iota. unfold next_node, level_at.
  rewrite (proj2 (Z.ltb_ge _ _)) by lia. done.
Qed.
End Spec.

(** * What is drawn *)

Section Drawn.
Context (G : DGraph) (t : Taint) (V : ValueId).

Lemma dotTaintPath_found fuel p : dotTaintPath G t fuel V = Ok p ->
  exists d, 0 < d < CurSize0 /\ nearest_source G t V d /\ length p = d /\ shortest_path G t V d p /\
    exists root, p !! 0 = Some root /\ found_source G root = true.
Proof.
  unfold dotTaintPath. destruct (start_levels_spec G t V) as (st & -> & H & Hs). cbn [rbind].
  intros ([[d root] st'] & E & Hr)%rbind_ok.
  pose proof (search_sound G t fuel V 0 CurSize0 st d root st' H Hs E) as Hfa.
  destruct (search_too_far G t fuel V 0 st d root st' H Hs) as [Hd Hs']; [lia|done|].
  apply rbind_ok in Hr as (q & Eq & [= <-]). destruct d as [|d].
  - destruct Hs' as [_ Hlen].
    rewrite (path_wraps G root st') in Eq; [done|rewrite Hlen; by unfold CurSize0|rewrite Hlen; unfold CurSize0; lia].
  - destruct (path_back G t V d root st' Hfa Hd) as (p' & Ep & Hlen & Hsp). rewrite Ep in Eq. injection Eq as ->.
    exists (S d). split; [lia|]. split; [apply (fa_nearest _ _ _ _ _ _ Hfa)|]. split; [by rewrite <- Hlen|]. split; [done|].
    exists root. split; [done|]. apply (fa_source _ _ _ _ _ _ Hfa).
Qed.

Lemma dotTaintPath_returns d fuel : nearest_source G t V d -> 0 < d < CurSize0 - 1 -> d < fuel ->
  exists p, dotTaintPath G t fuel V = Ok p.
Proof.
  intros Hn Hd Hf. unfold dotTaintPath. destruct (start_levels_spec G t V) as (st & -> & H & Hs). cbn [rbind].
  destruct (search_complete G t fuel V 0 d st H Hs Hn) as (root & st' & E); [lia|lia|lia|]. rewrite E. cbn [rbind].
  pose proof (search_sound G t fuel V 0 CurSize0 st d root st' H Hs E) as Hfa. destruct d as [|d]; [lia|].
  destruct (path_back G t V d root st' Hfa) as (p & Ep & _); [lia|]. rewrite Ep. cbn [rbind]. eauto.
Qed.

(** A source that is a parent of the condition: the path is not drawn. *)
Lemma adjacent_source_breaks fuel p : nearest_source G t V 0 -> dotTaintPath G t fuel V <> Ok p.
Proof.
  intros [(s & Hb & Hsrc & Hne) _] (d & Hd & [_ Hmin] & _)%dotTaintPath_found. apply Hne, (Hmin 1); [lia|done..].
Qed.

(** No source but the condition itself: neither. *)
Lemma no_source_no_path fuel p : (forall k s, s ∈ back G t V k -> found_source G s = true -> s = LV V) ->
  dotTaintPath G t fuel V <> Ok p.
Proof. intros H (d & _ & [(s & Hb & Hsrc & Hne) _] & _)%dotTaintPath_found. by apply Hne, (H (S d)). Qed.
(** A condition no tainted node feeds, as a source may be: the loop never ends. *)
Lemma search_empty fuel : forall d size st, has_size size st -> d <= size -> 0 < size -> (forall k n, ~ in_level st k n) ->
  search_source G t fuel d size st = OutOfFuel.
Proof.
  induction fuel as [|fuel IH]; intros d size st Hs Hd H0 He; [done|]. rewrite search_step.
  assert (d < grown_size d size /\ has_size (grown_size d size) (grown d size st) /\ forall k n, ~ in_level (grown d size st) k n) as (Hg & Hgs & Hge).
  { unfold grown, grown_size. destruct (Nat.leb_spec size d) as [Hle|Hlt]; [|done]. split; [lia|].
    destruct (resize_levels_spec (size * 2) size st) as (H1 & _ & H3); [lia|done|]. split; [done|]. intros k n. by rewrite H3. }
  assert (visit_dist G t d (grown d size st) = Ok (None, grown d size st)) as ->; [|apply IH; [done|lia|lia|done]].
  unfold visit_dist. destruct Hgs as [HL HX].
  destruct (lookup_lt_is_Some_2 (VisitedLlvmNodesByDist (grown d size st)) d) as [L EL]; [lia|].
  destruct (lookup_lt_is_Some_2 (VisitedSsaNodesByDist (grown d size st)) d) as [X EX]; [lia|].
  rewrite EL. cbn [of_option rbind]. assert (L = ∅) as ->.
  { apply elem_of_equiv_empty_L. intros v Hv. apply (Hge d (LV v)). simpl. by rewrite EL. }
  change (visit_nodes G t d (LV <$> in_order ∅) ?s) with (Ok (@None Node, s)). cbn [rbind fst snd]. rewrite EX. cbn [of_option rbind]. assert (X = ∅) as ->; [|done].
  apply elem_of_equiv_empty_L. intros x Hx. apply (Hge d (SV x)). simpl. by rewrite EX.
Qed.

Lemma unfed_condition_loops fuel : tainted_parents G t (LV V) = ∅ -> dotTaintPath G t fuel V = OutOfFuel.
Proof.
  intros He. unfold dotTaintPath. destruct (start_levels_spec G t V) as (st & -> & H & Hs). cbn [rbind].
  rewrite (search_empty fuel 0 CurSize0 st); [done|done|lia|unfold CurSize0; lia|]. intros k n Hn.
  destruct k as [|k]; [|apply (sd_later _ _ _ _ _ H) in Hn; [done|lia]].
  apply (sd_back _ _ _ _ _ H) in Hn. apply elem_back in Hn as (m & Hm & Hn). cbn [back] in Hm.
  assert (m = LV V) as -> by set_solver. rewrite He in Hn. set_solver.
Qed.
End Drawn.

(** * The taint and the path *)

(** The nearest of the distances at which a decidable property holds. *)
Lemma least_nat (P : nat -> Prop) `{forall k, Decision (P k)} : forall n, P n -> exists d, P d /\ forall k, k < d -> ~ P k.
Proof.
  intros n. induction n as [n IH] using lt_wf_ind. intros Hn.
  destruct (decide (Exists P (seq 0 n))) as [(k & Hk%elem_of_seq & HPk)%Exists_exists|Hno]; [apply (IH k); [lia|done]|].
  exists n. split; [done|]. intros k Hk HPk. apply Hno, Exists_exists. exists k. rewrite elem_of_seq. split; [lia|done].
Qed.

Section Tainted.
Context (G : DGraph) (t : Taint) (V : ValueId).
Hypothesis (parents : forall a b, DepGraphPhi.child (dg_graph G) a b -> parent (dg_graph G) a b).
Hypothesis (taint : forall n, has_taint t n <-> source_taint G n).

Lemma taint_back n : source_taint G n -> forall k, n ∈ back G t V k -> exists s j, s ∈ back G t V j /\ is_source G s.
Proof.
  induction 1 as [n Hn|a b Ha IH _ Hab]; intros k Hk; [eauto|]. apply (IH (S k)), elem_back. exists b. split; [done|].
  apply elem_tainted_parents. apply parents in Hab. apply taint in Ha. by destruct a, b.
Qed.

Lemma found_source_spec n : found_source G n = true <-> is_source G n.
Proof. destruct n; apply bool_decide_eq_true. Qed.

(** A condition that is tainted, and not a source, has a nearest source. *)
Lemma tainted_nearest : source_taint G (LV V) -> ~ is_source G (LV V) -> exists d, nearest_source G t V d.
Proof.
  intros Ht Hs. destruct (taint_back _ Ht 0) as (s & j & Hb & Hsrc); [cbn [back]; set_solver|].
  destruct (least_nat (fun k => Exists (fun s => found_source G s = true) (elements (back G t V k))) j)
    as (d & (s' & Hb'%elem_of_elements & Hs')%Exists_exists & Hmin).
  { apply Exists_exists. exists s. rewrite elem_of_elements. split; [done|]. by apply found_source_spec. }
  destruct d as [|d].
  - exfalso. cbn [back] in Hb'. assert (s' = LV V) as -> by set_solver. by apply Hs, found_source_spec.
  - exists d. split.
    + exists s'. split; [done|]. split; [done|]. intros ->. by apply Hs, found_source_spec.
    + intros k r Hk Hr Hsr. exfalso. apply (Hmin k); [lia|]. apply Exists_exists. exists r. by rewrite elem_of_elements.
Qed.
End Tainted.

Lemma nearest_unique G t V d d' : nearest_source G t V d -> nearest_source G t V d' -> d = d'.
Proof.
  intros [(s & Hb & Hs & Hne) Hmin] [(s' & Hb' & Hs' & Hne') Hmin'].
  destruct (lt_eq_lt_dec d d') as [[Hlt|]|Hlt]; [|done|]; exfalso.
  - by apply Hne, (Hmin' (S d)).
  - by apply Hne', (Hmin (S d')).
Qed.

(** C23 (taintpath). After the flooding without contexts a tainted condition that is not a
    source itself has a nearest source; when that source is two to 127 edges away the
    search comes to it, and whatever is drawn is a shortest path from a nearest source,
    each node a parent of the next -- up to the node two edges from the condition. *)
Theorem tainted_condition_explained G V rounds :
  (forall a b, DepGraphPhi.child (dg_graph G) a b -> parent (dg_graph G) a b) ->
  size (ssaSources G) + size (valueSources G) + flood_bound (dg_graph G) <= rounds ->
  exists t, computeTaintedValuesContextInsensitive rounds G no_taint = Ok t /\
    (isTaintedValue t V = true -> ~ is_source G (LV V) -> exists d, nearest_source G t V d /\
       (0 < d < CurSize0 - 1 -> forall fuel, d < fuel -> exists p, dotTaintPath G t fuel V = Ok p) /\
       forall fuel p, dotTaintPath G t fuel V = Ok p ->
         length p = d /\ shortest_path G t V d p /\ exists root, p !! 0 = Some root /\ is_source G root).
Proof.
  intros Hp Hr. destruct (flooding_taint rounds G Hr) as (t & E & Ht & Hc). exists t. split; [done|].
  intros HV%Hc Hs. destruct (tainted_nearest G t V Hp Ht HV Hs) as (d & Hd). exists d. split; [done|]. split.
  - intros Hd1 fuel Hf. by apply (dotTaintPath_returns G t V d).
  - intros fuel p (d' & _ & Hd' & Hlen & Hsp & root & Hroot & Hsrc)%dotTaintPath_found.
    pose proof (nearest_unique G t V d d' Hd Hd') as ->. split; [done|]. split; [done|]. exists root.
    split; [done|by apply found_source_spec].
Qed.

(** * Examples *)

(** A chain of edges from a source. *)
Definition chain_graph (es : list (Node * Node)) (src : gset ValueId) : DGraph :=
  {| dg_graph := fold_left (fun g e => addEdge e.1 e.2 g) es empty_graph; funcToLLVMNodes := ∅; funcToSSANodes := ∅;
     taintResetSSANodes := ∅; ssaSources := ∅; valueSources := src; callsiteToConds := ∅ |}.

Definition rank_chain : DGraph := chain_graph [(LV 0, SV 1); (SV 1, LV 2); (LV 2, LV 3)] {[ 0%N ]}.

Definition chain_taint (G : DGraph) : Taint :=
  match computeTaintedValuesContextInsensitive 50 G no_taint with Ok t => t | _ => no_taint end.

Lemma chain_parents es src a b : DepGraphPhi.child (dg_graph (chain_graph es src)) a b -> parent (dg_graph (chain_graph es src)) a b.
Proof.
  pose proof (addEdges_represents es empty_graph _ represents_empty) as H. intros Hab. apply H. by apply H in Hab.
Qed.

Lemma tainted_condition_witness : exists t d,
  computeTaintedValuesContextInsensitive 50 rank_chain no_taint = Ok t /\ nearest_source rank_chain t 3 d /\ d = 2 /\
  shortest_path rank_chain t 3 d [LV 0; SV 1].
Proof.
  destruct (tainted_condition_explained rank_chain 3 50) as (t & E & H); [apply chain_parents|vm_compute; lia|].
  assert (chain_taint rank_chain = t) as <- by (unfold chain_taint; by rewrite E).
  destruct H as (d & Hd & _ & Hp); [vm_compute; reflexivity|by intros Hs%found_source_spec|].
  destruct (Hp 10 [LV 0; SV 1]) as (Hlen & Hsp & _); [vm_compute; reflexivity|]. exists (chain_taint rank_chain), d.
  split; [done|]. split; [done|]. split; [by rewrite <- Hlen|done].
Defined.

(** From the source 0 to the condition 3: the nodes 2 and 3 are not drawn. *)
Example chain_path : dotTaintPath rank_chain (chain_taint rank_chain) 10 3 = Ok [LV 0; SV 1].
Proof. vm_compute. reflexivity. Qed.

(** A source that is the parent of the condition: read out of bounds. *)
Definition one_edge : DGraph := chain_graph [(LV 0, LV 1)] {[ 0%N ]}.
Example adjacent_path : dotTaintPath one_edge (chain_taint one_edge) 10 1 = Broken.
Proof. vm_compute. reflexivity. Qed.

(** A condition that is the source: no end. *)
Example source_path fuel : isTaintedValue (chain_taint rank_chain) 0 = true /\
  dotTaintPath rank_chain (chain_taint rank_chain) fuel 0 = OutOfFuel.
Proof. split; [vm_compute; reflexivity|]. apply unfed_condition_loops. vm_compute. reflexivity. Qed.

(** A chain of 130 edges: the level 128 is written past the end of the vector. *)
Definition long_chain (n : nat) : DGraph := chain_graph ((fun i => (LV (N.of_nat i), LV (N.of_nat (S i)))) <$> seq 0 n) {[ 0%N ]}.

Definition flooded (G : DGraph) : Taint :=
  match computeTaintedValuesContextInsensitive 500 G no_taint with Ok t => t | _ => no_taint end.

Example long_path :
  (exists p, dotTaintPath (long_chain 127) (flooded (long_chain 127)) 300 127 = Ok p /\ length p = 126) /\
  dotTaintPath (long_chain 130) (flooded (long_chain 130)) 300 130 = Broken.
Proof. split; [eexists; split|]; vm_compute; reflexivity. Qed.
