(* ===== verification/DebugTrace.v ===== *)
(** The messages and the trace that go with the path of a taint (DepGraphDCF.cpp:
    getStringMsg, getDGDebugLoc, reorderAndRemoveDup). The text of the source files
    that getDebugTrace copies is not modelled. *)
From stdpp Require Import sorting.
From S2P Require Import Prelude IR RmaOverload MemRegions DepGraph MemSSA.
#[local] Open Scope nat_scope.

(** * Debugging locations *)

Record DGDebugLoc := { dl_F : option FuncId; dl_filename : string; dl_line : Z }.

#[export] Instance DGDebugLoc_eq_dec : EqDecision DGDebugLoc.
Proof. solve_decision. Defined.

Section Locations.
Context (M : MModule) (s : MemorySSA).
(** Of an instruction, its location; of a block, its function; of a value, its
    label; of a region, its name. *)
Context (debugLoc : ValueId -> option DebugLoc) (getParent : BlockId -> FuncId).
Context (getValueLabel : ValueId -> string) (regionName : RegId -> string).

(** The location [DL] and what the overloads of [getDGDebugLoc] answer. *)
Definition mk_DGDebugLoc (F : option FuncId) (Loc : option DebugLoc) : bool * DGDebugLoc :=
  match Loc with
  | Some l => (bool_decide (F <> None), {| dl_F := F; dl_filename := getFilename l; dl_line := int32 (getLine l) |})
  | None => (false, {| dl_F := F; dl_filename := "unknown"; dl_line := -1 |})
  end.

Definition value_place (V : ValueId) : option FuncId * option DebugLoc :=
  match instFunction M V with Some F => (Some F, debugLoc V) | None => (None, None) end.

(** What the [isa] tests on the definition of a variable give. *)
Definition def_place (d : MSSADef) : option FuncId * option DebugLoc :=
  match type d with
  | CALL _ inst | STORE inst | EXTCALL _ _ inst => value_place inst
  | EXTVARARG func | EXTARG func _ | EXTRET func => (Some func, None)
  | _ => (getParent <$> (var d ≫= bb), None)
  end.

Definition getDGDebugLoc (n : Node) : bool * DGDebugLoc :=
  match n with
  | LV V => let p := value_place V in mk_DGDebugLoc p.1 p.2
  | SV x => let p := match defs s !! x with Some d => def_place d | None => (None, None) end in mk_DGDebugLoc p.1 p.2
  end.

(** [MSSADef::getName] with its overrides, and [MSSAVar::getName]. *)
Definition def_name (d : MSSADef) : string :=
  match type d with
  | EXTVARARG _ => "VarArg"
  | EXTARG _ argNo => "arg" +:+ pretty argNo +:+ "_"
  | EXTRET _ => "retval"
  | _ => match region d with Some R => regionName R | None => "" end
  end.
Definition var_name (d : MSSADef) : string :=
  def_name d +:+ match var d with Some v => pretty (version v) | None => "" end.

Definition newline : string := String (Ascii.ascii_of_nat 10) EmptyString.

Definition place_msg (p : option FuncId * option DebugLoc) : string :=
  "function: " +:+ match p.1 with Some F => fname M F | None => "unknown" end +:+
  match p.2 with
  | Some l => " file " +:+ getFilename l +:+ " line " +:+ pretty (getLine l)
  | None => " no debug loc"
  end +:+ newline.

Definition getStringMsg (n : Node) : string :=
  match n with
  | LV V => "# " +:+ getValueLabel V +:+ ":" +:+ newline +:+ "# " +:+ place_msg (value_place V)
  | SV x =>
      match defs s !! x with
      | Some d => "# " +:+ var_name d +:+ ":" +:+ newline +:+ "# " +:+ place_msg (def_place d)
      | None => ""
      end
  end.
End Locations.

(** * Ordering the locations *)

(** [operator<] compares the lines. *)
Definition line_le (a b : DGDebugLoc) : Prop := (dl_line a <= dl_line b)%Z.

#[export] Instance line_le_dec a b : Decision (line_le a b).
Proof. unfold line_le. apply _. Defined.

#[export] Instance line_le_total : Total line_le.
Proof. intros a b. unfold line_le. lia. Qed.

#[export] Instance line_le_trans : Transitive line_le.
Proof. intros a b c. unfold line_le. lia. Qed.

(** The loop that erases an element with the line of the one before. *)
Fixpoint remove_duplicates (LinePrev : Z) (l : list DGDebugLoc) : list DGDebugLoc :=
  match l with
  | [] => []
  | x :: r =>
      if (dl_line x =? LinePrev)%Z then remove_duplicates (dl_line x) r
      else x :: remove_duplicates (dl_line x) r
  end.

Definition tidy (l : list DGDebugLoc) : list DGDebugLoc := remove_duplicates (-1) (merge_sort line_le l).

(** The loop over [DLs], with [SameFuncDl], [Prev] and [Res]. *)
Fixpoint reorder_loop (fuel : nat) (DLs SameFuncDl : list DGDebugLoc) (Prev : option FuncId) (Res : list DGDebugLoc) :
    res (list DGDebugLoc) :=
  match DLs with
  | [] => Ok Res
  | DL :: rest =>
      match fuel with
      | O => OutOfFuel
      | S fuel' =>
          if bool_decide (dl_F DL <> Prev) || bool_decide (rest = []) then
            let '(DLs', Same) := if bool_decide (rest = []) then ([], SameFuncDl ++ [DL]) else (DL :: rest, SameFuncDl) in
            reorder_loop fuel' DLs' [] (dl_F DL) (Res ++ tidy Same)
          else reorder_loop fuel' rest (SameFuncDl ++ [DL]) Prev Res
      end
  end.

Definition reorderAndRemoveDup (fuel : nat) (DLs : list DGDebugLoc) : res (list DGDebugLoc) :=
  match DLs with [] => Ok [] | DL :: _ => reorder_loop fuel DLs [] (dl_F DL) [] end.

(** The locations of the trace: those of the path, then the collective's. *)
Definition trace_locations (fuel : nat) (loc : Node -> bool * DGDebugLoc) (path : list Node) (Collective : ValueId) :
    res (list DGDebugLoc) :=
  reorderAndRemoveDup fuel
    (omap (fun n => if (loc n).1 then Some (loc n).2 else None) (path ++ [LV Collective])).

(** * What the order is *)

(** The longest runs of locations in one function. *)
Fixpoint runs (l : list DGDebugLoc) : list (list DGDebugLoc) :=
  match l with
  | [] => []
  | x :: r =>
      match runs r with
      | (y :: g) :: gs => if bool_decide (dl_F x = dl_F y) then (x :: y :: g) :: gs else [x] :: (y :: g) :: gs
      | gs => [x] :: gs
      end
  end.

(** A last run of one location joins the run before it. *)
Fixpoint join_last (gs : list (list DGDebugLoc)) : list (list DGDebugLoc) :=
  match gs with
  | g :: rest => match rest with [[x]] => [g ++ [x]] | _ => g :: join_last rest end
  | [] => []
  end.

(** [l] continues the run [Same], of the function [Prev]. *)
Definition continue_run (Same : list DGDebugLoc) (Prev : option FuncId) (l : list DGDebugLoc) : list (list DGDebugLoc) :=
  match runs l with
  | (x :: g) :: gs => if bool_decide (dl_F x = Prev) then (Same ++ x :: g) :: gs else Same :: (x :: g) :: gs
  | _ => [Same]
  end.

Lemma runs_cons x l : exists g gs, runs (x :: l) = (x :: g) :: gs.
Proof. simpl. destruct (runs l) as [|[|y g] gs]; [eauto|eauto|]. case_bool_decide; eauto. Qed.

Lemma concat_runs l : concat (runs l) = l.
Proof.
  induction l as [|x l IH]; [done|]. cbn [runs]. destruct (runs l) as [|[|y g] gs]; simpl in IH |- *; [by rewrite <- IH..|].
  case_bool_decide; simpl; by rewrite IH.
Qed.

Lemma continue_cons Same x l : continue_run Same (dl_F x) (x :: l) = continue_run (Same ++ [x]) (dl_F x) l.
Proof.
  unfold continue_run at 1. cbn [runs]. destruct l as [|y l]; [simpl; by rewrite bool_decide_true|].
  unfold continue_run. destruct (runs_cons y l) as (g & gs & ->).
  destruct (decide (dl_F x = dl_F y)) as [E|E].
  - rewrite (bool_decide_true (dl_F x = dl_F y)), bool_decide_true, bool_decide_true by congruence. by rewrite <- (assoc_L (++)).
  - rewrite (bool_decide_false (dl_F x = dl_F y)), bool_decide_true, bool_decide_false by congruence. done.
Qed.

Lemma continue_start x l : continue_run [] (dl_F x) (x :: l) = runs (x :: l).
Proof. unfold continue_run. destruct (runs_cons x l) as (g & gs & ->). by rewrite bool_decide_true. Qed.

Lemma continue_other Same Prev x y l : dl_F x <> Prev ->
  join_last (continue_run Same Prev (x :: y :: l)) = Same :: join_last (runs (x :: y :: l)).
Proof.
  intros H. unfold continue_run. pose proof (concat_runs (x :: y :: l)) as Hc. destruct (runs_cons x (y :: l)) as (g & gs & E).
  rewrite E in *. rewrite bool_decide_false by done. cbn [join_last]. destruct g as [|z g]; [|done]. by destruct gs.
Qed.

Lemma reorder_step fuel x l Same Prev Res : reorder_loop (S fuel) (x :: l) Same Prev Res =
  if bool_decide (dl_F x <> Prev) || bool_decide (l = []) then
    let '(DLs', Same') := if bool_decide (l = []) then ([], Same ++ [x]) else (x :: l, Same) in
    reorder_loop fuel DLs' [] (dl_F x) (Res ++ tidy Same')
  else reorder_loop fuel l (Same ++ [x]) Prev Res.
Proof. reflexivity. Qed.

Lemma reorder_loop_spec l : forall fuel Same Prev Res, l <> [] -> 2 * length l <= fuel ->
  reorder_loop fuel l Same Prev Res = Ok (Res ++ concat (tidy <$> join_last (continue_run Same Prev l))).
Proof.
  induction l as [|x l IH]; intros fuel Same Prev Res Hl Hf; [done|]. destruct fuel as [|[|fuel]]; [simpl in Hf; lia..|].
  cbn [length] in Hf. rewrite reorder_step. destruct l as [|y l].
  - rewrite (bool_decide_true ([] = [])), orb_true_r by done. cbn [reorder_loop]. f_equal. f_equal. unfold continue_run.
    cbn [runs]. case_bool_decide; simpl; by rewrite app_nil_r.
  - rewrite (bool_decide_false (y :: l = [])), orb_false_r by done. destruct (decide (dl_F x = Prev)) as [<-|H].
    + rewrite bool_decide_false by auto. cbn [orb]. rewrite IH, continue_cons by (done || lia). done.
    + rewrite bool_decide_true by done. cbn [orb]. rewrite reorder_step, bool_decide_false, bool_decide_false by auto. cbn [orb].
      rewrite IH by (done || lia). rewrite (continue_other Same Prev x y l H), <- continue_start, continue_cons.
      rewrite fmap_cons. cbn [concat]. by rewrite <- (assoc_L (++)).
Qed.

(** [a] comes before [b] in a tidy list. *)
Definition line_lt (a b : DGDebugLoc) : Prop := (dl_line a < dl_line b)%Z.

Lemma remove_duplicates_spec l : forall p, StronglySorted line_le l -> Forall (fun x => (p <= dl_line x)%Z) l ->
  let r := remove_duplicates p l in
  StronglySorted line_lt r /\ Forall (fun x => (p < dl_line x)%Z) r /\ sublist r l /\
  forall x, x ∈ l -> dl_line x <> p -> exists y, y ∈ r /\ dl_line y = dl_line x.
Proof.
  induction l as [|x l IH]; intros p Hs Hp; cbn [remove_duplicates].
  { split; [constructor|]. split; [constructor|]. split; [constructor|]. set_solver. }
  apply StronglySorted_cons in Hs as [Hx Hs]. apply Forall_cons in Hp as [Hpx Hp].
  destruct (IH (dl_line x) Hs Hx) as (H1 & H2 & H3 & H4). destruct (Z.eqb_spec (dl_line x) p) as [E|E].
  - subst p. split; [done|]. split; [done|]. split; [by apply sublist_cons|].
    intros y [->|Hy]%elem_of_cons Hne; [done|by apply H4].
  - split; [by apply StronglySorted_cons|]. split.
    { constructor; [lia|]. eapply Forall_impl; [exact H2|]. simpl. lia. }
    split; [by apply sublist_skip|]. intros y [->|Hy]%elem_of_cons Hne; [exists x; by rewrite elem_of_cons; auto|].
    destruct (decide (dl_line y = dl_line x)) as [Hyx|Hyx]; [exists x; rewrite elem_of_cons; auto|].
    destruct (H4 y Hy Hyx) as (z & Hz & Hzy). exists z. by rewrite elem_of_cons; auto.
Qed.

Lemma tidy_spec g : Forall (fun x => (0 <= dl_line x)%Z) g ->
  StronglySorted line_lt (tidy g) /\ (forall x, x ∈ tidy g -> x ∈ g) /\ forall x, x ∈ g -> exists y, y ∈ tidy g /\ dl_line y = dl_line x.
Proof.
  intros Hg. unfold tidy. pose proof (merge_sort_Permutation line_le g) as Hperm.
  destruct (remove_duplicates_spec (merge_sort line_le g) (-1)) as (H1 & _ & H3 & H4).
  - apply StronglySorted_merge_sort; apply _.
  - rewrite Hperm. eapply Forall_impl; [exact Hg|]. simpl. lia.
  - split; [done|]. split; [intros x Hx; rewrite <- Hperm; by eapply elem_of_sublist|].
    intros x Hx. apply H4; [by rewrite Hperm|]. rewrite Forall_forall in Hg. specialize (Hg x Hx). lia.
Qed.

(** The locations of a trace are put in order run by run: within a run of one function
    the lines increase strictly, and none is lost. The last location, when its function is not
    that of the one before, is put in order with the run before it. *)
Theorem reorderAndRemoveDup_runs DLs fuel :
  2 * length DLs <= fuel -> Forall (fun x => (0 <= dl_line x)%Z) DLs ->
  concat (join_last (runs DLs)) = DLs /\
  reorderAndRemoveDup fuel DLs = Ok (concat (tidy <$> join_last (runs DLs))) /\
  forall g, g ∈ join_last (runs DLs) ->
    StronglySorted line_lt (tidy g) /\ (forall x, x ∈ tidy g -> x ∈ g) /\ forall x, x ∈ g -> exists y, y ∈ tidy g /\ dl_line y = dl_line x.
Proof.
  intros Hf Hl.
  assert (forall gs : list (list DGDebugLoc), concat (join_last gs) = concat gs) as Hj.
  { induction gs as [|g gs IH]; [done|]. cbn [join_last]. destruct gs as [|[|x [|? ?]] [|? ?]]; cbn [concat] in *; by rewrite ?IH, ?app_nil_r. }
  split; [rewrite Hj; apply concat_runs|]. split.
  - destruct DLs as [|x l]; [done|]. unfold reorderAndRemoveDup. rewrite reorder_loop_spec by done. by rewrite continue_start.
  - intros g Hg. apply tidy_spec, Forall_forall. intros x Hx. rewrite Forall_forall in Hl. apply Hl.
    rewrite <- (concat_runs DLs), <- Hj. apply list_elem_of_In, List.in_concat. exists g. by rewrite <- !list_elem_of_In.
Qed.

Definition at_line (F : FuncId) (n : Z) : DGDebugLoc := {| dl_F := Some F; dl_filename := "a.c"; dl_line := n |}.

Lemma reorderAndRemoveDup_witness :
  reorderAndRemoveDup 8 [at_line 0 7; at_line 0 3; at_line 1 5; at_line 1 5] = Ok [at_line 0 3; at_line 0 7; at_line 1 5].
Proof.
  destruct (reorderAndRemoveDup_runs [at_line 0 7; at_line 0 3; at_line 1 5; at_line 1 5] 8) as (_ & -> & _);
    [simpl; lia|repeat constructor; simpl; lia|vm_compute; reflexivity].
Defined.

(** A collective in another function than the source of the taint: its location comes
    first, or is dropped with the line of the other one. *)
Example trace_mixes : reorderAndRemoveDup 8 [at_line 0 10; at_line 1 3] = Ok [at_line 1 3; at_line 0 10] /\
  reorderAndRemoveDup 8 [at_line 0 3; at_line 1 3] = Ok [at_line 0 3].
Proof. split; vm_compute; reflexivity. Qed.
