(* ===== verification/Wrapper.v ===== *)
(** The compiler wrapper [parcoachcc] (tools/wrapper: CommandLineUtils.cpp,
    Wrapper.cpp, TempFileRAII.cpp): the command lines it builds, and its main
    function as a sequence of commands run and temporary files made and removed. *)
From S2P Require Import Prelude IR.
#[local] Open Scope nat_scope.

Abbreviation ArgList := (list string).

(** * Command lines *)

Definition ARGS_ARG : string := "--args".
Definition EmitIRArgs : ArgList := ["-g"; "-S"; "-emit-llvm"; "-o"].

Definition IsPreventLinkFlag (Arg : string) : bool := bool_decide (Arg ∈ ["-c"; "-S"; "-E"]).

(** [llvm::find(Argv, ARGS_ARG)]: the arguments before it, and those from it on. *)
Fixpoint find_args (Argv : ArgList) : ArgList * ArgList :=
  match Argv with
  | [] => ([], [])
  | a :: r => if bool_decide (a = ARGS_ARG) then ([], Argv) else let p := find_args r in (a :: p.1, p.2)
  end.

Definition BuildParcoachArgs (Argv : ArgList) (ParcoachBin IRFile : string) (OutputFile : option string) : ArgList :=
  let p := find_args Argv in
  [ParcoachBin] ++ (match p.2 with [] => [] | _ => p.1 end) ++ [IRFile] ++
  match OutputFile with Some f => ["-o"; f] | None => [] end.

(** The position of the program, as the arguments from it on, and its path. *)
Definition FindProgram (findProgramByName : string -> option string) (Argv : ArgList) : option (ArgList * string) :=
  let ProgArg := match (find_args Argv).2 with _ :: r => r | [] => Argv end in
  match ProgArg with
  | [] => None
  | prog :: _ => match findProgramByName prog with Some Program => Some (ProgArg, Program) | None => None end
  end.

Definition BuildOriginalCommandLine (FoundProgram : ArgList * string) : ArgList :=
  FoundProgram.2 :: tail FoundProgram.1.

(** The loop that copies the arguments; skipping the file of a last [-o] passes the
    end of the vector. *)
Fixpoint copy_arguments (args : ArgList) : res ArgList :=
  match args with
  | [] => Ok []
  | a :: r =>
      if IsPreventLinkFlag a then copy_arguments r
      else if bool_decide (a = "-o") then match r with [] => Broken | _ :: r' => copy_arguments r' end
      else let* c := copy_arguments r in Ok (a :: c)
  end.

Definition BuildEmitIRCommandLine (OriginalCommandLine : ArgList) (IRFileName : string) : res ArgList :=
  match OriginalCommandLine with
  | [] => Broken
  | program :: args => let* c := copy_arguments args in Ok ([program] ++ c ++ EmitIRArgs ++ [IRFileName])
  end.

(** [StringRef::endswith]. *)
Definition endswith (s suffix : string) : bool :=
  (String.length suffix <=? String.length s) &&
  String.eqb (String.substring (String.length s - String.length suffix) (String.length suffix) s) suffix.

Definition isSourceFile (arg : string) : bool := endswith arg ".c" || endswith arg ".cpp" || endswith arg ".f90".

Definition ShouldInstrument (Argv : ArgList) : bool :=
  existsb (fun Arg => String.eqb Arg "-check=rma" || String.eqb Arg "-instrum-inter") Argv.

(** * The main function *)

Inductive Action :=
| Ran (Args : ArgList)
| Created (FileName : string)
| Removed (FileName : string).

#[export] Instance Action_eq_dec : EqDecision Action.
Proof. solve_decision. Defined.

(** What the system answers, after what was done. *)
Class System := {
  findProgramByName : string -> option string;
  findParcoach : option string;                     (** next to the wrapper or in the path *)
  ExecuteAndWait : list Action -> ArgList -> Z;
  createUniqueFile : list Action -> option string
}.

Section Main.
Context `{System}.

(** What the wrapper did so far, and a value. *)
Definition IO (A : Type) : Type := list Action -> A * list Action.
Definition ret {A} (a : A) : IO A := fun h => (a, h).
Definition bind {A B} (m : IO A) (k : A -> IO B) : IO B := fun h => let r := m h in k r.1 r.2.

Definition Execute (Args : ArgList) : IO Z := fun h => (ExecuteAndWait h Args, h ++ [Ran Args]).

Definition CreateIRFile : IO (option string) := fun h =>
  match createUniqueFile h with Some f => (Some f, h ++ [Created f]) | None => (None, h) end.

(** The scope of a [TempFileRAII]: its destructor runs whatever the result. *)
Definition with_file {A} (FileName : string) (m : IO A) : IO A := fun h =>
  let r := m h in (r.1, r.2 ++ [Removed FileName]).

Local Notation "x <-- m ;; k" := (bind m (fun x => k)) (at level 100, m at next level, right associativity).

(** With both files: run Parcoach, then compile what it wrote in place of the
    sources. *)
Definition instrument (Argv : ArgList) (ParcoachBin IRFile : string) (FoundProgram : ArgList * string) (OriginalResult : Z)
    (OutputFile : string) : IO Z :=
  with_file OutputFile
    (_ <-- Execute (BuildParcoachArgs Argv ParcoachBin IRFile (Some OutputFile)) ;;
     _ <-- Execute ((fun a => if isSourceFile a then OutputFile else a) <$> BuildOriginalCommandLine FoundProgram) ;;
     ret OriginalResult).

(** After the IR is generated. *)
Definition run_parcoach (Argv : ArgList) (ParcoachBin IRFile : string) (FoundProgram : ArgList * string) (OriginalResult : Z) : IO Z :=
  if ShouldInstrument Argv then
    OutputFile <-- CreateIRFile ;;
    match OutputFile with
    | None => ret OriginalResult
    | Some f => instrument Argv ParcoachBin IRFile FoundProgram OriginalResult f
    end
  else _ <-- Execute (BuildParcoachArgs Argv ParcoachBin IRFile None) ;; ret OriginalResult.

(** [main], on the arguments after the name of the wrapper. *)
Definition main (Argv : ArgList) : IO (res Z) :=
  match Argv with
  | [] => ret (Ok 1%Z)
  | _ =>
      match findParcoach with
      | None => ret (Ok 1%Z)
      | Some ParcoachBin =>
          match FindProgram findProgramByName Argv with
          | None => ret (Ok 1%Z)
          | Some FoundProgram =>
              let OriginalProgramArgs := BuildOriginalCommandLine FoundProgram in
              OriginalResult <-- Execute OriginalProgramArgs ;;
              let IsLinkerInvocation := negb (existsb IsPreventLinkFlag OriginalProgramArgs) in
              if negb (OriginalResult =? 0)%Z || IsLinkerInvocation then ret (Ok OriginalResult)
              else
                IRFile <-- CreateIRFile ;;
                match IRFile with
                | None => ret (Ok OriginalResult)
                | Some f =>
                    with_file f
                      (match BuildEmitIRCommandLine OriginalProgramArgs f with
                       | Ok GenerateIRArgs =>
                           Result <-- Execute GenerateIRArgs ;;
                           if negb (Result =? 0)%Z then ret (Ok Result)
                           else r <-- run_parcoach Argv ParcoachBin f FoundProgram OriginalResult ;; ret (Ok r)
                       | _ => ret Broken
                       end)
                end
          end
      end
  end.
End Main.

(** * The command lines *)

Lemma find_args_found pre rest : ARGS_ARG ∉ pre -> find_args (pre ++ ARGS_ARG :: rest) = (pre, ARGS_ARG :: rest).
Proof.
  induction pre as [|a pre IH]; intros H; cbn [find_args app]; [by rewrite bool_decide_true|].
  apply not_elem_of_cons in H as [Ha H]. rewrite bool_decide_false by congruence. by rewrite (IH H).
Qed.

Lemma find_args_none Argv : ARGS_ARG ∉ Argv -> find_args Argv = (Argv, []).
Proof.
  induction Argv as [|a r IH]; intros H; cbn [find_args]; [done|]. apply not_elem_of_cons in H as [Ha H].
  rewrite bool_decide_false by congruence. by rewrite (IH H).
Qed.

(** The arguments of Parcoach, the program and its arguments on a command line. *)
Inductive invocation : ArgList -> ArgList -> string -> ArgList -> Prop :=
| with_args pre prog args : ARGS_ARG ∉ pre -> invocation (pre ++ ARGS_ARG :: prog :: args) pre prog args
| without_args prog args : ARGS_ARG ∉ prog :: args -> invocation (prog :: args) [] prog args.

Lemma invocation_args Argv pre prog args bin f o : invocation Argv pre prog args ->
  BuildParcoachArgs Argv bin f o = bin :: pre ++ f :: match o with Some out => ["-o"; out] | None => [] end.
Proof.
  unfold BuildParcoachArgs. destruct 1 as [pre prog args H|prog args H]; [by rewrite find_args_found|by rewrite find_args_none].
Qed.

Lemma invocation_program find Argv pre prog args p : invocation Argv pre prog args -> find prog = Some p ->
  exists F, FindProgram find Argv = Some F /\ BuildOriginalCommandLine F = p :: args.
Proof.
  unfold FindProgram. intros [pre' prog' args' H|prog' args' H] Hp; [rewrite find_args_found by done|rewrite find_args_none by done];
    cbn [snd]; rewrite Hp; by eexists.
Qed.

Lemma invocation_nonempty Argv pre prog args : invocation Argv pre prog args -> Argv <> [].
Proof. destruct 1 as [[|]|]; done. Qed.

Definition kept (a : string) : bool := negb (IsPreventLinkFlag a) && negb (bool_decide (a = "-o")).

Lemma copy_arguments_app a1 a2 : "-o" ∉ a1 ->
  copy_arguments (a1 ++ a2) = let* c := copy_arguments a2 in Ok (List.filter kept a1 ++ c).
Proof.
  induction a1 as [|a a1 IH]; intros H; [simpl; by destruct (copy_arguments a2)|]. apply not_elem_of_cons in H as [Ha H].
  assert (kept a = negb (IsPreventLinkFlag a)) as E by (unfold kept; rewrite bool_decide_false by congruence; apply andb_true_r).
  cbn [app copy_arguments List.filter]. rewrite (IH H), E, bool_decide_false by congruence.
  destruct (IsPreventLinkFlag a); [done|]. by destruct (copy_arguments a2).
Qed.

Lemma copy_arguments_clean args : forall c, copy_arguments args = Ok c -> Forall (fun a => kept a = true) c /\ sublist c args.
Proof.
  induction args as [args IH] using (induction_ltof1 _ (@length string)). unfold ltof in IH.
  destruct args as [|a r]; intros c; cbn [copy_arguments]; [intros [= <-]; by repeat constructor|].
  destruct (IsPreventLinkFlag a) eqn:E.
  - intros [H1 H2]%IH; [split; [done|by apply sublist_cons]|simpl; lia].
  - case_bool_decide as Eo.
    + destruct r as [|b r]; [done|]. intros [H1 H2]%IH; [split; [done|by do 2 apply sublist_cons]|simpl; lia].
    + intros (c' & Hc & [= <-])%rbind_ok. apply IH in Hc as [H1 H2]; [|simpl; lia]. split; [|by apply sublist_skip].
      constructor; [|done]. unfold kept. by rewrite E, bool_decide_false.
Qed.

Lemma copy_arguments_returns args : copy_arguments args <> OutOfFuel.
Proof.
  induction args as [args IH] using (induction_ltof1 _ (@length string)). unfold ltof in IH.
  destruct args as [|a r]; cbn [copy_arguments]; [done|]. destruct (IsPreventLinkFlag a); [apply IH; simpl; lia|].
  case_bool_decide; [destruct r; [done|apply IH; simpl; lia]|]. pose proof (IH r) as Hr. destruct (copy_arguments r); [done| |done].
  intros _. apply Hr; [simpl; lia|done].
Qed.

(** The command line that generates the IR keeps, in their order, the arguments of the
    original one but [-c], [-S], [-E] and an output with its file, and ends by asking for IR with
    debugging information in the temporary file. *)
Theorem emit_ir_command program a1 out a2 f :
  "-o" ∉ a1 ++ a2 ->
  BuildEmitIRCommandLine (program :: a1 ++ "-o" :: out :: a2) f =
    Ok (program :: List.filter kept (a1 ++ a2) ++ ["-g"; "-S"; "-emit-llvm"; "-o"; f]) /\
  BuildEmitIRCommandLine (program :: a1 ++ a2) f =
    Ok (program :: List.filter kept (a1 ++ a2) ++ ["-g"; "-S"; "-emit-llvm"; "-o"; f]) /\
  (forall args c, BuildEmitIRCommandLine (program :: args) f = Ok c ->
     exists k, c = program :: k ++ ["-g"; "-S"; "-emit-llvm"; "-o"; f] /\ Forall (fun a => kept a = true) k /\ sublist k args).
Proof.
  intros H. assert (("-o" ∉ a1) /\ ("-o" ∉ a2)) as [H1 H2] by (rewrite elem_of_app in H; tauto). unfold BuildEmitIRCommandLine.
  assert (copy_arguments a2 = Ok (List.filter kept a2)) as E2.
  { rewrite <- (app_nil_r a2) at 1. rewrite (copy_arguments_app a2 [] H2). simpl. by rewrite app_nil_r. }
  split; [|split].
  - rewrite (copy_arguments_app a1 _ H1). cbn [copy_arguments]. rewrite E2. simpl. by rewrite List.filter_app.
  - rewrite (copy_arguments_app a1 _ H1), E2. simpl. by rewrite List.filter_app.
  - intros args c (k & Hk & [= <-])%rbind_ok. exists k. split; [done|]. by apply copy_arguments_clean.
Qed.

Lemma emit_ir_command_witness :
  BuildEmitIRCommandLine ["/usr/bin/clang"; "example.c"; "-c"; "-o"; "example.o"] "parcoach-ir-782df9.ll" =
    Ok ["/usr/bin/clang"; "example.c"; "-g"; "-S"; "-emit-llvm"; "-o"; "parcoach-ir-782df9.ll"].
Proof.
  destruct (emit_ir_command "/usr/bin/clang" ["example.c"; "-c"] "example.o" [] "parcoach-ir-782df9.ll") as [H _];
    [vm_compute; by repeat (intros [? H']%not_elem_of_cons || constructor) || set_solver|exact H].
Defined.

(** A last [-o] without its file: past the end of the vector. *)
Example output_without_file : BuildEmitIRCommandLine ["clang"; "-c"; "a.c"; "-o"] "t.ll" = Broken.
Proof. vm_compute. reflexivity. Qed.

(** * What the wrapper does *)

Section Run.
Context `{System}.
Context (Argv pre : ArgList) (prog : string) (args : ArgList) (path bin : string).

Definition original : ArgList := path :: args.
Definition compiles_only : Prop := exists a, a ∈ original /\ IsPreventLinkFlag a = true.

(** The ways a run may go: the exit code, and what was done. *)
Inductive wrapper_run : Z -> list Action -> Prop :=
| run_original r : ExecuteAndWait [] original = r -> r <> 0%Z \/ ~ compiles_only -> wrapper_run r [Ran original]
| run_no_file : ExecuteAndWait [] original = 0%Z -> compiles_only -> createUniqueFile [Ran original] = None ->
    wrapper_run 0 [Ran original]
| run_no_ir f ir r : ExecuteAndWait [] original = 0%Z -> compiles_only -> createUniqueFile [Ran original] = Some f ->
    BuildEmitIRCommandLine original f = Ok ir -> ExecuteAndWait [Ran original; Created f] ir = r -> r <> 0%Z ->
    wrapper_run r [Ran original; Created f; Ran ir; Removed f]
| run_analysis f ir : ExecuteAndWait [] original = 0%Z -> compiles_only -> createUniqueFile [Ran original] = Some f ->
    BuildEmitIRCommandLine original f = Ok ir -> ExecuteAndWait [Ran original; Created f] ir = 0%Z ->
    ShouldInstrument Argv = false ->
    wrapper_run 0 [Ran original; Created f; Ran ir; Ran (bin :: pre ++ [f]); Removed f]
| run_no_output f ir : ExecuteAndWait [] original = 0%Z -> compiles_only -> createUniqueFile [Ran original] = Some f ->
    BuildEmitIRCommandLine original f = Ok ir -> ExecuteAndWait [Ran original; Created f] ir = 0%Z ->
    ShouldInstrument Argv = true -> createUniqueFile [Ran original; Created f; Ran ir] = None ->
    wrapper_run 0 [Ran original; Created f; Ran ir; Removed f]
| run_instrumentation f ir out : ExecuteAndWait [] original = 0%Z -> compiles_only -> createUniqueFile [Ran original] = Some f ->
    BuildEmitIRCommandLine original f = Ok ir -> ExecuteAndWait [Ran original; Created f] ir = 0%Z ->
    ShouldInstrument Argv = true -> createUniqueFile [Ran original; Created f; Ran ir] = Some out ->
    wrapper_run 0 [Ran original; Created f; Ran ir; Created out; Ran (bin :: pre ++ [f; "-o"; out]);
      Ran ((fun a => if isSourceFile a then out else a) <$> original); Removed out; Removed f].
End Run.

Section Spec.
Context `{System}.

Lemma bind_Execute {A} Args (k : Z -> IO A) h : bind (Execute Args) k h = k (ExecuteAndWait h Args) (h ++ [Ran Args]).
Proof. reflexivity. Qed.

Lemma bind_CreateIRFile {A} (k : option string -> IO A) h :
  bind CreateIRFile k h = match createUniqueFile h with Some f => k (Some f) (h ++ [Created f]) | None => k None h end.
Proof. unfold bind, CreateIRFile. by destruct (createUniqueFile h). Qed.

Lemma with_file_eq {A} f (m : IO A) h : with_file f m h = let r := m h in (r.1, r.2 ++ [Removed f]).
Proof. reflexivity. Qed.

Lemma bind_with_file {A B} f (m : IO A) (k : A -> IO B) h :
  bind (with_file f m) k h = let r := m h in k r.1 (r.2 ++ [Removed f]).
Proof. reflexivity. Qed.

Lemma bind_bind {A B C} (m : IO A) (k : A -> IO B) (l : B -> IO C) h : bind (bind m k) l h = bind m (fun a => bind (k a) l) h.
Proof. reflexivity. Qed.

Lemma compiles_only_spec path args : compiles_only args path <-> existsb IsPreventLinkFlag (original args path) = true.
Proof.
  unfold compiles_only. rewrite List.existsb_exists. by setoid_rewrite list_elem_of_In.
Qed.

Lemma main_spec Argv pre prog args path bin :
  invocation Argv pre prog args -> findProgramByName prog = Some path -> findParcoach = Some bin ->
  match main Argv [] with
  | (Ok r, h) => wrapper_run Argv pre args path bin r h
  | _ => copy_arguments args = Broken
  end.
Proof.
  intros Hi Hp Hb. unfold main. destruct (invocation_program _ _ _ _ _ path Hi Hp) as (F & HF & HF').
  pose proof (invocation_nonempty _ _ _ _ Hi) as Hne. destruct Argv as [|a r] eqn:EA; [done|]. rewrite <- EA in *.
  rewrite Hb, HF, HF'. change (path :: args) with (original args path) in *. rewrite bind_Execute. cbn [app].
  destruct (existsb IsPreventLinkFlag (original args path)) eqn:El.
  2:{ cbn [negb]. rewrite orb_true_r. apply run_original; [done|right]. rewrite compiles_only_spec. by rewrite El. }
  assert (compiles_only args path) as Hc by (by apply compiles_only_spec). cbn [negb]. rewrite orb_false_r.
  destruct (Z.eqb_spec (ExecuteAndWait [] (original args path)) 0) as [Eo|Eo]; cbn [negb]; [|apply run_original; [done|by left]].
  rewrite bind_CreateIRFile, Eo. destruct (createUniqueFile [Ran (original args path)]) as [f|] eqn:Ef; [|by apply run_no_file].
  rewrite with_file_eq. assert (forall k, copy_arguments args = k -> k = OutOfFuel -> False) as Hcopy
    by (intros k <-; apply copy_arguments_returns).
  destruct (BuildEmitIRCommandLine (original args path) f) as [ir| |] eqn:Eir; cbn in Eir;
    [|destruct (copy_arguments args); [done|exfalso; by eapply Hcopy|done]..].
  rewrite bind_Execute. cbn [app]. destruct (Z.eqb_spec (ExecuteAndWait [Ran (original args path); Created f] ir) 0) as [Er|Er];
    cbn [negb]; [|by apply run_no_ir].
  unfold run_parcoach. destruct (ShouldInstrument Argv) eqn:Ei.
  - rewrite bind_bind, bind_CreateIRFile. destruct (createUniqueFile [Ran (original args path); Created f; Ran ir]) as [out|] eqn:Eout; [|by apply run_no_output].
    unfold instrument. rewrite bind_with_file, HF', !bind_Execute, (invocation_args _ _ _ _ bin f (Some out) Hi). by apply run_instrumentation.
  - rewrite bind_bind, bind_Execute, (invocation_args _ _ _ _ bin f None Hi). by apply run_analysis.
Qed.

(** C24 (wrapper). On a command line that names a program, with Parcoach installed, the wrapper goes
    one of the ways of [wrapper_run] -- first the original command; the analysis only when it
    succeeds and does not link; its result, or that of generating the IR, as the exit code --,
    unless the arguments end in an output without a file. *)
Theorem main_runs Argv pre prog args path bin :
  invocation Argv pre prog args -> findProgramByName prog = Some path -> findParcoach = Some bin ->
  match main Argv [] with
  | (Ok r, h) => wrapper_run Argv pre args path bin r h
  | _ => copy_arguments args = Broken
  end.
Proof. apply main_spec. Qed.

Lemma found_invocation Argv F : FindProgram findProgramByName Argv = Some F ->
  exists pre prog args path, invocation Argv pre prog args /\ findProgramByName prog = Some path.
Proof.
  unfold FindProgram. destruct (decide (ARGS_ARG ∈ Argv)) as [Hin|Hin].
  - assert (exists pre rest, Argv = pre ++ ARGS_ARG :: rest /\ (ARGS_ARG ∉ pre)) as (pre & rest & -> & Hpre).
    { clear F. induction Argv as [|a r IH]; [by apply not_elem_of_nil in Hin|].
      destruct (decide (a = ARGS_ARG)) as [->|Ha]; [exists [], r; split; [done|apply not_elem_of_nil]|].
      apply elem_of_cons in Hin as [?|Hin]; [congruence|]. destruct (IH Hin) as (pre & rest & -> & Hpre).
      exists (a :: pre), rest. split; [done|]. apply not_elem_of_cons. auto. }
    rewrite find_args_found by done. cbn [snd]. destruct rest as [|prog args]; [done|].
    destruct (findProgramByName prog) as [path|] eqn:E; [|done]. intros _. exists pre, prog, args, path. split; [by constructor|done].
  - rewrite find_args_none by done. cbn [snd]. destruct Argv as [|prog args]; [done|].
    destruct (findProgramByName prog) as [path|] eqn:E; [|done]. intros _. exists [], prog, args, path. split; [by constructor|done].
Qed.

(** The files that are open, the last one made first. *)
Fixpoint open_files (fs : list string) (h : list Action) : option (list string) :=
  match h with
  | [] => Some fs
  | Ran _ :: r => open_files fs r
  | Created f :: r => open_files (f :: fs) r
  | Removed f :: r => match fs with g :: fs' => if bool_decide (f = g) then open_files fs' r else None | [] => None end
  end.

(** C25 (cleanup). Whatever the arguments and whatever the commands answer, when the wrapper returns it
    has removed each file it made, once, the last one made first; and it succeeds only when the first
    command it ran, the original one, did. *)
Theorem main_cleans_up Argv :
  match main Argv [] with
  | (Ok r, h) => open_files [] h = Some [] /\ (r = 0%Z -> exists c h', h = Ran c :: h' /\ ExecuteAndWait [] c = 0%Z)
  | _ => True
  end.
Proof.
  destruct findParcoach as [bin|] eqn:Eb; [|unfold main; rewrite Eb; by destruct Argv].
  destruct (FindProgram findProgramByName Argv) as [F|] eqn:EF; [|unfold main; rewrite Eb, EF; by destruct Argv].
  destruct (found_invocation Argv F EF) as (pre & prog & args & path & Hi & Hp).
  pose proof (main_spec Argv pre prog args path bin Hi Hp Eb) as Hm. destruct (main Argv []) as [[r| |] h]; [|done..].
  assert (forall f : string, bool_decide (f = f) = true) as Hf by (intros f; by apply bool_decide_true).
  destruct Hm; split; try (cbn [open_files]; by rewrite ?Hf); intros E; eexists _, _; (split; [reflexivity|congruence]).
Qed.
End Spec.

(** * Example *)

(** A compiler that always succeeds, and two names for files. *)
Definition quiet_system : System := {|
  findProgramByName := fun s => Some ("/usr/bin/" +:+ s);
  findParcoach := Some "/usr/local/bin/parcoach";
  ExecuteAndWait := fun _ _ => 0%Z;
  createUniqueFile := fun h => Some (if bool_decide (length h = 1) then "ir-1.ll" else "ir-2.ll") |}.

Definition rma_command : ArgList := ["-check=rma"; "--args"; "clang"; "a.c"; "-c"; "-o"; "a.o"].

(** The object is compiled again, from what Parcoach wrote. *)
Lemma main_runs_witness :
  wrapper_run (H := quiet_system) rma_command ["-check=rma"] ["a.c"; "-c"; "-o"; "a.o"] "/usr/bin/clang" "/usr/local/bin/parcoach" 0
    [Ran ["/usr/bin/clang"; "a.c"; "-c"; "-o"; "a.o"]; Created "ir-1.ll";
     Ran ["/usr/bin/clang"; "a.c"; "-g"; "-S"; "-emit-llvm"; "-o"; "ir-1.ll"]; Created "ir-2.ll";
     Ran ["/usr/local/bin/parcoach"; "-check=rma"; "ir-1.ll"; "-o"; "ir-2.ll"];
     Ran ["/usr/bin/clang"; "ir-2.ll"; "-c"; "-o"; "a.o"]; Removed "ir-2.ll"; Removed "ir-1.ll"].
Proof.
  pose proof (main_runs (H := quiet_system) rma_command ["-check=rma"] "clang" ["a.c"; "-c"; "-o"; "a.o"] "/usr/bin/clang"
    "/usr/local/bin/parcoach") as Hm.
  assert (main (H := quiet_system) rma_command [] = (Ok 0%Z, _)) as E by (vm_compute; reflexivity).
  rewrite E in Hm. apply Hm; [|done|done]. apply (with_args ["-check=rma"]). by apply (bool_decide_unpack _).
Defined.

(** With the option spelled with two dashes, which Parcoach takes too, the object is
    not instrumented; neither is that of a source with another suffix. *)
Example two_dashes : ShouldInstrument ["--check=rma"; "--args"; "clang"; "a.c"; "-c"] = false /\
  isSourceFile "a.cc" = false.
Proof. split; vm_compute; reflexivity. Qed.
