(* ===== verification/Report.v ===== *)
(** The passes that are run (Parcoach.cpp, RegisterPasses) and the database of warnings
    (SerializableWarning.cpp, SonarSerializationPass.cpp). LLVM's JSON library is an
    interface with laws. *)
From Stdlib Require Import Ascii.
From S2P Require Import Prelude IR Collectives RmaOverload Warnings.
#[local] Open Scope nat_scope.

(** * The pipeline *)

Inductive Pass :=
| UnifyFunctionExitNodesPass | ShowStats | PrepareOpenMPInstr | EmitDG | RMAInstrumentationPass
| ShowPAInterResult | SonarSerializationPass | ParcoachInstrumentationPass.

#[export] Instance Pass_eq_dec : EqDecision Pass.
Proof. solve_decision. Defined.

Record PassOptions := {
  OptStats : bool; OptInstrumInter : bool; OptContextInsensitive : bool; OptDotGraph : bool; OptDotTaintPaths : bool
}.

(** The passes in order; [None]: the program exits. *)
Definition RegisterPasses (cfg : BuildConfig) (o : Options) (p : PassOptions) : option (list Pass) :=
  if negb (OptContextInsensitive p) && OptDotTaintPaths p then None
  else Some ([UnifyFunctionExitNodesPass] ++
    if OptStats p then [ShowStats]
    else
      (if enable_openmp cfg && isActivated cfg o OMP then [PrepareOpenMPInstr] else []) ++
      (if OptDotGraph p then [EmitDG] else []) ++
      (if isActivated cfg o RMA then [RMAInstrumentationPass]
       else [ShowPAInterResult; SonarSerializationPass] ++ if OptInstrumInter p then [ParcoachInstrumentationPass] else [])).

(** What the lists of passes have in common: exit nodes are unified first, no pass is
    run twice, the code is instrumented last and by one pass at most, OpenMP is prepared
    before anything reads the module, and paths are drawn without contexts only. *)
Lemma RegisterPasses_order cfg o p l : RegisterPasses cfg o p = Some l ->
  head l = Some UnifyFunctionExitNodesPass /\ NoDup l /\
  (forall k, l !! k = Some RMAInstrumentationPass \/ l !! k = Some ParcoachInstrumentationPass -> S k = length l) /\
  (PrepareOpenMPInstr ∈ l -> l !! 1 = Some PrepareOpenMPInstr) /\
  (OptDotTaintPaths p = true -> OptContextInsensitive p = true).
Proof.
  unfold RegisterPasses. generalize (enable_openmp cfg && isActivated cfg o OMP) (isActivated cfg o RMA).
  intros omp rma. destruct p as [st i c d tp].
  cbn [OptStats OptInstrumInter OptContextInsensitive OptDotGraph OptDotTaintPaths].
  destruct tp, c; [|done| |]; intros [= <-]; (split; [done|]); destruct st, omp, d, rma, i;
    (split; [apply (bool_decide_unpack _); vm_compute; exact I|]);
    (split; [intros k [Hk|Hk]; do 7 (destruct k as [|k]; [done|]); done|]);
    (split; [|done]); intros H; apply (bool_decide_pack _) in H; done.
Qed.

(** * JSON *)

(** [llvm::json]: values, what is asked of them, and the text. *)
Class JSON := {
  Value : Type;
  ofString : string -> Value;
  ofInteger : Z -> Value;
  ofArray : list Value -> Value;
  ofObject : list (string * Value) -> Value;
  getAsString : Value -> option string;
  getAsInteger : Value -> option Z;
  getAsArray : Value -> option (list Value);
  getField : Value -> string -> option Value;
  print : Value -> string;
  parse : string -> option Value
}.

(** What the library promises; strings are UTF-8. *)
Class JSONLaws (J : JSON) (utf8 : string -> Prop) := {
  get_string s : utf8 s -> getAsString (ofString s) = Some s;
  get_integer z : in_int32 z = true -> getAsInteger (ofInteger z) = Some z;
  get_array l : getAsArray (ofArray l) = Some l;
  get_field l k v : NoDup l.*1 -> (k, v) ∈ l -> getField (ofObject l) k = Some v;
  parse_print v : parse (print v) = Some v
}.

Section Database.
Context `{J : JSON}.

(** [TextRange], [Location], [Warning] and [Database] of the namespace [sonar]. *)
Record SonarLocation := { filePath : string; startLine : Z; message : string }.
Record SonarWarning := { primary : SonarLocation; secondary : list SonarLocation }.
Abbreviation Database := (list SonarWarning).

Definition createWarningMessage (F : string) : string := F +:+ " may not be called by all MPI processes".

(** The constructor from a warning. *)
Definition mk_SonarWarning (W : Warning) : SonarWarning :=
  {| primary := {| filePath := Filename (Where W); startLine := Line (Where W); message := createWarningMessage (MissedFunction W) |};
     secondary := (fun Cond => {| filePath := Filename Cond; startLine := Line Cond;
                                  message := "because this condition depends on the rank" |}) <$> Conditionals W |}.

Definition append (DB : Database) (Warnings : list Warning) : Database := DB ++ (mk_SonarWarning <$> Warnings).

(** [toJSON]. *)
Definition location_toJSON (L : SonarLocation) : Value :=
  ofObject [("filePath", ofString (filePath L)); ("textRange", ofObject [("startLine", ofInteger (startLine L))]);
            ("message", ofString (message L))].
Definition warning_toJSON (W : SonarWarning) : Value :=
  ofObject [("engineId", ofString "parcoach"); ("ruleId", ofString "mpiCollective"); ("severity", ofString "MINOR");
            ("type", ofString "BUG"); ("primaryLocation", location_toJSON (primary W));
            ("secondaryLocations", ofArray (location_toJSON <$> secondary W))].
Definition database_toJSON (DB : Database) : Value := ofObject [("issues", ofArray (warning_toJSON <$> DB))].

(** [fromJSON], with the library's for strings, integers and vectors. *)
Definition range_fromJSON (E : Value) : option Z := getField E "startLine" ≫= getAsInteger.
Definition location_fromJSON (E : Value) : option SonarLocation :=
  m ← getField E "message" ≫= getAsString; f ← getField E "filePath" ≫= getAsString;
  r ← getField E "textRange" ≫= range_fromJSON;
  Some {| filePath := f; startLine := r; message := m |}.
Definition vector_fromJSON {A} (f : Value -> option A) (E : Value) : option (list A) := getAsArray E ≫= mapM f.
Definition warning_fromJSON (E : Value) : option SonarWarning :=
  p ← getField E "primaryLocation" ≫= location_fromJSON;
  s ← getField E "secondaryLocations" ≫= vector_fromJSON location_fromJSON;
  Some {| primary := p; secondary := s |}.
Definition database_fromJSON (E : Value) : option Database := getField E "issues" ≫= vector_fromJSON warning_fromJSON.

Definition load (Json : string) : option Database := parse Json ≫= database_fromJSON.
Definition write (DB : Database) : string := print (database_toJSON DB).

(** [loadDatabase]: a file that cannot be read is an empty database. *)
Definition loadDatabase (file : option string) : option Database :=
  match file with Some contents => load contents | None => Some [] end.

(** What the pass reads and writes: the file of that name, the rest of the
    standard input and what was written to the standard output. *)
Record Streams := { dbFile : option string; standardInput : string; standardOutput : string }.

Definition with_dbFile (f : option string) (s : Streams) : Streams :=
  {| dbFile := f; standardInput := standardInput s; standardOutput := standardOutput s |}.

(** [getFileOrSTDIN]: "-" is the standard input, up to its end. *)
Definition getFileOrSTDIN (DatabaseFile : string) (s : Streams) : option string * Streams :=
  if bool_decide (DatabaseFile = "-") then
    (Some (standardInput s), {| dbFile := dbFile s; standardInput := ""; standardOutput := standardOutput s |})
  else (dbFile s, s).

(** [saveDatabase]: "-" is the standard output; [can_open]: another file can be
    opened for writing. *)
Definition saveDatabase (DatabaseFile : string) (can_open : bool) (DB : Database) (s : Streams) : Streams :=
  if bool_decide (DatabaseFile = "-") then
    {| dbFile := dbFile s; standardInput := standardInput s; standardOutput := standardOutput s +:+ write DB |}
  else if can_open then with_dbFile (Some (write DB)) s else s.

(** [SonarSerializationPass::run]. *)
Definition SonarSerialization_run (DatabaseFile : string) (can_open : bool) (s : Streams) (Res : list Warning) : Streams :=
  if bool_decide (DatabaseFile = "") then s
  else let '(contents, s1) := getFileOrSTDIN DatabaseFile s in
       match loadDatabase contents with
       | None => s1
       | Some DB => saveDatabase DatabaseFile can_open (append DB Res) s1
       end.

(** * What the file holds *)

Context (utf8 : string -> Prop) `{!JSONLaws J utf8}.

Definition location_ok (L : SonarLocation) : Prop := utf8 (filePath L) /\ utf8 (message L) /\ in_int32 (startLine L) = true.
Definition issue_ok (W : SonarWarning) : Prop := location_ok (primary W) /\ Forall location_ok (secondary W).

(** A field of an object that is written out. *)
Ltac read_field k v :=
  rewrite (get_field _ k v); [|apply (bool_decide_unpack _); vm_compute; exact I|apply list_elem_of_In; simpl; tauto].

Lemma location_roundtrip L : location_ok L -> location_fromJSON (location_toJSON L) = Some L.
Proof.
  intros (Hf & Hm & Hl). unfold location_fromJSON, location_toJSON, range_fromJSON.
  read_field "message" (ofString (message L)). read_field "filePath" (ofString (filePath L)).
  read_field "textRange" (ofObject [("startLine", ofInteger (startLine L))]). cbn [mbind option_bind].
  read_field "startLine" (ofInteger (startLine L)). cbn [mbind option_bind].
  rewrite !get_string, get_integer by done. by destruct L.
Qed.

Lemma vector_roundtrip {A} (to : A -> Value) (from : Value -> option A) l :
  Forall (fun x => from (to x) = Some x) l -> vector_fromJSON from (ofArray (to <$> l)) = Some l.
Proof.
  intros H. unfold vector_fromJSON. rewrite get_array. cbn [mbind option_bind]. apply mapM_Some.
  induction H; constructor; done.
Qed.

Lemma warning_roundtrip W : issue_ok W -> warning_fromJSON (warning_toJSON W) = Some W.
Proof.
  intros [Hp Hs]. unfold warning_fromJSON, warning_toJSON.
  read_field "primaryLocation" (location_toJSON (primary W)).
  read_field "secondaryLocations" (ofArray (location_toJSON <$> secondary W)). cbn [mbind option_bind].
  rewrite (location_roundtrip _ Hp). cbn [mbind option_bind]. rewrite vector_roundtrip; [by destruct W|].
  eapply Forall_impl; [exact Hs|]. apply location_roundtrip.
Qed.

Lemma database_roundtrip DB : Forall issue_ok DB -> load (write DB) = Some DB.
Proof.
  intros H. unfold load, write, database_fromJSON, database_toJSON. rewrite parse_print. cbn [mbind option_bind].
  read_field "issues" (ofArray (warning_toJSON <$> DB)). cbn [mbind option_bind]. apply vector_roundtrip.
  eapply Forall_impl; [exact H|]. apply warning_roundtrip.
Qed.

(** The names and files of a warning are UTF-8, its lines integers. *)
Definition reportable (W : Warning) : Prop := issue_ok (mk_SonarWarning W).

Lemma append_ok DB ws : Forall issue_ok DB -> Forall reportable ws -> Forall issue_ok (append DB ws).
Proof. intros HDB Hws. apply Forall_app. split; [done|]. by apply Forall_fmap. Qed.

(** A run on a file that loads. *)
Lemma run_appends DatabaseFile s DB ws :
  DatabaseFile <> ""%string -> DatabaseFile <> "-"%string -> loadDatabase (dbFile s) = Some DB ->
  SonarSerialization_run DatabaseFile true s ws = with_dbFile (Some (write (append DB ws))) s.
Proof.
  intros Hn Hd Hl. unfold SonarSerialization_run, getFileOrSTDIN, saveDatabase.
  rewrite !bool_decide_false by done. cbv beta iota. by rewrite Hl.
Qed.

Lemma run_appends_load DatabaseFile s DB ws :
  DatabaseFile <> ""%string -> DatabaseFile <> "-"%string -> loadDatabase (dbFile s) = Some DB -> Forall issue_ok DB ->
  Forall reportable ws -> loadDatabase (dbFile (SonarSerialization_run DatabaseFile true s ws)) = Some (append DB ws).
Proof. intros Hn Hd Hl HDB Hws. rewrite (run_appends _ _ DB) by done. by apply database_roundtrip, append_ok. Qed.

(** A run on the standard input and output. *)
Lemma run_standard can_open s DB ws :
  load (standardInput s) = Some DB -> Forall issue_ok DB -> Forall reportable ws ->
  exists text, load text = Some (append DB ws) /\ SonarSerialization_run "-" can_open s ws =
    {| dbFile := dbFile s; standardInput := ""; standardOutput := standardOutput s +:+ text |}.
Proof.
  intros Hl HDB Hws. exists (write (append DB ws)). split; [by apply database_roundtrip, append_ok|].
  unfold SonarSerialization_run, getFileOrSTDIN, saveDatabase. cbn [loadDatabase]. simpl. by rewrite Hl.
Qed.
End Database.

(** C26 (database). Runs of Parcoach with one database accumulate: the file they leave loads to the
    issues it held, then those of each run in order, and the standard streams are untouched; a file
    that does not load, or that cannot be written, stays as it was. The name "-" stands for the
    standard streams: a run writes to the output the issues read from the input, then its own, and
    leaves every file. *)
Theorem warnings_accumulate `{J : JSON} (utf8 : string -> Prop) `{!JSONLaws J utf8} DatabaseFile s DB runs :
  DatabaseFile <> ""%string -> DatabaseFile <> "-"%string -> loadDatabase (dbFile s) = Some DB ->
  Forall (issue_ok utf8) DB -> Forall (Forall (reportable utf8)) runs ->
  (exists file, fold_left (SonarSerialization_run DatabaseFile true) runs s = with_dbFile file s /\
     loadDatabase file = Some (DB ++ (mk_SonarWarning <$> concat runs))) /\
  (forall can_open other ws, loadDatabase (dbFile other) = None \/ can_open = false ->
     SonarSerialization_run DatabaseFile can_open other ws = other) /\
  (forall can_open other DB' ws, load (standardInput other) = Some DB' -> Forall (issue_ok utf8) DB' ->
     Forall (reportable utf8) ws ->
     exists text, load text = Some (DB' ++ (mk_SonarWarning <$> ws)) /\
       SonarSerialization_run "-" can_open other ws =
         {| dbFile := dbFile other; standardInput := ""; standardOutput := standardOutput other +:+ text |}).
Proof.
  intros Hn Hd Hl HDB Hr. split; [|split].
  - revert s DB Hl HDB. induction Hr as [|ws runs Hws Hr IH]; intros s DB Hl HDB.
    + exists (dbFile s). simpl. rewrite app_nil_r. by destruct s.
    + cbn [fold_left concat]. destruct (IH (SonarSerialization_run DatabaseFile true s ws) (append DB ws)) as (file & E & Hf);
        [by apply (run_appends_load utf8)|by apply append_ok|].
      exists file. rewrite E, (run_appends _ _ DB) by done. split; [done|]. rewrite Hf. unfold append.
      by rewrite fmap_app, (assoc_L (++)).
  - intros can_open other ws H. unfold SonarSerialization_run, getFileOrSTDIN, saveDatabase.
    rewrite !bool_decide_false by done. cbv beta iota. destruct H as [->| ->]; [done|]. by destruct (loadDatabase (dbFile other)).
  - intros can_open other DB' ws Hi HDB' Hws. by apply (run_standard utf8).
Qed.

(** * An implementation *)

(** Values as trees, and the text as their code in unary digits of bits. *)
Abbreviation Tree := (gen_tree (string + Z)).

Fixpoint bits (p : positive) : string :=
  match p with xH => EmptyString | xO q => String "0"%char (bits q) | xI q => String "1"%char (bits q) end.
Fixpoint of_bits (s : string) : positive :=
  match s with EmptyString => xH | String c q => if bool_decide (c = "0"%char) then xO (of_bits q) else xI (of_bits q) end.

Lemma of_bits_bits p : of_bits (bits p) = p.
Proof. induction p as [p IH|p IH|]; simpl; by rewrite ?IH. Qed.

Fixpoint lookup_tree (k : string) (l : list Tree) : option Tree :=
  match l with
  | GenLeaf (inl k') :: v :: r => if bool_decide (k = k') then Some v else lookup_tree k r
  | _ => None
  end.

#[export] Instance tree_json : JSON := {|
  Value := Tree;
  ofString := fun s => GenLeaf (inl s);
  ofInteger := fun z => GenLeaf (inr z);
  ofArray := GenNode 0;
  ofObject := fun l => GenNode 1 (concat ((fun p => [GenLeaf (inl p.1); p.2]) <$> l));
  getAsString := fun v => match v with GenLeaf (inl s) => Some s | _ => None end;
  getAsInteger := fun v => match v with GenLeaf (inr z) => Some z | _ => None end;
  getAsArray := fun v => match v with GenNode 0 l => Some l | _ => None end;
  getField := fun v k => match v with GenNode 1 l => lookup_tree k l | _ => None end;
  print := fun v => bits (encode v);
  parse := fun s => decode (of_bits s)
|}.

#[export] Instance tree_json_laws : JSONLaws tree_json (fun _ => True).
Proof.
  split; try done.
  - intros l k v Hk Hv. cbn. induction l as [|[k' v'] l IH]; [by apply not_elem_of_nil in Hv|].
    cbn. cbn in Hk. apply NoDup_cons in Hk as [Hk' Hk]. apply elem_of_cons in Hv as [[= <- <-]|Hv]; [by rewrite bool_decide_true|].
    rewrite bool_decide_false; [by apply IH|]. intros ->. apply Hk', list_elem_of_fmap. by exists (k', v).
  - intros v. cbn [parse print tree_json]. rewrite of_bits_bits. apply decode_encode.
Qed.

Definition barrier_warning : Warning :=
  {| MissedFunction := "MPI_Barrier"; Where := {| Filename := "a.c"; Line := 9 |};
     Conditionals := [{| Filename := "a.c"; Line := 8 |}] |}.

(** No file yet. *)
Definition no_file : Streams := {| dbFile := None; standardInput := ""; standardOutput := "" |}.

Lemma warnings_accumulate_witness :
  loadDatabase (J := tree_json)
    (dbFile (fold_left (SonarSerialization_run "db.json" true) [[barrier_warning]; []; [barrier_warning]] no_file)) =
    Some [mk_SonarWarning barrier_warning; mk_SonarWarning barrier_warning].
Proof.
  destruct (warnings_accumulate (fun _ => True) "db.json" no_file [] [[barrier_warning]; []; [barrier_warning]])
    as [(file & E & H) _]; [done|done|done|constructor|repeat constructor|].
  rewrite E. exact H.
Defined.
