(* ===== verification/OmpThreads.v ===== *)
(** The OpenMP check as its threads run it (OMP_DynamicCheck.c): barriers, atomic
    increments and the master's part interleave in any order. *)
From stdpp Require Import relations.
From S2P Require Import Prelude IR Collectives DynamicCheck.
#[local] Open Scope nat_scope.

(** * Lists *)

Lemma minimum (l : list nat) : l <> [] -> exists i p, l !! i = Some p /\ forall q, q ∈ l -> p <= q.
Proof.
  induction l as [|x l IH]; [done|]. intros _. destruct l as [|y l]; [exists 0, x; split; [done|]; set_solver by lia|].
  destruct IH as (i & p & Hi & Hp); [done|]. destruct (decide (x <= p)) as [Hx|Hx].
  - exists 0, x. split; [done|]. intros q [->|Hq]%elem_of_cons; [lia|]. specialize (Hp q Hq). lia.
  - exists (S i), p. split; [done|]. intros q [->|Hq]%elem_of_cons; [lia|by apply Hp].
Qed.

Lemma sum_list_insert l : forall i p, l !! i = Some p -> sum_list (<[i := S p]> l) = S (sum_list l).
Proof. induction l as [|x l IH]; intros [|i] p Hi; simpl in *; [done..|by injection Hi as ->|]. rewrite (IH i p Hi). lia. Qed.

Lemma sum_list_bound l b : (forall i p, l !! i = Some p -> p <= b) -> sum_list l <= b * length l.
Proof.
  induction l as [|x l IH]; intros H; simpl; [lia|]. pose proof (H 0 x eq_refl). specialize (IH (fun i => H (S i))). lia.
Qed.

(** * The threads *)

(** Where each thread is, the shared counters, and whether the program is aborted.
    The position [6 * r + k] is the step [k] of the call number [r]. *)
Record Team := { pos : list nat; counters : Counters; aborted : bool }.

Section Threads.
(** [n] threads; each calls the check [K] times, with a colour. *)
Context (n K : nat) (color : nat -> nat -> Z).

Definition advance (i p : nat) (c : Counters) (s : Team) : Team :=
  {| pos := <[i := S p]> (pos s); counters := c; aborted := aborted s |}.

(** A step of the thread [i]: the master resets the counters; a barrier; the atomic
    increment; a barrier; the master looks at the counters; a barrier. A thread leaves
    a barrier when all have come to it. *)
Definition thread_step (s : Team) (i : nat) : option Team :=
  if aborted s then None
  else match pos s !! i with
  | None => None
  | Some p =>
      if 6 * K <=? p then None
      else match p mod 6 with
      | 0 => Some (advance i p (if i =? 0 then no_counts else counters s) s)
      | 2 => Some (advance i p (count_color (counters s) (color i (p / 6))) s)
      | 4 => if (i =? 0) && is_incorrect (counters s) n
             then Some {| pos := pos s; counters := counters s; aborted := true |}
             else Some (advance i p (counters s) s)
      | _ => if forallb (fun q => p <=? q) (pos s) then Some (advance i p (counters s) s) else None
      end
  end.

Definition team_step (s s' : Team) : Prop := exists i, thread_step s i = Some s'.

Definition team_start (c : Counters) : Team := {| pos := replicate n 0; counters := c; aborted := false |}.

(** The colours of a round, by thread, and the verdict of the sequential check. *)
Definition round_colors (r : nat) : list Z := (fun i => color i r) <$> seq 0 n.
Definition round_aborts (r : nat) : bool := check_collective_OMP true (round_colors r).

(** * The invariant *)

(** The colours counted in the round [r]. *)
Definition counted_by (r i p : nat) : list Z := if 6 * r + 3 <=? p then [color i r] else [].
Definition counted (r : nat) (ps : list nat) : list Z := concat (imap (counted_by r) ps).

Record team_inv (s : Team) : Prop := {
  ti_threads : length (pos s) = n;
  ti_bound : forall i p, pos s !! i = Some p -> p <= 6 * K;
  (** nobody is past a barrier somebody has not come to *)
  ti_barrier : forall i j p q b, pos s !! i = Some p -> pos s !! j = Some q -> 2 * b + 1 < p -> 2 * b + 1 <= q;
  (** from the master's reset to the next, the counters are those of the round *)
  ti_counters : forall P r, pos s !! 0 = Some P -> 6 * r < P <= 6 * r + 6 ->
    counters s = fold_left count_color (counted r (pos s)) no_counts;
  ti_passed : forall P r, pos s !! 0 = Some P -> 6 * r + 4 < P -> round_aborts r = false;
  ti_aborted : aborted s = true -> exists r, r < K /\ pos s !! 0 = Some (6 * r + 4) /\ round_aborts r = true
}.

(** The increments commute. *)
Lemma count_color_comm c x y : count_color (count_color c x) y = count_color (count_color c y) x.
Proof.
  assert (forall d z, count_color d z =
    if (z =? 36)%Z then count_color d 36 else if (z =? 1)%Z then count_color d 1 else if (z =? 38)%Z then count_color d 38
    else if (z =? 3)%Z then count_color d 3 else if (z =? 4)%Z then count_color d 4 else if (z =? 5)%Z then count_color d 5 else d) as H.
  { intros d z. repeat (destruct (Z.eqb_spec z _); [by subst|]). destruct d as [e i s sec f r]. unfold count_color.
    destruct z as [|z|z]; try done. repeat (destruct z as [z|z|]; try done). }
  rewrite (H (count_color c x) y), (H c x), (H c y), (H _ x). destruct c; repeat case_match; simplify_eq/=; done.
Qed.

Lemma fold_count_perm l l' : l ≡ₚ l' -> forall c, fold_left count_color l c = fold_left count_color l' c.
Proof.
  induction 1 as [|x l l' _ IH|x y l|l l' l'' _ IH1 _ IH2]; intros c; cbn [fold_left]; [done|apply IH| |by rewrite IH1].
  by rewrite count_color_comm.
Qed.

Lemma concat_imap_insert {A} (f : nat -> nat -> list A) l : forall i p q, l !! i = Some p -> f i p = [] ->
  concat (imap f (<[i := q]> l)) ≡ₚ f i q ++ concat (imap f l).
Proof.
  revert f. induction l as [|x l IH]; intros f [|i] p q Hi Hf; [done|done| |].
  - injection Hi as ->. cbn. by rewrite Hf.
  - cbn. rewrite (IH (f ∘ S) i p q Hi Hf). cbn. by rewrite Permutation_app_swap_app.
Qed.

Lemma imap_insert_same {A} (f : nat -> nat -> A) l : forall i p q, l !! i = Some p -> f i q = f i p -> imap f (<[i := q]> l) = imap f l.
Proof.
  revert f. induction l as [|x l IH]; intros f [|i] p q Hi Hf; [done|done| |].
  - injection Hi as ->. cbn. by rewrite Hf.
  - cbn. f_equal. by apply (IH (f ∘ S) i p).
Qed.

Lemma imap_all (f : nat -> nat -> list Z) (g : nat -> Z) l : forall k, (forall i p, l !! i = Some p -> f i p = [g (k + i)]) ->
  concat (imap f l) = g <$> seq k (length l).
Proof.
  revert f. induction l as [|x l IH]; intros f k H; [done|]. cbn. rewrite (H 0 x) by done. rewrite Nat.add_0_r. cbn. f_equal.
  apply (IH (f ∘ S) (S k)). intros i p Hi. cbn. rewrite (H (S i) p Hi). f_equal. f_equal. lia.
Qed.

Lemma imap_none (f : nat -> nat -> list Z) l : (forall i p, l !! i = Some p -> f i p = []) -> concat (imap f l) = [].
Proof.
  revert f. induction l as [|x l IH]; intros f H; [done|]. cbn. rewrite (H 0 x) by done. cbn. apply IH. intros i p Hi. by apply (H (S i)).
Qed.

Lemma counted_same r i p ps : ps !! i = Some p -> p <> 6 * r + 2 -> counted r (<[i := S p]> ps) = counted r ps.
Proof.
  intros Hi Hp. unfold counted. f_equal. apply (imap_insert_same _ _ i p); [done|]. unfold counted_by.
  destruct (Nat.leb_spec (6 * r + 3) (S p)), (Nat.leb_spec (6 * r + 3) p); done || lia.
Qed.

Lemma counted_move r i ps : ps !! i = Some (6 * r + 2) -> counted r (<[i := S (6 * r + 2)]> ps) ≡ₚ counted r ps ++ [color i r].
Proof.
  intros Hi. unfold counted. rewrite (concat_imap_insert _ _ i _ _ Hi).
  - unfold counted_by at 1. rewrite (proj2 (Nat.leb_le _ _)) by lia. by rewrite Permutation_app_comm.
  - unfold counted_by. by rewrite (proj2 (Nat.leb_gt _ _)) by lia.
Qed.

Lemma counted_none r ps : (forall i p, ps !! i = Some p -> p <= 6 * r + 2) -> counted r ps = [].
Proof.
  intros H. apply imap_none. intros i p Hi. unfold counted_by. rewrite (proj2 (Nat.leb_gt _ _)); [done|]. specialize (H i p Hi). lia.
Qed.

Lemma counted_all r ps : length ps = n -> (forall i p, ps !! i = Some p -> 6 * r + 3 <= p) -> counted r ps = round_colors r.
Proof.
  intros Hn H. unfold counted. rewrite (imap_all _ (fun i => color i r) _ 0); [by rewrite Hn|]. intros i p Hi.
  unfold counted_by. by rewrite (proj2 (Nat.leb_le _ _)) by (by apply (H i)).
Qed.

(** What moving one thread has to keep. *)
Lemma inv_advance s i p c : team_inv s -> aborted s = false -> pos s !! i = Some p -> p < 6 * K ->
  (forall b, p = 2 * b + 1 -> forall j q, pos s !! j = Some q -> p <= q) ->
  (forall P r, <[i := S p]> (pos s) !! 0 = Some P -> 6 * r < P <= 6 * r + 6 ->
     c = fold_left count_color (counted r (<[i := S p]> (pos s))) no_counts) ->
  (forall r, i = 0 -> p = 6 * r + 4 -> round_aborts r = false) ->
  team_inv (advance i p c s).
Proof.
  intros [H1 H2 H3 H4 H5 H6] Ha Hi HK Hb Hc Hp.
  assert (forall j q, <[i := S p]> (pos s) !! j = Some q -> j = i /\ q = S p \/ j <> i /\ pos s !! j = Some q) as Hnew.
  { intros j q Hj. apply list_lookup_insert_Some in Hj as [(-> & <- & _)|[? ?]]; auto. }
  split; cbn [advance pos counters aborted].
  - by rewrite length_insert.
  - intros j q [[-> ->]|[_ Hj]]%Hnew; [lia|by apply (H2 j)].
  - intros j j' q q' b [[-> ->]|[_ Hj]]%Hnew [[-> ->]|[_ Hj']]%Hnew Hlt; [lia| | |by apply (H3 j j' q)].
    + destruct (decide (2 * b + 1 < p)) as [Hlt'|]; [by apply (H3 i j' p)|]. assert (p = 2 * b + 1) as E by lia.
      rewrite <- E. by apply (Hb b E j').
    + assert (2 * b + 1 <= p) by (by apply (H3 j i q)). lia.
  - exact Hc.
  - intros P r [[E ->]|[_ HP]]%Hnew Hlt; [|by apply (H5 P)].
    destruct (decide (p = 6 * r + 4)) as [E'|]; [by apply Hp|]. apply (H5 p); [by rewrite E|lia].
  - rewrite Ha. done.
Qed.

(** The round of the master is that of every thread between two barriers. *)
Lemma same_round s i r P r' : team_inv s -> pos s !! i = Some (6 * r + 2) -> pos s !! 0 = Some P -> 6 * r' < P <= 6 * r' + 6 -> r' = r.
Proof.
  intros H Hi HP Hr. pose proof (ti_barrier s H i 0 _ _ (3 * r) Hi HP) as H1.
  destruct (decide (r' < r)); [lia|]. destruct (decide (r < r')) as [|]; [|lia].
  pose proof (ti_barrier s H 0 i _ _ (3 * r + 2) HP Hi) as H2. lia.
Qed.

Hypothesis (Hn : 2 <= n).

Lemma round_aborts_eq s r : team_inv s -> pos s !! 0 = Some (6 * r + 4) -> round_aborts r = is_incorrect (counters s) n.
Proof.
  intros H HP. rewrite (ti_counters s H _ r HP) by lia. rewrite counted_all; [|apply (ti_threads s H)|].
  - unfold round_aborts, check_collective_OMP. assert (length (round_colors r) = n) as -> by (unfold round_colors; by rewrite length_fmap, length_seq).
    by rewrite (proj2 (Nat.eqb_neq n 1)) by lia.
  - intros i p Hi. pose proof (ti_barrier s H 0 i _ _ (3 * r + 1) HP Hi). lia.
Qed.

(** The counters after a step that does not write them. *)
Lemma counters_kept s i p : team_inv s -> pos s !! i = Some p -> p mod 6 <> 2 -> (i = 0 -> p mod 6 <> 0) ->
  forall P r, <[i := S p]> (pos s) !! 0 = Some P -> 6 * r < P <= 6 * r + 6 ->
  counters s = fold_left count_color (counted r (<[i := S p]> (pos s))) no_counts.
Proof.
  intros H Hi H2 H0 P r HP Hr. rewrite counted_same; [|done|intros ->; apply H2; by rewrite Nat.mul_comm, Nat.add_comm, Nat.Div0.mod_add].
  apply list_lookup_insert_Some in HP as [(-> & <- & _)|[_ HP]]; [|by apply (ti_counters s H P)].
  apply (ti_counters s H p); [done|]. assert (p <> 6 * r); [|lia]. intros ->. apply H0; [done|]. by rewrite Nat.mul_comm, Nat.Div0.mod_mul.
Qed.

Lemma team_step_inv s s' : team_inv s -> team_step s s' -> team_inv s'.
Proof.
  intros H [i Hs]. unfold thread_step in Hs. destruct (aborted s) eqn:Ea; [done|]. destruct (pos s !! i) as [p|] eqn:Hi; [|done].
  destruct (Nat.leb_spec (6 * K) p) as [|HK]; [done|]. pose proof (Nat.div_mod_eq p 6) as Hp. set (r := p / 6) in *.
  pose proof (Nat.mod_upper_bound p 6 ltac:(lia)) as Hm.
  assert (forall b, p mod 6 <> 1 -> p mod 6 <> 3 -> p mod 6 <> 5 -> p <> 2 * b + 1) as Hodd by (intros b ? ? ? ->; lia).
  assert (forall k, p mod 6 = k -> k = 1 \/ k = 3 \/ k = 5 ->
    (if forallb (fun q => p <=? q) (pos s) then Some (advance i p (counters s) s) else None) = Some s' -> team_inv s') as Hbar.
  { intros k Hk Hk' E. destruct (forallb _ (pos s)) eqn:Ef; [injection E as <-|done]. apply inv_advance; [done..| | |].
    - intros b _ j q Hj. rewrite forallb_forall in Ef. apply Nat.leb_le, Ef, list_elem_of_In. by eapply list_elem_of_lookup_2.
    - apply counters_kept; [done|done|lia|lia].
    - intros r' _ E. exfalso. lia. }
  destruct (p mod 6) as [|[|[|[|[|[|k]]]]]] eqn:Hk; [| | | | | |lia].
  - injection Hs as <-. apply inv_advance; [done..| | |].
    + intros b E. exfalso. apply (Hodd b); lia.
    + destruct (Nat.eqb_spec i 0) as [->|Hi0]; [|apply counters_kept; [done|done|lia|lia]].
      intros P r' HP Hr. rewrite counted_none; [done|]. intros j q Hj.
      apply list_lookup_insert_Some in HP as [(_ & <- & _)|[? ?]]; [|done].
      apply list_lookup_insert_Some in Hj as [(-> & <- & _)|[_ Hj]]; [lia|].
      destruct (decide (q <= 6 * r' + 2)) as [|Hq]; [done|]. pose proof (ti_barrier s H j 0 q p (3 * r') Hj Hi). lia.
    + intros r' _ E. exfalso. lia.
  - by apply (Hbar 1); auto.
  - injection Hs as <-. apply inv_advance; [done..| | |].
    + intros b E. exfalso. apply (Hodd b); lia.
    + intros P r' HP Hr. assert (r' = r) as ->.
      { apply list_lookup_insert_Some in HP as [(_ & <- & _)|[_ HP]]; [lia|].
        apply (same_round s i r P r'); [done|by rewrite Hi, Hp|done|done]. }
      assert (p = 6 * r + 2) as E by lia. rewrite E in Hi |- *. rewrite (fold_count_perm _ _ (counted_move r i (pos s) Hi)), fold_left_app.
      cbn [fold_left]. f_equal. apply list_lookup_insert_Some in HP as [(-> & _ & _)|[_ HP]]; [|by apply (ti_counters s H P)].
      apply (ti_counters s H _ r Hi). lia.
    + intros r' _ E. exfalso. lia.
  - by apply (Hbar 3); auto.
  - destruct ((i =? 0) && is_incorrect (counters s) n) eqn:Ec; injection Hs as <-.
    + apply andb_true_iff in Ec as [->%Nat.eqb_eq Ec]. pose proof H as [H1 H2 H3 H4 H5 _]. split; [done..|].
      intros _. exists r. assert (p = 6 * r + 4) as E by lia. rewrite E in Hi. split; [lia|]. split; [done|].
      by rewrite (round_aborts_eq s r).
    + apply inv_advance; [done..| | |].
      * intros b E. exfalso. apply (Hodd b); lia.
      * apply counters_kept; [done|done|lia|lia].
      * intros r' -> E. rewrite E in Hi. rewrite (round_aborts_eq s r' H Hi). by destruct (is_incorrect (counters s) n).
  - by apply (Hbar 5); auto.
Qed.

Lemma team_start_inv c : team_inv (team_start c).
Proof.
  assert (forall i p, replicate n 0 !! i = Some p -> p = 0) as H by (intros i p [? _]%lookup_replicate; done).
  split; cbn [team_start pos counters aborted].
  - apply length_replicate.
  - intros i p ->%H. lia.
  - intros i j p q b ->%H _. lia.
  - intros P r ->%H. lia.
  - intros P r ->%H. lia.
  - done.
Qed.

(** * Every run ends, with the verdict of the sequential check *)

(** The thread that is furthest behind is never kept waiting. *)
Lemma team_progress s : team_inv s -> aborted s = false -> (exists i p, pos s !! i = Some p /\ p < 6 * K) -> exists s', team_step s s'.
Proof.
  intros H Ha (i0 & p0 & Hi0 & Hp0). destruct (minimum (pos s)) as (i & p & Hi & Hp); [intros E; by rewrite E in Hi0|].
  assert (p <= p0) by (apply Hp; by eapply list_elem_of_lookup_2).
  assert (forallb (fun q => p <=? q) (pos s) = true) as Hb.
  { apply forallb_forall. intros q Hq%list_elem_of_In. by apply Nat.leb_le, Hp. }
  enough (exists s', thread_step s i = Some s') as [s' E] by (by exists s', i).
  unfold thread_step. rewrite Ha, Hi, (proj2 (Nat.leb_gt _ _)), Hb by lia.
  destruct (p mod 6) as [|[|[|[|[|[|k]]]]]]; eauto. by destruct (_ && _); eauto.
Qed.

(** Each step moves a thread or aborts. *)
Definition progress (s : Team) : nat := sum_list (pos s) + if aborted s then 1 else 0.

Lemma team_step_progress s s' : team_step s s' -> progress s' = S (progress s).
Proof.
  intros [i Hs]. unfold thread_step in Hs. destruct (aborted s) eqn:Ea; [done|]. destruct (pos s !! i) as [p|] eqn:Hi; [|done].
  destruct (6 * K <=? p); [done|]. unfold progress. rewrite Ea.
  assert (forall c, progress (advance i p c s) = S (sum_list (pos s) + 0)) as Hadv.
  { intros c. unfold progress. cbn [advance pos aborted]. rewrite (sum_list_insert _ _ _ Hi), Ea. lia. }
  unfold progress in Hadv.
  destruct (p mod 6) as [|[|[|[|[|[|k]]]]]]; try (destruct (forallb _ (pos s)); [|done]); try (injection Hs as <-; apply Hadv).
  destruct (_ && _); injection Hs as <-; [simpl; lia|apply Hadv].
Qed.

Lemma reachable_inv k c s : nsteps team_step k (team_start c) s -> team_inv s /\ progress s = k.
Proof.
  assert (forall s0, team_inv s0 -> nsteps team_step k s0 s -> team_inv s /\ progress s = k + progress s0) as H.
  { intros s0 H0 Hs. induction Hs as [s0|k s0 s1 s Hstep _ IH]; [done|].
    destruct IH as [IH1 IH2]; [by eapply team_step_inv|]. split; [done|]. rewrite IH2, (team_step_progress _ _ Hstep). lia. }
  intros Hs. destruct (H _ (team_start_inv c) Hs) as [H1 H2]. split; [done|]. rewrite H2. unfold progress.
  cbn [team_start pos aborted]. assert (sum_list (replicate n 0) = 0) as ->; [|lia]. clear. by induction n.
Qed.
End Threads.

(** C22 (threads). A team of two threads or more runs the check [K] times, in any interleaving and from
    any counters. Every run ends: it has at most [6 * K * n + 1] steps, and only stops with all threads
    past their last call or the program aborted. It is aborted exactly when the sequential check aborts
    in some round, and at the first of them. *)
Theorem team_runs n K color c k s : 2 <= n ->
  nsteps (team_step n K color) k (team_start n c) s ->
  k <= 6 * K * n + 1 /\
  ((forall s', ~ team_step n K color s s') ->
     (aborted s = false -> pos s = replicate n (6 * K)) /\
     (aborted s = true <-> exists r, r < K /\ round_aborts n color r = true)) /\
  (aborted s = true -> exists r, r < K /\ round_aborts n color r = true /\ forall r', r' < r -> round_aborts n color r' = false).
Proof.
  intros Hn Hs. destruct (reachable_inv n K color Hn k c s Hs) as [H Hk].
  assert (aborted s = true -> exists r, r < K /\ round_aborts n color r = true /\ forall r', r' < r -> round_aborts n color r' = false) as Hab.
  { intros Ha. destruct (ti_aborted _ _ _ _ H Ha) as (r & Hr & HP & E). exists r. split; [done|]. split; [done|].
    intros r' Hr'. apply (ti_passed _ _ _ _ H _ r' HP). lia. }
  split; [|split; [|done]].
  - rewrite <- Hk. unfold progress. pose proof (sum_list_bound (pos s) (6 * K) (ti_bound _ _ _ _ H)) as Hb.
    rewrite (ti_threads _ _ _ _ H) in Hb. destruct (aborted s); lia.
  - intros Hstuck.
    assert (aborted s = false -> forall i p, pos s !! i = Some p -> p = 6 * K) as Hend.
    { intros Ha i p Hi. pose proof (ti_bound _ _ _ _ H i p Hi). destruct (decide (p < 6 * K)) as [Hlt|]; [exfalso|lia].
      destruct (team_progress n K color Hn s H Ha) as [s' Hs']; [by exists i, p|]. by apply (Hstuck s'). }
    split.
    + intros Ha. apply list_eq_same_length with (n := n); [by apply length_replicate|apply (ti_threads _ _ _ _ H)|].
      intros i x y Hi Hx Hy. rewrite (Hend Ha i x Hx). by apply lookup_replicate in Hy as [-> _].
    + split; [intros Ha; destruct (Hab Ha) as (r & ? & ? & _); by exists r|]. intros (r & Hr & E).
      destruct (aborted s) eqn:Ha; [done|exfalso]. destruct (lookup_lt_is_Some_2 (pos s) 0) as [P HP]; [rewrite (ti_threads _ _ _ _ H); lia|].
      rewrite (ti_passed _ _ _ _ H P r HP) in E; [done|]. rewrite (Hend eq_refl 0 P HP). lia.
Qed.

(** * Example *)

(** A schedule: the threads to step. *)
Fixpoint run_schedule (n K : nat) (color : nat -> nat -> Z) (sch : list nat) (s : Team) : option Team :=
  match sch with [] => Some s | i :: r => s' ← thread_step n K color s i; run_schedule n K color r s' end.

Lemma run_schedule_steps n K color sch : forall s s', run_schedule n K color sch s = Some s' -> nsteps (team_step n K color) (length sch) s s'.
Proof.
  induction sch as [|i sch IH]; intros s s'; simpl; [intros [= <-]; constructor|].
  destruct (thread_step n K color s i) as [s1|] eqn:E; [|done]. intros H. econstructor; [by exists i|by apply IH].
Qed.

(** Two threads at a barrier, then one at a barrier and one at a [single]. *)
Definition two_calls (i r : nat) : Z := match r with 0 => 36 | _ => if i =? 0 then 36 else 3 end.

Definition two_schedule : list nat :=
  [1; 0; 0; 1; 1; 0; 1; 0; 0; 1; 1; 0; 1; 0; 0; 1; 0; 1; 0; 1; 0].

Lemma team_runs_witness : exists s, run_schedule 2 2 two_calls two_schedule (team_start 2 no_counts) = Some s /\
  aborted s = true /\ exists r, r < 2 /\ round_aborts 2 two_calls r = true.
Proof.
  destruct (run_schedule 2 2 two_calls two_schedule (team_start 2 no_counts)) as [s|] eqn:E; [|vm_compute in E; discriminate E].
  assert (aborted s = true) as Ha by (vm_compute in E; by injection E as <-).
  exists s. split; [done|]. split; [done|]. apply run_schedule_steps in E.
  destruct (team_runs 2 2 two_calls no_counts (length two_schedule) s) as (_ & _ & Hr); [lia|exact E|].
  destruct (Hr Ha) as (r & H1 & H2 & _). by exists r.
Defined.
